(* ===== verification/_CoqProject ===== *)
-Q . S2P
Prelude.v
Floats.v
Errors.v
Sharing.v
KVStore.v
Runtime.v
Lifecycle.v
HexUtils.v
DataStore.v
Types.v
Connection.v
SyncStatus.v
SyncLoop.v
PaymentStore.v
Bdk.v
Json.v
AggTypes.v
AggUtxo.v
AggSigning.v
AggRbf.v
Aggregate.v
AggBuild.v
AggInvariant.v
SampleWallet.v
AggExamples.v
Codec.v
PeerStore.v
EventQueue.v
StoreExamples.v
OmMailbox.v
RateLimiter.v
StaticInvoiceStore.v
FeeEstimator.v
Config.v
IoUtils.v
WriteOrder.v
SqliteStore.v
VssStore.v
LocalGraphStore.v
SeedFile.v
WalletSer.v
WalletPersist.v
WalletExamples.v
WalletKeys.v
Event.v
NodeMetrics.v
Gossip.v
ChainFees.v
Broadcast.v
TxBroadcaster.v
Wallet.v
WalletAccounts.v
WalletPayments.v
ChainSync.v
Mempool.v
HeaderCache.v
Bitcoind.v
Electrum.v
LightningSync.v
WalletSend.v
WalletBroadcast.v
WalletUtxos.v
WalletLink.v
OnchainPayment.v
Payments.v
Probes.v
Liquidity.v
Lsp.v
NodePayments.v
EventHandler.v
ChannelTypes.v
Balances.v
Channels.v
NodeExamples.v
ChainExamples.v
HandlerExamples.v
ChannelExamples.v
BackendExamples.v
