(* ===== verification/Prelude.v ===== *)
(** * ldk-node: life cycle, chain, on-chain wallet, payments, channels, events and stores

    ldk-node is a Lightning node as a library.  It wraps LDK (channels, gossip) and BDK
    (descriptor wallets) and adds what a node needs around them: an on-chain wallet over
    several accounts, its synchronisation with the chain, Lightning payments and their
    records, the handling of LDK's events, channels bought from and sold by liquidity
    services, peers and connections, an event queue, a mailbox and a rate limiter for
    asynchronous payments, fee estimates, the tasks that run all of it, and its persistence
    in one key-value store over SQLite or a VSS server.  This development is a shallow
    embedding of these parts in Rocq, with the theorems that make them correct.

    ** Conventions

    Pure functions are functions.  A method that may fail returns an [outcome]: [Ok], [Err]
    or [Panic], where [Panic] is an aborted process ([expect], [unwrap], an overflowing
    [Amount], an index out of range).  A method on [&mut self] is a [cmd]: it passes the
    state, also out of its failing branches, so that what was done before an error stays
    done.  Integers are in [Z] at the width of the source: [wrap16], [wrap32], [wrap64] for
    the operators of a release build, [checked_*] and [saturating_*] as in Rust; debug
    assertions are absent, as in that profile.  A [HashMap] is a [gmap] with an [IterOrder],
    an arbitrary order of its keys, so that what is proved holds for every order.  Time, the
    answers of servers and the failures of the store are inputs.  Loops are structural but for
    two: the trimming of texts has the length of the text as fuel, which [trim_exact] shows to
    be enough, and listing at a VSS server has rounds as fuel, of which [listing_ends] shows
    that one more than there are pages is enough.

    What is outside the repository is a class with the operations used and, separately, the
    documented laws relied on: [Bitcoin], [Bdk] and [CoinSelection] (Bdk.v), [KVStore]
    (KVStore.v), [Codec], [U16Codec] and [LdkCodec] for LDK's byte formats, [Bip32],
    [WalletLoader] and [Persister] (WalletKeys.v), [BitcoinAddress] (Event.v), [Scripts]
    (WalletUtxos.v), [VssCrypto] (VssStore.v).  LDK's channel manager, chain monitor and
    liquidity manager appear as the list of calls the node makes of them and as inputs for
    what they answer.  [SampleWallet], [StoreExamples], [WalletExamples], [NodeExamples],
    [ChainExamples], [HandlerExamples], [ChannelExamples] and [BackendExamples] give instances
    that satisfy the laws, and apply the theorems to concrete values.

    ** Files and sources

    Foundations: [Prelude] (this file: outcomes, commands, integers, lists), [Errors]
    (error.rs), [Types] and [Codec].

    Stores.  [KVStore] is the key-value interface, with a store that fails on schedule.
    [DataStore] is data_store.rs, [PaymentStore] payment/store.rs with the migration of
    v0.2.1 records, [PeerStore] peer_store.rs, [EventQueue] and [Event] the queue and the
    events of event.rs, [HexUtils] hex_utils.rs, [IoUtils] the names and change-set readers
    of io/utils.rs, [WalletSer] and [WalletPersist] wallet/ser.rs and wallet/persist.rs,
    [NodeMetrics] the metrics of lib.rs, [StaticInvoiceStore], [OmMailbox] and [RateLimiter]
    payment/asynchronous/*.rs, [FeeEstimator] fee_estimator.rs, [TxBroadcaster]
    tx_broadcaster.rs, [Config] config.rs.  Behind the interface, [WriteOrder] is the
    mechanism that keeps concurrent writes of both backends in order, over an interface for
    the names of locks that [SqliteStore] (io/sqlite_store/mod.rs, migrations.rs) and
    [VssStore] (io/vss_store.rs) implement; [LocalGraphStore] is io/local_graph_store.rs and
    [SeedFile] the seed file of io/utils.rs.

    The aggregate wallet (crates/bdk-wallet-aggregate): [AggTypes] types.rs, [AggUtxo]
    utxo.rs, [AggSigning] signing.rs, [AggRbf] rbf.rs, [Aggregate] and [AggBuild] lib.rs,
    [AggInvariant] the invariant of all its methods, [AggExamples] its witnesses.

    The node's wallet (wallet/mod.rs): [WalletKeys] (with builder.rs: keys, descriptors,
    loading), [Wallet] (state, accounts, addresses, balances), [WalletAccounts] (the theorems
    about accounts), [WalletPayments] (payment records), [WalletSend] (payments, fee bumps,
    channel funding), [WalletBroadcast] (all calls together), [WalletUtxos] (outputs and
    scripts for users and LDK), [WalletLink] (wallet/persist.rs implements [Persister]).
    [OnchainPayment] is payment/onchain.rs, the handler applications call.

    The chain (chain/): [SyncStatus] says who synchronises, [ChainSync] what one
    synchronisation over Esplora or Electrum does: the requests, the wallets' updates, the
    payment records and the events reported.  [Bitcoind] is the polling of a full node
    (bitcoind.rs), with [Mempool] its mempool, [HeaderCache] its headers and [Json] its
    answers.  [ChainFees] updates the fee rates and [Broadcast] submits a transaction, each
    for all sources; [Electrum] is the Electrum client, its filter and its shutdown,
    [LightningSync] the synchronisation of LDK, [SyncLoop] the background intervals.
    [Floats] is the floating-point arithmetic fee rates and the rate limiter compute with.

    Lightning: [Payments] has the payment records and the calls of payment/bolt11.rs,
    bolt12.rs and spontaneous.rs with the arms of event.rs that settle payments, [Probes] the
    probes and fee estimates, [Liquidity] the source of liquidity.rs (its pending requests,
    client and service), [Lsp] the purchase of just-in-time channels, [NodePayments]
    payment/unified_qr.rs, [EventHandler] the whole of [handle_event] of event.rs over all of
    them.  [ChannelTypes] is the channel records of types.rs and config.rs, [Balances]
    balance.rs and the overviews of lib.rs, [Channels] the peers and channels of lib.rs,
    [Gossip] gossip.rs, scoring.rs and the announcement task.

    Tasks: [Sharing] is the protocol by which callers share one attempt, a step relation over
    an interface that [Connection] (connection.rs) and [SyncStatus] implement; [Runtime] is
    runtime.rs, [Lifecycle] start and stop of lib.rs over it.

    ** What the theorems show

    Aggregate wallet: no sequence of calls panics or loses the primary wallet or a persister,
    unless a caller takes them out of the maps it is handed ([aggregate_never_panics]); adding a wallet is atomic; blocks reach every wallet;
    transaction states are the wallets' consensus; replacements pay more, keep every payment
    and change only the change output; signing leaves no owned input unsigned.

    Stores: whatever writes fail, disk and memory agree after each call
    ([run_durable], [peers_durable], [calls_durable], [persist_crash_safe]), data reads back
    as written, rewinding is exact; and where a failure can leave them apart
    ([update_failure_diverges], [interleaved_writes_lose_event]).  In every interleaving of
    concurrent writes, with failing ones and ones whose answer is lost, a later call's value is
    what stays ([later_call_wins]); opening a
    database keeps its data through every failure ([open_keeps_data]), but a migrated table
    keeps a primary key that lets accounts' rows replace each other
    ([migrated_rows_collide]); listing ends ([listing_ends]), the schema version is decided
    once ([schema_version_stable]), objects are bound to their names ([objects_bound]), the
    graph's file and the seed read back as written ([graph_cache_faithful],
    [seed_never_replaced]).

    Node's wallet: account calls refine a specification on sets of accounts, through every
    failure ([accounts_refine]); removing an account keeps its data; the account generation
    detects stale snapshots; a built node starts consistent.  Payments that
    are to retain the anchor reserve keep it, unless it is dust ([reserve_kept]), and those
    that do not drain the wallets never name channel funding outputs ([named_inputs_safe]); a
    transaction of the wallet is recorded before it is broadcast, in every order of calls and
    with LDK's own broadcasts in between ([broadcasts_recorded]), and
    only recorded ones are replaced; payment records follow the chain
    ([payments_follow_chain]); a prepared send has one final answer, and its transaction is
    dispatched at most once ([prepared_answer_final]).

    Chain: a synchronisation reports exactly what changed ([sync_events_exact]), and the
    accounts it will ask for incrementally are those that were answered
    ([sync_marks_exactly]).  A poll of a full node that completes covered every account that
    is loaded then, whatever other tasks did to the accounts meanwhile, and left the wallet its
    blocks and its mempool made ([poll_complete]); its mempool reaches the wallet, but for
    transactions it did not have when asked or named an earlier time for
    ([mempool_followed]).  A fee update replaces the whole cache
    or nothing ([fees_replaced_whole]); a submission is reported as accepted or rejected only
    on the server's word ([broadcast_answers_definite]).

    Lightning: an arriving payment gets one answer, and funds are claimed only for what was
    asked and within the fee agreed ([claimable_answered], [jit_fee_honoured]); an invoice is
    paid once ([paid_once]) and a URI one way, unless the store refuses the record of the first
    ([unified_single_rail]); what the user is told,
    and when not ([outcome_reported_once], [lifecycle_durable], [limited_request_replayed]).
    Answers of a liquidity service reach their request ([answer_reaches_request]); channels
    are opened, accepted and sold only out of funds that cover them and the reserve
    ([calls_justified], [inbound_channel_guarded], [service_guarded]); a disconnected peer
    stays forgotten until it is asked for or comes back by a channel or a rebuilt node
    ([forgotten_peer_stays]); balances, channels and peers are listed exactly
    ([balances_exact], [channels_listed], [peers_listed_once]); snapshots have no gap and
    announcements are an hour apart ([snapshots_contiguous], [announcements_spaced]).

    Tasks: attempts to connect or synchronise are shared in every interleaving, with dropped
    futures ([connect_attempts_shared]); over any starts, stops and failures only tasks of the
    last start, and of starts that failed to bind since the last stop, run while the node runs
    ([running_tasks_current]).  Where a dropped future, a failed
    start or one failed account spoils that, the theorems say how ([dropped_sync_blocks],
    [failed_start_leaks], [failed_sync_hides_eviction]).

    Bounds: fee estimates, mailbox, rate limiter, child-pays-for-parent rates.

    ** How far the model goes

    Methods of the node's wallet run one at a time; the operations on accounts hold the
    wallet's lock throughout; the event queue, shared attempts, concurrent writes, requests to
    a liquidity service and the node's tasks are modelled with their interleavings; payment
    calls and LDK's events come one at a time, in any order.  What ends while a call waits for
    tasks is an input, so that every outcome of a timeout is covered.  Each account's persister works on its own part of the shared key-value store, which
    [wallet_locations_valid] justifies: no two accounts share a location.  BDK's [finish]
    chooses inputs of the primary wallet by itself where it is not told to use chosen ones
    only; the theorems say what it is asked, not what it picks.  A write of the key-value store
    that reports an error has left it as it was; SQLite keeps to that, a VSS server whose
    answer is lost does not, and [WriteOrder] is where such answers are modelled.

    ** Not modelled

    The network clients behind chain/*.rs and vss_store.rs, whose answers are inputs, with
    their retries; the wiring of the builder and its setters, which only fill records; the
    reads of graph, scorer and payments at start, which hand LDK's formats to LDK; accessors
    of lib.rs that forward to a part modelled elsewhere; the set-up of paths to a static
    invoice server, graph.rs and message_handler.rs, which forward to LDK; logging, the texts
    of errors, and the foreign-function bindings. *)

From stdpp Require Export base gmap list strings sorting.
From Stdlib Require Export ZArith Lia ZifyNat.
From Stdlib Require Import Strings.Byte.

Declare Scope ldk_scope.
Delimit Scope ldk_scope with ldk.
Global Open Scope Z_scope.

Create HintDb ldk discriminated.

(** ** Outcomes of fallible code

    A Rust function of type [Result<A, E>] may also abort: [unwrap] and [expect]
    on a missing value, slice indexing out of range, and the operators of
    [bitcoin::Amount] panic.  [Panic] is that third outcome; both release and
    dev profiles of the workspace set [panic = "abort"], so nothing observes the
    state afterwards. *)

Inductive outcome (E A : Type) : Type :=
| Ok (a : A)
| Err (e : E)
| Panic.
Arguments Ok {_ _} _.
Arguments Err {_ _} _.
Arguments Panic {_ _}.

#[global] Instance outcome_eq_dec `{EqDecision E, EqDecision A} :
  EqDecision (outcome E A).
Proof. solve_decision. Defined.

#[global] Instance outcome_ret {E} : MRet (outcome E) := λ A a, Ok a.
#[global] Instance outcome_bind {E} : MBind (outcome E) := λ A B f m,
  match m with Ok a => f a | Err e => Err e | Panic => Panic end.
#[global] Instance outcome_fmap {E} : FMap (outcome E) := λ A B f m,
  match m with Ok a => Ok (f a) | Err e => Err e | Panic => Panic end.

(** [opt.ok_or(e)] *)
Definition ok_or {E A} (o : option A) (e : E) : outcome E A :=
  match o with Some a => Ok a | None => Err e end.

(** [opt.expect(..)] and [opt.unwrap()] *)
Definition expect {E A} (o : option A) : outcome E A :=
  match o with Some a => Ok a | None => Panic end.

(** [res.map_err(f)] *)
Definition map_err {E F A} (f : E → F) (m : outcome E A) : outcome F A :=
  match m with Ok a => Ok a | Err e => Err (f e) | Panic => Panic end.

(** [res.ok()], for a result that does not panic. *)
Definition ok {E A} (m : outcome E A) : option A :=
  match m with Ok a => Some a | _ => None end.

(** [res.or_else(f)] *)
Definition or_else {E F A} (m : outcome E A) (f : E → outcome F A) : outcome F A :=
  match m with Ok a => Ok a | Err e => f e | Panic => Panic end.

Definition is_ok {E A} (m : outcome E A) : bool :=
  match m with Ok _ => true | _ => false end.

Lemma bind_Ok {E A B} (m : outcome E A) (f : A → outcome E B) b :
  m ≫= f = Ok b ↔ ∃ a, m = Ok a ∧ f a = Ok b.
Proof. destruct m; naive_solver. Qed.

Lemma bind_Err {E A B} (m : outcome E A) (f : A → outcome E B) e :
  m ≫= f = Err e ↔ m = Err e ∨ ∃ a, m = Ok a ∧ f a = Err e.
Proof. destruct m; naive_solver. Qed.

Lemma bind_Panic {E A B} (m : outcome E A) (f : A → outcome E B) :
  m ≫= f = Panic ↔ m = Panic ∨ ∃ a, m = Ok a ∧ f a = Panic.
Proof. destruct m; naive_solver. Qed.

Lemma fmap_Ok {E A B} (m : outcome E A) (f : A → B) b :
  f <$> m = Ok b ↔ ∃ a, m = Ok a ∧ b = f a.
Proof. destruct m; naive_solver. Qed.

Lemma ok_or_Ok {E A} (o : option A) (e : E) a : ok_or o e = Ok a ↔ o = Some a.
Proof. destruct o; naive_solver. Qed.

Lemma ok_or_Err {E A} (o : option A) (e e' : E) :
  ok_or o e = Err e' ↔ o = None ∧ e' = e.
Proof. destruct o; naive_solver. Qed.

Lemma ok_or_Panic {E A} (o : option A) (e : E) : ok_or o e = Panic ↔ False.
Proof. destruct o; naive_solver. Qed.

Lemma expect_Ok {E A} (o : option A) (a : A) : @expect E A o = Ok a ↔ o = Some a.
Proof. destruct o; naive_solver. Qed.

Lemma expect_Err {E A} (o : option A) (e : E) : @expect E A o = Err e ↔ False.
Proof. destruct o; naive_solver. Qed.

Lemma expect_Panic {E A} (o : option A) : @expect E A o = Panic ↔ o = None.
Proof. destruct o; naive_solver. Qed.

Lemma map_err_Ok {E F A} (f : E → F) (m : outcome E A) a :
  map_err f m = Ok a ↔ m = Ok a.
Proof. destruct m; naive_solver. Qed.

Lemma map_err_Err {E F A} (f : E → F) (m : outcome E A) e :
  map_err f m = Err e ↔ ∃ e', m = Err e' ∧ e = f e'.
Proof. destruct m; naive_solver. Qed.

Lemma map_err_Panic {E F A} (f : E → F) (m : outcome E A) :
  map_err f m = Panic ↔ m = Panic.
Proof. destruct m; naive_solver. Qed.

(** [inv_outcome] takes a hypothesis that a chain of [?]s returned apart into
    one hypothesis per step. *)
Ltac inv_outcome_step :=
  match goal with
  | H : (_ ≫= _) = Ok _ |- _ =>
      apply bind_Ok in H as (? & ? & ?)
  | H : (_ <$> _) = Ok _ |- _ =>
      apply fmap_Ok in H as (? & ? & ?)
  | H : ok_or _ _ = Ok _ |- _ => apply ok_or_Ok in H
  | H : expect _ = Ok _ |- _ => apply expect_Ok in H
  | H : map_err _ _ = Ok _ |- _ => apply map_err_Ok in H
  | H : map_err _ _ = Err _ |- _ => apply map_err_Err in H as (? & ? & ?)
  | H : map_err _ _ = Panic |- _ => apply map_err_Panic in H
  | H : ok_or _ _ = Err _ |- _ => apply ok_or_Err in H as [? ?]
  | H : ok_or _ _ = Panic |- _ => apply ok_or_Panic in H
  | H : expect _ = Err _ |- _ => apply expect_Err in H
  | H : expect _ = Panic |- _ => apply expect_Panic in H
  end.
Ltac inv_outcome := repeat (inv_outcome_step; simplify_eq/=).

(** [destruct_pair H s r] names the two components of the pair that the
    [let]-statement [H] scrutinises. *)
Ltac destruct_pair H s r :=
  match type of H with
  | context [match ?x with pair _ _ => _ end] => destruct x as [s r]
  end.

(** ** Stateful fallible code

    A method on [&mut self] that returns a [Result] keeps the mutations it made
    before it failed, so the state is threaded through the failing branch too. *)

Definition cmd (S E A : Type) : Type := S → S * outcome E A.

#[global] Instance cmd_ret {S E} : MRet (cmd S E) := λ A a s, (s, Ok a).
#[global] Instance cmd_bind {S E} : MBind (cmd S E) := λ A B f m s,
  match m s with
  | (s', Ok a) => f a s'
  | (s', Err e) => (s', Err e)
  | (s', Panic) => (s', Panic)
  end.

(** Read the state, and run the command it selects. *)
Definition with_state {S E A} (f : S → cmd S E A) : cmd S E A := λ s, f s s.
Definition modify {S E} (f : S → S) : cmd S E unit := λ s, (f s, Ok tt).
Definition lift {S E A} (m : outcome E A) : cmd S E A := λ s, (s, m).
Definition fail {S E A} (e : E) : cmd S E A := λ s, (s, Err e).
Definition cmd_map_err {S E F A} (f : E → F) (m : cmd S E A) : cmd S F A := λ s,
  let '(s', r) := m s in (s', map_err f r).

Lemma cmd_bind_Ok {S E A B} (m : cmd S E A) (f : A → cmd S E B) s s' b :
  (m ≫= f) s = (s', Ok b) ↔ ∃ s1 a, m s = (s1, Ok a) ∧ f a s1 = (s', Ok b).
Proof. unfold mbind, cmd_bind. destruct (m s) as [? []]; naive_solver. Qed.

(** A loop [for x in xs { body(x)?; }]. *)
Fixpoint for_each {S E A} (body : A → cmd S E unit) (xs : list A) : cmd S E unit :=
  match xs with
  | [] => mret tt
  | x :: xs => body x ≫= λ _, for_each body xs
  end.

(** [iter.try_fold(init, f)] *)
Fixpoint try_fold {E A B} (f : B → A → outcome E B) (acc : B) (xs : list A) :
    outcome E B :=
  match xs with
  | [] => Ok acc
  | x :: xs => f acc x ≫= λ acc', try_fold f acc' xs
  end.

(** [iter.map(f).collect::<Result<Vec<_>, _>>()] *)
Fixpoint try_map {E A B} (f : A → outcome E B) (xs : list A) : outcome E (list B) :=
  match xs with
  | [] => Ok []
  | x :: xs => f x ≫= λ y, (λ ys, y :: ys) <$> try_map f xs
  end.

(** [iter.enumerate()] *)
Definition enumerate {A} (xs : list A) : list (nat * A) := zip (seq 0 (length xs)) xs.

(** [xs.sort_by(cmp)], a stable sort; [before x y] is [cmp(x, y) != Greater]. *)
Fixpoint insert_by {A} (before : A → A → bool) (x : A) (xs : list A) : list A :=
  match xs with
  | [] => [x]
  | y :: ys => if before x y then x :: y :: ys else y :: insert_by before x ys
  end.
Definition sort_by {A} (before : A → A → bool) (xs : list A) : list A :=
  foldr (insert_by before) [] xs.

(** [iter.find_map(f)] *)
Fixpoint find_map {A B} (f : A → option B) (xs : list A) : option B :=
  match xs with
  | [] => None
  | x :: xs => match f x with Some y => Some y | None => find_map f xs end
  end.

Lemma find_map_Some {A B} (f : A → option B) xs y :
  find_map f xs = Some y →
  ∃ pre x post, xs = pre ++ x :: post ∧ f x = Some y ∧ Forall (λ z, f z = None) pre.
Proof.
  induction xs as [|x xs IH]; [done|]; simpl. destruct (f x) eqn:Hx.
  - intros; simplify_eq. by exists [], x, xs.
  - intros (pre & z & post & -> & ? & ?)%IH.
    exists (x :: pre), z, post. eauto.
Qed.

Lemma find_map_elem_of {A B} (f : A → option B) xs y :
  find_map f xs = Some y → ∃ x, x ∈ xs ∧ f x = Some y.
Proof.
  intros (pre & x & post & -> & ? & ?)%find_map_Some. exists x. set_solver.
Qed.

Lemma find_map_None {A B} (f : A → option B) xs :
  find_map f xs = None ↔ ∀ x, x ∈ xs → f x = None.
Proof.
  induction xs as [|x xs IH]; simpl; [set_solver|].
  destruct (f x) eqn:Hx; split.
  - done.
  - intros H. specialize (H x). rewrite Hx in H. set_solver.
  - intros H z [->|Hz]%elem_of_cons; [done|]. by apply IH.
  - intros H. apply IH. set_solver.
Qed.

Lemma insert_by_perm {A} (before : A → A → bool) x xs : insert_by before x xs ≡ₚ x :: xs.
Proof.
  induction xs as [|y ys IH]; simpl; [done|]. destruct (before x y); [done|].
  rewrite IH. apply Permutation_swap.
Qed.

Lemma sort_by_perm {A} (before : A → A → bool) xs : sort_by before xs ≡ₚ xs.
Proof.
  unfold sort_by. induction xs as [|x xs IH]; simpl; [done|]. by rewrite insert_by_perm, IH.
Qed.

(** The first element of a sorted list comes before all others. *)
Lemma sort_by_head {A} (key : A → Z) xs x rest :
  sort_by (λ a b, key b <=? key a) xs = x :: rest → ∀ y, y ∈ xs → key y ≤ key x.
Proof.
  revert x rest. unfold sort_by. induction xs as [|z xs IH]; intros x rest; simpl; [done|].
  destruct (foldr (insert_by _) [] xs) as [|h hs] eqn:Hs; simpl.
  - assert (xs = []) as ->.
    { pose proof (sort_by_perm (λ a b, key b <=? key a) xs) as Hp. unfold sort_by in Hp.
      rewrite Hs in Hp. by apply Permutation_nil. }
    intros ? y ?. simplify_eq. set_solver.
  - destruct (Z.leb_spec (key h) (key z)) as [Hle|Hlt]; intros ? y [->|Hy]%elem_of_cons;
      simplify_eq; specialize (IH _ _ eq_refl); [lia| |lia|by apply IH].
    specialize (IH y Hy). lia.
Qed.

Lemma try_fold_app {E A B} (f : B → A → outcome E B) acc xs ys :
  try_fold f acc (xs ++ ys) = (acc' ← try_fold f acc xs; try_fold f acc' ys).
Proof.
  revert acc. induction xs as [|x xs IH]; intros acc; [done|]. cbn [try_fold app].
  destruct (f acc x); cbn; [apply IH|done..].
Qed.

Lemma try_map_Ok {E A B} (f : A → outcome E B) xs ys :
  try_map f xs = Ok ys ↔ Forall2 (λ x y, f x = Ok y) xs ys.
Proof.
  revert ys; induction xs as [|x xs IH]; intros ys; simpl.
  - split; [intros; simplify_eq; constructor|]. by inversion 1.
  - split.
    + intros H. inv_outcome. constructor; [done|]. by apply IH.
    + inversion 1 as [|? y ? ys' Hxy Hrest]; subst. rewrite Hxy; simpl.
      apply IH in Hrest. by rewrite Hrest.
Qed.

Lemma try_map_total {E A B} (f : A → outcome E B) xs :
  (∀ x, x ∈ xs → ∃ y, f x = Ok y) → ∃ ys, try_map f xs = Ok ys.
Proof.
  induction xs as [|x xs IH]; intros Hf; simpl; [by eexists|].
  destruct (Hf x) as [y ->]; [set_solver|]. destruct IH as [ys ->]; [set_solver|].
  by eexists.
Qed.

Lemma try_map_Err {E A B} (f : A → outcome E B) xs e :
  try_map f xs = Err e → ∃ x, x ∈ xs ∧ f x = Err e.
Proof.
  induction xs as [|x xs IH]; simpl; [done|].
  destruct (f x) as [y|e'|] eqn:Hx; simpl; intros Hm; [|simplify_eq; set_solver|done].
  destruct (try_map f xs); simplify_eq/=. destruct IH as (z & ? & ?); set_solver.
Qed.

Lemma try_map_Panic {E A B} (f : A → outcome E B) xs :
  try_map f xs = Panic → ∃ x, x ∈ xs ∧ f x = Panic.
Proof.
  induction xs as [|x xs IH]; simpl; [done|].
  destruct (f x) as [y|e'|] eqn:Hx; simpl; intros Hm; [|done|set_solver].
  destruct (try_map f xs); simplify_eq/=. destruct IH as (z & ? & ?); set_solver.
Qed.

Lemma Forall2_elem_r {A B} (R : A → B → Prop) xs ys y :
  Forall2 R xs ys → y ∈ ys → ∃ x, x ∈ xs ∧ R x y.
Proof. induction 1; set_solver. Qed.

Lemma Forall2_elem_l {A B} (R : A → B → Prop) xs ys x :
  Forall2 R xs ys → x ∈ xs → ∃ y, y ∈ ys ∧ R x y.
Proof. induction 1; set_solver. Qed.

Lemma elem_of_zip_seq {A} (xs : list A) i x :
  (i, x) ∈ zip (seq 0 (length xs)) xs ↔ xs !! i = Some x.
Proof.
  rewrite list_elem_of_lookup. split.
  - intros (j & (i' & x' & ? & Hs & Hx)%lookup_zip_with_Some). simplify_eq.
    apply lookup_seq in Hs as [-> _]. done.
  - intros Hx. exists i. apply lookup_zip_with_Some. exists i, x. split_and!; [done| |done].
    apply lookup_seq. split; [lia|]. by eapply lookup_lt_Some.
Qed.

Lemma last_Some_elem_of {A} (xs : list A) x : last xs = Some x → x ∈ xs.
Proof. intros (ys & ->)%last_Some. set_solver. Qed.

(** Dropping an index below all of a list's indices drops nothing. *)
Lemma filter_indices_above {A} (i n : nat) (xs : list A) :
  (i < n)%nat →
  List.filter (λ '(j, _), negb (bool_decide (Some j = Some i))) (zip (seq n (length xs)) xs)
  = zip (seq n (length xs)) xs.
Proof.
  revert n. induction xs as [|x xs IH]; intros n Hn; [done|]. cbn [length seq zip_with List.filter].
  rewrite bool_decide_eq_false_2 by (intros ?; simplify_eq; lia). cbn [negb].
  rewrite IH by lia. done.
Qed.

(** ** Code that does not abort *)

Definition no_panic {E A} (m : outcome E A) : Prop := m ≠ Panic.

Create HintDb no_panic discriminated.

Lemma no_panic_Ok {E A} (a : A) : no_panic (@Ok E A a).
Proof. done. Qed.
Lemma no_panic_Err {E A} (e : E) : no_panic (@Err E A e).
Proof. done. Qed.
Lemma no_panic_ok_or {E A} (o : option A) (e : E) : no_panic (ok_or o e).
Proof. by destruct o. Qed.
Lemma no_panic_expect {E A} (o : option A) : is_Some o → no_panic (@expect E A o).
Proof. by intros [? ->]. Qed.
Lemma no_panic_map_err {E F A} (f : E → F) (m : outcome E A) :
  no_panic m → no_panic (map_err f m).
Proof. by destruct m. Qed.
Lemma no_panic_bind {E A B} (m : outcome E A) (f : A → outcome E B) :
  no_panic m → (∀ x, m = Ok x → no_panic (f x)) → no_panic (m ≫= f).
Proof. destruct m; simpl; intros Hm Hf; [by apply Hf|done|done]. Qed.
Lemma no_panic_try_fold {E A B} (f : B → A → outcome E B) acc xs :
  (∀ b x, no_panic (f b x)) → no_panic (try_fold f acc xs).
Proof.
  intros Hf. revert acc. induction xs as [|x xs IH]; intros acc; simpl; [done|].
  apply no_panic_bind; [apply Hf|]. intros; apply IH.
Qed.
Lemma no_panic_try_map {E A B} (f : A → outcome E B) xs :
  (∀ x, no_panic (f x)) → no_panic (try_map f xs).
Proof. intros Hf Hp. apply try_map_Panic in Hp as (x & _ & Hx). by apply (Hf x). Qed.

#[export] Hint Resolve no_panic_Ok no_panic_Err no_panic_ok_or no_panic_map_err : no_panic.

(** [no_panic] follows the structure of a computation. *)
Ltac solve_no_panic :=
  repeat first
    [ solve [auto with no_panic]
    | eapply no_panic_bind; [|intros ? ?]
    | apply no_panic_map_err
    | apply no_panic_try_fold; intros ? ?
    | apply no_panic_try_map; intros ?
    | case_match
    | progress intros ].

(** ** Machine integers

    Values of [u16], [u32] and [u64] are integers in range; the operations below
    are the ones the source uses.  Unchecked arithmetic wraps, as it does in the
    workspace's release profile (overflow checks are off there and
    [debug_assert!] is compiled out). *)

Definition u16_max : Z := 2 ^ 16 - 1.
Definition u32_max : Z := 2 ^ 32 - 1.
Definition u64_max : Z := 2 ^ 64 - 1.

Definition is_u16 (z : Z) : Prop := 0 ≤ z ≤ u16_max.
Definition is_u32 (z : Z) : Prop := 0 ≤ z ≤ u32_max.
Definition is_u64 (z : Z) : Prop := 0 ≤ z ≤ u64_max.

Definition wrap16 (z : Z) : Z := z mod 2 ^ 16.
Definition wrap32 (z : Z) : Z := z mod 2 ^ 32.
Definition wrap64 (z : Z) : Z := z mod 2 ^ 64.

Definition checked_add64 (a b : Z) : option Z :=
  if a + b <=? u64_max then Some (a + b) else None.
Definition checked_add32 (a b : Z) : option Z :=
  if a + b <=? u32_max then Some (a + b) else None.
Definition checked_sub (a b : Z) : option Z :=
  if b <=? a then Some (a - b) else None.
Definition saturating_sub (a b : Z) : Z := Z.max 0 (a - b).
Definition saturating_add64 (a b : Z) : Z := Z.min u64_max (a + b).
Definition saturating_add32 (a b : Z) : Z := Z.min u32_max (a + b).
Definition saturating_mul64 (a b : Z) : Z := Z.min u64_max (a * b).

#[global] Instance is_u16_dec z : Decision (is_u16 z).
Proof. unfold is_u16. apply _. Defined.
#[global] Instance is_u32_dec z : Decision (is_u32 z).
Proof. unfold is_u32. apply _. Defined.
#[global] Instance is_u64_dec z : Decision (is_u64 z).
Proof. unfold is_u64. apply _. Defined.

Lemma checked_add64_Some a b c :
  checked_add64 a b = Some c ↔ a + b ≤ u64_max ∧ c = a + b.
Proof. unfold checked_add64. destruct (Z.leb_spec (a + b) u64_max); naive_solver lia. Qed.

Lemma checked_add64_None a b : checked_add64 a b = None ↔ u64_max < a + b.
Proof. unfold checked_add64. destruct (Z.leb_spec (a + b) u64_max); naive_solver lia. Qed.

Lemma checked_add32_Some a b c :
  checked_add32 a b = Some c ↔ a + b ≤ u32_max ∧ c = a + b.
Proof. unfold checked_add32. destruct (Z.leb_spec (a + b) u32_max); naive_solver lia. Qed.

Lemma checked_sub_Some a b c : checked_sub a b = Some c ↔ b ≤ a ∧ c = a - b.
Proof. unfold checked_sub. destruct (Z.leb_spec b a); naive_solver lia. Qed.

Lemma checked_sub_None a b : checked_sub a b = None ↔ a < b.
Proof. unfold checked_sub. destruct (Z.leb_spec b a); naive_solver lia. Qed.

Lemma wrap64_small z : is_u64 z → wrap64 z = z.
Proof. unfold is_u64, u64_max, wrap64. intros. apply Z.mod_small. lia. Qed.

Lemma wrap32_small z : is_u32 z → wrap32 z = z.
Proof. unfold is_u32, u32_max, wrap32. intros. apply Z.mod_small. lia. Qed.

Lemma wrap16_small z : is_u16 z → wrap16 z = z.
Proof. unfold is_u16, u16_max, wrap16. intros. apply Z.mod_small. lia. Qed.

Lemma wrap64_range z : is_u64 (wrap64 z).
Proof.
  unfold is_u64, wrap64, u64_max.
  pose proof (Z.mod_pos_bound z (2 ^ 64) ltac:(lia)). lia.
Qed.

(** [lia] extended with the defining equations of division and remainder. *)
Ltac div_lia := zify; Z.to_euclidean_division_equations; lia.

Ltac inv_checked :=
  repeat match goal with
  | H : checked_add64 _ _ = Some _ |- _ => apply checked_add64_Some in H as [? ->]
  | H : checked_add64 _ _ = None |- _ => apply checked_add64_None in H
  | H : checked_add32 _ _ = Some _ |- _ => apply checked_add32_Some in H as [? ->]
  | H : checked_sub _ _ = Some _ |- _ => apply checked_sub_Some in H as [? ->]
  | H : checked_sub _ _ = None |- _ => apply checked_sub_None in H
  end.

(** ** Bytes

    A [u8] is a [Byte.byte]; fixed-size byte arrays ([\[u8; 32\]] hashes and ids)
    are lists of them. *)

Abbreviation u8 := Byte.byte.

#[global] Instance u8_eq_dec : EqDecision u8 := Byte.byte_eq_dec.

#[global] Program Instance u8_countable : Countable u8 :=
  inj_countable Byte.to_N Byte.of_N _.
Next Obligation. apply Byte.of_to_N. Qed.

Definition u8_to_Z (b : u8) : Z := Z.of_N (Byte.to_N b).

Lemma u8_to_Z_range b : 0 ≤ u8_to_Z b < 256.
Proof. unfold u8_to_Z. pose proof (Byte.to_N_bounded b). lia. Qed.

Definition Z_to_u8 (n : Z) : u8 := default Byte.x00 (Byte.of_N (Z.to_N n)).

Lemma u8_to_Z_to_u8 n : 0 ≤ n < 256 → u8_to_Z (Z_to_u8 n) = n.
Proof.
  intros Hn. unfold u8_to_Z, Z_to_u8.
  destruct (Byte.of_N (Z.to_N n)) as [b|] eqn:Hb.
  - simpl. apply Byte.to_of_N in Hb. rewrite Hb. lia.
  - apply Byte.of_N_None_iff in Hb. lia.
Qed.

Lemma u8_to_Z_inj b b' : u8_to_Z b = u8_to_Z b' → b = b'.
Proof.
  unfold u8_to_Z. intros Heq%N2Z.inj. apply (f_equal Byte.of_N) in Heq.
  rewrite !Byte.of_to_N in Heq. by simplify_eq.
Qed.

Lemma u8s_to_Z_inj (bs bs' : list u8) : u8_to_Z <$> bs = u8_to_Z <$> bs' → bs = bs'.
Proof.
  revert bs'. induction bs as [|b bs IH]; intros [|b' bs']; simpl; try done.
  intros Heq. simplify_eq. f_equal; [by apply u8_to_Z_inj|by apply IH].
Qed.

(** ** Sums over lists *)

Definition sum_Z (xs : list Z) : Z := foldr Z.add 0 xs.

Lemma sum_Z_cons x xs : sum_Z (x :: xs) = x + sum_Z xs.
Proof. done. Qed.

Lemma sum_Z_fmap_cons {A} (f : A → Z) x xs :
  sum_Z (f <$> x :: xs) = f x + sum_Z (f <$> xs).
Proof. done. Qed.

Lemma sum_Z_app xs ys : sum_Z (xs ++ ys) = sum_Z xs + sum_Z ys.
Proof. unfold sum_Z. induction xs; simpl; lia. Qed.

Lemma sum_Z_perm xs ys : xs ≡ₚ ys → sum_Z xs = sum_Z ys.
Proof. unfold sum_Z. induction 1; simpl; lia. Qed.

Lemma sum_Z_nonneg xs : Forall (λ x, 0 ≤ x) xs → 0 ≤ sum_Z xs.
Proof. unfold sum_Z. induction 1; simpl; lia. Qed.

(** [iter.sum::<u64>()] or [total += x] without overflow checks. *)
Definition wrapping_sum (acc : Z) (xs : list Z) : Z := foldl (λ t x, wrap64 (t + x)) acc xs.
Lemma wrapping_sum_eq acc xs : is_u64 acc → wrapping_sum acc xs = wrap64 (acc + sum_Z xs).
Proof.
  unfold wrapping_sum. revert acc. induction xs as [|x xs IH]; intros acc Ha; simpl.
  - rewrite Z.add_0_r. by rewrite wrap64_small.
  - rewrite IH by apply wrap64_range. unfold wrap64. rewrite Zplus_mod_idemp_l. f_equal. lia.
Qed.

(** A checked sum by [try_fold]: it succeeds with the exact sum, and it succeeds
    whenever the sum fits. *)
Lemma try_fold_checked_add {E A} (f : A → Z) (e : E) xs acc r :
  try_fold (λ t x, ok_or (checked_add64 t (f x)) e) acc xs = Ok r →
  r = acc + sum_Z (f <$> xs).
Proof.
  revert acc; induction xs as [|x xs IH]; intros acc H.
  - simpl in H. simplify_eq. unfold sum_Z; simpl. lia.
  - rewrite sum_Z_fmap_cons. simpl in H. inv_outcome. inv_checked.
    match goal with H : try_fold _ _ _ = Ok _ |- _ => apply IH in H as -> end.
    lia.
Qed.

Lemma try_fold_checked_add_complete {E A} (f : A → Z) (e : E) xs acc :
  Forall (λ x, 0 ≤ f x) xs →
  acc + sum_Z (f <$> xs) ≤ u64_max →
  try_fold (λ t x, ok_or (checked_add64 t (f x)) e) acc xs
    = Ok (acc + sum_Z (f <$> xs)).
Proof.
  intros Hpos; revert acc; induction Hpos as [|x xs Hx Hpos IH]; intros acc Hle.
  - unfold sum_Z; simpl. f_equal; lia.
  - assert (0 ≤ sum_Z (f <$> xs)).
    { apply sum_Z_nonneg. by apply Forall_fmap. }
    rewrite sum_Z_fmap_cons in Hle |- *. simpl.
    unfold checked_add64. rewrite (proj2 (Z.leb_le _ _)) by lia. simpl.
    rewrite IH by lia. f_equal. lia.
Qed.

(** A checked sum of values that are themselves looked up. *)
Lemma try_fold_checked_values {E A} (f : A → outcome E Z) (e : E) xs acc r :
  try_fold (λ t x, v ← f x; ok_or (checked_add64 t v) e) acc xs = Ok r →
  ∃ vs, Forall2 (λ x v, f x = Ok v) xs vs ∧ r = acc + sum_Z vs.
Proof.
  revert acc; induction xs as [|x xs IH]; intros acc Hr.
  - simpl in Hr. simplify_eq. exists []. split; [constructor|]. unfold sum_Z; simpl. lia.
  - simpl in Hr. inv_outcome. inv_checked.
    match goal with Hf : try_fold _ _ _ = Ok _ |- _ => apply IH in Hf as (vs & ? & ->) end.
    eexists (_ :: vs). split; [by constructor|]. rewrite sum_Z_cons. lia.
Qed.

Lemma try_fold_ext {E A B} (f g : B → A → outcome E B) acc xs :
  (∀ b x, f b x = g b x) → try_fold f acc xs = try_fold g acc xs.
Proof.
  intros Hfg. revert acc. induction xs as [|x xs IH]; intros acc; simpl; [done|].
  rewrite Hfg. destruct (g acc x); simpl; [apply IH|done|done].
Qed.

(** ** Iteration over hash maps

    The order in which a Rust [HashMap] is traversed is unspecified.  An
    [IterOrder] is one such order; definitions that traverse a map take it as an
    argument, and their theorems hold for every order. *)

Class IterOrder (K : Type) `{Countable K} := {
  iter : ∀ {V : Type}, gmap K V → list (K * V);
  iter_perm : ∀ {V : Type} (m : gmap K V), iter m ≡ₚ map_to_list m;
}.

(** One admissible order, for evaluating the definitions on concrete inputs. *)
Definition canonical_order K `{Countable K} : IterOrder K :=
  {| iter := λ V m, map_to_list m; iter_perm := λ V m, Permutation_refl _ |}.

Section iter.
Context `{Countable K} {O : IterOrder K} {V : Type}.
Implicit Types (m : gmap K V) (k : K) (v : V).

(** [map.values()] *)
Definition values m : list V := (iter m).*2.
(** [map.keys()] *)
Definition keys m : list K := (iter m).*1.

Lemma elem_of_iter m k v : (k, v) ∈ iter m ↔ m !! k = Some v.
Proof. rewrite iter_perm. apply elem_of_map_to_list. Qed.

Lemma elem_of_values m v : v ∈ values m ↔ ∃ k, m !! k = Some v.
Proof.
  unfold values. rewrite list_elem_of_fmap. split.
  - intros ([k v'] & -> & Hin). exists k. by apply elem_of_iter.
  - intros [k Hk]. exists (k, v). split; [done|]. by apply elem_of_iter.
Qed.

Lemma elem_of_keys m k : k ∈ keys m ↔ is_Some (m !! k).
Proof.
  unfold keys. rewrite list_elem_of_fmap. split.
  - intros ([k' v] & -> & Hin). exists v. by apply elem_of_iter.
  - intros [v Hk]. exists (k, v). split; [done|]. by apply elem_of_iter.
Qed.

Lemma NoDup_keys m : NoDup (keys m).
Proof. unfold keys. rewrite iter_perm. apply NoDup_fst_map_to_list. Qed.

Lemma values_perm m : values m ≡ₚ (map_to_list m).*2.
Proof. unfold values. by rewrite iter_perm. Qed.

Lemma length_iter m : length (iter m) = size m.
Proof. rewrite iter_perm. apply length_map_to_list. Qed.
End iter.

(** Inserting the entries of a list one by one, as deserialisation loops do. *)
Lemma foldl_insert_to_map {K V} `{Countable K} (l : list (K * V)) (m : gmap K V) :
  NoDup l.*1 → foldl (λ m '(k, v), <[k := v]> m) m l = list_to_map l ∪ m.
Proof.
  revert m. induction l as [|[k v] l IH]; intros m Hnd; [simpl; by rewrite (left_id_L ∅ (∪))|].
  csimpl in Hnd. apply NoDup_cons in Hnd as [Hk Hnd]. cbn [foldl list_to_map foldr].
  rewrite IH by done. rewrite <- insert_union_r by (by apply not_elem_of_list_to_map_1).
  cbn. by rewrite insert_union_l.
Qed.

Lemma foldl_insert_iter {K V} `{Countable K} {O : IterOrder K} (m : gmap K V) :
  foldl (λ m '(k, v), <[k := v]> m) ∅ (iter m) = m.
Proof.
  rewrite foldl_insert_to_map, (right_id_L ∅ (∪)) by apply NoDup_keys.
  etrans; [|apply (list_to_map_to_list m)].
  apply list_to_map_proper; [apply NoDup_keys|apply iter_perm].
Qed.

#[global] Hint Resolve wrap64_small wrap32_small wrap16_small wrap64_range : ldk.
