(* ===== verification/Floats.v ===== *)
(** * Floating-point arithmetic

    The source computes refill counts and fee rates in [f64] and [f32].  They are modelled
    with the Standard Library's specification of binary floating-point arithmetic, so that
    rounding is the source's.  A lower bound of a rounded product is derived here. *)

From Stdlib Require Import Floats.SpecFloat.
From S2P Require Import Prelude.

(** ** Operations *)

Definition f64_of_Z (z : Z) : spec_float := binary_normalize 53 1024 z 0 false.
Definition f64_add : spec_float → spec_float → spec_float := SFadd 53 1024.
Definition f64_mul : spec_float → spec_float → spec_float := SFmul 53 1024.
Definition f64_div : spec_float → spec_float → spec_float := SFdiv 53 1024.
Definition f32_of_Z (z : Z) : spec_float := binary_normalize 24 128 z 0 false.
Definition f32_mul : spec_float → spec_float → spec_float := SFmul 24 128.

(** [x.max(y)]: a NaN gives the other argument. *)
Definition float_max (x y : spec_float) : spec_float :=
  match x, y with
  | S754_nan, _ => y
  | _, S754_nan => x
  | _, _ => match SFcompare x y with Some Lt => y | _ => x end
  end.

(** [x as uN]: towards zero, saturating, NaN to 0. *)
Definition float_as_uint (max : Z) (x : spec_float) : Z :=
  match x with
  | S754_zero _ | S754_nan => 0
  | S754_infinity s => if s then 0 else max
  | S754_finite true _ _ => 0
  | S754_finite false m e =>
      Z.min max (if 0 <=? e then Z.pos m * 2 ^ e else Z.pos m / 2 ^ (- e))
  end.
Definition f64_as_u32 : spec_float → Z := float_as_uint u32_max.
Definition float_as_u64 : spec_float → Z := float_as_uint u64_max.

(** [x.round() as u64]: half away from zero. *)
Definition float_round_as_u64 (x : spec_float) : Z :=
  match x with
  | S754_finite false m e =>
      Z.min u64_max
        (if 0 <=? e then Z.pos m * 2 ^ e else (Z.pos m + 2 ^ (- e - 1)) / 2 ^ (- e))
  | _ => float_as_u64 x
  end.

Lemma float_as_uint_range max x : 0 ≤ max → 0 ≤ float_as_uint max x ≤ max.
Proof.
  intros Hmax. destruct x as [s|s| |s m e]; simpl; [lia|destruct s; lia|lia|destruct s; [lia|]].
  destruct (Z.leb_spec 0 e).
  - assert (0 ≤ Z.pos m * 2 ^ e) by (apply Z.mul_nonneg_nonneg; [lia|by apply Z.pow_nonneg]). lia.
  - assert (0 ≤ Z.pos m / 2 ^ (- e)) by (apply Z.div_pos; [lia|apply Z.pow_pos_nonneg; lia]). lia.
Qed.
Lemma f64_as_u32_range x : is_u32 (f64_as_u32 x).
Proof. unfold is_u32. apply float_as_uint_range. done. Qed.
Lemma float_as_u64_range x : is_u64 (float_as_u64 x).
Proof. unfold is_u64. apply float_as_uint_range. done. Qed.

(** ** Comparing values

    [scaled_le k j m e]: k * 2 ^ j ≤ m * 2 ^ e. *)
Definition scaled_le (k j m e : Z) : Prop := k * 2 ^ (j - Z.min j e) ≤ m * 2 ^ (e - Z.min j e).

Lemma pow_split (x E F : Z) : F ≤ E → E ≤ x → 2 ^ (x - F) = 2 ^ (x - E) * 2 ^ (E - F).
Proof. intros. rewrite <-Z.pow_add_r by lia. f_equal. lia. Qed.

(** The common scale does not matter. *)
Lemma scaled_le_at E k j m e :
  E ≤ j → E ≤ e → scaled_le k j m e ↔ k * 2 ^ (j - E) ≤ m * 2 ^ (e - E).
Proof.
  intros Hj He. unfold scaled_le.
  rewrite (pow_split j (Z.min j e) E), (pow_split e (Z.min j e) E) by lia.
  rewrite !Z.mul_assoc. apply Z.mul_le_mono_pos_r.
  apply Z.pow_pos_nonneg; lia.
Qed.
Lemma scaled_le_trans k j l h m e : scaled_le k j l h → scaled_le l h m e → scaled_le k j m e.
Proof.
  set (E := Z.min j (Z.min h e)).
  rewrite (scaled_le_at E k j l h), (scaled_le_at E l h m e), (scaled_le_at E k j m e); lia.
Qed.
Lemma scaled_le_mul k j m e k' j' :
  0 ≤ k' → scaled_le k j m e → scaled_le (k * k') (j + j') (m * k') (e + j').
Proof.
  intros Hk. unfold scaled_le. rewrite Z.add_min_distr_r.
  replace (j + j' - (Z.min j e + j')) with (j - Z.min j e) by lia.
  replace (e + j' - (Z.min j e + j')) with (e - Z.min j e) by lia. nia.
Qed.

(** ** Rounding *)

Lemma digits_bounds m : 2 ^ (Zdigits2 (Z.pos m) - 1) ≤ Z.pos m < 2 ^ Zdigits2 (Z.pos m).
Proof.
  simpl. induction m as [m IH|m IH|]; simpl; [| |done].
  all: rewrite Pos2Z.inj_succ.
  all: replace (Z.succ (Z.pos (digits2_pos m)) - 1) with (Z.succ (Z.pos (digits2_pos m) - 1)) by lia.
  all: rewrite !Z.pow_succ_r by lia; lia.
Qed.

Lemma shr_1_m mrs : 0 ≤ shr_m mrs → shr_m (shr_1 mrs) = shr_m mrs / 2 ∧ 0 ≤ shr_m (shr_1 mrs).
Proof.
  destruct mrs as [[|[p|p|]|p] r s]; simpl; intros H; lia.
Qed.
Lemma iter_shr_m p mrs :
  0 ≤ shr_m mrs →
  shr_m (SpecFloat.iter_pos shr_1 p mrs) = shr_m mrs / 2 ^ Z.pos p ∧ 0 ≤ shr_m (SpecFloat.iter_pos shr_1 p mrs).
Proof.
  revert mrs. induction p as [p IH|p IH|]; intros mrs H; simpl; [| |by apply shr_1_m].
  - destruct (shr_1_m mrs H) as [H1 H1'], (IH _ H1') as [H2 H2'], (IH _ H2') as [H3 H3'].
    split; [|done]. rewrite H3, H2, H1, !Zdiv.Zdiv_Zdiv by (try apply Z.pow_nonneg; lia).
    f_equal. rewrite <-(Z.pow_1_r 2) at 1. rewrite <-!Z.pow_add_r by lia. f_equal. lia.
  - destruct (IH _ H) as [H2 H2'], (IH _ H2') as [H3 H3']. split; [|done].
    rewrite H3, H2, Zdiv.Zdiv_Zdiv by (apply Z.pow_nonneg; lia).
    rewrite <-Z.pow_add_r by lia. f_equal. f_equal. lia.
Qed.

Section rounding.
Context (prec emax : Z) (Hprec : 0 < prec).

(** Dropping digits does not fall below a value that needs no more of them. *)
Lemma shr_fexp_ge k j m e l mrs e' :
  shr_fexp prec emax (Z.pos m) e l = (mrs, e') →
  0 < k < 2 ^ prec → emin prec emax ≤ j → scaled_le k j (Z.pos m) e →
  scaled_le k j (shr_m mrs) e'.
Proof.
  unfold shr_fexp. intros Hs Hk Hj Hle.
  pose proof (digits_bounds m) as [Hd _]. set (d := Zdigits2 (Z.pos m)) in *.
  assert (Hd0 : 0 < d) by (unfold d; simpl; lia).
  assert (Hm : shr_m (shr_record_of_loc (Z.pos m) l) = Z.pos m) by (by destruct l as [|[]]).
  destruct (fexp prec emax (d + e) - e) as [|p|p] eqn:Hn; simpl in Hs; injection Hs as <- <-.
  1,3: by rewrite Hm.
  destruct (iter_shr_m p (shr_record_of_loc (Z.pos m) l)) as [-> _]; [rewrite Hm; lia|]. rewrite Hm.
  set (n := Z.pos p) in *. assert (Hf : fexp prec emax (d + e) = e + n) by lia.
  unfold fexp in Hf. destruct (decide (e + n ≤ j)) as [Hle'|Hgt].
  - (* the value is a multiple of the last digit kept *)
    apply (scaled_le_at (e + n)); [lia..|]. rewrite Z.sub_diag, Z.mul_1_r.
    apply Z.div_le_lower_bound; [apply Z.pow_pos_nonneg; lia|].
    rewrite (scaled_le_at e), Z.sub_diag, Z.mul_1_r in Hle by lia.
    rewrite Z.mul_comm, <-Z.mul_assoc, <-Z.pow_add_r by lia.
    replace (j - (e + n) + n) with (j - e) by lia. done.
  - (* the digits kept alone are larger *)
    assert (Hen : e + n = d + e - prec) by lia.
    apply (scaled_le_at j); [lia..|]. rewrite Z.sub_diag, Z.mul_1_r.
    assert (Hq : 2 ^ (prec - 1) ≤ Z.pos m / 2 ^ n).
    { apply Z.div_le_lower_bound; [apply Z.pow_pos_nonneg; lia|].
      rewrite <-Z.pow_add_r by lia. by replace (n + (prec - 1)) with (d - 1) by lia. }
    assert (Hp : 2 ^ prec ≤ 2 ^ (prec - 1) * 2 ^ (e + n - j)).
    { rewrite <-Z.pow_add_r by lia. apply Z.pow_le_mono_r; lia. }
    assert (0 ≤ 2 ^ (e + n - j)) by (apply Z.pow_nonneg; lia). nia.
Qed.

Lemma round_even_ge m l : m ≤ round_nearest_even m l.
Proof. destruct l as [|[]]; simpl; try lia. destruct (Z.even m); lia. Qed.

Lemma scaled_le_pos k j m e : 0 < k → scaled_le k j m e → 0 < m.
Proof.
  unfold scaled_le. intros Hk Hle.
  assert (0 < 2 ^ (j - Z.min j e)) by (apply Z.pow_pos_nonneg; lia).
  assert (0 < 2 ^ (e - Z.min j e)) by (apply Z.pow_pos_nonneg; lia). nia.
Qed.

(** A rounded value is no less than a representable one that is no more than it. *)
Lemma round_ge k j m e l :
  0 < k < 2 ^ prec → emin prec emax ≤ j → scaled_le k j (Z.pos m) e →
  match binary_round_aux prec emax false (Z.pos m) e l with
  | S754_finite false m' e' => scaled_le k j (Z.pos m') e'
  | S754_infinity false => True
  | _ => False
  end.
Proof.
  intros Hk Hj Hle. unfold binary_round_aux.
  destruct (shr_fexp prec emax (Z.pos m) e l) as [mrs e1] eqn:H1.
  eapply shr_fexp_ge in H1; [|done..].
  pose proof (scaled_le_pos _ _ _ _ (proj1 Hk) H1) as Hpos.
  pose proof (round_even_ge (shr_m mrs) (loc_of_shr_record mrs)) as Hr.
  destruct (round_nearest_even _ _) as [|m1|m1] eqn:Hm1; [lia| |lia].
  assert (H1' : scaled_le k j (Z.pos m1) e1).
  { unfold scaled_le in *. assert (0 ≤ 2 ^ (e1 - Z.min j e1)) by (apply Z.pow_nonneg; lia). nia. }
  destruct (shr_fexp prec emax (Z.pos m1) e1 loc_Exact) as [mrs2 e2] eqn:H2.
  eapply shr_fexp_ge in H2; [|done..].
  pose proof (scaled_le_pos _ _ _ _ (proj1 Hk) H2) as Hpos2.
  destruct (shr_m mrs2) as [|m2|m2]; [lia| |lia]. by destruct (_ <=? _).
Qed.

(** Comparison of canonical numbers is that of their values. *)
Lemma compare_ge m e c h :
  bounded prec emax m e = true → bounded prec emax c h = true →
  SFcompare (S754_finite false m e) (S754_finite false c h) ≠ Some Lt →
  scaled_le (Z.pos c) h (Z.pos m) e.
Proof.
  unfold bounded, canonical_mantissa, fexp. intros [Hm _]%andb_prop [Hc _]%andb_prop Hcmp.
  apply Z.eqb_eq in Hm, Hc. pose proof (digits_bounds m) as [Hdm _]. pose proof (digits_bounds c) as [_ Hdc].
  simpl in Hdm, Hdc, Hcmp. destruct (Z.compare_spec e h) as [->|?|Hgt]; [| |].
  - apply (scaled_le_at h); [lia..|]. rewrite Z.sub_diag, !Z.mul_1_r.
    change (Pos.compare_cont Eq m c) with (m ?= c)%positive in Hcmp.
    destruct (Pos.compare_spec m c); [by subst|done|lia].
  - done.
  - apply (scaled_le_at h); [lia..|]. rewrite Z.sub_diag, Z.mul_1_r.
    assert (Hprecm : Z.pos (digits2_pos m) = prec) by lia. rewrite Hprecm in Hdm.
    assert (Z.pos c < 2 ^ prec).
    { eapply Z.lt_le_trans; [exact Hdc|]. apply Z.pow_le_mono_r; lia. }
    assert (Hp : 2 ^ prec ≤ 2 ^ (prec - 1) * 2 ^ (e - h)).
    { rewrite <-Z.pow_add_r by lia. apply Z.pow_le_mono_r; lia. }
    assert (0 ≤ 2 ^ (e - h)) by (apply Z.pow_nonneg; lia). nia.
Qed.

(** The product of anything raised to at least [c] with a constant, as an integer. *)
Lemma max_mul_ge (x : spec_float) c h mf ef k j :
  valid_binary prec emax x = true → bounded prec emax c h = true →
  0 < k < 2 ^ prec → emin prec emax ≤ j → scaled_le k j (Z.pos c * Z.pos mf) (h + ef) →
  match SFmul prec emax (float_max x (S754_finite false c h)) (S754_finite false mf ef) with
  | S754_finite false m' e' => scaled_le k j (Z.pos m') e'
  | S754_infinity false => True
  | _ => False
  end.
Proof.
  intros Hx Hc Hk Hj Hle.
  assert (Hfin : ∀ m e, scaled_le (Z.pos c) h (Z.pos m) e →
    match SFmul prec emax (S754_finite false m e) (S754_finite false mf ef) with
    | S754_finite false m' e' => scaled_le k j (Z.pos m') e'
    | S754_infinity false => True
    | _ => False
    end).
  { intros m e Hme. apply (round_ge k j); [done..|]. eapply scaled_le_trans; [exact Hle|].
    rewrite Pos2Z.inj_mul. by apply scaled_le_mul. }
  assert (Hself : scaled_le (Z.pos c) h (Z.pos c) h) by (unfold scaled_le; lia).
  destruct x as [s|[]| |[] m e]; [by apply Hfin|by apply Hfin|done|by apply Hfin|by apply Hfin|].
  unfold float_max. destruct (SFcompare _ _) as [[]|] eqn:Hcmp; [..|done].
  - apply Hfin, compare_ge; [done..|congruence].
  - by apply Hfin.
  - apply Hfin, compare_ge; [done..|congruence].
Qed.
End rounding.

Lemma scaled_as_u64 k m e : k ≤ u64_max → scaled_le k 0 (Z.pos m) e →
  k ≤ float_as_u64 (S754_finite false m e).
Proof.
  intros Hk Hle. simpl. apply Z.min_glb; [done|]. destruct (Z.leb_spec 0 e).
  - rewrite (scaled_le_at 0), !Z.sub_0_r, Z.mul_1_r in Hle by lia. done.
  - rewrite (scaled_le_at e), Z.sub_diag, Z.mul_1_r in Hle by lia.
    apply Z.div_le_lower_bound; [apply Z.pow_pos_nonneg; lia|]. by rewrite Z.mul_comm.
Qed.
(** A half is rounded up. *)
Lemma scaled_round k m e : 0 < k ≤ u64_max → scaled_le (2 * k - 1) (-1) (Z.pos m) e →
  k ≤ float_round_as_u64 (S754_finite false m e).
Proof.
  intros Hk Hle. simpl. apply Z.min_glb; [lia|]. destruct (Z.leb_spec 0 e).
  - rewrite (scaled_le_at (-1)), Z.mul_1_r in Hle by lia.
    rewrite (pow_split e 0 (-1)), Z.sub_0_r in Hle by lia. change (2 ^ (0 - -1)) with 2 in Hle. lia.
  - rewrite (scaled_le_at e), Z.sub_diag, Z.mul_1_r in Hle by lia.
    apply Z.div_le_lower_bound; [apply Z.pow_pos_nonneg; lia|].
    replace (-1 - e) with (- e - 1) in Hle by lia.
    replace (- e) with (Z.succ (- e - 1)) at 1 by lia. rewrite Z.pow_succ_r by lia. lia.
Qed.
