(* ===== verification/Errors.v ===== *)
(** * Error values

    The public error enumeration of the node ([src/error.rs]).  The aggregate
    wallet library has an error type of its own, declared with its other data in
    [Bdk.v]. *)

From stdpp Require Import base decidable.

Inductive Error : Set :=
| AlreadyRunning
| NotRunning
| OnchainTxCreationFailed
| ConnectionFailed
| InvoiceCreationFailed
| InvoiceRequestCreationFailed
| OfferCreationFailed
| RefundCreationFailed
| PaymentSendingFailed
| InvalidCustomTlvs
| ProbeSendingFailed
| RouteNotFound
| ChannelCreationFailed
| ChannelClosingFailed
| ChannelSplicingFailed
| ChannelConfigUpdateFailed
| PersistenceFailed
| FeerateEstimationUpdateFailed
| FeerateEstimationUpdateTimeout
| WalletOperationFailed
| WalletOperationTimeout
| OnchainTxSigningFailed
| TxSyncFailed
| TxSyncTimeout
| GossipUpdateFailed
| GossipUpdateTimeout
| LiquidityRequestFailed
| UriParameterParsingFailed
| InvalidAddress
| InvalidSocketAddress
| InvalidPublicKey
| InvalidSecretKey
| InvalidOfferId
| InvalidNodeId
| InvalidPaymentId
| InvalidPaymentHash
| InvalidPaymentPreimage
| InvalidPaymentSecret
| InvalidAmount
| InvalidInvoice
| InvalidOffer
| InvalidRefund
| InvalidChannelId
| InvalidNetwork
| InvalidUri
| InvalidQuantity
| InvalidNodeAlias
| InvalidDateTime
| InvalidFeeRate
| DuplicatePayment
| UnsupportedCurrency
| InsufficientFunds
| LiquiditySourceUnavailable
| LiquidityFeeTooHigh
| InvalidBlindedPaths
| AsyncPaymentServicesDisabled
| CannotRbfFundingTransaction
| TransactionNotFound
| TransactionNotBroadcastByWallet
| TransactionAlreadyConfirmed
| NoSpendableOutputs
| CoinSelectionFailed
| InvalidMnemonic
| BackgroundSyncNotEnabled
| AddressTypeAlreadyMonitored
| AddressTypeIsPrimary
| AddressTypeNotMonitored
| OnchainWalletAccountNotRegistered
| InvalidSeedBytes.

#[global] Instance Error_eq_dec : EqDecision Error.
Proof. solve_decision. Defined.
