(* ===== verification/Sharing.v ===== *)
(** * Sharing one attempt among many callers

    Connecting to a peer and synchronising a wallet follow the same protocol: the first
    caller registers an attempt and carries it out, callers that arrive meanwhile
    subscribe to its result, and the attempt ends by sending its result to all of them.
    [Registry] is what the protocol needs of the bookkeeping; [Connection] and
    [SyncStatus] implement it with the maps and status values of the source, and take
    the theorems about interleaved callers from here. *)

From S2P Require Import Prelude Errors.

(** The result of an attempt, and the channel a subscriber receives it on. *)
Abbreviation attempt_result := (outcome Error unit).
Abbreviation chan := nat.

Class Registry (R K : Type) `{Countable K} := {
  (** The subscribers of each attempt under way. *)
  subscribers : R → gmap K (list chan);
  (** Register an attempt, or subscribe to the one under way on the given channel. *)
  register_or_subscribe : K → chan → R → R * option chan;
  (** End the attempt: the channels written to. *)
  propagate : K → attempt_result → R → R * list (chan * attempt_result);
}.

Class RegistrySpec (R K : Type) `{Countable K} {REG : Registry R K} : Prop := {
  register_new k c r :
    subscribers r !! k = None →
    ∃ r', register_or_subscribe k c r = (r', None) ∧ subscribers r' = <[k := []]> (subscribers r);
  register_pending k c r cs :
    subscribers r !! k = Some cs →
    ∃ r', register_or_subscribe k c r = (r', Some c) ∧
      subscribers r' = <[k := cs ++ [c]]> (subscribers r);
  propagate_ends k res r :
    subscribers (propagate k res r).1 = delete k (subscribers r) ∧
    (propagate k res r).2 = (λ c, (c, res)) <$> default [] (subscribers r !! k);
}.

Module sharing.
Section sharing.
Context {R K : Type} `{Countable K} {REG : Registry R K}.
(** One step of an attempt in its present phase, on an input from outside: the next phase
    or the result. *)
Context {Phase Input : Type} (work : K → Phase → Input → option (Phase + attempt_result)).

Abbreviation task := nat.
Inductive task_state :=
| Driving (k : K) (phase : Phase)
| Waiting (k : K) (c : chan)
| Finished (k : K) (res : attempt_result).

Record state := mkState {
  registry : R;
  (** The results sent on channels. *)
  delivered : gmap chan attempt_result;
  tasks : gmap task task_state;
  next_chan : chan;
}.
Implicit Types (s : state).

Definition deliver (sent : list (chan * attempt_result)) (m : gmap chan attempt_result) :=
  foldr (λ '(c, res), <[c := res]>) m sent.

(** A caller arrives. *)
Definition begin_attempt (t : task) (k : K) (phase : Phase) s : state :=
  let '(r, rx) := register_or_subscribe k (next_chan s) (registry s) in
  mkState r (delivered s)
    (<[t := match rx with Some c => Waiting k c | None => Driving k phase end]> (tasks s))
    (Datatypes.S (next_chan s)).

(** The attempt of [k], driven by [t], ends with [res]. *)
Definition complete (t : task) (k : K) (res : attempt_result) s : state :=
  let '(r, sent) := propagate k res (registry s) in
  mkState r (deliver sent (delivered s)) (<[t := Finished k res]> (tasks s)) (next_chan s).

Definition set_task (t : task) (ts : task_state) s : state :=
  mkState (registry s) (delivered s) (<[t := ts]> (tasks s)) (next_chan s).

(** The future of [t] is dropped. *)
Definition cancel (t : task) s : state :=
  mkState (registry s) (delivered s) (delete t (tasks s)) (next_chan s).

Inductive step : state → state → Prop :=
| StepBegin t k phase s :
    tasks s !! t = None → step s (begin_attempt t k phase s)
| StepWork t k phase i phase' s :
    tasks s !! t = Some (Driving k phase) → work k phase i = Some (inl phase') →
    step s (set_task t (Driving k phase') s)
| StepComplete t k phase i res s :
    tasks s !! t = Some (Driving k phase) → work k phase i = Some (inr res) →
    step s (complete t k res s)
| StepReceive t k c res s :
    tasks s !! t = Some (Waiting k c) → delivered s !! c = Some res →
    step s (set_task t (Finished k res) s).

(** Steps of a run in which futures may be dropped. *)
Inductive step_or_cancel : state → state → Prop :=
| Step s s' : step s s' → step_or_cancel s s'
| StepCancel t s : step_or_cancel s (cancel t s).

Definition init (r : R) : state := mkState r ∅ ∅ 0.

Definition drives s (t : task) (k : K) : Prop := ∃ phase, tasks s !! t = Some (Driving k phase).

(** [c] is subscribed to the attempt of [k]. *)
Definition subscribed s (k : K) (c : chan) : Prop :=
  ∃ cs, subscribers (registry s) !! k = Some cs ∧ c ∈ cs.

(** ** Invariants *)

(** Whatever happens to the callers. *)
Record inv s : Prop := {
  inv_subscribed k c : subscribed s k c → (c < next_chan s)%nat ∧ delivered s !! c = None;
  inv_one_key k k' c : subscribed s k c → subscribed s k' c → k = k';
  inv_delivered c res : delivered s !! c = Some res → (c < next_chan s)%nat;
  inv_waiting t k c :
    tasks s !! t = Some (Waiting k c) →
    (c < next_chan s)%nat ∧ (delivered s !! c = None → subscribed s k c);
  inv_registered t k : drives s t k → is_Some (subscribers (registry s) !! k);
  inv_one_driver t t' k : drives s t k → drives s t' k → t = t';
}.

(** While no driver was dropped. *)
Definition attended s : Prop :=
  ∀ k, is_Some (subscribers (registry s) !! k) → ∃ t, drives s t k.

Context {SPEC : RegistrySpec R K}.

Lemma deliver_lookup cs res (m : gmap chan attempt_result) c :
  deliver ((λ c, (c, res)) <$> cs) m !! c = (if decide (c ∈ cs) then Some res else m !! c).
Proof.
  unfold deliver. induction cs as [|c' cs IH]; csimpl; [done|].
  destruct (decide (c' = c)) as [->|Hne].
  - rewrite lookup_insert_eq, decide_True; [done|by left].
  - rewrite lookup_insert_ne by done. rewrite IH.
    repeat case_decide; set_solver.
Qed.

Lemma complete_subscribers t k res s :
  subscribers (registry (complete t k res s)) = delete k (subscribers (registry s)).
Proof.
  unfold complete. pose proof (propagate_ends k res (registry s)) as [Hs _].
  by destruct (propagate k res (registry s)).
Qed.

Lemma complete_delivered t k res s c :
  (subscribed s k c ∧ delivered (complete t k res s) !! c = Some res) ∨
  (¬ subscribed s k c ∧ delivered (complete t k res s) !! c = delivered s !! c).
Proof.
  unfold complete, subscribed. pose proof (propagate_ends k res (registry s)) as [_ Hs].
  destruct (propagate k res (registry s)) as [r sent]. simpl in *. subst sent.
  rewrite deliver_lookup. destruct (subscribers (registry s) !! k) as [cs|];
    [|right; split; [naive_solver|done]].
  simpl. case_decide; [left|right]; (split; [|done]); [by exists cs|naive_solver].
Qed.

Lemma complete_subscribed t k res s k' c :
  subscribed (complete t k res s) k' c ↔ k' ≠ k ∧ subscribed s k' c.
Proof.
  unfold subscribed. rewrite complete_subscribers.
  destruct (decide (k' = k)) as [->|Hne].
  - rewrite lookup_delete_eq. naive_solver.
  - rewrite lookup_delete_ne by done. naive_solver.
Qed.

Lemma complete_tasks t k res s : tasks (complete t k res s) = <[t := Finished k res]> (tasks s).
Proof. unfold complete. by destruct (propagate k res (registry s)). Qed.

Lemma complete_next t k res s : next_chan (complete t k res s) = next_chan s.
Proof. unfold complete. by destruct (propagate k res (registry s)). Qed.

(** A new caller: it drives a new attempt, or waits on a fresh channel of the old one. *)
Lemma begin_cases t k phase s :
  (subscribers (registry s) !! k = None ∧
   ∃ r, begin_attempt t k phase s
          = mkState r (delivered s) (<[t := Driving k phase]> (tasks s)) (Datatypes.S (next_chan s)) ∧
        subscribers r = <[k := []]> (subscribers (registry s))) ∨
  (∃ cs r, subscribers (registry s) !! k = Some cs ∧
     begin_attempt t k phase s
       = mkState r (delivered s) (<[t := Waiting k (next_chan s)]> (tasks s))
           (Datatypes.S (next_chan s)) ∧
     subscribers r = <[k := cs ++ [next_chan s]]> (subscribers (registry s))).
Proof.
  unfold begin_attempt. destruct (subscribers (registry s) !! k) as [cs|] eqn:Hk.
  - right. destruct (register_pending k (next_chan s) _ cs Hk) as (r & -> & Hr). by exists cs, r.
  - left. destruct (register_new k (next_chan s) _ Hk) as (r & -> & Hr). by split; [|exists r].
Qed.

Lemma begin_subscribed t k phase s k' c :
  subscribed (begin_attempt t k phase s) k' c →
  subscribed s k' c ∨ (k' = k ∧ c = next_chan s ∧ is_Some (subscribers (registry s) !! k)).
Proof.
  unfold subscribed.
  destruct (begin_cases t k phase s) as [(Hk & r & -> & Hr)|(cs & r & Hk & -> & Hr)];
    simpl; rewrite Hr; intros (cs' & Hcs & Hc);
    apply lookup_insert_Some in Hcs as [[<- <-]|[Hne Hcs]]; [set_solver|eauto| |eauto].
  apply elem_of_app in Hc as [Hc| ->%list_elem_of_singleton]; [eauto|]. right. by rewrite Hk.
Qed.

Lemma begin_keeps_subscribed t k phase s k' c :
  subscribed s k' c → subscribed (begin_attempt t k phase s) k' c.
Proof.
  unfold subscribed.
  destruct (begin_cases t k phase s) as [(Hk & r & -> & Hr)|(cs & r & Hk & -> & Hr)];
    simpl; rewrite Hr; intros (cs' & Hcs & Hc).
  - exists cs'. by rewrite lookup_insert_ne by congruence.
  - destruct (decide (k' = k)) as [->|]; [|exists cs'; by rewrite lookup_insert_ne].
    rewrite lookup_insert_eq. simplify_eq. eexists; split; [done|]. set_solver.
Qed.

Lemma begin_drives t k phase s t' k' :
  tasks s !! t = None →
  drives (begin_attempt t k phase s) t' k' →
  drives s t' k' ∨ (t' = t ∧ k' = k ∧ subscribers (registry s) !! k = None).
Proof.
  unfold drives. intros Ht.
  destruct (begin_cases t k phase s) as [(Hk & r & -> & Hr)|(cs & r & Hk & -> & Hr)];
    simpl; intros (ph & [[<- Heq]|[Hne Heq]]%lookup_insert_Some); simplify_eq; eauto.
Qed.

Lemma set_task_drives t ts s t' k' :
  drives (set_task t ts s) t' k' →
  drives s t' k' ∨ (t' = t ∧ ∃ phase, ts = Driving k' phase).
Proof.
  unfold drives. simpl. intros (ph & [[<- Heq]|[Hne Heq]]%lookup_insert_Some); eauto.
Qed.

Lemma complete_drives t k res s t' k' : drives (complete t k res s) t' k' → t' ≠ t ∧ drives s t' k'.
Proof.
  unfold drives. rewrite complete_tasks.
  intros (ph & [[<- Heq]|[Hne Heq]]%lookup_insert_Some); [done|eauto].
Qed.

Lemma init_inv r : subscribers r = ∅ → inv (init r) ∧ attended (init r).
Proof.
  clear work. intros Hr. split; [split|]; unfold subscribed, drives, attended; simpl; rewrite ?Hr;
    try (intros *; rewrite ?lookup_empty; naive_solver).
Qed.

Lemma inv_begin t k phase s : tasks s !! t = None → inv s → inv (begin_attempt t k phase s).
Proof.
  intros Ht I. pose proof (begin_cases t k phase s) as Hcases.
  assert (Hd : delivered (begin_attempt t k phase s) = delivered s ∧
    next_chan (begin_attempt t k phase s) = Datatypes.S (next_chan s))
    by (destruct Hcases as [(_ & r & -> & _)|(cs & r & _ & -> & _)]; done).
  destruct Hd as [Hd Hn].
  split.
  - intros k' c [Hs|(-> & -> & _)]%begin_subscribed; rewrite Hd, Hn.
    + apply (inv_subscribed s I) in Hs as [? ?]. split; [lia|done].
    + split; [lia|]. destruct (delivered s !! next_chan s) eqn:Hc; [|done].
      apply (inv_delivered s I) in Hc. lia.
  - intros k1 k2 c [H1|(-> & -> & _)]%begin_subscribed [H2|(-> & E & _)]%begin_subscribed;
      subst; [by eapply inv_one_key| | |done];
      match goal with H : subscribed s _ (next_chan s) |- _ =>
        apply (inv_subscribed s I) in H; lia end.
  - intros c res. rewrite Hd, Hn. intros Hc%(inv_delivered s I). lia.
  - intros t' k' c Ht'. rewrite Hd, Hn.
    assert (tasks s !! t' = Some (Waiting k' c) ∨
      (c = next_chan s ∧ subscribed (begin_attempt t k phase s) k' c)) as [Hold|[-> Hsub]].
    { destruct Hcases as [(Hk & r & Heq & Hr)|(cs & r & Hk & Heq & Hr)];
        rewrite Heq in Ht'; simpl in Ht';
        apply lookup_insert_Some in Ht' as [[<- Ht']|[Hne Ht']]; simplify_eq; eauto.
      right. split; [done|]. rewrite Heq. eexists; simpl. rewrite Hr, lookup_insert_eq.
      split; [done|]. set_solver. }
    + apply (inv_waiting s I) in Hold as [? Hsub]. split; [lia|].
      intros ?%Hsub. by apply begin_keeps_subscribed.
    + split; [lia|done].
  - intros t' k' Hdr%begin_drives; [|done].
    destruct Hcases as [(Hk & r & -> & Hr)|(cs & r & Hk & -> & Hr)]; simpl; rewrite Hr;
      destruct (decide (k' = k)) as [->|]; rewrite ?lookup_insert_eq, ?lookup_insert_ne by done;
      try done; destruct Hdr as [Hdr|(_ & -> & _)]; try done; by eapply inv_registered.
  - intros t1 t2 k' [H1|(-> & -> & Hk)]%begin_drives [H2|(-> & E & Hk')]%begin_drives; try done;
      subst; [by eapply inv_one_driver| |];
      match goal with H : drives s _ _ |- _ => apply (inv_registered s I) in H as [??] end;
      congruence.
Qed.

(** A step that changes the state of one task only. *)
Lemma inv_set_task t ts s :
  inv s →
  (∀ k phase, ts = Driving k phase → drives s t k) → (∀ k c, ts ≠ Waiting k c) →
  inv (set_task t ts s).
Proof.
  intros I Hdr Hw.
  assert (Hdrives : ∀ t' k', drives (set_task t ts s) t' k' → drives s t' k').
  { intros t' k' [?|(-> & ph & ->)]%set_task_drives; eauto. }
  split; simpl.
  - apply (inv_subscribed s I).
  - apply (inv_one_key s I).
  - apply (inv_delivered s I).
  - intros t' k c [[<- Heq]|[Hne Heq]]%lookup_insert_Some; [by destruct (Hw k c)|].
    exact (inv_waiting s I t' k c Heq).
  - intros t' k Hd%Hdrives. exact (inv_registered s I t' k Hd).
  - intros t1 t2 k H1%Hdrives H2%Hdrives. by eapply inv_one_driver.
Qed.

Lemma inv_complete t k res s : drives s t k → inv s → inv (complete t k res s).
Proof.
  intros Ht I. split.
  - intros k' c [Hne Hs]%complete_subscribed. rewrite complete_next.
    destruct (inv_subscribed s I k' c Hs) as [Hc Hd]. split; [done|].
    destruct (complete_delivered t k res s c) as [[Hs' _]|[_ ->]]; [|done].
    destruct Hne. by eapply inv_one_key.
  - intros k1 k2 c [_ H1]%complete_subscribed [_ H2]%complete_subscribed. by eapply inv_one_key.
  - intros c res' Hc. rewrite complete_next.
    destruct (complete_delivered t k res s c) as [[Hs _]|[_ Heq]].
    + by apply (inv_subscribed s I) in Hs as [? _].
    + rewrite Heq in Hc. by apply (inv_delivered s I) in Hc.
  - intros t' k' c Ht'. rewrite complete_tasks in Ht'. rewrite complete_next.
    apply lookup_insert_Some in Ht' as [[_ ?]|[Hne Ht']]; [done|].
    destruct (inv_waiting s I t' k' c Ht') as [Hc Hsub]. split; [done|].
    destruct (complete_delivered t k res s c) as [[_ ->]|[Hns ->]]; [done|].
    intros Hs%Hsub. apply complete_subscribed. split; [|done]. intros ->. done.
  - intros t' k' [Hne Hd]%complete_drives. rewrite complete_subscribers.
    rewrite lookup_delete_ne; [by eapply inv_registered|].
    intros <-. destruct Hne. by eapply inv_one_driver.
  - intros t1 t2 k' [_ H1]%complete_drives [_ H2]%complete_drives. by eapply inv_one_driver.
Qed.

Lemma sharing_step_inv s s' : step s s' → inv s → inv s'.
Proof.
  intros Hst I. destruct Hst as [t k ph s Ht|t k ph i ph' s Ht Hw|t k ph i res s Ht Hw|t k c res s Ht Hd].
  - by apply inv_begin.
  - apply inv_set_task; [done| |done]. intros k' ph'' [= -> ->]. by exists ph.
  - apply inv_complete; [by exists ph|done].
  - by apply inv_set_task.
Qed.

Lemma cancel_inv t s : inv s → inv (cancel t s).
Proof.
  clear work. intros I.
  assert (Hd : ∀ t' k', drives (cancel t s) t' k' → drives s t' k').
  { intros t' k' (ph & Hph). simpl in Hph. apply lookup_delete_Some in Hph as [_ Hph]. by exists ph. }
  split; simpl; try apply I.
  - intros t' k c [_ Ht']%lookup_delete_Some. exact (inv_waiting s I t' k c Ht').
  - intros t' k H'%Hd. exact (inv_registered s I t' k H').
  - intros t1 t2 k H1%Hd H2%Hd. by eapply inv_one_driver.
Qed.

Lemma step_attended s s' : step s s' → inv s → attended s → attended s'.
Proof.
  intros Hst I A. destruct Hst as [t k ph s Ht|t k ph i ph' s Ht Hw|t k ph i res s Ht Hw|t k c res s Ht Hd];
    intros k' Hk'.
  - assert (Hold : ∀ t', drives s t' k' → drives (begin_attempt t k ph s) t' k').
    { intros t' (ph' & Ht'). exists ph'.
      destruct (begin_cases t k ph s) as [(_ & r & -> & _)|(cs & r & _ & -> & _)]; simpl;
        by rewrite lookup_insert_ne by congruence. }
    destruct (decide (is_Some (subscribers (registry s) !! k'))) as [[t' Ht']%A|Hno];
      [by exists t'; apply Hold|].
    destruct (begin_cases t k ph s) as [(Hk & r & Heq & Hr)|(cs & r & Hk & Heq & Hr)];
      rewrite Heq in Hk' |- *; simpl in Hk'; rewrite Hr in Hk';
      destruct (decide (k' = k)) as [->|]; rewrite ?lookup_insert_ne in Hk' by done;
      try by destruct Hno.
    exists t, ph. simpl. by rewrite lookup_insert_eq.
  - destruct (A k' Hk') as (t' & ph1 & Ht'). destruct (decide (t' = t)) as [->|].
    + exists t, ph'. simpl. rewrite lookup_insert_eq. congruence.
    + exists t', ph1. simpl. by rewrite lookup_insert_ne.
  - rewrite complete_subscribers in Hk'. destruct Hk' as [cs [Hne Hk']%lookup_delete_Some].
    destruct (A k' (mk_is_Some _ _ Hk')) as (t' & ph1 & Ht'). exists t', ph1.
    rewrite complete_tasks, lookup_insert_ne; congruence.
  - destruct (A k' Hk') as (t' & ph1 & Ht'). exists t', ph1. simpl.
    rewrite lookup_insert_ne; congruence.
Qed.

(** The channels written to only grow in number. *)
Lemma step_delivered s s' c res :
  step s s' → inv s → delivered s !! c = Some res → delivered s' !! c = Some res.
Proof.
  intros Hst I Hc. destruct Hst as [t k ph s Ht|t k ph i ph' s Ht Hw|t k ph i res' s Ht Hw|]; try done.
  - by destruct (begin_cases t k ph s) as [(_ & r & -> & _)|(cs & r & _ & -> & _)].
  - destruct (complete_delivered t k res' s c) as [[Hs _]|[_ ->]]; [|done].
    apply (inv_subscribed s I) in Hs as [_ ?]. congruence.
Qed.

(** A task that finished stays so, and one whose channel was written to ends with what
    was written. *)
Lemma step_answered s s' t k c res :
  step s s' → inv s → delivered s !! c = Some res →
  tasks s !! t = Some (Waiting k c) ∨ tasks s !! t = Some (Finished k res) →
  tasks s' !! t = Some (Waiting k c) ∨ tasks s' !! t = Some (Finished k res).
Proof.
  intros Hst I Hc Ht.
  assert (Hother : ∀ t', tasks s !! t' = None ∨ (∃ k' ph, tasks s !! t' = Some (Driving k' ph)) → t' ≠ t)
    by (intros t' Ht' ->; naive_solver).
  destruct Hst as [t' k' ph s Ht'|t' k' ph i ph' s Ht' Hw|t' k' ph i res' s Ht' Hw|t' k' c' res' s Ht' Hd].
  - destruct (begin_cases t' k' ph s) as [(_ & r & -> & _)|(cs & r & _ & -> & _)]; simpl;
      rewrite !lookup_insert_ne; auto.
  - simpl. rewrite !lookup_insert_ne; eauto.
  - rewrite complete_tasks, !lookup_insert_ne; eauto.
  - simpl. destruct (decide (t' = t)) as [->|]; [|by rewrite !lookup_insert_ne].
    rewrite lookup_insert_eq. right. destruct Ht; naive_solver congruence.
Qed.

Abbreviation runs := (rtc step).

Lemma runs_inv s s' : runs s s' → inv s → inv s'.
Proof. induction 1 as [|s s1 s' Hst _ IH]; eauto using sharing_step_inv. Qed.

Lemma runs_attended s s' : runs s s' → inv s → attended s → attended s'.
Proof. induction 1 as [|s s1 s' Hst _ IH]; eauto using sharing_step_inv, step_attended. Qed.

Lemma runs_answered s s' t k c res :
  runs s s' → inv s → delivered s !! c = Some res →
  tasks s !! t = Some (Waiting k c) ∨ tasks s !! t = Some (Finished k res) →
  tasks s' !! t = Some (Waiting k c) ∨ tasks s' !! t = Some (Finished k res).
Proof.
  induction 1 as [|s s1 s' Hst _ IH]; [done|]. intros I Hd Ht.
  apply IH; [by eapply sharing_step_inv|by eapply step_delivered|by eapply step_answered].
Qed.

(** Everybody subscribed when an attempt ends gets its result, whatever happens next. *)
Lemma completion_shared s d k phase i res :
  inv s → tasks s !! d = Some (Driving k phase) → work k phase i = Some (inr res) →
  step s (complete d k res s) ∧
  ∀ t c s', tasks s !! t = Some (Waiting k c) → delivered s !! c = None →
    runs (complete d k res s) s' →
    tasks s' !! t = Some (Waiting k c) ∧ delivered s' !! c = Some res ∨
    tasks s' !! t = Some (Finished k res).
Proof.
  intros I Hd Hw. assert (Hst : step s (complete d k res s)) by by eapply StepComplete.
  split; [done|]. intros t c s' Ht Hc Hs'.
  assert (Hsub : subscribed s k c) by by apply (inv_waiting s I t k c Ht).
  assert (Hdel : delivered (complete d k res s) !! c = Some res)
    by (by destruct (complete_delivered d k res s c) as [[_ ?]|[? _]]).
  assert (I' : inv (complete d k res s)) by eauto using sharing_step_inv.
  destruct (runs_answered _ _ t k c res Hs' I' Hdel) as [Hw'|]; [|left; split; [done|]|by right].
  { left. rewrite complete_tasks, lookup_insert_ne; congruence. }
  clear -Hs' I' Hdel SPEC. induction Hs' as [|s0 s1 s' Hst _ IH]; [done|].
  apply IH; eauto using sharing_step_inv, step_delivered.
Qed.

(** Nobody waits for an attempt that is not under way, while no driver was dropped. *)
Lemma waiting_attended r s t k c :
  subscribers r = ∅ → runs (init r) s → tasks s !! t = Some (Waiting k c) →
  is_Some (delivered s !! c) ∨ ∃ d, drives s d k.
Proof.
  intros Hr Hruns Ht. destruct (init_inv r Hr) as [I0 A0].
  assert (I : inv s) by eauto using runs_inv. assert (A : attended s) by eauto using runs_attended.
  destruct (delivered s !! c) eqn:Hc; [eauto|right].
  destruct (inv_waiting s I t k c Ht) as [_ Hsub]. destruct (Hsub Hc) as (cs & Hcs & _). eauto.
Qed.

(** An attempt that nobody drives: it stays registered, and of the callers in [T] none
    has been answered. *)
Record abandoned (k : K) (T : task → Prop) s : Prop := {
  ab_inv : inv s;
  ab_registered : is_Some (subscribers (registry s) !! k);
  ab_driver t : ¬ drives s t k;
  ab_finished t res : T t → tasks s !! t ≠ Some (Finished k res);
  ab_waiting t c : T t → tasks s !! t = Some (Waiting k c) → subscribed s k c;
}.

Lemma abandoned_begin k T t k' phase s :
  tasks s !! t = None → abandoned k T s → abandoned k T (begin_attempt t k' phase s).
Proof.
  intros Ht [I [cs Hk] Hd Hf Hw].
  assert (Htasks : ∀ t' ts, tasks (begin_attempt t k' phase s) !! t' = Some ts →
    tasks s !! t' = Some ts ∨ ts = Driving k' phase ∨
    ts = Waiting k' (next_chan s) ∧ subscribed (begin_attempt t k' phase s) k' (next_chan s)).
  { intros t' ts.
    destruct (begin_cases t k' phase s) as [(_ & r & -> & Hr)|(cs' & r & _ & -> & Hr)]; simpl;
      intros [[<- <-]|[Hne ?]]%lookup_insert_Some; auto.
    right; right. split; [done|]. eexists; simpl. rewrite Hr, lookup_insert_eq. split; [done|]. set_solver. }
  split.
  - by apply inv_begin.
  - destruct (begin_cases t k' phase s) as [(Hk' & r & -> & Hr)|(cs' & r & Hk' & -> & Hr)]; simpl;
      rewrite Hr; destruct (decide (k = k')) as [->|]; rewrite ?lookup_insert_eq, ?lookup_insert_ne;
      eauto.
  - intros t' [?|(-> & -> & ?)]%begin_drives; [by eapply Hd|congruence|done].
  - intros t' res HT Hfin. apply Htasks in Hfin as [?|[?|[? _]]]; [by eapply Hf|done|done].
  - intros t' c HT [?|[?|[E ?]]]%Htasks; [|done|by simplify_eq].
    apply begin_keeps_subscribed. eauto.
Qed.

Lemma abandoned_step k T s s' : step_or_cancel s s' → abandoned k T s → abandoned k T s'.
Proof.
  intros Hst A. destruct Hst as [s s' Hst|t s].
  - pose proof (ab_inv _ _ _ A) as I. pose proof (sharing_step_inv _ _ Hst I) as I'.
    destruct Hst as [t k' ph s Ht|t k' ph i ph' s Ht Hw|t k' ph i res s Ht Hw|t k' c res s Ht Hd];
      [by apply abandoned_begin|..]; destruct A as [_ Hk Hdr Hf Hwt].
    + assert (k' ≠ k) by (intros ->; apply (Hdr t); by exists ph).
      split; [done|done|..]; simpl.
      * intros t' [?|(-> & ? & [=])]%set_task_drives; [by eapply Hdr|congruence].
      * intros t' res HT [[<- ?]|[_ ?]]%lookup_insert_Some; [done|by eapply Hf].
      * intros t' c HT [[<- ?]|[_ ?]]%lookup_insert_Some; [done|]. by apply (Hwt t' c).
    + assert (Hne : k' ≠ k) by (intros ->; apply (Hdr t); by exists ph).
      split; [done|by rewrite complete_subscribers, lookup_delete_ne|..].
      * intros t' [_ ?]%complete_drives. by eapply Hdr.
      * intros t' res' HT. rewrite complete_tasks.
        intros [[<- ?]|[_ ?]]%lookup_insert_Some; [congruence|by eapply Hf].
      * intros t' c HT. rewrite complete_tasks, complete_subscribed.
        intros [[<- ?]|[_ ?]]%lookup_insert_Some; [done|]. split; [done|by apply (Hwt t' c)].
    + split; [done|done|..]; simpl.
      * intros t' [?|(-> & ? & ?)]%set_task_drives; [by eapply Hdr|done].
      * intros t' res' HT [[<- E]|[_ ?]]%lookup_insert_Some; [|by eapply Hf].
        simplify_eq. apply (Hwt t c HT) in Ht as Hsub.
        apply (inv_subscribed s I) in Hsub as [_ ?]. congruence.
      * intros t' c' HT [[<- ?]|[_ ?]]%lookup_insert_Some; [done|]. by apply (Hwt t' c').
  - destruct A as [I Hk Hdr Hf Hwt]. split; simpl; [by apply cancel_inv|done|..].
    + intros t' (ph & Hph). simpl in Hph. apply lookup_delete_Some in Hph as [_ Hph].
      apply (Hdr t'). by exists ph.
    + intros t' res HT [_ ?]%lookup_delete_Some. by eapply Hf.
    + intros t' c HT [_ ?]%lookup_delete_Some. by apply (Hwt t' c).
Qed.

(** An attempt whose driver was dropped is never attempted again: it stays registered,
    and every later caller waits for it without end. *)
Lemma abandoned_forever k s s' :
  inv s → is_Some (subscribers (registry s) !! k) → (∀ t, ¬ drives s t k) →
  rtc step_or_cancel s s' →
  (∀ t, ¬ drives s' t k) ∧
  (∀ t, tasks s !! t = None → ∀ res, tasks s' !! t ≠ Some (Finished k res)).
Proof.
  intros I Hk Hno Hruns.
  assert (A : abandoned k (λ t, tasks s !! t = None) s') by
    (refine (rtc_ind_r (abandoned k _) s _ _ s' Hruns); [split; naive_solver congruence|];
     intros s1 s2 _ Hst A; by eapply abandoned_step).
  split; [apply (ab_driver _ _ _ A)|]. intros t Ht res. by apply (ab_finished _ _ _ A).
Qed.

Lemma runs_or_cancel_inv s s' : rtc step_or_cancel s s' → inv s → inv s'.
Proof.
  induction 1 as [|s s1 s' Hst _ IH]; [done|]. intros I. apply IH.
  destruct Hst; eauto using sharing_step_inv, cancel_inv.
Qed.
End sharing.
End sharing.
