(* ===== verification/KVStore.v ===== *)
(** * The key-value store the node persists to

    Every persistent component writes through LDK's [KVStore]/[KVStoreSync]
    traits ([lightning::util::persist]), which are outside this repository.  The
    class below is that interface; [KVStoreSpec] states its documented contract,
    and [FaultyStore] is a store that meets it, with an explicit schedule of
    write failures (the role [InMemoryStore] and [TestStore] play in the
    repository's tests). *)

From S2P Require Import Prelude.

Abbreviation bytes := (list u8).

(** (primary namespace, secondary namespace, key) *)
Abbreviation kv_key := (string * string * string)%type.

(** The [io::ErrorKind]s the source distinguishes. *)
Inductive ErrorKind := KindNotFound | KindInvalidData | KindOther.

#[global] Instance ErrorKind_eq_dec : EqDecision ErrorKind.
Proof. solve_decision. Defined.

Class KVStore (S : Type) := {
  (** What the store would return after a restart. *)
  kv_view : S → gmap kv_key bytes;
  kv_read : S → kv_key → outcome ErrorKind bytes;
  kv_write : S → kv_key → bytes → S * outcome ErrorKind unit;
  kv_remove : S → kv_key → S * outcome ErrorKind unit;
}.

(** The contract of the trait: an operation that reports success has taken
    effect durably, one that reports an error has left the store as it was, and
    [KindNotFound] is returned for absent keys only. *)
Class KVStoreSpec (S : Type) {KV : KVStore S} : Prop := {
  kv_read_Ok : ∀ s k v, kv_read s k = Ok v → kv_view s !! k = Some v;
  kv_read_NotFound : ∀ s k, kv_read s k = Err KindNotFound → kv_view s !! k = None;
  kv_read_total : ∀ s k, kv_read s k ≠ Panic;
  kv_write_Ok : ∀ s k v s',
    kv_write s k v = (s', Ok tt) → kv_view s' = <[k := v]> (kv_view s);
  kv_write_Err : ∀ s k v s' e,
    kv_write s k v = (s', Err e) → kv_view s' = kv_view s;
  kv_write_total : ∀ s k v, (kv_write s k v).2 ≠ Panic;
  kv_remove_Ok : ∀ s k s',
    kv_remove s k = (s', Ok tt) → kv_view s' = delete k (kv_view s);
  kv_remove_Err : ∀ s k s' e,
    kv_remove s k = (s', Err e) → kv_view s' = kv_view s;
  kv_remove_total : ∀ s k, (kv_remove s k).2 ≠ Panic;
}.

(** ** A store with a fault schedule

    [faults] says for each coming mutation whether it fails; past the end of the
    schedule every mutation succeeds. *)
Record FaultyStore := {
  contents : gmap kv_key bytes;
  faults : list bool;
}.

Definition faulty_mutate (f : gmap kv_key bytes → gmap kv_key bytes)
    (s : FaultyStore) : FaultyStore * outcome ErrorKind unit :=
  match faults s with
  | true :: rest => ({| contents := contents s; faults := rest |}, Err KindOther)
  | false :: rest => ({| contents := f (contents s); faults := rest |}, Ok tt)
  | [] => ({| contents := f (contents s); faults := [] |}, Ok tt)
  end.

#[global] Instance faulty_store : KVStore FaultyStore := {
  kv_view := contents;
  kv_read s k := ok_or (contents s !! k) KindNotFound;
  kv_write s k v := faulty_mutate (insert k v) s;
  kv_remove s k := faulty_mutate (delete k) s;
}.

Lemma faulty_mutate_spec f s s' r :
  faulty_mutate f s = (s', r) →
  (r = Ok tt ∧ contents s' = f (contents s)) ∨
  (r = Err KindOther ∧ contents s' = contents s).
Proof.
  unfold faulty_mutate. destruct (faults s) as [|[] ?]; intros; simplify_eq/=; eauto.
Qed.

#[global] Instance faulty_store_spec : KVStoreSpec FaultyStore.
Proof.
  split; simpl; intros.
  - by inv_outcome.
  - by inv_outcome.
  - by intros ?%ok_or_Panic.
  - match goal with H : faulty_mutate _ _ = _ |- _ =>
      apply faulty_mutate_spec in H as [[??]|[??]] end; done.
  - match goal with H : faulty_mutate _ _ = _ |- _ =>
      apply faulty_mutate_spec in H as [[??]|[??]] end; done.
  - destruct (faulty_mutate _ _) as [? r] eqn:Heq; simpl.
    apply faulty_mutate_spec in Heq as [[-> ?]|[-> ?]]; done.
  - match goal with H : faulty_mutate _ _ = _ |- _ =>
      apply faulty_mutate_spec in H as [[??]|[??]] end; done.
  - match goal with H : faulty_mutate _ _ = _ |- _ =>
      apply faulty_mutate_spec in H as [[??]|[??]] end; done.
  - destruct (faulty_mutate _ _) as [? r] eqn:Heq; simpl.
    apply faulty_mutate_spec in Heq as [[-> ?]|[-> ?]]; done.
Qed.

Definition empty_store : FaultyStore := {| contents := ∅; faults := [] |}.

(** Case analysis on a mutation of the store: it succeeded and took effect, or
    it failed and did not. *)
Lemma kv_write_cases {S : Type} `{KVStoreSpec S} (s : S) k v :
  (∃ s', kv_write s k v = (s', Ok tt) ∧ kv_view s' = <[k := v]> (kv_view s)) ∨
  (∃ s' e, kv_write s k v = (s', Err e) ∧ kv_view s' = kv_view s).
Proof.
  pose proof (kv_write_total s k v) as Htot.
  destruct (kv_write s k v) as [s' [[]|e|]] eqn:Hw; simpl in Htot.
  - left. eauto using kv_write_Ok.
  - right. eauto using kv_write_Err.
  - done.
Qed.

Lemma kv_remove_cases {S : Type} `{KVStoreSpec S} (s : S) k :
  (∃ s', kv_remove s k = (s', Ok tt) ∧ kv_view s' = delete k (kv_view s)) ∨
  (∃ s' e, kv_remove s k = (s', Err e) ∧ kv_view s' = kv_view s).
Proof.
  pose proof (kv_remove_total s k) as Htot.
  destruct (kv_remove s k) as [s' [[]|e|]] eqn:Hw; simpl in Htot.
  - left. eauto using kv_remove_Ok.
  - right. eauto using kv_remove_Err.
  - done.
Qed.
