(* ===== verification/Runtime.v ===== *)
(** * The task runtime ([RuntimeControl] and [Runtime] of [src/runtime.rs])

    The node's tasks run on tokio.  A tracker knows the tasks spawned on it that still
    run; waiting for a closed tracker ends when none is left.  What ends while a caller
    waits is an input ([meanwhile]), so that a wait times out exactly when something it
    waits for is still running afterwards. *)

From S2P Require Import Prelude Errors KVStore.

(** A task is named by the start of the node that spawned it and a number of its own. *)
Abbreviation task := (nat * nat)%type.

(** [tokio_util::task::TaskTracker] with the cancellation token that goes with it. *)
Record TrackedTasks := mkTracked {
  running : gset task;
  closed : bool;
  cancelled : bool;
}.

(** How the background processor ended. *)
Inductive processor_end :=
| Returned (r : outcome ErrorKind unit)
| Aborted
| TaskPanicked.

(** What ends during a wait. *)
Record meanwhile := mkMeanwhile {
  tasks_end : gset task;
  processors_end : gmap task processor_end;
}.

Module RuntimeControl.

Abbreviation tracker := nat.

(** [trackers] holds the trackers, which are shared between the fields below and the
    tasks; [processors] the background processors, [None] while one runs. *)
Record RuntimeControl := mkRuntimeControl {
  runtime_use : bool;
  trackers : gmap tracker TrackedTasks;
  next_tracker : tracker;
  processors : gmap task (option processor_end);
  background_tasks : tracker;
  cancellable_background_tasks : tracker;
  background_processor_task : option task;
  leftover_task_trackers : list tracker;
  leftover_processor_task : option task;
}.
Implicit Types (r : RuntimeControl).
Abbreviation rcmd A := (cmd RuntimeControl Error A).

Definition new_tracked : TrackedTasks := {| running := ∅; closed := false; cancelled := false |}.
Definition close (tr : TrackedTasks) := mkTracked (running tr) true (cancelled tr).
Definition cancel (tr : TrackedTasks) := mkTracked (running tr) (closed tr) true.

Definition new : RuntimeControl :=
  {| runtime_use := true; trackers := {[0%nat := new_tracked; 1%nat := new_tracked]};
     next_tracker := 2; processors := ∅; background_tasks := 0; cancellable_background_tasks := 1;
     background_processor_task := None; leftover_task_trackers := [];
     leftover_processor_task := None |}.

Definition set_trackers (m : gmap tracker TrackedTasks) r : RuntimeControl :=
  mkRuntimeControl (runtime_use r) m (next_tracker r) (processors r) (background_tasks r)
    (cancellable_background_tasks r) (background_processor_task r) (leftover_task_trackers r)
    (leftover_processor_task r).
Definition set_use (b : bool) r : RuntimeControl :=
  mkRuntimeControl b (trackers r) (next_tracker r) (processors r) (background_tasks r)
    (cancellable_background_tasks r) (background_processor_task r) (leftover_task_trackers r)
    (leftover_processor_task r).
Definition set_processors (m : gmap task (option processor_end)) r : RuntimeControl :=
  mkRuntimeControl (runtime_use r) (trackers r) (next_tracker r) m (background_tasks r)
    (cancellable_background_tasks r) (background_processor_task r) (leftover_task_trackers r)
    (leftover_processor_task r).
Definition set_processor_task (o : option task) r : RuntimeControl :=
  mkRuntimeControl (runtime_use r) (trackers r) (next_tracker r) (processors r) (background_tasks r)
    (cancellable_background_tasks r) o (leftover_task_trackers r) (leftover_processor_task r).
Definition set_leftovers (l : list tracker) r : RuntimeControl :=
  mkRuntimeControl (runtime_use r) (trackers r) (next_tracker r) (processors r) (background_tasks r)
    (cancellable_background_tasks r) (background_processor_task r) l (leftover_processor_task r).
Definition set_leftover_processor (o : option task) r : RuntimeControl :=
  mkRuntimeControl (runtime_use r) (trackers r) (next_tracker r) (processors r) (background_tasks r)
    (cancellable_background_tasks r) (background_processor_task r) (leftover_task_trackers r) o.

Definition on_tracker (id : tracker) (f : TrackedTasks → TrackedTasks) r : RuntimeControl :=
  set_trackers (alter f id (trackers r)) r.
Definition is_closed (id : tracker) r : bool :=
  match trackers r !! id with Some tr => closed tr | None => false end.
Definition is_empty (id : tracker) r : bool :=
  match trackers r !! id with Some tr => bool_decide (running tr = ∅) | None => true end.

(** ** Waiting *)

Definition end_tasks (done : gset task) (tr : TrackedTasks) : TrackedTasks :=
  mkTracked (running tr ∖ done) (closed tr) (cancelled tr).
Definition end_processor (m : meanwhile) (t : task) (p : option processor_end) :
    option (option processor_end) :=
  Some (match p with Some e => Some e | None => processors_end m !! t end).

Definition pass (m : meanwhile) r : RuntimeControl :=
  set_processors (map_imap (end_processor m) (processors r))
    (set_trackers (end_tasks (tasks_end m) <$> trackers r) r).

(** [tracker.wait()] is done. *)
Definition tracker_done (id : tracker) r : bool := is_closed id r && is_empty id r.

Definition finished (t : task) r : bool :=
  match processors r !! t with Some (Some _) => true | _ => false end.

Definition try_block_on {A} (f : RuntimeControl → RuntimeControl * A) : rcmd A := λ r,
  if runtime_use r then let '(r, a) := f r in (r, Ok a) else (r, Err NotRunning).

(** [.expect("owned runtime must outlive owner-driven work")] *)
Definition block_on {A} (f : RuntimeControl → RuntimeControl * A) : rcmd A := λ r,
  match try_block_on f r with (r, Err _) => (r, Panic) | res => res end.

(** [timeout(.., tasks.wait()).await.is_err()] *)
Definition wait_times_out (id : tracker) (m : meanwhile) r : RuntimeControl * bool :=
  let r := pass m r in (r, negb (tracker_done id r)).

(** ** Operations *)

Definition close_task_admission : rcmd unit :=
  modify (λ r, on_tracker (cancellable_background_tasks r) close
                 (on_tracker (background_tasks r) close r)).

Definition cancel_tracked_tasks : rcmd unit :=
  modify (λ r, on_tracker (cancellable_background_tasks r) (λ tr, cancel (close tr))
                 (on_tracker (background_tasks r) (λ tr, cancel (close tr)) r)).

Definition close_runtime_use : rcmd unit := modify (set_use false).

Definition detach_task_tracker (id : tracker) : rcmd unit :=
  modify (λ r, if is_empty id r then r
               else set_leftovers (leftover_task_trackers r ++ [id]) r).

Definition drain_detached_work (m : meanwhile) : rcmd bool := λ r,
  let ids := leftover_task_trackers r in
  let processor := leftover_processor_task r in
  let r := set_leftover_processor None (set_leftovers [] r) in
  let '(r, res) := try_block_on (λ r,
    let r := pass m r in
    (r, forallb (λ id, tracker_done id r) ids &&
        match processor with Some t => finished t r | None => true end)) r in
  match res with
  | Ok true => (r, Ok true)
  | _ =>
      let r := set_leftovers (leftover_task_trackers r ++ ids) r in
      let r := match processor with
               | Some t => if finished t r then r else set_leftover_processor (Some t) r
               | None => r
               end in
      (r, Ok false)
  end.

(** A closed group is replaced by a fresh one; dropping the old one closes and cancels
    it. *)
Definition fresh_group (id : tracker) r : RuntimeControl :=
  let r := on_tracker id (λ tr, cancel (close tr)) r in
  set_trackers (<[next_tracker r := new_tracked]> (trackers r)) r.
Definition reset_background r : RuntimeControl :=
  if is_closed (background_tasks r) r then
    let r' := fresh_group (background_tasks r) r in
    mkRuntimeControl (runtime_use r') (trackers r') (S (next_tracker r')) (processors r')
      (next_tracker r') (cancellable_background_tasks r') (background_processor_task r')
      (leftover_task_trackers r') (leftover_processor_task r')
  else r.
Definition reset_cancellable r : RuntimeControl :=
  if is_closed (cancellable_background_tasks r) r then
    let r' := fresh_group (cancellable_background_tasks r) r in
    mkRuntimeControl (runtime_use r') (trackers r') (S (next_tracker r')) (processors r')
      (background_tasks r') (next_tracker r') (background_processor_task r')
      (leftover_task_trackers r') (leftover_processor_task r')
  else r.

Definition allow_task_spawns (m : meanwhile) : rcmd bool :=
  drained ← drain_detached_work m;
  if negb drained then mret false
  else _ ← modify (λ r, reset_cancellable (reset_background r)); mret true.

Definition spawn_tracked_task (id : tracker) (t : task) r : RuntimeControl :=
  if is_closed id r then r
  else on_tracker id (λ tr, mkTracked ({[t]} ∪ running tr) (closed tr) (cancelled tr)) r.
Definition spawn_background_task (t : task) : rcmd unit :=
  modify (λ r, spawn_tracked_task (background_tasks r) t r).
Definition spawn_cancellable_background_task (t : task) : rcmd unit :=
  modify (λ r, spawn_tracked_task (cancellable_background_tasks r) t r).
Definition spawn_background_processor_task (t : task) : rcmd unit :=
  modify (λ r, set_processor_task (Some t) (set_processors (<[t := None]> (processors r)) r)).

Definition abort_cancellable_background_tasks (m : meanwhile) : rcmd unit :=
  with_state (λ r,
    let tasks := cancellable_background_tasks r in
    _ ← modify (on_tracker tasks (λ tr, cancel (close tr)));
    timed_out ← block_on (wait_times_out tasks m);
    if (timed_out : bool) then detach_task_tracker tasks else mret tt).

Definition wait_on_background_tasks (m m' : meanwhile) : rcmd unit :=
  with_state (λ r,
    let tasks := background_tasks r in
    _ ← modify (on_tracker tasks close);
    timed_out ← block_on (wait_times_out tasks m);
    if (timed_out : bool) then
      _ ← modify (on_tracker tasks cancel);
      cancellation_timed_out ← block_on (wait_times_out tasks m');
      if (cancellation_timed_out : bool) then detach_task_tracker tasks else mret tt
    else mret tt).

(** The result of waiting for the processor: [None] if it had to be detached. *)
Definition await_processor (t : task) (m m' : meanwhile) r :
    RuntimeControl * option (outcome ErrorKind unit) :=
  let r := pass m r in
  match processors r !! t with
  | Some (Some (Returned res)) => (r, Some res)
  | Some (Some _) => (r, Some (Err KindOther))
  | _ =>
      let r := pass m' r in
      match processors r !! t with
      | Some (Some (Returned res)) => (r, Some res)
      | Some (Some Aborted) => (r, Some (Ok tt))
      | Some (Some TaskPanicked) => (r, Some (Err KindOther))
      | _ => (r, None)
      end
  end.

Definition take_processor : rcmd (option task) := λ r,
  (set_processor_task None r, Ok (background_processor_task r)).

Definition wait_on_background_processor_task (m m' : meanwhile) :
    rcmd (outcome ErrorKind unit) :=
  handle ← take_processor;
  match handle with
  | None => mret (Ok tt)
  | Some t =>
      outcome ← block_on (await_processor t m m');
      match outcome with
      | Some res => mret res
      | None => _ ← modify (set_leftover_processor (Some t)); mret (Ok tt)
      end
  end.

(** The processors are also asked to abort, which ends them at some later wait. *)
Definition cancel_all_tasks : rcmd unit := cancel_tracked_tasks.

(** [Drop for Runtime] *)
Definition drop (m : meanwhile) : rcmd unit :=
  _ ← cancel_all_tasks;
  _ ← drain_detached_work m;
  close_runtime_use.

(** ** What still runs *)

Definition runs_on r (id : tracker) (t : task) : Prop :=
  ∃ tr, trackers r !! id = Some tr ∧ t ∈ running tr.
Definition processing r (t : task) : Prop := processors r !! t = Some None.

(** [t] has been spawned and has not ended. *)
Definition alive (t : task) r : Prop := (∃ id, runs_on r id t) ∨ processing r t.

(** All that runs is on a tracker of [G], is the processor [p], or was detached. *)
Record accounted (G : tracker → Prop) (p : option task) r : Prop := {
  acc_trackers id t : runs_on r id t → G id ∨ id ∈ leftover_task_trackers r;
  acc_processor t : processing r t → p = Some t ∨ leftover_processor_task r = Some t;
}.

(** Nothing was spawned from [r] to [r'], and the groups are the same. *)
Record quiet r r' : Prop := {
  quiet_runs id t : runs_on r' id t → runs_on r id t;
  quiet_processing t : processing r' t → processing r t;
  quiet_use : runtime_use r' = runtime_use r;
  quiet_background : background_tasks r' = background_tasks r;
  quiet_cancellable : cancellable_background_tasks r' = cancellable_background_tasks r;
  quiet_next : next_tracker r' = next_tracker r;
  quiet_closed id : is_closed id r = true → is_closed id r' = true;
  quiet_dom id : is_Some (trackers r !! id) → is_Some (trackers r' !! id);
}.

(** Nor was anything detached. *)
Record still r r' : Prop := {
  still_quiet : quiet r r';
  still_leftover : leftover_task_trackers r' = leftover_task_trackers r;
  still_leftover_processor : leftover_processor_task r' = leftover_processor_task r;
  still_processor : background_processor_task r' = background_processor_task r;
}.

#[global] Instance quiet_preorder : PreOrder quiet.
Proof. split; [by split|]. intros r1 r2 r3 [] []. split; eauto; congruence. Qed.
#[global] Instance still_preorder : PreOrder still.
Proof. split; [by split|]. intros r1 r2 r3 [] []. split; [by etrans|congruence..]. Qed.

Lemma quiet_alive r r' t : quiet r r' → alive t r' → alive t r.
Proof. intros Q [[id ?]|?]; [left; exists id|right]; by eapply Q. Qed.

Lemma still_accounted G p r r' : still r r' → accounted G p r → accounted G p r'.
Proof.
  intros [Q Hl Hp _] [Ht Hpr]. split.
  - intros id t Hr%(quiet_runs _ _ Q). rewrite Hl. eauto.
  - intros t Hr%(quiet_processing _ _ Q). rewrite Hp. eauto.
Qed.

Lemma on_tracker_still id f r :
  (∀ tr, running (f tr) = running tr) → (∀ tr, closed tr = true → closed (f tr) = true) →
  still r (on_tracker id f r).
Proof.
  intros Hf Hc. split; [split|..]; try done.
  - intros id' t (tr & Htr & Ht). simpl in Htr.
    apply lookup_alter_Some in Htr as [(<- & tr0 & Htr0 & ->)|[_ Htr]].
    + exists tr0. by rewrite Hf in Ht.
    + by exists tr.
  - intros id'. unfold is_closed. simpl. destruct (decide (id = id')) as [->|].
    + rewrite lookup_alter_eq. destruct (trackers r !! id'); simpl; auto.
    + by rewrite lookup_alter_ne.
  - intros id' [tr Htr]. simpl. destruct (decide (id = id')) as [->|].
    + rewrite lookup_alter_eq, Htr. by eexists.
    + rewrite lookup_alter_ne, Htr by done. by eexists.
Qed.

Lemma pass_still m r : still r (pass m r).
Proof.
  split; [split|..]; try done.
  - intros id t (tr & Htr & Ht). simpl in Htr. apply lookup_fmap_Some in Htr as (tr0 & <- & Htr).
    exists tr0. set_solver.
  - intros t. unfold processing, end_processor. simpl. rewrite map_lookup_imap.
    by destruct (processors r !! t) as [[e|]|].
  - intros id. unfold is_closed. simpl. rewrite lookup_fmap. by destruct (trackers r !! id).
  - intros id [tr Htr]. simpl. rewrite lookup_fmap, Htr. by eexists.
Qed.

Lemma tracker_done_no_run id r t : tracker_done id r = true → ¬ runs_on r id t.
Proof.
  unfold tracker_done, is_empty. intros [_ He]%andb_true_iff (tr & Htr & Ht). rewrite Htr in He.
  apply bool_decide_eq_true in He. set_solver.
Qed.

Lemma close_admission_still r r' x :
  close_task_admission r = (r', x) → x = Ok tt ∧ still r r'.
Proof.
  unfold close_task_admission, modify. intros [= <- <-]. split; [done|].
  etrans; apply on_tracker_still; done.
Qed.

Lemma cancel_tracked_still r r' x : cancel_tracked_tasks r = (r', x) → x = Ok tt ∧ still r r'.
Proof.
  unfold cancel_tracked_tasks, modify. intros [= <- <-]. split; [done|].
  etrans; apply on_tracker_still; done.
Qed.

(** After a wait that ended, or after the tracker was detached, nothing of it is
    unaccounted for. *)
Lemma waited_accounted G p id r :
  tracker_done id r = true → accounted G p r → accounted (λ i, G i ∧ i ≠ id) p r.
Proof.
  intros Hdone [Ht Hp]. split; [|done]. intros i t Hr.
  assert (i ≠ id) by (intros ->; by eapply tracker_done_no_run). naive_solver.
Qed.

Lemma detach_spec G p id r r' x :
  detach_task_tracker id r = (r', x) → accounted G p r →
  x = Ok tt ∧ quiet r r' ∧ leftover_processor_task r' = leftover_processor_task r ∧
  background_processor_task r' = background_processor_task r ∧
  accounted (λ i, G i ∧ i ≠ id) p r'.
Proof.
  unfold detach_task_tracker, modify. intros [= <- <-] [Ht Hp].
  destruct (is_empty id r) eqn:He.
  - split_and!; [done|done|done|done|]. split; [|done]. intros i t Hr.
    assert (i ≠ id); [|naive_solver]. intros ->. destruct Hr as (tr & Htr & Hin).
    unfold is_empty in He. rewrite Htr in He. apply bool_decide_eq_true in He. set_solver.
  - split_and!; [done|by split|done|done|]. split; [|done]. intros i t Hr. simpl.
    rewrite elem_of_app, list_elem_of_singleton.
    destruct (decide (i = id)); [auto|]. destruct (Ht i t Hr); auto.
Qed.
Lemma block_on_wait id m r :
  runtime_use r = true →
  block_on (wait_times_out id m) r = (pass m r, Ok (negb (tracker_done id (pass m r)))).
Proof. unfold block_on, try_block_on, wait_times_out. by intros ->. Qed.

(** What a call that waits for the group [id] does. *)
Definition wait_spec (id : tracker) (m : cmd RuntimeControl Error unit) : Prop :=
  ∀ G p r r' x,
    runtime_use r = true → m r = (r', x) → accounted G p r →
    x = Ok tt ∧ quiet r r' ∧ leftover_processor_task r' = leftover_processor_task r ∧
    background_processor_task r' = background_processor_task r ∧
    accounted (λ i, G i ∧ i ≠ id) p r'.

(** Either the wait ended, or [k] goes on after it. *)
Lemma wait_then id f m (k : cmd RuntimeControl Error unit) :
  (∀ tr, running (f tr) = running tr) → (∀ tr, closed tr = true → closed (f tr) = true) →
  wait_spec id k →
  wait_spec id (_ ← modify (on_tracker id f); timed_out ← block_on (wait_times_out id m);
                if (timed_out : bool) then k else mret tt).
Proof.
  intros Hf Hc Hk G p r r' x Huse. unfold mbind, cmd_bind, modify.
  pose proof (on_tracker_still id f r Hf Hc) as S1.
  assert (Huse1 : runtime_use (on_tracker id f r) = true) by done.
  rewrite (block_on_wait id m _ Huse1). simpl.
  pose proof (pass_still m (on_tracker id f r)) as S2.
  assert (S : still r (pass m (on_tracker id f r))) by (by etrans).
  revert S. generalize (pass m (on_tracker id f r)). intros r2 S Hrun Hacc.
  apply (still_accounted _ _ _ _ S) in Hacc. destruct S as [Q _ Hlp Hbp].
  destruct (tracker_done id r2) eqn:Hdone; simpl in Hrun.
  - injection Hrun as <- <-. split_and!; [done|done|done|done|]. by apply waited_accounted.
  - destruct (Hk G p r2 r' x) as (-> & Q' & Hlp' & Hbp' & Hacc'); [|done..|].
    { by rewrite (quiet_use _ _ Q). }
    split_and!; [done|by etrans|congruence|congruence|done].
Qed.

Lemma detach_wait_spec id : wait_spec id (detach_task_tracker id).
Proof. intros G p r r' x _. apply detach_spec. Qed.

Lemma abort_cancellable_spec m G p r r' x :
  runtime_use r = true → abort_cancellable_background_tasks m r = (r', x) → accounted G p r →
  x = Ok tt ∧ quiet r r' ∧ leftover_processor_task r' = leftover_processor_task r ∧
  background_processor_task r' = background_processor_task r ∧
  accounted (λ i, G i ∧ i ≠ cancellable_background_tasks r) p r'.
Proof. apply (wait_then _ (λ tr, cancel (close tr))); [done..|apply detach_wait_spec]. Qed.

Lemma wait_on_background_spec m m' G p r r' x :
  runtime_use r = true → wait_on_background_tasks m m' r = (r', x) → accounted G p r →
  x = Ok tt ∧ quiet r r' ∧ leftover_processor_task r' = leftover_processor_task r ∧
  background_processor_task r' = background_processor_task r ∧
  accounted (λ i, G i ∧ i ≠ background_tasks r) p r'.
Proof.
  apply (wait_then _ close); [done..|]. apply (wait_then _ cancel); [done..|].
  apply detach_wait_spec.
Qed.

Lemma await_processor_spec t m m' r r' o :
  await_processor t m m' r = (r', o) →
  still r r' ∧ (o = None ∨ ¬ processing r' t).
Proof.
  unfold await_processor, processing. pose proof (pass_still m r) as S1.
  pose proof (pass_still m' (pass m r)) as S2. intros H.
  destruct (processors (pass m r) !! t) as [[[]|]|] eqn:H1;
    try (injection H as <- <-; split; [done|right; congruence]);
    destruct (processors (pass m' (pass m r)) !! t) as [[[]|]|] eqn:H2;
    injection H as <- <-; (split; [by etrans|]); (by left) || (right; congruence).
Qed.

Lemma wait_processor_spec m m' G r r' x :
  runtime_use r = true → leftover_processor_task r = None →
  wait_on_background_processor_task m m' r = (r', x) →
  accounted G (background_processor_task r) r →
  (∃ res, x = Ok res) ∧ quiet r r' ∧ background_processor_task r' = None ∧ accounted G None r'.
Proof.
  unfold wait_on_background_processor_task, take_processor, block_on, try_block_on, modify,
    mbind, cmd_bind.
  intros Huse Hlp Hrun Hacc. simpl in Hrun.
  destruct (background_processor_task r) as [t|] eqn:Ht; simpl in Hrun.
  2:{ injection Hrun as <- <-. split_and!; [by eexists|by split|done|].
      destruct Hacc as [HG Hp]. split; [exact HG|]. intros t Hr. right.
      by destruct (Hp t Hr). }
  rewrite Huse in Hrun.
  destruct (await_processor t m m' (set_processor_task None r)) as [r2 o] eqn:Ha.
  apply await_processor_spec in Ha as [[Q Hl Hlp' Hbp] Hend]. simpl in *.
  assert (Q0 : quiet r r2) by (etrans; [|exact Q]; by split).
  assert (HG : ∀ id t', runs_on r2 id t' → G id ∨ id ∈ leftover_task_trackers r2).
  { intros id t' Hr%(quiet_runs _ _ Q0). rewrite Hl. by eapply acc_trackers. }
  assert (Hpr : ∀ t', processing r2 t' → t' = t).
  { intros t' Hr%(quiet_processing _ _ Q0). destruct (acc_processor _ _ _ Hacc t' Hr); congruence. }
  destruct o as [res|]; simpl in Hrun; injection Hrun as <- <-.
  - split_and!; [by eexists|done|done|]. split; [done|]. intros t' Hr.
    destruct Hend as [?|Hend]; [done|]. destruct Hend. by rewrite <-(Hpr t' Hr).
  - split_and!; [by eexists|by etrans; [exact Q0|split]|done|]. split; [done|]. intros t' Hr. right. simpl.
    by rewrite (Hpr t' Hr).
Qed.
(** Nothing runs. *)
Definition idle r : Prop := (∀ id t, ¬ runs_on r id t) ∧ (∀ t, ¬ processing r t).

Lemma idle_alive r t : idle r → ¬ alive t r.
Proof. intros [Hr Hp] [[id ?]|?]; [by eapply Hr|by eapply Hp]. Qed.

Lemma quiet_idle r r' : quiet r r' → idle r → idle r'.
Proof.
  intros Q [Hr Hp]. split.
  - intros id t ?%(quiet_runs _ _ Q). by eapply Hr.
  - intros t ?%(quiet_processing _ _ Q). by eapply Hp.
Qed.

Lemma idle_accounted G p r : idle r → accounted G p r.
Proof. intros [Hr Hp]. split; [intros id t []%Hr|intros t []%Hp]. Qed.

(** The groups exist. *)
Definition has_groups r : Prop :=
  is_Some (trackers r !! background_tasks r) ∧ is_Some (trackers r !! cancellable_background_tasks r).
Definition groups_closed r : Prop :=
  is_closed (background_tasks r) r = true ∧ is_closed (cancellable_background_tasks r) r = true.

Lemma quiet_groups r r' : quiet r r' → has_groups r → has_groups r'.
Proof.
  intros Q [H1 H2]. unfold has_groups.
  rewrite (quiet_background _ _ Q), (quiet_cancellable _ _ Q). split; by apply (quiet_dom _ _ Q).
Qed.
Lemma quiet_groups_closed r r' : quiet r r' → groups_closed r → groups_closed r'.
Proof.
  intros Q [H1 H2]. unfold groups_closed.
  rewrite (quiet_background _ _ Q), (quiet_cancellable _ _ Q). split; by apply (quiet_closed _ _ Q).
Qed.

Lemma on_tracker_closed id f r :
  (∀ tr, closed (f tr) = true) → is_Some (trackers r !! id) → is_closed id (on_tracker id f r) = true.
Proof.
  intros Hf [tr Htr]. unfold is_closed. simpl. rewrite lookup_alter_eq, Htr. simpl. apply Hf.
Qed.

Lemma close_admission_closed r r' x :
  has_groups r → close_task_admission r = (r', x) → groups_closed r'.
Proof.
  unfold close_task_admission, modify. intros [H1 H2] [= <- <-].
  pose proof (on_tracker_still (background_tasks r) close r) as [Q _ _ _]; [done..|].
  split; [|apply on_tracker_closed; [done|by apply (quiet_dom _ _ Q)]].
  apply (quiet_closed (on_tracker (background_tasks r) close r)); [by apply on_tracker_still|].
  by apply on_tracker_closed.
Qed.

(** Draining succeeds exactly when nothing detached is left, and otherwise loses sight of
    nothing. *)
Lemma drain_spec m r r' x :
  runtime_use r = true → accounted (λ _, False) None r →
  drain_detached_work m r = (r', x) →
  quiet r r' ∧ background_processor_task r' = background_processor_task r ∧
  (x = Ok true ∧ idle r' ∧ leftover_processor_task r' = None ∨
   x = Ok false ∧ accounted (λ _, False) None r').
Proof.
  unfold drain_detached_work, try_block_on. intros Huse [Ht Hp]. simpl. rewrite Huse.
  set (r0 := set_leftover_processor None (set_leftovers [] r)).
  assert (Q0 : quiet r r0) by (by split).
  destruct (pass_still m r0) as [Q1 Hl Hlp Hbp]. revert Q1 Hl Hlp Hbp.
  generalize (pass m r0). intros r1 Q1 Hl Hlp Hbp. simpl in *.
  assert (Q : quiet r r1) by (by etrans).
  destruct (forallb _ _ && _) eqn:Hdone; intros [= <- <-].
  - split_and!; [done|done|left]. apply andb_true_iff in Hdone as [Htr Hpr].
    rewrite forallb_forall in Htr. split_and!; [done| |done]. split.
    + intros id t Hr. destruct (Ht id t) as [[]|Hin]; [by apply (quiet_runs _ _ Q)|].
      eapply tracker_done_no_run; [|done]. apply Htr. by apply list_elem_of_In.
    + intros t Hr. destruct (Hp t) as [?|Hlt]; [by apply (quiet_processing _ _ Q)|done|].
      rewrite Hlt in Hpr. unfold finished in Hpr. unfold processing in Hr. by rewrite Hr in Hpr.
  - assert (Hset : ∀ o, quiet r (set_leftover_processor o
        (set_leftovers (leftover_task_trackers r1 ++ leftover_task_trackers r) r1)))
      by (intros; etrans; [exact Q|by split]).
    assert (Hset' : quiet r (set_leftovers (leftover_task_trackers r1 ++ leftover_task_trackers r) r1))
      by (etrans; [exact Q|by split]).
    split_and!; [by repeat case_match|by repeat case_match|right]. split; [done|]. split.
    + intros id t Hr. right.
      assert (Hr1 : runs_on r id t) by (apply (quiet_runs _ _ Q); by repeat case_match).
      destruct (Ht id t Hr1) as [[]|Hin]. repeat case_match; simpl; set_solver.
    + intros t Hr. right. assert (Hr1 : processing r1 t) by (by repeat case_match).
      destruct (Hp t) as [?|Hlt]; [by apply (quiet_processing _ _ Q)|done|].
      rewrite Hlt. unfold finished. simpl. unfold processing in Hr1. by rewrite Hr1.
Qed.

Lemma fresh_group_spec id r r' :
  r' = fresh_group id r → idle r → trackers r' !! next_tracker r = Some new_tracked ∧ idle r'.
Proof.
  intros -> [Hr Hp]. split; [simpl; apply lookup_insert_eq|]. split; [|done].
  intros i t (tr & Htr & Hin). simpl in Htr.
  apply lookup_insert_Some in Htr as [[<- <-]|[_ Htr]]; [set_solver|].
  apply (Hr i t). apply (quiet_runs r (on_tracker id (λ tr, cancel (close tr)) r));
    [by apply on_tracker_still|]. by exists tr.
Qed.

(** A new generation of tasks starts from nothing. *)
Lemma reset_idle r :
  idle r → has_groups r →
  let r' := reset_cancellable (reset_background r) in
  idle r' ∧ has_groups r' ∧ runtime_use r' = runtime_use r ∧
  leftover_processor_task r' = leftover_processor_task r ∧
  background_processor_task r' = background_processor_task r.
Proof.
  assert (Hdom : ∀ id id' r, is_Some (trackers r !! id') → is_Some (trackers (fresh_group id r) !! id')).
  { intros id id' r0 H. simpl. rewrite lookup_insert_is_Some. destruct (decide (next_tracker r0 = id'));
      [by left|right]. split; [done|].
    apply (quiet_dom r0 (on_tracker id (λ tr, cancel (close tr)) r0)); [|done].
    by apply on_tracker_still. }
  assert (Hb : ∀ r, idle r → has_groups r → idle (reset_background r) ∧ has_groups (reset_background r)).
  { intros r0 Hi [H1 H2]. unfold reset_background. destruct (is_closed _ r0); [|done].
    destruct (fresh_group_spec (background_tasks r0) r0 _ eq_refl Hi) as [Hn Hi'].
    split; [exact Hi'|]. split; simpl; [by rewrite lookup_insert_eq|]. by apply Hdom. }
  intros Hi Hg. destruct (Hb r Hi Hg) as [Hi1 [H1 H2]].
  assert (Heq : runtime_use (reset_background r) = runtime_use r ∧
    leftover_processor_task (reset_background r) = leftover_processor_task r ∧
    background_processor_task (reset_background r) = background_processor_task r)
    by (unfold reset_background; by destruct (is_closed _ r)).
  revert Hi1 H1 H2 Heq. generalize (reset_background r). intros r1 Hi1 H1 H2 (Hu & Hlp & Hbp).
  unfold reset_cancellable. destruct (is_closed _ r1); [|done].
  destruct (fresh_group_spec (cancellable_background_tasks r1) r1 _ eq_refl Hi1) as [Hn Hi'].
  split_and!; [exact Hi'| |done|done|done].
  split; simpl; [by apply Hdom|by rewrite lookup_insert_eq].
Qed.

Lemma allow_spec m r r' x :
  runtime_use r = true → accounted (λ _, False) None r → has_groups r →
  allow_task_spawns m r = (r', x) →
  runtime_use r' = true ∧ background_processor_task r' = background_processor_task r ∧
  has_groups r' ∧
  (x = Ok true ∧ idle r' ∧ leftover_processor_task r' = None ∨
   x = Ok false ∧ quiet r r' ∧ accounted (λ _, False) None r').
Proof.
  unfold allow_task_spawns, mbind, cmd_bind, modify. intros Huse Hacc Hg.
  destruct (drain_detached_work m r) as [r1 y] eqn:Hd.
  destruct (drain_spec m r r1 y Huse Hacc Hd) as (Q & Hbp & [(-> & Hi & Hlp)|(-> & Ha)]); simpl.
  - intros [= <- <-]. destruct (reset_idle r1 Hi) as (Hi' & Hg' & Hu & Hlp' & Hbp').
    { by eapply quiet_groups. }
    split_and!; [by rewrite Hu, (quiet_use _ _ Q)|congruence|done|left].
    split_and!; [done|done|congruence].
  - intros [= <- <-]. split_and!; [by rewrite (quiet_use _ _ Q)|done|by eapply quiet_groups|].
    right. done.
Qed.

(** Both groups take tasks. *)
Definition groups_open r : Prop :=
  is_closed (background_tasks r) r = false ∧ is_closed (cancellable_background_tasks r) r = false.

Lemma pass_closed m id r : is_closed id (pass m r) = is_closed id r.
Proof. unfold is_closed. simpl. rewrite lookup_fmap. by destruct (trackers r !! id). Qed.
Lemma on_other_closed id id' f r :
  id ≠ id' → is_closed id' (on_tracker id f r) = is_closed id' r.
Proof. intros Hne. unfold is_closed. simpl. by rewrite lookup_alter_ne. Qed.
Lemma spawn_is_closed id id' t r : is_closed id' (spawn_tracked_task id t r) = is_closed id' r.
Proof.
  unfold spawn_tracked_task. destruct (is_closed id r) eqn:Hc; [done|].
  destruct (decide (id = id')) as [<-|Hne]; [|by apply on_other_closed].
  rewrite Hc. revert Hc. unfold is_closed. simpl. rewrite lookup_alter_eq.
  by destruct (trackers r !! id).
Qed.

(** A group that was open is still open after the other one was made new. *)
Lemma fresh_open id id' r :
  is_closed id r = true → is_closed id' r = false → is_closed id' (fresh_group id r) = false.
Proof.
  intros Hc Ho. unfold fresh_group. cbv zeta. unfold is_closed at 1. simpl.
  destruct (decide (next_tracker r = id')) as [<-|Hne]; [by rewrite lookup_insert_eq|].
  rewrite lookup_insert_ne by done.
  assert (id ≠ id') as Hid by congruence. by rewrite lookup_alter_ne.
Qed.
Lemma fresh_new_open id r : is_closed (next_tracker r) (fresh_group id r) = false.
Proof. unfold is_closed, fresh_group. simpl. by rewrite lookup_insert_eq. Qed.

Lemma reset_open r : groups_open (reset_cancellable (reset_background r)).
Proof.
  assert (is_closed (background_tasks (reset_background r)) (reset_background r) = false) as Hb.
  { unfold reset_background. destruct (is_closed (background_tasks r) r) eqn:Hc; [|done].
    exact (fresh_new_open (background_tasks r) r). }
  revert Hb. generalize (reset_background r). intros r1 Hb. unfold reset_cancellable.
  destruct (is_closed (cancellable_background_tasks r1) r1) eqn:Hc; [|by split].
  split; [exact (fresh_open _ _ _ Hc Hb)|exact (fresh_new_open (cancellable_background_tasks r1) r1)].
Qed.

(** Where spawning is allowed, nothing is detached and the groups take tasks. *)
Lemma allow_open m r r' :
  allow_task_spawns m r = (r', Ok true) → leftover_task_trackers r' = [] ∧ groups_open r'.
Proof.
  unfold allow_task_spawns, mbind, cmd_bind, modify, drain_detached_work, try_block_on. simpl.
  destruct (runtime_use r); [|done].
  destruct (forallb _ _ && _); [|done]. simpl. intros [= <-]. split; [|apply reset_open].
  unfold reset_cancellable, reset_background. by repeat case_match.
Qed.

(** With nothing detached and open groups, allowing changes nothing but what ends
    meanwhile, whatever runs. *)
Lemma allow_again m r r' x :
  runtime_use r = true → leftover_task_trackers r = [] → leftover_processor_task r = None →
  groups_open r → allow_task_spawns m r = (r', x) →
  x = Ok true ∧ still r r' ∧ groups_open r'.
Proof.
  unfold allow_task_spawns, mbind, cmd_bind, modify, drain_detached_work, try_block_on.
  intros Hu Hl Hp [Hb Hc]. simpl. rewrite Hu, Hl, Hp. cbn [forallb andb negb].
  set (r0 := set_leftover_processor None (set_leftovers [] r)).
  assert (reset_cancellable (reset_background (pass m r0)) = pass m r0) as ->.
  { unfold reset_background. rewrite pass_closed, (Hb : is_closed (background_tasks (pass m r0)) r0 = _).
    unfold reset_cancellable. by rewrite pass_closed, (Hc : is_closed (cancellable_background_tasks (pass m r0)) r0 = _). }
  intros [= <- <-]. split; [done|]. split.
  - etrans; [|apply pass_still]. by split; [split|..].
  - split; rewrite pass_closed; [exact Hb|exact Hc].
Qed.

Lemma spawn_runs id t r id' t' :
  runs_on (spawn_tracked_task id t r) id' t' →
  runs_on r id' t' ∨ (id' = id ∧ t' = t).
Proof.
  unfold spawn_tracked_task. destruct (is_closed id r); [by left|].
  intros (tr & Htr & Hin). simpl in Htr.
  apply lookup_alter_Some in Htr as [(<- & tr0 & Htr0 & ->)|[_ Htr]]; [|left; by exists tr].
  simpl in Hin. apply elem_of_union in Hin as [->%elem_of_singleton|Hin]; [by right|].
  left. by exists tr0.
Qed.
Lemma spawn_fields id t r :
  let r' := spawn_tracked_task id t r in
  runtime_use r' = runtime_use r ∧ background_tasks r' = background_tasks r ∧
  cancellable_background_tasks r' = cancellable_background_tasks r ∧
  processors r' = processors r ∧ background_processor_task r' = background_processor_task r ∧
  leftover_task_trackers r' = leftover_task_trackers r ∧
  leftover_processor_task r' = leftover_processor_task r ∧
  (has_groups r → has_groups r').
Proof.
  unfold spawn_tracked_task. destruct (is_closed id r); simpl; [done|].
  split_and!; try done. intros [H1 H2]. unfold has_groups. simpl.
  split; [destruct (decide (id = background_tasks r)) as [->|]
         |destruct (decide (id = cancellable_background_tasks r)) as [->|]];
    rewrite ?lookup_alter_eq, ?lookup_alter_ne by done; by try apply fmap_is_Some.
Qed.

Lemma spawn_closed id t r : is_closed id r = true → spawn_tracked_task id t r = r.
Proof. unfold spawn_tracked_task. by intros ->. Qed.
(** The four waits of a shutdown: all that still runs afterwards was detached. *)
Lemma shutdown_spec ma mb mb' mp mp' r r1 r2 r3 r4 x1 x2 x3 x4 :
  runtime_use r = true → has_groups r → leftover_processor_task r = None →
  accounted (λ i, i = background_tasks r ∨ i = cancellable_background_tasks r)
    (background_processor_task r) r →
  close_task_admission r = (r1, x1) →
  abort_cancellable_background_tasks ma r1 = (r2, x2) →
  wait_on_background_tasks mb mb' r2 = (r3, x3) →
  wait_on_background_processor_task mp mp' r3 = (r4, x4) →
  x1 = Ok tt ∧ x2 = Ok tt ∧ x3 = Ok tt ∧ (∃ res, x4 = Ok res) ∧
  quiet r r4 ∧ groups_closed r4 ∧ background_processor_task r4 = None ∧
  accounted (λ _, False) None r4.
Proof.
  intros Hu Hg Hl Ha H1 H2 H3 H4.
  pose proof (close_admission_closed _ _ _ Hg H1) as Hcl.
  apply close_admission_still in H1 as [-> S1]. pose proof (still_quiet _ _ S1) as Q1.
  apply (still_accounted _ _ _ _ S1) in Ha.
  assert (Hu1 : runtime_use r1 = true) by (by rewrite (quiet_use _ _ Q1)).
  destruct (abort_cancellable_spec _ _ _ _ _ _ Hu1 H2 Ha) as (-> & Q2 & Hlp2 & Hbp2 & Ha2).
  assert (Hu2 : runtime_use r2 = true) by (by rewrite (quiet_use _ _ Q2)).
  destruct (wait_on_background_spec _ _ _ _ _ _ _ Hu2 H3 Ha2) as (-> & Q3 & Hlp3 & Hbp3 & Ha3).
  assert (Hu3 : runtime_use r3 = true) by (by rewrite (quiet_use _ _ Q3)).
  assert (Hlp : leftover_processor_task r3 = None)
    by (by rewrite Hlp3, Hlp2, (still_leftover_processor _ _ S1)).
  rewrite <-(still_processor _ _ S1), <-Hbp2, <-Hbp3 in Ha3.
  destruct (wait_processor_spec _ _ _ _ _ _ Hu3 Hlp H4 Ha3) as ([res ->] & Q4 & Hbp4 & [HG Hp]).
  assert (Q14 : quiet r1 r4) by (etrans; [exact Q2|]; by etrans).
  split_and!; [done|done|done|by exists res|by etrans|by eapply quiet_groups_closed|done|].
  split; [|done]. intros id t Hr. destruct (HG id t Hr) as [[[Hb Hc] Hc']|]; [|by right].
  rewrite (quiet_background _ _ Q2), (quiet_background _ _ Q1) in Hc'.
  rewrite (quiet_cancellable _ _ Q1) in Hc. naive_solver.
Qed.
End RuntimeControl.
