(* ===== verification/Lifecycle.v ===== *)
(** * Starting and stopping the node ([Node::start], [Node::stop] and
      [handle_background_processor_failure] of [src/lib.rs])

    The lifecycle of the node's tasks over the task runtime.  The chain source is a
    parameter; what the outside world answers during a start, and what ends while a call
    waits, are inputs.  Both calls hold [lifecycle_lock], so that they do not overlap. *)

From S2P Require Import Prelude Errors KVStore Runtime.
Import RuntimeControl.

Module Node.
Section node.
(** The chain source: starting it, its first update of the fee rates, the announcement
    of a shutdown and stopping it. *)
Context {C : Type}.
Context (chain_start chain_update_fees : C → C * outcome Error unit).
Context (chain_begin_shutdown chain_stop : C → C).

Record Node := mkNode {
  runtime : RuntimeControl;
  chain_source : C;
  is_running : bool;
  background_processor_failed : bool;
  background_processor_generation : Z;
  (** The generation each processor was spawned with. *)
  generations : gmap task Z;
  (** How often [start] got as far as spawning. *)
  starts : nat;
}.
Implicit Types (n : Node).
Abbreviation ncmd A := (cmd Node Error A).

Definition new (c : C) : Node :=
  {| runtime := RuntimeControl.new; chain_source := c; is_running := false;
     background_processor_failed := false; background_processor_generation := 0;
     generations := ∅; starts := 0 |}.

Definition set_runtime (r : RuntimeControl) n : Node :=
  mkNode r (chain_source n) (is_running n) (background_processor_failed n)
    (background_processor_generation n) (generations n) (starts n).
Definition set_chain (c : C) n : Node :=
  mkNode (runtime n) c (is_running n) (background_processor_failed n)
    (background_processor_generation n) (generations n) (starts n).
Definition set_running (b : bool) n : Node :=
  mkNode (runtime n) (chain_source n) b (background_processor_failed n)
    (background_processor_generation n) (generations n) (starts n).
Definition set_failed (b : bool) n : Node :=
  mkNode (runtime n) (chain_source n) (is_running n) b
    (background_processor_generation n) (generations n) (starts n).
Definition bump_processor_generation n : Node :=
  mkNode (runtime n) (chain_source n) (is_running n) (background_processor_failed n)
    (wrap64 (background_processor_generation n + 1)) (generations n) (starts n).
Definition count_start n : Node :=
  mkNode (runtime n) (chain_source n) (is_running n) (background_processor_failed n)
    (background_processor_generation n) (generations n) (S (starts n)).
Definition tag_processor (t : task) n : Node :=
  mkNode (runtime n) (chain_source n) (is_running n) (background_processor_failed n)
    (background_processor_generation n)
    (<[t := background_processor_generation n]> (generations n)) (starts n).

Definition on_runtime {A} (m : cmd RuntimeControl Error A) : ncmd A := λ n,
  let '(r, res) := m (runtime n) in (set_runtime r n, res).
Definition on_chain {A} (m : C → C * outcome Error A) : ncmd A := λ n,
  let '(c, res) := m (chain_source n) in (set_chain c n, res).

Definition handle_background_processor_failure (generation : Z) : ncmd unit :=
  with_state (λ n,
    if negb (generation =? background_processor_generation n) then mret tt
    else
      _ ← modify (λ n, set_running false (set_failed true n));
      _ ← on_runtime close_task_admission;
      _ ← modify (λ n, set_chain (chain_begin_shutdown (chain_source n)) n);
      on_runtime cancel_tracked_tasks).

(** ** [start] *)

Record start_inputs := mkStartInputs {
  (** What ends while left-over work is drained. *)
  drain : meanwhile;
  is_rgs : bool;
  syncs_scores : bool;
  (** Where listening addresses are configured: the number of listeners, or that an
      address could not be resolved or bound. *)
  listeners : option (option nat);
  may_announce : bool;
  has_liquidity_source : bool;
  (** The processor fails before [start] returns. *)
  processor_fails : bool;
}.

(** The numbers of the tasks of one start. *)
Definition CHAIN_SYNC : nat := 0.
Definition GOSSIP_SYNC : nat := 1.
Definition SCORES_SYNC : nat := 2.
Definition RECONNECT : nat := 3.
Definition ANNOUNCE : nat := 4.
Definition BROADCAST : nat := 5.
Definition PROCESSOR : nat := 6.
Definition LIQUIDITY : nat := 7.
Definition LISTENER (i : nat) : nat := 8 + i.

Definition spawn_if (b : bool) (number : nat) : ncmd unit :=
  with_state (λ n,
    if b then on_runtime (spawn_cancellable_background_task (starts n, number)) else mret tt).
Definition spawn_listeners (l : option (option nat)) : ncmd unit :=
  match l with
  | None => mret tt
  | Some bound =>
      count ← lift (ok_or bound InvalidSocketAddress);
      for_each (λ i, spawn_if true (LISTENER i)) (seq 0 count)
  end.

(** The processor's task ends with an error, after its callback. *)
Definition processor_ends (t : task) (e : processor_end) : ncmd unit :=
  with_state (λ n,
    _ ← match e with
        | Returned (Err _) =>
            handle_background_processor_failure (default 0 (generations n !! t))
        | _ => mret tt
        end;
    on_runtime (modify (pass (mkMeanwhile ∅ {[t := e]})))).

Definition spawn_processor (fails : bool) : ncmd unit :=
  with_state (λ n,
    let t := (starts n, PROCESSOR) in
    _ ← modify (λ n, tag_processor t (bump_processor_generation n));
    _ ← on_runtime (spawn_background_processor_task t);
    if fails then processor_ends t (Returned (Err KindOther)) else mret tt).

Definition spawn_all (i : start_inputs) : ncmd unit :=
  _ ← with_state (λ n, on_runtime (spawn_background_task (starts n, CHAIN_SYNC)));
  _ ← spawn_if (is_rgs i) GOSSIP_SYNC;
  _ ← spawn_if (syncs_scores i) SCORES_SYNC;
  _ ← spawn_listeners (listeners i);
  _ ← spawn_if true RECONNECT;
  _ ← spawn_if (may_announce i) ANNOUNCE;
  _ ← spawn_if true BROADCAST;
  _ ← spawn_processor (processor_fails i);
  with_state (λ n,
    if has_liquidity_source i then on_runtime (spawn_background_task (starts n, LIQUIDITY))
    else mret tt).

Definition finish_start : ncmd unit :=
  _ ← modify (set_running true);
  with_state (λ n,
    if background_processor_failed n then
      _ ← modify (set_running false); fail PersistenceFailed
    else mret tt).

Definition start (i : start_inputs) : ncmd unit :=
  with_state (λ n,
    if is_running n then fail AlreadyRunning
    else if background_processor_failed n then fail PersistenceFailed
    else
      allowed ← on_runtime (allow_task_spawns (drain i));
      if negb allowed then fail AlreadyRunning
      else
        _ ← on_chain chain_start;
        _ ← on_chain chain_update_fees;
        _ ← modify count_start;
        _ ← spawn_all i;
        finish_start).

(** ** [stop] *)

(** What ends during each of the waits of [stop]. *)
Record stop_inputs := mkStopInputs {
  abort_wait : meanwhile;
  background_wait : meanwhile;
  background_cancel_wait : meanwhile;
  processor_wait : meanwhile;
  processor_abort_wait : meanwhile;
}.

Definition stop (i : stop_inputs) : ncmd unit :=
  with_state (λ n,
    if negb (is_running n) && negb (background_processor_failed n) then fail NotRunning
    else
      _ ← modify (λ n, bump_processor_generation (set_running false n));
      _ ← on_runtime close_task_admission;
      _ ← modify (λ n, set_chain (chain_begin_shutdown (chain_source n)) n);
      _ ← on_runtime (abort_cancellable_background_tasks (abort_wait i));
      _ ← on_runtime (wait_on_background_tasks (background_wait i) (background_cancel_wait i));
      _ ← modify (λ n, set_chain (chain_stop (chain_source n)) n);
      processor_result ← on_runtime (wait_on_background_processor_task (processor_wait i)
                                       (processor_abort_wait i));
      with_state (λ n,
        _ ← modify (set_failed false);
        match processor_result with
        | Ok _ => if background_processor_failed n then fail PersistenceFailed else mret tt
        | _ => fail PersistenceFailed
        end)).

(** ** Runs

    Starts, stops, tasks that end or spawn others, and processors that end.  Beside the
    node, a run knows the starts since the last stop that could not resolve or bind a
    listening address. *)
Abbreviation config := (gset nat * Node)%type.
Definition after_start (res : outcome Error unit) n (unbound : gset nat) : gset nat :=
  match res with Err InvalidSocketAddress => {[starts n]} ∪ unbound | _ => unbound end.
Definition after_stop (res : outcome Error unit) (unbound : gset nat) : gset nat :=
  match res with Err NotRunning => unbound | _ => ∅ end.

Inductive step : config → config → Prop :=
| StepStart i unbound n n' res :
    start i n = (n', res) → step (unbound, n) (after_start res n' unbound, n')
| StepStop i unbound n n' res :
    stop i n = (n', res) → step (unbound, n) (after_stop res unbound, n')
| StepEnd done unbound n :
    step (unbound, n) (unbound, set_runtime (pass (mkMeanwhile done ∅) (runtime n)) n)
| StepSpawn parent t unbound n :
    alive parent (runtime n) → t.1 = parent.1 →
    step (unbound, n)
      (unbound, set_runtime (spawn_tracked_task (cancellable_background_tasks (runtime n)) t
                               (runtime n)) n)
| StepProcessor t e unbound n :
    processors (runtime n) !! t = Some None → step (unbound, n) (unbound, (processor_ends t e n).1).

(** ** Invariants *)

#[local] Opaque close_task_admission cancel_tracked_tasks allow_task_spawns
  abort_cancellable_background_tasks wait_on_background_tasks wait_on_background_processor_task.

(** A node that does not run: what is left of earlier starts was detached, and a failure
    of an old processor would not be its failure. *)
Record stopped n : Prop := {
  st_accounted : accounted (λ _, False) None (runtime n);
  st_processor : background_processor_task (runtime n) = None;
  st_groups : groups_closed (runtime n) ∨ idle (runtime n);
  st_generation t :
    processing (runtime n) t →
    ∃ g, generations n !! t = Some g ∧ is_u64 g ∧
      background_processor_generation n = wrap64 (g + 1);
}.

(** A node that runs, or whose processor failed: all that runs is of its last start, or
    of one in [L]. *)
Record live (L : gset nat) n : Prop := {
  lv_accounted :
    accounted (λ i, i = background_tasks (runtime n) ∨ i = cancellable_background_tasks (runtime n))
      (background_processor_task (runtime n)) (runtime n);
  lv_leftover : leftover_processor_task (runtime n) = None;
  lv_start t : alive t (runtime n) → t.1 = starts n ∨ t.1 ∈ L;
  lv_generation t :
    processing (runtime n) t → generations n !! t = Some (background_processor_generation n);
}.

(** A node that does not run, with tasks of starts in [L] left on its open groups. *)
Record leaky (L : gset nat) n : Prop := {
  lk_accounted :
    accounted (λ i, i = background_tasks (runtime n) ∨ i = cancellable_background_tasks (runtime n))
      None (runtime n);
  lk_leftover : leftover_task_trackers (runtime n) = [] ∧ leftover_processor_task (runtime n) = None;
  lk_processor : background_processor_task (runtime n) = None;
  lk_processing t : ¬ processing (runtime n) t;
  lk_open : groups_open (runtime n);
  lk_start t : alive t (runtime n) → t.1 ∈ L;
}.

Record base n : Prop := {
  base_use : runtime_use (runtime n) = true;
  base_groups : has_groups (runtime n);
  base_generation : is_u64 (background_processor_generation n);
}.

Definition node_inv L n : Prop :=
  base n ∧
  if is_running n || background_processor_failed n then live L n else stopped n ∨ leaky L n.

Lemma new_inv c : node_inv ∅ (new c).
Proof.
  assert (Hi : idle RuntimeControl.new).
  { split; [|intros t Ht; unfold processing in Ht; simpl in Ht; by rewrite lookup_empty in Ht].
    intros id t (tr & Htr & Hin). simpl in Htr.
    apply lookup_insert_Some in Htr as [[_ <-]|[_ [_ <-]%lookup_singleton_Some]]; set_solver. }
  split; [split; [done|split; by eexists|done]|]. simpl. left.
  split; [by apply idle_accounted|done|by right|]. by intros t ?%Hi.
Qed.

Lemma base_quiet n n' :
  quiet (runtime n) (runtime n') →
  background_processor_generation n' = background_processor_generation n → base n → base n'.
Proof.
  intros Q Hg [Hu Hgr Hge]. split; [by rewrite (quiet_use _ _ Q)|by eapply quiet_groups|congruence].
Qed.

Lemma live_still L n n' :
  still (runtime n) (runtime n') → generations n' = generations n → starts n' = starts n →
  background_processor_generation n' = background_processor_generation n → live L n → live L n'.
Proof.
  intros St Hgs Hs Hg [Ha Hl Ht Hge]. pose proof (still_quiet _ _ St) as Q. split.
  - rewrite (quiet_background _ _ Q), (quiet_cancellable _ _ Q), (still_processor _ _ St).
    by eapply still_accounted.
  - by rewrite (still_leftover_processor _ _ St).
  - intros t ?%(quiet_alive _ _ _ Q). rewrite Hs. auto.
  - intros t ?%(quiet_processing _ _ Q). rewrite Hgs, Hg. auto.
Qed.

Lemma stopped_still n n' :
  still (runtime n) (runtime n') → generations n' = generations n →
  background_processor_generation n' = background_processor_generation n → stopped n → stopped n'.
Proof.
  intros St Hgs Hg [Ha Hp Hgr Hge]. pose proof (still_quiet _ _ St) as Q. split.
  - by eapply still_accounted.
  - by rewrite (still_processor _ _ St).
  - destruct Hgr; [left; by eapply quiet_groups_closed|right; by eapply quiet_idle].
  - intros t ?%(quiet_processing _ _ Q). rewrite Hgs, Hg. auto.
Qed.

Lemma leaky_still L n n' :
  still (runtime n) (runtime n') → groups_open (runtime n') → leaky L n → leaky L n'.
Proof.
  intros St Ho [Ha [Hl Hlp] Hp Hpr _ Ht]. pose proof (still_quiet _ _ St) as Q. split.
  - rewrite (quiet_background _ _ Q), (quiet_cancellable _ _ Q). by eapply still_accounted.
  - by rewrite (still_leftover _ _ St), (still_leftover_processor _ _ St).
  - by rewrite (still_processor _ _ St).
  - by intros t ?%(quiet_processing _ _ Q)%Hpr.
  - done.
  - intros t ?%(quiet_alive _ _ _ Q). auto.
Qed.

(** *** Tasks ending and failing *)

Lemma failure_other generation n :
  generation ≠ background_processor_generation n →
  handle_background_processor_failure generation n = (n, Ok tt).
Proof.
  intros Hne. unfold handle_background_processor_failure, with_state.
  by rewrite (proj2 (Z.eqb_neq _ _) Hne).
Qed.

Lemma failure_current generation n n' x :
  generation = background_processor_generation n →
  handle_background_processor_failure generation n = (n', x) →
  x = Ok tt ∧ is_running n' = false ∧ background_processor_failed n' = true ∧
  still (runtime n) (runtime n') ∧ generations n' = generations n ∧ starts n' = starts n ∧
  background_processor_generation n' = background_processor_generation n.
Proof.
  intros ->. unfold handle_background_processor_failure, with_state. rewrite Z.eqb_refl. simpl.
  unfold mbind, cmd_bind, modify, on_runtime. simpl.
  destruct (close_task_admission (runtime n)) as [r1 x1] eqn:H1.
  apply close_admission_still in H1 as [-> S1]. simpl.
  destruct (cancel_tracked_tasks r1) as [r2 x2] eqn:H2.
  apply cancel_tracked_still in H2 as [-> S2]. intros [= <- <-].
  split_and!; try done. simpl. by transitivity r1.
Qed.

Lemma processor_ends_spec t e n n' x :
  processor_ends t e n = (n', x) →
  x = Ok tt ∧ still (runtime n) (runtime n') ∧ generations n' = generations n ∧
  starts n' = starts n ∧ background_processor_generation n' = background_processor_generation n ∧
  (is_running n' = is_running n ∧ background_processor_failed n' = background_processor_failed n ∨
   is_running n' = false ∧ background_processor_failed n' = true ∧
   default 0 (generations n !! t) = background_processor_generation n).
Proof.
  unfold processor_ends, with_state, mbind, cmd_bind.
  assert (Hpass : ∀ n1, on_runtime (modify (pass (mkMeanwhile ∅ {[t := e]}))) n1
    = (set_runtime (pass (mkMeanwhile ∅ {[t := e]}) (runtime n1)) n1, Ok tt)) by done.
  assert (Hst : ∀ n1, still (runtime n1) (pass (mkMeanwhile ∅ {[t := e]}) (runtime n1)))
    by (intros; apply pass_still).
  set (g := default 0 (generations n !! t)).
  destruct e as [[|err|]| |];
    try (simpl; rewrite Hpass; intros [= <- <-]; split_and!; try done; by left).
  destruct (decide (g = background_processor_generation n)) as [Hg|Hg].
  - destruct (handle_background_processor_failure g n) as [n1 x1] eqn:Hh.
    destruct (failure_current _ _ _ _ Hg Hh) as (-> & Hr & Hf & S1 & Hgs & Hs & Hge). simpl.
    rewrite Hpass. intros [= <- <-]. split_and!; try done; [|right; by split_and!].
    simpl. etrans; [exact S1|apply Hst].
  - rewrite (failure_other g n Hg). simpl. rewrite Hpass. intros [= <- <-].
    split_and!; try done; by left.
Qed.

Lemma processor_ends_inv L t e n n' x :
  processing (runtime n) t → processor_ends t e n = (n', x) → node_inv L n → node_inv L n'.
Proof.
  intros Ht (-> & St & Hgs & Hs & Hg & Hmode)%processor_ends_spec [B I].
  pose proof (still_quiet _ _ St) as Q.
  split; [by eapply base_quiet|].
  destruct Hmode as [[-> ->]|(-> & -> & Hcur)]; simpl.
  - destruct (is_running n || background_processor_failed n); [by eapply live_still|left].
    destruct I as [I|I]; [by eapply stopped_still|by destruct (lk_processing _ _ I t)].
  - destruct (is_running n || background_processor_failed n); [by eapply live_still|].
    destruct I as [I|I]; [|by destruct (lk_processing _ _ I t)].
    destruct (st_generation _ I t Ht) as (g & Hgt & Hu & Hgen). exfalso.
    rewrite Hgt in Hcur. simpl in Hcur. rewrite Hgen in Hcur. unfold wrap64, is_u64, u64_max in *.
    destruct (decide (g = 2 ^ 64 - 1)); [subst; by vm_compute in Hcur|].
    rewrite Z.mod_small in Hcur; lia.
Qed.

(** *** Starting *)

Lemma leaky_spawn L t n :
  leaky L n → base n → t.1 ∈ L →
  base (set_runtime (spawn_tracked_task (cancellable_background_tasks (runtime n)) t (runtime n)) n) ∧
  leaky L (set_runtime (spawn_tracked_task (cancellable_background_tasks (runtime n)) t (runtime n)) n).
Proof.
  intros [Ha Hl Hp Hpr Ho Ht] [Hu Hg Hge] Hin. set (id := cancellable_background_tasks (runtime n)).
  destruct (spawn_fields id t (runtime n)) as (E1 & E2 & E3 & E4 & E5 & E6 & E7 & E8).
  assert (∀ t', ¬ processing (spawn_tracked_task id t (runtime n)) t') as Hnp
    by (unfold processing; rewrite E4; exact Hpr).
  split; [split; simpl; [congruence|auto|done]|]. split; simpl.
  - rewrite E2, E3. split; [|by intros t' ?%Hnp].
    intros i t' [Hr|[-> ->]]%spawn_runs; [|by left; right]. rewrite E6.
    exact (acc_trackers _ _ _ Ha i t' Hr).
  - by rewrite E6, E7.
  - congruence.
  - done.
  - unfold groups_open. rewrite E2, E3, !spawn_is_closed. apply Ho.
  - intros t' [[i [Hr|[-> ->]]%spawn_runs]|Hp']; [apply Ht; left; by exists i|done|by apply Hnp in Hp'].
Qed.

Lemma live_spawn L id t n :
  id = background_tasks (runtime n) ∨ id = cancellable_background_tasks (runtime n) →
  t.1 = starts n ∨ t.1 ∈ L → base n → live L n →
  base (set_runtime (spawn_tracked_task id t (runtime n)) n) ∧
  live L (set_runtime (spawn_tracked_task id t (runtime n)) n).
Proof.
  intros Hid Ht [Hu Hg Hge] [Ha Hl Hs Hgen].
  destruct (spawn_fields id t (runtime n)) as (E1 & E2 & E3 & E4 & E5 & E6 & E7 & E8).
  split; [split; simpl; [congruence|auto|done]|]. split; simpl.
  - rewrite E2, E3, E5. split.
    + intros i t' [Hr|[-> ->]]%spawn_runs; [|by left]. rewrite E6. exact (acc_trackers _ _ _ Ha i t' Hr).
    + intros t'. unfold processing. rewrite E4, E7. apply (acc_processor _ _ _ Ha).
  - congruence.
  - intros t' [[i [Hr|[-> ->]]%spawn_runs]|Hp]; [apply Hs; left; by exists i|done|].
    apply Hs. right. unfold processing in *. congruence.
  - intros t'. unfold processing. rewrite E4. apply Hgen.
Qed.

(** A start [k] that has spawned some of its tasks, but not yet the processor. *)
Definition spawning (L : gset nat) (k : nat) n : Prop :=
  base n ∧ live L n ∧ is_running n = false ∧ background_processor_failed n = false ∧
  (∀ t, ¬ processing (runtime n) t) ∧ starts n = k ∧
  leftover_task_trackers (runtime n) = [] ∧ background_processor_task (runtime n) = None ∧
  groups_open (runtime n).

Section triples.
Context (L : gset nat) (k : nat).

(** From a state with [P], [m] ends in one with [Q], or fails to bind a listener, before
    the processor was spawned. *)
Definition triple {A} (P Q : Node → Prop) (m : ncmd A) : Prop :=
  ∀ n n' x, P n → m n = (n', x) →
    Q n' ∧ (∃ a, x = Ok a) ∨ spawning L k n' ∧ x = Err InvalidSocketAddress.

Lemma triple_bind {A B} P Q R (m : ncmd A) (f : A → ncmd B) :
  triple P Q m → (∀ a, triple Q R (f a)) → triple P R (m ≫= f).
Proof.
  intros Hm Hf n n' x HP. unfold mbind, cmd_bind.
  destruct (m n) as [n1 y] eqn:Hy. destruct (Hm n n1 y HP Hy) as [[HQ [a ->]]|[? ->]].
  - by apply Hf.
  - intros [= <- <-]. by right.
Qed.

Lemma triple_ret {A} P (a : A) : triple P P (mret a).
Proof. intros n n' x HP [= <- <-]. eauto. Qed.

Lemma spawn_spawning id t n :
  id = background_tasks (runtime n) ∨ id = cancellable_background_tasks (runtime n) →
  t.1 = starts n ∨ t.1 ∈ L → spawning L k n →
  spawning L k (set_runtime (spawn_tracked_task id t (runtime n)) n).
Proof.
  intros Hid Ht (B & Lv & Hr & Hf & Hp & Hk & Hlt & Hbp & Ho).
  destruct (live_spawn L id t n Hid Ht B Lv) as [B' L'].
  destruct (spawn_fields id t (runtime n)) as (_ & E2 & E3 & E4 & E5 & E6 & _ & _).
  split_and!; try done; simpl.
  - intros t'. unfold processing. rewrite E4. apply Hp.
  - by rewrite E6.
  - by rewrite E5.
  - unfold groups_open. rewrite E2, E3, !spawn_is_closed. apply Ho.
Qed.

Lemma spawn_background_triple number :
  triple (spawning L k) (spawning L k)
    (with_state (λ n, on_runtime (spawn_background_task (starts n, number)))).
Proof. intros n n' x HP [= <- <-]. left. split; [|eauto]. apply spawn_spawning; auto. Qed.

Lemma spawn_if_triple b number : triple (spawning L k) (spawning L k) (spawn_if b number).
Proof.
  intros n n' x HP. unfold spawn_if, with_state. destruct b; intros [= <- <-]; left; split; eauto.
  apply spawn_spawning; auto.
Qed.

Lemma spawn_listeners_triple l : triple (spawning L k) (spawning L k) (spawn_listeners l).
Proof.
  destruct l as [[count|]|]; simpl; [|by intros n n' x ? [= <- <-]; right|apply triple_ret].
  eapply triple_bind; [by apply triple_ret|intros a].
  generalize (seq 0 a). intros l. induction l as [|i l IH]; simpl; [apply triple_ret|].
  eapply triple_bind; [apply spawn_if_triple|done].
Qed.

Definition spawned n : Prop := base n ∧ live L n ∧ starts n = k.

Lemma spawn_processor_triple fails : triple (spawning L k) spawned (spawn_processor fails).
Proof.
  intros n n' x ([Hu Hg Hge] & Lv & Hr & Hf & Hp & Hk & _) Hrun. left.
  unfold spawn_processor, with_state, mbind, cmd_bind, modify in Hrun. simpl in Hrun.
  unfold on_runtime, spawn_background_processor_task, modify in Hrun. simpl in Hrun.
  set (t := (starts n, PROCESSOR)) in *.
  match type of Hrun with (if fails then _ else _) ?m = _ => set (n2 := m) in * end.
  assert (B2 : base n2) by (split; [done|done|apply wrap64_range]).
  assert (Honly : ∀ t', processing (runtime n2) t' → t' = t).
  { intros t'. unfold processing. simpl. intros [[<- _]|[_ Hp']]%lookup_insert_Some; [done|].
    by destruct (Hp t'). }
  assert (L2 : live L n2).
  { destruct Lv as [Ha Hl Hs Hgen]. split; simpl.
    - split; [apply (acc_trackers _ _ _ Ha)|]. intros t' ->%Honly. by left.
    - done.
    - intros t' [[i Hi]| ->%Honly]; [apply Hs; left; by exists i|by left].
    - intros t' ->%Honly. by rewrite lookup_insert_eq. }
  destruct fails; [|injection Hrun as <- <-; split; [by split_and!|eauto]].
  apply processor_ends_spec in Hrun as (-> & St & Hgs & Hst & Hgn & _).
  split; [|eauto]. split_and!; [by eapply base_quiet; [apply St|..]|by eapply live_still|].
  by rewrite Hst.
Qed.

Lemma spawn_all_triple i : triple (spawning L k) spawned (spawn_all i).
Proof.
  unfold spawn_all.
  repeat (eapply triple_bind;
    [first [apply spawn_background_triple | apply spawn_if_triple | apply spawn_listeners_triple
           | apply spawn_processor_triple]|intros ?]).
  intros n n' x (B & Lv & Hk). unfold with_state. destruct (has_liquidity_source i).
  - intros [= <- <-]. left. split; [|eauto].
    destruct (live_spawn L (background_tasks (runtime n)) (starts n, LIQUIDITY) n); auto.
    by split_and!.
  - intros [= <- <-]. left. split; [by split_and!|eauto].
Qed.

Lemma finish_start_inv n n' x :
  spawned n → finish_start n = (n', x) →
  node_inv L n' ∧ (x = Ok tt → is_running n' = true ∧ starts n' = k) ∧
  x ≠ Err InvalidSocketAddress.
Proof.
  intros (B & Lv & Hk). unfold finish_start, with_state, modify, fail, mbind, cmd_bind. simpl.
  destruct (background_processor_failed n) eqn:Hf; simpl; intros [= <- <-];
    (split; [split; [by destruct B|]; simpl; rewrite ?Hf; by destruct Lv|done]).
Qed.
End triples.

(** A call on the chain source leaves the tasks alone. *)
Lemma on_chain_spec {A} (m : C → C * outcome Error A) n n' x :
  on_chain m n = (n', x) →
  runtime n' = runtime n ∧ is_running n' = is_running n ∧
  background_processor_failed n' = background_processor_failed n ∧
  background_processor_generation n' = background_processor_generation n ∧
  generations n' = generations n ∧ starts n' = starts n.
Proof. unfold on_chain. destruct (m _). by intros [= <- <-]. Qed.

Lemma idle_stopped n :
  idle (runtime n) → background_processor_task (runtime n) = None → stopped n.
Proof.
  intros Hi Hp. split; [by apply idle_accounted|done|by right|]. by intros t ?%Hi.
Qed.

Lemma idle_leaky L n :
  idle (runtime n) → leftover_task_trackers (runtime n) = [] →
  leftover_processor_task (runtime n) = None → background_processor_task (runtime n) = None →
  groups_open (runtime n) → leaky L n.
Proof.
  intros Hi Hl Hlp Hp Ho. split; [by apply idle_accounted|done|done|apply Hi|done|].
  by intros t ?%idle_alive.
Qed.

(** A node that may spawn: nothing but tasks of [L] runs. *)
Definition resting (L : gset nat) n : Prop :=
  base n ∧ leaky L n ∧ is_running n = false ∧ background_processor_failed n = false.

Lemma resting_inv L n : resting L n → node_inv L n.
Proof. intros (B & Lk & Hr & Hf). split; [done|]. rewrite Hr, Hf. by right. Qed.

Lemma resting_on_chain {A} L (m : C → C * outcome Error A) n n' x :
  resting L n → on_chain m n = (n', x) → resting L n' ∧ starts n' = starts n.
Proof.
  intros ([Hu Hg Hge] & [Ha Hl Hp Hpr Ho Ht] & Hr & Hf) (E1 & E2 & E3 & E4 & E5 & E6)%on_chain_spec.
  unfold resting. rewrite E2, E3. split_and!; try done; split; by rewrite ?E1, ?E4.
Qed.

Lemma spawning_leaky L k n : spawning L k n → resting ({[k]} ∪ L) n.
Proof.
  intros (B & [Ha Hl Ht Hge] & Hr & Hf & Hp & Hk & Hlt & Hbp & Ho). rewrite Hbp in Ha.
  split_and!; [done|split; try done|done|done]. intros t Ht'. destruct (Ht t Ht'); set_solver.
Qed.

Lemma inv_mono L L' n : L ⊆ L' → node_inv L n → node_inv L' n.
Proof.
  intros Hs [B I]. split; [done|]. destruct (is_running n || background_processor_failed n).
  - destruct I as [Ha Hl Ht Hge]. split; try done. intros t Ht'. destruct (Ht t Ht'); set_solver.
  - destruct I as [I|[Ha Hl Hp Hpr Ho Ht]]; [by left|right]. split; try done.
    intros t Ht'. by apply Hs, Ht.
Qed.

Lemma after_start_sub x n L : L ⊆ after_start x n L.
Proof. destruct x as [|[]|]; simpl; set_solver. Qed.

Lemma launch_inv L i n n' x :
  resting L n →
  (_ ← on_chain chain_start; _ ← on_chain chain_update_fees; _ ← modify count_start;
   _ ← spawn_all i; finish_start) n = (n', x) →
  node_inv (after_start x n' L) n' ∧
  (x = Ok tt → is_running n' = true ∧ starts n' = S (starts n)).
Proof.
  intros R0. unfold mbind, cmd_bind.
  assert (Hrest : ∀ n1 y, resting L n1 → node_inv (after_start y n1 L) n1).
  { intros n1 y R1. eapply inv_mono; [apply after_start_sub|by apply resting_inv]. }
  destruct (on_chain chain_start n) as [n1 x1] eqn:H1.
  destruct (resting_on_chain _ _ _ _ _ R0 H1) as [R1 Hs1].
  destruct x1; try (intros [= <- <-]; split; [by apply Hrest|done]).
  destruct (on_chain chain_update_fees n1) as [n2 x2] eqn:H2.
  destruct (resting_on_chain _ _ _ _ _ R1 H2) as [R2 Hs2].
  destruct x2; try (intros [= <- <-]; split; [by apply Hrest|done]).
  unfold modify at 1. destruct R2 as ([Hu Hg Hge] & [Ha [Hl Hlp] Hp Hpr Ho Ht] & Hr & Hf).
  assert (Hsp : spawning L (S (starts n)) (count_start n2)).
  { split_and!; try done; [|simpl; congruence]. split; simpl; [by rewrite Hp|done| |].
    - intros t Ht'. right. by apply Ht.
    - by intros t ?%Hpr. }
  destruct (spawn_all i (count_start n2)) as [n3 x3] eqn:H3.
  destruct (spawn_all_triple L _ i _ _ _ Hsp H3) as [[Hspd [[] ->]]|[Hspg ->]].
  - intros Hfin. destruct (finish_start_inv _ _ _ _ _ Hspd Hfin) as (I & Hok & _).
    split; [|done]. eapply inv_mono; [apply after_start_sub|done].
  - intros [= <- <-]. split; [|done]. simpl.
    assert (starts n3 = S (starts n)) as -> by apply Hspg. by apply resting_inv, spawning_leaky.
Qed.

Lemma start_inv L i n n' x :
  node_inv L n → start i n = (n', x) →
  node_inv (after_start x n' L) n' ∧
  (x = Ok tt → is_running n' = true ∧ starts n' = S (starts n)).
Proof.
  intros [B I] Hrun. unfold start, with_state in Hrun.
  destruct (is_running n) eqn:Hr; [by injection Hrun as <- <-; split; [split; [|rewrite Hr]|]|].
  destruct (background_processor_failed n) eqn:Hf;
    [by injection Hrun as <- <-; split; [split; [|rewrite Hr, Hf]|]|].
  simpl in I. destruct B as [Hu Hg Hge]. revert Hrun. unfold mbind at 1, cmd_bind at 1.
  destruct (on_runtime (allow_task_spawns (drain i)) n) as [n1 y] eqn:Ha.
  unfold on_runtime in Ha. destruct (allow_task_spawns (drain i) (runtime n)) as [r1 y'] eqn:Hal.
  injection Ha as <- <-. destruct I as [I|I].
  - destruct (allow_spec _ _ _ _ Hu (st_accounted _ I) Hg Hal) as (Hu1 & Hbp & Hg1 & Hcase).
    assert (B1 : base (set_runtime r1 n)) by (by split).
    rewrite (st_processor _ I) in Hbp.
    destruct Hcase as [(-> & Hi & Hlp)|(-> & Q & Hacc)]; simpl.
    + intros Hrun. apply (launch_inv L i (set_runtime r1 n)); [|exact Hrun].
      apply allow_open in Hal as [Hl Ho]. split_and!; try done. by apply idle_leaky.
    + intros [= <- <-]. split; [|done]. split; [done|]. simpl. rewrite Hr, Hf. left.
      split; simpl; [done|done|..].
      * destruct (st_groups _ I); [left; by eapply quiet_groups_closed|right; by eapply quiet_idle].
      * intros t ?%(quiet_processing _ _ Q). by apply (st_generation _ I).
  - destruct (lk_leftover _ _ I) as [Hl Hlp].
    destruct (allow_again _ _ _ _ Hu Hl Hlp (lk_open _ _ I) Hal) as (-> & St & Ho). simpl.
    intros Hrun. apply (launch_inv L i (set_runtime r1 n)); [|exact Hrun].
    pose proof (still_quiet _ _ St) as Q. split_and!; try done; [|by eapply leaky_still].
    split; simpl; [by rewrite (quiet_use _ _ Q)|by eapply quiet_groups|done].
Qed.

(** *** Stopping *)

Lemma stop_spec L i n n' x :
  node_inv L n → stop i n = (n', x) →
  node_inv (after_stop x L) n' ∧ x ≠ Panic ∧
  (background_processor_failed n = true → x = Err PersistenceFailed) ∧
  (x = Err NotRunning ∧ n' = n ∨
   is_running n' = false ∧ background_processor_failed n' = false ∧ stopped n').
Proof.
  intros [B I] Hrun. unfold stop, with_state in Hrun.
  destruct (is_running n || background_processor_failed n) eqn:Hmode.
  2:{ apply orb_false_iff in Hmode as [Hr Hf]. rewrite Hr, Hf in Hrun. injection Hrun as <- <-.
      split_and!; [|done|congruence|by left]. split; [done|]. by rewrite Hr, Hf. }
  assert (negb (is_running n) && negb (background_processor_failed n) = false) as Hgo
    by (by destruct (is_running n), (background_processor_failed n)).
  rewrite Hgo in Hrun. unfold mbind, cmd_bind, modify, on_runtime in Hrun. simpl in Hrun.
  destruct B as [Hu Hg Hge], I as [Ha Hl Hs Hgen].
  destruct (close_task_admission (runtime n)) as [r1 y1] eqn:H1.
  destruct (abort_cancellable_background_tasks (abort_wait i) r1) as [r2 y2] eqn:H2.
  destruct (wait_on_background_tasks (background_wait i) (background_cancel_wait i) r2)
    as [r3 y3] eqn:H3.
  destruct (wait_on_background_processor_task (processor_wait i) (processor_abort_wait i) r3)
    as [r4 y4] eqn:H4.
  destruct (shutdown_spec _ _ _ _ _ _ _ _ _ _ _ _ _ _ Hu Hg Hl Ha H1 H2 H3 H4)
    as (-> & -> & -> & [res ->] & Q & Hcl & Hbp & Ha4).
  simpl in Hrun. rewrite H2 in Hrun. simpl in Hrun. rewrite H3 in Hrun. simpl in Hrun.
  rewrite H4 in Hrun. simpl in Hrun.
  assert (Hst : ∀ c b, stopped (mkNode r4 c false b
    (wrap64 (background_processor_generation n + 1)) (generations n) (starts n))).
  { intros c b. split; simpl; [done|done|by left|].
    intros t Hp%(quiet_processing _ _ Q). exists (background_processor_generation n). auto. }
  assert (Hb : ∀ c b, base (mkNode r4 c false b (wrap64 (background_processor_generation n + 1))
    (generations n) (starts n))).
  { intros c b. split; simpl; [by rewrite (quiet_use _ _ Q)|by eapply quiet_groups|apply wrap64_range]. }
  destruct res; [destruct (background_processor_failed n)| |];
    injection Hrun as <- <-; split_and!; try done; try (split; [apply Hb|left; apply Hst]);
    right; split_and!; try done; apply Hst.
Qed.

Lemma node_step_inv c c' : step c c' → node_inv c.1 c.2 → node_inv c'.1 c'.2.
Proof.
  intros Hst. destruct Hst as [i L n n' x Hrun|i L n n' x Hrun|done L n|p t L n Hp Ht|t e L n Ht];
    simpl; intros I.
  - by apply (start_inv L i n n' x).
  - by apply (stop_spec L i n n' x).
  - destruct I as [B I]. pose proof (pass_still (mkMeanwhile done ∅) (runtime n)) as St.
    split; [by eapply base_quiet; [apply St|..]|]. simpl.
    destruct (is_running n || background_processor_failed n); [by eapply live_still|].
    destruct I as [I|I]; [left; by eapply stopped_still|right].
    eapply leaky_still; [exact St| |done]. split; simpl; rewrite pass_closed; apply I.
  - destruct I as [B I].
    destruct (is_running n || background_processor_failed n) eqn:Hm.
    + destruct (live_spawn L (cancellable_background_tasks (runtime n)) t n) as [B' L'];
        [by right|by rewrite Ht; apply I|done|done|].
      split; [done|]. simpl. by rewrite Hm.
    + destruct I as [I|I].
      * destruct (st_groups _ I) as [[_ Hc]|Hi]; [|by apply idle_alive in Hp].
        rewrite (spawn_closed _ t _ Hc). destruct n. split; [done|]. simpl in *. rewrite Hm. by left.
      * apply (leaky_spawn L t n) in I as [B' I']; [|done|rewrite Ht; by apply I].
        split; [done|]. simpl. rewrite Hm. by right.
  - destruct (processor_ends t e n) as [n' x] eqn:He. by apply (processor_ends_inv L t e n n' x).
Qed.

Lemma steps_inv c L n : rtc step (∅, new c) (L, n) → node_inv L n.
Proof.
  intros Hn.
  refine (rtc_ind_r (λ x, node_inv x.1 x.2) (∅, new c) (new_inv c) _ (L, n) Hn).
  intros. by eapply node_step_inv.
Qed.

(** C13. However often the node was started and stopped, and whatever its tasks did: while
    it runs, only tasks of its last start run, or of a start since the last stop that could
    not resolve or bind a listening address, whose tasks nobody ends; a start that succeeds
    is a new one, and nothing of an earlier one but those runs beside it; stopping never
    panics, and a stop that is not refused leaves no such start behind. *)
Theorem running_tasks_current c unbound n :
  rtc step (∅, new c) (unbound, n) →
  (is_running n = true → ∀ t, alive t (runtime n) → t.1 = starts n ∨ t.1 ∈ unbound) ∧
  (∀ i n', start i n = (n', Ok tt) →
     is_running n' = true ∧ starts n' = S (starts n) ∧
     ∀ t, alive t (runtime n') → t.1 = starts n' ∨ t.1 ∈ unbound) ∧
  (∀ i n' res, stop i n = (n', res) →
     res ≠ Panic ∧
     (res = Err NotRunning ∧ n' = n ∨
      ∀ i' n'', start i' n' = (n'', Ok tt) → ∀ t, alive t (runtime n'') → t.1 = starts n'')).
Proof.
  intros I%steps_inv.
  assert (Hlive : ∀ L n, node_inv L n → is_running n = true →
    ∀ t, alive t (runtime n) → t.1 = starts n ∨ t.1 ∈ L).
  { intros L n0 [_ I0] Hr. rewrite Hr in I0. simpl in I0. apply (lv_start _ _ I0). }
  split_and!; [by apply Hlive| |].
  - intros i n' Hs. destruct (start_inv unbound i n n' (Ok tt) I Hs) as [I' Hok].
    destruct (Hok eq_refl). split_and!; [done|done|by apply Hlive].
  - intros i n' res Hs. destruct (stop_spec unbound i n n' res I Hs) as (I' & Hp & _ & Hc).
    split; [done|]. destruct Hc as [[-> ->]|(Hr & Hf & Hst)]; [by left|right].
    intros i' n'' Hs'. assert (node_inv ∅ n') as I0.
    { split; [apply I'|]. rewrite Hr, Hf. by left. }
    destruct (start_inv ∅ i' n' n'' (Ok tt) I0 Hs') as [I'' Hok]. destruct (Hok eq_refl).
    intros t Ht. destruct (Hlive _ _ I'' ltac:(done) t Ht) as [?|Hin]; [done|].
    by apply elem_of_empty in Hin.
Qed.

(** A failure of the running node's event processor takes the node out of service:
    it refuses to start until it was stopped, and that stop reports the failure, once. *)
Theorem processor_failure_reported c unbound n t e :
  rtc step (∅, new c) (unbound, n) → is_running n = true → processing (runtime n) t →
  let n1 := (processor_ends t (Returned (Err e)) n).1 in
  is_running n1 = false ∧
  (∀ i, start i n1 = (n1, Err PersistenceFailed)) ∧
  (∀ i, let '(n2, x) := stop i n1 in
     x = Err PersistenceFailed ∧ is_running n2 = false ∧ background_processor_failed n2 = false).
Proof.
  intros I%steps_inv Hr Ht n1.
  assert (Hgen : default 0 (generations n !! t) = background_processor_generation n).
  { destruct I as [_ I]. rewrite Hr in I. simpl in I. by rewrite (lv_generation _ _ I t Ht). }
  assert (Hn1 : is_running n1 = false ∧ background_processor_failed n1 = true).
  { unfold n1, processor_ends, with_state, mbind, cmd_bind.
    destruct (handle_background_processor_failure (default 0 (generations n !! t)) n)
      as [n2 x] eqn:Hh.
    destruct (failure_current _ _ _ _ Hgen Hh) as (-> & Hr2 & Hf2 & _). done. }
  destruct Hn1 as [Hr1 Hf1]. split_and!; [done| |].
  - intros i. unfold start, with_state. by rewrite Hr1, Hf1.
  - intros i. destruct (stop i n1) as [n2 x] eqn:Hs.
    assert (I1 : node_inv unbound n1).
    { unfold n1. destruct (processor_ends t (Returned (Err e)) n) as [n1' y] eqn:He.
      by apply (processor_ends_inv unbound t (Returned (Err e)) n n1' y). }
    destruct (stop_spec unbound i n1 n2 x I1 Hs) as (_ & _ & Hx & Hcase).
    rewrite (Hx Hf1) in *. split; [done|]. destruct Hcase as [[? _]|(? & ? & _)]; done.
Qed.
End node.

(** A start that cannot bind a listener leaves the tasks it spawned before running,
    while the node counts as stopped: [stop] refuses to act, and the next start runs a
    second synchronisation task beside the first. *)
Theorem failed_start_leaks :
  let ok := λ _ : unit, (tt, Ok tt) in
  let start := start ok ok id in
  let nothing := mkMeanwhile ∅ ∅ in
  ∃ n1 n2,
    start (mkStartInputs nothing false false (Some None) false false false) (new tt)
      = (n1, Err InvalidSocketAddress) ∧
    (∀ i, stop id id i n1 = (n1, Err NotRunning)) ∧
    start (mkStartInputs nothing false false None false false false) n1 = (n2, Ok tt) ∧
    is_running n2 = true ∧
    alive (1, CHAIN_SYNC)%nat (runtime n2) ∧ alive (2, CHAIN_SYNC)%nat (runtime n2).
Proof.
  do 2 eexists. split_and!; [by vm_compute|by intros i|by vm_compute|by vm_compute|left..].
  all: exists 0%nat; eexists; split; [by vm_compute|]. all: by apply (bool_decide_unpack _); vm_compute.
Qed.
End Node.
