(* ===== verification/HexUtils.v ===== *)
(** * Hexadecimal strings ([src/hex_utils.rs])

    [to_string] prints bytes with [{:02x}]; [to_vec] is the parser the FFI layer
    uses.  Store keys are built with [to_string], so its injectivity is what
    keeps two objects from sharing a key. *)

From Stdlib Require Import Ascii String.
From S2P Require Import Prelude.

Module hex_utils.

(** One digit of [{:02x}]. *)
Definition digit (n : Z) : ascii :=
  ascii_of_N (Z.to_N (if n <? 10 then 48 + n else 87 + n)).

(** The match on [*c] in the loop of [to_vec]; [None] is the [return None] arm. *)
Definition nibble (c : ascii) : option Z :=
  let c := Z.of_N (N_of_ascii c) in
  if (65 <=? c) && (c <=? 70) then Some (c - 65 + 10)
  else if (97 <=? c) && (c <=? 102) then Some (c - 97 + 10)
  else if (48 <=? c) && (c <=? 57) then Some (c - 48)
  else None.

(** The loop of [to_vec], from index [idx] with the accumulator [b] (a [u8], so
    [b <<= 4] keeps its low byte) and the bytes pushed so far. *)
Fixpoint to_vec_from (idx : nat) (b : Z) (out : list Z) (hex : string) :
    option (list Z) :=
  match hex with
  | EmptyString => Some out
  | String c hex =>
      let b := Z.shiftl b 4 mod 2 ^ 8 in
      match nibble c with
      | None => None
      | Some n =>
          let b := Z.lor b n in
          if Nat.odd idx then to_vec_from (S idx) 0 (out ++ [b]) hex
          else to_vec_from (S idx) b out hex
      end
  end.

Definition to_vec (hex : string) : option (list Z) := to_vec_from 0 0 [] hex.

Fixpoint to_string (value : list Z) : string :=
  match value with
  | [] => EmptyString
  | v :: value => String (digit (v / 16)) (String (digit (v mod 16)) (to_string value))
  end.

Definition is_byte (b : Z) : Prop := 0 ≤ b < 256.

Lemma nibble_digit n : 0 ≤ n < 16 → nibble (digit n) = Some n.
Proof.
  intros Hn. assert (n ∈ seqZ 0 16) as Hin by (apply elem_of_seqZ; lia).
  assert (Forall (λ n, nibble (digit n) = Some n) (seqZ 0 16)) as Hall.
  { repeat constructor. }
  by apply (proj1 (Forall_forall _ _) Hall).
Qed.

Lemma byte_of_nibbles b :
  is_byte b →
  Z.lor (Z.shiftl (Z.lor (Z.shiftl 0 4 mod 2 ^ 8) (b / 16)) 4 mod 2 ^ 8) (b mod 16) = b.
Proof.
  intros Hb. assert (b ∈ seqZ 0 256) as Hin by (apply elem_of_seqZ; unfold is_byte in Hb; lia).
  assert (Forall (λ b, Z.lor (Z.shiftl (Z.lor (Z.shiftl 0 4 mod 2 ^ 8) (b / 16)) 4 mod 2 ^ 8)
                        (b mod 16) = b) (seqZ 0 256)) as Hall.
  { apply (bool_decide_unpack _). by vm_compute. }
  by apply (proj1 (Forall_forall _ _) Hall).
Qed.

Lemma to_vec_from_to_string idx bs out rest :
  Nat.even idx = true → Forall is_byte bs →
  to_vec_from idx 0 out (to_string bs +:+ rest)
    = to_vec_from (idx + 2 * length bs) 0 (out ++ bs) rest.
Proof.
  intros Heven Hbs; revert idx out Heven;
    induction Hbs as [|b bs Hb Hbs IH]; intros idx out Heven.
  - simpl. by rewrite Nat.add_0_r, app_nil_r.
  - assert (0 ≤ b / 16 < 16 ∧ 0 ≤ b mod 16 < 16) as [? ?].
    { unfold is_byte in Hb. split.
      - split; [apply Z.div_pos; lia|apply Z.div_lt_upper_bound; lia].
      - apply Z.mod_pos_bound; lia. }
    change (to_string (b :: bs) +:+ rest) with
      (String (digit (b / 16)) (String (digit (b mod 16)) (to_string bs +:+ rest))).
    cbn [to_vec_from]. rewrite !nibble_digit by done.
    rewrite <- (Nat.negb_even idx), Heven. cbn [negb].
    rewrite Nat.odd_succ, Heven, byte_of_nibbles by done.
    rewrite IH by done. rewrite <- app_assoc. f_equal. simpl length. lia.
Qed.

Lemma to_string_inj bs bs' :
  Forall is_byte bs → Forall is_byte bs' → to_string bs = to_string bs' → bs = bs'.
Proof.
  intros H1 H2 Heq.
  pose proof (to_vec_from_to_string 0 bs [] "" eq_refl H1) as E1.
  pose proof (to_vec_from_to_string 0 bs' [] "" eq_refl H2) as E2.
  rewrite Heq, E2 in E1. simpl in E1. by simplify_eq.
Qed.

Lemma nibble_range c n : nibble c = Some n → 0 ≤ n < 16.
Proof.
  unfold nibble. repeat case_match; intros; simplify_eq;
    repeat match goal with H : _ && _ = true |- _ => apply andb_prop in H as [??] end;
    lia.
Qed.

Lemma push_nibble_even n : 0 ≤ n < 16 → 0 ≤ Z.lor (Z.shiftl 0 4 mod 2 ^ 8) n < 16.
Proof. intros. by rewrite Z.shiftl_0_l. Qed.

Lemma push_nibble_odd b n :
  0 ≤ b < 16 → 0 ≤ n < 16 → is_byte (Z.lor (Z.shiftl b 4 mod 2 ^ 8) n).
Proof.
  intros Hb Hn. unfold is_byte.
  assert (Forall (λ b, Forall (λ n, 0 ≤ Z.lor (Z.shiftl b 4 mod 2 ^ 8) n < 256)
            (seqZ 0 16)) (seqZ 0 16)) as Hall.
  { apply (bool_decide_unpack _). by vm_compute. }
  rewrite Forall_forall in Hall. specialize (Hall b).
  rewrite Forall_forall in Hall. apply Hall; apply elem_of_seqZ; lia.
Qed.

(** What the parser returns from an even or an odd position: bytes only, and one
    for every two characters it read, the last one of an odd number dropped. *)
Lemma to_vec_from_spec hex idx b out bs :
  (if Nat.odd idx then 0 ≤ b < 16 else b = 0) → Forall is_byte out →
  to_vec_from idx b out hex = Some bs →
  Forall is_byte bs ∧
  length bs = (length out + (String.length hex + (if Nat.odd idx then 1 else 0)) / 2)%nat.
Proof.
  revert idx b out. induction hex as [|c hex IH]; intros idx b out Hb Hout Heq.
  - simpl in Heq. simplify_eq. split; [done|]. cbn [String.length]. destruct (Nat.odd idx); div_lia.
  - cbn [to_vec_from] in Heq. destruct (nibble c) as [n|] eqn:Hc; [|done].
    apply nibble_range in Hc. cbn [String.length].
    assert (Nat.odd (S idx) = negb (Nat.odd idx)) as Hodd.
    { by rewrite Nat.odd_succ, <- Nat.negb_odd. }
    destruct (Nat.odd idx) eqn:Hidx; cbn [negb] in Hodd.
    + apply IH in Heq as [? Hlen]; rewrite ?Hodd in *;
        [|done|apply Forall_app; split; [done|];
          constructor; [by apply push_nibble_odd|done]].
      split; [done|]. rewrite Hlen, length_app, length_cons, length_nil. div_lia.
    + subst b. apply IH in Heq as [? Hlen]; rewrite ?Hodd in *;
        [|by apply push_nibble_even|done].
      split; [done|]. rewrite Hlen. div_lia.
Qed.

(** Printing and parsing: [to_vec] gives back the bytes [to_string] printed,
    and whatever [to_vec] accepts it turns into half as many bytes, so that a
    trailing unpaired digit is accepted and ignored. *)
Theorem to_vec_to_string :
  (∀ bs, Forall is_byte bs → to_vec (to_string bs) = Some bs) ∧
  (∀ hex bs, to_vec hex = Some bs →
     Forall is_byte bs ∧ length bs = (String.length hex / 2)%nat).
Proof.
  split.
  - intros bs Hbs. pose proof (to_vec_from_to_string 0 bs [] "" eq_refl Hbs) as Heq.
    assert (to_string bs +:+ "" = to_string bs) as Hnil.
    { generalize (to_string bs). induction s as [|c s IH]; [done|].
      change (String c s +:+ "") with (String c (s +:+ "")). by rewrite IH. }
    rewrite Hnil in Heq. unfold to_vec. by rewrite Heq.
  - intros hex bs Heq. apply to_vec_from_spec in Heq as [? Hlen]; [|done..].
    split; [done|]. rewrite Hlen. change (Nat.odd 0) with false. simpl length. div_lia.
Qed.

End hex_utils.
