(* ===== verification/DataStore.v ===== *)
(** * The generic object store ([src/data_store.rs])

    [DataStore] keeps a map of objects in memory and writes each change through
    to the key-value store.  The file models its constructor and every method,
    and relates the in-memory map to what a restart would load. *)

From Stdlib Require Import Strings.Byte.
From S2P Require Import Prelude Errors KVStore HexUtils.

(** [trait StorableObject] with its [Id] and [Update] types.  [update] and [read]
    may consult the system clock (they do for payments), so they take the current
    time.  The [Readable]/[Writeable] halves of the trait are
    [so_encode]/[so_decode]. *)
Class StorableObject (SO Id Update : Type) := {
  so_id : SO → Id;
  so_update : Z → SO → Update → SO * bool;
  to_update : SO → Update;
  update_id : Update → Id;
  encode_to_hex_str : Id → string;
  so_encode : SO → bytes;
  so_decode : Z → bytes → option SO;
}.

(** What [DataStore] relies on: distinct ids have distinct keys, encoding is
    invertible, updating an object does not change its id, and an update that
    reports no change made none. *)
Class StorableObjectSpec (SO Id Update : Type)
    {OBJ : StorableObject SO Id Update} : Prop := {
  hex_str_inj : ∀ i j, encode_to_hex_str i = encode_to_hex_str j → i = j;
  decode_encode : ∀ now o, so_decode now (so_encode o) = Some o;
  so_update_id : ∀ now o u o' b, so_update now o u = (o', b) → so_id o' = so_id o;
  so_update_false : ∀ now o u o', so_update now o u = (o', false) → o' = o;
}.

Inductive DataStoreUpdateResult := Updated | Unchanged | NotFound.

Module DataStore.
Section data_store.
Context {SO Id Update : Type} `{Countable Id} {OBJ : StorableObject SO Id Update}.
Context {S : Type} {KV : KVStore S}.

Record DataStore := mkDataStore {
  objects : gmap Id SO;
  primary_namespace : string;
  secondary_namespace : string;
  kv_store : S;
}.

Implicit Types (ds : DataStore) (o : SO) (i : Id).

Definition set_objects (m : gmap Id SO) ds : DataStore :=
  {| objects := m; primary_namespace := primary_namespace ds;
     secondary_namespace := secondary_namespace ds; kv_store := kv_store ds |}.
Definition set_kv (s : S) ds : DataStore :=
  {| objects := objects ds; primary_namespace := primary_namespace ds;
     secondary_namespace := secondary_namespace ds; kv_store := s |}.

(** The location an object is stored at. *)
Definition store_key ds i : kv_key :=
  (primary_namespace ds, secondary_namespace ds, encode_to_hex_str i).

(** [HashMap::from_iter]: a later object replaces an earlier one with its id. *)
Definition new (objs : list SO) (ns1 ns2 : string) (kv : S) : DataStore :=
  {| objects := foldl (λ m o, <[so_id o := o]> m) ∅ objs;
     primary_namespace := ns1; secondary_namespace := ns2; kv_store := kv |}.

Definition persist o : cmd DataStore Error unit := λ ds,
  let '(kv, r) := kv_write (kv_store ds) (store_key ds (so_id o)) (so_encode o) in
  (set_kv kv ds, map_err (λ _, PersistenceFailed) r).

Definition set_entry i o : cmd DataStore Error unit :=
  modify (λ ds, set_objects (<[i := o]> (objects ds)) ds).

Definition insert o : cmd DataStore Error bool :=
  _ ← persist o;
  with_state (λ ds,
    let updated := bool_decide (is_Some (objects ds !! so_id o)) in
    _ ← set_entry (so_id o) o;
    mret updated).

Definition insert_or_update (now : Z) o : cmd DataStore Error bool :=
  with_state (λ ds,
    match objects ds !! so_id o with
    | Some entry =>
        let '(updated_object, updated) := so_update now entry (to_update o) in
        if updated then
          _ ← persist updated_object;
          _ ← set_entry (so_id o) updated_object;
          mret true
        else mret false
    | None =>
        _ ← persist o;
        _ ← set_entry (so_id o) o;
        mret true
    end).

(** The entry leaves the map before the store is asked to remove it. *)
Definition remove i : cmd DataStore Error unit := λ ds,
  let removed := bool_decide (is_Some (objects ds !! i)) in
  let ds := set_objects (delete i (objects ds)) ds in
  if removed then
    let '(kv, r) := kv_remove (kv_store ds) (store_key ds i) in
    (set_kv kv ds, map_err (λ _, PersistenceFailed) r)
  else (ds, Ok tt).

Definition get i ds : option SO := objects ds !! i.

(** The object is updated in place, through [get_mut], before it is persisted. *)
Definition update (now : Z) (u : Update) : cmd DataStore Error DataStoreUpdateResult :=
  with_state (λ ds,
    match objects ds !! update_id u with
    | Some object =>
        let '(object, updated) := so_update now object u in
        _ ← set_entry (update_id u) object;
        if (updated : bool) then _ ← persist object; mret Updated
        else mret Unchanged
    | None => mret NotFound
    end).

Definition list_filter {O : IterOrder Id} (f : SO → bool) ds : list SO :=
  List.filter f (values (objects ds)).

(** The operations as data, and their sequential execution. *)
Inductive op :=
| OpInsert (o : SO)
| OpInsertOrUpdate (o : SO)
| OpRemove (i : Id)
| OpUpdate (u : Update).

Inductive reply :=
| RBool (b : bool)
| RUnit
| RUpdate (r : DataStoreUpdateResult).

Definition exec (now : Z) (c : op) ds : DataStore * outcome Error reply :=
  match c with
  | OpInsert o => let '(ds, r) := insert o ds in (ds, RBool <$> r)
  | OpInsertOrUpdate o => let '(ds, r) := insert_or_update now o ds in (ds, RBool <$> r)
  | OpRemove i => let '(ds, r) := remove i ds in (ds, (λ _, RUnit) <$> r)
  | OpUpdate u => let '(ds, r) := update now u ds in (ds, RUpdate <$> r)
  end.

Fixpoint run (cs : list (Z * op)) ds : DataStore * list (outcome Error reply) :=
  match cs with
  | [] => (ds, [])
  | (now, c) :: cs =>
      let '(ds, r) := exec now c ds in
      let '(ds, rs) := run cs ds in (ds, r :: rs)
  end.
End data_store.

Arguments DataStore SO Id {_ _} S.
Arguments op : clear implicits.

(** ** Memory and store agree *)

Section properties.
Context {SO Id Update : Type} `{Countable Id} {OBJ : StorableObject SO Id Update}.
Context {OSPEC : StorableObjectSpec SO Id Update}.
Context {S : Type} {KV : KVStore S} {KSPEC : KVStoreSpec S}.
Implicit Types (ds : DataStore SO Id S) (o : SO) (i : Id).

(** A restart would load exactly the objects held in memory, each under the key
    of its id. *)
Record valid ds : Prop := {
  valid_view : ∀ i,
    kv_view (kv_store ds) !! store_key ds i = so_encode <$> objects ds !! i;
  valid_id : ∀ i o, objects ds !! i = Some o → so_id o = i;
}.

(** What a restart at time [now] finds for [i]. *)
Definition stored (now : Z) i ds : option SO :=
  kv_view (kv_store ds) !! store_key ds i ≫= so_decode now.

Lemma valid_empty ns1 ns2 kv : kv_view kv = ∅ → valid (new [] ns1 ns2 kv).
Proof.
  intros Hkv. split; simpl; [|done]. intros i. by rewrite Hkv, !lookup_empty.
Qed.

Lemma store_key_inj ds i j : store_key ds i = store_key ds j → i = j.
Proof. unfold store_key. intros. simplify_eq. by apply hex_str_inj. Qed.

Lemma store_key_set_objects ds m i : store_key (set_objects m ds) i = store_key ds i.
Proof. done. Qed.
Lemma store_key_set_kv ds kv i : store_key (set_kv kv ds) i = store_key ds i.
Proof. done. Qed.

Lemma valid_singleton ns1 ns2 o kv :
  kv_view kv = {[(ns1, ns2, encode_to_hex_str (so_id o)) := so_encode o]} →
  valid (mkDataStore {[so_id o := o]} ns1 ns2 kv).
Proof.
  intros Hkv. split; simpl.
  - intros i. rewrite Hkv. unfold store_key; simpl.
    destruct (decide (i = so_id o)) as [->|Hne]; [by rewrite !lookup_singleton_eq|].
    rewrite !lookup_singleton_ne; [done|done|].
    intros Heq. simplify_eq. by apply Hne, hex_str_inj.
  - intros i o'. by intros [<- <-]%lookup_singleton_Some.
Qed.

Lemma valid_stored now ds i : valid ds → stored now i ds = get i ds.
Proof.
  intros Hv. unfold stored, get. rewrite (valid_view _ Hv).
  destruct (objects ds !! i); simpl; [apply decode_encode|done].
Qed.

Lemma persist_cases o ds :
  (∃ kv, persist o ds = (set_kv kv ds, Ok tt) ∧
     kv_view kv = <[store_key ds (so_id o) := so_encode o]> (kv_view (kv_store ds))) ∨
  (∃ kv, persist o ds = (set_kv kv ds, Err PersistenceFailed) ∧
     kv_view kv = kv_view (kv_store ds)).
Proof.
  unfold persist.
  destruct (kv_write_cases (kv_store ds) (store_key ds (so_id o)) (so_encode o))
    as [(s' & -> & Hv)|(s' & e & -> & Hv)]; [left|right]; eauto.
Qed.

(** Writing an object and entering it in the map keeps memory and store equal. *)
Lemma valid_set_entry ds o kv :
  valid ds →
  kv_view kv = <[store_key ds (so_id o) := so_encode o]> (kv_view (kv_store ds)) →
  valid (set_objects (<[so_id o := o]> (objects ds)) (set_kv kv ds)).
Proof.
  intros Hv Hkv. split; simpl.
  - intros i. change (store_key _ i) with (store_key ds i). rewrite Hkv.
    destruct (decide (i = so_id o)) as [->|Hne].
    + by rewrite !lookup_insert_eq.
    + rewrite !lookup_insert_ne by (intros Heq; try apply store_key_inj in Heq; congruence).
      apply Hv.
  - intros i o'. destruct (decide (i = so_id o)) as [->|Hne].
    + rewrite lookup_insert_eq. naive_solver.
    + rewrite lookup_insert_ne by done. apply Hv.
Qed.

Lemma valid_set_kv ds kv :
  valid ds → kv_view kv = kv_view (kv_store ds) → valid (set_kv kv ds).
Proof. intros [Hview Hid] Hkv. split; simpl; [|done]. rewrite Hkv. apply Hview. Qed.

Lemma valid_remove_entry ds i kv :
  valid ds →
  kv_view kv = delete (store_key ds i) (kv_view (kv_store ds)) →
  valid (set_kv kv (set_objects (delete i (objects ds)) ds)).
Proof.
  intros Hv Hkv. split; simpl.
  - intros j. change (store_key _ j) with (store_key ds j). rewrite Hkv.
    destruct (decide (j = i)) as [->|Hne].
    + by rewrite !lookup_delete_eq.
    + rewrite !lookup_delete_ne by (intros Heq; try apply store_key_inj in Heq; congruence).
      apply Hv.
  - intros j o'. rewrite lookup_delete_Some. intros [_ Ho]. by apply Hv.
Qed.

Lemma set_objects_id ds : set_objects (objects ds) ds = ds.
Proof. by destruct ds. Qed.

(** The operations on the abstract state, a finite map without a store. *)
Definition spec (now : Z) (c : op SO Id Update) (m : gmap Id SO) : gmap Id SO * reply :=
  match c with
  | OpInsert o => (<[so_id o := o]> m, RBool (bool_decide (is_Some (m !! so_id o))))
  | OpInsertOrUpdate o =>
      match m !! so_id o with
      | Some entry =>
          let '(entry', updated) := so_update now entry (to_update o) in
          (if (updated : bool) then <[so_id o := entry']> m else m, RBool updated)
      | None => (<[so_id o := o]> m, RBool true)
      end
  | OpRemove i => (delete i m, RUnit)
  | OpUpdate u =>
      match m !! update_id u with
      | Some entry =>
          let '(entry', updated) := so_update now entry u in
          (<[update_id u := entry']> m,
           RUpdate (if (updated : bool) then Updated else Unchanged))
      | None => (m, RUpdate NotFound)
      end
  end.

(** An operation whose failure leaves memory and store equal. *)
Definition atomic_on_error (c : op SO Id Update) : bool :=
  match c with OpInsert _ | OpInsertOrUpdate _ => true | _ => false end.

(** Writing an object and then entering it in the map either does both or
    neither. *)
Lemma persist_set_entry_cases {A} (a : A) o ds :
  valid ds →
  let '(ds', r) := (_ ← persist o; _ ← set_entry (so_id o) o; mret a) ds in
  (r = Ok a ∧ valid ds' ∧ objects ds' = <[so_id o := o]> (objects ds)) ∨
  (r = Err PersistenceFailed ∧ valid ds' ∧ objects ds' = objects ds).
Proof.
  intros Hv. unfold mbind, cmd_bind.
  destruct (persist_cases o ds) as [(kv & -> & Hkv)|(kv & -> & Hkv)]; simpl.
  - left. split; [done|]. split; [by apply valid_set_entry|done].
  - right. split; [done|]. split; [by apply valid_set_kv|done].
Qed.

Lemma insert_cases o ds :
  valid ds →
  let '(ds', r) := insert o ds in
  (r = Ok (bool_decide (is_Some (objects ds !! so_id o))) ∧ valid ds' ∧
   objects ds' = <[so_id o := o]> (objects ds)) ∨
  (r = Err PersistenceFailed ∧ valid ds' ∧ objects ds' = objects ds).
Proof.
  intros Hv.
  pose proof (persist_set_entry_cases (bool_decide (is_Some (objects ds !! so_id o)))
    o ds Hv) as Hc.
  unfold insert, with_state, mbind, cmd_bind in *.
  destruct (persist_cases o ds) as [(kv & Hp & Hkv)|(kv & Hp & Hkv)];
    rewrite Hp in *; simpl in *; done.
Qed.

Lemma insert_or_update_cases now o ds :
  valid ds →
  let '(ds', r) := insert_or_update now o ds in
  (∃ b, r = Ok b ∧ valid ds' ∧
     spec now (OpInsertOrUpdate o) (objects ds) = (objects ds', RBool b)) ∨
  (r = Err PersistenceFailed ∧ valid ds' ∧ objects ds' = objects ds).
Proof.
  intros Hv. unfold insert_or_update, with_state, spec.
  destruct (objects ds !! so_id o) as [entry|] eqn:He.
  - destruct (so_update now entry (to_update o)) as [entry' []] eqn:Hu; [|left; by eexists].
    assert (so_id o = so_id entry') as ->.
    { symmetry. rewrite (so_update_id _ _ _ _ _ Hu). by apply Hv. }
    pose proof (persist_set_entry_cases true entry' ds Hv) as Hc.
    destruct_pair Hc ds' r. destruct Hc as [(-> & ? & ->)|?]; eauto.
  - pose proof (persist_set_entry_cases true o ds Hv) as Hc.
    destruct_pair Hc ds' r. destruct Hc as [(-> & ? & ->)|?]; eauto.
Qed.

Lemma remove_cases i ds :
  valid ds →
  let '(ds', r) := remove i ds in
  (r = Ok tt ∧ valid ds' ∧ objects ds' = delete i (objects ds)) ∨
  (r = Err PersistenceFailed).
Proof.
  intros Hv. unfold remove. case_bool_decide as Hin; simpl.
  - change (store_key _ i) with (store_key ds i).
    destruct (kv_remove_cases (kv_store ds) (store_key ds i))
      as [(kv & -> & Hkv)|(kv & e & -> & Hkv)]; simpl; [left|by right].
    split; [done|]. split; [by apply valid_remove_entry|done].
  - left. rewrite (delete_id (objects ds) i) by (by apply eq_None_not_Some).
    by rewrite set_objects_id.
Qed.

Lemma update_cases now u ds :
  valid ds →
  let '(ds', r) := update now u ds in
  (∃ a, r = Ok a ∧ valid ds' ∧
     spec now (OpUpdate u) (objects ds) = (objects ds', RUpdate a)) ∨
  (r = Err PersistenceFailed).
Proof.
  intros Hv. unfold update, with_state, spec, mbind, cmd_bind.
  destruct (objects ds !! update_id u) as [entry|] eqn:He; [|left; by eexists].
  destruct (so_update now entry u) as [entry' []] eqn:Hu; simpl.
  - destruct (persist_cases entry' (set_objects (<[update_id u:=entry']> (objects ds)) ds))
      as [(kv & -> & Hkv)|(kv & -> & Hkv)]; simpl; [left|by right].
    assert (update_id u = so_id entry') as ->.
    { symmetry. rewrite (so_update_id _ _ _ _ _ Hu). by apply Hv. }
    eexists. split; [done|]. split; [by apply (valid_set_entry ds entry' kv)|done].
  - left. eexists. split; [done|]. apply so_update_false in Hu as ->.
    by rewrite (insert_id (objects ds)), set_objects_id.
Qed.

(** One step: it succeeds and follows the abstract operation, or it reports a
    persistence failure; the inserting operations then leave memory and store
    as they were. *)
Lemma exec_step now c ds :
  valid ds →
  let '(ds', r) := exec now c ds in
  (∃ a, r = Ok a ∧ valid ds' ∧ spec now c (objects ds) = (objects ds', a)) ∨
  (r = Err PersistenceFailed ∧
   (atomic_on_error c = true → valid ds' ∧ objects ds' = objects ds)).
Proof.
  intros Hv. destruct c as [o|o|i|u]; simpl.
  - pose proof (insert_cases o ds Hv) as Hc. destruct (insert o ds) as [ds' r].
    destruct Hc as [(-> & ? & ->)|(-> & ?)]; [left; by eexists|right; by split].
  - pose proof (insert_or_update_cases now o ds Hv) as Hc.
    destruct (insert_or_update now o ds) as [ds' r].
    destruct Hc as [(b & -> & ? & ?)|(-> & ?)]; [left; by eexists|right; by split].
  - pose proof (remove_cases i ds Hv) as Hc. destruct (remove i ds) as [ds' r].
    destruct Hc as [(-> & ? & ->)| ->]; [left; by eexists|right; by split].
  - pose proof (update_cases now u ds Hv) as Hc. destruct (update now u ds) as [ds' r].
    destruct Hc as [(a & -> & ? & ?)| ->]; [left; by eexists|right; by split].
Qed.

(** The abstract execution of the calls that succeeded, in order. *)
Fixpoint spec_run (cs : list (Z * op SO Id Update)) (rs : list (outcome Error reply))
    (m : gmap Id SO) : gmap Id SO :=
  match cs, rs with
  | (now, c) :: cs, Ok _ :: rs => spec_run cs rs (spec now c m).1
  | _ :: cs, _ :: rs => spec_run cs rs m
  | _, _ => m
  end.

(** A failed call is one of the inserting ones. *)
Definition fails_atomically (c : Z * op SO Id Update) (r : outcome Error reply) : Prop :=
  r = Err PersistenceFailed → atomic_on_error c.2 = true.

(** C14. Durability and refinement: along any sequence of calls in which only
    [insert] and [insert_or_update] hit a failing write, the store holds exactly
    the objects in memory after every call, so a restart loads the current
    contents; and the contents are those of a plain map to which the successful
    calls were applied. *)
Theorem run_durable (cs : list (Z * op SO Id Update)) ds ds' rs :
  valid ds → run cs ds = (ds', rs) → Forall2 fails_atomically cs rs →
  (∀ now i, stored now i ds' = get i ds') ∧
  objects ds' = spec_run cs rs (objects ds) ∧
  Forall (λ r, is_ok r = true ∨ r = Err PersistenceFailed) rs.
Proof.
  intros Hv Hrun Hfail.
  assert (valid ds' ∧ objects ds' = spec_run cs rs (objects ds) ∧
          Forall (λ r, is_ok r = true ∨ r = Err PersistenceFailed) rs)
    as (? & ? & ?); [|eauto using valid_stored].
  revert ds rs Hv Hrun Hfail.
  induction cs as [|[now c] cs IH]; intros ds rs Hv Hrun Hfail; simpl in Hrun.
  { simplify_eq. repeat split; eauto; apply Hv. }
  pose proof (exec_step now c ds Hv) as Hstep.
  destruct (exec now c ds) as [ds1 r]. destruct (run cs ds1) as [ds2 rs'] eqn:Hrun'.
  simplify_eq. apply Forall2_cons in Hfail as [Hr Hrest].
  destruct Hstep as [(a & -> & Hv1 & Hs)|(-> & Hat)]; simpl.
  - rewrite Hs. destruct (IH ds1 rs' Hv1) as (? & ? & ?); eauto.
  - destruct (Hat (Hr eq_refl)) as [Hv1 <-].
    destruct (IH ds1 rs' Hv1) as (? & ? & ?); eauto.
Qed.

(** [update] is not retryable: if its write fails, the object in memory is
    already changed while the store keeps the old one, and repeating the same
    update (one that makes no further change) answers [Unchanged] without
    writing. *)
Theorem update_failure_diverges now now' (u : Update) ds o o' kv e :
  valid ds →
  objects ds !! update_id u = Some o →
  so_update now o u = (o', true) → so_update now' o' u = (o', false) →
  kv_write (kv_store ds) (store_key ds (update_id u)) (so_encode o') = (kv, Err e) →
  let '(ds1, r1) := update now u ds in
  let '(ds2, r2) := update now' u ds1 in
  r1 = Err PersistenceFailed ∧ r2 = Ok Unchanged ∧ ds2 = ds1 ∧
  get (update_id u) ds2 = Some o' ∧ (∀ later, stored later (update_id u) ds2 = Some o).
Proof.
  intros Hv Ho Hu Hu' Hw. unfold update, with_state, mbind, cmd_bind.
  rewrite Ho, Hu; simpl. unfold persist; simpl.
  assert (so_id o' = update_id u) as ->.
  { rewrite (so_update_id _ _ _ _ _ Hu). by apply Hv. }
  change (store_key _ (update_id u)) with (store_key ds (update_id u)).
  rewrite Hw; simpl. rewrite lookup_insert_eq, Hu'; simpl.
  rewrite insert_insert_eq. repeat split.
  - unfold get; simpl. by rewrite lookup_insert_eq.
  - intros later. unfold stored; simpl. change (store_key _ (update_id u)) with (store_key ds (update_id u)).
    rewrite (kv_write_Err _ _ _ _ _ Hw), (valid_view _ Hv), Ho.
    simpl. apply decode_encode.
Qed.

(** [remove] is not retryable: if the store refuses, the object is gone from
    memory but a restart brings it back, and repeating the call reports success
    without asking the store again. *)
Theorem remove_failure_diverges i ds o kv e :
  valid ds →
  objects ds !! i = Some o →
  kv_remove (kv_store ds) (store_key ds i) = (kv, Err e) →
  let '(ds1, r1) := remove i ds in
  let '(ds2, r2) := remove i ds1 in
  r1 = Err PersistenceFailed ∧ r2 = Ok tt ∧ ds2 = ds1 ∧
  get i ds2 = None ∧ (∀ later, stored later i ds2 = Some o).
Proof.
  intros Hv Ho Hrm. unfold remove.
  rewrite (bool_decide_eq_true_2 (is_Some (objects ds !! i))) by eauto. simpl.
  rewrite store_key_set_objects, Hrm; simpl.
  rewrite lookup_delete_eq, bool_decide_eq_false_2 by (by intros [? ?]).
  unfold get, stored; simpl. rewrite delete_delete_eq, lookup_delete_eq.
  rewrite store_key_set_objects, store_key_set_kv, store_key_set_objects.
  rewrite (kv_remove_Err _ _ _ _ Hrm), (valid_view _ Hv), Ho.
  repeat split. intros later. simpl. by rewrite decode_encode.
Qed.
End properties.

(** ** A concrete object type

    The shape of [TestObject] in the module's tests: an id, some data, and an
    update that replaces the data. *)
Module Examples.
Record TestObject := { test_id : u8; test_data : bytes }.

#[local] Instance test_storable : StorableObject TestObject u8 TestObject := {
  so_id := test_id;
  so_update _ o u :=
    if decide (test_data o = test_data u) then (o, false)
    else ({| test_id := test_id o; test_data := test_data u |}, true);
  to_update o := o;
  update_id := test_id;
  encode_to_hex_str i := hex_utils.to_string [u8_to_Z i];
  so_encode o := test_id o :: test_data o;
  so_decode _ bs :=
    match bs with
    | [] => None
    | i :: d => Some {| test_id := i; test_data := d |}
    end;
}.

#[local] Instance test_storable_spec : StorableObjectSpec TestObject u8 TestObject.
Proof.
  split.
  - intros i j Heq. apply hex_utils.to_string_inj in Heq.
    + apply u8_to_Z_inj. congruence.
    + repeat constructor; apply u8_to_Z_range.
    + repeat constructor; apply u8_to_Z_range.
  - by intros now [].
  - simpl. intros now o u o' b. case_decide; intros; by simplify_eq.
  - simpl. intros now o u o'. case_decide; intros; by simplify_eq.
Qed.

Definition new_store (faults : list bool) : DataStore TestObject u8 FaultyStore :=
  new [] "primary" "secondary" {| contents := ∅; faults := faults |}.
Definition object := {| test_id := x42; test_data := [x23] |}.
Definition changed := {| test_id := x42; test_data := [x25] |}.
Definition other := {| test_id := x43; test_data := [] |}.

(** The second write, an insertion, fails. *)
Definition calls : list (Z * op TestObject u8 TestObject) :=
  [(0, OpInsert object); (0, OpInsertOrUpdate other); (0, OpUpdate changed);
   (0, OpRemove x43)].
Definition after := run calls (new_store [false; true]).

Lemma run_durable_witness :
  after.2 = [Ok (RBool false); Err PersistenceFailed; Ok (RUpdate Updated); Ok RUnit] ∧
  (∀ now i, stored now i after.1 = get i after.1).
Proof.
  assert (after.2 = [Ok (RBool false); Err PersistenceFailed; Ok (RUpdate Updated); Ok RUnit])
    as Hrs by (vm_compute; reflexivity).
  refine (conj Hrs (proj1 (run_durable calls (new_store [false; true]) after.1 after.2
                            (valid_empty _ _ {| contents := ∅; faults := [false; true] |} eq_refl) (surjective_pairing _) _))).
  rewrite Hrs. repeat constructor; by intros.
Defined.

(** One object, stored; the next mutation of the store fails. *)
Definition failing_store : DataStore TestObject u8 FaultyStore :=
  mkDataStore {[so_id object := object]} "primary" "secondary"
    {| contents := {[("primary", "secondary", encode_to_hex_str (so_id object))
                      := so_encode object]};
       faults := [true] |}.

Lemma update_failure_diverges_witness :
  let '(ds1, r1) := update 5 changed failing_store in
  let '(ds2, r2) := update 5 changed ds1 in
  r1 = Err PersistenceFailed ∧ r2 = Ok Unchanged ∧ ds2 = ds1 ∧
  get (update_id changed) ds2 = Some changed ∧
  (∀ later, stored later (update_id changed) ds2 = Some object).
Proof.
  refine (update_failure_diverges 5 5 changed failing_store object changed
            {| contents := contents (kv_store failing_store); faults := [] |} KindOther
            (valid_singleton _ _ object (kv_store failing_store) eq_refl) _ _ _ _); reflexivity.
Defined.

Lemma remove_failure_diverges_witness :
  let '(ds1, r1) := remove x42 failing_store in
  let '(ds2, r2) := remove x42 ds1 in
  r1 = Err PersistenceFailed ∧ r2 = Ok tt ∧ ds2 = ds1 ∧
  get x42 ds2 = None ∧ (∀ later, stored later x42 ds2 = Some object).
Proof.
  refine (remove_failure_diverges x42 failing_store object
            {| contents := contents (kv_store failing_store); faults := [] |} KindOther
            (valid_singleton _ _ object (kv_store failing_store) eq_refl) _ _); reflexivity.
Defined.
End Examples.

End DataStore.
