(* ===== verification/Types.v ===== *)
(** * Identifiers and chain data

    The values of the [bitcoin] and [lightning] crates that the node stores and
    compares.  Hashes, ids, keys and preimages are byte arrays compared for
    equality; a script is its bytes.  What those crates compute (transaction ids,
    weights, script templates, signatures) is not defined here: it is a parameter
    of the components that use it. *)

From S2P Require Import Prelude.

Abbreviation array32 := (list u8).
Abbreviation Txid := array32.
Abbreviation BlockHash := array32.
Abbreviation PublicKey := (list u8).
Abbreviation Script := (list u8).
Abbreviation PaymentId := array32.
Abbreviation PaymentHash := array32.
Abbreviation PaymentPreimage := array32.
Abbreviation PaymentSecret := array32.
Abbreviation OfferId := array32.
Abbreviation ChannelId := array32.

Record OutPoint := mkOutPoint { txid : Txid; vout : Z }.

#[global] Instance OutPoint_eq_dec : EqDecision OutPoint.
Proof. solve_decision. Defined.

#[global] Program Instance OutPoint_countable : Countable OutPoint :=
  inj_countable' (λ o, (txid o, vout o)) (λ '(t, v), mkOutPoint t v) _.
Next Obligation. by intros []. Qed.

(** [Amount]s are numbers of satoshis. *)
Record TxOut := mkTxOut { value : Z; script_pubkey : Script }.

#[global] Instance TxOut_eq_dec : EqDecision TxOut.
Proof. solve_decision. Defined.

Record TxIn := mkTxIn {
  previous_output : OutPoint;
  script_sig : Script;
  sequence : Z;
  witness : list (list u8);
}.

#[global] Instance TxIn_eq_dec : EqDecision TxIn.
Proof. solve_decision. Defined.

Record Transaction := mkTransaction {
  version : Z;
  lock_time : Z;
  input : list TxIn;
  output : list TxOut;
}.

#[global] Instance Transaction_eq_dec : EqDecision Transaction.
Proof. solve_decision. Defined.

Record BlockId := mkBlockId { block_height : Z; block_hash : BlockHash }.

#[global] Instance BlockId_eq_dec : EqDecision BlockId.
Proof. solve_decision. Defined.

(** [bdk_chain::ConfirmationBlockTime] *)
Record ConfirmationBlockTime := mkConfirmationBlockTime {
  block_id : BlockId;
  confirmation_time : Z;
}.

#[global] Instance ConfirmationBlockTime_eq_dec : EqDecision ConfirmationBlockTime.
Proof. solve_decision. Defined.
