(* ===== verification/Connection.v ===== *)
(** * Connecting to peers ([ConnectionManager] of [src/connection.rs])

    Callers asking for a connection to the same peer share one attempt.  Resolving the
    address, opening the connection and LDK's knowledge of the peer are inputs. *)

From S2P Require Import Prelude Errors Types Sharing.
Import sharing.

Module ConnectionManager.

(** [pending_connections]: the senders of the callers waiting for each peer. *)
Record ConnectionManager := mkConnectionManager {
  pending_connections : gmap PublicKey (list chan);
}.
Implicit Types (m : ConnectionManager).

Definition new : ConnectionManager := {| pending_connections := ∅ |}.

Definition register_or_subscribe_pending_connection (node_id : PublicKey) (tx : chan) m :
    ConnectionManager * option chan :=
  match pending_connections m !! node_id with
  | Some senders =>
      ({| pending_connections := <[node_id := senders ++ [tx]]> (pending_connections m) |}, Some tx)
  | None => ({| pending_connections := <[node_id := []]> (pending_connections m) |}, None)
  end.

Definition propagate_result_to_subscribers (node_id : PublicKey) (res : attempt_result) m :
    ConnectionManager * list (chan * attempt_result) :=
  match pending_connections m !! node_id with
  | Some senders =>
      ({| pending_connections := delete node_id (pending_connections m) |},
       (λ sender, (sender, res)) <$> senders)
  | None => (m, [])
  end.

(** ** [do_connect_peer]

    The points at which the driving future waits: for the address, for the connection
    to be opened, and in the loop for the handshake to finish. *)
Inductive phase := Resolving | Connecting | Polling.

Inductive input {SocketAddr : Type} :=
| Resolved (addrs : option (list SocketAddr))
| Outbound (established : bool)
(** The connection closed, or 10 ms passed and LDK knows the peer or not. *)
| Closed
| Slept (peer_known : bool).
Arguments input : clear implicits.

Definition do_connect_peer {SocketAddr} (_ : PublicKey) (p : phase) (i : input SocketAddr) :
    option (phase + attempt_result) :=
  match p, i with
  | Resolving, Resolved None => Some (inr (Err InvalidSocketAddress))
  | Resolving, Resolved (Some []) => Some (inr (Err InvalidSocketAddress))
  | Resolving, Resolved (Some (_ :: _)) => Some (inl Connecting)
  | Connecting, Outbound true => Some (inl Polling)
  | Connecting, Outbound false => Some (inr (Err ConnectionFailed))
  | Polling, Closed => Some (inr (Err ConnectionFailed))
  | Polling, Slept true => Some (inr (Ok tt))
  | Polling, Slept false => Some (inl Polling)
  | _, _ => None
  end.

#[global] Instance connection_registry : Registry ConnectionManager PublicKey := {
  subscribers := pending_connections;
  register_or_subscribe := register_or_subscribe_pending_connection;
  propagate := propagate_result_to_subscribers;
}.

#[global] Instance connection_registry_spec : RegistrySpec ConnectionManager PublicKey.
Proof.
  split; simpl.
  - intros k c m Hk. unfold register_or_subscribe_pending_connection. rewrite Hk. eauto.
  - intros k c m cs Hk. unfold register_or_subscribe_pending_connection. rewrite Hk. eauto.
  - intros k res m. unfold propagate_result_to_subscribers.
    destruct (pending_connections m !! k) eqn:Hk; simpl; [done|].
    by rewrite delete_id.
Qed.

(** The callers of the manager, each between two of its waiting points. *)
Abbreviation callers := (state (R := ConnectionManager) (K := PublicKey) (Phase := phase)).
Definition connect_step {SocketAddr} : callers → callers → Prop :=
  step (do_connect_peer (SocketAddr := SocketAddr)).
Definition connect_step_or_drop {SocketAddr} : callers → callers → Prop :=
  step_or_cancel (do_connect_peer (SocketAddr := SocketAddr)).

(** [connect_peer_if_necessary]: nothing is attempted for a peer LDK knows. *)
Definition connect_peer_if_necessary (peer_known : bool) (t : nat) (node_id : PublicKey)
    (s : callers) : callers :=
  if peer_known then set_task t (Finished node_id (Ok tt)) s
  else begin_attempt t node_id Resolving s.

(** C28. However the callers interleave, and whichever of their futures are dropped: at
    most one of them connects to a peer at a time, and when its attempt ends, it ends for
    everybody who waits with the same result, now and in any continuation in which they
    are not dropped.  As long as no future was dropped, moreover, nobody waits for a peer
    that nobody connects to; [dropped_connect_blocks] shows that a dropped one spoils
    that. *)
Theorem connect_attempts_shared {SocketAddr : Type} (s : callers) :
  rtc (connect_step_or_drop (SocketAddr := SocketAddr)) (init new) s →
  (∀ t t' k, drives s t k → drives s t' k → t = t') ∧
  (∀ d k p (i : input SocketAddr) res,
     tasks s !! d = Some (Driving k p) → do_connect_peer k p i = Some (inr res) →
     connect_step (SocketAddr := SocketAddr) s (complete d k res s) ∧
     ∀ t c s', tasks s !! t = Some (Waiting k c) → delivered s !! c = None →
       rtc (connect_step (SocketAddr := SocketAddr)) (complete d k res s) s' →
       tasks s' !! t = Some (Waiting k c) ∧ delivered s' !! c = Some res ∨
       tasks s' !! t = Some (Finished k res)) ∧
  (rtc (connect_step (SocketAddr := SocketAddr)) (init new) s →
   ∀ t k c, tasks s !! t = Some (Waiting k c) → is_Some (delivered s !! c) ∨ ∃ d, drives s d k).
Proof.
  intros Hs. destruct (init_inv (Phase := phase) new) as [I0 _]; [done|].
  assert (I : inv s) by exact (runs_or_cancel_inv do_connect_peer _ _ Hs I0).
  split_and!; [apply (inv_one_driver s I)|by intros *; apply (completion_shared do_connect_peer)|].
  intros Hs' t k c. by apply (waiting_attended (do_connect_peer (SocketAddr := SocketAddr)) new s).
Qed.

(** A connection attempt whose future is dropped leaves its entry behind: nobody ever
    connects to that peer again, and everybody who asks later waits without end. *)
Theorem dropped_connect_blocks {SocketAddr : Type} (s s' : callers) d k :
  rtc (connect_step_or_drop (SocketAddr := SocketAddr)) (init new) s →
  drives s d k →
  rtc (connect_step_or_drop (SocketAddr := SocketAddr)) (cancel d s) s' →
  (∀ t, ¬ drives s' t k) ∧
  (∀ t, tasks s !! t = None → ∀ res, tasks s' !! t ≠ Some (Finished k res)).
Proof.
  intros Hs Hd Hs'. destruct (init_inv (Phase := phase) new) as [I0 _]; [done|].
  assert (I : inv s) by exact (runs_or_cancel_inv do_connect_peer _ _ Hs I0).
  destruct (abandoned_forever (do_connect_peer (SocketAddr := SocketAddr)) k (cancel d s) s') as [Hno Hnew]; [..|done|].
  - by apply cancel_inv.
  - by apply (inv_registered s I d k).
  - intros t (p & Hp). simpl in Hp. apply lookup_delete_Some in Hp as [Hne Hp].
    destruct Hne. apply (inv_one_driver s I d t k); [done|by exists p].
  - split; [done|]. intros t Ht. apply Hnew. simpl. by rewrite lookup_delete_None; right.
Qed.
End ConnectionManager.
