(* ===== verification/SyncStatus.v ===== *)
(** * Who synchronises ([WalletSyncStatus] of [src/chain/mod.rs])

    Every chain source keeps one status for its on-chain and one for its Lightning
    synchronisation: the first caller of [sync_onchain_wallet] or
    [sync_lightning_wallet] carries the synchronisation out, the others wait for its
    result on a broadcast channel.  The full-node source has one status for both, which
    its [poll_and_update_listeners] uses in the same way, and its
    [continuously_sync_wallets] once per start of the node in a way of its own. *)

From S2P Require Import Prelude Errors Sharing.
Import sharing.

Inductive WalletSyncStatus :=
| Completed
(** The receivers of the broadcast channel. *)
| InProgress (receivers : list chan).

Definition register_or_subscribe_pending_sync (rx : chan) (st : WalletSyncStatus) :
    WalletSyncStatus * option chan :=
  match st with
  | Completed => (InProgress [], None)
  | InProgress receivers => (InProgress (receivers ++ [rx]), Some rx)
  end.

Definition propagate_result_to_subscribers (res : attempt_result) (st : WalletSyncStatus) :
    WalletSyncStatus * list (chan * attempt_result) :=
  match st with
  | Completed => (Completed, [])
  | InProgress receivers =>
      let sent := if (0 <? length receivers)%nat then (λ rx, (rx, res)) <$> receivers else [] in
      (Completed, sent)
  end.

Definition sync_subscribers (st : WalletSyncStatus) : gmap unit (list chan) :=
  match st with Completed => ∅ | InProgress receivers => {[tt := receivers]} end.

#[global] Instance sync_registry : Registry WalletSyncStatus unit := {
  subscribers := sync_subscribers;
  register_or_subscribe := λ _, register_or_subscribe_pending_sync;
  propagate := λ _, propagate_result_to_subscribers;
}.

#[global] Instance sync_registry_spec : RegistrySpec WalletSyncStatus unit.
Proof.
  split; simpl.
  - intros [] c [|rxs] Hk; [|done]. by eexists.
  - intros [] c [|rxs] cs Hk; [done|]. simpl in *.
    assert (rxs = cs) as -> by (by apply lookup_singleton_Some in Hk as [_ ?]).
    eexists; split; [done|]. simpl. by rewrite insert_singleton_eq.
  - intros [] res [|rxs]; simpl; [done|].
    rewrite delete_singleton_eq, lookup_singleton_eq. by destruct rxs.
Qed.

(** [sync_onchain_wallet] and [sync_lightning_wallet] beside the work itself, which ends
    with the result that is handed in. *)
Definition sync_attempt (_ : unit) (_ : unit) (res : attempt_result) :
    option (unit + attempt_result) := Some (inr res).

(** The initial synchronisation of the full-node source: it registers without looking
    whether it is the first to do so, leaving a receiver nobody listens to if it is not,
    and sends its success to whoever subscribed.  It is not cut short by an error. *)
Definition initial_sync_registers (s : state (R := WalletSyncStatus) (K := unit) (Phase := unit)) :
    state :=
  mkState (register_or_subscribe_pending_sync (next_chan s) (registry s)).1 (delivered s) (tasks s)
    (S (next_chan s)).
Definition initial_sync_completes (s : state (R := WalletSyncStatus) (K := unit) (Phase := unit)) :
    state :=
  let '(st, sent) := propagate_result_to_subscribers (Ok tt) (registry s) in
  mkState st (deliver sent (delivered s)) (tasks s) (next_chan s).

Abbreviation syncs := (state (R := WalletSyncStatus) (K := unit) (Phase := unit)).
Definition sync_step : syncs → syncs → Prop := step sync_attempt.
Definition sync_step_or_drop : syncs → syncs → Prop := step_or_cancel sync_attempt.

(** However callers interleave, one synchronisation runs at a time, and the callers
    that arrive meanwhile all end with its result. *)
Theorem syncs_shared (s : syncs) :
  rtc sync_step (init Completed) s →
  (∀ t t', drives s t tt → drives s t' tt → t = t') ∧
  (∀ t c, tasks s !! t = Some (Waiting tt c) →
     is_Some (delivered s !! c) ∨ ∃ d, drives s d tt) ∧
  (∀ d res, drives s d tt →
     sync_step s (complete d tt res s) ∧
     ∀ t c s', tasks s !! t = Some (Waiting tt c) → delivered s !! c = None →
       rtc sync_step (complete d tt res s) s' →
       tasks s' !! t = Some (Waiting tt c) ∧ delivered s' !! c = Some res ∨
       tasks s' !! t = Some (Finished tt res)).
Proof.
  intros Hs. destruct (init_inv (Phase := unit) Completed) as [I0 _]; [done|].
  assert (I : inv s) by exact (runs_inv sync_attempt _ _ Hs I0).
  split_and!; [intros *; apply (inv_one_driver s I)| |].
  - intros t c. by apply (waiting_attended sync_attempt Completed s).
  - intros d res [[] Hd]. by apply (completion_shared sync_attempt s d tt tt res res).
Qed.

(** Registering once more on a status that nobody attends to. *)
Lemma registers_abandoned T (s : syncs) :
  abandoned tt T s → abandoned tt T (initial_sync_registers s).
Proof.
  intros [I [cs Hk] Hd Hf Hw]. unfold initial_sync_registers. cbn in Hk.
  destruct (registry s) as [|rxs] eqn:Hr; [done|]. cbn.
  assert (Hsub : ∀ c, subscribed (R := WalletSyncStatus) (mkState (InProgress (rxs ++ [next_chan s]))
    (delivered s) (tasks s) (S (next_chan s))) tt c ↔ subscribed s tt c ∨ c = next_chan s).
  { intros c. unfold subscribed. cbn. rewrite Hr. cbn. split.
    - intros (l & [_ <-]%lookup_singleton_Some & Hc). apply elem_of_app in Hc as [Hc|Hc].
      + left. exists rxs. by rewrite lookup_singleton_eq.
      + right. by apply list_elem_of_singleton in Hc.
    - intros [(l & [_ <-]%lookup_singleton_Some & Hc)| ->];
        (eexists; rewrite lookup_singleton_eq; split; [done|]); apply elem_of_app; [by left|right].
      by apply list_elem_of_singleton. }
  split; cbn.
  - split; cbn.
    + intros [] c [Hc| ->]%Hsub.
      * apply (inv_subscribed s I) in Hc as [? ?]. split; [lia|done].
      * split; [lia|]. destruct (delivered s !! next_chan s) eqn:Hn; [|done].
        apply (inv_delivered s I) in Hn. lia.
    + by intros [] [].
    + intros c res Hc%(inv_delivered s I). lia.
    + intros t [] c Ht. destruct (inv_waiting s I t tt c Ht) as [? Hs]. split; [lia|].
      intros ?%Hs. apply Hsub. by left.
    + intros t [] Hdr. by destruct (Hd t).
    + intros t t' [] H1 H2. by apply (inv_one_driver s I t t' tt).
  - by eexists.
  - exact Hd.
  - exact Hf.
  - intros t c HT Ht. apply Hsub. left. by apply (Hw t c).
Qed.

