(* ===== verification/SyncLoop.v ===== *)
(** * Background synchronisation intervals ([start_tx_based_sync_loop] and
      [set_background_sync_config] of [src/chain/mod.rs], [update_sync_intervals] of
      [src/lib.rs])

    The loop that synchronises over Esplora or Electrum, with its intervals, and the watch
    channel through which they are changed while it runs.  A [tokio::sync::watch] sender
    keeps its value when there is no receiver; the loop holds the only one. *)

From S2P Require Import Prelude Errors.

Definition WALLET_SYNC_INTERVAL_MINIMUM_SECS : Z := 10.
Definition DEFAULT_BDK_WALLET_SYNC_INTERVAL_SECS : Z := 80.
Definition DEFAULT_LDK_WALLET_SYNC_INTERVAL_SECS : Z := 30.
Definition DEFAULT_FEE_RATE_CACHE_UPDATE_INTERVAL_SECS : Z := 600.

Record BackgroundSyncConfig := mkSyncConfig {
  onchain_wallet_sync_interval_secs : Z;
  lightning_wallet_sync_interval_secs : Z;
  fee_rate_cache_update_interval_secs : Z;
}.
Record RuntimeSyncIntervals := mkIntervals {
  onchain_interval_secs : Z;
  lightning_interval_secs : Z;
  fee_rate_interval_secs : Z;
}.

(** [Default for RuntimeSyncIntervals] *)
Definition default_intervals : RuntimeSyncIntervals :=
  mkIntervals DEFAULT_BDK_WALLET_SYNC_INTERVAL_SECS DEFAULT_LDK_WALLET_SYNC_INTERVAL_SECS
    DEFAULT_FEE_RATE_CACHE_UPDATE_INTERVAL_SECS.
Definition battery_saving : RuntimeSyncIntervals := mkIntervals 300 120 1800.
(** [From<RuntimeSyncIntervals> for BackgroundSyncConfig] *)
Definition config_of (i : RuntimeSyncIntervals) : BackgroundSyncConfig :=
  mkSyncConfig (onchain_interval_secs i) (lightning_interval_secs i) (fee_rate_interval_secs i).

Module SyncLoop.

(** The intervals of the running loop, and the version of the configuration it has seen. *)
Record loop_state := mkLoop {
  onchain_wallet_sync_interval : Z;
  lightning_wallet_sync_interval : Z;
  fee_rate_update_interval : Z;
  seen : nat;
}.

Record state := mkState {
  background_sync_config : option BackgroundSyncConfig;
  (** The sender's value and version. *)
  sync_config_sender : option (BackgroundSyncConfig * nat);
  loop : option loop_state;
  runtime_sync_intervals : RuntimeSyncIntervals;
}.
Implicit Types (s : state) (c : BackgroundSyncConfig) (l : loop_state).

Definition set_loop (l : option loop_state) s : state :=
  mkState (background_sync_config s) (sync_config_sender s) l (runtime_sync_intervals s).

(** [new_esplora] and [new_electrum], in a built node *)
Definition new (config : option BackgroundSyncConfig) : state :=
  mkState config ((λ c, (c, 0%nat)) <$> config) None default_intervals.

Definition intervals c (version : nat) : loop_state :=
  mkLoop (Z.max (onchain_wallet_sync_interval_secs c) WALLET_SYNC_INTERVAL_MINIMUM_SECS)
    (Z.max (lightning_wallet_sync_interval_secs c) WALLET_SYNC_INTERVAL_MINIMUM_SECS)
    (Z.max (fee_rate_cache_update_interval_secs c) WALLET_SYNC_INTERVAL_MINIMUM_SECS) version.

(** [continuously_sync_wallets]: the loop starts, unless background syncing is disabled. *)
Definition start_loop s : outcome Error state :=
  match background_sync_config s with
  | None => Ok s
  | Some config =>
      match sync_config_sender s with
      | None => Panic
      | Some (_, version) => Ok (set_loop (Some (intervals config version)) s)
      end
  end.
Definition stop_loop s : state := set_loop None s.

(** The loop sees [config_receiver.changed()]. *)
Definition config_changed s : state :=
  match loop s, sync_config_sender s with
  | Some l, Some (new_config, version) =>
      if decide (seen l = version) then s else set_loop (Some (intervals new_config version)) s
  | _, _ => s
  end.

Definition set_background_sync_config c s : state * outcome Error unit :=
  match sync_config_sender s with
  | None => (s, Err BackgroundSyncNotEnabled)
  | Some (old, version) =>
      let sent := match loop s with Some _ => (c, Datatypes.S version) | None => (old, version) end in
      (mkState (background_sync_config s) (Some sent) (loop s) (runtime_sync_intervals s), Ok tt)
  end.

Definition update_sync_intervals (i : RuntimeSyncIntervals) s : state * outcome Error unit :=
  let s := mkState (background_sync_config s) (sync_config_sender s) (loop s) i in
  set_background_sync_config (config_of i) s.
Definition current_sync_intervals s : RuntimeSyncIntervals := runtime_sync_intervals s.

(** ** Any order of calls *)

Inductive op := Start | Stop | Changed | Update (i : RuntimeSyncIntervals).
Definition exec (o : op) s : state :=
  match o with
  | Start => match start_loop s with Ok s' => s' | _ => s end
  | Stop => stop_loop s
  | Changed => config_changed s
  | Update i => (update_sync_intervals i s).1
  end.
Definition run (os : list op) s : state := foldl (λ s o, exec o s) s os.

(** The last update in a list of calls. *)
Definition last_update (os : list op) : option RuntimeSyncIntervals :=
  last (omap (λ o, match o with Update i => Some i | _ => None end) os).

(** What holds at all times. *)
Definition consistent (config : option BackgroundSyncConfig) s : Prop :=
  background_sync_config s = config ∧ (is_Some (sync_config_sender s) ↔ is_Some config) ∧
  ∀ l, loop s = Some l → is_Some config ∧
    (∀ c v, sync_config_sender s = Some (c, v) → (seen l ≤ v)%nat) ∧
    ∃ c, l = intervals c (seen l).

Lemma exec_consistent config o s : consistent config s → consistent config (exec o s).
Proof.
  intros (Hb & Hs & Hl). destruct o as [| | |i]; simpl.
  - unfold start_loop. rewrite Hb. destruct config as [c|]; [|done].
    destruct (sync_config_sender s) as [[c' v]|] eqn:Hc; [|by split_and!; rewrite ?Hc].
    split_and!; [done|simpl; by rewrite Hc|]. simpl. intros l [= <-]. simpl. split_and!; [done| |by exists c].
    intros c1 v1. rewrite Hc. intros [= <- <-]. done.
  - by split_and!.
  - unfold config_changed. destruct (loop s) as [l|] eqn:Hloop; [|by split_and!; rewrite ?Hloop].
    destruct (Hl l eq_refl) as (Hc & Hv & Hi).
    destruct (sync_config_sender s) as [[c' v]|] eqn:Hsc; [|by split_and!; rewrite ?Hloop, ?Hsc].
    case_decide; [by split_and!; rewrite ?Hloop, ?Hsc|].
    split_and!; [done|by simpl; rewrite Hsc|]. simpl. intros l' [= <-]. split_and!; [done| |by exists c'].
    simpl. rewrite Hsc. by intros ?? [= <- <-].
  - unfold update_sync_intervals, set_background_sync_config. simpl.
    destruct (sync_config_sender s) as [[c' v]|] eqn:Hsc; simpl; [|by split_and!; simpl; rewrite ?Hsc].
    split_and!; [done| |].
    + simpl. rewrite <-Hs. split; by eexists.
    + simpl. intros l Hloop. rewrite Hloop. destruct (Hl l Hloop) as (Hc & Hv & Hi). split_and!; [done| |done].
      intros c1 v1 [= <- <-]. specialize (Hv c' v eq_refl). lia.
Qed.

Lemma new_consistent config : consistent config (new config).
Proof. split_and!; [done| |done]. simpl. by rewrite fmap_is_Some. Qed.
Lemma run_consistent config os s : consistent config s → consistent config (run os s).
Proof.
  unfold run. revert s. induction os as [|o os IH]; intros s Hs; simpl; [done|].
  by apply IH, exec_consistent.
Qed.

(** Calls while the loop runs. *)
Definition changes_only (os : list op) : Prop := ∀ o, o ∈ os → o ≠ Start ∧ o ≠ Stop.

Lemma last_update_app os o :
  last_update (os ++ [o]) = match o with Update i => Some i | _ => last_update os end.
Proof.
  unfold last_update. rewrite omap_app. destruct o; csimpl; rewrite ?app_nil_r; [done..|]. apply last_snoc.
Qed.

Lemma running_follows os s config l c0 :
  changes_only os → consistent (Some config) s → loop s = Some l →
  sync_config_sender s = Some (c0, seen l) →
  let s' := run os s in
  ∃ l' c v, loop s' = Some l' ∧ sync_config_sender s' = Some (c, v) ∧
    match last_update os with
    | None => l' = l ∧ v = seen l
    | Some i => c = config_of i ∧ (seen l' = v → l' = intervals c v)
    end.
Proof.
  intros Hos Hs Hl Hsc. cbv zeta. unfold run.
  induction os as [|o os IH] using rev_ind; [by exists l, c0, (seen l)|].
  rewrite foldl_app, last_update_app. simpl.
  destruct IH as (l' & c & v & Hl' & Hsc' & Hc).
  { intros o' Ho'. apply Hos, elem_of_app. by left. }
  destruct (Hos o) as [H1 H2]; [apply elem_of_app; right; by left|].
  assert (Hcons : consistent (Some config) (run os s)) by (by apply run_consistent).
  unfold run in Hcons. set (s1 := foldl _ s os) in *. destruct o as [| | |i]; [done|done| |].
  - simpl. unfold config_changed. rewrite Hl', Hsc'. case_decide as Hseen; [by exists l', c, v|].
    exists (intervals c v), c, v. split_and!; try done.
    destruct (last_update os); [by destruct Hc|]. destruct Hc as [-> ->]. done.
  - simpl. unfold update_sync_intervals, set_background_sync_config. simpl. rewrite Hsc'. simpl.
    rewrite Hl'. exists l', (config_of i), (Datatypes.S v). split_and!; try done. intros Hseen. exfalso.
    destruct Hcons as (_ & _ & Hl2). destruct (Hl2 l' Hl') as (_ & Hle & _).
    specialize (Hle c v Hsc'). lia.
Qed.

(** Whatever was configured before, a starting loop runs with the intervals the node was
    built with, although [current_sync_intervals] reports the last update; an update while
    it runs takes effect as soon as the loop sees it, and no interval is ever below the
    minimum. *)
Theorem sync_intervals_follow config os s1 os' :
  let s := run os (new (Some config)) in
  loop s = None → start_loop s = Ok s1 → changes_only os' →
  let s2 := config_changed (run os' s1) in
  loop s1 = Some (intervals config (from_option snd 0%nat (sync_config_sender s))) ∧
  current_sync_intervals s1 = default default_intervals (last_update os) ∧
  (∃ version, loop s2 = Some (intervals (from_option config_of config (last_update os')) version)) ∧
  (∀ l, loop (run os' s1) = Some l → 10 ≤ onchain_wallet_sync_interval l ∧
     10 ≤ lightning_wallet_sync_interval l ∧ 10 ≤ fee_rate_update_interval l).
Proof.
  intros s Hloop Hst Hos'. cbv zeta.
  assert (Hs : consistent (Some config) s) by (apply run_consistent, new_consistent).
  assert (Hs1 : consistent (Some config) s1).
  { pose proof (exec_consistent _ Start s Hs) as H. simpl in H. by rewrite Hst in H. }
  assert (Hcur : current_sync_intervals s = default default_intervals (last_update os)).
  { unfold s, run. clear. induction os as [|o os IH] using rev_ind; [done|].
    rewrite foldl_app, last_update_app. simpl. set (s := foldl _ _ os) in *. destruct o as [| | |i]; simpl.
    - unfold start_loop. destruct (background_sync_config s); [|done]. by destruct (sync_config_sender s) as [[]|].
    - done.
    - unfold config_changed. destruct (loop s), (sync_config_sender s) as [[]|]; try done. by case_decide.
    - unfold update_sync_intervals, set_background_sync_config. simpl. by destruct (sync_config_sender s) as [[]|]. }
  destruct Hs as (Hb & Hsend & _). unfold start_loop in Hst. rewrite Hb in Hst.
  destruct (sync_config_sender s) as [[c0 v0]|] eqn:Hsc; [|done]. injection Hst as <-.
  split_and!; [done|done| |].
  - destruct (running_follows os' (set_loop (Some (intervals config v0)) s) config
      (intervals config v0) c0 Hos' Hs1 eq_refl Hsc) as (l' & c & v & Hl' & Hsc' & Hc).
    unfold config_changed. rewrite Hl', Hsc'. destruct (last_update os') as [i|].
    + destruct Hc as [-> Heff]. exists v. case_decide as Hseen; [|done]. by rewrite Hl', Heff.
    + destruct Hc as [-> ->]. exists v0. by rewrite decide_True.
  - intros l Hl. destruct (run_consistent _ os' _ Hs1) as (_ & _ & Hcons).
    destruct (Hcons l Hl) as (_ & _ & c & ->). simpl. unfold WALLET_SYNC_INTERVAL_MINIMUM_SECS. lia.
Qed.
End SyncLoop.
