(* ===== verification/PaymentStore.v ===== *)
(** * Payment records ([src/payment/store.rs])

    The payment data, how an update is merged into a record, how a record is
    turned into an update, the TLV layout of a record with its migration from the
    v0.2.1 layout, and the instance of the generic store for payments. *)

From S2P Require Import Prelude Errors KVStore HexUtils DataStore Types.

Inductive PaymentDirection := Inbound | Outbound.

#[global] Instance PaymentDirection_eq_dec : EqDecision PaymentDirection.
Proof. solve_decision. Defined.

Inductive PaymentStatus := Pending | Succeeded | Failed.

#[global] Instance PaymentStatus_eq_dec : EqDecision PaymentStatus.
Proof. solve_decision. Defined.

Inductive ConfirmationStatus :=
| Confirmed (block_hash : BlockHash) (height timestamp : Z)
| Unconfirmed.

#[global] Instance ConfirmationStatus_eq_dec : EqDecision ConfirmationStatus.
Proof. solve_decision. Defined.

Record LSPFeeLimits := {
  max_total_opening_fee_msat : option Z;
  max_proportional_opening_fee_ppm_msat : option Z;
}.

#[global] Instance LSPFeeLimits_eq_dec : EqDecision LSPFeeLimits.
Proof. solve_decision. Defined.

Inductive PaymentKind :=
| Onchain (txid : Txid) (status : ConfirmationStatus)
| Bolt11 (hash : PaymentHash) (preimage : option PaymentPreimage)
    (secret : option PaymentSecret) (description bolt11 : option string)
| Bolt11Jit (hash : PaymentHash) (preimage : option PaymentPreimage)
    (secret : option PaymentSecret) (counterparty_skimmed_fee_msat : option Z)
    (lsp_fee_limits : LSPFeeLimits) (description bolt11 : option string)
| Bolt12Offer (hash : option PaymentHash) (preimage : option PaymentPreimage)
    (secret : option PaymentSecret) (offer_id : OfferId)
    (payer_note : option string) (quantity : option Z)
| Bolt12Refund (hash : option PaymentHash) (preimage : option PaymentPreimage)
    (secret : option PaymentSecret) (payer_note : option string) (quantity : option Z)
| Spontaneous (hash : PaymentHash) (preimage : option PaymentPreimage).

#[global] Instance PaymentKind_eq_dec : EqDecision PaymentKind.
Proof. solve_decision. Defined.

Record PaymentDetails := mkPaymentDetails {
  id : PaymentId;
  kind : PaymentKind;
  amount_msat : option Z;
  fee_paid_msat : option Z;
  direction : PaymentDirection;
  status : PaymentStatus;
  latest_update_timestamp : Z;
}.

#[global] Instance PaymentDetails_eq_dec : EqDecision PaymentDetails.
Proof. solve_decision. Defined.

(** [PaymentDetails::new]; [now] is the system clock in seconds. *)
Definition new_payment (now : Z) (id : PaymentId) (kind : PaymentKind)
    (amount_msat fee_paid_msat : option Z) (direction : PaymentDirection)
    (status : PaymentStatus) : PaymentDetails :=
  {| id := id; kind := kind; amount_msat := amount_msat; fee_paid_msat := fee_paid_msat;
     direction := direction; status := status; latest_update_timestamp := now |}.

Record PaymentDetailsUpdate := mkPaymentDetailsUpdate {
  u_id : PaymentId;
  u_hash : option (option PaymentHash);
  u_preimage : option (option PaymentPreimage);
  u_secret : option (option PaymentSecret);
  u_amount_msat : option (option Z);
  u_fee_paid_msat : option (option Z);
  u_counterparty_skimmed_fee_msat : option (option Z);
  u_direction : option PaymentDirection;
  u_status : option PaymentStatus;
  u_confirmation_status : option ConfirmationStatus;
}.

(** [PaymentDetailsUpdate::new] *)
Definition empty_update (id : PaymentId) : PaymentDetailsUpdate :=
  mkPaymentDetailsUpdate id None None None None None None None None None.

(** [impl From<&PaymentDetails> for PaymentDetailsUpdate] *)
Definition payment_to_update (value : PaymentDetails) : PaymentDetailsUpdate :=
  let '(hash, preimage, secret) :=
    match kind value with
    | Bolt11 hash preimage secret _ _ => (Some hash, preimage, secret)
    | Bolt11Jit hash preimage secret _ _ _ _ => (Some hash, preimage, secret)
    | Bolt12Offer hash preimage secret _ _ _ => (hash, preimage, secret)
    | Bolt12Refund hash preimage secret _ _ => (hash, preimage, secret)
    | Spontaneous hash preimage => (Some hash, preimage, None)
    | _ => (None, None, None)
    end in
  let confirmation_status :=
    match kind value with Onchain _ status => Some status | _ => None end in
  let counterparty_skimmed_fee_msat :=
    match kind value with Bolt11Jit _ _ _ fee _ _ _ => Some fee | _ => None end in
  {| u_id := id value;
     u_hash := Some hash;
     u_preimage := Some preimage;
     u_secret := Some secret;
     u_amount_msat := Some (amount_msat value);
     u_fee_paid_msat := Some (fee_paid_msat value);
     u_counterparty_skimmed_fee_msat := counterparty_skimmed_fee_msat;
     u_direction := Some (direction value);
     u_status := Some (status value);
     u_confirmation_status := confirmation_status |}.

(** ** [PaymentDetails::update]

    The macro [update_if_necessary!]: the assignment, and the [updated] flag. *)
Definition update_if_necessary {A} `{EqDecision A} (val new : A) (updated : bool) :
    A * bool :=
  if decide (val ≠ new) then (new, true) else (val, updated).

(** The three [match self.kind] blocks, and the two of the skimmed fee and the
    confirmation status. *)
Definition update_hash (hash_opt : option PaymentHash) (k : PaymentKind) (updated : bool) :
    PaymentKind * bool :=
  match k with
  | Bolt12Offer hash preimage secret offer_id note quantity =>
      let '(hash, updated) := update_if_necessary hash hash_opt updated in
      (Bolt12Offer hash preimage secret offer_id note quantity, updated)
  | Bolt12Refund hash preimage secret note quantity =>
      let '(hash, updated) := update_if_necessary hash hash_opt updated in
      (Bolt12Refund hash preimage secret note quantity, updated)
  | _ => (k, updated)
  end.

Definition update_preimage (preimage_opt : option PaymentPreimage) (k : PaymentKind)
    (updated : bool) : PaymentKind * bool :=
  match k with
  | Bolt11 hash preimage secret description bolt11 =>
      let '(preimage, updated) := update_if_necessary preimage preimage_opt updated in
      (Bolt11 hash preimage secret description bolt11, updated)
  | Bolt11Jit hash preimage secret fee limits description bolt11 =>
      let '(preimage, updated) := update_if_necessary preimage preimage_opt updated in
      (Bolt11Jit hash preimage secret fee limits description bolt11, updated)
  | Bolt12Offer hash preimage secret offer_id note quantity =>
      let '(preimage, updated) := update_if_necessary preimage preimage_opt updated in
      (Bolt12Offer hash preimage secret offer_id note quantity, updated)
  | Bolt12Refund hash preimage secret note quantity =>
      let '(preimage, updated) := update_if_necessary preimage preimage_opt updated in
      (Bolt12Refund hash preimage secret note quantity, updated)
  | Spontaneous hash preimage =>
      let '(preimage, updated) := update_if_necessary preimage preimage_opt updated in
      (Spontaneous hash preimage, updated)
  | _ => (k, updated)
  end.

Definition update_secret (secret_opt : option PaymentSecret) (k : PaymentKind)
    (updated : bool) : PaymentKind * bool :=
  match k with
  | Bolt11 hash preimage secret description bolt11 =>
      let '(secret, updated) := update_if_necessary secret secret_opt updated in
      (Bolt11 hash preimage secret description bolt11, updated)
  | Bolt11Jit hash preimage secret fee limits description bolt11 =>
      let '(secret, updated) := update_if_necessary secret secret_opt updated in
      (Bolt11Jit hash preimage secret fee limits description bolt11, updated)
  | Bolt12Offer hash preimage secret offer_id note quantity =>
      let '(secret, updated) := update_if_necessary secret secret_opt updated in
      (Bolt12Offer hash preimage secret offer_id note quantity, updated)
  | Bolt12Refund hash preimage secret note quantity =>
      let '(secret, updated) := update_if_necessary secret secret_opt updated in
      (Bolt12Refund hash preimage secret note quantity, updated)
  | _ => (k, updated)
  end.

Definition update_skimmed_fee (skimmed_fee_msat : option Z) (k : PaymentKind)
    (updated : bool) : PaymentKind * bool :=
  match k with
  | Bolt11Jit hash preimage secret fee limits description bolt11 =>
      let '(fee, updated) := update_if_necessary fee skimmed_fee_msat updated in
      (Bolt11Jit hash preimage secret fee limits description bolt11, updated)
  | _ => (k, updated)
  end.

Definition update_confirmation_status (confirmation_status : ConfirmationStatus)
    (k : PaymentKind) (updated : bool) : PaymentKind * bool :=
  match k with
  | Onchain txid status =>
      let '(status, updated) := update_if_necessary status confirmation_status updated in
      (Onchain txid status, updated)
  | _ => (k, updated)
  end.

(** [if let Some(x) = opt { body }] on a value and the flag. *)
Definition if_some {A B} (opt : option A) (body : A → B → bool → B * bool)
    (val : B) (updated : bool) : B * bool :=
  match opt with Some x => body x val updated | None => (val, updated) end.

(** Direction never goes from [Outbound] to [Inbound]. *)
Definition update_direction (new cur : PaymentDirection) (updated : bool) :
    PaymentDirection * bool :=
  let downgrade := bool_decide (cur = Outbound) && bool_decide (new = Inbound) in
  if downgrade then (cur, updated) else update_if_necessary cur new updated.

Definition assign {A} `{EqDecision A} (new cur : A) (updated : bool) : A * bool :=
  update_if_necessary cur new updated.

Definition payment_update (now : Z) (self : PaymentDetails) (update : PaymentDetailsUpdate) :
    PaymentDetails * bool :=
  let updated := false in
  let k := kind self in
  let '(k, updated) := if_some (u_hash update) update_hash k updated in
  let '(k, updated) := if_some (u_preimage update) update_preimage k updated in
  let '(k, updated) := if_some (u_secret update) update_secret k updated in
  let '(amount, updated) := if_some (u_amount_msat update) assign (amount_msat self) updated in
  let '(fee, updated) := if_some (u_fee_paid_msat update) assign (fee_paid_msat self) updated in
  let '(k, updated) :=
    if_some (u_counterparty_skimmed_fee_msat update) update_skimmed_fee k updated in
  let '(st, updated) := if_some (u_status update) assign (status self) updated in
  let '(k, updated) :=
    if_some (u_confirmation_status update) update_confirmation_status k updated in
  let '(dir, updated) := if_some (u_direction update) update_direction (direction self) updated in
  ({| id := id self; kind := k; amount_msat := amount; fee_paid_msat := fee;
      direction := dir; status := st;
      latest_update_timestamp :=
        if updated then now else latest_update_timestamp self |}, updated).

(** ** What an update does

    The same merge written declaratively: each field takes the update's value
    where there is one and the kind has the field, and direction only moves
    towards [Outbound]. *)
Definition merge_kind (u : PaymentDetailsUpdate) (k : PaymentKind) : PaymentKind :=
  match k with
  | Onchain txid status => Onchain txid (default status (u_confirmation_status u))
  | Bolt11 hash preimage secret description bolt11 =>
      Bolt11 hash (default preimage (u_preimage u)) (default secret (u_secret u))
        description bolt11
  | Bolt11Jit hash preimage secret fee limits description bolt11 =>
      Bolt11Jit hash (default preimage (u_preimage u)) (default secret (u_secret u))
        (default fee (u_counterparty_skimmed_fee_msat u)) limits description bolt11
  | Bolt12Offer hash preimage secret offer_id note quantity =>
      Bolt12Offer (default hash (u_hash u)) (default preimage (u_preimage u))
        (default secret (u_secret u)) offer_id note quantity
  | Bolt12Refund hash preimage secret note quantity =>
      Bolt12Refund (default hash (u_hash u)) (default preimage (u_preimage u))
        (default secret (u_secret u)) note quantity
  | Spontaneous hash preimage => Spontaneous hash (default preimage (u_preimage u))
  end.

Definition merge_direction (new : option PaymentDirection) (cur : PaymentDirection) :
    PaymentDirection :=
  match new with Some Outbound => Outbound | _ => cur end.

(** The merged record, before its timestamp is touched. *)
Definition merge (u : PaymentDetailsUpdate) (p : PaymentDetails) : PaymentDetails :=
  {| id := id p; kind := merge_kind u (kind p);
     amount_msat := default (amount_msat p) (u_amount_msat u);
     fee_paid_msat := default (fee_paid_msat p) (u_fee_paid_msat u);
     direction := merge_direction (u_direction u) (direction p);
     status := default (status p) (u_status u);
     latest_update_timestamp := latest_update_timestamp p |}.

Definition touch (now : Z) (p : PaymentDetails) : PaymentDetails :=
  {| id := id p; kind := kind p; amount_msat := amount_msat p;
     fee_paid_msat := fee_paid_msat p; direction := direction p; status := status p;
     latest_update_timestamp := now |}.

(** The [updated] flag after a field went from [old] to [new]. *)
Definition or_ne {A} `{EqDecision A} (updated : bool) (old new : A) : bool :=
  updated || bool_decide (old ≠ new).

Lemma or_ne_refl {A} `{EqDecision A} updated (x : A) : or_ne updated x x = updated.
Proof. unfold or_ne. by rewrite bool_decide_eq_false_2, orb_false_r by auto. Qed.

Lemma or_ne_false {A} `{EqDecision A} updated (x y : A) :
  or_ne updated x y = false ↔ updated = false ∧ x = y.
Proof.
  unfold or_ne. rewrite orb_false_iff, bool_decide_eq_false.
  split; intros [? ?]; (split; [done|]); [by apply dec_stable|auto].
Qed.

Lemma eq_iff_eq_false (b b' : bool) : (b = false ↔ b' = false) → b = b'.
Proof. destruct b, b'; naive_solver. Qed.

Lemma or_ne_ext {A B} `{EqDecision A, EqDecision B} updated (x y : A) (x' y' : B) :
  (x = y ↔ x' = y') → or_ne updated x y = or_ne updated x' y'.
Proof. intros Hiff. apply eq_iff_eq_false. rewrite !or_ne_false. tauto. Qed.

Lemma update_if_necessary_eq {A} `{EqDecision A} (val new : A) updated :
  update_if_necessary val new updated = (new, or_ne updated val new).
Proof.
  unfold update_if_necessary. case_decide as Hne; subst.
  - unfold or_ne. by rewrite bool_decide_eq_true_2, orb_true_r.
  - by rewrite or_ne_refl.
Qed.

Lemma if_some_assign {A} `{EqDecision A} (opt : option A) val updated :
  if_some opt assign val updated = (default val opt, or_ne updated val (default val opt)).
Proof.
  destruct opt; simpl; [apply update_if_necessary_eq|]. by rewrite or_ne_refl.
Qed.

Lemma if_some_direction (opt : option PaymentDirection) cur updated :
  if_some opt update_direction cur updated
    = (merge_direction opt cur, or_ne updated cur (merge_direction opt cur)).
Proof. by destruct opt as [[]|], cur, updated. Qed.

(** One block on [self.kind] at a time. *)
Definition with_hash (o : option (option PaymentHash)) : PaymentKind → PaymentKind :=
  merge_kind (mkPaymentDetailsUpdate [] o None None None None None None None None).
Definition with_preimage (o : option (option PaymentPreimage)) :=
  merge_kind (mkPaymentDetailsUpdate [] None o None None None None None None None).
Definition with_secret (o : option (option PaymentSecret)) :=
  merge_kind (mkPaymentDetailsUpdate [] None None o None None None None None None).
Definition with_skimmed_fee (o : option (option Z)) :=
  merge_kind (mkPaymentDetailsUpdate [] None None None None None o None None None).
Definition with_confirmation (o : option ConfirmationStatus) :=
  merge_kind (mkPaymentDetailsUpdate [] None None None None None None None None o).

Ltac solve_kind_step :=
  simpl; rewrite ?update_if_necessary_eq, ?or_ne_refl; try done;
  f_equal; apply or_ne_ext; split; congruence.

Lemma if_some_hash o k b :
  if_some o update_hash k b = (with_hash o k, or_ne b k (with_hash o k)).
Proof. destruct o, k; solve_kind_step. Qed.

Lemma if_some_preimage o k b :
  if_some o update_preimage k b = (with_preimage o k, or_ne b k (with_preimage o k)).
Proof. destruct o, k; solve_kind_step. Qed.

Lemma if_some_secret o k b :
  if_some o update_secret k b = (with_secret o k, or_ne b k (with_secret o k)).
Proof. destruct o, k; solve_kind_step. Qed.

Lemma if_some_skimmed_fee o k b :
  if_some o update_skimmed_fee k b = (with_skimmed_fee o k, or_ne b k (with_skimmed_fee o k)).
Proof. destruct o, k; solve_kind_step. Qed.

Lemma if_some_confirmation o k b :
  if_some o update_confirmation_status k b
    = (with_confirmation o k, or_ne b k (with_confirmation o k)).
Proof. destruct o, k; solve_kind_step. Qed.

(** The blocks touch different fields, so together they produce the merged kind,
    and it differs from the old one exactly if one of them changed something. *)
Lemma merge_kind_steps u k :
  merge_kind u k =
  with_confirmation (u_confirmation_status u)
    (with_skimmed_fee (u_counterparty_skimmed_fee_msat u)
      (with_secret (u_secret u) (with_preimage (u_preimage u) (with_hash (u_hash u) k)))).
Proof. by destruct k. Qed.

Lemma merge_kind_changed u k :
  merge_kind u k = k ↔
  let k1 := with_hash (u_hash u) k in
  let k2 := with_preimage (u_preimage u) k1 in
  let k3 := with_secret (u_secret u) k2 in
  let k4 := with_skimmed_fee (u_counterparty_skimmed_fee_msat u) k3 in
  k = k1 ∧ k1 = k2 ∧ k2 = k3 ∧ k3 = k4 ∧
  k4 = merge_kind u k.
Proof.
  unfold with_hash, with_preimage, with_secret, with_skimmed_fee, with_confirmation.
  destruct k; simpl; (split; [intros Heq; injection Heq; intros; repeat split; congruence|];
    intros (? & ? & ? & ? & ?); congruence).
Qed.

Lemma merge_id_iff u p :
  merge u p = p ↔
  merge_kind u (kind p) = kind p ∧
  default (amount_msat p) (u_amount_msat u) = amount_msat p ∧
  default (fee_paid_msat p) (u_fee_paid_msat u) = fee_paid_msat p ∧
  merge_direction (u_direction u) (direction p) = direction p ∧
  default (status p) (u_status u) = status p.
Proof.
  destruct p as [i k a f d s ts]; unfold merge; simpl. split; [intros; by simplify_eq/=|].
  intros (-> & -> & -> & -> & ->). done.
Qed.

(** [payment_update] is the declarative merge: the flag says whether any field
    changed, and the timestamp moves exactly then. *)
Lemma payment_update_merge now p u :
  payment_update now p u =
    (if bool_decide (merge u p = p) then p else touch now (merge u p),
     negb (bool_decide (merge u p = p))).
Proof.
  unfold payment_update.
  rewrite if_some_hash, if_some_preimage, if_some_secret, !if_some_assign,
    if_some_skimmed_fee, if_some_assign, if_some_confirmation, if_some_direction.
  rewrite <- merge_kind_steps.
  match goal with |- context [if ?f then now else _] =>
    assert (f = negb (bool_decide (merge u p = p))) as -> end.
  { apply eq_iff_eq_false. rewrite negb_false_iff, bool_decide_eq_true, !or_ne_false.
    rewrite merge_id_iff, merge_kind_changed. cbv zeta.
    split; intros; destruct_and?; repeat split; by symmetry || done. }
  case_bool_decide as Heq; simpl; [|done].
  apply merge_id_iff in Heq as (-> & -> & -> & -> & ->). by destruct p.
Qed.

Lemma payment_update_eq now p u p' b :
  payment_update now p u = (p', b) →
  (b = false ∧ p' = p ∧ merge u p = p) ∨
  (b = true ∧ p' = touch now (merge u p) ∧ merge u p ≠ p).
Proof. rewrite payment_update_merge. case_bool_decide; intros; simplify_eq/=; auto. Qed.

(** What an update never changes: which kind of payment it is and the data that
    identifies it. *)
Definition kind_identity (k : PaymentKind) : PaymentKind :=
  match k with
  | Onchain txid _ => Onchain txid Unconfirmed
  | Bolt11 hash _ _ description bolt11 => Bolt11 hash None None description bolt11
  | Bolt11Jit hash _ _ _ limits description bolt11 =>
      Bolt11Jit hash None None None limits description bolt11
  | Bolt12Offer _ _ _ offer_id note quantity => Bolt12Offer None None None offer_id note quantity
  | Bolt12Refund _ _ _ note quantity => Bolt12Refund None None None note quantity
  | Spontaneous hash _ => Spontaneous hash None
  end.

Lemma merge_kind_identity u k : kind_identity (merge_kind u k) = kind_identity k.
Proof. by destruct k. Qed.

Lemma merge_kind_idem u k : merge_kind u (merge_kind u k) = merge_kind u k.
Proof.
  destruct k; simpl; f_equal;
    repeat match goal with |- default (default _ ?o) ?o = _ => by destruct o end.
Qed.

Lemma merge_direction_idem o d :
  merge_direction o (merge_direction o d) = merge_direction o d.
Proof. by destruct o as [[]|]. Qed.

Lemma merge_touch_idem now u p : merge u (touch now (merge u p)) = touch now (merge u p).
Proof.
  apply merge_id_iff; simpl.
  rewrite merge_kind_idem, merge_direction_idem.
  repeat split; by match goal with |- default (default _ ?o) ?o = _ => destruct o end.
Qed.

Lemma merge_self p : merge (payment_to_update p) p = p.
Proof. destruct p as [i [] a f [] s ts]; done. Qed.

(** The effect of a sequence of updates, each at its own time. *)
Definition apply_updates (us : list (Z * PaymentDetailsUpdate)) (p : PaymentDetails) :
    PaymentDetails :=
  foldl (λ p '(now, u), (payment_update now p u).1) p us.

(** C39. [PaymentDetails::update] merges the fields the update carries into the
    record, reports [true] exactly when this changes something other than the
    timestamp, and moves the timestamp exactly then. *)
Theorem payment_update_correct now p u p' updated :
  payment_update now p u = (p', updated) →
  (updated = true ↔ merge u p ≠ p) ∧
  p' = (if updated then touch now (merge u p) else p).
Proof.
  intros [(-> & -> & ?)|(-> & -> & ?)]%payment_update_eq; done.
Qed.

(** An outbound keysend payment, and the observation that it was claimed. *)
Definition example_payment : PaymentDetails :=
  new_payment 7 [] (Spontaneous [] None) (Some 1000) None Outbound Pending.
Definition example_claimed : PaymentDetailsUpdate := {|
  u_id := []; u_hash := None; u_preimage := Some (Some []); u_secret := None;
  u_amount_msat := None; u_fee_paid_msat := Some (Some 3);
  u_counterparty_skimmed_fee_msat := None; u_direction := None;
  u_status := Some Succeeded; u_confirmation_status := None |}.

Lemma payment_update_correct_witness :
  (payment_update 9 example_payment example_claimed).1 =
    touch 9 (merge example_claimed example_payment) ∧
  latest_update_timestamp (payment_update 9 example_payment example_claimed).1 = 9.
Proof.
  refine (conj _ eq_refl).
  exact (proj2 (payment_update_correct 9 example_payment example_claimed _ true eq_refl)).
Defined.

(** Whatever updates arrive, a payment keeps its id, its kind and the data
    identifying it (txid, invoice, offer), and one that was seen as outbound is
    never turned back into an inbound one. *)
Theorem updates_preserve_identity us p :
  id (apply_updates us p) = id p ∧
  kind_identity (kind (apply_updates us p)) = kind_identity (kind p) ∧
  (direction p = Outbound → direction (apply_updates us p) = Outbound).
Proof.
  revert p. induction us as [|[now u] us IH]; intros p; [done|]. simpl.
  destruct (IH (payment_update now p u).1) as (-> & -> & Hdir).
  destruct (payment_update now p u) as [p' b] eqn:Hu; simpl in *.
  apply payment_update_eq in Hu as [(-> & -> & _)|(-> & -> & _)]; simpl in *.
  - done.
  - rewrite merge_kind_identity. repeat split. intros Ho. apply Hdir.
    by rewrite Ho; destruct (u_direction u) as [[]|].
Qed.

(** Updates are idempotent, and an update made from a record changes nothing
    in that record: re-delivering an observation is reported as no change. *)
Theorem update_idempotent now now' p u :
  payment_update now' (payment_update now p u).1 u = ((payment_update now p u).1, false) ∧
  payment_update now p (payment_to_update p) = (p, false).
Proof.
  split.
  - destruct (payment_update now p u) as [p' b] eqn:Hu; simpl.
    apply payment_update_eq in Hu as [(-> & -> & Hm)|(-> & -> & Hm)];
      rewrite payment_update_merge.
    + by rewrite bool_decide_eq_true_2.
    + rewrite bool_decide_eq_true_2; [done|]. apply merge_touch_idem.
  - rewrite payment_update_merge. by rewrite bool_decide_eq_true_2 by apply merge_self.
Qed.

(** ** The stored form of a payment

    [write_tlv_fields!] and [_init_and_read_len_prefixed_tlv_fields!] turn the
    numbered fields below into bytes and back; the byte format is LDK's.  A field
    is absent when its type does not occur in the stream. *)
Record PaymentTlv := {
  tlv0_id : option PaymentId;
  tlv1_lsp_fee_limits : option LSPFeeLimits;
  tlv2_preimage : option (option PaymentPreimage);
  tlv3_kind : option PaymentKind;
  tlv4_secret : option (option PaymentSecret);
  tlv5_latest_update_timestamp : option Z;
  tlv6_amount_msat : option (option Z);
  tlv7_fee_paid_msat : option Z;
  tlv8_direction : option PaymentDirection;
  tlv10_status : option PaymentStatus;
}.

(** [lightning::ln::msgs::DecodeError], the variants the node returns. *)
Inductive DecodeError := InvalidValue | UnknownVersion | ShortRead.

#[global] Instance DecodeError_eq_dec : EqDecision DecodeError.
Proof. solve_decision. Defined.

(** [impl Writeable for PaymentDetails] *)
Definition write_payment (p : PaymentDetails) : PaymentTlv := {|
  tlv0_id := Some (id p);
  tlv1_lsp_fee_limits := None;
  tlv2_preimage := Some None;
  tlv3_kind := Some (kind p);
  tlv4_secret := Some None;
  tlv5_latest_update_timestamp := Some (latest_update_timestamp p);
  tlv6_amount_msat := Some (amount_msat p);
  tlv7_fee_paid_msat := fee_paid_msat p;
  tlv8_direction := Some (direction p);
  tlv10_status := Some (status p);
|}.

(** [impl Readable for PaymentDetails]; [unix_time_secs] is the clock. *)
Definition read_payment (unix_time_secs : Z) (t : PaymentTlv) :
    outcome DecodeError PaymentDetails :=
  id ← ok_or (tlv0_id t) InvalidValue;
  preimage ← ok_or (tlv2_preimage t) InvalidValue;
  secret ← ok_or (tlv4_secret t) InvalidValue;
  let latest_update_timestamp := default unix_time_secs (tlv5_latest_update_timestamp t) in
  amount_msat ← ok_or (tlv6_amount_msat t) InvalidValue;
  direction ← ok_or (tlv8_direction t) InvalidValue;
  status ← ok_or (tlv10_status t) InvalidValue;
  let kind :=
    match tlv3_kind t with
    | Some kind => kind
    | None =>
        let hash := id in
        match secret with
        | Some _ =>
            match tlv1_lsp_fee_limits t with
            | Some lsp_fee_limits =>
                Bolt11Jit hash preimage secret None lsp_fee_limits None None
            | None => Bolt11 hash preimage secret None None
            end
        | None => Spontaneous hash preimage
        end
    end in
  Ok {| id := id; kind := kind; amount_msat := amount_msat;
        fee_paid_msat := tlv7_fee_paid_msat t; direction := direction; status := status;
        latest_update_timestamp := latest_update_timestamp |}.

(** A record as v0.2.1 wrote it: no kind, no timestamp, no fee. *)
Definition is_v021 (t : PaymentTlv) : Prop :=
  tlv3_kind t = None ∧ tlv5_latest_update_timestamp t = None ∧
  tlv7_fee_paid_msat t = None ∧
  is_Some (tlv0_id t) ∧ is_Some (tlv2_preimage t) ∧ is_Some (tlv4_secret t) ∧
  is_Some (tlv6_amount_msat t) ∧ is_Some (tlv8_direction t) ∧ is_Some (tlv10_status t).

(** The secret a kind holds, where it has one. *)
Definition kind_secret (k : PaymentKind) : option PaymentSecret :=
  match k with
  | Bolt11 _ _ secret _ _ | Bolt11Jit _ _ secret _ _ _ _ => secret
  | _ => None
  end.
Definition kind_preimage (k : PaymentKind) : option PaymentPreimage :=
  match k with
  | Bolt11 _ preimage _ _ _ | Bolt11Jit _ preimage _ _ _ _ _ | Spontaneous _ preimage =>
      preimage
  | _ => None
  end.

(** A payment survives being written and read back, at whatever time it is
    read; and a record in the v0.2.1 layout is read as a payment that keeps every
    field the old layout had, is written in the new layout, and then reads back
    unchanged. *)
Theorem payment_read_write :
  (∀ now p, read_payment now (write_payment p) = Ok p) ∧
  (∀ now now' t, is_v021 t → ∃ p,
     read_payment now t = Ok p ∧
     tlv0_id t = Some (id p) ∧ tlv2_preimage t = Some (kind_preimage (kind p)) ∧
     tlv4_secret t = Some (kind_secret (kind p)) ∧
     tlv6_amount_msat t = Some (amount_msat p) ∧
     tlv8_direction t = Some (direction p) ∧ tlv10_status t = Some (status p) ∧
     latest_update_timestamp p = now ∧
     read_payment now' (write_payment p) = Ok p).
Proof.
  split; [by intros now []|].
  intros now now' t (Hk & Hts & Hfee & [? H0] & [? H2] & [s H4] & [? H6] & [? H8] & [? H10]).
  unfold read_payment. rewrite Hk, Hts, Hfee, H0, H2, H4, H6, H8, H10. simpl.
  destruct s as [s|]; [destruct (tlv1_lsp_fee_limits t) as [l|]|];
    (eexists; split; [done|]; simpl; by repeat split).
Qed.

(** ** Payments in the generic store *)

Section payment_store.
(** The byte form of a TLV record, and that it is invertible. *)
Context (tlv_encode : PaymentTlv → bytes) (tlv_decode : bytes → option PaymentTlv).

Definition payment_id_to_hex_str (i : PaymentId) : string :=
  hex_utils.to_string (u8_to_Z <$> i).

#[local] Instance payment_storable :
    StorableObject PaymentDetails PaymentId PaymentDetailsUpdate := {
  so_id := id;
  so_update := payment_update;
  to_update := payment_to_update;
  update_id := u_id;
  encode_to_hex_str := payment_id_to_hex_str;
  so_encode p := tlv_encode (write_payment p);
  so_decode now bs := tlv_decode bs ≫= λ t, ok (read_payment now t);
}.

#[local] Instance payment_storable_spec :
  (∀ t, tlv_decode (tlv_encode t) = Some t) →
  StorableObjectSpec PaymentDetails PaymentId PaymentDetailsUpdate.
Proof.
  intros Htlv. split; simpl.
  - unfold payment_id_to_hex_str. intros i j Heq.
    apply u8s_to_Z_inj, hex_utils.to_string_inj; [| |done];
      apply Forall_fmap, Forall_true; intros b; apply u8_to_Z_range.
  - intros now p. rewrite Htlv. simpl. by destruct p.
  - intros now o u o' b [(_ & -> & _)|(_ & -> & _)]%payment_update_eq; done.
  - intros now o u o' [(_ & -> & _)|(? & _)]%payment_update_eq; done.
Qed.
End payment_store.
