(* ===== verification/Bdk.v ===== *)
(** * The interface of the [bitcoin] and [bdk_wallet] crates

    The aggregate wallet is written against these crates, which are not part of
    the repository.  Their values appear here as records of the fields the code
    reads, their operations as the fields of three classes, and what the code relies
    on as the laws of [BitcoinSpec], [BdkSpec] and [CoinSelectionSpec]. *)

From S2P Require Import Prelude Types.

(** Amounts are satoshis, weights are weight units, fee rates are satoshis per
    1000 weight units; all are [u64]. *)
Abbreviation Amount := Z (only parsing).
Abbreviation Weight := Z (only parsing).
Abbreviation FeeRate := Z (only parsing).

(** [Amount]'s [+] and [+=] abort on overflow. *)
Definition amount_add {E} (a b : Amount) : outcome E Amount := expect (checked_add64 a b).

Lemma amount_add_Ok {E} a b c : @amount_add E a b = Ok c ↔ a + b ≤ u64_max ∧ c = a + b.
Proof. unfold amount_add. rewrite expect_Ok. apply checked_add64_Some. Qed.

(** ** Values *)

Inductive KeychainKind := External | Internal.

#[global] Instance KeychainKind_eq_dec : EqDecision KeychainKind.
Proof. solve_decision. Defined.

(** [bdk_wallet::Balance] *)
Record Balance := mkBalance {
  confirmed : Amount;
  trusted_pending : Amount;
  untrusted_pending : Amount;
  immature : Amount;
}.

(** [bdk_chain::ChainPosition] *)
Inductive ChainPosition :=
| Confirmed (anchor : ConfirmationBlockTime) (transitively : option Txid)
| Unconfirmed (first_seen last_seen : option Z).

Definition is_confirmed (p : ChainPosition) : bool :=
  match p with Confirmed _ _ => true | Unconfirmed _ _ => false end.

(** [bdk_wallet::LocalOutput] *)
Record LocalOutput := mkLocalOutput {
  outpoint : OutPoint;
  txout : TxOut;
  keychain : KeychainKind;
  is_spent : bool;
  derivation_index : Z;
  utxo_position : ChainPosition;
}.

(** [bdk_wallet::WalletTx]: a canonical transaction of a wallet. *)
Record WalletTx := mkWalletTx {
  wtx_txid : Txid;
  wtx_tx : Transaction;
  chain_position : ChainPosition;
}.

(** [bdk_chain::CheckPoint], by what it answers: the tip, and the block it holds
    at a height. *)
Record CheckPoint := mkCheckPoint {
  cp_height : Z;
  cp_hash : BlockHash;
  cp_get : Z → option BlockId;
}.

(** [bitcoin::Address], by its text and the script it pays to. *)
Record Address := mkAddress { address_text : string; address_script : Script }.

Record AddressInfo := mkAddressInfo {
  ai_index : Z;
  ai_address : Address;
  ai_keychain : KeychainKind;
}.

(** [bitcoin::Block], as far as it is inspected. *)
Record Block := mkBlock { bh : BlockHash; prev_blockhash : BlockHash; txdata : list Transaction }.

(** [bitcoin::psbt::Input]; [rest] is the remainder of the input's key-value map,
    which only BDK reads. *)
Record PsbtInput := mkPsbtInput {
  witness_utxo : option TxOut;
  non_witness_utxo : option Transaction;
  final_script_sig : option Script;
  final_script_witness : option (list (list u8));
  rest : list (list u8 * list u8);
}.

Definition default_input : PsbtInput := {|
  witness_utxo := None; non_witness_utxo := None; final_script_sig := None;
  final_script_witness := None; rest := []
|}.

Record Psbt := mkPsbt { unsigned_tx : Transaction; psbt_inputs : list PsbtInput }.

(** [psbt::ExtractTxError]: the variant that still carries the transaction, and
    the others. *)
Inductive ExtractTxError :=
| MissingInputValue (tx : Transaction)
| OtherExtractError.

(** [bdk_wallet::error::CreateTxError], as far as it is distinguished. *)
Inductive CreateTxError := CoinSelectionError | OtherCreateTxError.

(** [bdk_wallet::WeightedUtxo] over local outputs. *)
Record WeightedUtxo := mkWeightedUtxo { satisfaction_weight : Weight; local : LocalOutput }.

(** What a call on [bdk_wallet::TxBuilder] asks for; a builder is the wallet it
    was made from and the calls made on it, oldest first. *)
Inductive BuilderCall :=
| FeeBump (txid : Txid)
| AddRecipient (script : Script) (amount : Amount)
| SetFeeRate (rate : FeeRate)
| FeeAbsolute (fee : Amount)
| NLockTime (lock_time : Z)
| AddUtxo (o : OutPoint)
| AddForeignUtxo (o : OutPoint) (i : PsbtInput) (w : Weight) (sequence : Z)
| ManuallySelectedOnly
| OnlyWitnessUtxo
| ExcludeUnconfirmed
| DrainWallet
| DrainTo (script : Script).

Abbreviation TxBuilder := (list BuilderCall).

(** [Sequence::ENABLE_RBF_NO_LOCKTIME] *)
Definition ENABLE_RBF_NO_LOCKTIME : Z := 0xFFFFFFFD.

(** [CoinSelectionAlgorithm] of [types.rs], which names the algorithms of
    [bdk_wallet::coin_selection]. *)
Inductive CoinSelectionAlgorithm :=
  BranchAndBound | LargestFirst | OldestFirst | SingleRandomDraw.

(** ** Operations of the [bitcoin] crate *)

Class Bitcoin := {
  compute_txid : Transaction → Txid;
  tx_weight : Transaction → Weight;
  txout_weight : TxOut → Weight;
  is_p2wpkh : Script → bool;
  is_p2tr : Script → bool;
  is_p2sh : Script → bool;
  witness_version : Script → option Z;
  (** [amount / weight] *)
  fee_rate_of : Amount → Weight → FeeRate;
  (** [rate.fee_wu(weight)] *)
  fee_wu : FeeRate → Weight → option Amount;
  to_vbytes_ceil : Weight → Z;
  to_sat_per_vb_ceil : FeeRate → Z;
  from_sat_per_vb : Z → option FeeRate;
  BROADCAST_MIN : FeeRate;
  (** [Psbt::from_unsigned_tx] *)
  from_unsigned_tx : Transaction → option Psbt;
  (** [Psbt::extract_tx] *)
  extract_tx : Psbt → Transaction + ExtractTxError;
}.

(** The documented behaviour the theorems use: [fee_wu] rounds up, dividing an
    amount by a weight rounds down, the conversions to virtual bytes round up, and
    PSBTs carry the transaction they were made from. *)
Class BitcoinSpec {BTC : Bitcoin} : Prop := {
  fee_wu_bounds : ∀ r w f,
    0 ≤ r → 0 ≤ w → fee_wu r w = Some f → r * w ≤ 1000 * f < r * w + 1000;
  fee_rate_of_floor : ∀ a w,
    0 ≤ a → 0 < w → a * 1000 ≤ u64_max → fee_rate_of a w = a * 1000 / w;
  to_vbytes_ceil_bounds : ∀ w, 0 ≤ w → w ≤ 4 * to_vbytes_ceil w < w + 4;
  to_sat_per_vb_ceil_bounds : ∀ r, 0 ≤ r → r ≤ 250 * to_sat_per_vb_ceil r < r + 250;
  from_sat_per_vb_Some : ∀ v r, from_sat_per_vb v = Some r → r = v * 250;
  BROADCAST_MIN_value : BROADCAST_MIN = 250;
  from_unsigned_tx_Some : ∀ tx p,
    from_unsigned_tx tx = Some p →
    unsigned_tx p = tx ∧ psbt_inputs p = replicate (length (input tx)) default_input;
  extract_tx_outpoints : ∀ p tx,
    extract_tx p = inl tx ∨ extract_tx p = inr (MissingInputValue tx) →
    output tx = output (unsigned_tx p) ∧
    (previous_output <$> input tx) = (previous_output <$> input (unsigned_tx p));
}.

(** ** Operations of a [PersistedWallet]

    [W] is the wallet, [P] its persister, [U] the chain updates it can apply and
    [Ev] the events it reports for them.  A [bool] result is [true] for [Ok]. *)

Class Bdk (W P U Ev : Type) := {
  (* queries *)
  balance_of : W → Balance;
  (** [balance().total()] *)
  balance_total : W → Amount;
  wallet_list_unspent : W → list LocalOutput;
  transactions : W → list WalletTx;
  get_tx : W → Txid → option WalletTx;
  get_utxo : W → OutPoint → option LocalOutput;
  wallet_is_mine : W → Script → bool;
  derivation_of_spk : W → Script → option (KeychainKind * Z);
  (** [public_descriptor(keychain).max_weight_to_satisfy().ok()] *)
  max_weight_to_satisfy : W → KeychainKind → option Weight;
  (** The inner script of the descriptor at an index, where there is one. *)
  explicit_script : W → KeychainKind → Z → option Script;
  peek_address : W → KeychainKind → Z → AddressInfo;
  latest_checkpoint : W → CheckPoint;
  wallet_sent_and_received : W → Transaction → Amount * Amount;
  wallet_calculate_fee : W → Transaction → option Amount;
  (** [tx_graph().full_txs()] *)
  full_txs : W → list (Txid * Transaction);
  lookahead : W → Z;
  wallet_derivation_index : W → KeychainKind → option Z;
  spk_at_index : W → KeychainKind → Z → option Script;
  revealed_spks : W → list (KeychainKind * Z * Script);
  (* mutations *)
  reveal_next_address : W → KeychainKind → W * AddressInfo;
  next_unused_address : W → KeychainKind → W * AddressInfo;
  wallet_reveal_addresses_to : W → KeychainKind → Z → W;
  wallet_cancel_tx : W → Transaction → W;
  wallet_apply_block : W → Block → Z → W * bool;
  apply_update_events : W → U → W * option (list Ev);
  apply_unconfirmed_txs : W → list (Transaction * Z) → W;
  apply_evicted_txs : W → list (Txid * Z) → W;
  wallet_persist : W → P → W * P * bool;
  (* building and signing *)
  (** What [sign] leaves in the PSBT; its result is only logged. *)
  wallet_sign : W → Psbt → Psbt;
  (** Whether [build_fee_bump] accepts the transaction. *)
  build_fee_bump : W → Txid → bool;
  (** Whether [add_utxo] and [add_foreign_utxo_with_sequence] accept the input. *)
  add_utxo : W → TxBuilder → OutPoint → bool;
  add_foreign_utxo : W → TxBuilder → OutPoint → PsbtInput → Weight → Z → bool;
  finish : W → TxBuilder → W * (Psbt + CreateTxError);
}.

(** What is relied on: lookups return what was asked for, signing only fills in
    input data, and building a transaction does not spend anything yet. *)
Class BdkSpec (W P U Ev : Type) {BDK : Bdk W P U Ev} : Prop := {
  get_utxo_outpoint : ∀ w o u, get_utxo w o = Some u → outpoint u = o;
  get_tx_txid : ∀ w t x, get_tx w t = Some x → wtx_txid x = t;
  sign_shape : ∀ w p,
    unsigned_tx (wallet_sign w p) = unsigned_tx p ∧
    length (psbt_inputs (wallet_sign w p)) = length (psbt_inputs p);
  finish_unspent : ∀ w b, wallet_list_unspent (finish w b).1 = wallet_list_unspent w;
}.

(** [bdk_wallet::coin_selection]: which candidates to spend for a target amount,
    and that they are candidates. *)
Class CoinSelection := {
  coin_select :
    CoinSelectionAlgorithm → list WeightedUtxo → FeeRate → Amount → Script →
    option (list LocalOutput);
}.
Class CoinSelectionSpec {CS : CoinSelection} : Prop := {
  coin_select_subset : ∀ a us r t s sel,
    coin_select a us r t s = Some sel → ∀ u, u ∈ sel → u ∈ local <$> us;
}.
