(* ===== verification/Json.v ===== *)
(** * JSON values and the answers of a full node ([src/chain/bitcoind.rs])

    [serde_json]'s values as far as the chain sources read them, and the conversion of the
    answers of Bitcoin Core. *)

From Stdlib Require Import Floats.SpecFloat.
From S2P Require Import Prelude Floats Types Bdk.

(** ** [serde_json] *)

Inductive number := PosInt (n : Z) | NegInt (n : Z) | Float (x : spec_float).

(** The keys of an object are distinct. *)
Inductive json :=
| JNull
| JBool (b : bool)
| JNumber (n : number)
| JString (s : string)
| JArray (l : list json)
| JObject (fields : list (string * json)).
Implicit Types (j : json).

Fixpoint find_field (key : string) (fields : list (string * json)) : option json :=
  match fields with
  | [] => None
  | (k, j) :: fields => if decide (k = key) then Some j else find_field key fields
  end.

(** [Value::get] *)
Definition get_field (key : string) j : option json :=
  match j with JObject fields => find_field key fields | _ => None end.
(** [value[key]] on a [Value] *)
Definition index_value (key : string) j : json := default JNull (get_field key j).
(** [map[key]] on a [Map], which panics without the key *)
Definition index_map {E} (key : string) (fields : list (string * json)) : outcome E json :=
  match find_field key fields with Some j => Ok j | None => Panic end.

Definition is_null j : bool := match j with JNull => true | _ => false end.
Definition as_str j : option string := match j with JString s => Some s | _ => None end.
Definition as_array j : option (list json) := match j with JArray l => Some l | _ => None end.
Definition as_object j : option (list (string * json)) :=
  match j with JObject fields => Some fields | _ => None end.
Definition as_u64 j : option Z := match j with JNumber (PosInt n) => Some n | _ => None end.
Definition as_i64 j : option Z :=
  match j with
  | JNumber (PosInt n) => if n <? 2 ^ 63 then Some n else None
  | JNumber (NegInt n) => Some n
  | _ => None
  end.
Definition as_f64 j : option spec_float :=
  match j with
  | JNumber (PosInt n) | JNumber (NegInt n) => Some (f64_of_Z n)
  | JNumber (Float x) => Some x
  | _ => None
  end.

(** ** Errors of the clients ([std::io::Error])

    The error inside, where there is one, by its type. *)

Inductive io_source :=
| RpcError (code : Z) (message : string)
| HttpError (status_code : string)
| OtherSource.

Record IoErr := mkIoErr { kind_is_other : bool; get_ref : option io_source }.

(** [std::io::Error::new(ErrorKind::Other, "..")] *)
Definition parse_error : IoErr := mkIoErr true (Some OtherSource).

(** ** Answers *)

Definition fee_rate_from_btc_per_kvbyte (x : spec_float) : FeeRate :=
  float_round_as_u64 (f64_mul x (f64_of_Z 25000000)).

(** [TryInto<FeeResponse>] *)
Definition fee_response j : outcome IoErr FeeRate :=
  if negb (is_null (index_value "errors" j)) then Err parse_error
  else
    fee_rate_btc_per_kvbyte ← ok_or (as_f64 (index_value "feerate" j)) parse_error;
    Ok (fee_rate_from_btc_per_kvbyte fee_rate_btc_per_kvbyte).

(** [TryInto<MempoolMinFeeResponse>] *)
Definition mempool_min_fee_response j : outcome IoErr FeeRate :=
  fee_rate_btc_per_kvbyte ← ok_or (as_f64 (index_value "mempoolminfee" j)) parse_error;
  Ok (fee_rate_from_btc_per_kvbyte fee_rate_btc_per_kvbyte).

Section answers.
(** [bitcoin::consensus::encode::deserialize_hex] and [Txid::from_str] *)
Context (deserialize_hex : string → option Transaction) (txid_from_str : string → option Txid).

(** [TryInto<GetRawTransactionResponse>] *)
Definition get_raw_transaction_response j : outcome IoErr Transaction :=
  s ← ok_or (as_str j) parse_error;
  ok_or (deserialize_hex s) parse_error.

Definition parse_txid j : outcome IoErr Txid :=
  hex_str ← ok_or (as_str j) parse_error;
  ok_or (txid_from_str hex_str) parse_error.

(** [TryInto<GetRawMempoolResponse>] *)
Definition get_raw_mempool_response j : outcome IoErr (list Txid) :=
  res ← ok_or (as_array j) parse_error;
  try_map parse_txid res.

(** [TryInto<GetMempoolEntryResponse>]: time and height *)
Definition get_mempool_entry_response j : outcome IoErr (Z * Z) :=
  res ← ok_or (as_object j) parse_error;
  t ← index_map "time" res;
  time ← ok_or (as_u64 t) parse_error;
  h ← index_map "height" res;
  height ← ok_or (as_u64 h ≫= λ h, if h <=? u32_max then Some h else None) parse_error;
  Ok (time, height).

(** An RPC call answers not found with code -5. *)
Definition rpc_not_found {A} (result : outcome IoErr A) : outcome IoErr (option A) :=
  match result with
  | Ok v => Ok (Some v)
  | Err e =>
      match get_ref e with
      | Some (RpcError code message) =>
          if code =? -5 then Ok None else Err (mkIoErr true (Some (RpcError code message)))
      | _ => Err parse_error
      end
  | Panic => Panic
  end.
Definition get_raw_transaction_rpc (result : outcome IoErr json) : outcome IoErr (option Transaction) :=
  rpc_not_found (j ← result; get_raw_transaction_response j).
Definition get_mempool_entry_inner (result : outcome IoErr json) : outcome IoErr (option (Z * Z)) :=
  rpc_not_found (j ← result; get_mempool_entry_response j).
Definition get_raw_transaction_rest (result : outcome IoErr json) : outcome IoErr (option Transaction) :=
  match (j ← result; get_raw_transaction_response j) with
  | Ok tx => Ok (Some tx)
  | Err e =>
      match kind_is_other e, get_ref e with
      | true, Some (HttpError status_code) =>
          if decide (status_code = "404"%string) then Ok None
          else Err (mkIoErr true (Some (HttpError status_code)))
      | _, _ => Err parse_error
      end
  | Panic => Panic
  end.

(** An entry is read exactly when its time is a number and its height fits 32 bits; an
    answer without one of the fields is a panic, any other one an error. *)
Theorem mempool_entry_read j :
  (∀ time height, get_mempool_entry_response j = Ok (time, height) ↔
     (get_field "time" j ≫= as_u64) = Some time ∧
     (get_field "height" j ≫= as_u64) = Some height ∧ height ≤ u32_max) ∧
  (get_mempool_entry_response j = Panic ↔
     is_Some (as_object j) ∧
     (get_field "time" j = None ∨
      is_Some (get_field "time" j ≫= as_u64) ∧ get_field "height" j = None)).
Proof.
  unfold get_mempool_entry_response, index_map.
  destruct j as [|b|n|s|l|fields]; simpl.
  1-5: split; [intros time height; split; [done|by intros (? & ? & ?)]|].
  1-5: split; [done|by intros [[? ?] _]].
  destruct (find_field "time" fields) as [t|]; simpl.
  2:{ split; [intros; split; [done|by intros (? & ? & ?)]|]. split; [|done].
      intros _. split; [by eexists|by left]. }
  destruct (as_u64 t) as [time|]; simpl.
  2:{ split; [intros; split; [done|by intros (? & ? & ?)]|]. split; [done|].
      intros [_ [?|[[? ?] _]]]; done. }
  destruct (find_field "height" fields) as [h|]; simpl.
  2:{ split; [intros; split; [done|by intros (? & ? & ?)]|]. split; [|done].
      intros _. split; [by eexists|right; by split; [eexists|]]. }
  destruct (as_u64 h) as [height|]; simpl.
  2:{ split; [intros; split; [done|by intros (? & ? & ?)]|]. split; [done|].
      intros [_ [?|[_ ?]]]; done. }
  destruct (Z.leb_spec height u32_max); simpl.
  - split; [|split; [done|by intros [_ [?|[_ ?]]]]].
    intros time' height'. split; [by intros [= <- <-]|by intros ([= <-] & [= <-] & _)].
  - split; [|split; [done|by intros [_ [?|[_ ?]]]]].
    intros time' height'. split; [done|]. intros (_ & [= <-] & ?). lia.
Qed.
End answers.
