(* ===== verification/AggTypes.v ===== *)
(** * Core types of the aggregate wallet ([bdk-wallet-aggregate/src/types.rs]) *)

From S2P Require Import Prelude Types Bdk.

(** The crate has its own [Error] type, which the node maps into [Errors.Error]. *)
Module aggregate.

Inductive Error :=
| WalletNotFound
| PersisterNotFound
| PersistenceFailed
| OnchainTxCreationFailed
| OnchainTxSigningFailed
| InsufficientFunds
| InvalidFeeRate
| InvalidQuantity
| NoSpendableOutputs
| CoinSelectionFailed
| WalletOperationFailed
| UtxoNotFoundLocally (o : OutPoint)
| TransactionNotFound
| TransactionAlreadyConfirmed
| WalletAlreadyExists
| CannotRemovePrimary.

#[global] Instance Error_eq_dec : EqDecision Error.
Proof. solve_decision. Defined.

(** What is needed to spend an output in a PSBT built on another wallet. *)
Record UtxoPsbtInfo := mkUtxoPsbtInfo {
  info_outpoint : OutPoint;
  psbt_input : PsbtInput;
  weight : Weight;
  is_primary : bool;
}.

End aggregate.
