(* ===== verification/AggUtxo.v ===== *)
(** * Weights, PSBT preparation and coin selection
      ([bdk-wallet-aggregate/src/utxo.rs])

    The functions take the map of wallets, as in the source.  The theorems say
    which outputs a selection can contain and that preparing a list of outpoints
    keeps it, in order, or fails. *)

From S2P Require Import Prelude Types Bdk AggTypes.
Import aggregate.

Module utxo.

Definition DUST_LIMIT_SATS : Z := 546.
Definition TX_ENVELOPE_WEIGHT : Weight := 42.
Definition CONSERVATIVE_PAYMENT_OVERHEAD : Weight := 246.

Section utxo.
Context {K : Type} `{Countable K} {O : IterOrder K}.
Context {BTC : Bitcoin} {W P U Ev : Type} {BDK : Bdk W P U Ev} {CS : CoinSelection}.
Implicit Types (wallets : gmap K W) (o : OutPoint).

Definition calculate_utxo_weight (script_pubkey : Script) : Weight :=
  if is_p2wpkh script_pubkey then 107
  else if is_p2tr script_pubkey then 65
  else if is_p2sh script_pubkey then 199
  else 428.

(** The output [o] points to, in a transaction the wallet knows. *)
Definition known_output (wallet : W) o : option TxOut :=
  tx ← get_tx wallet (txid o);
  output (wtx_tx tx) !! Z.to_nat (vout o).

Definition satisfaction_weight_for_outpoint o wallets : option Weight :=
  find_map (λ wallet,
    let keychain :=
      match get_utxo wallet o with
      | Some utxo => Some (keychain utxo)
      | None =>
          out ← known_output wallet o;
          fst <$> derivation_of_spk wallet (script_pubkey out)
      end in
    keychain ≫= max_weight_to_satisfy wallet) (values wallets).

(** The satisfaction weight, with the fallback to the script type. *)
Definition weight_of (utxo : LocalOutput) wallets : Weight :=
  default (calculate_utxo_weight (script_pubkey (txout utxo)))
    (satisfaction_weight_for_outpoint (outpoint utxo) wallets).

(** The first wallet's transaction with this id. *)
Definition lookup_tx (t : Txid) wallets : option Transaction :=
  find_map (λ wallet, wtx_tx <$> get_tx wallet t) (values wallets).

(** The body of the loop of [prepare_utxos_for_psbt]. *)
Definition prepare_utxo wallets (primary_key : K) (utxo : LocalOutput) :
    outcome Error UtxoPsbtInfo :=
  let is_primary :=
    match wallets !! primary_key with
    | Some w => bool_decide (is_Some (get_utxo w (outpoint utxo)))
    | None => false
    end in
  let weight := weight_of utxo wallets in
  match lookup_tx (txid (outpoint utxo)) wallets with
  | Some tx =>
      Ok {| info_outpoint := outpoint utxo;
            psbt_input := {| witness_utxo := Some (txout utxo);
                             non_witness_utxo := Some tx;
                             final_script_sig := None; final_script_witness := None;
                             rest := [] |};
            weight := weight; is_primary := is_primary |}
  | None => Err (UtxoNotFoundLocally (outpoint utxo))
  end.

Definition prepare_utxos_for_psbt (utxos : list LocalOutput) wallets (primary_key : K) :
    outcome Error (list UtxoPsbtInfo) :=
  try_map (prepare_utxo wallets primary_key) utxos.

(** [wallets.values().find_map(|w| w.get_utxo(o).filter(|u| !u.is_spent))] *)
Definition find_unspent wallets o : option LocalOutput :=
  find_map (λ w, u ← get_utxo w o; if is_spent u then None else Some u) (values wallets).

Definition prepare_outpoints_for_psbt (outpoints : list OutPoint) wallets (primary_key : K) :
    outcome Error (list UtxoPsbtInfo) :=
  let utxos := omap (find_unspent wallets) outpoints in
  if decide (length utxos = length outpoints)
  then prepare_utxos_for_psbt utxos wallets primary_key
  else Err WalletOperationFailed.

(** [w] is the wallet the builder was made from. *)
Definition add_foreign_info (w : W) (b : TxBuilder) (info : UtxoPsbtInfo) :
    outcome Error TxBuilder :=
  let o := info_outpoint info in
  if add_foreign_utxo w b o (psbt_input info) (weight info) ENABLE_RBF_NO_LOCKTIME
  then Ok (b ++ [AddForeignUtxo o (psbt_input info) (weight info) ENABLE_RBF_NO_LOCKTIME])
  else Err OnchainTxCreationFailed.

Definition add_info (w : W) (b : TxBuilder) (info : UtxoPsbtInfo) : outcome Error TxBuilder :=
  if is_primary info then
    if add_utxo w b (info_outpoint info) then Ok (b ++ [AddUtxo (info_outpoint info)])
    else Err OnchainTxCreationFailed
  else add_foreign_info w b info.

Definition add_utxos_to_tx_builder (w : W) (b : TxBuilder) (utxo_infos : list UtxoPsbtInfo) :
    outcome Error TxBuilder :=
  try_fold (add_info w) b utxo_infos.

Record SelectionRequest := {
  target_amount : Z;
  available_utxos : list LocalOutput;
  fee_rate : FeeRate;
  algorithm : CoinSelectionAlgorithm;
  drain_script : Script;
  excluded_outpoints : list OutPoint;
  request_wallets : gmap K W;
  recipient_script : option Script;
  include_payment_overhead : bool;
}.

Definition recipient_output_weight (recipient_script : Script) : Weight :=
  txout_weight {| value := 0; script_pubkey := recipient_script |}.

(** The candidates that are not excluded, with their weights. *)
Definition safe_utxos (r : SelectionRequest) : list LocalOutput :=
  filter (λ utxo, outpoint utxo ∉ excluded_outpoints r) (available_utxos r).
Definition weighted_utxos (r : SelectionRequest) : list WeightedUtxo :=
  (λ utxo, {| satisfaction_weight := weight_of utxo (request_wallets r); local := utxo |})
    <$> safe_utxos r.
Definition total_available (r : SelectionRequest) : Z :=
  foldl (λ acc u, saturating_add64 acc (value (txout (local u)))) 0 (weighted_utxos r).

(** The amount handed to BDK: the target, plus the fee for what BDK does not
    count. *)
Definition selection_target (r : SelectionRequest) : outcome Error Amount :=
  if include_payment_overhead r then
    let payment_overhead :=
      match recipient_script r with
      | Some script => wrap64 (TX_ENVELOPE_WEIGHT + recipient_output_weight script)
      | None => CONSERVATIVE_PAYMENT_OVERHEAD
      end in
    base_fee ← ok_or (fee_wu (fee_rate r) payment_overhead) InvalidFeeRate;
    ok_or (checked_add64 (target_amount r) base_fee) InsufficientFunds
  else Ok (target_amount r).

Definition select_utxos_with_algorithm_inner (r : SelectionRequest) :
    outcome Error (list OutPoint) :=
  if decide (safe_utxos r = []) then Err NoSpendableOutputs
  else if total_available r <? target_amount r then Err InsufficientFunds
  else
    target ← selection_target r;
    selected ← ok_or (coin_select (algorithm r) (weighted_utxos r) (fee_rate r) target
                        (drain_script r)) CoinSelectionFailed;
    Ok (map outpoint selected).

Definition select_utxos_with_algorithm (r : SelectionRequest) : outcome Error (list OutPoint) :=
  select_utxos_with_algorithm_inner r.

Definition select_utxos_for_deficit (target_amount : Z) (available_utxos : list LocalOutput)
    (fee_rate : FeeRate) (algorithm : CoinSelectionAlgorithm) (drain_script : Script)
    (excluded_outpoints : list OutPoint) wallets : outcome Error (list OutPoint) :=
  select_utxos_with_algorithm_inner {|
    target_amount := target_amount; available_utxos := available_utxos;
    fee_rate := fee_rate; algorithm := algorithm; drain_script := drain_script;
    excluded_outpoints := excluded_outpoints; request_wallets := wallets;
    recipient_script := None; include_payment_overhead := false
  |}.

(** ** Lemmas *)

Lemma known_output_Some wallet o out :
  known_output wallet o = Some out →
  ∃ tx, get_tx wallet (txid o) = Some tx ∧ output (wtx_tx tx) !! Z.to_nat (vout o) = Some out.
Proof. unfold known_output. intros (tx & ? & ?)%bind_Some. eauto. Qed.

Lemma find_unspent_Some wallets o u :
  find_unspent wallets o = Some u →
  ∃ k w, wallets !! k = Some w ∧ get_utxo w o = Some u ∧ is_spent u = false.
Proof.
  intros (w & Hw & Hu)%find_map_elem_of. apply elem_of_values in Hw as [k Hk].
  destruct (get_utxo w o) as [u'|] eqn:Ho; simpl in Hu; [|done].
  destruct (is_spent u') eqn:Hs; simplify_eq. eauto.
Qed.

Lemma lookup_tx_Some t wallets tx :
  lookup_tx t wallets = Some tx →
  ∃ k w wtx, wallets !! k = Some w ∧ get_tx w t = Some wtx ∧ tx = wtx_tx wtx.
Proof.
  intros (w & Hw & Hu)%find_map_elem_of. apply elem_of_values in Hw as [k Hk].
  apply fmap_Some in Hu as (wtx & ? & ->). naive_solver.
Qed.

Lemma lookup_tx_None t wallets :
  lookup_tx t wallets = None ↔ ∀ k w, wallets !! k = Some w → get_tx w t = None.
Proof.
  unfold lookup_tx. rewrite find_map_None. split.
  - intros Hn k w Hk. assert (w ∈ values wallets) as Hin by (apply elem_of_values; eauto).
    specialize (Hn w Hin). by destruct (get_tx w t).
  - intros Hn w [k Hk]%elem_of_values. by rewrite (Hn k w Hk).
Qed.

(** What a prepared input says about the output it spends. *)
Definition describes wallets (primary_key : K) (utxo : LocalOutput) (info : UtxoPsbtInfo) :
    Prop :=
  info_outpoint info = outpoint utxo ∧
  witness_utxo (psbt_input info) = Some (txout utxo) ∧
  (∃ k w wtx, wallets !! k = Some w ∧ get_tx w (txid (outpoint utxo)) = Some wtx ∧
     non_witness_utxo (psbt_input info) = Some (wtx_tx wtx)) ∧
  (is_primary info = true ↔
     ∃ w, wallets !! primary_key = Some w ∧ is_Some (get_utxo w (outpoint utxo))).

Lemma prepare_utxo_Ok wallets primary_key utxo info :
  prepare_utxo wallets primary_key utxo = Ok info →
  describes wallets primary_key utxo info.
Proof.
  unfold prepare_utxo. destruct (lookup_tx _ _) as [tx|] eqn:Htx; [|done].
  apply lookup_tx_Some in Htx as (k & w & wtx & ? & ? & ->).
  intros; simplify_eq. unfold describes; simpl. repeat split; [by eauto 10|..].
  - destruct (wallets !! primary_key) as [w'|]; [|done].
    intros ?%bool_decide_eq_true. eauto.
  - intros (w' & -> & ?). by apply bool_decide_eq_true.
Qed.

Lemma prepare_utxo_total wallets primary_key utxo :
  prepare_utxo wallets primary_key utxo = Err (UtxoNotFoundLocally (outpoint utxo)) ∧
    (∀ k w, wallets !! k = Some w → get_tx w (txid (outpoint utxo)) = None) ∨
  ∃ info, prepare_utxo wallets primary_key utxo = Ok info.
Proof.
  unfold prepare_utxo. destruct (lookup_tx _ _) as [tx|] eqn:Htx; [by eauto|].
  left. split; [done|]. by apply lookup_tx_None.
Qed.

Lemma prepare_utxos_Ok utxos wallets primary_key infos :
  prepare_utxos_for_psbt utxos wallets primary_key = Ok infos →
  Forall2 (describes wallets primary_key) utxos infos.
Proof.
  intros Hf%try_map_Ok. eapply Forall2_impl; [exact Hf|]. eauto using prepare_utxo_Ok.
Qed.

Lemma describes_outpoints wallets primary_key utxos infos :
  Forall2 (describes wallets primary_key) utxos infos →
  info_outpoint <$> infos = outpoint <$> utxos.
Proof.
  induction 1 as [|utxo info utxos infos Hd _ IH]; [done|].
  csimpl. rewrite IH. by destruct Hd as [-> _].
Qed.

Lemma omap_length_eq {A B} (f : A → option B) xs :
  length (omap f xs) = length xs → Forall2 (λ x y, f x = Some y) xs (omap f xs).
Proof.
  assert (∀ ys, length (omap f ys) ≤ length ys)%nat as Hle.
  { intros ys. induction ys as [|y ys IHy]; csimpl; [done|].
    destruct (f y); csimpl; lia. }
  induction xs as [|x xs IH]; csimpl; [constructor|].
  destruct (f x) as [y|] eqn:Hx; csimpl; intros Hlen.
  - constructor; [done|]. apply IH. lia.
  - specialize (Hle xs). lia.
Qed.

Lemma omap_length_ne {A B} (f : A → option B) xs :
  length (omap f xs) ≠ length xs → ∃ x, x ∈ xs ∧ f x = None.
Proof.
  induction xs as [|x xs IH]; csimpl; [done|].
  destruct (f x) as [y|] eqn:Hx; csimpl; intros Hlen.
  - destruct IH as (z & ? & ?); [lia|]. set_solver.
  - set_solver.
Qed.

Lemma prepare_outpoints_Ok outpoints wallets primary_key infos :
  prepare_outpoints_for_psbt outpoints wallets primary_key = Ok infos →
  ∃ utxos, Forall2 (λ o u, find_unspent wallets o = Some u) outpoints utxos ∧
    Forall2 (describes wallets primary_key) utxos infos.
Proof.
  unfold prepare_outpoints_for_psbt. case_decide as Hlen; [|done].
  intros Hp. eauto using omap_length_eq, prepare_utxos_Ok.
Qed.

Lemma elem_of_safe_utxos r u :
  u ∈ safe_utxos r ↔ u ∈ available_utxos r ∧ outpoint u ∉ excluded_outpoints r.
Proof. unfold safe_utxos. rewrite list_elem_of_filter. naive_solver. Qed.

Lemma weighted_utxos_local r : local <$> weighted_utxos r = safe_utxos r.
Proof. unfold weighted_utxos. rewrite <- list_fmap_compose. apply list_fmap_id. Qed.

Context {CSS : CoinSelectionSpec} {BDKS : BdkSpec W P U Ev}.

Lemma select_utxos_subset r sel :
  select_utxos_with_algorithm_inner r = Ok sel →
  ∀ o, o ∈ sel → ∃ u, u ∈ available_utxos r ∧ outpoint u = o ∧ o ∉ excluded_outpoints r.
Proof.
  unfold select_utxos_with_algorithm_inner. case_decide; [done|].
  destruct (_ <? _); [done|]. intros Hs. inv_outcome.
  intros o (u & -> & Hu)%list_elem_of_fmap.
  match goal with Hc : coin_select _ _ _ _ _ = Some _ |- _ =>
    apply (coin_select_subset _ _ _ _ _ _ Hc) in Hu end.
  rewrite weighted_utxos_local, elem_of_safe_utxos in Hu. naive_solver.
Qed.

Lemma prepare_outpoints_outpoints outpoints wallets primary_key infos :
  prepare_outpoints_for_psbt outpoints wallets primary_key = Ok infos →
  info_outpoint <$> infos = outpoints.
Proof.
  intros (utxos & Hfind & Hdesc)%prepare_outpoints_Ok.
  rewrite (describes_outpoints _ _ _ _ Hdesc). clear Hdesc infos.
  induction Hfind as [|o u os us Ho _ IH]; [done|]. csimpl. rewrite IH.
  apply find_unspent_Some in Ho as (k & w & _ & Hu & _).
  by rewrite (get_utxo_outpoint _ _ _ Hu).
Qed.

(** ** Theorems *)

(** Whatever BDK's algorithm picks, a selection contains only offered outputs
    that are not excluded, and is attempted only when some output is left and
    the offered total reaches the target; the amount asked of BDK is the target
    plus, when requested, the fee for the fixed parts of the transaction. *)
Theorem select_utxos_sound r sel :
  select_utxos_with_algorithm r = Ok sel →
  (∀ o, o ∈ sel → ∃ u, u ∈ available_utxos r ∧ outpoint u = o ∧ o ∉ excluded_outpoints r) ∧
  target_amount r ≤ total_available r ∧
  ∃ target selected, selection_target r = Ok target ∧
    coin_select (algorithm r) (weighted_utxos r) (fee_rate r) target (drain_script r)
      = Some selected ∧ sel = map outpoint selected ∧
    (include_payment_overhead r = false → target = target_amount r) ∧
    (include_payment_overhead r = true → ∃ overhead base,
       fee_wu (fee_rate r) overhead = Some base ∧ target = target_amount r + base).
Proof.
  intros Hs. split; [by apply select_utxos_subset|].
  unfold select_utxos_with_algorithm, select_utxos_with_algorithm_inner in Hs.
  case_decide; [done|]. destruct (Z.ltb_spec (total_available r) (target_amount r)); [done|].
  inv_outcome. split; [done|]. eexists _, _. do 3 (split; [done|]).
  match goal with Ht : selection_target r = Ok _ |- _ => unfold selection_target in Ht end.
  destruct (include_payment_overhead r); [|naive_solver].
  inv_outcome. inv_checked. split; [done|]. eauto.
Qed.

(** Preparing outpoints for a PSBT keeps them all, in order, each described by
    an unspent output of one of the wallets with its value, its full previous
    transaction and whether the primary wallet owns it; if one of them is not
    available the whole call fails. *)
Theorem prepare_outpoints_faithful outpoints wallets primary_key :
  match prepare_outpoints_for_psbt outpoints wallets primary_key with
  | Ok infos =>
      (info_outpoint <$> infos) = outpoints ∧
      ∃ utxos, Forall2 (λ o u, find_unspent wallets o = Some u) outpoints utxos ∧
        Forall2 (describes wallets primary_key) utxos infos
  | Err e =>
      (∃ o, o ∈ outpoints ∧ find_unspent wallets o = None ∧ e = WalletOperationFailed) ∨
      (∃ o, o ∈ outpoints ∧ e = UtxoNotFoundLocally o ∧
         ∀ k w, wallets !! k = Some w → get_tx w (txid o) = None)
  | Panic => False
  end.
Proof.
  destruct (prepare_outpoints_for_psbt _ _ _) as [infos|e|] eqn:Hp.
  - split; [by eapply prepare_outpoints_outpoints|]. by apply prepare_outpoints_Ok.
  - unfold prepare_outpoints_for_psbt in Hp. case_decide as Hlen.
    + right. apply omap_length_eq in Hlen. unfold prepare_utxos_for_psbt in Hp.
      apply try_map_Err in Hp as (u & Hu & Herr).
      destruct (prepare_utxo_total wallets primary_key u) as [[He Hn]|[i He]];
        rewrite He in Herr; simplify_eq.
      apply (Forall2_elem_r _ _ _ _ Hlen) in Hu as (o & Ho & Hf).
      apply find_unspent_Some in Hf as (k & w & _ & Hu & _).
      rewrite (get_utxo_outpoint _ _ _ Hu) in *. by exists o.
    + left. apply omap_length_ne in Hlen as (o & ? & ?). simplify_eq. eauto.
  - unfold prepare_outpoints_for_psbt in Hp. case_decide; [|done].
    apply try_map_Panic in Hp as (u & _ & Hpanic).
    destruct (prepare_utxo_total wallets primary_key u) as [[He _]|[i He]]; congruence.
Qed.
End utxo.
End utxo.
