(* ===== verification/AggSigning.v ===== *)
(** * Signing with every wallet ([bdk-wallet-aggregate/src/signing.rs])

    A PSBT is filled in from the wallets' data, offered to each wallet, and only
    extracted if every input one of the wallets owns ended up finalized.  Slice
    indexing is explicit: an index out of range is [Panic], and the theorems rule
    it out. *)

From S2P Require Import Prelude Types Bdk AggTypes AggUtxo.
Import aggregate.

Module signing.
Section signing.
Context {K : Type} `{Countable K} {O : IterOrder K}.
Context {BTC : Bitcoin} {W P U Ev : Type} {BDK : Bdk W P U Ev}.
Implicit Types (wallets : gmap K W) (psbt : Psbt).

Definition is_finalized (input : PsbtInput) : bool :=
  match final_script_sig input with Some (_ :: _) => true | _ => false end ||
  match final_script_witness input with Some (_ :: _) => true | _ => false end.

(** The output an input spends, as the PSBT describes it. *)
Definition psbt_prevout (o : OutPoint) (input : PsbtInput) : option TxOut :=
  match witness_utxo input with
  | Some out => Some out
  | None => tx ← non_witness_utxo input; output tx !! Z.to_nat (vout o)
  end.

(** Whether a wallet owns the output [o] with that description. *)
Definition wallet_owns (o : OutPoint) (input : PsbtInput) (wallet : W) : bool :=
  bool_decide (is_Some (get_utxo wallet o)) ||
  match psbt_prevout o input with
  | Some out => wallet_is_mine wallet (script_pubkey out)
  | None => false
  end.

Definition is_owned_input psbt (index : nat) wallets : outcome Error bool :=
  txin ← expect (input (unsigned_tx psbt) !! index);
  inp ← expect (psbt_inputs psbt !! index);
  Ok (existsb (wallet_owns (previous_output txin) inp) (values wallets)).

(** Data a wallet has for an input: what is missing is filled in, from the unspent
    output or else from the transaction that created it. *)
Definition fill_input (o : OutPoint) (inp : PsbtInput) (out : TxOut)
    (prev : option Transaction) : PsbtInput := {|
  witness_utxo := match witness_utxo inp with Some out' => Some out' | None => Some out end;
  non_witness_utxo := match non_witness_utxo inp with Some tx => Some tx | None => prev end;
  final_script_sig := final_script_sig inp;
  final_script_witness := final_script_witness inp;
  rest := rest inp
|}.

Definition fill_from_wallet (o : OutPoint) (inp : PsbtInput) (wallet : W) : option PsbtInput :=
  match get_utxo wallet o with
  | Some utxo => Some (fill_input o inp (txout utxo) (wtx_tx <$> get_tx wallet (txid o)))
  | None =>
      tx ← get_tx wallet (txid o);
      out ← output (wtx_tx tx) !! Z.to_nat (vout o);
      Some (fill_input o inp out (Some (wtx_tx tx)))
  end.

(** One iteration of the loop over [psbt.unsigned_tx.input]. *)
Definition populate_input wallets (inputs : list PsbtInput) (ix : nat * TxIn) :
    outcome Error (list PsbtInput) :=
  let '(i, txin) := ix in
  let inputs := if (length inputs <=? i)%nat then inputs ++ [default_input] else inputs in
  inp ← expect (inputs !! i);
  match witness_utxo inp, non_witness_utxo inp with
  | Some _, Some _ => Ok inputs
  | _, _ =>
      match find_map (fill_from_wallet (previous_output txin) inp) (values wallets) with
      | Some inp' => Ok (<[i := inp']> inputs)
      | None => Ok inputs
      end
  end.

Definition populate_psbt_inputs_from_wallets psbt wallets : outcome Error Psbt :=
  inputs ← try_fold (populate_input wallets) (psbt_inputs psbt)
             (enumerate (input (unsigned_tx psbt)));
  Ok {| unsigned_tx := unsigned_tx psbt; psbt_inputs := inputs |}.

(** [(0..n).find(|&i| owned[i] && !is_finalized(&inputs[i]))] *)
Fixpoint find_unsigned (owned : list bool) (inputs : list PsbtInput) (ixs : list nat) :
    outcome Error (option nat) :=
  match ixs with
  | [] => Ok None
  | i :: ixs =>
      b ← expect (owned !! i);
      if b : bool then
        inp ← expect (inputs !! i);
        if is_finalized inp then find_unsigned owned inputs ixs else Ok (Some i)
      else find_unsigned owned inputs ixs
  end.

Definition sign_psbt_all_wallets psbt wallets : outcome Error Transaction :=
  if (length (input (unsigned_tx psbt)) <? length (psbt_inputs psbt))%nat
  then Err OnchainTxSigningFailed
  else
    psbt ← populate_psbt_inputs_from_wallets psbt wallets;
    owned ← try_map (λ i, is_owned_input psbt i wallets) (seq 0 (length (psbt_inputs psbt)));
    let psbt := foldl (λ psbt '(_, wallet), wallet_sign wallet psbt) psbt (iter wallets) in
    unsigned ← find_unsigned owned (psbt_inputs psbt) (seq 0 (length (psbt_inputs psbt)));
    match unsigned with
    | Some i =>
        _ ← expect (input (unsigned_tx psbt) !! i);
        Err OnchainTxSigningFailed
    | None =>
        match extract_tx psbt with
        | inl tx => Ok tx
        | inr (MissingInputValue tx) => Ok tx
        | inr OtherExtractError => Err OnchainTxSigningFailed
        end
    end.

Definition sign_owned_inputs (unsigned_tx : Transaction) wallets : outcome Error Transaction :=
  psbt ← ok_or (from_unsigned_tx unsigned_tx) OnchainTxSigningFailed;
  sign_psbt_all_wallets psbt wallets.

(** ** Filling in inputs *)

(** What the loop makes of one input. *)
Definition populate_one wallets (o : OutPoint) (inp : PsbtInput) : PsbtInput :=
  match witness_utxo inp, non_witness_utxo inp with
  | Some _, Some _ => inp
  | _, _ => default inp (find_map (fill_from_wallet o inp) (values wallets))
  end.

(** [inp'] holds everything [inp] holds. *)
Definition extends (inp inp' : PsbtInput) : Prop :=
  (∀ out, witness_utxo inp = Some out → witness_utxo inp' = Some out) ∧
  (∀ tx, non_witness_utxo inp = Some tx → non_witness_utxo inp' = Some tx) ∧
  final_script_sig inp' = final_script_sig inp ∧
  final_script_witness inp' = final_script_witness inp ∧ rest inp' = rest inp.

Lemma fill_from_wallet_Some o inp w inp' :
  fill_from_wallet o inp w = Some inp' →
  extends inp inp' ∧ is_Some (witness_utxo inp').
Proof.
  unfold fill_from_wallet, extends. destruct (get_utxo w o) as [u|].
  - intros; simplify_eq/=. repeat split; try done.
    + by intros ? ->.
    + by intros ? ->.
    + by destruct (witness_utxo inp).
  - intros (tx & ? & (out & ? & ?)%bind_Some)%bind_Some; simplify_eq/=. repeat split; try done.
    + by intros ? ->.
    + by intros ? ->.
    + by destruct (witness_utxo inp).
Qed.

Lemma populate_one_extends wallets o inp : extends inp (populate_one wallets o inp).
Proof.
  unfold populate_one.
  destruct (find_map _ _) as [inp'|] eqn:Hf; simpl;
    [apply find_map_elem_of in Hf as (w & _ & [Hext _]%fill_from_wallet_Some)|];
    destruct (witness_utxo inp), (non_witness_utxo inp); done.
Qed.

(** A wallet that has the output, spent or not, is enough to fill it in. *)
Lemma populate_one_known wallets o inp k w :
  wallets !! k = Some w →
  is_Some (get_utxo w o) ∨ is_Some (utxo.known_output w o) →
  is_Some (witness_utxo (populate_one wallets o inp)).
Proof.
  intros Hk Hknown. unfold populate_one.
  destruct (find_map _ _) as [inp'|] eqn:Hf; simpl.
  - apply find_map_elem_of in Hf as (w' & _ & [_ Hsome]%fill_from_wallet_Some).
    destruct (witness_utxo inp) eqn:?, (non_witness_utxo inp); eauto.
  - rewrite find_map_None in Hf. specialize (Hf w ltac:(apply elem_of_values; eauto)).
    exfalso. unfold fill_from_wallet in Hf.
    destruct Hknown as [[u Hu]|[out (tx & Ht & Ho)%utxo.known_output_Some]].
    + by rewrite Hu in Hf.
    + destruct (get_utxo w o); [done|]. rewrite Ht in Hf; simpl in Hf. by rewrite Ho in Hf.
Qed.

Lemma populate_input_step wallets inputs i txin :
  (i ≤ length inputs)%nat →
  ∃ inputs', populate_input wallets inputs (i, txin) = Ok inputs' ∧
    length inputs' = Nat.max (length inputs) (S i) ∧
    inputs' !! i = Some (populate_one wallets (previous_output txin)
                           (default default_input (inputs !! i))) ∧
    ∀ j, j ≠ i → inputs' !! j = inputs !! j.
Proof.
  intros Hi.
  set (ext := if (length inputs <=? i)%nat then inputs ++ [default_input] else inputs).
  assert (ext !! i = Some (default default_input (inputs !! i)) ∧
          length ext = Nat.max (length inputs) (S i) ∧
          ∀ j, j ≠ i → ext !! j = inputs !! j) as (Hext & Hlen & Hother).
  { subst ext. destruct (Nat.leb_spec (length inputs) i) as [Hle|Hlt].
    - assert (i = length inputs) as -> by lia. split_and!.
      + rewrite lookup_app_r by lia. rewrite Nat.sub_diag.
        by rewrite (lookup_ge_None_2 inputs) by lia.
      + rewrite length_app. simpl. lia.
      + intros j Hj. destruct (decide (j < length inputs)%nat).
        * by rewrite lookup_app_l by lia.
        * rewrite lookup_app_r by lia. rewrite !lookup_ge_None_2; simpl; [done|lia..].
    - destruct (lookup_lt_is_Some_2 inputs i Hlt) as [inp Hinp].
      rewrite Hinp; simpl. split_and!; [done|lia|done]. }
  unfold populate_input. fold ext. rewrite Hext. cbn [expect mbind outcome_bind].
  unfold populate_one. set (inp := default default_input (inputs !! i)) in *.
  destruct (find_map (fill_from_wallet (previous_output txin) inp) (values wallets))
    as [inp'|] eqn:Hf.
  2: { exists ext. destruct (witness_utxo inp), (non_witness_utxo inp); done. }
  assert (i < length ext)%nat as Hlt by lia.
  assert (length (<[i:=inp']> ext) = Nat.max (length inputs) (S i) ∧
    (<[i:=inp']> ext) !! i = Some inp' ∧ ∀ j, j ≠ i → (<[i:=inp']> ext) !! j = inputs !! j)
    as Hins.
  { rewrite length_insert, list_lookup_insert_eq by done. split_and!; [done..|].
    intros j Hj. rewrite list_lookup_insert_ne by done. by apply Hother. }
  destruct (witness_utxo inp), (non_witness_utxo inp); eauto.
Qed.

Lemma populate_loop wallets xs : ∀ i inputs,
  (i ≤ length inputs ≤ i + length xs)%nat →
  ∃ inputs', try_fold (populate_input wallets) inputs (zip (seq i (length xs)) xs) = Ok inputs' ∧
    length inputs' = (i + length xs)%nat ∧
    (∀ j, (j < i)%nat → inputs' !! j = inputs !! j) ∧
    ∀ j txin, xs !! j = Some txin →
      inputs' !! (i + j)%nat = Some (populate_one wallets (previous_output txin)
                                 (default default_input (inputs !! (i + j)%nat))).
Proof.
  induction xs as [|x xs IH]; intros i inputs Hlen; cbn [length seq zip_with try_fold] in *.
  { exists inputs. split_and!; [done|lia|done|done]. }
  destruct (populate_input_step wallets inputs i x) as (inputs1 & -> & Hlen1 & Hat & Hne); [lia|].
  cbn [mbind outcome_bind]. destruct (IH (S i) inputs1) as (inputs2 & -> & Hlen2 & Hlow & Hhigh); [lia|].
  exists inputs2. split_and!; [done|lia|..].
  - intros j Hj. rewrite Hlow by lia. apply Hne. lia.
  - intros [|j] txin Hx; simpl in Hx.
    + simplify_eq. rewrite Nat.add_0_r, Hlow by lia. done.
    + specialize (Hhigh j txin Hx). rewrite Nat.add_succ_r, <- Nat.add_succ_l.
      rewrite Hhigh, Hne by lia. done.
Qed.

Lemma populate_total psbt wallets :
  (length (psbt_inputs psbt) ≤ length (input (unsigned_tx psbt)))%nat →
  ∃ psbt', populate_psbt_inputs_from_wallets psbt wallets = Ok psbt' ∧
    unsigned_tx psbt' = unsigned_tx psbt ∧
    length (psbt_inputs psbt') = length (input (unsigned_tx psbt)) ∧
    ∀ i txin, input (unsigned_tx psbt) !! i = Some txin →
      psbt_inputs psbt' !! i = Some (populate_one wallets (previous_output txin)
                                 (default default_input (psbt_inputs psbt !! i))).
Proof.
  intros Hlen. unfold populate_psbt_inputs_from_wallets, enumerate.
  destruct (populate_loop wallets (input (unsigned_tx psbt)) 0 (psbt_inputs psbt))
    as (inputs & -> & Hl & _ & Hat); [lia|].
  eexists. by split.
Qed.

(** ** Ownership and the final check *)

Lemma existsb_values (f : W → bool) wallets :
  existsb f (values wallets) = true ↔ ∃ k w, wallets !! k = Some w ∧ f w = true.
Proof.
  rewrite existsb_exists. setoid_rewrite <- list_elem_of_In.
  setoid_rewrite elem_of_values. naive_solver.
Qed.

Lemma is_owned_input_total psbt i wallets txin inp :
  input (unsigned_tx psbt) !! i = Some txin → psbt_inputs psbt !! i = Some inp →
  is_owned_input psbt i wallets =
    Ok (existsb (wallet_owns (previous_output txin) inp) (values wallets)).
Proof. intros Ht Hi. unfold is_owned_input. by rewrite Ht, Hi. Qed.

Lemma owned_flags psbt wallets :
  length (psbt_inputs psbt) = length (input (unsigned_tx psbt)) →
  ∃ owned, try_map (λ i, is_owned_input psbt i wallets)
             (seq 0 (length (psbt_inputs psbt))) = Ok owned ∧
    length owned = length (psbt_inputs psbt) ∧
    ∀ i txin inp, input (unsigned_tx psbt) !! i = Some txin → psbt_inputs psbt !! i = Some inp →
      owned !! i = Some (existsb (wallet_owns (previous_output txin) inp) (values wallets)).
Proof.
  intros Hlen.
  assert (∀ i, i ∈ seq 0 (length (psbt_inputs psbt)) →
            ∃ b, is_owned_input psbt i wallets = Ok b) as Htot.
  { intros i [_ Hi]%elem_of_seq. simpl in Hi.
    destruct (lookup_lt_is_Some_2 (psbt_inputs psbt) i Hi) as [inp Hinp].
    destruct (lookup_lt_is_Some_2 (input (unsigned_tx psbt)) i) as [txin Htx]; [lia|].
    eauto using is_owned_input_total. }
  destruct (try_map_total _ _ Htot) as [owned Howned]. exists owned. split; [done|].
  apply try_map_Ok in Howned. pose proof (Forall2_length _ _ _ Howned) as Hl.
  rewrite length_seq in Hl. split; [done|]. intros i txin inp Ht Hi.
  assert (seq 0 (length (psbt_inputs psbt)) !! i = Some i) as Hs.
  { apply lookup_seq. apply lookup_lt_Some in Hi. split; [lia|done]. }
  destruct (Forall2_lookup_l _ _ _ _ _ Howned Hs) as (b & Hb & Heq).
  rewrite (is_owned_input_total _ _ _ _ _ Ht Hi) in Heq. by simplify_eq.
Qed.

Lemma find_unsigned_total owned inputs ixs :
  length owned = length inputs → Forall (λ i, i < length inputs)%nat ixs →
  ∃ r, find_unsigned owned inputs ixs = Ok r ∧
    match r with
    | Some i => i ∈ ixs
    | None => ∀ i, i ∈ ixs → owned !! i = Some true →
        ∃ inp, inputs !! i = Some inp ∧ is_finalized inp = true
    end.
Proof.
  intros Hlen. induction ixs as [|i ixs IH]; intros Hall.
  { exists None. split; [done|set_solver]. }
  apply Forall_cons in Hall as [Hi Hall]. destruct (IH Hall) as (r & Hr & Hspec).
  destruct (lookup_lt_is_Some_2 owned i) as [b Hb]; [lia|].
  destruct (lookup_lt_is_Some_2 inputs i Hi) as [inp Hinp].
  simpl. rewrite Hb; simpl.
  destruct b; [rewrite Hinp; simpl; destruct (is_finalized inp) eqn:Hfin|].
  - exists r. split; [done|]. destruct r; [set_solver|]. intros j [->|Hj]%elem_of_cons; eauto.
  - exists (Some i). split; [done|set_solver].
  - exists r. split; [done|]. destruct r; [set_solver|].
    intros j [->|Hj]%elem_of_cons; [congruence|eauto].
Qed.

Context {BTCS : BitcoinSpec} {BDKS : BdkSpec W P U Ev}.

Lemma sign_all_shape (kws : list (K * W)) psbt :
  unsigned_tx (foldl (λ psbt '(_, wallet), wallet_sign wallet psbt) psbt kws)
    = unsigned_tx psbt ∧
  length (psbt_inputs (foldl (λ psbt '(_, wallet), wallet_sign wallet psbt) psbt kws))
    = length (psbt_inputs psbt).
Proof.
  revert psbt. induction kws as [|[k w] kws IH]; intros psbt; simpl; [done|].
  destruct (IH (wallet_sign w psbt)) as [-> ->]. apply sign_shape.
Qed.

Lemma sign_psbt_all_wallets_spec psbt wallets :
  match sign_psbt_all_wallets psbt wallets with
  | Ok tx =>
      output tx = output (unsigned_tx psbt) ∧
      (previous_output <$> input tx) = (previous_output <$> input (unsigned_tx psbt)) ∧
      ∃ signed, unsigned_tx signed = unsigned_tx psbt ∧
        (extract_tx signed = inl tx ∨ extract_tx signed = inr (MissingInputValue tx)) ∧
        ∀ i txin k w, input (unsigned_tx psbt) !! i = Some txin → wallets !! k = Some w →
          wallet_owns (previous_output txin)
            (populate_one wallets (previous_output txin)
               (default default_input (psbt_inputs psbt !! i))) w = true →
          ∃ inp, psbt_inputs signed !! i = Some inp ∧ is_finalized inp = true
  | Err e => e = OnchainTxSigningFailed
  | Panic => False
  end.
Proof.
  unfold sign_psbt_all_wallets. destruct (Nat.ltb_spec (length (input (unsigned_tx psbt)))
    (length (psbt_inputs psbt))) as [|Hle]; [done|].
  destruct (populate_total psbt wallets Hle) as (psbt1 & -> & Htx1 & Hlen1 & Hat).
  cbn [mbind outcome_bind]. rewrite <- Htx1 in Hlen1.
  destruct (owned_flags psbt1 wallets Hlen1) as (owned & -> & Hlo & Hown).
  cbn [mbind outcome_bind].
  destruct (sign_all_shape (iter wallets) psbt1) as [Htx2 Hlen2].
  set (psbt2 := foldl _ psbt1 (iter wallets)) in *.
  destruct (find_unsigned_total owned (psbt_inputs psbt2) (seq 0 (length (psbt_inputs psbt2))))
    as (r & -> & Hr).
  { congruence. }
  { apply Forall_forall. intros i [_ ?]%elem_of_seq. done. }
  cbn [mbind outcome_bind]. destruct r as [i|].
  { apply elem_of_seq in Hr as [_ Hi].
    destruct (lookup_lt_is_Some_2 (input (unsigned_tx psbt2)) i) as [txin ->]; [|done].
    rewrite Htx2, <- Hlen1, <- Hlen2. done. }
  destruct (extract_tx psbt2) as [tx|[tx|]] eqn:Hex; [..|done];
    (edestruct (extract_tx_outpoints psbt2 tx) as [-> ->]; [eauto|];
     rewrite Htx2, Htx1; split_and!; [done..|]; exists psbt2;
     split_and!; [congruence|eauto|]; intros i txin k w Ht Hk Ho;
     apply Hr; [apply elem_of_seq; rewrite Hlen2, Hlen1, Htx1; apply lookup_lt_Some in Ht; lia|];
     rewrite (Hown i txin _ (eq_trans (f_equal (λ t, input t !! i) Htx1) Ht) (Hat i txin Ht));
     f_equal; apply existsb_values; eauto).
Qed.

Lemma sign_psbt_all_wallets_shape psbt wallets tx :
  sign_psbt_all_wallets psbt wallets = Ok tx →
  output tx = output (unsigned_tx psbt) ∧
  (previous_output <$> input tx) = (previous_output <$> input (unsigned_tx psbt)).
Proof.
  intros Hs. pose proof (sign_psbt_all_wallets_spec psbt wallets) as Hspec.
  rewrite Hs in Hspec. naive_solver.
Qed.

(** C9. Signing never indexes out of range, and succeeds only with a transaction
    that has the outputs and spends the outpoints of the given PSBT and in which
    every input owned by one of the wallets was finalized; the only error it
    reports is [OnchainTxSigningFailed]. *)
Theorem sign_psbt_all_wallets_correct psbt wallets :
  match sign_psbt_all_wallets psbt wallets with
  | Ok tx =>
      output tx = output (unsigned_tx psbt) ∧
      (previous_output <$> input tx) = (previous_output <$> input (unsigned_tx psbt)) ∧
      ∃ signed, unsigned_tx signed = unsigned_tx psbt ∧
        (extract_tx signed = inl tx ∨ extract_tx signed = inr (MissingInputValue tx)) ∧
        ∀ i txin k w, input (unsigned_tx psbt) !! i = Some txin → wallets !! k = Some w →
          wallet_owns (previous_output txin)
            (populate_one wallets (previous_output txin)
               (default default_input (psbt_inputs psbt !! i))) w = true →
          ∃ inp, psbt_inputs signed !! i = Some inp ∧ is_finalized inp = true
  | Err e => e = OnchainTxSigningFailed
  | Panic => False
  end.
Proof. apply sign_psbt_all_wallets_spec. Qed.

(** Before signing, every input of the transaction gets a PSBT input that keeps
    all data it already had, and one whose output any wallet knows, spent or not,
    carries that output. *)
Theorem populate_keeps_and_fills psbt wallets :
  (length (psbt_inputs psbt) ≤ length (input (unsigned_tx psbt)))%nat →
  ∃ psbt', populate_psbt_inputs_from_wallets psbt wallets = Ok psbt' ∧
    unsigned_tx psbt' = unsigned_tx psbt ∧
    length (psbt_inputs psbt') = length (input (unsigned_tx psbt)) ∧
    ∀ i txin, input (unsigned_tx psbt) !! i = Some txin →
      ∃ inp, psbt_inputs psbt' !! i = Some inp ∧
        extends (default default_input (psbt_inputs psbt !! i)) inp ∧
        (∀ k w, wallets !! k = Some w →
           is_Some (get_utxo w (previous_output txin)) ∨
           is_Some (utxo.known_output w (previous_output txin)) →
           is_Some (witness_utxo inp)).
Proof.
  intros Hlen. destruct (populate_total psbt wallets Hlen) as (psbt' & Hp & Htx & Hl & Hat).
  exists psbt'. split_and!; [done..|]. intros i txin Hi. eexists. split; [by apply Hat|].
  split; [apply populate_one_extends|]. eauto using populate_one_known.
Qed.
End signing.
End signing.
