(* ===== verification/AggRbf.v ===== *)
(** * Cross-wallet replace-by-fee ([bdk-wallet-aggregate/src/rbf.rs])

    The replacement keeps the original inputs, may add others, and pays the higher
    fee out of the primary wallet's change output.  The theorems state what the
    replacement pays, to whom, and that it meets the relay rules for
    replacements. *)

From S2P Require Import Prelude Types Bdk AggTypes AggUtxo AggSigning.
Import aggregate.

Module rbf.
Section rbf.
Context {K : Type} `{Countable K} {O : IterOrder K}.
Context {BTC : Bitcoin} {W P U Ev : Type} {BDK : Bdk W P U Ev}.
Implicit Types (wallets : gmap K W) (primary_key : K) (original_tx : Transaction).

Record ReplacementRequirements := {
  change_idx : option nat;
  recipient_value : Z;
  required_fee : Z;
}.

Definition minimum_replacement_fee_rate (original_fee : Amount) (original_weight : Weight) :
    outcome Error FeeRate :=
  let original_fee_rate := fee_rate_of original_fee original_weight in
  ok_or (checked_add64 original_fee_rate BROADCAST_MIN) InvalidFeeRate.

Definition input_value_in (o : OutPoint) (wallet : W) : option Z :=
  match get_utxo wallet o with
  | Some utxo => Some (value (txout utxo))
  | None => value <$> utxo.known_output wallet o
  end.

Definition get_input_value (o : OutPoint) wallets : outcome Error Z :=
  ok_or (find_map (input_value_in o) (values wallets)) (UtxoNotFoundLocally o).

Definition original_input_value original_tx wallets : outcome Error Z :=
  try_fold (λ total input,
    v ← get_input_value (previous_output input) wallets;
    ok_or (checked_add64 total v) OnchainTxCreationFailed) 0 (input original_tx).

Definition rbf_input (o : OutPoint) : TxIn :=
  {| previous_output := o; script_sig := []; sequence := ENABLE_RBF_NO_LOCKTIME;
     witness := [] |}.

Definition replacement_inputs original_tx (extra_utxos : list UtxoPsbtInfo) : list TxIn :=
  ((λ txin, rbf_input (previous_output txin)) <$> input original_tx) ++
  ((λ info, rbf_input (info_outpoint info)) <$> extra_utxos).

(** Whether the primary wallet's change keychain owns an output. *)
Definition is_internal_output (primary_wallet : W) (output : TxOut) : bool :=
  match derivation_of_spk primary_wallet (script_pubkey output) with
  | Some (keychain, _) => bool_decide (keychain = Internal)
  | None => false
  end.

Definition find_internal_change_output wallets primary_key (transaction : Transaction) :
    option (nat * TxOut) :=
  if (length (output transaction) <=? 1)%nat then None
  else
    primary_wallet ← wallets !! primary_key;
    last (List.filter (λ '(_, output), is_internal_output primary_wallet output)
            (enumerate (output transaction))).

(** Weights are added with the wrapping [u64] addition of [Weight]. *)
Definition estimate_tx_weight wallets (inputs : list TxIn) (outputs : list TxOut) : Weight :=
  let unsigned_tx :=
    {| version := 2; lock_time := 0; input := inputs; output := outputs |} in
  let witness_overhead := wrap64 (2 + Z.of_nat (length inputs)) in
  let satisfaction_weight :=
    foldl (λ weight input,
      wrap64 (weight + default 428
        (utxo.satisfaction_weight_for_outpoint (previous_output input) wallets)))
      0 inputs in
  wrap64 (wrap64 (tx_weight unsigned_tx + witness_overhead) + satisfaction_weight).

Definition replacement_requirements wallets primary_key original_tx
    (original_input_value : Z) (replacement_inputs : list TxIn) (new_fee_rate : FeeRate) :
    outcome Error ReplacementRequirements :=
  original_output_value ← try_fold (λ total output,
    ok_or (checked_add64 total (value output)) OnchainTxCreationFailed) 0 (output original_tx);
  original_fee ← ok_or (checked_sub original_input_value original_output_value)
                   OnchainTxCreationFailed;
  minimum_fee_rate ← minimum_replacement_fee_rate original_fee (tx_weight original_tx);
  if new_fee_rate <? minimum_fee_rate then Err InvalidFeeRate
  else
    let estimated_weight := estimate_tx_weight wallets replacement_inputs (output original_tx) in
    target_fee ← ok_or (fee_wu new_fee_rate estimated_weight) InvalidFeeRate;
    incremental_fee ← ok_or (fee_wu BROADCAST_MIN estimated_weight) InvalidFeeRate;
    minimum_replacement_fee ← ok_or (checked_add64 original_fee incremental_fee)
                                OnchainTxCreationFailed;
    let required_fee := Z.max target_fee minimum_replacement_fee in
    let change_idx := fst <$> find_internal_change_output wallets primary_key original_tx in
    recipient_value ← try_fold (λ total '(_, output),
        ok_or (checked_add64 total (value output)) OnchainTxCreationFailed) 0
      (List.filter (λ '(index, _), negb (bool_decide (Some index = change_idx)))
         (enumerate (output original_tx)));
    Ok {| change_idx := change_idx; recipient_value := recipient_value;
          required_fee := required_fee |}.

Definition additional_input_value_needed wallets primary_key original_tx
    (new_fee_rate : FeeRate) : outcome Error Amount :=
  original_input_value ← original_input_value original_tx wallets;
  let replacement_inputs := replacement_inputs original_tx [] in
  requirements ← replacement_requirements wallets primary_key original_tx
                   original_input_value replacement_inputs new_fee_rate;
  if decide (change_idx requirements = None) then Err InsufficientFunds
  else
    required_value ← ok_or
      (v ← checked_add64 (required_fee requirements) (recipient_value requirements);
       checked_add64 v utxo.DUST_LIMIT_SATS) OnchainTxCreationFailed;
    Ok (saturating_sub required_value original_input_value).

(** The value an added input brings, read from its PSBT data. *)
Definition extra_value (total : Z) (info : UtxoPsbtInfo) : outcome Error Z :=
  v ← ok_or (value <$> witness_utxo (psbt_input info)) OnchainTxCreationFailed;
  ok_or (checked_add64 total v) OnchainTxCreationFailed.

(** [build_cross_wallet_rbf] up to signing. *)
Definition unsigned_replacement wallets primary_key original_tx (new_fee_rate : FeeRate)
    (extra_utxos : list UtxoPsbtInfo) : outcome Error Transaction :=
  original_input_value ← original_input_value original_tx wallets;
  total_input_value ← try_fold extra_value original_input_value extra_utxos;
  let new_inputs := replacement_inputs original_tx extra_utxos in
  requirements ← replacement_requirements wallets primary_key original_tx
                   original_input_value new_inputs new_fee_rate;
  required_value ← ok_or (checked_add64 (required_fee requirements)
                            (recipient_value requirements)) OnchainTxCreationFailed;
  available_for_change ← ok_or (checked_sub total_input_value required_value)
                           InsufficientFunds;
  match change_idx requirements with
  | Some idx =>
      if available_for_change <? utxo.DUST_LIMIT_SATS then Err InsufficientFunds
      else
        out ← expect (output original_tx !! idx);
        let new_outputs :=
          <[idx := {| value := available_for_change; script_pubkey := script_pubkey out |}]>
            (output original_tx) in
        Ok {| version := version original_tx; lock_time := lock_time original_tx;
              input := new_inputs; output := new_outputs |}
  | None => Err InsufficientFunds
  end.

Definition build_cross_wallet_rbf wallets primary_key original_tx (new_fee_rate : FeeRate)
    (extra_utxos : list UtxoPsbtInfo) : outcome Error Transaction :=
  unsigned_tx ← unsigned_replacement wallets primary_key original_tx new_fee_rate extra_utxos;
  signing.sign_owned_inputs unsigned_tx wallets.

(** ** Sums over outputs *)

Definition total_value (outs : list TxOut) : Z := sum_Z (value <$> outs).

Lemma elem_of_enumerate {A} (xs : list A) i x : (i, x) ∈ enumerate xs ↔ xs !! i = Some x.
Proof. unfold enumerate. apply elem_of_zip_seq. Qed.

Lemma find_internal_change_output_Some wallets primary_key tx i out :
  find_internal_change_output wallets primary_key tx = Some (i, out) →
  (1 < length (output tx))%nat ∧ output tx !! i = Some out ∧
  ∃ w, wallets !! primary_key = Some w ∧ is_internal_output w out = true.
Proof.
  unfold find_internal_change_output.
  destruct (Nat.leb_spec (length (output tx)) 1); [done|].
  intros (w & Hw & Hl)%bind_Some. apply last_Some_elem_of in Hl.
  rewrite list_elem_of_In, filter_In, <- list_elem_of_In in Hl.
  destruct Hl as [Hin Hint]. apply elem_of_enumerate in Hin. eauto.
Qed.

Lemma change_idx_lookup wallets primary_key tx i :
  fst <$> find_internal_change_output wallets primary_key tx = Some i →
  ∃ out, output tx !! i = Some out ∧
    find_internal_change_output wallets primary_key tx = Some (i, out).
Proof.
  destruct (find_internal_change_output _ _ _) as [[j out]|] eqn:Hf; simpl; intros; simplify_eq.
  apply find_internal_change_output_Some in Hf as Hs. naive_solver.
Qed.

(** The recipients' total and the change make up the total. *)
Lemma sum_without_index (outs : list TxOut) : ∀ n i out,
  outs !! i = Some out →
  sum_Z ((λ p : nat * TxOut, value p.2) <$>
     List.filter (λ '(index, _), negb (bool_decide (Some index = Some (n + i)%nat)))
       (zip (seq n (length outs)) outs)) + value out
  = total_value outs.
Proof.
  unfold total_value. induction outs as [|o outs IH]; intros n i out Hi; [done|].
  cbn [length seq zip_with List.filter]. destruct i as [|i]; simpl in Hi.
  - simplify_eq. rewrite Nat.add_0_r, bool_decide_eq_true_2 by done. cbn [negb].
    rewrite sum_Z_fmap_cons. rewrite (filter_indices_above n (S n)) by lia.
    assert ((λ p : nat * TxOut, value p.2) <$> zip (seq (S n) (length outs)) outs
            = value <$> outs) as ->; [|lia].
    change (λ p : nat * TxOut, value p.2) with (value ∘ snd (A := nat)).
    rewrite (list_fmap_compose snd value), snd_zip; [done|]. rewrite length_seq. lia.
  - rewrite bool_decide_eq_false_2 by (intros ?; simplify_eq; lia). cbn [negb].
    rewrite !sum_Z_fmap_cons. rewrite <- Nat.add_succ_comm.
    specialize (IH (S n) i out Hi). simpl in *. lia.
Qed.

Lemma total_value_insert outs i out out' :
  outs !! i = Some out →
  total_value (<[i := out']> outs) = total_value outs - value out + value out'.
Proof.
  unfold total_value. revert i. induction outs as [|o outs IH]; intros [|i] Hi; try done.
  - simpl in Hi. simplify_eq. change (<[0%nat:=out']> (out :: outs)) with (out' :: outs).
    rewrite !sum_Z_fmap_cons. lia.
  - change (<[S i:=out']> (o :: outs)) with (o :: <[i:=out']> outs).
    rewrite !sum_Z_fmap_cons. specialize (IH i Hi). lia.
Qed.

(** ** The requirements *)

(** The values of the original inputs, as the wallets know them. *)
Lemma original_input_value_Ok tx wallets v :
  original_input_value tx wallets = Ok v →
  ∃ vs, Forall2 (λ txin x, get_input_value (previous_output txin) wallets = Ok x)
          (input tx) vs ∧ v = sum_Z vs.
Proof.
  unfold original_input_value. intros Hv.
  apply try_fold_checked_values in Hv as (vs & Hvs & ->). exists vs. split; [done|lia].
Qed.

Lemma replacement_requirements_Ok wallets primary_key tx v inputs rate r :
  replacement_requirements wallets primary_key tx v inputs rate = Ok r →
  ∃ target_fee incremental_fee,
    let w := estimate_tx_weight wallets inputs (output tx) in
    total_value (output tx) ≤ v ∧
    fee_rate_of (v - total_value (output tx)) (tx_weight tx) + BROADCAST_MIN ≤ rate ∧
    fee_wu rate w = Some target_fee ∧ fee_wu BROADCAST_MIN w = Some incremental_fee ∧
    required_fee r =
      Z.max target_fee (v - total_value (output tx) + incremental_fee) ∧
    change_idx r = fst <$> find_internal_change_output wallets primary_key tx ∧
    (∀ i out, change_idx r = Some i → output tx !! i = Some out →
       recipient_value r = total_value (output tx) - value out).
Proof.
  unfold replacement_requirements, minimum_replacement_fee_rate. intros Hr.
  apply bind_Ok in Hr as (outs & Houts & Hr).
  apply try_fold_checked_add in Houts. inv_outcome. inv_checked.
  match goal with Hr : (if ?a <? ?b then _ else _) = Ok _ |- _ =>
    destruct (Z.ltb_spec a b) as [|Hmin]; [done|] end.
  inv_outcome. inv_checked. simpl.
  match goal with Hf : try_fold _ 0 (List.filter _ _) = Ok _ |- _ => rename Hf into Hrec end.
  replace (total_value (output tx)) with (0 + sum_Z (value <$> output tx))
    by (unfold total_value; lia).
  eexists _, _. do 6 (split; [done|]). intros i out Hi Hout.
  erewrite (try_fold_ext _ (λ t p, ok_or (checked_add64 t (value p.2)) OnchainTxCreationFailed))
    in Hrec by (by intros ? [? ?]).
  apply try_fold_checked_add in Hrec as ->. rewrite Hi.
  pose proof (sum_without_index (output tx) 0 i out Hout) as Hs.
  unfold enumerate, total_value in *. simpl in Hs. lia.
Qed.

Lemma estimate_tx_weight_range wallets inputs outputs :
  is_u64 (estimate_tx_weight wallets inputs outputs).
Proof. unfold estimate_tx_weight. auto with ldk. Qed.

Lemma replacement_inputs_outpoints tx extra :
  previous_output <$> replacement_inputs tx extra
  = (previous_output <$> input tx) ++ (info_outpoint <$> extra).
Proof.
  unfold replacement_inputs. rewrite fmap_app, <- !list_fmap_compose. done.
Qed.

Lemma extra_values_Ok total extra v :
  try_fold extra_value total extra = Ok v →
  ∃ es, Forall2 (λ info e, value <$> witness_utxo (psbt_input info) = Some e) extra es ∧
    v = total + sum_Z es.
Proof.
  intros Hv.
  apply (try_fold_checked_values (λ info,
    ok_or (value <$> witness_utxo (psbt_input info)) OnchainTxCreationFailed)) in Hv
    as (es & Hes & ->).
  exists es. split; [|done]. eapply Forall2_impl; [exact Hes|]. by intros info e ?%ok_or_Ok.
Qed.

(** The unsigned replacement, described by what it spends and pays. *)
Lemma unsigned_replacement_Ok wallets primary_key tx rate extra tx' :
  unsigned_replacement wallets primary_key tx rate extra = Ok tx' →
  ∃ vs es i out change target_fee incremental_fee,
    let w := estimate_tx_weight wallets (replacement_inputs tx extra) (output tx) in
    let original_fee := sum_Z vs - total_value (output tx) in
    original_input_value tx wallets = Ok (sum_Z vs) ∧
    Forall2 (λ txin v, get_input_value (previous_output txin) wallets = Ok v) (input tx) vs ∧
    Forall2 (λ info v, value <$> witness_utxo (psbt_input info) = Some v) extra es ∧
    input tx' = replacement_inputs tx extra ∧
    find_internal_change_output wallets primary_key tx = Some (i, out) ∧
    output tx' = <[i := {| value := change; script_pubkey := script_pubkey out |}]> (output tx) ∧
    utxo.DUST_LIMIT_SATS ≤ change ∧ 0 ≤ original_fee ∧
    fee_wu rate w = Some target_fee ∧ fee_wu BROADCAST_MIN w = Some incremental_fee ∧
    sum_Z vs + sum_Z es - total_value (output tx')
      = Z.max target_fee (original_fee + incremental_fee).
Proof.
  unfold unsigned_replacement. intros Hu.
  apply bind_Ok in Hu as (v & Hv & Hu). pose proof Hv as Hvs.
  apply original_input_value_Ok in Hvs as (vs & Hvs & ->).
  apply bind_Ok in Hu as (tot & Htot & Hu). apply extra_values_Ok in Htot as (es & Hes & ->).
  apply bind_Ok in Hu as (r & Hr & Hu).
  apply replacement_requirements_Ok in Hr as (tf & inc & ? & _ & ? & ? & Hfee & Hidx & Hrec).
  inv_outcome. inv_checked.
  destruct (change_idx r) as [i|] eqn:Hi; [|done]. symmetry in Hidx.
  apply change_idx_lookup in Hidx as (out & Hout & Hfind).
  match goal with Hu : (if ?a <? ?b then _ else _) = Ok _ |- _ =>
    destruct (Z.ltb_spec a b) as [|Hdust]; [done|] end.
  match goal with Hu : (expect _ ≫= _) = Ok _ |- _ =>
    rewrite Hout in Hu; injection Hu as <- end.
  eexists vs, es, i, out, _, tf, inc. cbv zeta. repeat split; try done; [lia|].
  cbn [output]. rewrite (total_value_insert _ _ _ _ Hout). cbn [value].
  specialize (Hrec i out eq_refl Hout). lia.
Qed.

Context {BTCS : BitcoinSpec} {BDKS : BdkSpec W P U Ev}.

Lemma sign_owned_inputs_Ok tx wallets tx' :
  signing.sign_owned_inputs tx wallets = Ok tx' →
  output tx' = output tx ∧ (previous_output <$> input tx') = (previous_output <$> input tx).
Proof.
  unfold signing.sign_owned_inputs. intros Hs. inv_outcome.
  match goal with Hp : from_unsigned_tx _ = Some _ |- _ =>
    apply from_unsigned_tx_Some in Hp as [<- _] end.
  by eapply signing.sign_psbt_all_wallets_shape.
Qed.

Lemma build_cross_wallet_rbf_Ok wallets primary_key tx rate extra tx' :
  build_cross_wallet_rbf wallets primary_key tx rate extra = Ok tx' →
  (previous_output <$> input tx')
    = (previous_output <$> input tx) ++ (info_outpoint <$> extra) ∧
  ∃ i out change,
    find_internal_change_output wallets primary_key tx = Some (i, out) ∧
    output tx' = <[i := {| value := change; script_pubkey := script_pubkey out |}]> (output tx) ∧
    utxo.DUST_LIMIT_SATS ≤ change.
Proof.
  unfold build_cross_wallet_rbf.
  intros (utx & Hu & [Hout Hprev]%sign_owned_inputs_Ok)%bind_Ok.
  apply unsigned_replacement_Ok in Hu
    as (vs & es & i & out & change & tf & inc & _ & _ & _ & Hin & Hf & Hout' & Hd & _).
  rewrite Hprev, Hin, replacement_inputs_outpoints, Hout. split; [done|]. by exists i, out, change.
Qed.

(** C2. A cross-wallet replacement spends exactly the original inputs and the added
    ones, leaves every output but the primary wallet's change as it was, keeps
    the change above the dust limit, and pays a fee that is at the requested
    rate for the estimated weight and exceeds the original fee by at least one
    satoshi per virtual byte of it. *)
Theorem replacement_pays wallets primary_key tx rate extra tx' :
  0 ≤ rate →
  build_cross_wallet_rbf wallets primary_key tx rate extra = Ok tx' →
  ∃ vs es i out change,
    let w := estimate_tx_weight wallets (replacement_inputs tx extra) (output tx) in
    let original_fee := sum_Z vs - total_value (output tx) in
    let fee := sum_Z vs + sum_Z es - total_value (output tx') in
    Forall2 (λ txin v, get_input_value (previous_output txin) wallets = Ok v) (input tx) vs ∧
    Forall2 (λ info v, value <$> witness_utxo (psbt_input info) = Some v) extra es ∧
    (previous_output <$> input tx')
      = (previous_output <$> input tx) ++ (info_outpoint <$> extra) ∧
    find_internal_change_output wallets primary_key tx = Some (i, out) ∧
    output tx' = <[i := {| value := change; script_pubkey := script_pubkey out |}]> (output tx) ∧
    utxo.DUST_LIMIT_SATS ≤ change ∧
    rate * w ≤ 1000 * fee ∧ w ≤ 4 * (fee - original_fee).
Proof.
  intros Hrate Hb. unfold build_cross_wallet_rbf in Hb.
  apply bind_Ok in Hb as (utx & Hu & [Hout Hprev]%sign_owned_inputs_Ok).
  apply unsigned_replacement_Ok in Hu
    as (vs & es & i & out & change & tf & inc & _ & ? & ? & Hin & ? & Hout' & ? & ? & Htf & Hinc & Hfee).
  pose proof (estimate_tx_weight_range wallets (replacement_inputs tx extra) (output tx)) as [Hw _].
  set (w := estimate_tx_weight _ _ _) in *.
  apply (fee_wu_bounds _ _ _ Hrate Hw) in Htf. rewrite BROADCAST_MIN_value in Hinc.
  apply fee_wu_bounds in Hinc; [|lia|done].
  exists vs, es, i, out, change. cbv zeta. rewrite Hout, Hprev, Hin, replacement_inputs_outpoints.
  repeat split; try done; lia.
Qed.

(** [additional_input_value_needed] measures exactly what the change-only bump
    lacks: it is 0 when that bump can be built, and otherwise the bump fails with
    [InsufficientFunds] and the missing value is positive. *)
Theorem additional_value_exact wallets primary_key tx rate d :
  additional_input_value_needed wallets primary_key tx rate = Ok d →
  (d = 0 ∧ ∃ utx, unsigned_replacement wallets primary_key tx rate [] = Ok utx) ∨
  (0 < d ∧ unsigned_replacement wallets primary_key tx rate [] = Err InsufficientFunds).
Proof.
  unfold additional_input_value_needed, unsigned_replacement. intros Hd.
  apply bind_Ok in Hd as (v & -> & Hd). cbn [mbind outcome_bind try_fold].
  apply bind_Ok in Hd as (r & Hr & Hd). rewrite Hr. cbn [mbind outcome_bind].
  apply replacement_requirements_Ok in Hr as (_ & _ & _ & _ & _ & _ & _ & Hidx & _).
  case_decide as Hnone; [done|]. destruct (change_idx r) as [i|]; [clear Hnone|done].
  symmetry in Hidx. apply change_idx_lookup in Hidx as (out & Hout & _).
  apply bind_Ok in Hd as (req & (x & Hx & Hreq)%ok_or_Ok%bind_Some & Hd).
  rewrite Hx. cbn [mbind outcome_bind ok_or]. inv_checked. simplify_eq. unfold saturating_sub.
  destruct (checked_sub v (required_fee r + recipient_value r)) as [a|] eqn:Ha;
    cbn [mbind outcome_bind ok_or]; inv_checked.
  - destruct (Z.ltb_spec (v - (required_fee r + recipient_value r)) utxo.DUST_LIMIT_SATS);
      [right; split; [lia|done]|].
    left. split; [lia|]. rewrite Hout. cbn [mbind outcome_bind expect]. eauto.
  - right. split; [|done]. unfold utxo.DUST_LIMIT_SATS. lia.
Qed.
End rbf.
End rbf.
