(* ===== verification/Aggregate.v ===== *)
(** * The aggregate wallet: membership, queries and chain data
      ([bdk-wallet-aggregate/src/lib.rs])

    [AggregateWallet] holds a map of wallets, a map of their persisters and the key
    of the primary wallet.  This file models the operations that change the set of
    wallets, answer queries over all of them, hand out addresses and apply chain
    data; building and signing transactions is in [AggBuild].  [expect] on the
    primary wallet is [Panic]. *)

From Stdlib Require Import Strings.Byte.
From S2P Require Import Prelude Types Bdk AggTypes AggUtxo AggSigning AggRbf.
Import aggregate.

Definition BIP32_MAX_NORMAL_INDEX : Z := 2 ^ 31 - 1.
Definition MAX_ADDRESS_INFO_BATCH_COUNT : Z := 10000.

Definition validate_derivation_index (index : Z) : outcome Error unit :=
  if BIP32_MAX_NORMAL_INDEX <? index then Err InvalidQuantity else Ok tt.

Definition validate_derivation_range (start_index count : Z) : outcome Error unit :=
  _ ← validate_derivation_index start_index;
  if MAX_ADDRESS_INFO_BATCH_COUNT <? count then Err InvalidQuantity
  else if count =? 0 then Ok tt
  else
    last_index ← ok_or (checked_add32 start_index (count - 1)) InvalidQuantity;
    validate_derivation_index last_index.

Definition map_tx_builder_error (error : CreateTxError) : Error :=
  match error with
  | CoinSelectionError => InsufficientFunds
  | _ => OnchainTxCreationFailed
  end.

Record CanonicalTransactionState := {
  confirmation : option ConfirmationBlockTime;
  last_seen : Z;
}.

(** [<[u8; 32]>::cmp] *)
Fixpoint bytes_compare (xs ys : list u8) : comparison :=
  match xs, ys with
  | [], [] => Eq
  | [], _ :: _ => Lt
  | _ :: _, [] => Gt
  | x :: xs, y :: ys =>
      match u8_to_Z x ?= u8_to_Z y with
      | Eq => bytes_compare xs ys
      | c => c
      end
  end.

(** The order of [current_best_block]: by height, then by hash. *)
Definition checkpoint_compare (a b : CheckPoint) : comparison :=
  match cp_height a ?= cp_height b with
  | Eq => bytes_compare (cp_hash a) (cp_hash b)
  | c => c
  end.

(** [iter.min_by(cmp)]: the first of the least elements. *)
Definition min_by {A} (cmp : A → A → comparison) (xs : list A) : option A :=
  match xs with
  | [] => None
  | x :: xs =>
      Some (foldl (λ a b, match cmp a b with Gt => b | _ => a end) x xs)
  end.

(** ** Lemmas on the order of checkpoints *)

Lemma bytes_compare_opp xs ys : bytes_compare ys xs = CompOpp (bytes_compare xs ys).
Proof.
  revert ys. induction xs as [|x xs IH]; intros [|y ys]; simpl; [done..|].
  rewrite (Z.compare_antisym (u8_to_Z x)). by destruct (u8_to_Z x ?= u8_to_Z y); simpl.
Qed.

Lemma bytes_compare_trans xs ys zs :
  bytes_compare xs ys ≠ Gt → bytes_compare ys zs ≠ Gt → bytes_compare xs zs ≠ Gt.
Proof.
  revert ys zs. induction xs as [|x xs IH]; intros [|y ys] [|z zs]; simpl; try done.
  destruct (Z.compare_spec (u8_to_Z x) (u8_to_Z y)), (Z.compare_spec (u8_to_Z y) (u8_to_Z z)),
    (Z.compare_spec (u8_to_Z x) (u8_to_Z z)); try done || lia; eauto.
Qed.

Lemma checkpoint_compare_opp x y : checkpoint_compare y x = CompOpp (checkpoint_compare x y).
Proof.
  unfold checkpoint_compare. rewrite (Z.compare_antisym (cp_height x)).
  destruct (cp_height x ?= cp_height y); simpl; [apply bytes_compare_opp|done..].
Qed.

Lemma checkpoint_compare_trans x y z :
  checkpoint_compare x y ≠ Gt → checkpoint_compare y z ≠ Gt → checkpoint_compare x z ≠ Gt.
Proof.
  unfold checkpoint_compare.
  destruct (Z.compare_spec (cp_height x) (cp_height y)),
    (Z.compare_spec (cp_height y) (cp_height z)),
    (Z.compare_spec (cp_height x) (cp_height z)); try done || lia.
  apply bytes_compare_trans.
Qed.

Lemma foldl_min_checkpoint x xs :
  let m := foldl (λ a b, match checkpoint_compare a b with Gt => b | _ => a end) x xs in
  m ∈ x :: xs ∧ ∀ y, y ∈ x :: xs → checkpoint_compare m y ≠ Gt.
Proof.
  assert (∀ y, checkpoint_compare y y ≠ Gt) as Hrefl.
  { intros y Hy. pose proof (checkpoint_compare_opp y y) as Ho. by rewrite Hy in Ho. }
  revert x. induction xs as [|z xs IH]; intros x; simpl.
  { split; [apply list_elem_of_here|]. intros y ->%list_elem_of_singleton. apply Hrefl. }
  destruct (checkpoint_compare x z) eqn:Hxz;
    [destruct (IH x) as [Hin Hle]|destruct (IH x) as [Hin Hle]|destruct (IH z) as [Hin Hle]];
    (split; [rewrite !elem_of_cons in *; tauto|]); intros y [->|[->|Hy]%elem_of_cons]%elem_of_cons;
    try (apply Hle; rewrite !elem_of_cons in *; tauto).
  - apply (checkpoint_compare_trans _ x); [apply Hle; rewrite !elem_of_cons in *; tauto|by rewrite Hxz].
  - apply (checkpoint_compare_trans _ x); [apply Hle; rewrite !elem_of_cons in *; tauto|by rewrite Hxz].
  - apply (checkpoint_compare_trans _ z); [apply Hle; rewrite !elem_of_cons in *; tauto|].
    rewrite checkpoint_compare_opp, Hxz. done.
Qed.

Module AggregateWallet.
Section aggregate.
Context {K : Type} `{Countable K} {O : IterOrder K} {OT : IterOrder Txid}.
Context {BTC : Bitcoin} {W P U Ev : Type} {BDK : Bdk W P U Ev} {CS : CoinSelection}.

Record AggregateWallet := mkAggregateWallet {
  wallets : gmap K W;
  persisters : gmap K P;
  primary : K;
}.
Implicit Types (a : AggregateWallet) (key : K).

Definition set_wallet key (w : W) a : AggregateWallet :=
  {| wallets := <[key := w]> (wallets a); persisters := persisters a; primary := primary a |}.
Definition set_persister key (p : P) a : AggregateWallet :=
  {| wallets := wallets a; persisters := <[key := p]> (persisters a); primary := primary a |}.

(** ** Construction and membership *)

(** In the release profile the [debug_assert!] on duplicate keys is absent, and a
    later wallet replaces an earlier one with its key. *)
Definition new (primary_wallet : W) (primary_persister : P) (primary_key : K)
    (additional_wallets : list (K * W * P)) : AggregateWallet :=
  let '(wallets, persisters) :=
    foldl (λ '(ws, ps) '(key, wallet, persister),
             (<[key := wallet]> ws, <[key := persister]> ps))
      ({[primary_key := primary_wallet]} : gmap K W, {[primary_key := primary_persister]} : gmap K P)
      additional_wallets in
  {| wallets := wallets; persisters := persisters; primary := primary_key |}.

Definition loaded_keys a : list K := keys (wallets a).

Definition primary_wallet a : outcome Error W := expect (wallets a !! primary a).

(** The accessors that hand out mutable references; [f] is what the caller does with
    the reference.  Those to the maps let the caller insert and remove entries. *)
Definition wallets_mut (f : gmap K W → gmap K W) : cmd AggregateWallet Error unit := λ a,
  ({| wallets := f (wallets a); persisters := persisters a; primary := primary a |}, Ok tt).
Definition persisters_mut (f : gmap K P → gmap K P) : cmd AggregateWallet Error unit := λ a,
  ({| wallets := wallets a; persisters := f (persisters a); primary := primary a |}, Ok tt).
Definition wallet_mut key (f : W → W) : cmd AggregateWallet Error (option unit) := λ a,
  match wallets a !! key with
  | Some w => (set_wallet key (f w) a, Ok (Some tt))
  | None => (a, Ok None)
  end.
Definition primary_wallet_mut (f : W → W) : cmd AggregateWallet Error unit := λ a,
  match wallets a !! primary a with
  | Some w => (set_wallet (primary a) (f w) a, Ok tt)
  | None => (a, Panic)
  end.
Definition primary_persister_mut (f : P → P) : cmd AggregateWallet Error unit := λ a,
  match persisters a !! primary a with
  | Some q => (set_persister (primary a) (f q) a, Ok tt)
  | None => (a, Panic)
  end.

Definition add_wallet key (wallet : W) (persister : P) : cmd AggregateWallet Error unit := λ a,
  match wallets a !! key with
  | Some _ => (a, Err WalletAlreadyExists)
  | None => (set_persister key persister (set_wallet key wallet a), Ok tt)
  end.

Definition set_primary (new_primary : K) : cmd AggregateWallet Error unit := λ a,
  match wallets a !! new_primary with
  | None => (a, Err WalletNotFound)
  | Some _ =>
      ({| wallets := wallets a; persisters := persisters a; primary := new_primary |}, Ok tt)
  end.

Definition remove_wallet key : cmd AggregateWallet Error unit := λ a,
  if decide (key = primary a) then (a, Err CannotRemovePrimary)
  else if decide (wallets a !! key = None) then (a, Err WalletNotFound)
  else if decide (persisters a !! key = None) then (a, Err PersisterNotFound)
  else ({| wallets := delete key (wallets a); persisters := delete key (persisters a);
           primary := primary a |}, Ok tt).

(** [wallet.persist(persister).map_err(..)], on the wallet [w] stored under [key]. *)
Definition persist_with key (w : W) (p : P) : cmd AggregateWallet Error unit := λ a,
  let '(w, p, ok) := wallet_persist w p in
  (set_persister key p (set_wallet key w a), if ok then Ok tt else Err PersistenceFailed).

(** Keep the changed wallet, look its persister up, and persist. *)
Definition persist_wallet key (w : W) : cmd AggregateWallet Error unit :=
  _ ← modify (set_wallet key w);
  with_state (λ a,
    p ← lift (ok_or (persisters a !! key) PersisterNotFound);
    persist_with key w p).

Definition persist_all : cmd AggregateWallet Error unit :=
  with_state (λ a, for_each (λ '(key, wallet), persist_wallet key wallet) (iter (wallets a))).

(** [if let Err(e) = self.persist_all() { self.remove_wallet(key).expect(..); .. }] *)
Definition persist_or_remove key : cmd AggregateWallet Error unit := λ a,
  match persist_all a with
  | (a, Err e) =>
      match remove_wallet key a with
      | (a, Ok _) => (a, Err e)
      | (a, _) => (a, Panic)
      end
  | r => r
  end.

Definition add_wallet_and_persist key (wallet : W) (persister : P) :
    cmd AggregateWallet Error unit :=
  _ ← add_wallet key wallet persister;
  persist_or_remove key.

(** ** Balance *)

Definition add_balance (total balance : Balance) : outcome Error Balance :=
  confirmed' ← amount_add (confirmed total) (confirmed balance);
  trusted' ← amount_add (trusted_pending total) (trusted_pending balance);
  untrusted' ← amount_add (untrusted_pending total) (untrusted_pending balance);
  immature' ← amount_add (immature total) (immature balance);
  Ok (mkBalance confirmed' trusted' untrusted' immature').

Definition zero_balance : Balance := mkBalance 0 0 0 0.

Definition balance a : outcome Error Balance :=
  try_fold (λ total wallet, add_balance total (balance_of wallet)) zero_balance
    (values (wallets a)).

Definition balance_for a key : outcome Error Balance :=
  ok_or (balance_of <$> wallets a !! key) WalletNotFound.

Definition balance_filtered a (filter : K → bool) : outcome Error Balance :=
  try_fold (λ total '(key, wallet),
    if filter key then add_balance total (balance_of wallet) else Ok total) zero_balance
    (iter (wallets a)).

(** ** Outputs *)

Definition list_unspent a : list LocalOutput :=
  flat_map wallet_list_unspent (values (wallets a)).

Definition confirmed_txids (wallet : W) : gset Txid :=
  list_to_set (wtx_txid <$> List.filter (λ wtx, is_confirmed (chain_position wtx))
                              (transactions wallet)).

Definition list_confirmed_unspent a : list LocalOutput :=
  flat_map (λ wallet,
    List.filter (λ utxo, bool_decide (txid (outpoint utxo) ∈ confirmed_txids wallet))
      (wallet_list_unspent wallet)) (values (wallets a)).

Definition parse_wpkh (explicit : Script) : option (list u8) :=
  if decide (length explicit = 22%nat ∧ explicit !! 0%nat = Some x00 ∧ explicit !! 1%nat = Some x14)
  then Some (take 20 (drop 2 explicit)) else None.

(** The first wallet that has the output decides. *)
Fixpoint derive_wpkh_from (utxo : LocalOutput) (ws : list W) : option (list u8) :=
  match ws with
  | [] => None
  | wallet :: ws =>
      match get_utxo wallet (outpoint utxo) with
      | Some _ => explicit_script wallet (keychain utxo) (derivation_index utxo) ≫= parse_wpkh
      | None => derive_wpkh_from utxo ws
      end
  end.
Definition derive_wpkh_for_p2sh a (utxo : LocalOutput) : option (list u8) :=
  derive_wpkh_from utxo (values (wallets a)).

(** ** Transactions *)

Definition find_wallet_for_tx a (t : Txid) : option K :=
  find_map (λ '(key, wallet), (λ _, key) <$> get_tx wallet t) (iter (wallets a)).

Definition find_tx a (t : Txid) : option Transaction := utxo.lookup_tx t (wallets a).

(** What one wallet says of a transaction. *)
Definition tx_state (wtx : WalletTx) : CanonicalTransactionState :=
  match chain_position wtx with
  | Confirmed anchor _ => {| confirmation := Some anchor; last_seen := 0 |}
  | Unconfirmed _ last_seen => {| confirmation := None; last_seen := default 0 last_seen |}
  end.

(** [.entry(txid).and_modify(..).or_insert(..)] *)
Definition merge_state (state new : CanonicalTransactionState) : CanonicalTransactionState := {|
  confirmation :=
    if decide (confirmation state = confirmation new) then confirmation state else None;
  last_seen := Z.max (last_seen state) (last_seen new)
|}.
Definition add_state (states : gmap Txid CanonicalTransactionState) (wtx : WalletTx) :
    gmap Txid CanonicalTransactionState :=
  let state :=
    match states !! wtx_txid wtx with
    | Some state => merge_state state (tx_state wtx)
    | None => tx_state wtx
    end in
  <[wtx_txid wtx := state]> states.

Definition canonical_transaction_states a : gmap Txid CanonicalTransactionState :=
  foldl (λ states wallet, foldl add_state states (transactions wallet)) ∅ (values (wallets a)).

Definition transaction_confirmation a (t : Txid) : option ConfirmationBlockTime :=
  canonical_transaction_states a !! t ≫= confirmation.
Definition transaction_confirmations a : gmap Txid ConfirmationBlockTime :=
  omap confirmation (canonical_transaction_states a).
Definition is_tx_confirmed a (t : Txid) : bool :=
  bool_decide (is_Some (transaction_confirmation a t)).

Definition is_tx_confirmed_in_any_wallet a (t : Txid) : bool :=
  existsb (λ wallet,
    match List.find (λ wtx, bool_decide (wtx_txid wtx = t)) (transactions wallet) with
    | Some wtx => is_confirmed (chain_position wtx)
    | None => false
    end) (values (wallets a)).

Definition sent_and_received a (t : Txid) : option (Z * Z) :=
  tx ← find_tx a t;
  Some (foldl (λ '(total_sent, total_received) wallet,
          match get_tx wallet t with
          | Some _ =>
              let '(sent, received) := wallet_sent_and_received wallet tx in
              (wrap64 (total_sent + sent), wrap64 (total_received + received))
          | None => (total_sent, total_received)
          end) (0, 0) (values (wallets a))).

(** [.filter(|node| seen.insert(node.txid))]: the first transaction per id. *)
Fixpoint dedup_txs (seen : gset Txid) (txs : list (Txid * Transaction)) : list Transaction :=
  match txs with
  | [] => []
  | (t, tx) :: txs =>
      if decide (t ∈ seen) then dedup_txs seen txs
      else tx :: dedup_txs ({[t]} ∪ seen) txs
  end.
Definition cached_txs a : list Transaction :=
  dedup_txs ∅ (flat_map full_txs (values (wallets a))).

Definition unconfirmed_txids_with_last_seen a : list (Txid * Z) :=
  omap (λ '(t, state),
    match confirmation state with None => Some (t, last_seen state) | Some _ => None end)
    (iter (canonical_transaction_states a)).
Definition unconfirmed_txids a : list Txid :=
  omap (λ '(t, state), match confirmation state with None => Some t | Some _ => None end)
    (iter (canonical_transaction_states a)).
Definition all_txids a : list Txid := keys (canonical_transaction_states a).

(** ** Chain tip *)

Definition chain_tips_by_key a : list (K * BlockHash * Z) :=
  (λ '(key, wallet), (key, cp_hash (latest_checkpoint wallet),
                      cp_height (latest_checkpoint wallet))) <$> iter (wallets a).
Definition chain_tips a : list (BlockHash * Z) :=
  (λ '(_, hash, height), (hash, height)) <$> chain_tips_by_key a.

Definition current_best_block a : outcome Error (BlockHash * Z) :=
  match min_by checkpoint_compare (latest_checkpoint <$> values (wallets a)) with
  | Some cp => Ok (cp_hash cp, cp_height cp)
  | None =>
      w ← primary_wallet a;
      Ok (cp_hash (latest_checkpoint w), cp_height (latest_checkpoint w))
  end.

(** No checkpoint at [height], but a tip above it. *)
Definition sparse_ahead (wallet : W) (height : Z) : bool :=
  let tip := latest_checkpoint wallet in
  match cp_get tip height with None => height <? cp_height tip | Some _ => false end.

Definition wallet_txids (wallet : W) : gset Txid := list_to_set (wtx_txid <$> transactions wallet).

(** The block is applied to the wallet, which keeps what was applied even when the
    call fails, and then persisted. *)
Definition connect_block key (wallet : W) (block : Block) (height : Z) :
    cmd AggregateWallet Error unit :=
  let '(wallet, ok) := wallet_apply_block wallet block height in
  if ok : bool then persist_wallet key wallet
  else _ ← modify (set_wallet key wallet); fail WalletOperationFailed.

Definition apply_block_to key (block : Block) (height : Z) :
    cmd AggregateWallet Error (gset Txid) :=
  with_state (λ a,
    wallet ← lift (ok_or (wallets a !! key) WalletNotFound);
    _ ← if sparse_ahead wallet height then mret tt else connect_block key wallet block height;
    with_state (λ a,
      wallet ← lift (expect (wallets a !! key));
      mret (wallet_txids wallet))).

Definition apply_block (block : Block) (height : Z) : cmd AggregateWallet Error (gset Txid) :=
  with_state (λ a,
    _ ← lift (primary_wallet a);
    _ ← for_each (λ '(key, wallet),
          if sparse_ahead wallet height then mret tt
          else connect_block key wallet block height) (iter (wallets a));
    with_state (λ a, mret (⋃ (wallet_txids <$> values (wallets a))))).

(** ** Addresses *)

(** Look a wallet and its persister up, change the wallet, persist, and return what
    the change returned. *)
Definition with_wallet_persisted {A} key (f : W → W * A) : cmd AggregateWallet Error A :=
  with_state (λ a,
    wallet ← lift (ok_or (wallets a !! key) WalletNotFound);
    persister ← lift (ok_or (persisters a !! key) PersisterNotFound);
    let '(wallet, x) := f wallet in
    _ ← persist_with key wallet persister;
    mret x).

Definition new_address_info_for key : cmd AggregateWallet Error AddressInfo :=
  with_wallet_persisted key (λ wallet, reveal_next_address wallet External).
Definition new_address_for key : cmd AggregateWallet Error Address :=
  info ← new_address_info_for key; mret (ai_address info).
Definition new_address_info : cmd AggregateWallet Error AddressInfo :=
  with_state (λ a, new_address_info_for (primary a)).
Definition new_address : cmd AggregateWallet Error Address :=
  info ← new_address_info; mret (ai_address info).

Definition address_info_for a key (kc : KeychainKind) (index : Z) : outcome Error AddressInfo :=
  _ ← validate_derivation_index index;
  wallet ← ok_or (wallets a !! key) WalletNotFound;
  Ok (peek_address wallet kc index).

Definition address_infos_for a key (kc : KeychainKind) (start_index count : Z) :
    outcome Error (list AddressInfo) :=
  _ ← validate_derivation_range start_index count;
  wallet ← ok_or (wallets a !! key) WalletNotFound;
  end_index ← ok_or (checked_add32 start_index count) InvalidQuantity;
  Ok (peek_address wallet kc <$> seqZ start_index (end_index - start_index)).

Definition reveal_addresses_to key (index : Z) : cmd AggregateWallet Error unit :=
  _ ← lift (validate_derivation_index index);
  with_wallet_persisted key (λ wallet, (wallet_reveal_addresses_to wallet External index, tt)).

Definition new_internal_address : cmd AggregateWallet Error Address :=
  with_state (λ a,
    info ← with_wallet_persisted (primary a) (λ wallet, next_unused_address wallet Internal);
    mret (ai_address info)).

(** ** Cancellation *)

Definition cancel_tx (tx : Transaction) : cmd AggregateWallet Error unit :=
  with_state (λ a,
    for_each (λ '(key, wallet), persist_wallet key (wallet_cancel_tx wallet tx))
      (iter (wallets a))).

Definition cancel_dry_run_tx (tx : Transaction) : cmd AggregateWallet Error unit :=
  with_state (λ a,
    w ← lift (primary_wallet a);
    modify (set_wallet (primary a) (wallet_cancel_tx w tx))).

(** ** Fees *)

(** The value of one input of a PSBT: from the PSBT where it has data for the
    input, else from the wallets' unspent outputs. *)
Definition psbt_input_value a (psbt : Psbt) (ix : nat * TxIn) : outcome Error Z :=
  let '(i, txin) := ix in
  let o := previous_output txin in
  let from_wallets :=
    ok_or (find_map (λ wallet, value ∘ txout <$> get_utxo wallet o) (values (wallets a)))
      OnchainTxCreationFailed in
  match psbt_inputs psbt !! i with
  | Some inp =>
      match witness_utxo inp with
      | Some out => Ok (value out)
      | None =>
          match non_witness_utxo inp with
          | Some tx =>
              ok_or (value <$> output tx !! Z.to_nat (vout o)) OnchainTxCreationFailed
          | None => from_wallets
          end
      end
  | None => from_wallets
  end.

Definition calculate_fee_from_psbt a (psbt : Psbt) : outcome Error Z :=
  total_input_value ← try_fold (λ total ix,
      v ← psbt_input_value a psbt ix;
      ok_or (checked_add64 total v) OnchainTxCreationFailed) 0
    (enumerate (input (unsigned_tx psbt)));
  total_output_value ← try_fold (λ total out,
      ok_or (checked_add64 total (value out)) OnchainTxCreationFailed) 0
    (output (unsigned_tx psbt));
  ok_or (checked_sub total_input_value total_output_value) OnchainTxCreationFailed.

Definition calculate_fee_with_fallback a (psbt : Psbt) : outcome Error Z :=
  or_else (calculate_fee_from_psbt a psbt) (λ _,
    w ← primary_wallet a;
    ok_or (wallet_calculate_fee w (unsigned_tx psbt)) OnchainTxCreationFailed).

Definition drain_amount_from_psbt a (psbt : Psbt) : outcome Error Z :=
  '(total_sent, total_received) ← try_fold (λ '(total_sent, total_received) wallet,
      let '(s, r) := wallet_sent_and_received wallet (unsigned_tx psbt) in
      total_sent' ← amount_add total_sent s;
      total_received' ← amount_add total_received r;
      Ok (total_sent', total_received')) (0, 0) (values (wallets a));
  Ok (saturating_sub total_sent total_received).

Definition get_input_value a (o : OutPoint) : outcome Error Z :=
  rbf.get_input_value o (wallets a).

Definition calculate_tx_fee a (tx : Transaction) : outcome Error Amount :=
  match find_map (λ wallet, wallet_calculate_fee wallet tx) (values (wallets a)) with
  | Some fee => Ok fee
  | None =>
      total_input ← try_fold (λ total txin,
          v ← get_input_value a (previous_output txin);
          ok_or (checked_add64 total v) WalletOperationFailed) 0 (input tx);
      total_output ← try_fold (λ total out,
          ok_or (checked_add64 total (value out)) WalletOperationFailed) 0 (output tx);
      ok_or (checked_sub total_input total_output) WalletOperationFailed
  end.

(** ** Synchronisation *)

Definition wallet_incremental_sync_request a key :
    outcome Error (list (KeychainKind * Z * Script)) :=
  wallet ← ok_or (wallets a !! key) WalletNotFound;
  Ok (revealed_spks wallet).

Definition wallet_incremental_sync_request_with_lookahead a key :
    outcome Error (list (KeychainKind * Z * Script)) :=
  wallet ← ok_or (wallets a !! key) WalletNotFound;
  let request := revealed_spks wallet in
  let external_lookahead := lookahead wallet in
  if external_lookahead =? 0 then Ok request
  else
    let start_index :=
      match wallet_derivation_index wallet External with
      | Some index => if index =? BIP32_MAX_NORMAL_INDEX then None else Some (wrap32 (index + 1))
      | None => Some 0
      end in
    match start_index with
    | None => Ok request
    | Some start_index =>
        let end_index :=
          Z.min (saturating_add32 start_index (external_lookahead - 1))
            BIP32_MAX_NORMAL_INDEX in
        lookahead_spks ← try_map (λ index,
            ok_or ((λ spk, (External, index, spk)) <$> spk_at_index wallet External index)
              WalletOperationFailed)
          (seqZ start_index (end_index - start_index + 1));
        Ok (request ++ lookahead_spks)
    end.

Definition apply_update_to_wallet key (update : U) :
    cmd AggregateWallet Error (list Ev * list Txid) :=
  with_state (λ a,
    wallet ← lift (ok_or (wallets a !! key) WalletNotFound);
    let '(wallet, r) := apply_update_events wallet update in
    match r with
    | None => _ ← modify (set_wallet key wallet); fail WalletOperationFailed
    | Some events =>
        _ ← persist_wallet key wallet;
        with_state (λ a,
          wallet ← lift (expect (wallets a !! key));
          mret (events, wtx_txid <$> transactions wallet))
    end).

Definition apply_update (update : U) : cmd AggregateWallet Error (list Ev * list Txid) :=
  with_state (λ a, apply_update_to_wallet (primary a) update).

Definition apply_mempool_txs (unconfirmed_txs : list (Transaction * Z))
    (evicted_txids : list (Txid * Z)) : cmd AggregateWallet Error unit :=
  with_state (λ a,
    for_each (λ '(key, wallet),
      let wallet := apply_unconfirmed_txs wallet unconfirmed_txs in
      let wallet := apply_evicted_txs wallet evicted_txids in
      persist_wallet key wallet) (iter (wallets a))).

Definition is_mine a (script_pubkey : Script) : bool :=
  existsb (λ w, wallet_is_mine w script_pubkey) (values (wallets a)).

(** ** What the queries answer *)

(** The primary wallet is loaded, and every wallet has a persister. *)
Record wf a : Prop := {
  wf_primary : is_Some (wallets a !! primary a);
  wf_dom : dom (wallets a) = dom (persisters a);
}.

Lemma canonical_states_flat a :
  canonical_transaction_states a
  = foldl add_state ∅ (flat_map transactions (values (wallets a))).
Proof.
  unfold canonical_transaction_states. generalize (∅ : gmap Txid CanonicalTransactionState).
  induction (values (wallets a)) as [|w ws IH]; intros m; simpl; [done|].
  by rewrite foldl_app.
Qed.

(** [st] summarises the observations [es] of the transaction [t]. *)
Definition summarises (es : list WalletTx) (t : Txid) (st : CanonicalTransactionState) : Prop :=
  (∃ e, e ∈ es ∧ wtx_txid e = t ∧ last_seen (tx_state e) = last_seen st) ∧
  (∀ e, e ∈ es → wtx_txid e = t → last_seen (tx_state e) ≤ last_seen st) ∧
  (∀ c, confirmation st = Some c ↔
     ∀ e, e ∈ es → wtx_txid e = t → confirmation (tx_state e) = Some c).

Lemma merge_state_summarises es t st e :
  summarises es t st → wtx_txid e = t →
  summarises (es ++ [e]) t (merge_state st (tx_state e)).
Proof.
  intros ((e0 & He0 & Ht0 & Hl0) & Hmax & Hconf) Ht. split_and!; simpl.
  - destruct (Z.max_spec (last_seen st) (last_seen (tx_state e))) as [[? ->]|[? ->]].
    + exists e. set_solver.
    + exists e0. set_solver.
  - intros e' [He'| ->%list_elem_of_singleton]%elem_of_app Ht'; [|lia].
    specialize (Hmax e' He' Ht'). lia.
  - intros c. case_decide as Heq; rewrite ?Hconf.
    + split; [|intros Hall e' He'; apply Hall; set_solver].
      intros Hall e' [He'| ->%list_elem_of_singleton]%elem_of_app Ht'; [by apply Hall|].
      rewrite <- Heq. by apply Hconf.
    + split; [done|]. intros Hall. exfalso. apply Heq. transitivity (Some c).
      * apply Hconf. intros e' He'. apply Hall. set_solver.
      * symmetry. apply Hall; [set_solver|done].
Qed.

Lemma add_states_lookup es t :
  match foldl add_state ∅ es !! t with
  | Some st => summarises es t st
  | None => ∀ e, e ∈ es → wtx_txid e ≠ t
  end.
Proof.
  induction es as [|e es IH] using rev_ind; [simpl; rewrite lookup_empty; set_solver|].
  rewrite foldl_snoc. unfold add_state at 1.
  destruct (decide (wtx_txid e = t)) as [Ht|Hne].
  - rewrite Ht, lookup_insert_eq.
    destruct (foldl add_state ∅ es !! t) as [st|]; [by apply merge_state_summarises|].
    split_and!; [exists e; set_solver|..].
    + intros e' [He'| ->%list_elem_of_singleton]%elem_of_app Ht'; [by destruct (IH e')|lia].
    + intros c. split; [|intros Hall; apply Hall; set_solver].
      intros Hc e' [He'| ->%list_elem_of_singleton]%elem_of_app Ht'; [by destruct (IH e')|done].
  - rewrite lookup_insert_ne by done.
    destruct (foldl add_state ∅ es !! t) as [st|]; [|set_solver].
    destruct IH as ((e0 & ? & ? & ?) & Hmax & Hconf). split_and!; [exists e0; set_solver|..].
    + intros e' [He'| ->%list_elem_of_singleton]%elem_of_app Ht'; [by apply Hmax|done].
    + intros c. rewrite Hconf. split; [|intros Hall e' He'; apply Hall; set_solver].
      intros Hall e' [He'| ->%list_elem_of_singleton]%elem_of_app Ht'; [by apply Hall|done].
Qed.

Lemma elem_of_flat_map_values {A} (f : W → list A) (ws : gmap K W) x :
  x ∈ flat_map f (values ws) ↔ ∃ k w, ws !! k = Some w ∧ x ∈ f w.
Proof.
  rewrite list_elem_of_In, in_flat_map. setoid_rewrite <- list_elem_of_In.
  setoid_rewrite elem_of_values. naive_solver.
Qed.

(** The state reported for a transaction is the wallets' consensus, whatever
    order they are visited in: it is confirmed in a block exactly if every wallet
    that lists it sees it confirmed in that very block, and its last-seen time is
    the latest any of them reports. *)
Theorem canonical_states_consensus a t :
  let observed e := ∃ k w, wallets a !! k = Some w ∧ e ∈ transactions w ∧ wtx_txid e = t in
  match canonical_transaction_states a !! t with
  | Some st =>
      (∃ e, observed e ∧ last_seen (tx_state e) = last_seen st) ∧
      (∀ e, observed e → last_seen (tx_state e) ≤ last_seen st) ∧
      (∀ c, confirmation st = Some c ↔
         ∀ e, observed e → ∃ via, chain_position e = Confirmed c via)
  | None => ∀ e, ¬ observed e
  end.
Proof.
  intros observed. rewrite canonical_states_flat.
  pose proof (add_states_lookup (flat_map transactions (values (wallets a))) t) as Hl.
  assert (∀ e, observed e ↔ e ∈ flat_map transactions (values (wallets a)) ∧ wtx_txid e = t)
    as Hobs.
  { intros e. rewrite elem_of_flat_map_values. unfold observed. naive_solver. }
  assert (∀ e c, confirmation (tx_state e) = Some c ↔ ∃ via, chain_position e = Confirmed c via)
    as Hpos.
  { intros e c. unfold tx_state. destruct (chain_position e); simpl; naive_solver. }
  destruct (foldl _ _ _ !! t) as [st|].
  - destruct Hl as ((e & ? & ? & ?) & Hmax & Hconf). setoid_rewrite Hobs.
    split_and!; [naive_solver..|]. intros c. rewrite Hconf. setoid_rewrite <- Hpos. naive_solver.
  - intros e [He Ht]%Hobs. by apply (Hl e).
Qed.

(** [current_best_block] is total, and returns the tip of one of the wallets that
    is least by height and then by hash: no loaded wallet is behind it. *)
Theorem current_best_block_least a :
  wf a →
  ∃ k w, wallets a !! k = Some w ∧
    current_best_block a
      = Ok (cp_hash (latest_checkpoint w), cp_height (latest_checkpoint w)) ∧
    ∀ k' w', wallets a !! k' = Some w' →
      checkpoint_compare (latest_checkpoint w) (latest_checkpoint w') ≠ Gt ∧
      cp_height (latest_checkpoint w) ≤ cp_height (latest_checkpoint w').
Proof.
  intros [[w0 Hw0] _]. unfold current_best_block, min_by.
  assert (latest_checkpoint w0 ∈ latest_checkpoint <$> values (wallets a)) as Hin0.
  { apply list_elem_of_fmap_2, elem_of_values. eauto. }
  destruct (latest_checkpoint <$> values (wallets a)) as [|x xs] eqn:Hcps; [set_solver|].
  destruct (foldl_min_checkpoint x xs) as [Hin Hle]. rewrite <- Hcps in Hin, Hle.
  apply list_elem_of_fmap in Hin as (w & Hm & [k Hk]%elem_of_values).
  rewrite Hm in Hle |- *. exists k, w. split_and!; [done..|]. intros k' w' Hk'.
  assert (checkpoint_compare (latest_checkpoint w) (latest_checkpoint w') ≠ Gt) as Hc.
  { apply Hle, list_elem_of_fmap_2, elem_of_values. eauto. }
  split; [done|]. unfold checkpoint_compare in Hc.
  destruct (Z.compare_spec (cp_height (latest_checkpoint w))
              (cp_height (latest_checkpoint w'))); [lia..|done].
Qed.

Lemma validate_derivation_index_Ok i :
  validate_derivation_index i = Ok tt ↔ i ≤ BIP32_MAX_NORMAL_INDEX.
Proof.
  unfold validate_derivation_index. destruct (Z.ltb_spec BIP32_MAX_NORMAL_INDEX i);
    naive_solver lia.
Qed.

Lemma validate_derivation_range_Ok start count :
  is_u32 start → is_u32 count →
  validate_derivation_range start count = Ok tt ↔
  start ≤ BIP32_MAX_NORMAL_INDEX ∧ count ≤ MAX_ADDRESS_INFO_BATCH_COUNT ∧
  start + count ≤ BIP32_MAX_NORMAL_INDEX + 1.
Proof.
  intros [Hs _] [Hc _]. unfold validate_derivation_range, validate_derivation_index.
  destruct (Z.ltb_spec BIP32_MAX_NORMAL_INDEX start); simpl; [naive_solver lia|].
  destruct (Z.ltb_spec MAX_ADDRESS_INFO_BATCH_COUNT count); [naive_solver lia|].
  destruct (Z.eqb_spec count 0); [naive_solver lia|].
  unfold BIP32_MAX_NORMAL_INDEX, MAX_ADDRESS_INFO_BATCH_COUNT, checked_add32, u32_max in *.
  rewrite (proj2 (Z.leb_le _ _)) by lia. simpl.
  destruct (Z.ltb_spec (2 ^ 31 - 1) (start + (count - 1))); naive_solver lia.
Qed.

(** A batch of addresses is answered exactly when it is no larger than the limit
    and stays within the non-hardened indices, and then it holds the addresses of
    those indices in order; otherwise the request is refused as invalid, and only
    an unknown wallet is another reason to fail. *)
Theorem address_infos_exact a key kc start count :
  is_u32 start → is_u32 count →
  address_infos_for a key kc start count =
    if decide (start ≤ BIP32_MAX_NORMAL_INDEX ∧ count ≤ MAX_ADDRESS_INFO_BATCH_COUNT ∧
               start + count ≤ BIP32_MAX_NORMAL_INDEX + 1)
    then match wallets a !! key with
         | Some w => Ok (peek_address w kc <$> seqZ start count)
         | None => Err WalletNotFound
         end
    else Err InvalidQuantity.
Proof.
  intros Hs Hc. unfold address_infos_for.
  pose proof (validate_derivation_range_Ok start count Hs Hc) as Hv. case_decide as Hd.
  - rewrite (proj2 Hv Hd); simpl. destruct (wallets a !! key) as [w|]; [simpl|done].
    unfold checked_add32, u32_max, BIP32_MAX_NORMAL_INDEX in *.
    rewrite (proj2 (Z.leb_le _ _)) by lia. simpl. by replace (start + count - start) with count by lia.
  - destruct (validate_derivation_range start count) as [[]|e|] eqn:Hr; [naive_solver|..];
      unfold validate_derivation_range, validate_derivation_index in Hr; simpl.
    + repeat match type of Hr with
             | context [if ?b then _ else _] => destruct b; simplify_eq/=; try done
             end.
      destruct (checked_add32 start (count - 1)); simpl in Hr; [|by simplify_eq].
      destruct (BIP32_MAX_NORMAL_INDEX <? _); by simplify_eq/=.
    + repeat match type of Hr with
             | context [if ?b then _ else _] => destruct b; simplify_eq/=; try done
             end.
      destruct (checked_add32 start (count - 1)); simpl in Hr; [|by simplify_eq].
      destruct (BIP32_MAX_NORMAL_INDEX <? _); by simplify_eq/=.
Qed.

(** ** Balance *)

(** One component of the balances of all wallets, summed. *)
Definition sum_over (f : Balance → Amount) (ws : list W) : Z :=
  sum_Z ((λ w, f (balance_of w)) <$> ws).

Definition nonneg_balance (b : Balance) : Prop :=
  0 ≤ confirmed b ∧ 0 ≤ trusted_pending b ∧ 0 ≤ untrusted_pending b ∧ 0 ≤ immature b.

(** The sum of the balances of [ws], on top of [b]. *)
Definition plus_over (b : Balance) (ws : list W) : Balance :=
  mkBalance (confirmed b + sum_over confirmed ws)
    (trusted_pending b + sum_over trusted_pending ws)
    (untrusted_pending b + sum_over untrusted_pending ws) (immature b + sum_over immature ws).

Definition fits (b : Balance) : Prop :=
  confirmed b ≤ u64_max ∧ trusted_pending b ≤ u64_max ∧ untrusted_pending b ≤ u64_max ∧
  immature b ≤ u64_max.

Lemma plus_over_cons b w ws :
  plus_over b (w :: ws) =
  plus_over (mkBalance (confirmed b + confirmed (balance_of w))
    (trusted_pending b + trusted_pending (balance_of w))
    (untrusted_pending b + untrusted_pending (balance_of w))
    (immature b + immature (balance_of w))) ws.
Proof. unfold plus_over, sum_over. rewrite !sum_Z_fmap_cons. simpl. f_equal; lia. Qed.

Lemma add_balance_Ok b c d :
  add_balance b c = Ok d →
  d = mkBalance (confirmed b + confirmed c) (trusted_pending b + trusted_pending c)
        (untrusted_pending b + untrusted_pending c) (immature b + immature c) ∧ fits d.
Proof.
  unfold add_balance, amount_add, fits. intros Hd. inv_outcome. inv_checked. simpl. done.
Qed.

Lemma add_balance_fits b c :
  fits (mkBalance (confirmed b + confirmed c) (trusted_pending b + trusted_pending c)
          (untrusted_pending b + untrusted_pending c) (immature b + immature c)) →
  is_ok (add_balance b c) = true.
Proof.
  unfold fits, add_balance, amount_add, checked_add64; simpl. intros (? & ? & ? & ?).
  by rewrite !(proj2 (Z.leb_le _ _)) by done.
Qed.

Lemma sum_over_nonneg f ws :
  Forall (λ w, 0 ≤ f (balance_of w)) ws → 0 ≤ sum_over f ws.
Proof. intros Hf. apply sum_Z_nonneg. by apply Forall_fmap. Qed.

Lemma fits_prefix b w ws :
  Forall (λ w, nonneg_balance (balance_of w)) ws → fits (plus_over b (w :: ws)) →
  is_ok (add_balance b (balance_of w)) = true.
Proof.
  intros Hn. rewrite plus_over_cons. intros Hf. apply add_balance_fits.
  unfold fits, plus_over in *; simpl in *. unfold nonneg_balance in Hn.
  pose proof (sum_over_nonneg confirmed ws ltac:(eapply Forall_impl; [exact Hn|naive_solver])).
  pose proof (sum_over_nonneg trusted_pending ws ltac:(eapply Forall_impl; [exact Hn|naive_solver])).
  pose proof (sum_over_nonneg untrusted_pending ws ltac:(eapply Forall_impl; [exact Hn|naive_solver])).
  pose proof (sum_over_nonneg immature ws ltac:(eapply Forall_impl; [exact Hn|naive_solver])).
  lia.
Qed.

Lemma balance_fold ws b :
  Forall (λ w, nonneg_balance (balance_of w)) ws → fits (plus_over b ws) →
  try_fold (λ total wallet, add_balance total (balance_of wallet)) b ws
    = Ok (plus_over b ws).
Proof.
  intros Hn. revert b. induction Hn as [|w ws Hw Hn IH]; intros b Hf.
  { simpl. destruct b. unfold plus_over, sum_over, sum_Z; simpl. repeat f_equal; lia. }
  cbn [try_fold]. pose proof (fits_prefix b w ws Hn Hf) as Hok.
  destruct (add_balance b (balance_of w)) as [d|e|] eqn:Hd; [|done..]. cbn [mbind outcome_bind].
  apply add_balance_Ok in Hd as [-> _]. rewrite plus_over_cons in Hf |- *. by apply IH.
Qed.

Lemma sum_over_iter f a : sum_over f (values (wallets a)) = sum_over f (map_to_list (wallets a)).*2.
Proof. unfold sum_over. apply sum_Z_perm. by rewrite values_perm. Qed.

(** The aggregate balance is the exact component-wise sum over the wallets,
    independent of the order they are visited in, whenever the sums fit 64 bits;
    it never reports an error. *)
Theorem balance_sum a :
  (∀ k w, wallets a !! k = Some w → nonneg_balance (balance_of w)) →
  let total := plus_over zero_balance (map_to_list (wallets a)).*2 in
  fits total → balance a = Ok total.
Proof.
  intros Hn total Hf. unfold balance. rewrite balance_fold.
  - unfold total, plus_over. by rewrite !sum_over_iter.
  - apply Forall_forall. intros w [k Hk]%elem_of_values. eauto.
  - unfold total, plus_over in *. by rewrite !sum_over_iter.
Qed.

(** ** Connecting blocks *)

(** What connecting a block did to the wallet [w] under [key]. *)
Definition connected (block : Block) (height : Z) key (w : W) a a' : Prop :=
  if sparse_ahead w height then
    wallets a' !! key = Some w ∧ persisters a' !! key = persisters a !! key
  else
    ∃ q w1 w2 q', persisters a !! key = Some q ∧
      wallet_apply_block w block height = (w1, true) ∧
      wallet_persist w1 q = (w2, q', true) ∧
      wallets a' !! key = Some w2 ∧ persisters a' !! key = Some q'.

Definition same_except key a a' : Prop :=
  primary a' = primary a ∧
  ∀ k, k ≠ key → wallets a' !! k = wallets a !! k ∧ persisters a' !! k = persisters a !! k.

Lemma connect_block_Ok key w block height a a' :
  wallets a !! key = Some w →
  (if sparse_ahead w height then mret tt else connect_block key w block height) a = (a', Ok tt) →
  connected block height key w a a' ∧ same_except key a a'.
Proof.
  intros Hk. unfold connected, same_except. destruct (sparse_ahead w height).
  { unfold mret, cmd_ret. intros; simplify_eq. done. }
  unfold connect_block, persist_wallet, persist_with, mbind, cmd_bind, modify, with_state, lift,
    fail. destruct (wallet_apply_block w block height) as [w1 []] eqn:Hw1; [|done]. simpl.
  destruct (persisters a !! key) as [q|] eqn:Hq; simpl; [|done].
  destruct (wallet_persist w1 q) as [[w2 q'] []] eqn:Hp; [|done].
  intros; simplify_eq/=. split.
  - exists q, w1, w2, q'. by rewrite !lookup_insert_eq.
  - split; [done|]. intros k Hne. by rewrite !lookup_insert_ne by done.
Qed.

Lemma connect_blocks_Ok block height l : ∀ a a',
  NoDup l.*1 → (∀ k w, (k, w) ∈ l → wallets a !! k = Some w) →
  for_each (λ '(key, wallet),
    if sparse_ahead wallet height then mret tt else connect_block key wallet block height) l a
    = (a', Ok tt) →
  (∀ k w, (k, w) ∈ l → connected block height k w a a') ∧
  primary a' = primary a ∧
  ∀ k, k ∉ l.*1 → wallets a' !! k = wallets a !! k ∧ persisters a' !! k = persisters a !! k.
Proof.
  induction l as [|[key wallet] l IH]; intros a a' Hnd Hin Hrun; cbn [for_each] in Hrun.
  { unfold mret, cmd_ret in Hrun. simplify_eq. split_and!; [set_solver|done|done]. }
  apply cmd_bind_Ok in Hrun as (a1 & [] & H1 & H2). csimpl in Hnd.
  apply NoDup_cons in Hnd as [Hnotin Hnd].
  apply connect_block_Ok in H1 as [Hconn (Hp1 & Hsame)]; [|apply Hin; set_solver].
  assert (∀ k w, (k, w) ∈ l → k ≠ key) as Hne.
  { intros k w Hkw ->. apply Hnotin. by apply (list_elem_of_fmap_2 fst) in Hkw. }
  apply IH in H2 as (Hl & Hp2 & Hrest); [|done|].
  2: { intros k w Hkw. destruct (Hsame k (Hne k w Hkw)) as [-> _]. apply Hin. set_solver. }
  split_and!; [|congruence|].
  - intros k w [Heq|Hkw]%elem_of_cons.
    + simplify_eq. destruct (Hrest key Hnotin) as [Hw Hq]. unfold connected in *.
      by rewrite Hw, Hq.
    + specialize (Hl k w Hkw). destruct (Hsame k (Hne k w Hkw)) as [_ Hq].
      unfold connected in *. by rewrite <- Hq.
  - intros k [Hk Hkl]%not_elem_of_cons. destruct (Hrest k Hkl) as [-> ->]. by apply Hsame.
Qed.

(** A block that is reported as connected was applied to and persisted with every
    loaded wallet, except those whose sparse chain is already past its height and
    has no block there, which are left alone; the result lists the transactions
    of all wallets afterwards. *)
Theorem apply_block_connects block height a a' txids :
  apply_block block height a = (a', Ok txids) →
  (∀ k w, wallets a !! k = Some w → connected block height k w a a') ∧
  dom (wallets a') = dom (wallets a) ∧ primary a' = primary a ∧
  ∀ t, t ∈ txids ↔ ∃ k w e, wallets a' !! k = Some w ∧ e ∈ transactions w ∧ wtx_txid e = t.
Proof.
  unfold apply_block. intros Hrun.
  apply (cmd_bind_Ok (lift (primary_wallet a))) in Hrun as (a0 & w0 & Hw0 & Hrun).
  unfold lift in Hw0. simplify_eq.
  apply cmd_bind_Ok in Hrun as (a1 & [] & Hloop & Hret).
  unfold with_state, mret, cmd_ret in Hret. simplify_eq.
  apply connect_blocks_Ok in Hloop as (Hconn & Hprim & Hrest);
    [|by apply NoDup_keys|by intros k w ?%elem_of_iter].
  assert (∀ k, k ∈ (iter (wallets a0)).*1 ↔ is_Some (wallets a0 !! k)) as Hkeys
    by apply elem_of_keys.
  split_and!; [intros k w Hk; apply Hconn; by apply elem_of_iter| |done|].
  - apply set_eq. intros k. rewrite !elem_of_dom. split.
    + destruct (decide (is_Some (wallets a0 !! k))) as [|Hn]; [done|].
      destruct (Hrest k) as [-> _]; [by rewrite Hkeys|done].
    + intros [w Hk]. specialize (Hconn k w). rewrite elem_of_iter in Hconn.
      specialize (Hconn Hk). unfold connected in Hconn.
      destruct (sparse_ahead w height); naive_solver.
  - intros t. rewrite elem_of_union_list. setoid_rewrite list_elem_of_fmap.
    setoid_rewrite elem_of_values. unfold wallet_txids. split.
    + intros (X & (w & -> & k & Hk) & (e & -> & He)%elem_of_list_to_set%list_elem_of_fmap).
      eauto 10.
    + intros (k & w & e & Hk & He & <-). exists (list_to_set (wtx_txid <$> transactions w)).
      split; [eauto|]. apply elem_of_list_to_set. by apply list_elem_of_fmap_2.
Qed.
End aggregate.
Arguments AggregateWallet K {_ _} W P.
End AggregateWallet.
