(* ===== verification/AggBuild.v ===== *)
(** * The aggregate wallet: building and signing transactions
      ([bdk-wallet-aggregate/src/lib.rs])

    Payments, channel funding, draining, child-pays-for-parent and replace-by-fee
    over all wallets.  Commands thread the aggregate's state: BDK's [finish] and
    [next_unused_address] change the wallet they run on, also when a later step
    fails. *)

From S2P Require Import Prelude Types Bdk AggTypes AggUtxo AggSigning AggRbf Aggregate.
Import aggregate AggregateWallet.

Module build.
Section build.
Context {K : Type} `{Countable K} {O : IterOrder K} {OT : IterOrder Txid}.
Context {BTC : Bitcoin} {W P U Ev : Type} {BDK : Bdk W P U Ev} {CS : CoinSelection}.
Implicit Types (a : AggregateWallet K W P) (key : K).
Abbreviation agg_cmd A := (cmd (AggregateWallet K W P) Error A).

Definition prepare_utxos_for_psbt a (utxos : list LocalOutput) :
    outcome Error (list UtxoPsbtInfo) :=
  utxo.prepare_utxos_for_psbt utxos (wallets a) (primary a).
Definition prepare_outpoints_for_psbt a (outpoints : list OutPoint) :
    outcome Error (list UtxoPsbtInfo) :=
  utxo.prepare_outpoints_for_psbt outpoints (wallets a) (primary a).
Definition sign_owned_inputs a (unsigned_tx : Transaction) : outcome Error Transaction :=
  signing.sign_owned_inputs unsigned_tx (wallets a).
Definition sign_psbt_all a (psbt : Psbt) : outcome Error Transaction :=
  signing.sign_psbt_all_wallets psbt (wallets a).

(** [self.primary_wallet().peek_address(Internal, 0).address.script_pubkey()] *)
Definition change_script (w : W) : Script := address_script (ai_address (peek_address w Internal 0)).

(** Spendable outputs for a replacement: confirmed, not already spent by the
    original and not created by it. *)
Definition replacement_candidates a (original_tx : Transaction) : list LocalOutput :=
  List.filter (λ u, negb (bool_decide (txid (outpoint u) = compute_txid original_tx)))
    (List.filter (λ u,
        negb (bool_decide (outpoint u ∈ (previous_output <$> input original_tx))))
      (list_confirmed_unspent a)).

Definition build_cross_wallet_rbf_with_fallback a (original_tx : Transaction)
    (new_fee_rate : FeeRate) : outcome Error Transaction :=
  match rbf.build_cross_wallet_rbf (wallets a) (primary a) original_tx new_fee_rate [] with
  | Err InsufficientFunds =>
      deficit ← rbf.additional_input_value_needed (wallets a) (primary a) original_tx
                  new_fee_rate;
      let available := replacement_candidates a original_tx in
      if decide (available = []) then Err InsufficientFunds
      else
        primary_wallet ← primary_wallet a;
        selected ← utxo.select_utxos_for_deficit deficit available new_fee_rate BranchAndBound
                     (change_script primary_wallet) [] (wallets a);
        extra_infos ← prepare_outpoints_for_psbt a selected;
        if decide (extra_infos = []) then Err InsufficientFunds
        else rbf.build_cross_wallet_rbf (wallets a) (primary a) original_tx new_fee_rate
               extra_infos
  | r => r
  end.

Definition select_utxos a (target_amount : Z) (available_utxos : list LocalOutput)
    (fee_rate : FeeRate) (algorithm : CoinSelectionAlgorithm) (drain_script : Script)
    (excluded_outpoints : list OutPoint) : outcome Error (list OutPoint) :=
  utxo.select_utxos_with_algorithm {|
    utxo.target_amount := target_amount; utxo.available_utxos := available_utxos;
    utxo.fee_rate := fee_rate; utxo.algorithm := algorithm;
    utxo.drain_script := drain_script; utxo.excluded_outpoints := excluded_outpoints;
    utxo.request_wallets := wallets a; utxo.recipient_script := None;
    utxo.include_payment_overhead := true
  |}.

(** The outputs of [us] the primary wallet does not list and that no excluded
    transaction created. *)
Definition non_primary (primary_wallet : W) (excluded_txids : gset Txid)
    (us : list LocalOutput) : list LocalOutput :=
  List.filter (λ u, negb (bool_decide (txid (outpoint u) ∈ excluded_txids)))
    (List.filter (λ u, negb (bool_decide
        (outpoint u ∈ (outpoint <$> wallet_list_unspent primary_wallet)))) us).

Definition non_primary_foreign_utxos a (excluded_txids : gset Txid) :
    outcome Error (list UtxoPsbtInfo) :=
  primary_wallet ← primary_wallet a;
  let non_primary := non_primary primary_wallet excluded_txids (list_unspent a) in
  if decide (non_primary = []) then Ok [] else prepare_utxos_for_psbt a non_primary.

(** Outputs a channel may be funded from. *)
Definition is_segwit_output (u : LocalOutput) : bool :=
  bool_decide (is_Some (witness_version (script_pubkey (txout u)))) ||
  is_p2sh (script_pubkey (txout u)).

Definition select_non_primary_foreign_utxos a (deficit : Amount) (fee_rate : FeeRate)
    (excluded_txids : gset Txid) (segwit_only : bool) (algorithm : CoinSelectionAlgorithm) :
    outcome Error (list UtxoPsbtInfo) :=
  primary_wallet ← primary_wallet a;
  let non_primary :=
    List.filter (λ u, negb segwit_only || is_segwit_output u)
      (non_primary primary_wallet excluded_txids (list_confirmed_unspent a)) in
  if decide (non_primary = []) then Ok []
  else
    selected_outpoints ← utxo.select_utxos_for_deficit deficit non_primary fee_rate algorithm
                           (change_script primary_wallet) [] (wallets a);
    prepare_outpoints_for_psbt a selected_outpoints.

(** [builder.finish()] on the wallet under [key], which keeps its changes. *)
Definition finish_on key (w : W) (b : TxBuilder) (err : CreateTxError → Error) : agg_cmd Psbt :=
  let '(w, r) := finish w b in
  _ ← modify (set_wallet key w);
  lift (match r with inl psbt => Ok psbt | inr e => Err (err e) end).

Definition build_tx_unified (build_key : K) (output_script : Script) (amount : Amount)
    (fee_rate : FeeRate) (locktime : option Z) (excluded_txids : gset Txid)
    (algorithm : CoinSelectionAlgorithm) (utxo_filter : LocalOutput → bool) : agg_cmd Psbt :=
  with_state (λ a,
    let all_utxos :=
      List.filter utxo_filter
        (List.filter (λ u, negb (bool_decide (txid (outpoint u) ∈ excluded_txids)))
           (list_unspent a)) in
    if decide (all_utxos = []) then fail NoSpendableOutputs
    else
      w ← lift (ok_or (wallets a !! build_key) WalletNotFound);
      selected ← lift (utxo.select_utxos_with_algorithm {|
        utxo.target_amount := amount; utxo.available_utxos := all_utxos;
        utxo.fee_rate := fee_rate; utxo.algorithm := algorithm;
        utxo.drain_script := change_script w; utxo.excluded_outpoints := [];
        utxo.request_wallets := wallets a; utxo.recipient_script := Some output_script;
        utxo.include_payment_overhead := true |});
      infos ← lift (prepare_outpoints_for_psbt a selected);
      if decide (infos = []) then fail InsufficientFunds
      else
        let b := [AddRecipient output_script amount; SetFeeRate fee_rate] in
        let b := match locktime with Some lt => b ++ [NLockTime lt] | None => b end in
        b ← lift (utxo.add_utxos_to_tx_builder w b infos);
        let b := b ++ [ManuallySelectedOnly] in
        finish_on build_key w b (λ _, InsufficientFunds)).

Definition sign_and_persist (psbt : Psbt) : agg_cmd Transaction :=
  with_state (λ a,
    tx ← lift (sign_psbt_all a psbt);
    _ ← persist_all;
    mret tx).

Definition build_and_sign_funding_tx (output_script : Script) (amount : Amount)
    (fee_rate : FeeRate) (locktime : Z) : agg_cmd Transaction :=
  with_state (λ a,
    psbt ← build_tx_unified (primary a) output_script amount fee_rate (Some locktime) ∅
             BranchAndBound is_segwit_output;
    sign_and_persist psbt).

(** [bal.confirmed.to_sat() + bal.trusted_pending.to_sat()], 0 without a balance. *)
Definition spendable_of a key : Z :=
  match balance_for a key with
  | Ok bal => wrap64 (confirmed bal + trusted_pending bal)
  | _ => 0
  end.

Definition build_and_sign_tx_with_best_wallet (output_script : Script) (amount : Amount)
    (fee_rate : FeeRate) (locktime : Z) (filter : K → bool) : agg_cmd Transaction :=
  with_state (λ a,
    let matching_keys := List.filter filter (keys (wallets a)) in
    if decide (matching_keys = []) then fail InsufficientFunds
    else
      let matching_keys :=
        sort_by (λ x y, spendable_of a y <=? spendable_of a x) matching_keys in
      build_key ← lift (expect (head matching_keys));
      psbt ← build_tx_unified build_key output_script amount fee_rate (Some locktime) ∅
               BranchAndBound is_segwit_output;
      sign_and_persist psbt).

Definition build_psbt_with_cross_wallet_fallback (output_script : Script) (amount : Amount)
    (fee_rate : FeeRate) (excluded_txids : gset Txid) (algorithm : CoinSelectionAlgorithm) :
    agg_cmd Psbt :=
  with_state (λ a,
    build_tx_unified (primary a) output_script amount fee_rate None excluded_txids algorithm
      (λ _, true)).

Definition build_and_sign_drain (destination : Script) (fee_rate : FeeRate) :
    agg_cmd Transaction :=
  with_state (λ a,
    non_primary_infos ← lift (non_primary_foreign_utxos a ∅);
    wallet ← lift (ok_or (wallets a !! primary a) WalletNotFound);
    if (balance_total wallet =? 0) && bool_decide (non_primary_infos = [])
    then fail NoSpendableOutputs
    else
      let builder := [DrainWallet; DrainTo destination; SetFeeRate fee_rate] in
      builder ← lift (try_fold (utxo.add_foreign_info wallet) builder non_primary_infos);
      psbt ← finish_on (primary a) wallet builder (λ _, OnchainTxCreationFailed);
      with_state (λ a, lift (sign_psbt_all a psbt))).

(** ** Child pays for parent *)

(** The checks [build_cpfp] and [calculate_cpfp_fee_rate] share: the parent, its
    fee and its fee rate. *)
Definition unconfirmed_parent a (parent_txid : Txid) :
    outcome Error (Transaction * Amount * FeeRate) :=
  parent_tx ← ok_or (find_tx a parent_txid) TransactionNotFound;
  if is_tx_confirmed_in_any_wallet a parent_txid then Err TransactionAlreadyConfirmed
  else
    parent_fee ← calculate_tx_fee a parent_tx;
    Ok (parent_tx, parent_fee, fee_rate_of parent_fee (tx_weight parent_tx)).

Definition build_cpfp (parent_txid : Txid) (fee_rate : FeeRate)
    (destination_script : option Script) : agg_cmd (Transaction * Amount * FeeRate) :=
  with_state (λ a,
    '(_, parent_fee, parent_fee_rate) ← lift (unconfirmed_parent a parent_txid);
    let utxos :=
      List.filter (λ u, bool_decide (txid (outpoint u) = parent_txid)) (list_unspent a) in
    if decide (utxos = []) then fail NoSpendableOutputs
    else
      utxo_infos ← lift (prepare_utxos_for_psbt a utxos);
      wallet ← lift (primary_wallet a);
      let '(wallet, drain_script) :=
        match destination_script with
        | Some s => (wallet, s)
        | None =>
            let '(wallet, info) := next_unused_address wallet Internal in
            (wallet, address_script (ai_address info))
        end in
      _ ← modify (set_wallet (primary a) wallet);
      builder ← lift (map_err (λ _, OnchainTxCreationFailed)
                        (utxo.add_utxos_to_tx_builder wallet [] utxo_infos));
      let builder := builder ++ [SetFeeRate fee_rate; DrainTo drain_script; ManuallySelectedOnly] in
      psbt ← finish_on (primary a) wallet builder (λ _, OnchainTxCreationFailed);
      tx ← with_state (λ a, lift (sign_psbt_all a psbt));
      mret (tx, parent_fee, parent_fee_rate)).

(** The arithmetic of [calculate_cpfp_fee_rate], with the operators of [u64]. *)
Definition estimated_child_vbytes : Z := 120.
Definition cpfp_child_rate (parent_weight : Weight) (parent_fee_rate target_fee_rate : FeeRate) :
    FeeRate :=
  if target_fee_rate <=? parent_fee_rate then wrap64 (parent_fee_rate + 250)
  else
    let parent_vbytes := to_vbytes_ceil parent_weight in
    let parent_fee_deficit :=
      wrap64 (wrap64 (to_sat_per_vb_ceil target_fee_rate - to_sat_per_vb_ceil parent_fee_rate)
              * parent_vbytes) in
    let base_child_fee := wrap64 (to_sat_per_vb_ceil target_fee_rate * estimated_child_vbytes) in
    let total_child_fee := wrap64 (base_child_fee + parent_fee_deficit) in
    let child_fee_rate_sat_vb := total_child_fee / estimated_child_vbytes in
    default (wrap64 (child_fee_rate_sat_vb * 250)) (from_sat_per_vb child_fee_rate_sat_vb).

Definition calculate_cpfp_fee_rate a (parent_txid : Txid) (target_fee_rate : FeeRate) :
    outcome Error FeeRate :=
  '(parent_tx, _, parent_fee_rate) ← unconfirmed_parent a parent_txid;
  Ok (cpfp_child_rate (tx_weight parent_tx) parent_fee_rate target_fee_rate).

(** ** Replace by fee *)

(** Whether an input of the original spends an output of the primary wallet. *)
Definition spends_primary (primary : W) (txin : TxIn) : bool :=
  match get_utxo primary (previous_output txin) with
  | Some _ => true
  | None =>
      match utxo.known_output primary (previous_output txin) with
      | Some out => wallet_is_mine primary (script_pubkey out)
      | None => false
      end
  end.

Definition is_primary_only_tx a (t : Txid) : outcome Error bool :=
  primary ← primary_wallet a;
  match get_tx primary t with
  | None => Ok false
  | Some _ =>
      match find_tx a t with
      | Some tx => Ok (forallb (spends_primary primary) (input tx))
      | None => Ok false
      end
  end.

(** What the primary wallet lacks for the higher fee of the original. *)
Definition primary_rbf_deficit a (t : Txid) (fee_rate : FeeRate) : outcome Error Amount :=
  original_tx ← ok_or (find_tx a t) TransactionNotFound;
  original_fee ← calculate_tx_fee a original_tx;
  new_fee ← ok_or (fee_wu fee_rate (tx_weight original_tx)) InvalidFeeRate;
  let fee_increase := default 0 (checked_sub new_fee original_fee) in
  let absorbable :=
    match rbf.find_internal_change_output (wallets a) (primary a) original_tx with
    | Some (_, output) => value output
    | None => 0
    end in
  required_value ← ok_or (checked_add64 fee_increase utxo.DUST_LIMIT_SATS)
                     OnchainTxCreationFailed;
  Ok (default 0 (checked_sub required_value absorbable)).

(** Attempt 1: BDK's fee bump on the primary wallet alone. *)
Definition primary_only_bump (t : Txid) (fee_rate : FeeRate) : agg_cmd Psbt :=
  with_state (λ a,
    wallet ← lift (ok_or (wallets a !! primary a) WalletNotFound);
    if build_fee_bump wallet t
    then finish_on (primary a) wallet [FeeBump t; SetFeeRate fee_rate] map_tx_builder_error
    else fail OnchainTxCreationFailed).

(** Attempt 2: the same with confirmed outputs of the other wallets added. *)
Definition bump_with_foreign (t : Txid) (fee_rate : FeeRate) : agg_cmd Transaction :=
  with_state (λ a,
    deficit ← lift (primary_rbf_deficit a t fee_rate);
    non_primary_infos ← lift (select_non_primary_foreign_utxos a deficit fee_rate {[t]} false
                                BranchAndBound);
    if decide (non_primary_infos = []) then fail InsufficientFunds
    else
      wallet ← lift (ok_or (wallets a !! primary a) WalletNotFound);
      if build_fee_bump wallet t then
        builder ← lift (try_fold (utxo.add_foreign_info wallet)
                          [FeeBump t; SetFeeRate fee_rate] non_primary_infos);
        psbt ← finish_on (primary a) wallet builder (λ _, OnchainTxCreationFailed);
        with_state (λ a, lift (sign_psbt_all a psbt))
      else fail OnchainTxCreationFailed).

Definition build_rbf_primary_with_fallback (t : Txid) (fee_rate : FeeRate) :
    agg_cmd Transaction := λ a,
  match primary_only_bump t fee_rate a with
  | (a, Ok psbt) => (a, sign_psbt_all a psbt)
  | (a, Err InsufficientFunds) => bump_with_foreign t fee_rate a
  | (a, Err e) => (a, Err e)
  | (a, Panic) => (a, Panic)
  end.

Definition build_rbf (t : Txid) (new_fee_rate : FeeRate) : agg_cmd (Transaction * Amount) :=
  with_state (λ a,
    original_tx ← lift (ok_or (find_tx a t) TransactionNotFound);
    if is_tx_confirmed_in_any_wallet a t then fail TransactionAlreadyConfirmed
    else
      original_fee ← lift (calculate_tx_fee a original_tx);
      minimum_fee_rate ← lift (rbf.minimum_replacement_fee_rate original_fee
                                 (tx_weight original_tx));
      if new_fee_rate <? minimum_fee_rate then fail InvalidFeeRate
      else
        is_primary ← lift (is_primary_only_tx a t);
        tx ← if is_primary : bool then build_rbf_primary_with_fallback t new_fee_rate
             else lift (build_cross_wallet_rbf_with_fallback a original_tx new_fee_rate);
        mret (tx, original_fee)).

(** ** What the builder is asked to spend *)

(** The inputs named in the calls on a builder. *)
Definition builder_outpoints (b : TxBuilder) : list OutPoint :=
  omap (λ c, match c with AddUtxo o | AddForeignUtxo o _ _ _ => Some o | _ => None end) b.

Lemma add_info_outpoints (w : W) b info b' :
  utxo.add_info w b info = Ok b' →
  builder_outpoints b' = builder_outpoints b ++ [info_outpoint info] ∧ b `prefix_of` b'.
Proof.
  unfold utxo.add_info, utxo.add_foreign_info, builder_outpoints.
  intros Hb. repeat case_match; simplify_eq; rewrite omap_app; split; by try apply prefix_app_r.
Qed.

Lemma add_foreign_info_outpoints (w : W) b info b' :
  utxo.add_foreign_info w b info = Ok b' →
  builder_outpoints b' = builder_outpoints b ++ [info_outpoint info] ∧ b `prefix_of` b'.
Proof.
  unfold utxo.add_foreign_info, builder_outpoints.
  intros Hb. repeat case_match; simplify_eq; rewrite omap_app; split; by try apply prefix_app_r.
Qed.

Lemma add_infos_outpoints (f : TxBuilder → UtxoPsbtInfo → outcome Error TxBuilder) infos b b' :
  (∀ b info b', f b info = Ok b' →
     builder_outpoints b' = builder_outpoints b ++ [info_outpoint info] ∧ b `prefix_of` b') →
  try_fold f b infos = Ok b' →
  builder_outpoints b' = builder_outpoints b ++ (info_outpoint <$> infos) ∧ b `prefix_of` b'.
Proof.
  intros Hf. revert b. induction infos as [|i infos IH]; intros b Hb; simpl in Hb.
  { simplify_eq. by rewrite app_nil_r. }
  apply bind_Ok in Hb as (b1 & [Ho1 Hp1]%Hf & [Ho2 Hp2]%IH). split; [|by etrans].
  by rewrite Ho2, Ho1, <- app_assoc.
Qed.

Lemma lift_bind_Ok {S E A B} (m : outcome E A) (f : A → cmd S E B) s s' y :
  (lift m ≫= f) s = (s', Ok y) ↔ ∃ x, m = Ok x ∧ f x s = (s', Ok y).
Proof.
  rewrite cmd_bind_Ok. unfold lift. split.
  - intros (s1 & x & ? & ?). simplify_eq. eauto.
  - intros (x & -> & ?). eauto.
Qed.

Lemma finish_on_Ok key (w : W) b err a a' psbt :
  finish_on key w b err a = (a', Ok psbt) →
  ∃ w', finish w b = (w', inl psbt) ∧ a' = set_wallet key w' a.
Proof.
  unfold finish_on, mbind, cmd_bind, modify, lift.
  destruct (finish w b) as [w' [p|e]]; intros; simplify_eq. eauto.
Qed.

Lemma elem_of_filter_b {A} (f : A → bool) xs x : x ∈ List.filter f xs ↔ x ∈ xs ∧ f x = true.
Proof. rewrite !list_elem_of_In. apply filter_In. Qed.

Lemma negb_bool_decide (Q : Prop) `{Decision Q} : negb (bool_decide Q) = true ↔ ¬ Q.
Proof. rewrite negb_true_iff. apply bool_decide_eq_false. Qed.

Lemma elem_of_non_primary (w : W) ts us u :
  u ∈ non_primary w ts us ↔
  u ∈ us ∧ outpoint u ∉ (outpoint <$> wallet_list_unspent w) ∧ txid (outpoint u) ∉ ts.
Proof.
  unfold non_primary. rewrite !elem_of_filter_b, !negb_bool_decide. naive_solver.
Qed.

Context {BTCS : BitcoinSpec} {BDKS : BdkSpec W P U Ev} {CSS : CoinSelectionSpec}.

Lemma build_tx_unified_Ok key s am r lt ts alg f a a' psbt :
  build_tx_unified key s am r lt ts alg f a = (a', Ok psbt) →
  ∃ w w' b, wallets a !! key = Some w ∧ finish w b = (w', inl psbt) ∧
    a' = set_wallet key w' a ∧
    [AddRecipient s am; SetFeeRate r] `prefix_of` b ∧ ManuallySelectedOnly ∈ b ∧
    builder_outpoints b ≠ [] ∧
    ∀ o, o ∈ builder_outpoints b →
      ∃ u, u ∈ list_unspent a ∧ outpoint u = o ∧ f u = true ∧ txid o ∉ ts.
Proof.
  unfold build_tx_unified, with_state. case_decide as Hne; [done|].
  intros (w & Hw%ok_or_Ok & Hrun)%lift_bind_Ok.
  apply lift_bind_Ok in Hrun as (sel & Hsel & Hrun).
  apply lift_bind_Ok in Hrun as (infos & Hinfos & Hrun). case_decide as Hne'; [done|].
  apply lift_bind_Ok in Hrun as (b & Hb & Hrun).
  apply finish_on_Ok in Hrun as (w' & Hfin & ->).
  apply (add_infos_outpoints (utxo.add_info w)) in Hb as [Ho Hpre];
    [|by apply add_info_outpoints].
  assert (builder_outpoints (b ++ [ManuallySelectedOnly]) = info_outpoint <$> infos) as Hops.
  { unfold builder_outpoints at 1. rewrite omap_app. simpl. rewrite app_nil_r.
    etrans; [exact Ho|]. by destruct lt. }
  exists w, w', (b ++ [ManuallySelectedOnly]). rewrite Hops. split_and!; [done..| | | |].
  - apply prefix_app_r. etrans; [|exact Hpre]. destruct lt; [by apply prefix_app_r|done].
  - set_solver.
  - by destruct infos.
  - rewrite (utxo.prepare_outpoints_outpoints _ _ _ _ Hinfos). intros o Hin.
    destruct (utxo.select_utxos_subset _ _ Hsel o Hin) as (u & Hu & <- & _). simpl in Hu.
    rewrite !elem_of_filter_b, negb_bool_decide in Hu. exists u. naive_solver.
Qed.

(** A payment built over all wallets asks BDK for the recipient and fee rate it
    was given, forbids it to add inputs, and names only unspent outputs of the
    wallets that no excluded transaction (a channel funding) created; the only
    state it changes is the wallet the transaction was built on. *)
Theorem payment_inputs_allowed s am r ts alg a a' psbt :
  build_psbt_with_cross_wallet_fallback s am r ts alg a = (a', Ok psbt) →
  ∃ w w' b, wallets a !! primary a = Some w ∧ finish w b = (w', inl psbt) ∧
    a' = set_wallet (primary a) w' a ∧
    [AddRecipient s am; SetFeeRate r] `prefix_of` b ∧ ManuallySelectedOnly ∈ b ∧
    builder_outpoints b ≠ [] ∧
    ∀ o, o ∈ builder_outpoints b → txid o ∉ ts ∧ ∃ u, u ∈ list_unspent a ∧ outpoint u = o.
Proof.
  unfold build_psbt_with_cross_wallet_fallback. unfold with_state at 1.
  intros (w & w' & b & ? & ? & ? & ? & ? & ? & Hall)%build_tx_unified_Ok.
  exists w, w', b. split_and!; [done..|]. intros o Ho. destruct (Hall o Ho) as (u & ? & ? & _ & ?).
  eauto.
Qed.

(** A channel is only ever funded from outputs with witness data: whichever
    wallet builds the funding transaction, every input named to BDK is an unspent
    SegWit or P2SH output of the wallets. *)
Theorem funding_inputs_segwit s am r lt a a' tx :
  build_and_sign_funding_tx s am r lt a = (a', Ok tx) →
  ∃ w w' b psbt a1, wallets a !! primary a = Some w ∧ finish w b = (w', inl psbt) ∧
    a1 = set_wallet (primary a) w' a ∧ sign_psbt_all a1 psbt = Ok tx ∧
    ManuallySelectedOnly ∈ b ∧
    ∀ o, o ∈ builder_outpoints b →
      ∃ u, u ∈ list_unspent a ∧ outpoint u = o ∧ is_segwit_output u = true.
Proof.
  unfold build_and_sign_funding_tx. unfold with_state at 1.
  intros (a1 & psbt & Hb & Hs)%cmd_bind_Ok.
  apply build_tx_unified_Ok in Hb as (w & w' & b & ? & ? & ? & _ & ? & _ & Hall).
  unfold sign_and_persist in Hs. unfold with_state at 1 in Hs.
  apply lift_bind_Ok in Hs as (tx' & Hsign & Hs).
  apply cmd_bind_Ok in Hs as (? & ? & _ & Hret). unfold mret, cmd_ret in Hret. simplify_eq.
  eexists w, w', b, psbt, _. split_and!; [done..|].
  intros o Ho. destruct (Hall o Ho) as (u & ? & ? & ? & _). eauto.
Qed.

(** Draining spends everything: BDK is told to drain the primary wallet, and
    every other unspent output of the wallets is added as an input. *)
Theorem drain_spends_everything destination r a a' tx :
  build_and_sign_drain destination r a = (a', Ok tx) →
  ∃ w w' b psbt, wallets a !! primary a = Some w ∧ finish w b = (w', inl psbt) ∧
    a' = set_wallet (primary a) w' a ∧ sign_psbt_all a' psbt = Ok tx ∧
    [DrainWallet; DrainTo destination; SetFeeRate r] `prefix_of` b ∧
    ∀ u, u ∈ list_unspent a →
      outpoint u ∈ (outpoint <$> wallet_list_unspent w) ∨ outpoint u ∈ builder_outpoints b.
Proof.
  unfold build_and_sign_drain. unfold with_state at 1.
  intros (infos & Hinfos & Hrun)%lift_bind_Ok.
  apply lift_bind_Ok in Hrun as (w & Hw%ok_or_Ok & Hrun).
  destruct ((balance_total w =? 0) && _); [done|].
  apply lift_bind_Ok in Hrun as (b & Hb & Hrun).
  apply cmd_bind_Ok in Hrun as (a1 & psbt & Hfin & Hsign).
  apply finish_on_Ok in Hfin as (w' & Hfin & ->). unfold with_state, lift in Hsign. simplify_eq.
  apply (add_infos_outpoints (utxo.add_foreign_info w)) in Hb as [Ho Hpre];
    [|by apply add_foreign_info_outpoints].
  eexists w, w', b, psbt. split_and!; [done..|]. intros u Hu.
  destruct (decide (outpoint u ∈ outpoint <$> wallet_list_unspent w)) as [|Hnp]; [by left|right].
  unfold non_primary_foreign_utxos, primary_wallet in Hinfos. rewrite Hw in Hinfos.
  cbn [expect mbind outcome_bind] in Hinfos.
  assert (u ∈ non_primary w ∅ (list_unspent a)) as Hin
    by (apply elem_of_non_primary; set_solver).
  case_decide as Hemp; [rewrite Hemp in Hin; set_solver|].
  apply utxo.prepare_utxos_Ok, utxo.describes_outpoints in Hinfos.
  rewrite Ho, Hinfos. apply elem_of_app. right. by apply list_elem_of_fmap_2.
Qed.

(** ** Fee bumping *)

Lemma fallback_Ok a tx r tx' :
  build_cross_wallet_rbf_with_fallback a tx r = Ok tx' →
  ∃ extra, rbf.build_cross_wallet_rbf (wallets a) (primary a) tx r extra = Ok tx' ∧
    ∀ o, o ∈ (info_outpoint <$> extra) →
      ∃ u, u ∈ replacement_candidates a tx ∧ outpoint u = o.
Proof.
  unfold build_cross_wallet_rbf_with_fallback.
  destruct (rbf.build_cross_wallet_rbf _ _ _ _ []) as [tx1|e|] eqn:H1; [|destruct e; try done|done].
  { intros; simplify_eq. exists []. split; [done|set_solver]. }
  intros (d & Hd & Hrun)%bind_Ok. case_decide as Hne; [done|].
  apply bind_Ok in Hrun as (w & _ & Hrun). apply bind_Ok in Hrun as (sel & Hsel & Hrun).
  apply bind_Ok in Hrun as (infos & Hinfos & Hrun). case_decide; [done|].
  exists infos. split; [done|]. rewrite (utxo.prepare_outpoints_outpoints _ _ _ _ Hinfos).
  intros o Ho. destruct (utxo.select_utxos_subset _ _ Hsel o Ho) as (u & Hu & ? & _). eauto.
Qed.

Lemma elem_of_replacement_candidates a tx u :
  u ∈ replacement_candidates a tx ↔
  u ∈ list_confirmed_unspent a ∧ outpoint u ∉ (previous_output <$> input tx) ∧
  txid (outpoint u) ≠ compute_txid tx.
Proof.
  unfold replacement_candidates. rewrite !elem_of_filter_b, !negb_bool_decide. naive_solver.
Qed.

(** C8. A replacement is only built for a known transaction that no wallet has seen
    confirmed, at a rate at least one satoshi per virtual byte above the
    original's.  A transaction that spends from several wallets is replaced
    without touching any wallet's state, by one that spends all the original
    inputs, so that both cannot confirm, adds only confirmed outputs that the
    original neither spends nor created, and changes no output but the primary
    wallet's change. *)
Theorem build_rbf_replaces t r a a' tx fee :
  build_rbf t r a = (a', Ok (tx, fee)) →
  ∃ original, find_tx a t = Some original ∧ is_tx_confirmed_in_any_wallet a t = false ∧
    calculate_tx_fee a original = Ok fee ∧
    fee_rate_of fee (tx_weight original) + BROADCAST_MIN ≤ r ∧
    (is_primary_only_tx a t = Ok false →
       a' = a ∧ ∃ extra i out change,
         (previous_output <$> input tx) = (previous_output <$> input original) ++ extra ∧
         (∀ o, o ∈ extra → o ∉ (previous_output <$> input original) ∧
            txid o ≠ compute_txid original ∧
            ∃ u, u ∈ list_confirmed_unspent a ∧ outpoint u = o) ∧
         rbf.find_internal_change_output (wallets a) (primary a) original = Some (i, out) ∧
         output tx = <[i := {| value := change; script_pubkey := script_pubkey out |}]>
                       (output original) ∧
         utxo.DUST_LIMIT_SATS ≤ change).
Proof.
  unfold build_rbf. unfold with_state at 1.
  intros (original & Htx%ok_or_Ok & Hrun)%lift_bind_Ok.
  destruct (is_tx_confirmed_in_any_wallet a t) eqn:Hconf; [done|].
  apply lift_bind_Ok in Hrun as (ofee & Hfee & Hrun).
  apply lift_bind_Ok in Hrun as (minr & Hmin & Hrun).
  unfold rbf.minimum_replacement_fee_rate in Hmin. inv_outcome. inv_checked.
  destruct (Z.ltb_spec r (fee_rate_of ofee (tx_weight original) + BROADCAST_MIN)); [done|].
  apply lift_bind_Ok in Hrun as (prim & Hprim & Hrun).
  apply cmd_bind_Ok in Hrun as (a1 & tx1 & Hb & Hret). unfold mret, cmd_ret in Hret. simplify_eq.
  exists original. split_and!; [done..|]. rewrite Hprim. intros ?; simplify_eq.
  unfold lift in Hb. injection Hb as <- Hb. split; [done|].
  apply fallback_Ok in Hb as (infos & Hb & Hinfos).
  apply rbf.build_cross_wallet_rbf_Ok in Hb as (Hprev & i & out & change & Hf & Hout & Hd).
  exists (info_outpoint <$> infos), i, out, change. split_and!; [done| |done..].
  intros o Ho. destruct (Hinfos o Ho) as (u & Hu & <-).
  apply elem_of_replacement_candidates in Hu as (? & ? & ?). eauto.
Qed.

(** When the primary wallet cannot fund a channel, the transaction is built on an
    eligible wallet whose spendable balance no other eligible wallet exceeds, and
    only if there is one. *)
Theorem best_wallet_is_richest s am r lt (filter : K → bool) a a' tx :
  build_and_sign_tx_with_best_wallet s am r lt filter a = (a', Ok tx) →
  ∃ key w w' b psbt a1, wallets a !! key = Some w ∧ filter key = true ∧
    (∀ k, is_Some (wallets a !! k) → filter k = true → spendable_of a k ≤ spendable_of a key) ∧
    finish w b = (w', inl psbt) ∧ a1 = set_wallet key w' a ∧ sign_psbt_all a1 psbt = Ok tx ∧
    ∀ o, o ∈ builder_outpoints b →
      ∃ u, u ∈ list_unspent a ∧ outpoint u = o ∧ is_segwit_output u = true.
Proof.
  unfold build_and_sign_tx_with_best_wallet. unfold with_state at 1. case_decide; [done|].
  intros (key & Hkey%expect_Ok & Hrun)%lift_bind_Ok.
  apply cmd_bind_Ok in Hrun as (a1 & psbt & Hb & Hs).
  apply build_tx_unified_Ok in Hb as (w & w' & b & ? & ? & ? & _ & _ & _ & Hall).
  unfold sign_and_persist in Hs. unfold with_state at 1 in Hs.
  apply lift_bind_Ok in Hs as (tx' & Hsign & Hs).
  apply cmd_bind_Ok in Hs as (? & ? & _ & Hret). unfold mret, cmd_ret in Hret. simplify_eq.
  set (ks := List.filter filter (keys (wallets a))) in *.
  destruct (sort_by (λ x y, spendable_of a y <=? spendable_of a x) ks) as [|k0 rest] eqn:Hsort;
    [done|]. simpl in Hkey. simplify_eq.
  assert (key ∈ ks) as Hin.
  { rewrite <- (sort_by_perm (λ x y, spendable_of a y <=? spendable_of a x) ks), Hsort.
    set_solver. }
  apply elem_of_filter_b in Hin as [_ Hf].
  eexists key, w, w', b, psbt, _. split_and!; [done..| |done|done|done|].
  - intros k Hk Hfk. eapply sort_by_head; [exact Hsort|]. apply elem_of_filter_b.
    by rewrite elem_of_keys.
  - intros o Ho. destruct (Hall o Ho) as (u & ? & ? & ? & _). eauto.
Qed.

(** The child fee rate recommended for CPFP lifts the package, parent and a child
    of the estimated size together, to within one satoshi per virtual byte of the
    target, for parents and targets of realistic size. *)
Theorem cpfp_package_rate parent_fee parent_weight target :
  0 ≤ parent_fee ≤ 21 * 10 ^ 14 → 0 < parent_weight ≤ 4 * 10 ^ 6 → 0 ≤ target ≤ 10 ^ 10 →
  let rate := fee_rate_of parent_fee parent_weight in
  rate < target →
  let child := cpfp_child_rate parent_weight rate target in
  (target - 250) * (parent_weight + 4 * estimated_child_vbytes)
    < 1000 * parent_fee + child * (4 * estimated_child_vbytes).
Proof.
  intros Hfee Hw Ht rate Hlt child. subst child. unfold cpfp_child_rate.
  destruct (Z.leb_spec target rate); [lia|].
  assert (rate = parent_fee * 1000 / parent_weight) as Hrate.
  { apply fee_rate_of_floor; unfold u64_max; lia. }
  pose proof (Z.div_mod (parent_fee * 1000) parent_weight ltac:(lia)) as Hdm.
  pose proof (Z.mod_pos_bound (parent_fee * 1000) parent_weight ltac:(lia)) as Hmb.
  rewrite <- Hrate in Hdm. clearbody rate.
  assert (0 ≤ rate) as Hr0 by (subst rate; apply Z.div_pos; lia).
  pose proof (to_vbytes_ceil_bounds parent_weight ltac:(lia)) as Hpv.
  pose proof (to_sat_per_vb_ceil_bounds rate Hr0) as HP.
  pose proof (to_sat_per_vb_ceil_bounds target ltac:(lia)) as HT.
  set (pv := to_vbytes_ceil parent_weight) in *.
  set (Pr := to_sat_per_vb_ceil rate) in *. set (T := to_sat_per_vb_ceil target) in *.
  assert (0 ≤ T - Pr) by lia.
  assert ((T - Pr) * pv ≤ (4 * 10 ^ 7 + 1) * (10 ^ 6 + 1)) by nia.
  assert (0 ≤ (T - Pr) * pv) by nia.
  unfold estimated_child_vbytes.
  rewrite (wrap64_small (T - Pr)) by (unfold is_u64, u64_max; lia).
  rewrite (wrap64_small ((T - Pr) * pv)) by (unfold is_u64, u64_max; lia).
  rewrite (wrap64_small (T * 120)) by (unfold is_u64, u64_max; lia).
  rewrite (wrap64_small (T * 120 + (T - Pr) * pv)) by (unfold is_u64, u64_max; lia).
  set (n := T * 120 + (T - Pr) * pv) in *.
  pose proof (Z.div_mod n 120 ltac:(lia)) as Hn.
  pose proof (Z.mod_pos_bound n 120 ltac:(lia)) as Hnb.
  set (q := n / 120) in *.
  assert (default (wrap64 (q * 250)) (from_sat_per_vb q) = q * 250) as ->.
  { destruct (from_sat_per_vb q) eqn:Hv; simpl; [by apply from_sat_per_vb_Some|].
    apply wrap64_small. unfold is_u64, u64_max. lia. }
  assert ((T - Pr) * parent_weight ≤ 4 * ((T - Pr) * pv)) by nia.
  assert (250 * (Pr - 1) * parent_weight ≤ rate * parent_weight) by nia.
  nia.
Qed.
End build.
End build.
