(* ===== verification/AggInvariant.v ===== *)
(** * Safety of the aggregate wallet

    The primary wallet is always loaded and every wallet has a persister, through
    every public operation of [AggregateWallet] and on every error path; so no
    operation runs into one of the [expect]s or an index out of range.  The lemmas
    are compositional: [stable D p m] says that the command [m] keeps the set of
    keys [D] and the primary [p] and does not abort. *)

From S2P Require Import Prelude Types Bdk AggTypes AggUtxo AggSigning AggRbf Aggregate AggBuild.

Import aggregate AggregateWallet build.

Create HintDb agg discriminated.

Section invariant.
Context {K : Type} `{Countable K} {O : IterOrder K} {OT : IterOrder Txid}.
Context {BTC : Bitcoin} {W P U Ev : Type} {BDK : Bdk W P U Ev} {CS : CoinSelection}.
Context {BTCS : BitcoinSpec} {BDKS : BdkSpec W P U Ev}.
Implicit Types (a : AggregateWallet K W P) (key : K) (D Q : gset K) (p : K).

Definition keys_in D Q p a : Prop :=
  dom (wallets a) = D ∧ dom (persisters a) = Q ∧ primary a = p.
(** Every wallet has a persister and every persister a wallet. *)
Definition keys_are D p a : Prop := keys_in D D p a.

Definition stable D Q p {A} (m : cmd (AggregateWallet K W P) Error A) : Prop :=
  ∀ a, keys_in D Q p a → keys_in D Q p (m a).1 ∧ no_panic (m a).2.

Lemma wf_keys a : wf a ↔ ∃ D p, p ∈ D ∧ keys_are D p a.
Proof.
  split.
  - intros [Hp Hd]. exists (dom (wallets a)), (primary a).
    split; [by apply elem_of_dom|]. by split_and!.
  - intros (D & p & Hp & Hw & Hps & Hprim). split; [|congruence].
    apply elem_of_dom. by rewrite Hw, Hprim.
Qed.

(** ** Composition *)

Lemma stable_ret D Q p {A} (x : A) : stable D Q p (mret x).
Proof. done. Qed.
Lemma stable_fail D Q p {A} e : stable D Q p (@fail _ Error A e).
Proof. done. Qed.
Lemma stable_lift D Q p {A} (m : outcome Error A) : no_panic m → stable D Q p (lift m).
Proof. done. Qed.
Lemma stable_bind D Q p {A B} (m : cmd _ _ A) (f : A → cmd _ _ B) :
  stable D Q p m → (∀ x, stable D Q p (f x)) → stable D Q p (m ≫= f).
Proof.
  intros Hm Hf a Ha. unfold mbind, cmd_bind.
  destruct (Hm a Ha) as [Ha' Hnp]. destruct (m a) as [a' [x|e|]]; [by apply Hf|done..].
Qed.
(** Also keep what a lifted computation returned. *)
Lemma stable_lift_bind D Q p {A B} (m : outcome Error A) (f : A → cmd _ _ B) :
  no_panic m → (∀ x, m = Ok x → stable D Q p (f x)) → stable D Q p (lift m ≫= f).
Proof.
  intros Hm Hf a Ha. unfold mbind, cmd_bind, lift. destruct m as [x|e|]; [by apply Hf|done..].
Qed.
Lemma stable_with_state D Q p {A} (f : _ → cmd _ _ A) :
  (∀ a, keys_in D Q p a → stable D Q p (f a)) → stable D Q p (with_state f).
Proof. intros Hf a Ha. by apply Hf. Qed.
Lemma stable_set_wallet D Q p key w : key ∈ D → stable D Q p (modify (set_wallet key w)).
Proof.
  intros Hk a (Hw & Hps & Hp). split; [|done]. split_and!; simpl; [|done..].
  rewrite dom_insert_L. set_solver.
Qed.
Lemma stable_for_each D Q p {A} (body : A → cmd _ _ unit) xs :
  (∀ x, x ∈ xs → stable D Q p (body x)) → stable D Q p (for_each body xs).
Proof.
  induction xs as [|x xs IH]; intros Hb; simpl; [apply stable_ret|].
  apply stable_bind; [apply Hb; set_solver|]. intros _. apply IH. set_solver.
Qed.

Lemma keys_in_lookup D Q p a key w : keys_in D Q p a → wallets a !! key = Some w → key ∈ D.
Proof. intros (<- & _) Hk. apply elem_of_dom. eauto. Qed.
Lemma keys_in_iter D Q p a key w : keys_in D Q p a → (key, w) ∈ iter (wallets a) → key ∈ D.
Proof. intros Ha Hk%elem_of_iter. by eapply keys_in_lookup. Qed.
Lemma keys_in_is_Some D Q p a key : keys_in D Q p a → key ∈ D → is_Some (wallets a !! key).
Proof. intros (<- & _) Hk. by apply elem_of_dom. Qed.
Lemma keys_in_primary D Q p a : keys_in D Q p a → primary a = p.
Proof. by intros (_ & _ & ?). Qed.
Lemma no_panic_primary_wallet D Q p a : keys_in D Q p a → p ∈ D → no_panic (primary_wallet a).
Proof.
  intros Ha Hp. apply no_panic_expect. rewrite (keys_in_primary _ _ _ _ Ha).
  by eapply keys_in_is_Some.
Qed.

Lemma stable_persist_with D Q p key w q : key ∈ D → key ∈ Q → stable D Q p (persist_with key w q).
Proof.
  intros Hk Hq a (Hw & Hps & Hp). unfold persist_with.
  destruct (wallet_persist w q) as [[w' q'] []]; (split; [|done]);
    (split_and!; simpl; [rewrite dom_insert_L; set_solver..|done]).
Qed.

Lemma keys_in_ok_or D Q p a key w (e : Error) :
  keys_in D Q p a → ok_or (wallets a !! key) e = Ok w → key ∈ D.
Proof. intros Ha Hk%ok_or_Ok. by eapply keys_in_lookup. Qed.
Lemma keys_in_persister D Q p a key q (e : Error) :
  keys_in D Q p a → ok_or (persisters a !! key) e = Ok q → key ∈ Q.
Proof. intros (_ & <- & _) Hk%ok_or_Ok. apply elem_of_dom. eauto. Qed.
Lemma keys_in_primary_elem D Q p a : keys_in D Q p a → p ∈ D → primary a ∈ D.
Proof. by intros (_ & _ & ->). Qed.

#[local] Hint Resolve stable_ret stable_fail stable_set_wallet stable_persist_with
  keys_in_ok_or keys_in_persister keys_in_iter keys_in_primary_elem no_panic_primary_wallet : agg.
#[local] Hint Extern 1 (no_panic _) => solve_no_panic : agg.

Ltac stable_step :=
  match goal with
  | |- stable _ _ _ (with_state _) => apply stable_with_state; intros ? ?
  | |- stable _ _ _ (lift _ ≫= _) => apply stable_lift_bind; [|intros ? ?]
  | |- stable _ _ _ (_ ≫= _) => apply stable_bind; [|intros ?]
  | |- stable _ _ _ (lift _) => apply stable_lift
  | |- stable _ _ _ (for_each _ _) => apply stable_for_each; intros [? ?] ?
  | |- stable _ _ _ (match ?x with _ => _ end) => destruct x eqn:?
  end.
Ltac solve_stable := repeat first [solve [eauto 4 with agg] | stable_step]; eauto 4 with agg.

(** ** Each operation *)

Lemma stable_persist_wallet D Q p key w : key ∈ D → stable D Q p (persist_wallet key w).
Proof. intros Hk. unfold persist_wallet. solve_stable. Qed.
#[local] Hint Resolve stable_persist_wallet : agg.

Lemma stable_persist_all D Q p : stable D Q p persist_all.
Proof. unfold persist_all. solve_stable. Qed.

Lemma persist_wallet_errors key w a :
  match (persist_wallet key w a).2 with
  | Err e => e = PersistenceFailed ∨ e = PersisterNotFound
  | _ => True
  end.
Proof.
  unfold persist_wallet, persist_with, mbind, cmd_bind, modify, with_state, lift; simpl.
  destruct (persisters a !! key); simpl; [|by right].
  destruct (wallet_persist w _) as [[? ?] []]; simpl; [done|by left].
Qed.

Lemma persist_all_errors a :
  match (persist_all a).2 with
  | Err e => e = PersistenceFailed ∨ e = PersisterNotFound
  | _ => True
  end.
Proof.
  unfold persist_all, with_state. generalize (iter (wallets a)). intros l. revert a.
  induction l as [|[k w] l IH]; intros a; simpl; [done|].
  unfold mbind, cmd_bind. pose proof (persist_wallet_errors k w a) as Hp.
  destruct (persist_wallet k w a) as [a' [[]|e|]]; simpl in *; [apply IH|done|done].
Qed.

Lemma stable_with_wallet_persisted D Q p {A} key (f : W → W * A) :
  stable D Q p (with_wallet_persisted key f).
Proof. unfold with_wallet_persisted. solve_stable. Qed.
#[local] Hint Resolve stable_persist_all stable_with_wallet_persisted : agg.

Lemma stable_new_address_info_for D Q p key : stable D Q p (new_address_info_for key).
Proof. unfold new_address_info_for. solve_stable. Qed.
#[local] Hint Resolve stable_new_address_info_for : agg.
Lemma stable_new_address_for D Q p key : stable D Q p (new_address_for key).
Proof. unfold new_address_for. solve_stable. Qed.
Lemma stable_new_address_info D Q p : stable D Q p new_address_info.
Proof. unfold new_address_info. solve_stable. Qed.
#[local] Hint Resolve stable_new_address_info : agg.
Lemma stable_new_address D Q p : stable D Q p new_address.
Proof. unfold new_address. solve_stable. Qed.
Lemma stable_reveal_addresses_to D Q p key i : stable D Q p (reveal_addresses_to key i).
Proof. unfold reveal_addresses_to, validate_derivation_index. solve_stable. Qed.
Lemma stable_new_internal_address D Q p : stable D Q p new_internal_address.
Proof. unfold new_internal_address. solve_stable. Qed.
Lemma stable_cancel_tx D Q p tx : stable D Q p (cancel_tx tx).
Proof. unfold cancel_tx. solve_stable. Qed.
Lemma stable_cancel_dry_run_tx D Q p tx : p ∈ D → stable D Q p (cancel_dry_run_tx tx).
Proof. intros Hp. unfold cancel_dry_run_tx. solve_stable. Qed.
Lemma stable_apply_mempool_txs D Q p us es : stable D Q p (apply_mempool_txs us es).
Proof. unfold apply_mempool_txs. solve_stable. Qed.

Lemma stable_connect_block D Q p key w b h : key ∈ D → stable D Q p (connect_block key w b h).
Proof. intros Hk. unfold connect_block. solve_stable. Qed.
#[local] Hint Resolve stable_connect_block : agg.
Lemma no_panic_lookup D Q p a key :
  keys_in D Q p a → key ∈ D → no_panic (@expect Error W (wallets a !! key)).
Proof. intros Ha Hk. apply no_panic_expect. by eapply keys_in_is_Some. Qed.
#[local] Hint Resolve no_panic_lookup : agg.
Lemma stable_apply_block_to D Q p key b h : stable D Q p (apply_block_to key b h).
Proof. unfold apply_block_to. solve_stable. Qed.
Lemma stable_apply_block D Q p b h : p ∈ D → stable D Q p (apply_block b h).
Proof. intros Hp. unfold apply_block. solve_stable. Qed.
Lemma stable_apply_update_to_wallet D Q p key u : stable D Q p (apply_update_to_wallet key u).
Proof. unfold apply_update_to_wallet. solve_stable. Qed.
#[local] Hint Resolve stable_apply_update_to_wallet : agg.
Lemma stable_apply_update D Q p u : stable D Q p (apply_update u).
Proof. unfold apply_update. solve_stable. Qed.

(** ** Building transactions does not abort *)

Lemma no_panic_prepare_utxos us (ws : gmap K W) p :
  no_panic (utxo.prepare_utxos_for_psbt us ws p).
Proof. unfold utxo.prepare_utxos_for_psbt, utxo.prepare_utxo. solve_no_panic. Qed.
Lemma no_panic_prepare_outpoints os (ws : gmap K W) p :
  no_panic (utxo.prepare_outpoints_for_psbt os ws p).
Proof.
  unfold utxo.prepare_outpoints_for_psbt. case_decide; [apply no_panic_prepare_utxos|done].
Qed.
Lemma no_panic_select (r : utxo.SelectionRequest (K := K) (W := W)) :
  no_panic (utxo.select_utxos_with_algorithm_inner r).
Proof.
  unfold utxo.select_utxos_with_algorithm_inner, utxo.selection_target. solve_no_panic.
Qed.
Lemma no_panic_add_foreign (w : W) b infos :
  no_panic (try_fold (utxo.add_foreign_info w) b infos).
Proof. unfold utxo.add_foreign_info. solve_no_panic. Qed.
Lemma no_panic_add_utxos (w : W) b infos : no_panic (utxo.add_utxos_to_tx_builder w b infos).
Proof.
  unfold utxo.add_utxos_to_tx_builder, utxo.add_info, utxo.add_foreign_info. solve_no_panic.
Qed.
Lemma no_panic_sign psbt (ws : gmap K W) : no_panic (signing.sign_psbt_all_wallets psbt ws).
Proof.
  pose proof (signing.sign_psbt_all_wallets_spec psbt ws) as Hs. intros Hp. by rewrite Hp in Hs.
Qed.
#[local] Hint Resolve no_panic_prepare_utxos no_panic_prepare_outpoints no_panic_select
  no_panic_add_foreign no_panic_add_utxos no_panic_sign : no_panic.

Lemma no_panic_get_input_value o (ws : gmap K W) : no_panic (rbf.get_input_value o ws).
Proof. unfold rbf.get_input_value. solve_no_panic. Qed.
#[local] Hint Resolve no_panic_get_input_value : no_panic.
Lemma no_panic_requirements (ws : gmap K W) p tx v ins r :
  no_panic (rbf.replacement_requirements ws p tx v ins r).
Proof.
  unfold rbf.replacement_requirements, rbf.minimum_replacement_fee_rate. solve_no_panic.
Qed.
Lemma no_panic_original_value tx (ws : gmap K W) : no_panic (rbf.original_input_value tx ws).
Proof. unfold rbf.original_input_value. solve_no_panic. Qed.
#[local] Hint Resolve no_panic_requirements no_panic_original_value : no_panic.
Lemma no_panic_additional_value (ws : gmap K W) p tx r :
  no_panic (rbf.additional_input_value_needed ws p tx r).
Proof. unfold rbf.additional_input_value_needed. solve_no_panic. Qed.

(** The change output is an output of the original. *)
Lemma no_panic_unsigned_replacement (ws : gmap K W) p tx r extra :
  no_panic (rbf.unsigned_replacement ws p tx r extra).
Proof.
  unfold rbf.unsigned_replacement, rbf.extra_value.
  apply no_panic_bind; [solve_no_panic|intros v _].
  apply no_panic_bind; [solve_no_panic|intros tot _].
  apply no_panic_bind; [solve_no_panic|intros reqs Hreqs].
  apply rbf.replacement_requirements_Ok in Hreqs as (_ & _ & _ & _ & _ & _ & _ & Hidx & _).
  apply no_panic_bind; [solve_no_panic|intros req _].
  apply no_panic_bind; [solve_no_panic|intros av _].
  destruct (rbf.change_idx reqs) as [i|]; [|done]. symmetry in Hidx.
  apply rbf.change_idx_lookup in Hidx as (out & -> & _). case_match; done.
Qed.
#[local] Hint Resolve no_panic_additional_value no_panic_unsigned_replacement : no_panic.
Lemma no_panic_build_cross (ws : gmap K W) p tx r extra :
  no_panic (rbf.build_cross_wallet_rbf ws p tx r extra).
Proof. unfold rbf.build_cross_wallet_rbf, signing.sign_owned_inputs. solve_no_panic. Qed.
Lemma no_panic_calculate_tx_fee a tx : no_panic (calculate_tx_fee a tx).
Proof. unfold calculate_tx_fee, get_input_value. solve_no_panic. Qed.
#[local] Hint Resolve no_panic_build_cross no_panic_calculate_tx_fee : no_panic.
Lemma no_panic_unconfirmed_parent a t : no_panic (unconfirmed_parent a t).
Proof. unfold unconfirmed_parent. solve_no_panic. Qed.
Lemma no_panic_primary_rbf_deficit a t r : no_panic (primary_rbf_deficit a t r).
Proof. unfold primary_rbf_deficit. solve_no_panic. Qed.
#[local] Hint Resolve no_panic_unconfirmed_parent no_panic_primary_rbf_deficit : no_panic.

Section loaded.
Context (D Q : gset K) (p : K) (Hp : p ∈ D).

Lemma no_panic_fallback a tx r :
  keys_in D Q p a → no_panic (build_cross_wallet_rbf_with_fallback a tx r).
Proof.
  intros Ha. pose proof (no_panic_primary_wallet D Q p a Ha Hp) as Hw.
  unfold build_cross_wallet_rbf_with_fallback, prepare_outpoints_for_psbt,
    utxo.select_utxos_for_deficit.
  pose proof (no_panic_build_cross (wallets a) (primary a) tx r []) as Hb.
  destruct (rbf.build_cross_wallet_rbf _ _ _ _ _) as [|[]|]; solve_no_panic.
Qed.
Lemma no_panic_foreign a ts : keys_in D Q p a → no_panic (non_primary_foreign_utxos a ts).
Proof.
  intros Ha. pose proof (no_panic_primary_wallet D Q p a Ha Hp) as Hw.
  unfold non_primary_foreign_utxos, prepare_utxos_for_psbt. solve_no_panic.
Qed.
Lemma no_panic_select_foreign a d r ts s alg :
  keys_in D Q p a → no_panic (select_non_primary_foreign_utxos a d r ts s alg).
Proof.
  intros Ha. pose proof (no_panic_primary_wallet D Q p a Ha Hp) as Hw.
  unfold select_non_primary_foreign_utxos, prepare_outpoints_for_psbt,
    utxo.select_utxos_for_deficit. solve_no_panic.
Qed.
Lemma no_panic_is_primary_only a t : keys_in D Q p a → no_panic (is_primary_only_tx a t).
Proof.
  intros Ha. pose proof (no_panic_primary_wallet D Q p a Ha Hp) as Hw.
  unfold is_primary_only_tx. solve_no_panic.
Qed.
End loaded.
#[local] Hint Resolve no_panic_fallback no_panic_foreign no_panic_select_foreign
  no_panic_is_primary_only : agg.
#[local] Hint Unfold sign_psbt_all prepare_utxos_for_psbt prepare_outpoints_for_psbt
  utxo.select_utxos_with_algorithm : no_panic.

Lemma stable_finish_on D Q p key w b err : key ∈ D → stable D Q p (finish_on key w b err).
Proof. intros Hk. unfold finish_on. solve_stable. Qed.
#[local] Hint Resolve stable_finish_on : agg.

Lemma stable_build_tx_unified D Q p key s am r lt ts alg f :
  stable D Q p (build_tx_unified key s am r lt ts alg f).
Proof. unfold build_tx_unified, prepare_outpoints_for_psbt. solve_stable. Qed.
Lemma stable_sign_and_persist D Q p psbt : stable D Q p (sign_and_persist psbt).
Proof. unfold sign_and_persist, sign_psbt_all. solve_stable. Qed.
#[local] Hint Resolve stable_build_tx_unified stable_sign_and_persist : agg.
Lemma stable_funding D Q p s am r lt : stable D Q p (build_and_sign_funding_tx s am r lt).
Proof. unfold build_and_sign_funding_tx. solve_stable. Qed.
Lemma stable_best_wallet D Q p s am r lt f :
  stable D Q p (build_and_sign_tx_with_best_wallet s am r lt f).
Proof.
  unfold build_and_sign_tx_with_best_wallet. apply stable_with_state. intros a Ha.
  case_decide as Hne; [solve_stable|].
  apply stable_lift_bind; [|intros ? ?; solve_stable].
  apply no_panic_expect. set (ks := List.filter f (keys (wallets a))) in *.
  pose proof (sort_by_perm (λ x y, spendable_of a y <=? spendable_of a x) ks) as Hperm.
  destruct (sort_by _ ks); [|by eexists]. by apply Permutation_nil in Hperm.
Qed.
Lemma stable_psbt_fallback D Q p s am r ts alg :
  stable D Q p (build_psbt_with_cross_wallet_fallback s am r ts alg).
Proof. unfold build_psbt_with_cross_wallet_fallback. solve_stable. Qed.
Lemma stable_drain D Q p s r : p ∈ D → stable D Q p (build_and_sign_drain s r).
Proof. intros Hp. unfold build_and_sign_drain, sign_psbt_all. solve_stable. Qed.
Lemma stable_cpfp D Q p t r s : p ∈ D → stable D Q p (build_cpfp t r s).
Proof.
  intros Hp. unfold build_cpfp, sign_psbt_all, prepare_utxos_for_psbt. solve_stable.
Qed.
Lemma stable_primary_only_bump D Q p t r : stable D Q p (primary_only_bump t r).
Proof. unfold primary_only_bump. solve_stable. Qed.
Lemma stable_bump_with_foreign D Q p t r : p ∈ D → stable D Q p (bump_with_foreign t r).
Proof. intros Hp. unfold bump_with_foreign, sign_psbt_all. solve_stable. Qed.
Lemma stable_rbf_primary D Q p t r : p ∈ D → stable D Q p (build_rbf_primary_with_fallback t r).
Proof.
  intros Hp a Ha. unfold build_rbf_primary_with_fallback.
  destruct (stable_primary_only_bump D Q p t r a Ha) as [Ha' Hnp].
  destruct (primary_only_bump t r a) as [a' [psbt|e|]]; simpl in *; [|..|done].
  - split; [done|]. unfold sign_psbt_all. auto with no_panic.
  - destruct e; try done. by apply stable_bump_with_foreign.
Qed.
#[local] Hint Resolve stable_rbf_primary : agg.
Lemma stable_rbf D Q p t r : p ∈ D → stable D Q p (build_rbf t r).
Proof.
  intros Hp. unfold build_rbf, rbf.minimum_replacement_fee_rate. solve_stable.
Qed.

(** ** The public operations *)

(** Every method of [AggregateWallet] that takes [&mut self]; the [f] of an accessor is
    what its caller does with the reference it was handed. *)
Inductive op :=
| OpAddWallet key (w : W) (q : P)
| OpAddWalletAndPersist key (w : W) (q : P)
| OpSetPrimary key
| OpRemoveWallet key
| OpPersistAll
| OpNewAddressInfoFor key
| OpNewAddressInfo
| OpRevealAddressesTo key (index : Z)
| OpNewInternalAddress
| OpCancelTx (tx : Transaction)
| OpCancelDryRunTx (tx : Transaction)
| OpApplyBlockTo key (block : Block) (height : Z)
| OpApplyBlock (block : Block) (height : Z)
| OpApplyUpdateToWallet key (update : U)
| OpApplyUpdate (update : U)
| OpApplyMempoolTxs (unconfirmed : list (Transaction * Z)) (evicted : list (Txid * Z))
| OpBuildFundingTx (script : Script) (amount rate locktime : Z)
| OpBuildWithBestWallet (script : Script) (amount rate locktime : Z) (filter : K → bool)
| OpBuildPsbt (script : Script) (amount rate : Z) (excluded : gset Txid)
    (algorithm : CoinSelectionAlgorithm)
| OpBuildDrain (destination : Script) (rate : Z)
| OpBuildCpfp (parent : Txid) (rate : Z) (destination : option Script)
| OpBuildRbf (original : Txid) (rate : Z)
| OpWalletsMut (f : gmap K W → gmap K W)
| OpPersistersMut (f : gmap K P → gmap K P)
| OpWalletMut key (f : W → W)
| OpPrimaryWalletMut (f : W → W)
| OpPrimaryPersisterMut (f : P → P).

Definition discard {A} (m : cmd (AggregateWallet K W P) Error A) :
    cmd (AggregateWallet K W P) Error unit :=
  _ ← m; mret tt.

Definition exec (c : op) : cmd (AggregateWallet K W P) Error unit :=
  match c with
  | OpAddWallet key w q => add_wallet key w q
  | OpAddWalletAndPersist key w q => add_wallet_and_persist key w q
  | OpSetPrimary key => set_primary key
  | OpRemoveWallet key => remove_wallet key
  | OpPersistAll => persist_all
  | OpNewAddressInfoFor key => discard (new_address_info_for key)
  | OpNewAddressInfo => discard new_address_info
  | OpRevealAddressesTo key index => reveal_addresses_to key index
  | OpNewInternalAddress => discard new_internal_address
  | OpCancelTx tx => cancel_tx tx
  | OpCancelDryRunTx tx => cancel_dry_run_tx tx
  | OpApplyBlockTo key block height => discard (apply_block_to key block height)
  | OpApplyBlock block height => discard (apply_block block height)
  | OpApplyUpdateToWallet key update => discard (apply_update_to_wallet key update)
  | OpApplyUpdate update => discard (apply_update update)
  | OpApplyMempoolTxs unconfirmed evicted => apply_mempool_txs unconfirmed evicted
  | OpBuildFundingTx script amount rate locktime =>
      discard (build_and_sign_funding_tx script amount rate locktime)
  | OpBuildWithBestWallet script amount rate locktime filter =>
      discard (build_and_sign_tx_with_best_wallet script amount rate locktime filter)
  | OpBuildPsbt script amount rate excluded algorithm =>
      discard (build_psbt_with_cross_wallet_fallback script amount rate excluded algorithm)
  | OpBuildDrain destination rate => discard (build_and_sign_drain destination rate)
  | OpBuildCpfp parent rate destination => discard (build_cpfp parent rate destination)
  | OpBuildRbf original rate => discard (build_rbf original rate)
  | OpWalletsMut f => wallets_mut f
  | OpPersistersMut f => persisters_mut f
  | OpWalletMut key f => discard (wallet_mut key f)
  | OpPrimaryWalletMut f => primary_wallet_mut f
  | OpPrimaryPersisterMut f => primary_persister_mut f
  end.

(** Whatever the outcome of one call, the next one runs on the state it left. *)
Fixpoint run (cs : list op) a : AggregateWallet K W P * list (outcome Error unit) :=
  match cs with
  | [] => (a, [])
  | c :: cs => let '(a, r) := exec c a in let '(a, rs) := run cs a in (a, r :: rs)
  end.

#[local] Hint Resolve stable_new_address_info_for stable_new_address_info
  stable_reveal_addresses_to stable_new_internal_address stable_cancel_tx
  stable_cancel_dry_run_tx stable_apply_block_to stable_apply_block
  stable_apply_update_to_wallet stable_apply_update stable_apply_mempool_txs stable_funding
  stable_best_wallet stable_psbt_fallback stable_drain stable_cpfp stable_rbf : agg.

(** The calls that hand out a whole map. *)
Definition hands_out_map (c : op) : bool :=
  match c with OpWalletsMut _ | OpPersistersMut _ => true | _ => false end.
(** The calls that may change which wallets and persisters there are. *)
Definition changes_membership (c : op) : bool :=
  match c with
  | OpAddWallet _ _ _ | OpAddWalletAndPersist _ _ _ | OpSetPrimary _ | OpRemoveWallet _ => true
  | _ => hands_out_map c
  end.
Definition takes_primary_persister (c : op) : bool :=
  match c with OpPrimaryPersisterMut _ => true | _ => false end.

Lemma stable_wallet_mut D Q p key f : stable D Q p (wallet_mut key f).
Proof.
  intros a Ha. unfold wallet_mut. destruct (wallets a !! key) as [w|] eqn:Hk; [|done].
  split; [|done]. apply (stable_set_wallet D Q p key (f w)); [|done]. by eapply keys_in_lookup.
Qed.
Lemma stable_primary_wallet_mut D Q p f : p ∈ D → stable D Q p (primary_wallet_mut f).
Proof.
  intros Hp a Ha. pose proof (keys_in_is_Some D Q p a p Ha Hp) as [w Hw].
  unfold primary_wallet_mut. rewrite (keys_in_primary _ _ _ _ Ha), Hw. split; [|done].
  by apply (stable_set_wallet D Q p p (f w)).
Qed.
#[local] Hint Resolve stable_wallet_mut stable_primary_wallet_mut : agg.

(** [primary_persister_mut] needs the persister of the primary wallet. *)
Lemma primary_persister_mut_spec D Q p f a :
  keys_in D Q p a →
  keys_in D Q p (primary_persister_mut f a).1 ∧
  ((primary_persister_mut f a).2 = Panic ↔ persisters a !! primary a = None).
Proof.
  intros (Hw & Hq & Hp). unfold primary_persister_mut.
  destruct (persisters a !! primary a) as [q|] eqn:Hl; cbn; [|by split_and!].
  split; [|done]. split_and!; cbn; [done| |done]. rewrite dom_insert_L, Hq.
  assert (primary a ∈ Q); [|set_solver]. rewrite <- Hq. apply elem_of_dom. eauto.
Qed.

Lemma stable_exec D Q p c :
  p ∈ D → changes_membership c = false → takes_primary_persister c = false →
  stable D Q p (exec c).
Proof. intros Hp Hc Ht. destruct c; try done; unfold exec, discard; solve_stable. Qed.

(** With a persister for every wallet, that call is no exception. *)
Lemma stable_exec_matched D p c :
  p ∈ D → changes_membership c = false → stable D D p (exec c).
Proof.
  intros Hp Hc. destruct (takes_primary_persister c) eqn:Ht; [|by apply stable_exec].
  destruct c as [| | | | | | | | | | | | | | | | | | | | | | | | | |f]; try done.
  intros a Ha. destruct (primary_persister_mut_spec D D p f a Ha) as [Ha' Hpan].
  split; [done|]. intros Hn%Hpan%not_elem_of_dom. destruct Ha as (_ & Hq & Hpr).
  by rewrite Hq, Hpr in Hn.
Qed.

Lemma keys_in_insert D Q p a key w q :
  keys_in D Q p a →
  keys_in ({[key]} ∪ D) ({[key]} ∪ Q) p (set_persister key q (set_wallet key w a)).
Proof. intros (<- & <- & Hp). split_and!; simpl; rewrite ?dom_insert_L; congruence. Qed.
Lemma keys_are_insert D p a key w q :
  keys_are D p a →
  keys_are ({[key]} ∪ D) p (set_persister key q (set_wallet key w a)).
Proof. apply keys_in_insert. Qed.

(** The removal that undoes a failed addition always succeeds. *)
Lemma remove_added_wallet D Q p a key :
  key ∉ D → p ∈ D → keys_in ({[key]} ∪ D) ({[key]} ∪ Q) p a →
  ∃ a', remove_wallet key a = (a', Ok tt) ∧ keys_in D (Q ∖ {[key]}) p a'.
Proof.
  intros Hk Hp (Hw & Hps & Hprim). unfold remove_wallet.
  rewrite decide_False by (intros ->; rewrite Hprim in Hk; done).
  assert (is_Some (wallets a !! key)) as [w Hwk] by (apply elem_of_dom; set_solver).
  assert (is_Some (persisters a !! key)) as [q Hqk] by (apply elem_of_dom; set_solver).
  rewrite !decide_False by congruence. eexists. split; [done|].
  split_and!; simpl; rewrite ?dom_delete_L; set_solver.
Qed.

Lemma add_wallet_and_persist_spec D Q p a key w q :
  p ∈ D → keys_in D Q p a →
  match add_wallet_and_persist key w q a with
  | (a', Ok _) => key ∉ D ∧ keys_in ({[key]} ∪ D) ({[key]} ∪ Q) p a'
  | (a', Err WalletAlreadyExists) => key ∈ D ∧ a' = a
  | (a', Err e) => key ∉ D ∧ keys_in D (Q ∖ {[key]}) p a'
  | (_, Panic) => False
  end.
Proof.
  intros Hp Ha. unfold add_wallet_and_persist, mbind, cmd_bind, add_wallet.
  destruct (wallets a !! key) as [w'|] eqn:Hk.
  { split; [|done]. by eapply keys_in_lookup. }
  assert (key ∉ D) as Hnk.
  { destruct Ha as (<- & _). by apply not_elem_of_dom. }
  apply (keys_in_insert _ _ _ _ key w q) in Ha. unfold persist_or_remove.
  destruct (stable_persist_all ({[key]} ∪ D) ({[key]} ∪ Q) p _ Ha) as [Ha' Hnp].
  pose proof (persist_all_errors (set_persister key q (set_wallet key w a))) as Herr.
  destruct (persist_all _) as [a' [[]|e|]]; simpl in *; [done| |done].
  destruct (remove_added_wallet D Q p a' key Hnk Hp Ha') as (a'' & -> & Ha'').
  destruct Herr as [->| ->]; done.
Qed.

(** A use of [wallets_mut] after which the primary wallet is gone. *)
Definition unloads_primary (c : op) a : bool :=
  match c with
  | OpWalletsMut f => bool_decide (f (wallets a) !! primary a = None)
  | _ => false
  end.

(** One call on an aggregate whose primary wallet is loaded, with whatever persisters:
    the primary wallet is loaded afterwards, the only call that can abort is the one that
    wants a persister that is not there, and only the calls that hand out a map set
    wallets and persisters apart. *)
Lemma exec_loaded D Q p c a :
  p ∈ D → keys_in D Q p a → unloads_primary c a = false →
  ∃ D' Q' p', p' ∈ D' ∧ keys_in D' Q' p' (exec c a).1 ∧
    ((exec c a).2 = Panic ↔
       takes_primary_persister c = true ∧ persisters a !! primary a = None) ∧
    (hands_out_map c = false → D = Q → Q' = D').
Proof.
  intros Hp Ha Hu. destruct (changes_membership c) eqn:Hc.
  2: { destruct (takes_primary_persister c) eqn:Ht.
    - destruct c as [| | | | | | | | | | | | | | | | | | | | | | | | | |f]; try done; cbn [exec].
      destruct (primary_persister_mut_spec D Q p f a Ha) as [Ha' Hpan].
      exists D, Q, p. split_and!; [done..|naive_solver|done].
    - destruct (stable_exec D Q p c Hp Hc Ht a Ha) as [Ha' Hnp].
      exists D, Q, p. split_and!; [done..| |done]. split; [by intros ?%Hnp|by intros [? _]]. }
  destruct c as [key w q|key w q|key|key| | | | | | | | | | | | | | | | | | |f|f| | |];
    try done; cbn [exec].
  - unfold add_wallet. destruct (wallets a !! key) eqn:Hk; cbn.
    + exists D, Q, p. by split_and!; [..|naive_solver|].
    + exists ({[key]} ∪ D), ({[key]} ∪ Q), p.
      split_and!; [set_solver|by apply keys_in_insert|naive_solver|by intros _ ->].
  - pose proof (add_wallet_and_persist_spec D Q p a key w q Hp Ha) as Hs.
    destruct (add_wallet_and_persist key w q a) as [a' [|e|]]; cbn; [|..|done].
    + destruct Hs as [_ ?]. exists ({[key]} ∪ D), ({[key]} ∪ Q), p.
      split_and!; [set_solver|done|naive_solver|by intros _ ->].
    + assert (keys_in D Q p a' ∨ key ∉ D ∧ keys_in D (Q ∖ {[key]}) p a') as [?|[? ?]].
      { destruct e; destruct Hs as [? Hs]; subst; auto. }
      * exists D, Q, p. by split_and!; [..|naive_solver|].
      * exists D, (Q ∖ {[key]}), p.
        split_and!; [done..|naive_solver|intros _ <-; set_solver].
  - unfold set_primary. destruct (wallets a !! key) as [w|] eqn:Hk; cbn.
    + exists D, Q, key. destruct Ha as (? & ? & ?). split_and!; [|split_and!|naive_solver|]; try done.
      subst D. apply elem_of_dom. eauto.
    + exists D, Q, p. by split_and!; [..|naive_solver|].
  - unfold remove_wallet. repeat case_decide; cbn.
    1-3: exists D, Q, p; by split_and!; [..|naive_solver|].
    destruct Ha as (<- & <- & <-).
    exists (dom (wallets a) ∖ {[key]}), (dom (persisters a) ∖ {[key]}), (primary a).
    split_and!; [set_solver|by split_and!; cbn; rewrite ?dom_delete_L|naive_solver|by intros _ ->].
  - destruct Ha as (? & ? & <-). apply bool_decide_eq_false in Hu.
    exists (dom (f (wallets a))), Q, (primary a).
    split_and!; [by apply elem_of_dom, not_eq_None_Some|done|naive_solver|done].
  - destruct Ha as (? & ? & <-).
    exists D, (dom (f (persisters a))), (primary a). by split_and!; [..|naive_solver|].
Qed.

Lemma exec_safe c a : wf a → hands_out_map c = false → wf (exec c a).1 ∧ no_panic (exec c a).2.
Proof.
  rewrite !wf_keys. intros (D & p & Hp & Ha) Hm.
  destruct (exec_loaded D D p c a Hp Ha) as (D' & Q' & p' & Hp' & Ha' & Hpan & Hsame).
  { by destruct c. }
  split; [|].
  - exists D', p'. split; [done|]. by rewrite (Hsame Hm eq_refl) in Ha'.
  - intros Hpanic. apply Hpan in Hpanic as [_ Hn]. destruct Ha as (_ & Hq & Hpr).
    apply not_elem_of_dom in Hn. by rewrite Hq, Hpr in Hn.
Qed.

Lemma new_wf (w : W) (q : P) p others : wf (new w q p others).
Proof.
  unfold new.
  assert (∀ (ws : gmap K W) (ps : gmap K P), is_Some (ws !! p) → dom ws = dom ps →
    let '(ws', ps') := foldl (λ '(ws, ps) '(key, wallet, persister),
             (<[key := wallet]> ws, <[key := persister]> ps)) (ws, ps) others in
    is_Some (ws' !! p) ∧ dom ws' = dom ps') as Hind.
  { induction others as [|[[k w'] q'] others IH]; intros ws ps Hp Hd; simpl; [done|].
    apply IH.
    - destruct (decide (k = p)) as [->|];
        [rewrite lookup_insert_eq|rewrite lookup_insert_ne by done]; eauto.
    - rewrite !dom_insert_L. congruence. }
  specialize (Hind {[p := w]} {[p := q]}). rewrite lookup_singleton_eq, !dom_singleton_L in Hind.
  destruct (foldl _ _ _) as [ws ps]. destruct Hind as [? ?]; [by eauto|done|].
  by split.
Qed.

(** A sequence of calls in which no use of [wallets_mut] takes the primary wallet out. *)
Fixpoint keeps_primary (cs : list op) a : bool :=
  match cs with
  | [] => true
  | c :: cs => negb (unloads_primary c a) && keeps_primary cs (exec c a).1
  end.

Lemma run_loaded cs a :
  is_Some (wallets a !! primary a) → keeps_primary cs a = true →
  is_Some (wallets (run cs a).1 !! primary (run cs a).1).
Proof.
  revert a. induction cs as [|c cs IH]; intros a Hl Hk; [done|]. cbn [run keeps_primary] in *.
  apply andb_true_iff in Hk as [Hu Hk]. apply negb_true_iff in Hu.
  destruct (exec_loaded (dom (wallets a)) (dom (persisters a)) (primary a) c a)
    as (D & Q & p & Hp & Ha & _); [by apply elem_of_dom|done|done|].
  destruct (exec c a) as [a' r]; cbn in *.
  destruct (run cs a') as [a'' rs] eqn:Hr. cbn. specialize (IH a'). rewrite Hr in IH.
  apply IH; [|done]. rewrite (keys_in_primary _ _ _ _ Ha). by eapply keys_in_is_Some.
Qed.

Lemma run_wf cs a : wf a → Forall (λ c, hands_out_map c = false) cs → wf (run cs a).1.
Proof.
  revert a. induction cs as [|c cs IH]; intros a Hwf Hm; [done|]. cbn [run].
  apply Forall_cons in Hm as [Hc Hm]. destruct (exec_safe c a Hwf Hc) as [Hwf' _].
  destruct (exec c a) as [a' r]; cbn in *. specialize (IH a' Hwf' Hm). by destruct (run cs a').
Qed.


(** Adding a wallet is all or nothing as far as membership goes: on success
    exactly the new key is added, if the key was taken nothing happens at all,
    and if anything cannot be persisted the aggregate has the wallets, persisters
    and primary it had before; the rollback itself cannot fail. *)
Theorem add_wallet_and_persist_atomic key (w : W) (q : P) a :
  wf a →
  match add_wallet_and_persist key w q a with
  | (a', Ok _) =>
      wallets a !! key = None ∧ keys_are ({[key]} ∪ dom (wallets a)) (primary a) a'
  | (a', Err e) =>
      (e = WalletAlreadyExists → is_Some (wallets a !! key) ∧ a' = a) ∧
      keys_are (dom (wallets a)) (primary a) a'
  | (_, Panic) => False
  end.
Proof.
  intros (D & p & Hp & Ha)%wf_keys.
  pose proof (add_wallet_and_persist_spec D D p a key w q Hp Ha) as Hs.
  pose proof Ha as (Hw & Hps & Hprim). rewrite Hw, Hprim.
  assert (key ∈ D ↔ is_Some (wallets a !! key)) as Hkey by (rewrite <- Hw; apply elem_of_dom).
  destruct (add_wallet_and_persist key w q a) as [a' [[]|e|]]; [|..|done].
  - destruct Hs as [Hk Hs]. split; [|done]. apply eq_None_not_Some. by rewrite <- Hkey.
  - assert (key ∉ D → D ∖ {[key]} = D) as Hd by set_solver.
    destruct e; destruct Hs as [Hk Hs]; rewrite ?Hd in Hs by done; subst; split; try done.
    by intros _; split; [apply Hkey|].
Qed.
End invariant.
