(* ===== verification/SampleWallet.v ===== *)
(** * A small wallet behind the BDK interface

    An executable model of the interface of [Bdk]: a wallet is a list of outputs,
    transactions and scripts, a persister is a schedule of failures.  It shows that
    the interface's laws can be met, and lets the theorems about the aggregate
    wallet be evaluated on concrete wallets. *)

From Stdlib Require Import Strings.Byte.
From S2P Require Import Prelude Types Bdk.

#[global] Instance sample_bitcoin : Bitcoin := {
  compute_txid tx := [x54];
  tx_weight tx := 4 * (10 + 41 * Z.of_nat (length (input tx)) + 34 * Z.of_nat (length (output tx)));
  txout_weight out := 4 * (9 + Z.of_nat (length (script_pubkey out)));
  is_p2wpkh s := bool_decide (length s = 22%nat);
  is_p2tr s := bool_decide (length s = 34%nat);
  is_p2sh s := bool_decide (length s = 23%nat);
  witness_version s := if decide (length s = 22%nat ∨ length s = 34%nat) then Some 0 else None;
  fee_rate_of a w := a * 1000 / w;
  fee_wu r w := Some ((r * w + 999) / 1000);
  to_vbytes_ceil w := (w + 3) / 4;
  to_sat_per_vb_ceil r := (r + 249) / 250;
  from_sat_per_vb v := Some (v * 250);
  BROADCAST_MIN := 250;
  from_unsigned_tx tx :=
    Some {| unsigned_tx := tx; psbt_inputs := replicate (length (input tx)) default_input |};
  extract_tx p := inl (unsigned_tx p);
}.

#[global] Instance sample_bitcoin_spec : BitcoinSpec.
Proof.
  split; simpl.
  - intros r w f _ _ [= <-]. div_lia.
  - done.
  - intros w Hw. div_lia.
  - intros r Hr. div_lia.
  - intros v r. congruence.
  - done.
  - intros tx p [= <-]. done.
  - intros p tx [[= <-]|?]; done.
Qed.

Record SampleWallet := {
  s_utxos : list LocalOutput;
  s_txs : list WalletTx;
  s_internal : list Script;
  s_external : list Script;
  s_tip : CheckPoint;
  s_revealed : Z;
}.

Definition sample_get_utxo (w : SampleWallet) (o : OutPoint) : option LocalOutput :=
  List.find (λ u, bool_decide (outpoint u = o)) (s_utxos w).
Definition sample_get_tx (w : SampleWallet) (t : Txid) : option WalletTx :=
  List.find (λ x, bool_decide (wtx_txid x = t)) (s_txs w).
Definition sample_is_mine (w : SampleWallet) (s : Script) : bool :=
  bool_decide (s ∈ s_internal w ∨ s ∈ s_external w).
Definition sample_address (k : KeychainKind) (i : Z) : AddressInfo :=
  {| ai_index := i; ai_address := {| address_text := ""; address_script := replicate 22 x61 |};
     ai_keychain := k |}.
Definition sample_reveal (w : SampleWallet) (n : Z) : SampleWallet := {|
  s_utxos := s_utxos w; s_txs := s_txs w; s_internal := s_internal w;
  s_external := s_external w; s_tip := s_tip w; s_revealed := n
|}.
Definition sample_connect (w : SampleWallet) (b : Block) (h : Z) : SampleWallet := {|
  s_utxos := s_utxos w; s_txs := s_txs w; s_internal := s_internal w;
  s_external := s_external w;
  s_tip := {| cp_height := h; cp_hash := bh b;
              cp_get := λ n, if n =? h then Some {| block_height := h; block_hash := bh b |}
                             else cp_get (s_tip w) n |};
  s_revealed := s_revealed w
|}.

(** Finalize the inputs whose output the wallet holds or whose script it knows. *)
Definition sample_sign_input (w : SampleWallet) (tx : Transaction) (i : nat) (inp : PsbtInput) :
    PsbtInput :=
  let mine :=
    match input tx !! i with
    | Some txin => bool_decide (is_Some (sample_get_utxo w (previous_output txin)))
    | None => false
    end ||
    match witness_utxo inp with
    | Some out => sample_is_mine w (script_pubkey out)
    | None => false
    end in
  if mine then
    {| witness_utxo := witness_utxo inp; non_witness_utxo := non_witness_utxo inp;
       final_script_sig := final_script_sig inp; final_script_witness := Some [[x01]];
       rest := rest inp |}
  else inp.

(** The inputs and outputs a builder's calls ask for. *)
Definition sample_tx (w : SampleWallet) (b : TxBuilder) : Transaction := {|
  version := 2; lock_time := 0;
  input := flat_map (λ c,
    match c with
    | AddUtxo o | AddForeignUtxo o _ _ _ => [mkTxIn o [] ENABLE_RBF_NO_LOCKTIME []]
    | DrainWallet => (λ u, mkTxIn (outpoint u) [] ENABLE_RBF_NO_LOCKTIME []) <$> s_utxos w
    | _ => []
    end) b;
  output := flat_map (λ c,
    match c with
    | AddRecipient s a => [mkTxOut a s]
    | DrainTo s => [mkTxOut 0 s]
    | _ => []
    end) b;
|}.

(** [update] is what applying an update of the chain does. *)
Definition sample_bdk_with {U Ev} (update : SampleWallet → U → SampleWallet * option (list Ev)) :
    Bdk SampleWallet (list bool) U Ev := {|
  balance_of w := mkBalance (sum_Z ((λ u, value (txout u)) <$> s_utxos w)) 0 0 0;
  balance_total w := sum_Z ((λ u, value (txout u)) <$> s_utxos w);
  wallet_list_unspent := s_utxos;
  transactions := s_txs;
  get_tx := sample_get_tx;
  get_utxo := sample_get_utxo;
  wallet_is_mine := sample_is_mine;
  derivation_of_spk w s :=
    if decide (s ∈ s_internal w) then Some (Internal, 0)
    else if decide (s ∈ s_external w) then Some (External, 0) else None;
  max_weight_to_satisfy _ _ := Some 107;
  explicit_script _ _ _ := None;
  peek_address _ := sample_address;
  latest_checkpoint := s_tip;
  wallet_sent_and_received _ _ := (0, 0);
  wallet_calculate_fee _ _ := None;
  full_txs w := (λ x, (wtx_txid x, wtx_tx x)) <$> s_txs w;
  lookahead _ := 0;
  wallet_derivation_index _ _ := None;
  spk_at_index _ _ _ := None;
  revealed_spks _ := [];
  reveal_next_address w k := (sample_reveal w (s_revealed w + 1), sample_address k (s_revealed w));
  next_unused_address w k := (w, sample_address k (s_revealed w));
  wallet_reveal_addresses_to w _ i := sample_reveal w i;
  wallet_cancel_tx w _ := w;
  wallet_apply_block w b h := (sample_connect w b h, true);
  apply_update_events := update;
  apply_unconfirmed_txs w _ := w;
  apply_evicted_txs w _ := w;
  wallet_persist w p :=
    match p with
    | true :: p => (w, p, false)
    | false :: p => (w, p, true)
    | [] => (w, [], true)
    end;
  wallet_sign w p :=
    {| unsigned_tx := unsigned_tx p;
       psbt_inputs := imap (sample_sign_input w (unsigned_tx p)) (psbt_inputs p) |};
  build_fee_bump _ _ := true;
  add_utxo _ _ _ := true;
  add_foreign_utxo _ _ _ _ _ _ := true;
  finish w b :=
    (w, inl {| unsigned_tx := sample_tx w b;
               psbt_inputs := replicate (length (input (sample_tx w b))) default_input |});
|}.

#[global] Instance sample_bdk : Bdk SampleWallet (list bool) unit unit :=
  sample_bdk_with (λ w _, (w, Some [])).

Lemma sample_bdk_with_spec {U Ev} (update : SampleWallet → U → SampleWallet * option (list Ev)) :
  BdkSpec SampleWallet (list bool) U Ev (BDK := sample_bdk_with update).
Proof.
  split; simpl.
  - intros w o u [_ ?%bool_decide_eq_true]%find_some. done.
  - intros w t x [_ ?%bool_decide_eq_true]%find_some. done.
  - intros w p. by rewrite length_imap.
  - done.
Qed.

#[global] Instance sample_bdk_spec : BdkSpec SampleWallet (list bool) unit unit.
Proof. apply sample_bdk_with_spec. Qed.

(** Spend every candidate. *)
#[global] Instance sample_selection : CoinSelection := {
  coin_select _ us _ _ _ := Some (local <$> us);
}.

#[global] Instance sample_selection_spec : CoinSelectionSpec.
Proof. split. simpl. intros; by simplify_eq. Qed.

#[global] Instance nat_order : IterOrder nat := canonical_order nat.
#[global] Instance bytes_order : IterOrder (list u8) := canonical_order (list u8).

(** ** Two wallets

    The first owns the change script and an output of a known transaction; the
    second owns a confirmed output of another one. *)

Definition script_a : Script := replicate 22 x61.
Definition script_b : Script := replicate 22 x62.
Definition script_change : Script := replicate 22 x63.
Definition script_other : Script := replicate 22 x64.

Definition genesis : CheckPoint :=
  {| cp_height := 0; cp_hash := [x00];
     cp_get := λ n, if n =? 0 then Some {| block_height := 0; block_hash := [x00] |} else None |}.
Definition tip_5 : CheckPoint :=
  {| cp_height := 5; cp_hash := [x05];
     cp_get := λ n, if n =? 5 then Some {| block_height := 5; block_hash := [x05] |} else None |}.

Definition anchor_1 : ConfirmationBlockTime :=
  {| block_id := {| block_height := 1; block_hash := [x01] |}; confirmation_time := 1000 |}.

Definition fund_a : Transaction :=
  {| version := 2; lock_time := 0; input := []; output := [mkTxOut 100000 script_a] |}.
Definition fund_b : Transaction :=
  {| version := 2; lock_time := 0; input := []; output := [mkTxOut 50000 script_b] |}.

(** An unconfirmed payment of the first wallet with a small fee and change. *)
Definition payment_tx : Transaction :=
  {| version := 2; lock_time := 0;
     input := [mkTxIn (mkOutPoint [x0a] 0) [] ENABLE_RBF_NO_LOCKTIME []];
     output := [mkTxOut 60000 script_other; mkTxOut 39800 script_change] |}.

(** An unconfirmed payment that spends an output of each wallet. *)
Definition joint_tx : Transaction :=
  {| version := 2; lock_time := 0;
     input := [mkTxIn (mkOutPoint [x0a] 0) [] ENABLE_RBF_NO_LOCKTIME [];
               mkTxIn (mkOutPoint [x0b] 0) [] ENABLE_RBF_NO_LOCKTIME []];
     output := [mkTxOut 100000 script_other; mkTxOut 49800 script_change] |}.

Definition wallet_a : SampleWallet := {|
  s_utxos := [mkLocalOutput (mkOutPoint [x0c] 1) (mkTxOut 39800 script_change) Internal false 0
                (Unconfirmed None (Some 7))];
  s_txs := [mkWalletTx [x0a] fund_a (Confirmed anchor_1 None);
            mkWalletTx [x0c] payment_tx (Unconfirmed None (Some 7));
            mkWalletTx [x0d] joint_tx (Unconfirmed None None)];
  s_internal := [script_change]; s_external := [script_a];
  s_tip := genesis; s_revealed := 1
|}.
Definition wallet_b : SampleWallet := {|
  s_utxos := [mkLocalOutput (mkOutPoint [x0b] 0) (mkTxOut 50000 script_b) External false 0
                (Confirmed anchor_1 None)];
  s_txs := [mkWalletTx [x0b] fund_b (Confirmed anchor_1 None)];
  s_internal := []; s_external := [script_b];
  s_tip := tip_5; s_revealed := 1
|}.
