(* ===== verification/AggExamples.v ===== *)
(** * The aggregate wallet's theorems on concrete wallets

    Each lemma applies one theorem to the wallets of [SampleWallet], where its
    hypotheses are checked by evaluation. *)

From Stdlib Require Import Strings.Byte.
From S2P Require Import Prelude Types Bdk AggTypes AggUtxo AggSigning AggRbf Aggregate AggBuild.
From S2P Require Import AggInvariant SampleWallet.
Import aggregate AggregateWallet build.

Definition sample_wallets : gmap nat SampleWallet := {[0%nat := wallet_a; 1%nat := wallet_b]}.
Definition sample_agg : AggregateWallet nat SampleWallet (list bool) :=
  new wallet_a [] 0%nat [(1%nat, wallet_b, [])].

Lemma sample_agg_wf : wf sample_agg.
Proof. split; vm_compute; eauto. Qed.

Definition sample_request : utxo.SelectionRequest (K := nat) (W := SampleWallet) := {|
  utxo.target_amount := 40000; utxo.available_utxos := s_utxos wallet_a ++ s_utxos wallet_b;
  utxo.fee_rate := 250; utxo.algorithm := BranchAndBound; utxo.drain_script := script_change;
  utxo.excluded_outpoints := [mkOutPoint [x0c] 1]; utxo.request_wallets := sample_wallets;
  utxo.recipient_script := Some script_other; utxo.include_payment_overhead := true
|}.

Lemma select_utxos_sound_witness :
  utxo.select_utxos_with_algorithm sample_request = Ok [mkOutPoint [x0b] 0] ∧
  utxo.target_amount sample_request ≤ utxo.total_available sample_request.
Proof.
  assert (utxo.select_utxos_with_algorithm sample_request = Ok [mkOutPoint [x0b] 0]) as Hs
    by (vm_compute; reflexivity).
  exact (conj Hs (proj1 (proj2 (utxo.select_utxos_sound sample_request _ Hs)))).
Defined.

Lemma prepare_outpoints_faithful_witness :
  match utxo.prepare_outpoints_for_psbt [mkOutPoint [x0b] 0; mkOutPoint [x0c] 1]
          sample_wallets 0%nat with
  | Ok infos => (info_outpoint <$> infos) = [mkOutPoint [x0b] 0; mkOutPoint [x0c] 1]
  | _ => False
  end.
Proof.
  pose proof (utxo.prepare_outpoints_faithful (W := SampleWallet)
    [mkOutPoint [x0b] 0; mkOutPoint [x0c] 1] sample_wallets 0%nat) as Ht.
  destruct (utxo.prepare_outpoints_for_psbt _ _ _) as [infos|e|] eqn:Hp.
  - exact (proj1 Ht).
  - vm_compute in Hp. discriminate Hp.
  - exact Ht.
Defined.

Definition joint_psbt : Psbt := {| unsigned_tx := joint_tx; psbt_inputs := [] |}.

Lemma sign_psbt_all_wallets_correct_witness :
  match signing.sign_psbt_all_wallets joint_psbt sample_wallets with
  | Ok tx => output tx = output joint_tx
  | _ => False
  end.
Proof.
  pose proof (signing.sign_psbt_all_wallets_correct (W := SampleWallet) joint_psbt
                sample_wallets) as Ht.
  destruct (signing.sign_psbt_all_wallets joint_psbt sample_wallets) as [tx|e|] eqn:Hs.
  - exact (proj1 Ht).
  - vm_compute in Hs. discriminate Hs.
  - exact Ht.
Defined.

Lemma populate_keeps_and_fills_witness :
  ∃ psbt', signing.populate_psbt_inputs_from_wallets joint_psbt sample_wallets = Ok psbt' ∧
    length (psbt_inputs psbt') = 2%nat.
Proof.
  destruct (signing.populate_keeps_and_fills (W := SampleWallet) joint_psbt sample_wallets
              ltac:(vm_compute; lia)) as (psbt' & Hp & _ & Hlen & _).
  exact (ex_intro _ psbt' (conj Hp Hlen)).
Defined.

Lemma replacement_pays_witness :
  ∃ tx', rbf.build_cross_wallet_rbf sample_wallets 0%nat joint_tx 1000 [] = Ok tx' ∧
    (previous_output <$> input tx') = [mkOutPoint [x0a] 0; mkOutPoint [x0b] 0].
Proof.
  eexists. split; [vm_compute; reflexivity|].
  edestruct (rbf.replacement_pays (W := SampleWallet) sample_wallets 0%nat joint_tx 1000 [])
    as (vs & es & i & out & change & _ & _ & Hprev & _);
    [lia|vm_compute; reflexivity|exact Hprev].
Defined.

Lemma additional_value_exact_witness :
  rbf.additional_input_value_needed sample_wallets 0%nat joint_tx 100000 = Ok 36346 ∧
  rbf.unsigned_replacement sample_wallets 0%nat joint_tx 100000 [] = Err InsufficientFunds.
Proof.
  assert (rbf.additional_input_value_needed sample_wallets 0%nat joint_tx 100000 = Ok 36346)
    as Hd by (vm_compute; reflexivity).
  destruct (rbf.additional_value_exact (W := SampleWallet) sample_wallets 0%nat joint_tx 100000
              36346 Hd) as [[Hz _]|[_ Hu]]; [discriminate Hz|exact (conj Hd Hu)].
Defined.

Lemma current_best_block_least_witness :
  current_best_block sample_agg = Ok ([x00], 0) ∧
  ∃ k w, wallets sample_agg !! k = Some w ∧ cp_height (latest_checkpoint w) ≤ 5.
Proof.
  destruct (current_best_block_least sample_agg sample_agg_wf) as (k & w & Hk & _ & Hle).
  split; [vm_compute; reflexivity|]. exists k, w. split; [exact Hk|].
  exact (proj2 (Hle 1%nat wallet_b eq_refl)).
Defined.

Lemma address_infos_exact_witness :
  address_infos_for sample_agg 1%nat External (2 ^ 31 - 2) 2
    = Ok [sample_address External (2 ^ 31 - 2); sample_address External (2 ^ 31 - 1)].
Proof.
  exact (address_infos_exact sample_agg 1%nat External (2 ^ 31 - 2) 2
           ltac:(vm_compute; done) ltac:(vm_compute; done)).
Defined.

Lemma balance_sum_witness :
  balance sample_agg = Ok (mkBalance 89800 0 0 0).
Proof.
  refine (balance_sum sample_agg _ _).
  - intros k w Hk%elem_of_map_to_list.
    change (map_to_list (wallets sample_agg)) with [(1%nat, wallet_b); (0%nat, wallet_a)] in Hk.
    rewrite !elem_of_cons in Hk.
    destruct Hk as [[= -> ->]|[[= -> ->]|[]%not_elem_of_nil]]; vm_compute; repeat split; discriminate.
  - vm_compute. repeat split; discriminate.
Defined.

Definition sample_block : Block := {| bh := [x03]; prev_blockhash := [x02]; txdata := [] |}.

(** The second wallet is sparse and already past the height, the first is not. *)
Lemma apply_block_connects_witness :
  ∃ a' txids, apply_block sample_block 3 sample_agg = (a', Ok txids) ∧
    wallets a' !! 1%nat = Some wallet_b ∧
    wallets a' !! 0%nat = Some (sample_connect wallet_a sample_block 3).
Proof.
  assert (is_ok (apply_block sample_block 3 sample_agg).2 = true) as Hok
    by (vm_compute; reflexivity).
  destruct (apply_block sample_block 3 sample_agg) as [a' [txids|e|]] eqn:Hb;
    [clear Hok|discriminate Hok..].
  exists a', txids. split; [done|].
  destruct (apply_block_connects sample_block 3 sample_agg a' txids Hb) as (Hc & _).
  split; [exact (proj1 (Hc 1%nat wallet_b eq_refl))|].
  destruct (Hc 0%nat wallet_a eq_refl) as (q & w1 & w2 & q' & Hq & Hw1 & Hw2 & Hw & _).
  rewrite Hw. assert (q = []) as -> by (injection Hq as <-; reflexivity).
  injection Hw1 as <-. injection Hw2 as <- <-. reflexivity.
Defined.

(** Calls with the persister map handed out: afterwards the one call that wants the
    primary's persister aborts, and persisting fails with an error. *)
Definition handed_out : list (op (K := nat) (W := SampleWallet) (P := list bool) (U := unit)) :=
  [OpNewAddressInfo; OpBuildRbf [x0d] 1000; OpRemoveWallet 0%nat; OpRemoveWallet 1%nat;
   OpWalletsMut (delete 1%nat); OpPersistersMut (delete 0%nat)].


(** The second wallet's persister fails, so the third wallet is taken out again. *)
Definition failing_agg : AggregateWallet nat SampleWallet (list bool) :=
  new wallet_a [] 0%nat [(1%nat, wallet_b, [true])].

Lemma add_wallet_and_persist_atomic_witness :
  match add_wallet_and_persist 2%nat wallet_b [] failing_agg with
  | (a', r) => r = Err PersistenceFailed ∧ dom (wallets a') = dom (wallets failing_agg)
  end.
Proof.
  pose proof (add_wallet_and_persist_atomic (U := unit) (Ev := unit) 2%nat wallet_b []
    failing_agg ltac:(split; vm_compute; eauto)) as Ht.
  destruct (add_wallet_and_persist 2%nat wallet_b [] failing_agg) as [a' [[]|e|]] eqn:Hr;
    [vm_compute in Hr; discriminate Hr| |destruct Ht].
  split; [|exact (proj1 (proj2 Ht))]. apply (f_equal snd) in Hr. simpl in Hr. rewrite <- Hr.
  vm_compute. reflexivity.
Defined.

Lemma payment_inputs_allowed_witness :
  ∃ a' psbt, build_psbt_with_cross_wallet_fallback script_other 40000 250 {[ [x0c] ]}
               BranchAndBound sample_agg = (a', Ok psbt) ∧
    ∃ b, builder_outpoints b ≠ [] ∧ ∀ o, o ∈ builder_outpoints b → txid o ∉ ({[ [x0c] ]} : gset Txid).
Proof.
  assert (is_ok (build_psbt_with_cross_wallet_fallback script_other 40000 250 {[ [x0c] ]}
              BranchAndBound sample_agg).2 = true)
    as Hok by (vm_compute; reflexivity).
  destruct (build_psbt_with_cross_wallet_fallback script_other 40000 250 {[ [x0c] ]}
              BranchAndBound sample_agg) as [a' [psbt|e|]] eqn:Hb;
    [clear Hok|discriminate Hok..].
  exists a', psbt. split; [done|].
  destruct (payment_inputs_allowed _ _ _ _ _ sample_agg a' psbt Hb)
    as (w & w' & b & _ & _ & _ & _ & _ & Hne & Hall).
  exists b. split; [exact Hne|]. intros o Ho. exact (proj1 (Hall o Ho)).
Defined.

Lemma funding_inputs_segwit_witness :
  ∃ a' tx, build_and_sign_funding_tx script_other 40000 250 0 sample_agg = (a', Ok tx) ∧
    ∃ b, ∀ o, o ∈ builder_outpoints b →
      ∃ u, u ∈ list_unspent sample_agg ∧ outpoint u = o ∧ is_segwit_output u = true.
Proof.
  assert (is_ok (build_and_sign_funding_tx script_other 40000 250 0 sample_agg).2 = true)
    as Hok by (vm_compute; reflexivity).
  destruct (build_and_sign_funding_tx script_other 40000 250 0 sample_agg) as [a' [tx|e|]] eqn:Hb;
    [clear Hok|discriminate Hok..].
  exists a', tx. split; [done|].
  destruct (funding_inputs_segwit _ _ _ _ sample_agg a' tx Hb)
    as (w & w' & b & psbt & a1 & _ & _ & _ & _ & _ & Hall).
  exists b. exact Hall.
Defined.

Lemma drain_spends_everything_witness :
  ∃ a' tx, build_and_sign_drain script_other 250 sample_agg = (a', Ok tx) ∧
    ∃ b, mkOutPoint [x0b] 0 ∈ builder_outpoints b.
Proof.
  assert (is_ok (build_and_sign_drain script_other 250 sample_agg).2 = true)
    as Hok by (vm_compute; reflexivity).
  destruct (build_and_sign_drain script_other 250 sample_agg) as [a' [tx|e|]] eqn:Hb;
    [clear Hok|discriminate Hok..].
  exists a', tx. split; [done|].
  destruct (drain_spends_everything _ _ sample_agg a' tx Hb)
    as (w & w' & b & psbt & Hw & _ & _ & _ & _ & Hall).
  vm_compute in Hw. injection Hw as <-. exists b.
  destruct (Hall (mkLocalOutput (mkOutPoint [x0b] 0) (mkTxOut 50000 script_b) External false 0
                (Confirmed anchor_1 None))) as [Hin|Hin].
  - vm_compute. left.
  - exfalso. vm_compute in Hin. inversion Hin as [|? ? ? Hnil]; inversion Hnil.
  - exact Hin.
Defined.

Lemma build_rbf_replaces_witness :
  ∃ tx, build_rbf [x0d] 1000 sample_agg = (sample_agg, Ok (tx, 200)) ∧
    mkOutPoint [x0a] 0 ∈ (previous_output <$> input tx).
Proof.
  assert (is_ok (build_rbf [x0d] 1000 sample_agg).2 = true)
    as Hok by (vm_compute; reflexivity).
  destruct (build_rbf [x0d] 1000 sample_agg) as [a' [[tx fee]|e|]] eqn:Hb;
    [clear Hok|discriminate Hok..].
  destruct (build_rbf_replaces [x0d] 1000 sample_agg a' tx fee Hb)
    as (original & Htx & _ & Hfee & _ & Hcross).
  destruct (Hcross ltac:(vm_compute; reflexivity)) as (-> & extra & i & out & change & Hprev & _).
  vm_compute in Htx. injection Htx as <-. vm_compute in Hfee. injection Hfee as <-.
  exists tx. split; [done|]. rewrite Hprev. left.
Defined.

Lemma best_wallet_is_richest_witness :
  ∃ a' tx, build_and_sign_tx_with_best_wallet script_other 40000 250 0 (λ _, true) sample_agg
             = (a', Ok tx) ∧
    ∃ key, spendable_of sample_agg 1%nat ≤ spendable_of sample_agg key.
Proof.
  assert (is_ok (build_and_sign_tx_with_best_wallet script_other 40000 250 0 (λ _, true) sample_agg).2 = true)
    as Hok by (vm_compute; reflexivity).
  destruct (build_and_sign_tx_with_best_wallet script_other 40000 250 0 (λ _, true) sample_agg) as [a' [tx|e|]] eqn:Hb;
    [clear Hok|discriminate Hok..].
  exists a', tx. split; [done|].
  destruct (best_wallet_is_richest _ _ _ _ _ sample_agg a' tx Hb)
    as (key & w & w' & b & psbt & a1 & _ & _ & Hmax & _).
  exists key. apply Hmax; [vm_compute; eauto|reflexivity].
Defined.

Lemma cpfp_package_rate_witness :
  (2500 - 250) * (640 + 4 * estimated_child_vbytes)
    < 1000 * 200 + cpfp_child_rate 640 (fee_rate_of 200 640) 2500 * (4 * estimated_child_vbytes).
Proof.
  refine (cpfp_package_rate 200 640 2500 _ _ _ _); [lia..|vm_compute; reflexivity].
Defined.
