(* ===== verification/Codec.v ===== *)
(** * Length-prefixed sequences

    The peer store and the event queue share one byte format: a [u16] count and then
    the elements, written with LDK's [Writeable] and read with [Readable].  The
    element and integer formats are LDK's; the count is [len() as u16], which keeps
    the low 16 bits. *)

From S2P Require Import Prelude KVStore.

Class Codec (A : Type) := {
  enc : A → bytes;
  dec : bytes → option (A * bytes);
}.
Class CodecSpec (A : Type) {C : Codec A} : Prop := {
  dec_enc : ∀ (a : A) rest, dec (enc a ++ rest) = Some (a, rest);
}.

(** [u16] as LDK writes it. *)
Class U16Codec := {
  u16_enc : Z → bytes;
  u16_dec : bytes → option (Z * bytes);
}.
Class U16CodecSpec {C : U16Codec} : Prop := {
  u16_dec_enc : ∀ n rest, is_u16 n → u16_dec (u16_enc n ++ rest) = Some (n, rest);
}.

#[global] Instance pair_codec {A B} `{Codec A, Codec B} : Codec (A * B) := {
  enc '(a, b) := enc a ++ enc b;
  dec bs := '(a, bs) ← dec bs; '(b, bs) ← dec bs; Some ((a, b), bs);
}.
#[global] Instance pair_codec_spec {A B} `{CodecSpec A, CodecSpec B} : CodecSpec (A * B).
Proof.
  split. intros [a b] rest. unfold enc, dec, pair_codec.
  rewrite <- app_assoc, dec_enc; simpl. by rewrite dec_enc.
Qed.

Section sequence.
Context {U16 : U16Codec} {A : Type} {C : Codec A}.

Definition write_seq (xs : list A) : bytes :=
  u16_enc (wrap16 (Z.of_nat (length xs))) ++ concat (enc <$> xs).

Fixpoint read_n (n : nat) (bs : bytes) : option (list A * bytes) :=
  match n with
  | O => Some ([], bs)
  | S n => '(x, bs) ← dec bs; '(xs, bs) ← read_n n bs; Some (x :: xs, bs)
  end.
Definition read_seq (bs : bytes) : option (list A * bytes) :=
  '(len, bs) ← u16_dec bs; read_n (Z.to_nat len) bs.

Context {U16S : U16CodecSpec} {CS : CodecSpec A}.

Lemma read_n_take n xs rest :
  (n ≤ length xs)%nat →
  read_n n (concat (enc <$> xs) ++ rest) = Some (take n xs, concat (enc <$> drop n xs) ++ rest).
Proof.
  revert xs. induction n as [|n IH]; intros xs Hn; [done|].
  destruct xs as [|x xs]; simpl in Hn; [lia|]. csimpl.
  rewrite <- app_assoc, dec_enc. cbn [mbind option_bind]. rewrite IH by lia. done.
Qed.

(** What is read back: as many elements as the low 16 bits of the count say. *)
Lemma read_seq_truncates xs :
  ∃ rest, read_seq (write_seq xs)
    = Some (take (Z.to_nat (wrap16 (Z.of_nat (length xs)))) xs, rest).
Proof.
  pose proof (Z.mod_pos_bound (Z.of_nat (length xs)) (2 ^ 16) ltac:(lia)) as Hpos.
  pose proof (Z.mod_le (Z.of_nat (length xs)) (2 ^ 16) ltac:(lia) ltac:(lia)) as Hle.
  unfold read_seq, write_seq. rewrite u16_dec_enc by (unfold is_u16, wrap16, u16_max; lia).
  cbn [mbind option_bind]. rewrite <- (app_nil_r (concat _)).
  rewrite read_n_take; [by eexists|]. unfold wrap16. lia.
Qed.

Lemma read_write_seq xs :
  Z.of_nat (length xs) ≤ u16_max → ∃ rest, read_seq (write_seq xs) = Some (xs, rest).
Proof.
  intros Hlen. destruct (read_seq_truncates xs) as [rest Hr]. exists rest.
  rewrite Hr, wrap16_small by (unfold is_u16; lia). rewrite take_ge by lia. done.
Qed.
End sequence.
