(* ===== verification/PeerStore.v ===== *)
(** * The peer store ([src/peer_store.rs])

    [add_peer] and [remove_peer] hold [mutation_lock] from the first change to the
    end of the write, so they run one after another; each is modelled as one
    command over the in-memory map and the key-value store. *)

From S2P Require Import Prelude Errors KVStore Codec Types.

Module PeerStore.
Section peer_store.
Context {S : Type} {KV : KVStore S} {SocketAddress : Type} `{EqDecision SocketAddress}.
Context {O : IterOrder PublicKey}.

Record PeerInfo := mkPeerInfo { node_id : PublicKey; address : SocketAddress }.

Context {U16 : U16Codec} {CK : Codec PublicKey} {CP : Codec PeerInfo}.

Record PeerStore := mkPeerStore { peers : gmap PublicKey PeerInfo; kv_store : S }.
Implicit Types (ps : PeerStore) (m : gmap PublicKey PeerInfo).

(** [io::PEER_INFO_PERSISTENCE_*] *)
Definition PEER_INFO_KEY : kv_key := (EmptyString, EmptyString, "peers"%string).

Definition new (kv : S) : PeerStore := {| peers := ∅; kv_store := kv |}.

(** [PeerStoreSerWrapper] and [PeerStoreDeserWrapper] *)
Definition encode_peers m : bytes := write_seq (iter m).
Definition decode_peers (bs : bytes) : option (gmap PublicKey PeerInfo) :=
  '(entries, _) ← read_seq bs;
  Some (foldl (λ m '(k, v), <[k := v]> m) ∅ entries).

(** [ReadableArgs] of the store. *)
Definition read (bs : bytes) (kv : S) : option PeerStore :=
  (λ m, {| peers := m; kv_store := kv |}) <$> decode_peers bs.

Definition set_peers m ps : PeerStore := {| peers := m; kv_store := kv_store ps |}.

Definition persist_peers (data : bytes) : cmd PeerStore Error unit := λ ps,
  let '(kv, r) := kv_write (kv_store ps) PEER_INFO_KEY data in
  ({| peers := peers ps; kv_store := kv |}, map_err (λ _, PersistenceFailed) r).

(** Run the write; if it fails, undo the change of the map. *)
Definition persist_or_restore (data : bytes)
    (undo : gmap PublicKey PeerInfo → gmap PublicKey PeerInfo) : cmd PeerStore Error unit := λ ps,
  match persist_peers data ps with
  | (ps, Err e) => (set_peers (undo (peers ps)) ps, Err e)
  | r => r
  end.

Definition add_peer (peer_info : PeerInfo) : cmd PeerStore Error unit :=
  with_state (λ ps,
    let node_id := node_id peer_info in
    let previous_peer := peers ps !! node_id in
    if decide (address <$> previous_peer = Some (address peer_info)) then mret tt
    else
      _ ← modify (set_peers (<[node_id := peer_info]> (peers ps)));
      with_state (λ ps,
        persist_or_restore (encode_peers (peers ps)) (λ m,
          match previous_peer with
          | Some previous_peer => <[node_id := previous_peer]> m
          | None => delete node_id m
          end))).

Definition remove_peer (node_id : PublicKey) : cmd PeerStore Error unit :=
  with_state (λ ps,
    let removed_peer := peers ps !! node_id in
    _ ← modify (set_peers (delete node_id (peers ps)));
    with_state (λ ps,
      persist_or_restore (encode_peers (peers ps)) (λ m,
        match removed_peer with
        | Some peer_info => <[node_id := peer_info]> m
        | None => m
        end))).

Definition list_peers ps : list PeerInfo := values (peers ps).
Definition get_peer ps (node_id : PublicKey) : option PeerInfo := peers ps !! node_id.

(** The calls that change the store, and their sequential execution. *)
Inductive op := OpAdd (info : PeerInfo) | OpRemove (node_id : PublicKey).
Definition exec (c : op) : cmd PeerStore Error unit :=
  match c with OpAdd info => add_peer info | OpRemove i => remove_peer i end.
Fixpoint run (cs : list op) ps : PeerStore * list (outcome Error unit) :=
  match cs with
  | [] => (ps, [])
  | c :: cs => let '(ps, r) := exec c ps in let '(ps, rs) := run cs ps in (ps, r :: rs)
  end.

(** ** Properties *)

Section durability.
Context {U16S : U16CodecSpec} {CKS : CodecSpec PublicKey} {CPS : CodecSpec PeerInfo}.
Context {KSPEC : KVStoreSpec S}.

(** The map a restart builds. *)
Definition restart_peers (kv : S) : option (gmap PublicKey PeerInfo) :=
  match kv_view kv !! PEER_INFO_KEY with
  | Some bs => decode_peers bs
  | None => Some ∅
  end.

Lemma decode_encode_peers m :
  Z.of_nat (size m) ≤ u16_max → decode_peers (encode_peers m) = Some m.
Proof.
  intros Hs. unfold decode_peers, encode_peers.
  destruct (read_write_seq (iter m)) as [rest ->]; [by rewrite length_iter|].
  cbn [mbind option_bind]. f_equal. apply foldl_insert_iter.
Qed.

Lemma persist_or_restore_cases data undo ps :
  (∃ kv, persist_or_restore data undo ps = ({| peers := peers ps; kv_store := kv |}, Ok tt) ∧
     kv_view kv = <[PEER_INFO_KEY := data]> (kv_view (kv_store ps))) ∨
  (∃ kv, persist_or_restore data undo ps
           = ({| peers := undo (peers ps); kv_store := kv |}, Err PersistenceFailed) ∧
     kv_view kv = kv_view (kv_store ps)).
Proof.
  unfold persist_or_restore, persist_peers.
  destruct (kv_write_cases (kv_store ps) PEER_INFO_KEY data)
    as [(kv & -> & Hv)|(kv & e & -> & Hv)]; [left|right]; by exists kv.
Qed.

(** The effect of a call that succeeds. *)
Definition spec (c : op) m : gmap PublicKey PeerInfo :=
  match c with
  | OpAdd info =>
      if decide (address <$> m !! node_id info = Some (address info)) then m
      else <[node_id info := info]> m
  | OpRemove i => delete i m
  end.

Lemma spec_size c m : (size (spec c m) ≤ size m + 1)%nat.
Proof.
  destruct c as [info|i]; simpl.
  - case_decide; [lia|]. destruct (m !! node_id info) eqn:Hm.
    + rewrite map_size_insert_Some by eauto. lia.
    + rewrite map_size_insert_None by done. lia.
  - destruct (m !! i) eqn:Hm.
    + rewrite map_size_delete_Some by eauto. lia.
    + rewrite delete_id by done. lia.
Qed.

(** One call: it takes effect and is durable, or it fails and changed nothing. *)
Lemma exec_cases c ps :
  Z.of_nat (size (peers ps)) < u16_max → restart_peers (kv_store ps) = Some (peers ps) →
  let '(ps', r) := exec c ps in
  restart_peers (kv_store ps') = Some (peers ps') ∧
  ((r = Ok tt ∧ peers ps' = spec c (peers ps)) ∨
   (r = Err PersistenceFailed ∧ peers ps' = peers ps)).
Proof.
  intros Hsize Hre. pose proof (spec_size c (peers ps)) as Hss.
  destruct c as [info|i]; simpl in *.
  - unfold add_peer, with_state. case_decide as Hd; [by split; [|left]|].
    unfold mbind, cmd_bind, modify, with_state.
    match goal with |- context [persist_or_restore ?d ?u ?s] =>
      destruct (persist_or_restore_cases d u s) as [(kv & -> & Hv)|(kv & -> & Hv)] end;
      unfold restart_peers in *; simpl; rewrite Hv.
    + rewrite lookup_insert_eq. split; [|by left]. apply decode_encode_peers. lia.
    + assert (match peers ps !! node_id info with
              | Some previous_peer => <[node_id info := previous_peer]>
                                        (<[node_id info := info]> (peers ps))
              | None => delete (node_id info) (<[node_id info := info]> (peers ps))
              end = peers ps) as ->.
      { destruct (peers ps !! node_id info) eqn:Hp.
        - by rewrite insert_insert_eq, insert_id.
        - by rewrite delete_insert_id. }
      split; [done|by right].
  - unfold remove_peer, with_state, mbind, cmd_bind, modify.
    match goal with |- context [persist_or_restore ?d ?u ?s] =>
      destruct (persist_or_restore_cases d u s) as [(kv & -> & Hv)|(kv & -> & Hv)] end;
      unfold restart_peers in *; simpl; rewrite Hv.
    + rewrite lookup_insert_eq. split; [|by left]. apply decode_encode_peers. lia.
    + assert (match peers ps !! i with
              | Some peer_info => <[i := peer_info]> (delete i (peers ps))
              | None => delete i (peers ps)
              end = peers ps) as ->.
      { destruct (peers ps !! i) eqn:Hp.
        - by rewrite insert_delete_id.
        - by rewrite delete_id. }
      split; [done|by right].
Qed.

(** The contents after the calls that succeeded. *)
Fixpoint spec_run (cs : list op) (rs : list (outcome Error unit)) m : gmap PublicKey PeerInfo :=
  match cs, rs with
  | c :: cs, Ok _ :: rs => spec_run cs rs (spec c m)
  | _ :: cs, _ :: rs => spec_run cs rs m
  | _, _ => m
  end.

(** Whatever calls are made and whichever of their writes fail, the peers on disk
    are the peers in memory, a call that fails has changed neither, and the
    contents are those of a plain map to which the successful calls were applied
    (as long as the count fits its 16-bit field). *)
Theorem peers_durable cs ps :
  restart_peers (kv_store ps) = Some (peers ps) →
  Z.of_nat (size (peers ps) + length cs) ≤ u16_max →
  let '(ps', rs) := run cs ps in
  restart_peers (kv_store ps') = Some (peers ps') ∧
  peers ps' = spec_run cs rs (peers ps) ∧
  Forall (λ r, r = Ok tt ∨ r = Err PersistenceFailed) rs.
Proof.
  revert ps. induction cs as [|c cs IH]; intros ps Hre Hsize; simpl in *; [done|].
  pose proof (exec_cases c ps ltac:(lia) Hre) as Hc. pose proof (spec_size c (peers ps)) as Hss.
  destruct (exec c ps) as [ps1 r]. destruct Hc as [Hre1 Hr].
  specialize (IH ps1 Hre1). destruct Hr as [[-> Hp]|[-> Hp]]; rewrite Hp in *;
    (destruct (run cs ps1) as [ps2 rs]; destruct IH as (? & ? & ?); [lia|]; naive_solver).
Qed.

End durability.

(** ** Channel counterparties *)

Section channel_peers.
(** The first announced address of a node, from the network graph. *)
Context (announced_address : PublicKey → option SocketAddress).

(** The counterparties to add: each once, not excluded, not yet stored and
    announced. *)
Fixpoint missing_peers ps (excluded seen : gset PublicKey) (ids : list PublicKey) :
    list PeerInfo :=
  match ids with
  | [] => []
  | i :: ids =>
      let rest := missing_peers ps excluded ({[i]} ∪ seen) ids in
      if decide (i ∈ seen) then rest
      else if decide (i ∈ excluded) then rest
      else if decide (is_Some (get_peer ps i)) then rest
      else match announced_address i with
           | Some address => {| node_id := i; address := address |} :: rest
           | None => rest
           end
  end.

(** A failure is logged and the loop goes on. *)
Fixpoint add_missing (infos : list PeerInfo) ps : PeerStore :=
  match infos with
  | [] => ps
  | info :: infos =>
      if decide (is_Some (get_peer ps (node_id info))) then add_missing infos ps
      else add_missing infos (add_peer info ps).1
  end.

Definition persist_missing_channel_peers_excluding (ids : list PublicKey)
    (excluded : gset PublicKey) ps : PeerStore :=
  add_missing (missing_peers ps excluded ∅ ids) ps.
Definition persist_missing_channel_peers (ids : list PublicKey) ps : PeerStore :=
  persist_missing_channel_peers_excluding ids ∅ ps.

Lemma elem_of_missing_peers ps excluded seen ids info :
  info ∈ missing_peers ps excluded seen ids →
  node_id info ∈ ids ∧ node_id info ∉ seen ∧ node_id info ∉ excluded ∧
  peers ps !! node_id info = None ∧ announced_address (node_id info) = Some (address info).
Proof.
  revert seen. induction ids as [|i ids IH]; intros seen; simpl; [set_solver|].
  repeat case_decide; [intros Hin%IH; set_solver..|].
  destruct (announced_address i) as [ad|] eqn:Had; [|intros Hin%IH; set_solver].
  intros [->|Hin%IH]%elem_of_cons; [simpl|set_solver].
  split_and!; [set_solver|done|done| |done]. by apply eq_None_not_Some.
Qed.

Lemma missing_peers_complete ps excluded seen ids i ad :
  i ∈ ids → i ∉ seen → i ∉ excluded → peers ps !! i = None → announced_address i = Some ad →
  {| node_id := i; address := ad |} ∈ missing_peers ps excluded seen ids.
Proof.
  intros Hin Hseen Hex Hp Had. revert seen Hin Hseen.
  induction ids as [|j ids IH]; intros seen Hin Hseen; simpl; [set_solver|].
  destruct (decide (i = j)) as [->|Hne].
  - rewrite !decide_False, Had; [set_solver|unfold get_peer; by rewrite Hp; intros [? ?]|done..].
  - assert ({| node_id := i; address := ad |} ∈ missing_peers ps excluded ({[j]} ∪ seen) ids)
      by (apply IH; set_solver).
    repeat case_decide; [done..|]. destruct (announced_address j); set_solver.
Qed.

Context {KSPEC : KVStoreSpec S}.

Lemma add_new_peer info ps :
  peers ps !! node_id info = None →
  let '(ps', r) := add_peer info ps in
  (r = Ok tt ∧ peers ps' = <[node_id info := info]> (peers ps)) ∨
  (r ≠ Ok tt ∧ (∃ k v, (kv_write (kv_store ps) k v).2 ≠ Ok tt) ∧ peers ps' = peers ps).
Proof.
  intros Hn. unfold add_peer, with_state. rewrite Hn, decide_False by done.
  unfold mbind, cmd_bind, modify, persist_or_restore, persist_peers. simpl.
  destruct (kv_write_cases (kv_store ps) PEER_INFO_KEY
    (encode_peers (<[node_id info:=info]> (peers ps)))) as [(kv & -> & _)|(kv & e & Hw & _)];
    [by left|].
  rewrite Hw. simpl. right. split_and!; [done| |by rewrite delete_insert_id].
  eexists _, _. by rewrite Hw.
Qed.

Lemma add_missing_keeps infos ps i info :
  peers ps !! i = Some info → peers (add_missing infos ps) !! i = Some info.
Proof.
  revert ps. induction infos as [|x infos IH]; intros ps Hi; simpl; [done|].
  case_decide as Hd; [by apply IH|]. apply IH. apply eq_None_not_Some in Hd.
  pose proof (add_new_peer x ps Hd) as Ha. destruct (add_peer x ps) as [ps' r]; simpl.
  unfold get_peer in Hd. destruct Ha as [[_ ->]|(_ & _ & ->)]; [|done].
  rewrite lookup_insert_ne; [done|]. congruence.
Qed.

Lemma add_missing_new infos ps i info :
  peers ps !! i = None → peers (add_missing infos ps) !! i = Some info →
  info ∈ infos ∧ node_id info = i.
Proof.
  revert ps. induction infos as [|x infos IH]; intros ps Hi Hs; simpl in *; [congruence|].
  case_decide as Hd; [destruct (IH ps Hi Hs); set_solver|]. apply eq_None_not_Some in Hd.
  pose proof (add_new_peer x ps Hd) as Ha. destruct (add_peer x ps) as [ps' r]; simpl in Hs.
  destruct Ha as [[_ Hp]|(_ & _ & Hp)].
  - destruct (decide (i = node_id x)) as [->|Hne].
    + rewrite (add_missing_keeps infos ps' (node_id x) x) in Hs;
        [simplify_eq; set_solver|by rewrite Hp, lookup_insert_eq].
    + destruct (IH ps'); [by rewrite Hp, lookup_insert_ne|done|set_solver].
  - destruct (IH ps'); [by rewrite Hp|done|set_solver].
Qed.

Lemma add_missing_all infos ps info :
  (∀ s k v, (kv_write s k v).2 = Ok tt) → info ∈ infos →
  is_Some (peers (add_missing infos ps) !! node_id info).
Proof.
  intros Hok. revert ps. induction infos as [|x infos IH]; intros ps Hin; simpl; [set_solver|].
  apply elem_of_cons in Hin as [->|Hin]; [|case_decide; by apply IH].
  case_decide as Hd; [destruct Hd as [y Hy]; exists y; by apply add_missing_keeps|].
  apply eq_None_not_Some in Hd. pose proof (add_new_peer x ps Hd) as Ha.
  destruct (add_peer x ps) as [ps' r]; simpl.
  destruct Ha as [[_ Hp]|(_ & (k & v & Hw) & _)]; [|by rewrite Hok in Hw].
  exists x. apply add_missing_keeps. by rewrite Hp, lookup_insert_eq.
Qed.

(** Storing channel counterparties never replaces a known peer, adds only listed,
    not excluded counterparties at the address they announced, and, if no write
    fails, leaves none of the announced ones out. *)
Theorem channel_peers_added ids excluded ps :
  let ps' := persist_missing_channel_peers_excluding ids excluded ps in
  (∀ i info, peers ps !! i = Some info → peers ps' !! i = Some info) ∧
  (∀ i info, peers ps !! i = None → peers ps' !! i = Some info →
     i ∈ ids ∧ i ∉ excluded ∧ node_id info = i ∧ announced_address i = Some (address info)) ∧
  ((∀ s k v, (kv_write s k v).2 = Ok tt) → ∀ i ad,
     i ∈ ids → i ∉ excluded → announced_address i = Some ad → is_Some (peers ps' !! i)).
Proof.
  unfold persist_missing_channel_peers_excluding. split_and!.
  - intros i info. apply add_missing_keeps.
  - intros i info Hn [Hin <-]%add_missing_new; [|done].
    apply elem_of_missing_peers in Hin as (? & _ & ? & _ & ?). done.
  - intros Hok i ad Hi Hex Had. destruct (peers ps !! i) as [info|] eqn:Hp.
    + exists info. by apply add_missing_keeps.
    + apply (add_missing_all _ _ {| node_id := i; address := ad |} Hok).
      apply missing_peers_complete; [done|set_solver|done..].
Qed.
End channel_peers.
End peer_store.
Arguments PeerStore S SocketAddress : clear implicits.
Arguments PeerInfo SocketAddress : clear implicits.
End PeerStore.
