(* ===== verification/EventQueue.v ===== *)
(** * The event queue ([EventQueue] of [src/event.rs])

    Events are appended by the node's tasks and taken off by the user.  Each
    changing call takes three separate steps: it changes and encodes the queue under
    the queue's lock, hands the bytes to the key-value store after releasing it, and
    wakes a waiting task.  The steps of different tasks can interleave; the
    definitions below are the steps, the calls as their composition, and the
    interleaving relation. *)

From S2P Require Import Prelude Errors KVStore Codec.

Module EventQueue.
Section event_queue.
Context {S : Type} {KV : KVStore S} {Event : Type} {U16 : U16Codec} {CE : Codec Event}.

(** A task waiting in [next_event_async]. *)
Abbreviation task := nat.

Record EventQueue := mkEventQueue {
  queue : list Event;
  waker : option task;
  kv_store : S;
  (** The tasks whose wakers were called so far. *)
  woken : list task;
}.
Implicit Types (q : EventQueue).

(** [io::EVENT_QUEUE_PERSISTENCE_*] *)
Definition EVENT_QUEUE_KEY : kv_key := (EmptyString, EmptyString, "events"%string).

Definition new (kv : S) : EventQueue :=
  {| queue := []; waker := None; kv_store := kv; woken := [] |}.

(** [EventQueueSerWrapper] and [EventQueueDeserWrapper] *)
Definition encode_queue (es : list Event) : bytes := write_seq es.
Definition decode_queue (bs : bytes) : option (list Event) := fst <$> read_seq bs.

(** [ReadableArgs] of the queue. *)
Definition read (bs : bytes) (kv : S) : option EventQueue :=
  (λ es, {| queue := es; waker := None; kv_store := kv; woken := [] |}) <$> decode_queue bs.

(** ** The steps *)

Definition set_queue (es : list Event) q : EventQueue :=
  {| queue := es; waker := waker q; kv_store := kv_store q; woken := woken q |}.

(** [push_back] and [pop_front] with the encoding, under the lock. *)
Definition push_event (event : Event) : cmd EventQueue Error bytes := λ q,
  let es := queue q ++ [event] in (set_queue es q, Ok (encode_queue es)).
Definition pop_event : cmd EventQueue Error bytes := λ q,
  let es := tail (queue q) in (set_queue es q, Ok (encode_queue es)).

Definition persist_queue (encoded_queue : bytes) : cmd EventQueue Error unit := λ q,
  let '(kv, r) := kv_write (kv_store q) EVENT_QUEUE_KEY encoded_queue in
  ({| queue := queue q; waker := waker q; kv_store := kv; woken := woken q |},
   map_err (λ _, PersistenceFailed) r).

(** [if let Some(waker) = self.waker.lock().unwrap().take() { waker.wake(); }] *)
Definition wake : cmd EventQueue Error unit :=
  modify (λ q,
    {| queue := queue q; waker := None; kv_store := kv_store q;
       woken := match waker q with Some t => t :: woken q | None => woken q end |}).

Definition add_event (event : Event) : cmd EventQueue Error unit :=
  data ← push_event event; _ ← persist_queue data; wake.
Definition event_handled : cmd EventQueue Error unit :=
  data ← pop_event; _ ← persist_queue data; wake.

Definition next_event q : option Event := head (queue q).

(** [EventFuture::poll] by task [t]; [None] is [Pending]. *)
Definition poll (t : task) q : EventQueue * option Event :=
  match queue q with
  | event :: _ => (q, Some event)
  | [] => ({| queue := queue q; waker := Some t; kv_store := kv_store q; woken := woken q |}, None)
  end.

(** ** Interleavings

    [in_flight] are the calls under way: a call that still has to write the bytes it
    encoded, or has written and still has to wake. *)
Inductive progress := Writing (data : bytes) | Waking.

Record state := mkState { eq : EventQueue; in_flight : gmap task progress }.

Inductive step : state → state → Prop :=
| StepPush t event q q' fl data :
    fl !! t = None → push_event event q = (q', Ok data) →
    step (mkState q fl) (mkState q' (<[t := Writing data]> fl))
| StepPop t q q' fl data :
    fl !! t = None → pop_event q = (q', Ok data) →
    step (mkState q fl) (mkState q' (<[t := Writing data]> fl))
| StepWrite t q q' fl data :
    fl !! t = Some (Writing data) → persist_queue data q = (q', Ok tt) →
    step (mkState q fl) (mkState q' (<[t := Waking]> fl))
| StepWriteFails t q q' fl data e :
    fl !! t = Some (Writing data) → persist_queue data q = (q', Err e) →
    step (mkState q fl) (mkState q' (delete t fl))
| StepWake t q q' fl :
    fl !! t = Some Waking → wake q = (q', Ok tt) →
    step (mkState q fl) (mkState q' (delete t fl))
| StepPoll t q fl :
    step (mkState q fl) (mkState (poll t q).1 fl).

Abbreviation steps := (rtc step).

(** ** Sequential calls *)

Inductive call := CallAdd (event : Event) | CallHandled.
Definition exec (c : call) : cmd EventQueue Error unit :=
  match c with CallAdd event => add_event event | CallHandled => event_handled end.
Fixpoint run (cs : list call) q : EventQueue * list (outcome Error unit) :=
  match cs with
  | [] => (q, [])
  | c :: cs => let '(q, r) := exec c q in let '(q, rs) := run cs q in (q, r :: rs)
  end.

(** The queue as a value: appended at the back, taken off at the front. *)
Definition spec (c : call) (es : list Event) : list Event :=
  match c with CallAdd event => es ++ [event] | CallHandled => tail es end.

(** What a restart loads. *)
Definition restart_queue (kv : S) : option (list Event) :=
  match kv_view kv !! EVENT_QUEUE_KEY with
  | Some bs => decode_queue bs
  | None => Some []
  end.

Context {U16S : U16CodecSpec} {CES : CodecSpec Event} {KSPEC : KVStoreSpec S}.

Lemma decode_encode_queue es :
  Z.of_nat (length es) ≤ u16_max → decode_queue (encode_queue es) = Some es.
Proof.
  intros Hlen. unfold decode_queue, encode_queue.
  by destruct (read_write_seq es Hlen) as [rest ->].
Qed.

Lemma persist_queue_cases data q :
  (∃ kv, persist_queue data q
      = ({| queue := queue q; waker := waker q; kv_store := kv; woken := woken q |}, Ok tt) ∧
      kv_view kv = <[EVENT_QUEUE_KEY := data]> (kv_view (kv_store q))) ∨
  (∃ kv, persist_queue data q
      = ({| queue := queue q; waker := waker q; kv_store := kv; woken := woken q |},
         Err PersistenceFailed) ∧ kv_view kv = kv_view (kv_store q)).
Proof.
  unfold persist_queue.
  destruct (kv_write_cases (kv_store q) EVENT_QUEUE_KEY data)
    as [(kv & -> & Hv)|(kv & e & -> & Hv)]; [left|right]; by exists kv.
Qed.

Lemma exec_eq c q :
  exec c q =
  (persist_queue (encode_queue (spec c (queue q))) ≫= λ _, wake)
    (set_queue (spec c (queue q)) q).
Proof. by destruct c. Qed.

Lemma exec_call c q :
  let '(q', r) := exec c q in
  queue q' = spec c (queue q) ∧
  ((r = Ok tt ∧ kv_view (kv_store q')
      = <[EVENT_QUEUE_KEY := encode_queue (queue q')]> (kv_view (kv_store q)) ∧
    waker q' = None ∧ (∀ t, waker q = Some t → t ∈ woken q')) ∨
   (r = Err PersistenceFailed ∧ kv_view (kv_store q') = kv_view (kv_store q))).
Proof.
  rewrite exec_eq. unfold mbind, cmd_bind.
  destruct (persist_queue_cases (encode_queue (spec c (queue q)))
    (set_queue (spec c (queue q)) q)) as [(kv & -> & Hv)|(kv & -> & Hv)]; simpl;
    (split; [done|]); [left|right]; split_and!; try done.
  intros t ->. apply list_elem_of_here.
Qed.

Lemma run_queue cs q : queue (run cs q).1 = foldl (λ es c, spec c es) (queue q) cs.
Proof.
  revert q. induction cs as [|c cs IH]; intros q; simpl; [done|].
  pose proof (exec_call c q) as Hc. destruct (exec c q) as [q1 r].
  destruct Hc as [Hq _]. specialize (IH q1). destruct (run cs q1) as [q2 rs]. simpl in *.
  by rewrite IH, Hq.
Qed.

(** Called one at a time, the queue is first-in first-out whatever fails, every
    call that reports success leaves exactly the queue in memory on disk, also
    after earlier failures, and wakes the task that was waiting; a failed call
    leaves the disk as it was. *)
Theorem calls_durable cs c q :
  Z.of_nat (length (queue q) + length cs) < u16_max →
  let '(q1, rs) := run cs q in
  let '(q2, r) := exec c q1 in
  queue q2 = foldl (λ es c, spec c es) (queue q) (cs ++ [c]) ∧
  ((r = Ok tt ∧ restart_queue (kv_store q2) = Some (queue q2) ∧
    ∀ t, waker q1 = Some t → t ∈ woken q2) ∨
   (r = Err PersistenceFailed ∧ restart_queue (kv_store q2) = restart_queue (kv_store q1))).
Proof.
  intros Hlen. pose proof (run_queue cs q) as Hq1.
  assert (∀ cs' es, (length (foldl (λ es c, spec c es) es cs') ≤ length es + length cs')%nat)
    as Hbound.
  { intros cs'. induction cs' as [|c' cs' IH]; intros es; simpl; [lia|].
    specialize (IH (spec c' es)).
    assert (length (spec c' es) ≤ length es + 1)%nat; [|lia].
    destruct c'; simpl; [rewrite length_app; simpl; lia|destruct es; simpl; lia]. }
  specialize (Hbound (cs ++ [c]) (queue q)). rewrite length_app in Hbound. simpl in Hbound.
  destruct (run cs q) as [q1 rs]. simpl in Hq1.
  pose proof (exec_call c q1) as Hc. destruct (exec c q1) as [q2 r].
  destruct Hc as [Hq2 Hc]. rewrite foldl_app in Hbound |- *. simpl in *.
  rewrite Hq1 in Hq2. split; [done|]. unfold restart_queue.
  destruct Hc as [(-> & -> & _ & ?)|(-> & ->)]; [left|by right].
  split_and!; [done| |done]. rewrite lookup_insert_eq. apply decode_encode_queue.
  rewrite Hq2. lia.
Qed.

Lemma set_queue_queue es q : queue (set_queue es q) = es.
Proof. done. Qed.

(** C35. The queue is not protected against interleaved calls.  If one task takes the
    last event off while another adds one, and the encoded queues reach the store
    in the opposite order, then both calls report success, no call is under way
    any more, and yet the stored queue is empty: a restart loses the event that
    was added. *)
Theorem interleaved_writes_lose_event (a b : Event) q :
  queue q = [a] →
  (∀ s k v, (kv_write s k v).2 = Ok tt) →
  ∃ q', steps (mkState q ∅) (mkState q' ∅) ∧
    queue q' = [b] ∧ restart_queue (kv_store q') = Some [].
Proof.
  intros Hq Hok. set (s0 := set_queue [] q). set (s1 := set_queue [b] q).
  assert (∀ data q, ∃ kv, persist_queue data q
    = ({| queue := queue q; waker := waker q; kv_store := kv; woken := woken q |}, Ok tt) ∧
    kv_view kv = <[EVENT_QUEUE_KEY := data]> (kv_view (kv_store q))) as Hwrite.
  { intros data q0. destruct (persist_queue_cases data q0) as [Hs|(kv & He & _)]; [done|].
    unfold persist_queue in He. specialize (Hok (kv_store q0) EVENT_QUEUE_KEY data).
    destruct (kv_write _ _ _) as [? []]; simplify_eq/=. }
  destruct (Hwrite (encode_queue [b]) s1) as (kv2 & Hw2 & Hv2).
  set (s2 := {| queue := queue s1; waker := waker s1; kv_store := kv2; woken := woken s1 |}) in *.
  destruct (Hwrite (encode_queue []) s2) as (kv3 & Hw3 & Hv3).
  set (s3 := {| queue := queue s2; waker := waker s2; kv_store := kv3; woken := woken s2 |}) in *.
  exists (wake (wake s3).1).1. split_and!; [|done|].
  2: { unfold restart_queue. simpl. rewrite Hv3, lookup_insert_eq.
       apply (decode_encode_queue []). unfold u16_max. simpl. lia. }
  eapply rtc_l; [apply (StepPop 0%nat _ s0 _ (encode_queue [])); [done|]|].
  { unfold pop_event. by rewrite Hq. }
  eapply rtc_l; [apply (StepPush 1%nat b _ s1 _ (encode_queue [b])); done|].
  eapply rtc_l; [apply (StepWrite 1%nat _ s2 _ (encode_queue [b])); done|].
  eapply rtc_l; [apply (StepWrite 0%nat _ s3 _ (encode_queue [])); done|].
  eapply rtc_l; [apply (StepWake 0%nat _ (wake s3).1); done|].
  eapply rtc_l; [apply (StepWake 1%nat _ (wake (wake s3).1).1); done|]. done.
Qed.

(** A step in which no task but [t] registers to be woken. *)
Definition step_for (t : task) (s s' : state) : Prop :=
  step s s' ∧ (waker (eq s') = Some t ∨ waker (eq s') = None ∨ waker (eq s') = waker (eq s)).

Lemma step_for_waits t s s' :
  (∀ s k v, (kv_write s k v).2 = Ok tt) → step_for t s s' →
  (t ∈ woken (eq s) ∨ waker (eq s) = Some t ∧ (queue (eq s) = [] ∨ in_flight s ≠ ∅)) →
  (t ∈ woken (eq s') ∨ waker (eq s') = Some t ∧ (queue (eq s') = [] ∨ in_flight s' ≠ ∅)).
Proof.
  intros Hok [Hstep Hw]. destruct Hstep as
    [u event q q' fl data Hfl Hp|u q q' fl data Hfl Hp|u q q' fl data Hfl Hp
    |u q q' fl data e Hfl Hp|u q q' fl Hfl Hp|u q fl]; simpl in *.
  - injection Hp as <- _. simpl. intros [?|[? _]]; [by left|]. right. split; [done|].
    right. apply insert_non_empty.
  - injection Hp as <- _. simpl. intros [?|[? _]]; [by left|]. right. split; [done|].
    right. apply insert_non_empty.
  - unfold persist_queue in Hp. destruct (kv_write _ _ _) as [kv r].
    injection Hp as <- _. simpl. intros [?|[? _]]; [by left|]. right. split; [done|].
    right. apply insert_non_empty.
  - unfold persist_queue in Hp. specialize (Hok (kv_store q) EVENT_QUEUE_KEY data).
    destruct (kv_write _ _ _) as [kv r]. simpl in Hok. by subst r.
  - injection Hp as <-. simpl. intros [?|[-> _]]; left.
    + destruct (waker q); set_solver.
    + set_solver.
  - unfold poll in *. destruct (queue q) as [|event es] eqn:Hq; simpl in *.
    + intros [?|[Ht _]]; [by left|]. right. split; [|by left].
      rewrite Ht in Hw. by destruct Hw as [|[]].
    + by rewrite Hq.
Qed.

(** No lost wake-up for a single waiter: once a task has found the queue empty,
    then whatever calls of other tasks interleave, if events are waiting and no
    call is under way, its waker has been called. *)
Theorem waiter_is_woken t q fl s :
  (∀ s k v, (kv_write s k v).2 = Ok tt) →
  queue q = [] →
  rtc (step_for t) (mkState (poll t q).1 fl) s →
  in_flight s = ∅ → queue (eq s) ≠ [] → t ∈ woken (eq s).
Proof.
  intros Hok Hq Hsteps Hfl Hne.
  assert (t ∈ woken (eq s) ∨ waker (eq s) = Some t ∧ (queue (eq s) = [] ∨ in_flight s ≠ ∅))
    as Hinv; [|naive_solver].
  remember (mkState (poll t q).1 fl) as s0 eqn:Hs0.
  assert (t ∈ woken (eq s0) ∨ waker (eq s0) = Some t ∧ (queue (eq s0) = [] ∨ in_flight s0 ≠ ∅))
    as Hinit.
  { subst s0. unfold poll. rewrite Hq. simpl. auto. }
  clear Hs0 Hfl Hne. induction Hsteps; [done|]. eauto using step_for_waits.
Qed.
End event_queue.
Arguments EventQueue S Event : clear implicits.
End EventQueue.
