(* ===== verification/StoreExamples.v ===== *)
(** * Concrete stores and formats

    A key-value store whose mutations always succeed and byte formats that read
    back what they write.  They show that the assumptions of the peer store's and the
    event queue's theorems can be met, and instantiate those theorems. *)

From S2P Require Import Prelude Errors KVStore Codec Types PeerStore EventQueue.

(** ** A store that never fails *)

Abbreviation PlainStore := (gmap kv_key bytes).

#[global] Instance plain_store : KVStore PlainStore := {
  kv_view s := s;
  kv_read s k := ok_or (s !! k) KindNotFound;
  kv_write s k v := (<[k := v]> s, Ok tt);
  kv_remove s k := (delete k s, Ok tt);
}.
#[global] Instance plain_store_spec : KVStoreSpec PlainStore.
Proof.
  split; simpl; intros; simplify_eq; try done; try (by inv_outcome).
  by intros ?%ok_or_Panic.
Qed.

(** ** Formats *)

(** Big-endian [u16]. *)

#[global] Instance big_endian_u16 : U16Codec := {
  u16_enc n := [Z_to_u8 (n `div` 256); Z_to_u8 (n `mod` 256)];
  u16_dec bs :=
    match bs with
    | hi :: lo :: rest => Some (256 * u8_to_Z hi + u8_to_Z lo, rest)
    | _ => None
    end;
}.
#[global] Instance big_endian_u16_spec : U16CodecSpec.
Proof.
  split. intros n rest Hn. unfold is_u16, u16_max in Hn. simpl.
  rewrite !u8_to_Z_to_u8 by (Z.div_mod_to_equations; lia). repeat f_equal.
  Z.div_mod_to_equations; lia.
Qed.

(** Byte strings: each byte behind a continuation mark. *)
Fixpoint enc_bytes (bs : bytes) : bytes :=
  match bs with [] => [Byte.x00] | b :: bs => Byte.x01 :: b :: enc_bytes bs end.
Fixpoint dec_bytes (bs : bytes) : option (bytes * bytes) :=
  match bs with
  | Byte.x00 :: rest => Some ([], rest)
  | Byte.x01 :: b :: rest => '(bs, rest) ← dec_bytes rest; Some (b :: bs, rest)
  | _ => None
  end.

#[global] Instance bytes_codec : Codec bytes := { enc := enc_bytes; dec := dec_bytes }.
Lemma dec_enc_bytes bs rest : dec_bytes (enc_bytes bs ++ rest) = Some (bs, rest).
Proof. induction bs as [|b bs IH]; [done|]. cbn in *. by rewrite IH. Qed.
#[global] Instance bytes_codec_spec : CodecSpec bytes.
Proof. split. apply dec_enc_bytes. Qed.

#[global] Instance peer_info_codec : Codec (PeerStore.PeerInfo bytes) := {
  enc p := enc (PeerStore.node_id p, PeerStore.address p);
  dec bs := '((i, ad), rest) ← dec bs; Some (PeerStore.mkPeerInfo i ad, rest);
}.
#[global] Instance peer_info_codec_spec : CodecSpec (PeerStore.PeerInfo bytes).
Proof.
  split. intros [i ad] rest. unfold enc, dec, peer_info_codec. by rewrite dec_enc.
Qed.

(** ** The peer store *)

#[local] Instance example_order : IterOrder PublicKey := canonical_order PublicKey.

Definition example_peer (n : u8) (ad : u8) : PeerStore.PeerInfo bytes :=
  PeerStore.mkPeerInfo [n] [ad].
Definition example_calls : list PeerStore.op :=
  [PeerStore.OpAdd (example_peer Byte.x01 Byte.x0a);
   PeerStore.OpAdd (example_peer Byte.x02 Byte.x0b);
   PeerStore.OpRemove [Byte.x01]].

(** The second call's write fails. *)
Definition example_peers : PeerStore.PeerStore FaultyStore bytes :=
  PeerStore.new {| contents := ∅; faults := [false; true] |}.

Lemma peers_durable_witness :
  let '(ps', rs) := PeerStore.run example_calls example_peers in
  PeerStore.restart_peers (PeerStore.kv_store ps') = Some (PeerStore.peers ps') ∧
  PeerStore.peers ps' = PeerStore.spec_run example_calls rs (PeerStore.peers example_peers) ∧
  Forall (λ r, r = Ok tt ∨ r = Err PersistenceFailed) rs.
Proof.
  refine (PeerStore.peers_durable example_calls example_peers _ _).
  - vm_compute. reflexivity.
  - vm_compute. discriminate.
Defined.

Definition example_announced (i : PublicKey) : option bytes := Some i.

Lemma channel_peers_added_witness :
  is_Some (PeerStore.peers
    (PeerStore.persist_missing_channel_peers_excluding example_announced
       [[Byte.x01]; [Byte.x02]] {[ [Byte.x02] ]}
       (PeerStore.new (∅ : PlainStore))) !! [Byte.x01]).
Proof.
  refine (proj2 (proj2 (PeerStore.channel_peers_added example_announced
    [[Byte.x01]; [Byte.x02]] {[ [Byte.x02] ]} (PeerStore.new (∅ : PlainStore))))
    _ [Byte.x01] [Byte.x01] _ _ _).
  - done.
  - apply list_elem_of_here.
  - apply (bool_decide_unpack _). vm_compute. exact I.
  - reflexivity.
Defined.

(** ** The event queue, with byte strings as events *)

Definition example_queue : EventQueue.EventQueue FaultyStore bytes :=
  EventQueue.new {| contents := ∅; faults := [true] |}.

(** The first call fails, the second succeeds and stores both events. *)
Lemma calls_durable_witness :
  EventQueue.restart_queue (EventQueue.kv_store
    (EventQueue.exec (EventQueue.CallAdd [Byte.x02])
      (EventQueue.run [EventQueue.CallAdd [Byte.x01]] example_queue).1).1)
  = Some [[Byte.x01]; [Byte.x02]].
Proof.
  pose proof (EventQueue.calls_durable [EventQueue.CallAdd [Byte.x01]]
    (EventQueue.CallAdd [Byte.x02]) example_queue ltac:(vm_compute; reflexivity)) as H.
  cbn in H. destruct H as [_ [(_ & Hr & _)|[Hr _]]]; [exact Hr|discriminate Hr].
Defined.

Definition example_plain_queue (es : list bytes) : EventQueue.EventQueue PlainStore bytes :=
  {| EventQueue.queue := es; EventQueue.waker := None; EventQueue.kv_store := ∅;
     EventQueue.woken := [] |}.

Lemma interleaved_writes_lose_event_witness :
  ∃ q', rtc EventQueue.step (EventQueue.mkState (example_plain_queue [[Byte.x01]]) ∅)
          (EventQueue.mkState q' ∅) ∧
    EventQueue.queue q' = [[Byte.x02]] ∧
    EventQueue.restart_queue (EventQueue.kv_store q') = Some ([] : list bytes).
Proof.
  refine (EventQueue.interleaved_writes_lose_event [Byte.x01] [Byte.x02]
    (example_plain_queue [[Byte.x01]]) _ _); reflexivity.
Defined.

(** Task 0 waits; task 1 adds an event, writes it and wakes. *)
Definition example_waiting : EventQueue.EventQueue PlainStore bytes :=
  (EventQueue.poll 0 (example_plain_queue [])).1.
Definition example_event_data : bytes := EventQueue.encode_queue [[Byte.x01]].
Definition example_pushed : EventQueue.EventQueue PlainStore bytes :=
  (EventQueue.push_event [Byte.x01] example_waiting).1.
Definition example_written : EventQueue.EventQueue PlainStore bytes :=
  (EventQueue.persist_queue example_event_data example_pushed).1.
Definition example_woken : EventQueue.EventQueue PlainStore bytes :=
  (EventQueue.wake example_written).1.

Lemma waiter_is_woken_witness : 0%nat ∈ EventQueue.woken example_woken.
Proof.
  refine (EventQueue.waiter_is_woken 0 (example_plain_queue []) ∅
    (EventQueue.mkState example_woken ∅) _ _ _ _ _); [reflexivity|reflexivity| |reflexivity|done].
  eapply rtc_l.
  { split; [apply (EventQueue.StepPush 1%nat [Byte.x01] _ example_pushed _ example_event_data);
      reflexivity|left; reflexivity]. }
  eapply rtc_l.
  { split; [apply (EventQueue.StepWrite 1%nat _ example_written _ example_event_data);
      reflexivity|left; reflexivity]. }
  eapply rtc_l.
  { split; [apply (EventQueue.StepWake 1%nat _ example_woken); reflexivity|].
    right; left; reflexivity. }
  apply rtc_refl.
Defined.
