(* ===== verification/OmMailbox.v ===== *)
(** * The onion message mailbox ([src/payment/asynchronous/om_mailbox.rs])

    Messages for offline peers are kept in bounded queues for a bounded number of
    peers; the mailbox is behind a mutex, so each call is one step. *)

From S2P Require Import Prelude Types.

Module OnionMessageMailbox.
Section mailbox.
Context {OnionMessage : Type} {O : IterOrder PublicKey}.

Record OnionMessageMailbox := mkMailbox { map : gmap PublicKey (list OnionMessage) }.
Implicit Types (mb : OnionMessageMailbox) (peer : PublicKey).

Definition MAX_MESSAGES_PER_PEER : nat := 30.
Definition MAX_PEERS : nat := 300.

Definition new : OnionMessageMailbox := {| map := ∅ |}.

(** [iter.max_by_key(|(_, queue)| queue.len())]: the last of the longest. *)
Definition max_by_len (entries : list (PublicKey * list OnionMessage)) :
    option (PublicKey * list OnionMessage) :=
  match entries with
  | [] => None
  | x :: xs => Some (foldl (λ a b, if (length a.2 <=? length b.2)%nat then b else a) x xs)
  end.

(** The queue after one more message: the oldest makes room. *)
Definition push_message (queue : list OnionMessage) (message : OnionMessage) :
    list OnionMessage :=
  (if (MAX_MESSAGES_PER_PEER <=? length queue)%nat then tail queue else queue) ++ [message].

Definition onion_message_intercepted peer (message : OnionMessage) mb :
    outcome Empty_set OnionMessageMailbox :=
  let queue := default [] (map mb !! peer) in
  let map := <[peer := push_message queue message]> (map mb) in
  if (MAX_PEERS <? size map)%nat then
    peer_to_remove ← expect (fst <$> max_by_len (iter map));
    Ok {| map := delete peer_to_remove map |}
  else Ok {| map := map |}.

Definition onion_message_peer_connected peer mb : OnionMessageMailbox * list OnionMessage :=
  match map mb !! peer with
  | Some queue => ({| map := delete peer (map mb) |}, queue)
  | None => (mb, [])
  end.

(** ** Properties *)

Record valid mb : Prop := {
  valid_peers : (size (map mb) ≤ MAX_PEERS)%nat;
  valid_queues : ∀ peer queue, map mb !! peer = Some queue →
    (0 < length queue ≤ MAX_MESSAGES_PER_PEER)%nat;
}.

Lemma new_mailbox_valid : valid new.
Proof. split; simpl; [rewrite map_size_empty; lia|done]. Qed.

Lemma foldl_max_len x xs :
  let m := foldl (λ a b : PublicKey * list OnionMessage,
             if (length a.2 <=? length b.2)%nat then b else a) x xs in
  m ∈ x :: xs ∧ ∀ y, y ∈ x :: xs → (length y.2 ≤ length m.2)%nat.
Proof.
  revert x. induction xs as [|z xs IH]; intros x; simpl.
  { split; [apply list_elem_of_here|]. by intros y ->%list_elem_of_singleton. }
  destruct (Nat.leb_spec (length x.2) (length z.2)) as [Hle|Hlt].
  - destruct (IH z) as [Hin Hmax]. split; [by apply list_elem_of_further|].
    intros y [->|Hy]%elem_of_cons; [|by apply Hmax].
    specialize (Hmax z (list_elem_of_here _ _)). lia.
  - destruct (IH x) as [Hin Hmax]. split; [rewrite !elem_of_cons in *; tauto|].
    intros y [->|[->|Hy]%elem_of_cons]%elem_of_cons.
    + apply Hmax, list_elem_of_here.
    + specialize (Hmax x (list_elem_of_here _ _)). lia.
    + apply Hmax. by apply list_elem_of_further.
Qed.

Lemma max_by_len_Some (m : gmap PublicKey (list OnionMessage)) :
  m ≠ ∅ → ∃ p q, max_by_len (iter m) = Some (p, q) ∧ m !! p = Some q ∧
    ∀ p' q', m !! p' = Some q' → (length q' ≤ length q)%nat.
Proof.
  intros Hne. unfold max_by_len.
  destruct (iter m) as [|x xs] eqn:Hit.
  { exfalso. apply Hne, map_size_empty_iff. rewrite <- length_iter, Hit. done. }
  destruct (foldl_max_len x xs) as [Hin Hmax]. rewrite <- Hit in Hin, Hmax.
  destruct (foldl _ x xs) as [p q]. exists p, q. split; [done|].
  rewrite elem_of_iter in Hin. split; [done|]. intros p' q' Hp'.
  apply (Hmax (p', q')). by apply elem_of_iter.
Qed.

Lemma push_message_length q m :
  (length q ≤ MAX_MESSAGES_PER_PEER)%nat →
  (0 < length (push_message q m) ≤ MAX_MESSAGES_PER_PEER)%nat.
Proof.
  intros Hq. unfold push_message. rewrite length_app.
  destruct (Nat.leb_spec MAX_MESSAGES_PER_PEER (length q)); unfold MAX_MESSAGES_PER_PEER in *;
    [destruct q|]; simpl in *; lia.
Qed.

(** Intercepting a message never aborts and keeps the mailbox within its limits.
    The message is queued behind the latest 29 of its peer, other peers' queues
    are untouched, and when one peer too many is known, one with a longest queue
    is dropped: a peer that floods the mailbox cannot push out a quiet one. *)
Theorem intercepted_bounded peer m mb :
  valid mb →
  ∃ mb', onion_message_intercepted peer m mb = Ok mb' ∧ valid mb' ∧
    let all := <[peer := push_message (default [] (map mb !! peer)) m]> (map mb) in
    (map mb' = all ∨
     ∃ evicted q, map mb' = delete evicted all ∧ all !! evicted = Some q ∧
       (MAX_PEERS < size all)%nat ∧
       ∀ p' q', all !! p' = Some q' → (length q' ≤ length q)%nat).
Proof.
  intros [Hsize Hqs]. unfold onion_message_intercepted.
  set (all := <[peer := push_message (default [] (map mb !! peer)) m]> (map mb)).
  assert (∀ p q, all !! p = Some q → (0 < length q ≤ MAX_MESSAGES_PER_PEER)%nat) as Hall.
  { intros p q [[<- <-]|[_ Hq]]%lookup_insert_Some; [|by eapply Hqs].
    apply push_message_length. destruct (map mb !! peer) eqn:Hp; simpl; [|lia].
    by eapply Hqs. }
  assert (size all ≤ S (size (map mb)))%nat as Hgrow.
  { subst all. destruct (map mb !! peer) eqn:Hp.
    - rewrite map_size_insert_Some by eauto. lia.
    - rewrite map_size_insert_None by done. lia. }
  destruct (Nat.ltb_spec MAX_PEERS (size all)) as [Hlt|Hle].
  - destruct (max_by_len_Some all) as (p & q & -> & Hp & Hmax).
    { intros Hemp. rewrite Hemp, map_size_empty in Hlt. lia. }
    simpl. eexists. split; [done|]. split; [split; simpl|].
    + rewrite map_size_delete_Some by eauto. lia.
    + intros p' q' [_ Hq']%lookup_delete_Some. by eapply Hall.
    + right. by exists p, q.
  - eexists. split; [done|]. split; [split; simpl; [done|exact Hall]|by left].
Qed.

(** What is queued for a peer is delivered when it connects, in the order it
    arrived and only once. *)
Theorem connected_delivers peer mb :
  let '(mb', messages) := onion_message_peer_connected peer mb in
  messages = default [] (map mb !! peer) ∧
  map mb' = delete peer (map mb) ∧
  (onion_message_peer_connected peer mb').2 = [] ∧
  ∀ other, other ≠ peer → map mb' !! other = map mb !! other.
Proof.
  unfold onion_message_peer_connected. destruct (map mb !! peer) as [q|] eqn:Hp; simpl.
  - rewrite lookup_delete_eq. split_and!; try done. intros other Hne.
    by rewrite lookup_delete_ne.
  - rewrite Hp. split_and!; try done. by rewrite delete_id.
Qed.
End mailbox.
Arguments OnionMessageMailbox OnionMessage : clear implicits.

Lemma intercepted_bounded_witness :
  ∃ mb', onion_message_intercepted (O := canonical_order _) [] 7 new = Ok mb' ∧ valid mb'.
Proof.
  destruct (intercepted_bounded (O := canonical_order _) [] 7 new new_mailbox_valid)
    as (mb' & Hmb & Hv & _).
  exact (ex_intro _ mb' (conj Hmb Hv)).
Defined.
End OnionMessageMailbox.
