(* ===== verification/RateLimiter.v ===== *)
(** * The rate limiter ([src/payment/asynchronous/rate_limiter.rs])

    A bucket of tokens per user, refilled over time.  Instants and durations are
    nanoseconds.  The refill count is computed by the source in [f64]; it is
    modelled with [Floats]. *)

From Stdlib Require Import Floats.SpecFloat Strings.Byte.
From S2P Require Import Prelude Floats.

(** [Duration::as_secs_f64] *)
Definition as_secs_f64 (nanos : Z) : spec_float :=
  f64_add (f64_of_Z (nanos / 10 ^ 9)) (f64_div (f64_of_Z (nanos mod 10 ^ 9)) (f64_of_Z (10 ^ 9))).

(** [now.duration_since(earlier)] *)
Definition duration_since (now earlier : Z) : Z := saturating_sub now earlier.

Module RateLimiter.

Record Bucket := mkBucket { tokens : Z; last_refill : Z }.

Record RateLimiter := mkRateLimiter {
  users : gmap (list u8) Bucket;
  capacity : Z;
  refill_interval : Z;
  max_idle : Z;
}.
Implicit Types (rl : RateLimiter) (user_id : list u8).

Definition new (capacity refill_interval max_idle : Z) : RateLimiter :=
  {| users := ∅; capacity := capacity; refill_interval := refill_interval;
     max_idle := max_idle |}.

Definition set_users (us : gmap (list u8) Bucket) rl : RateLimiter :=
  {| users := us; capacity := capacity rl; refill_interval := refill_interval rl;
     max_idle := max_idle rl |}.

Definition tokens_to_add (elapsed refill_interval : Z) : Z :=
  f64_as_u32 (f64_div (as_secs_f64 elapsed) (as_secs_f64 refill_interval)).

(** [bucket.tokens + tokens_to_add] is an unchecked [u32] addition. *)
Definition refill (now : Z) rl (bucket : Bucket) : Bucket :=
  let add := tokens_to_add (duration_since now (last_refill bucket)) (refill_interval rl) in
  if 0 <? add then
    {| tokens := Z.min (wrap32 (tokens bucket + add)) (capacity rl); last_refill := now |}
  else bucket.

Definition take_token (bucket : Bucket) : Bucket * bool :=
  if 0 <? tokens bucket
  then ({| tokens := tokens bucket - 1; last_refill := last_refill bucket |}, true)
  else (bucket, false).

Definition garbage_collect (now : Z) rl : RateLimiter :=
  set_users (filter (λ '(_, b), duration_since now (last_refill b) < max_idle rl) (users rl)) rl.

(** [now] is the first reading of the clock, [now_gc] the one in
    [garbage_collect]. *)
Definition allow (now now_gc : Z) user_id rl : RateLimiter * bool :=
  let is_new_user := bool_decide (users rl !! user_id = None) in
  let bucket :=
    default {| tokens := capacity rl; last_refill := now |} (users rl !! user_id) in
  let bucket := refill now rl bucket in
  let '(bucket, allow) := take_token bucket in
  let rl := set_users (<[user_id := bucket]> (users rl)) rl in
  (if is_new_user then garbage_collect now_gc rl else rl, allow).

(** Calls at their times, and what they answered. *)
Fixpoint run (cs : list (Z * list u8)) rl : RateLimiter * list bool :=
  match cs with
  | [] => (rl, [])
  | (now, user_id) :: cs =>
      let '(rl, b) := allow now now user_id rl in
      let '(rl, bs) := run cs rl in (rl, b :: bs)
  end.

(** ** Properties *)

Definition valid rl : Prop :=
  0 ≤ capacity rl ∧ ∀ u b, users rl !! u = Some b → 0 ≤ tokens b ≤ capacity rl.

Lemma new_valid c r i : 0 ≤ c → valid (new c r i).
Proof. by split. Qed.

(** No time, no tokens; whatever the interval. *)
Lemma tokens_to_add_0 interval : tokens_to_add 0 interval = 0.
Proof.
  unfold tokens_to_add. change (as_secs_f64 0) with (S754_zero false).
  by destruct (as_secs_f64 interval).
Qed.

Lemma refill_tokens now rl b :
  0 ≤ capacity rl → 0 ≤ tokens b ≤ capacity rl → 0 ≤ tokens (refill now rl b) ≤ capacity rl.
Proof.
  intros Hc Hb. unfold refill. destruct (0 <? _); simpl; [|done].
  unfold wrap32. pose proof (Z.mod_pos_bound (tokens b +
    tokens_to_add (duration_since now (last_refill b)) (refill_interval rl)) (2 ^ 32)). lia.
Qed.

Lemma take_token_tokens b b' r :
  take_token b = (b', r) →
  last_refill b' = last_refill b ∧
  tokens b' = tokens b - (if r then 1 else 0) ∧ (r = true ↔ 0 < tokens b).
Proof.
  unfold take_token. destruct (Z.ltb_spec 0 (tokens b)); intros; simplify_eq/=;
    repeat split; try done; try lia.
Qed.

Lemma allow_valid now gc u rl : valid rl → valid (allow now gc u rl).1.
Proof.
  intros [Hc Hb]. unfold allow.
  destruct (take_token _) as [b' r] eqn:Ht. apply take_token_tokens in Ht as (_ & Htok & Hr).
  assert (0 ≤ tokens b' ≤ capacity rl) as Hb'.
  { pose proof (refill_tokens now rl (default {| tokens := capacity rl; last_refill := now |}
      (users rl !! u)) Hc) as Href.
    destruct (users rl !! u) as [b|] eqn:Hu; simpl in *.
    - specialize (Href (Hb _ _ Hu)). destruct r; [|lia]. assert (0 < tokens (refill now rl b)); naive_solver lia.
    - specialize (Href ltac:(lia)). destruct r; [|lia].
      assert (0 < tokens (refill now rl {| tokens := capacity rl; last_refill := now |}));
        naive_solver lia. }
  assert (valid (set_users (<[u:=b']> (users rl)) rl)) as Hset.
  { split; [done|]. simpl. intros v b [[<- <-]|[_ Hv]]%lookup_insert_Some; [done|by eapply Hb]. }
  case_bool_decide; simpl; [|done]. destruct Hset as [? Hset]. split; [done|]. simpl.
  intros v b [Hv _]%map_lookup_filter_Some. by eapply Hset.
Qed.

(** What a user may still ask for at [now]. *)
Definition available (now : Z) user_id rl : Z :=
  tokens (refill now rl (default {| tokens := capacity rl; last_refill := now |}
                           (users rl !! user_id))).

(** Refilling again at the same instant adds nothing. *)
Lemma refill_again now rl b t :
  let b' := refill now rl b in
  refill now rl {| tokens := t; last_refill := last_refill b' |}
    = {| tokens := t; last_refill := last_refill b' |}.
Proof.
  simpl. unfold refill at 1 2 3; simpl.
  destruct (0 <? tokens_to_add (duration_since now (last_refill b)) (refill_interval rl)) eqn:Hadd;
    simpl; unfold refill; simpl.
  - unfold duration_since, saturating_sub. replace (Z.max 0 (now - now)) with 0 by lia.
    by rewrite tokens_to_add_0.
  - by rewrite Hadd.
Qed.

Lemma allow_available now u rl :
  0 < max_idle rl →
  let '(rl', r) := allow now now u rl in
  (r = true ↔ 0 < available now u rl) ∧
  available now u rl' = available now u rl - (if r then 1 else 0) ∧
  max_idle rl' = max_idle rl ∧ refill_interval rl' = refill_interval rl ∧
  capacity rl' = capacity rl.
Proof.
  intros Hidle. unfold allow, available.
  set (b0 := default {| tokens := capacity rl; last_refill := now |} (users rl !! u)).
  destruct (take_token (refill now rl b0)) as [b' r] eqn:Ht.
  apply take_token_tokens in Ht as (Hlast & Htok & Hr). split; [done|].
  assert (refill now rl b' = b') as Hagain.
  { destruct b' as [t l]; simpl in *. subst l. apply (refill_again now rl b0 t). }
  assert (∀ rl', refill_interval rl' = refill_interval rl → capacity rl' = capacity rl →
    users rl' !! u = Some b' →
    tokens (refill now rl' (default {| tokens := capacity rl'; last_refill := now |}
      (users rl' !! u))) = tokens b') as Hres.
  { intros rl' Hi Hcap ->. simpl. unfold refill in *. rewrite Hi, Hcap. by rewrite Hagain. }
  case_bool_decide as Hnew; (split; [|done]); rewrite <- Htok; apply Hres; try done.
  - simpl. apply map_lookup_filter_Some. split; [apply lookup_insert_eq|].
    rewrite Hlast. subst b0. rewrite Hnew. simpl.
    unfold refill. destruct (0 <? _); simpl; unfold duration_since, saturating_sub; lia.
  - simpl. apply lookup_insert_eq.
Qed.

(** A burst is bounded: of any number of requests a user makes at one instant,
    exactly as many are allowed as tokens were available, which is never more
    than the capacity, and every bucket stays within the capacity. *)
Theorem burst_bounded now u (n : nat) rl :
  valid rl → 0 < max_idle rl →
  let '(rl', rs) := run (replicate n (now, u)) rl in
  valid rl' ∧
  Z.of_nat (length (List.filter (λ b : bool, b) rs)) = Z.min (Z.of_nat n) (available now u rl) ∧
  0 ≤ available now u rl ≤ capacity rl.
Proof.
  intros Hv Hidle.
  assert (0 ≤ available now u rl ≤ capacity rl) as Hav.
  { destruct Hv as [Hc Hb]. apply refill_tokens; [done|].
    destruct (users rl !! u) as [b|] eqn:Hu; simpl; [by eapply Hb|lia]. }
  revert rl Hv Hidle Hav. induction n as [|n IH]; intros rl Hv Hidle Hav; cbn [replicate run].
  { split_and!; simpl; try done; lia. }
  pose proof (allow_available now u rl Hidle) as Ha. pose proof (allow_valid now now u rl Hv) as Hv'.
  destruct (allow now now u rl) as [rl1 r]. destruct Ha as (Hr & Hav1 & Hi1 & _ & Hc1).
  simpl in Hv'. specialize (IH rl1 Hv').
  assert (0 ≤ available now u rl1 ≤ capacity rl1).
  { rewrite Hav1, Hc1. destruct r; naive_solver lia. }
  destruct (run (replicate n (now, u)) rl1) as [rl2 rs].
  destruct IH as (? & Hcount & _); [lia|done|]. split_and!; [done| |lia..].
  destruct r; cbn [List.filter length].
  - assert (0 < available now u rl) by naive_solver. lia.
  - assert (¬ 0 < available now u rl) by naive_solver. lia.
Qed.

Lemma burst_bounded_witness :
  (run (replicate 5 (0, [])) (new 3 (10 ^ 8) (10 ^ 9))).2 = [true; true; true; false; false] ∧
  0 ≤ available 0 [] (new 3 (10 ^ 8) (10 ^ 9)) ≤ 3.
Proof.
  split; [vm_compute; reflexivity|].
  pose proof (burst_bounded 0 [] 5 (new 3 (10 ^ 8) (10 ^ 9)) (new_valid 3 _ _ ltac:(lia))
    ltac:(vm_compute; reflexivity)) as Ht.
  destruct (run _ _) as [rl' rs]. exact (proj2 (proj2 Ht)).
Defined.

(** A bucket is dropped when it was last refilled too long ago, full or not.  If
    the refill interval is longer than the idle time, a user who has used up the
    bucket gets a full one as soon as another user shows up. *)
Theorem idle_drop_refunds_tokens :
  let minute := 60 * 10 ^ 9 in
  (run [(0, [x01]); (0, [x01]); (0, [x01]); (2 * minute, [x01]); (2 * minute, [x02]);
        (2 * minute, [x01]); (2 * minute, [x01])] (new 2 (5 * minute) minute)).2
  = [true; true; false; false; true; true; true].
Proof. vm_compute. reflexivity. Qed.
End RateLimiter.
