(* ===== verification/StaticInvoiceStore.v ===== *)
(** * The static invoice store ([src/payment/asynchronous/static_invoice_store.rs])

    Invoices are stored for recipients under a location derived from the recipient
    and a slot, and handed out again on request; both directions are rate limited
    per recipient. *)

From Stdlib Require Import Ascii String.
From S2P Require Import Prelude KVStore HexUtils RateLimiter.

(** [format!("{:05}", slot)] for a [u16]. *)
Definition decimal_digit (n : Z) : ascii := ascii_of_N (Z.to_N (48 + n)).
Definition slot_key (slot : Z) : string :=
  String (decimal_digit (slot / 10000)) (String (decimal_digit (slot / 1000 mod 10))
    (String (decimal_digit (slot / 100 mod 10)) (String (decimal_digit (slot / 10 mod 10))
      (String (decimal_digit (slot mod 10)) EmptyString)))).

Module StaticInvoiceStore.
Section store.
Context {S : Type} {KV : KVStore S}.
(** Invoices and message paths with LDK's encoding of the pair, and SHA-256. *)
Context {StaticInvoice BlindedMessagePath : Type}.
Context (encode_invoice : StaticInvoice * BlindedMessagePath → bytes)
  (decode_invoice : bytes → option (StaticInvoice * BlindedMessagePath))
  (sha256 : list u8 → list u8).

Record StaticInvoiceStore := mkStore {
  kv_store : S;
  request_rate_limiter : RateLimiter.RateLimiter;
  persist_rate_limiter : RateLimiter.RateLimiter;
}.
Implicit Types (st : StaticInvoiceStore) (recipient_id : list u8) (invoice_slot : Z).

Definition RATE_LIMITER_BUCKET_CAPACITY : Z := 5.
Definition RATE_LIMITER_REFILL_INTERVAL : Z := 100 * 10 ^ 6.
Definition RATE_LIMITER_MAX_IDLE : Z := 600 * 10 ^ 9.

(** [io::STATIC_INVOICE_STORE_PRIMARY_NAMESPACE] *)
Definition STATIC_INVOICE_STORE_PRIMARY_NAMESPACE : string := "static_invoices".

Definition new (kv : S) : StaticInvoiceStore :=
  let limiter := RateLimiter.new RATE_LIMITER_BUCKET_CAPACITY RATE_LIMITER_REFILL_INTERVAL
                   RATE_LIMITER_MAX_IDLE in
  {| kv_store := kv; request_rate_limiter := limiter; persist_rate_limiter := limiter |}.

Definition get_storage_location invoice_slot recipient_id : string * string :=
  (hex_utils.to_string (u8_to_Z <$> sha256 recipient_id), slot_key invoice_slot).

Definition storage_key invoice_slot recipient_id : kv_key :=
  (STATIC_INVOICE_STORE_PRIMARY_NAMESPACE,
   (get_storage_location invoice_slot recipient_id).1,
   (get_storage_location invoice_slot recipient_id).2).

Definition check_rate_limit (now : Z) (limiter : RateLimiter.RateLimiter) recipient_id :
    RateLimiter.RateLimiter * outcome ErrorKind unit :=
  let '(limiter, ok) := RateLimiter.allow now now recipient_id limiter in
  (limiter, if ok then Ok tt else Err KindOther).

Definition handle_static_invoice_requested (now : Z) recipient_id invoice_slot st :
    StaticInvoiceStore * outcome ErrorKind (option (StaticInvoice * BlindedMessagePath)) :=
  let '(limiter, limit) := check_rate_limit now (request_rate_limiter st) recipient_id in
  let st := {| kv_store := kv_store st; request_rate_limiter := limiter;
               persist_rate_limiter := persist_rate_limiter st |} in
  (st,
   _ ← limit;
   or_else
     (data ← kv_read (kv_store st) (storage_key invoice_slot recipient_id);
      Some <$> ok_or (decode_invoice data) KindInvalidData)
     (λ e, if decide (e = KindNotFound) then Ok None else Err e)).

Definition handle_persist_static_invoice (now : Z) (invoice : StaticInvoice)
    (invoice_request_path : BlindedMessagePath) invoice_slot recipient_id st :
    StaticInvoiceStore * outcome ErrorKind unit :=
  let '(limiter, limit) := check_rate_limit now (persist_rate_limiter st) recipient_id in
  let st := {| kv_store := kv_store st; request_rate_limiter := request_rate_limiter st;
               persist_rate_limiter := limiter |} in
  match limit with
  | Ok _ =>
      let buf := encode_invoice (invoice, invoice_request_path) in
      let '(kv, r) := kv_write (kv_store st) (storage_key invoice_slot recipient_id) buf in
      ({| kv_store := kv; request_rate_limiter := request_rate_limiter st;
          persist_rate_limiter := limiter |}, r)
  | Err e => (st, Err e)
  | Panic => (st, Panic)
  end.

(** ** Locations *)

Lemma decimal_digit_inj n m :
  0 ≤ n < 10 → 0 ≤ m < 10 → decimal_digit n = decimal_digit m → n = m.
Proof.
  intros Hn Hm Heq. apply (f_equal N_of_ascii) in Heq. unfold decimal_digit in Heq.
  rewrite !N_ascii_embedding in Heq by lia. lia.
Qed.

Lemma slot_key_inj s1 s2 : is_u16 s1 → is_u16 s2 → slot_key s1 = slot_key s2 → s1 = s2.
Proof.
  unfold is_u16, u16_max, slot_key. intros H1 H2 Heq.
  injection Heq as Ha Hb Hc Hd He.
  apply decimal_digit_inj in Ha, Hb, Hc, Hd, He; try div_lia.
Qed.

(** Distinct slots or recipients with distinct digests never share a location. *)
Lemma storage_key_inj s1 s2 r1 r2 :
  is_u16 s1 → is_u16 s2 → storage_key s1 r1 = storage_key s2 r2 →
  s1 = s2 ∧ sha256 r1 = sha256 r2.
Proof.
  unfold storage_key, get_storage_location; simpl. intros H1 H2 Heq.
  injection Heq as Hr Hs1. split.
  - apply slot_key_inj; [done..|]. unfold slot_key. congruence.
  - apply u8s_to_Z_inj, hex_utils.to_string_inj; [| |done];
      apply Forall_fmap, Forall_true; intros b; apply u8_to_Z_range.
Qed.

Context {KSPEC : KVStoreSpec S}.
Context (decode_encode : ∀ x, decode_invoice (encode_invoice x) = Some x).

(** An invoice that was stored is what a later permitted request for the same
    recipient and slot gets, unless the store itself fails to read, and storing
    one invoice never disturbs the invoice of another slot or of a recipient with
    a different digest. *)
Theorem stored_invoice_served now1 now2 invoice path slot recipient st st1 :
  is_u16 slot →
  handle_persist_static_invoice now1 invoice path slot recipient st = (st1, Ok tt) →
  (match (handle_static_invoice_requested now2 recipient slot st1).2 with
   | Ok r => r = Some (invoice, path)
   | Err e => e ≠ KindNotFound ∧ e ≠ KindInvalidData ∨
       kv_read (kv_store st1) (storage_key slot recipient) = Err e
   | Panic => False
   end) ∧
  (∀ slot' recipient', is_u16 slot' → (slot' ≠ slot ∨ sha256 recipient' ≠ sha256 recipient) →
     kv_view (kv_store st1) !! storage_key slot' recipient'
     = kv_view (kv_store st) !! storage_key slot' recipient').
Proof.
  intros Hslot Hp. unfold handle_persist_static_invoice in Hp.
  destruct (check_rate_limit now1 (persist_rate_limiter st) recipient) as [lim [[]|e|]]; [|done..].
  destruct (kv_write _ _ _) as [kv r] eqn:Hw. simpl in Hw. simplify_eq.
  pose proof (kv_write_Ok _ _ _ _ Hw) as Hview. split.
  - unfold handle_static_invoice_requested, check_rate_limit.
    destruct (RateLimiter.allow now2 now2 recipient _) as [lim2 []]; simpl; [|by left].
    pose proof (kv_read_Ok kv (storage_key slot recipient)) as Hrd.
    pose proof (kv_read_NotFound kv (storage_key slot recipient)) as Hnf.
    pose proof (kv_read_total kv (storage_key slot recipient)) as Htot.
    destruct (kv_read kv (storage_key slot recipient)) as [v|e|]; [|..|done]; simpl.
    + specialize (Hrd v eq_refl). rewrite Hview, lookup_insert_eq in Hrd. simplify_eq.
      by rewrite decode_encode.
    + case_decide as He; [|by right]. subst e. specialize (Hnf eq_refl).
      rewrite Hview, lookup_insert_eq in Hnf. done.
  - intros slot' recipient' Hslot' Hne. simpl. rewrite Hview.
    apply lookup_insert_ne. intros Heq. apply storage_key_inj in Heq as [? ?]; [|done..].
    destruct Hne; congruence.
Qed.
End store.
Arguments StaticInvoiceStore S : clear implicits.

(** Invoices and paths of one byte each, and the identity in place of the digest. *)
Definition example_encode (x : u8 * u8) : bytes := [x.1; x.2].
Definition example_decode (bs : bytes) : option (u8 * u8) :=
  match bs with [a; b] => Some (a, b) | _ => None end.
Definition example_persisted : StaticInvoiceStore FaultyStore :=
  (handle_persist_static_invoice example_encode (λ r, r) 0 Byte.x01 Byte.x02 1 [Byte.x0a]
     (new empty_store)).1.

Lemma stored_invoice_served_witness :
  (handle_static_invoice_requested example_decode (λ r, r) 0 [Byte.x0a] 1 example_persisted).2
  = Ok (Some (Byte.x01, Byte.x02)).
Proof.
  pose proof (stored_invoice_served example_encode example_decode (λ r, r) ltac:(by intros [])
    0 0 Byte.x01 Byte.x02 1 [Byte.x0a] (new empty_store) example_persisted
    ltac:(unfold is_u16, u16_max; lia) ltac:(vm_compute; reflexivity)) as [Hserve _].
  destruct (handle_static_invoice_requested _ _ 0 [Byte.x0a] 1 example_persisted).2
    as [r|e|] eqn:Hr;
    [exact (f_equal Ok Hserve)|vm_compute in Hr; discriminate Hr|destruct Hserve].
Defined.
End StaticInvoiceStore.
