(* ===== verification/FeeEstimator.v ===== *)
(** * Fee rates ([src/fee_estimator.rs])

    A cache of estimates per confirmation target, with fallbacks and a floor.
    [FEERATE_FLOOR_SATS_PER_KW] is LDK's constant. *)

From S2P Require Import Prelude Bdk.

(** [lightning::chain::chaininterface::ConfirmationTarget] *)
Inductive LdkConfirmationTarget :=
| MaximumFeeEstimate
| UrgentOnChainSweep
| MinAllowedAnchorChannelRemoteFee
| MinAllowedNonAnchorChannelRemoteFee
| AnchorChannelFee
| NonAnchorChannelFee
| ChannelCloseMinimum
| OutputSpendingFee.

Inductive ConfirmationTarget :=
| OnchainPayment
| ChannelFunding
| Lightning (target : LdkConfirmationTarget).

#[global] Instance LdkConfirmationTarget_eq_dec : EqDecision LdkConfirmationTarget.
Proof. solve_decision. Defined.
#[global] Instance ConfirmationTarget_eq_dec : EqDecision ConfirmationTarget.
Proof. solve_decision. Defined.

Definition all_ldk_targets : list LdkConfirmationTarget :=
  [MaximumFeeEstimate; UrgentOnChainSweep; MinAllowedAnchorChannelRemoteFee;
   MinAllowedNonAnchorChannelRemoteFee; AnchorChannelFee; NonAnchorChannelFee;
   ChannelCloseMinimum; OutputSpendingFee].

Definition get_all_conf_targets : list ConfirmationTarget :=
  [OnchainPayment; ChannelFunding] ++ (Lightning <$> all_ldk_targets).

(** Targets are numbered by their position in the list of all of them. *)
Definition target_index (t : ConfirmationTarget) : nat :=
  match t with
  | OnchainPayment => 0 | ChannelFunding => 1
  | Lightning MaximumFeeEstimate => 2 | Lightning UrgentOnChainSweep => 3
  | Lightning MinAllowedAnchorChannelRemoteFee => 4
  | Lightning MinAllowedNonAnchorChannelRemoteFee => 5
  | Lightning AnchorChannelFee => 6 | Lightning NonAnchorChannelFee => 7
  | Lightning ChannelCloseMinimum => 8 | Lightning OutputSpendingFee => 9
  end.
#[global] Program Instance ConfirmationTarget_countable : Countable ConfirmationTarget :=
  inj_countable target_index (λ n, get_all_conf_targets !! n) _.
Next Obligation. by intros [| |[]]. Qed.

Definition get_num_block_defaults_for_target (target : ConfirmationTarget) : Z :=
  match target with
  | OnchainPayment => 6
  | ChannelFunding => 12
  | Lightning ldk_target =>
      match ldk_target with
      | MaximumFeeEstimate => 1
      | UrgentOnChainSweep => 6
      | MinAllowedAnchorChannelRemoteFee => 1008
      | MinAllowedNonAnchorChannelRemoteFee => 144
      | AnchorChannelFee => 1008
      | NonAnchorChannelFee => 12
      | ChannelCloseMinimum => 144
      | OutputSpendingFee => 12
      end
  end.

Module OnchainFeeEstimator.
Section estimator.
Context (FEERATE_FLOOR_SATS_PER_KW : Z).

Definition get_fallback_rate_for_ldk_target (target : LdkConfirmationTarget) : Z :=
  match target with
  | MaximumFeeEstimate => 8000
  | UrgentOnChainSweep => 5000
  | MinAllowedAnchorChannelRemoteFee => FEERATE_FLOOR_SATS_PER_KW
  | MinAllowedNonAnchorChannelRemoteFee => FEERATE_FLOOR_SATS_PER_KW
  | AnchorChannelFee => 500
  | NonAnchorChannelFee => 1000
  | ChannelCloseMinimum => 500
  | OutputSpendingFee => 1000
  end.

Definition get_fallback_rate_for_target (target : ConfirmationTarget) : Z :=
  match target with
  | OnchainPayment => 5000
  | ChannelFunding => 1000
  | Lightning ldk_target => get_fallback_rate_for_ldk_target ldk_target
  end.

Record OnchainFeeEstimator := mkEstimator { fee_rate_cache : gmap ConfirmationTarget FeeRate }.
Implicit Types (e : OnchainFeeEstimator).

Definition new : OnchainFeeEstimator := {| fee_rate_cache := ∅ |}.

Definition set_fee_rate_cache (update : gmap ConfirmationTarget FeeRate) e :
    OnchainFeeEstimator * bool :=
  if decide (update = fee_rate_cache e) then (e, false)
  else ({| fee_rate_cache := update |}, true).

Definition estimate_fee_rate e (confirmation_target : ConfirmationTarget) : FeeRate :=
  let fallback_rate := get_fallback_rate_for_target confirmation_target in
  let estimate := default fallback_rate (fee_rate_cache e !! confirmation_target) in
  Z.max estimate FEERATE_FLOOR_SATS_PER_KW.

(** [.try_into::<u32>().unwrap_or_else(..)] *)
Definition get_est_sat_per_1000_weight e (target : LdkConfirmationTarget) : Z :=
  let rate := estimate_fee_rate e (Lightning target) in
  if rate <=? u32_max then rate else get_fallback_rate_for_ldk_target target.

Definition apply_post_estimation_adjustments (target : ConfirmationTarget)
    (estimated_rate : FeeRate) : FeeRate :=
  match target with
  | Lightning MinAllowedNonAnchorChannelRemoteFee =>
      Z.max (saturating_sub estimated_rate 250) FEERATE_FLOOR_SATS_PER_KW
  | Lightning MaximumFeeEstimate =>
      saturating_add64 (saturating_mul64 estimated_rate 11 / 10) 2500
  | _ => estimated_rate
  end.

(** Every estimate is relayable and fits LDK's 32-bit interface, whatever is in the
    cache; a cached rate above the floor is returned as it is, and setting the
    cache reports a change exactly when an estimate source changed. *)
Theorem estimates_relayable e target :
  0 ≤ FEERATE_FLOOR_SATS_PER_KW ≤ 500 →
  FEERATE_FLOOR_SATS_PER_KW ≤ estimate_fee_rate e target ∧
  (∀ t, FEERATE_FLOOR_SATS_PER_KW ≤ get_est_sat_per_1000_weight e t ≤ u32_max) ∧
  (∀ r, fee_rate_cache e !! target = Some r → FEERATE_FLOOR_SATS_PER_KW ≤ r →
     estimate_fee_rate e target = r) ∧
  (∀ update, let '(e', changed) := set_fee_rate_cache update e in
     fee_rate_cache e' = update ∧ (changed = true ↔ update ≠ fee_rate_cache e)).
Proof.
  intros Hfloor. split_and!.
  - unfold estimate_fee_rate. lia.
  - intros t. unfold get_est_sat_per_1000_weight, estimate_fee_rate.
    destruct (Z.leb_spec (Z.max (default (get_fallback_rate_for_target (Lightning t))
      (fee_rate_cache e !! Lightning t)) FEERATE_FLOOR_SATS_PER_KW) u32_max); [lia|].
    unfold u32_max. destruct t; simpl; lia.
  - intros r Hr Hle. unfold estimate_fee_rate. rewrite Hr. simpl. lia.
  - intros update. unfold set_fee_rate_cache. case_decide; naive_solver.
Qed.

(** The adjustments keep a relayable estimate relayable, never lower the ceiling
    LDK uses against fee inflation, and never raise the minimum accepted from a
    peer above the estimate it came from. *)
Theorem adjustments_safe target rate :
  0 ≤ FEERATE_FLOOR_SATS_PER_KW ≤ rate → rate ≤ u32_max →
  let adjusted := apply_post_estimation_adjustments target rate in
  FEERATE_FLOOR_SATS_PER_KW ≤ adjusted ∧
  (target = Lightning MaximumFeeEstimate → rate + 2500 ≤ adjusted) ∧
  (target ≠ Lightning MaximumFeeEstimate → adjusted ≤ rate).
Proof.
  unfold u32_max. intros Hf Hr. unfold apply_post_estimation_adjustments, saturating_add64,
    saturating_mul64, saturating_sub, u64_max.
  destruct target as [| |[]]; try (split_and!; [lia|congruence|lia]).
  - split_and!; [div_lia| |congruence]. intros _. div_lia.
Qed.
End estimator.

Lemma estimates_relayable_witness :
  253 ≤ estimate_fee_rate 253 (new) (Lightning ChannelCloseMinimum).
Proof. exact (proj1 (estimates_relayable 253 new (Lightning ChannelCloseMinimum) ltac:(lia))). Defined.

Lemma adjustments_safe_witness :
  253 ≤ apply_post_estimation_adjustments 253 (Lightning MinAllowedNonAnchorChannelRemoteFee) 300.
Proof.
  exact (proj1 (adjustments_safe 253 (Lightning MinAllowedNonAnchorChannelRemoteFee) 300
                  ltac:(lia) ltac:(vm_compute; discriminate))).
Defined.
End OnchainFeeEstimator.
