(* ===== verification/Config.v ===== *)
(** * Configuration ([src/config.rs])

    Address types, on-chain wallet accounts, the runtime configuration of the
    monitored wallets, and the settings that decide whether channels are announced.
    The names under which a wallet's data is stored come from here. *)

From stdpp Require Import pretty.
From S2P Require Import Prelude Types.

Inductive AddressType := Legacy | NestedSegwit | NativeSegwit | Taproot.

#[global] Instance AddressType_eq_dec : EqDecision AddressType.
Proof. solve_decision. Defined.
Definition address_types : list AddressType := [Legacy; NestedSegwit; NativeSegwit; Taproot].
Definition address_type_index (t : AddressType) : nat :=
  match t with Legacy => 0 | NestedSegwit => 1 | NativeSegwit => 2 | Taproot => 3 end.
#[global] Program Instance AddressType_countable : Countable AddressType :=
  inj_countable address_type_index (λ n, address_types !! n) _.
Next Obligation. by intros []. Qed.

Definition is_native_witness (t : AddressType) : bool :=
  match t with NativeSegwit | Taproot => true | _ => false end.

Definition type_storage_suffix (t : AddressType) : string :=
  match t with
  | Legacy => "legacy"
  | NestedSegwit => "nested_segwit"
  | NativeSegwit => "native_segwit"
  | Taproot => "taproot"
  end.

Definition bip_purpose (t : AddressType) : Z :=
  match t with Legacy => 44 | NestedSegwit => 49 | NativeSegwit => 84 | Taproot => 86 end.

(** [Default for AddressType] *)
Definition default_address_type : AddressType := NativeSegwit.

(** [Writeable] and [Readable]: one byte; [None] is [DecodeError::InvalidValue]. *)
Definition write_address_type (t : AddressType) : u8 :=
  match t with
  | Legacy => Byte.x00 | NestedSegwit => Byte.x01 | NativeSegwit => Byte.x02 | Taproot => Byte.x03
  end.
Definition read_address_type (discriminant : u8) : option AddressType :=
  match discriminant with
  | Byte.x00 => Some Legacy
  | Byte.x01 => Some NestedSegwit
  | Byte.x02 => Some NativeSegwit
  | Byte.x03 => Some Taproot
  | _ => None
  end.

Definition MAX_ONCHAIN_WALLET_ACCOUNT_INDEX : Z := 2 ^ 31 - 1.

Record OnchainWalletAccount := mkAccount {
  address_type : AddressType;
  account_index : Z;
}.
#[global] Instance OnchainWalletAccount_eq_dec : EqDecision OnchainWalletAccount.
Proof. solve_decision. Defined.
#[global] Program Instance OnchainWalletAccount_countable : Countable OnchainWalletAccount :=
  inj_countable' (λ a, (address_type a, account_index a)) (λ '(t, i), mkAccount t i) _.
Next Obligation. by intros []. Qed.

Definition account_zero (t : AddressType) : OnchainWalletAccount :=
  {| address_type := t; account_index := 0 |}.
Definition is_derived (a : OnchainWalletAccount) : bool := bool_decide (1 ≤ account_index a).

(** [format!] of an unsigned integer: its decimal digits. *)
Definition decimal (n : Z) : string := pretty (Z.to_N n).

Definition storage_suffix (a : OnchainWalletAccount) : string :=
  if decide (account_index a = 0) then type_storage_suffix (address_type a)
  else (type_storage_suffix (address_type a) +:+ "_" +:+ decimal (account_index a))%string.

(** ** The monitored wallets *)

Section config.
Context {SocketAddress : Type}.

(** The fields of [AnchorChannelsConfig] and [Config] that the modelled components
    read. *)
Record AnchorChannelsConfig := mkAnchorChannelsConfig {
  trusted_peers_no_reserve : list PublicKey;
  per_channel_reserve_sats : Z;
}.
Definition DEFAULT_ANCHOR_PER_CHANNEL_RESERVE_SATS : Z := 25000.
Definition default_anchor_channels_config : AnchorChannelsConfig :=
  {| trusted_peers_no_reserve := [];
     per_channel_reserve_sats := DEFAULT_ANCHOR_PER_CHANNEL_RESERVE_SATS |}.

Record Config := mkConfig {
  listening_addresses : option (list SocketAddress);
  node_alias : option string;
  anchor_channels_config : option AnchorChannelsConfig;
  primary_address_type : AddressType;
  address_types_to_monitor : list AddressType;
}.

(** Keep the first occurrence of each element: [filter(|&at| seen.insert(at))]. *)
Fixpoint dedup (seen l : list AddressType) : list AddressType :=
  match l with
  | [] => []
  | t :: l => if decide (t ∈ seen) then dedup seen l else t :: dedup (t :: seen) l
  end.

(** [Config::additional_address_types] *)
Definition config_additional_address_types (c : Config) : list AddressType :=
  dedup [] (filter (λ t, t ≠ primary_address_type c) (address_types_to_monitor c)).

Record AddressTypeRuntimeConfig := mkRuntimeConfig {
  primary : AddressType;
  monitored : list AddressType;
  derived_accounts : list OnchainWalletAccount;
}.

Definition from_config (c : Config) (derived : list OnchainWalletAccount) :
    AddressTypeRuntimeConfig :=
  {| primary := primary_address_type c;
     monitored := filter (λ t, t ≠ primary_address_type c) (address_types_to_monitor c);
     derived_accounts := derived |}.

Definition additional_address_types (rc : AddressTypeRuntimeConfig) : list AddressType :=
  dedup [] (monitored rc).

(** The derived accounts that are not listed yet are appended one by one. *)
Definition push_missing (accounts derived : list OnchainWalletAccount) :
    list OnchainWalletAccount :=
  foldl (λ accounts a, if decide (a ∈ accounts) then accounts else accounts ++ [a])
    accounts derived.

Definition additional_wallet_accounts (rc : AddressTypeRuntimeConfig) :
    list OnchainWalletAccount :=
  push_missing (account_zero <$> additional_address_types rc) (derived_accounts rc).

(** ** Announcing channels *)

Inductive AnnounceError :=
| MissingNodeAlias | MissingListeningAddresses | MissingAliasAndAddresses.

Definition may_announce_channel (c : Config) : outcome AnnounceError unit :=
  let has_listening_addresses :=
    match listening_addresses c with Some (_ :: _) => true | _ => false end in
  match bool_decide (is_Some (node_alias c)), has_listening_addresses with
  | true, true => Ok tt
  | true, false => Err MissingListeningAddresses
  | false, true => Err MissingNodeAlias
  | false, false => Err MissingAliasAndAddresses
  end.

(** The fields of LDK's [UserConfig] that [default_user_config] sets. *)
Record UserConfig := mkUserConfig {
  force_announced_channel_preference : bool;
  manually_accept_inbound_channels : bool;
  negotiate_anchors_zero_fee_htlc_tx : bool;
  reject_inbound_splices : bool;
  accept_forwards_to_priv_channels : bool;
  announce_for_forwarding : bool;
  max_inbound_htlc_value_in_flight_percent_of_channel : Z;
}.

Definition default_user_config (ldk_default : UserConfig) (c : Config) : UserConfig :=
  let announce := is_ok (may_announce_channel c) in
  {| force_announced_channel_preference := negb announce;
     manually_accept_inbound_channels := true;
     negotiate_anchors_zero_fee_htlc_tx := bool_decide (is_Some (anchor_channels_config c));
     reject_inbound_splices := false;
     accept_forwards_to_priv_channels :=
       if announce then accept_forwards_to_priv_channels ldk_default else false;
     announce_for_forwarding :=
       if announce then announce_for_forwarding ldk_default else false;
     max_inbound_htlc_value_in_flight_percent_of_channel :=
       if announce then max_inbound_htlc_value_in_flight_percent_of_channel ldk_default
       else 100 |}.
End config.
Arguments Config SocketAddress : clear implicits.

(** ** Lemmas *)

Lemma dedup_spec seen l :
  NoDup (dedup seen l) ∧ ∀ t, t ∈ dedup seen l ↔ t ∈ l ∧ t ∉ seen.
Proof.
  revert seen. induction l as [|t l IH]; intros seen; simpl.
  - split; [apply NoDup_nil_2|]. intros t. rewrite elem_of_nil. tauto.
  - case_decide as Hs.
    + destruct (IH seen) as [Hnd Hin]. split; [done|]. intros t'.
      rewrite Hin, elem_of_cons. split; [tauto|]. intros [[->|] ?]; tauto.
    + destruct (IH (t :: seen)) as [Hnd Hin]. split.
      * apply NoDup_cons. rewrite Hin, elem_of_cons. tauto.
      * intros t'. rewrite !elem_of_cons, Hin, elem_of_cons.
        destruct (decide (t' = t)) as [->|]; tauto.
Qed.

Lemma push_missing_spec accounts derived :
  NoDup accounts →
  NoDup (push_missing accounts derived) ∧
  ∀ a, a ∈ push_missing accounts derived ↔ a ∈ accounts ∨ a ∈ derived.
Proof.
  unfold push_missing. revert accounts.
  induction derived as [|d derived IH]; intros accounts Hnd; simpl.
  { split; [done|]. intros a. rewrite elem_of_nil. tauto. }
  case_decide as Hd.
  - destruct (IH accounts Hnd) as [Hnd' Hin]. split; [done|]. intros a.
    rewrite Hin, elem_of_cons. split; [tauto|]. intros [|[->|]]; tauto.
  - destruct (IH (accounts ++ [d])) as [Hnd' Hin].
    + apply NoDup_app. split_and!; [done| |apply NoDup_singleton].
      intros a Ha ->%list_elem_of_singleton. done.
    + split; [done|]. intros a.
      rewrite Hin, elem_of_app, !elem_of_cons, elem_of_nil. tauto.
Qed.

(** ** Storage names *)

Lemma type_storage_suffix_inj t t' s s' :
  (type_storage_suffix t +:+ "_" +:+ s = type_storage_suffix t' +:+ "_" +:+ s')%string →
  t = t' ∧ s = s'.
Proof. destruct t, t'; simpl; intros Heq; simplify_eq/=; done. Qed.

Lemma decimal_inj n m : 0 ≤ n → 0 ≤ m → decimal n = decimal m → n = m.
Proof. unfold decimal. intros ?? Heq%(inj pretty). lia. Qed.

(** Accounts never share a name. *)
Lemma storage_suffix_inj a b :
  0 ≤ account_index a → 0 ≤ account_index b → storage_suffix a = storage_suffix b → a = b.
Proof.
  destruct a as [t i], b as [t' j]. unfold storage_suffix. simpl. intros Hi Hj.
  repeat case_decide; subst.
  - by destruct t, t'.
  - destruct t, t'; simpl; intros Heq; simplify_eq/=.
  - destruct t, t'; simpl; intros Heq; simplify_eq/=.
  - intros [-> ->%decimal_inj]%type_storage_suffix_inj; done.
Qed.

Definition all_chars (p : Ascii.ascii → bool) (s : string) : bool :=
  forallb p (String.list_ascii_of_string s).
Definition is_digit (c : Ascii.ascii) : bool :=
  match Ascii.N_of_ascii c with n => (48 <=? n)%N && (n <=? 57)%N end.

Lemma all_chars_app p s s' : all_chars p (s +:+ s') = all_chars p s && all_chars p s'.
Proof.
  unfold all_chars. induction s as [|c s IH]; simpl; [done|]. by rewrite IH, andb_assoc.
Qed.

Lemma string_length_app s s' : String.length (s +:+ s') = (String.length s + String.length s')%nat.
Proof. induction s as [|c s IH]; [done|]. apply (f_equal Datatypes.S IH). Qed.

Lemma pretty_N_char_digit x : is_digit (pretty_N_char x) = true.
Proof. unfold pretty_N_char. repeat case_match; done. Qed.

Lemma pretty_N_go_spec (k : nat) x s :
  (x < 10 ^ N.of_nat k)%N →
  all_chars is_digit s = true →
  all_chars is_digit (pretty_N_go x s) = true ∧
  (String.length (pretty_N_go x s) ≤ String.length s + k)%nat.
Proof.
  revert x s. induction k as [|k IH]; intros x s Hx Hs.
  - assert (x = 0%N) as -> by (simpl in Hx; lia). rewrite pretty_N_go_0. split; [done|lia].
  - destruct (decide (x = 0%N)) as [->|Hne]; [rewrite pretty_N_go_0; split; [done|lia]|].
    rewrite pretty_N_go_step by lia.
    destruct (IH (x `div` 10)%N (String (pretty_N_char (x `mod` 10)) s)) as [Hd Hl].
    + apply N.Div0.div_lt_upper_bound. rewrite Nat2N.inj_succ, N.pow_succ_r' in Hx. lia.
    + unfold all_chars in *. simpl. by rewrite pretty_N_char_digit.
    + split; [done|]. simpl in Hl. lia.
Qed.

Lemma decimal_spec n :
  is_u32 n → all_chars is_digit (decimal n) = true ∧ (String.length (decimal n) ≤ 10)%nat.
Proof.
  unfold is_u32, u32_max. intros Hn. unfold decimal, pretty, pretty_N.
  case_decide; [vm_compute; split; [done|lia]|].
  destruct (pretty_N_go_spec 10 (Z.to_N n) EmptyString) as [? ?]; [simpl; lia|done|].
  simpl in *. split; [done|lia].
Qed.
