(* ===== verification/IoUtils.v ===== *)
(** * Storage locations ([src/io/utils.rs], [src/io/mod.rs])

    The check every backend of the key-value store makes on namespaces and keys, and
    the reading and writing of the parts of a wallet's change set under its account's
    name, with the fallback to the location used before there were several wallets. *)

From S2P Require Import Prelude KVStore Config.

(** ** Valid names *)

Section names.
(** LDK's [KVSTORE_NAMESPACE_KEY_MAX_LEN] and [KVSTORE_NAMESPACE_KEY_ALPHABET]. *)
Context (KVSTORE_NAMESPACE_KEY_MAX_LEN : nat) (in_alphabet : Ascii.ascii → bool).

Definition is_valid_kvstore_str (key : string) : bool :=
  (String.length key <=? KVSTORE_NAMESPACE_KEY_MAX_LEN)%nat && all_chars in_alphabet key.

Definition is_empty_str (s : string) : bool := bool_decide (s = EmptyString).

Definition check_namespace_key_validity (primary_namespace secondary_namespace : string)
    (key : option string) : outcome ErrorKind unit :=
  match key with
  | Some key =>
      if is_empty_str key then Err KindOther
      else if is_empty_str primary_namespace && negb (is_empty_str secondary_namespace)
      then Err KindOther
      else if negb (is_valid_kvstore_str primary_namespace)
              || negb (is_valid_kvstore_str secondary_namespace)
              || negb (is_valid_kvstore_str key)
      then Err KindOther
      else Ok tt
  | None =>
      if is_empty_str primary_namespace && negb (is_empty_str secondary_namespace)
      then Err KindOther
      else if negb (is_valid_kvstore_str primary_namespace)
              || negb (is_valid_kvstore_str secondary_namespace)
      then Err KindOther
      else Ok tt
  end.
End names.

(** ** The parts of a change set *)

(** A stored form: what is read back is the value up to what the form leaves out. *)
Class StoredFormat (A : Type) := {
  st_write : A → bytes;
  st_read : bytes → option A;
  st_kept : A → A;
  st_fits : A → Prop;
}.
Class StoredFormatSpec (A : Type) {SF : StoredFormat A} : Prop := {
  st_read_write : ∀ a : A, st_fits a → st_read (st_write a) = Some (st_kept a);
}.

(** [io::BDK_WALLET_*]: one namespace, one key per part. *)
Definition BDK_WALLET_PRIMARY_NAMESPACE : string := "bdk_wallet".
Definition BDK_WALLET_SECONDARY_NAMESPACE : string := EmptyString.
Definition BDK_WALLET_DESCRIPTOR_KEY : string := "descriptor".
Definition BDK_WALLET_CHANGE_DESCRIPTOR_KEY : string := "change_descriptor".
Definition BDK_WALLET_NETWORK_KEY : string := "network".
Definition BDK_WALLET_LOCAL_CHAIN_KEY : string := "local_chain".
Definition BDK_WALLET_TX_GRAPH_KEY : string := "tx_graph".
Definition BDK_WALLET_INDEXER_KEY : string := "indexer".
Definition change_set_keys : list string :=
  [BDK_WALLET_DESCRIPTOR_KEY; BDK_WALLET_CHANGE_DESCRIPTOR_KEY; BDK_WALLET_NETWORK_KEY;
   BDK_WALLET_INDEXER_KEY; BDK_WALLET_TX_GRAPH_KEY; BDK_WALLET_LOCAL_CHAIN_KEY].

Definition change_set_namespace (wallet_account : OnchainWalletAccount) : string :=
  let suffix := storage_suffix wallet_account in
  if decide (BDK_WALLET_SECONDARY_NAMESPACE = EmptyString) then suffix
  else (BDK_WALLET_SECONDARY_NAMESPACE +:+ "/" +:+ suffix)%string.
Definition part_key (wallet_account : OnchainWalletAccount) (key : string) : kv_key :=
  (BDK_WALLET_PRIMARY_NAMESPACE, change_set_namespace wallet_account, key).
Definition legacy_key (key : string) : kv_key :=
  (BDK_WALLET_PRIMARY_NAMESPACE, BDK_WALLET_SECONDARY_NAMESPACE, key).

Definition has_legacy_data (a : OnchainWalletAccount) : bool :=
  bool_decide (address_type a = NativeSegwit) && bool_decide (account_index a = 0).

Section parts.
Context {S : Type} {KV : KVStore S}.

(** [impl_read_write_change_set_type!] *)
Definition read_part_bytes (kv : S) (a : OnchainWalletAccount) (key : string) :
    outcome ErrorKind (option bytes) :=
  match kv_read kv (part_key a key) with
  | Ok bytes => Ok (Some bytes)
  | Err e =>
      if decide (e = KindNotFound) then
        if has_legacy_data a then
          match kv_read kv (legacy_key key) with
          | Ok bytes => Ok (Some bytes)
          | Err e2 => if decide (e2 = KindNotFound) then Ok None else Err e2
          | Panic => Panic
          end
        else Ok None
      else Err e
  | Panic => Panic
  end.

Definition read_part {A} {SF : StoredFormat A} (kv : S) (a : OnchainWalletAccount)
    (key : string) : outcome ErrorKind (option A) :=
  bytes ← read_part_bytes kv a key;
  match bytes with
  | Some bytes => match st_read bytes with Some x => Ok (Some x) | None => Err KindInvalidData end
  | None => Ok None
  end.

Definition write_part {A} {SF : StoredFormat A} (value : A) (kv : S) (a : OnchainWalletAccount)
    (key : string) : S * outcome ErrorKind unit :=
  kv_write kv (part_key a key) (st_write value).

(** ** What is stored *)

(** The bytes that count for a part: those under the account's name, or else the
    ones from before. *)
Definition stored_bytes (m : gmap kv_key bytes) (a : OnchainWalletAccount) (key : string) :
    option bytes :=
  match m !! part_key a key with
  | Some bs => Some bs
  | None => if has_legacy_data a then m !! legacy_key key else None
  end.

(** A store whose reads succeed. *)
Definition reads_work (kv : S) : Prop :=
  ∀ k, kv_read kv k = ok_or (kv_view kv !! k) KindNotFound.

Lemma read_part_bytes_ok kv a key :
  reads_work kv → read_part_bytes kv a key = Ok (stored_bytes (kv_view kv) a key).
Proof.
  intros Hr. unfold read_part_bytes, stored_bytes. rewrite !Hr.
  destruct (kv_view kv !! part_key a key); simpl; [done|].
  destruct (has_legacy_data a); [|done]. by destruct (kv_view kv !! legacy_key key).
Qed.
End parts.

(** The account's location is its own: no other account and no other part has it,
    and it is not the location used before. *)
Lemma part_key_inj a b key key' :
  0 ≤ account_index a → 0 ≤ account_index b →
  part_key a key = part_key b key' → a = b ∧ key = key'.
Proof.
  intros Ha Hb Heq. unfold part_key in Heq. simpl in Heq.
  injection Heq as Hs ->. split; [|done]. by apply storage_suffix_inj.
Qed.

Lemma storage_suffix_non_empty a : storage_suffix a ≠ EmptyString.
Proof. destruct a as [[] i]; unfold storage_suffix; simpl; by case_decide. Qed.

Lemma part_key_not_legacy a key key' : part_key a key ≠ legacy_key key'.
Proof. intros Heq. injection Heq as Hs _. by apply (storage_suffix_non_empty a). Qed.

(** Writing a part changes what counts for this part of this account only. *)
Lemma stored_bytes_write m a b key key' bs :
  0 ≤ account_index a → 0 ≤ account_index b →
  stored_bytes (<[part_key a key := bs]> m) b key'
  = if decide (a = b ∧ key = key') then Some bs else stored_bytes m b key'.
Proof.
  intros Ha Hb. unfold stored_bytes. case_decide as Hd.
  - destruct Hd as [-> ->]. by rewrite lookup_insert_eq.
  - rewrite lookup_insert_ne by (by intros ?%part_key_inj).
    destruct (m !! part_key b key'); [done|]. destruct (has_legacy_data b); [|done].
    rewrite lookup_insert_ne by apply part_key_not_legacy. done.
Qed.

Section names_ok.
Context (KVSTORE_NAMESPACE_KEY_MAX_LEN : nat) (in_alphabet : Ascii.ascii → bool).
(** LDK documents 120 characters of upper- and lower-case letters, digits, [_] and
    [-]; this much of it is needed. *)
Definition name_char (c : Ascii.ascii) : bool :=
  let n := Ascii.N_of_ascii c in
  is_digit c || ((97 <=? n)%N && (n <=? 122)%N) || (n =? 95)%N.
Context (max_len : (24 ≤ KVSTORE_NAMESPACE_KEY_MAX_LEN)%nat)
  (alphabet : ∀ c, name_char c = true → in_alphabet c = true).

Lemma valid_name s :
  (String.length s ≤ 24)%nat → all_chars name_char s = true →
  is_valid_kvstore_str KVSTORE_NAMESPACE_KEY_MAX_LEN in_alphabet s = true.
Proof.
  intros Hl Hc. unfold is_valid_kvstore_str. apply andb_true_intro. split.
  - apply Nat.leb_le. lia.
  - unfold all_chars in *. rewrite forallb_forall in *. auto.
Qed.

Lemma suffix_valid a :
  is_u32 (account_index a) →
  (String.length (storage_suffix a) ≤ 24)%nat ∧ all_chars name_char (storage_suffix a) = true.
Proof.
  destruct a as [t i]. intros Hi. unfold storage_suffix. cbn [address_type account_index] in *.
  destruct (decimal_spec i Hi) as [Hd Hl]. case_decide.
  - destruct t; vm_compute; split; (done || lia).
  - split.
    + rewrite !string_length_app. destruct t; cbn [type_storage_suffix String.length]; lia.
    + assert (all_chars name_char (decimal i) = true) as Hn.
      { unfold all_chars in *. rewrite forallb_forall in *. intros c Hc.
        unfold name_char. by rewrite Hd. }
      rewrite !all_chars_app, Hn. by destruct t.
Qed.

(** Every location the wallet's data is stored at is accepted by the backends,
    whatever the account, and no two accounts or parts share one, nor does any of
    them touch the data stored before there were several wallets. *)
Theorem wallet_locations_valid a b key key' :
  is_u32 (account_index a) → is_u32 (account_index b) → key ∈ change_set_keys →
  check_namespace_key_validity KVSTORE_NAMESPACE_KEY_MAX_LEN in_alphabet
    BDK_WALLET_PRIMARY_NAMESPACE (change_set_namespace a) (Some key) = Ok tt ∧
  (part_key a key = part_key b key' → a = b ∧ key = key') ∧
  part_key a key ≠ legacy_key key'.
Proof.
  intros Ha Hb Hkey. split_and!; [|intros; apply part_key_inj; [..|done]; unfold is_u32 in *; lia
    |apply part_key_not_legacy].
  destruct (suffix_valid a Ha) as [Hl Hc].
  assert ((String.length key ≤ 24)%nat ∧ all_chars name_char key = true ∧ key ≠ EmptyString)
    as (Hkl & Hkc & Hke).
  { unfold change_set_keys in Hkey. rewrite !elem_of_cons, elem_of_nil in Hkey.
    destruct_or? Hkey; subst; (split_and!; [vm_compute; lia|done|done]). }
  unfold check_namespace_key_validity, is_empty_str.
  change (change_set_namespace a) with (storage_suffix a).
  rewrite !valid_name by first [done|vm_compute; lia]. by rewrite bool_decide_eq_false_2.
Qed.
End names_ok.
