(* ===== verification/WriteOrder.v ===== *)
(** * The order of concurrent writes ([src/io/sqlite_store/mod.rs], [src/io/vss_store.rs])

    Both backends of the key-value store run their writes in tasks of their own and keep
    them in the order of the calls with one mechanism: a call draws a version and takes a
    reference of its key's lock; the task takes the lock and skips the write if a later
    version was written; the last task that uses a lock removes it from the map.  The steps
    of any number of calls interleave in any order here. *)

From S2P Require Import Prelude KVStore Config IoUtils.

(** ** Names with separators *)

(** The separator [#]. *)
Definition hash : Ascii.ascii := Ascii.ascii_of_nat 35.
Definition no_hash (s : string) : bool := all_chars (λ c, negb (Ascii.eqb c hash)) s.

Lemma hash_split s s' r r' :
  no_hash s = true → no_hash s' = true →
  s +:+ String hash r = s' +:+ String hash r' → s = s' ∧ r = r'.
Proof.
  revert s'. induction s as [|c s IH]; intros [|c' s'] Hs Hs' E; cbn in *.
  - by injection E.
  - injection E as <- _. by rewrite Ascii.eqb_refl in Hs'.
  - injection E as -> _. by rewrite Ascii.eqb_refl in Hs.
  - injection E as <- E. apply andb_true_iff in Hs as [_ Hs], Hs' as [_ Hs'].
    destruct (IH s' Hs Hs' E) as [-> ->]. done.
Qed.

Lemma hash_in s r : no_hash (s +:+ String hash r) = false.
Proof. unfold no_hash. rewrite all_chars_app. cbn. apply andb_false_r. Qed.

Section check.
(** LDK's longest name and its alphabet, which has no [#]. *)
Context (KVSTORE_NAMESPACE_KEY_MAX_LEN : nat) (in_alphabet : Ascii.ascii → bool).

(** The check of a location with a key. *)
Definition check_location (k : kv_key) : outcome ErrorKind unit :=
  check_namespace_key_validity KVSTORE_NAMESPACE_KEY_MAX_LEN in_alphabet k.1.1 k.1.2 (Some k.2).

Context (hash_not_allowed : in_alphabet hash = false).

Lemma valid_no_hash s :
  is_valid_kvstore_str KVSTORE_NAMESPACE_KEY_MAX_LEN in_alphabet s = true → no_hash s = true.
Proof.
  unfold is_valid_kvstore_str, no_hash, all_chars. intros [_ Hs]%andb_true_iff.
  rewrite forallb_forall in *. intros c Hc. specialize (Hs c Hc).
  destruct (Ascii.eqb_spec c hash) as [->|]; [congruence|done].
Qed.

Lemma check_location_Ok k :
  is_ok (check_location k) = true →
  no_hash k.1.1 = true ∧ no_hash k.1.2 = true ∧ no_hash k.2 = true ∧
  (k.1.1 = EmptyString → k.1.2 = EmptyString).
Proof.
  destruct k as [[p s] k]. unfold check_location, check_namespace_key_validity, is_empty_str. simpl.
  destruct (bool_decide (k = EmptyString)); [done|].
  destruct (bool_decide (p = EmptyString) && _) eqn:He; [done|].
  destruct (_ || _) eqn:Hv; [done|]. intros _.
  apply orb_false_iff in Hv as [Hv H3%negb_false_iff].
  apply orb_false_iff in Hv as [H1%negb_false_iff H2%negb_false_iff].
  split_and!; [by apply valid_no_hash..|]. intros ->. rewrite bool_decide_eq_true_2 in He by done.
  by apply negb_false_iff, bool_decide_eq_true in He.
Qed.

End check.

(** ** Locks *)

(** The name of a location's lock, and whether a location passes the name check. *)
Class StoreNames := {
  build_locking_key : kv_key → string;
  valid_location : kv_key → bool;
}.
(** Valid locations do not share a lock. *)
Class StoreNamesSpec {SN : StoreNames} : Prop := {
  locking_key_inj : ∀ a b, valid_location a = true → valid_location b = true →
    build_locking_key a = build_locking_key b → a = b;
}.

Module WriteOrder.

Inductive change := Write (buf : bytes) | Remove.
Definition effect (c : change) (k : kv_key) (m : gmap kv_key bytes) : gmap kv_key bytes :=
  match c with Write buf => <[k := buf]> m | Remove => delete k m end.

(** Where a call is: it has a version, it has a reference of the lock too, its task holds
    the lock and writes, its task is about to clean up. *)
Inductive phase := Versioned | Issued | Writing | Written (res : outcome ErrorKind unit).

(** A call.  [issued_at] is the next version at the time the call returned its future. *)
Record task := mkTask {
  version : Z;
  location : kv_key;
  wanted : change;
  inner_lock_ref : nat;
  issued_at : Z;
  at_phase : phase;
}.

(** The version counter, the map of locks (a lock is the number of its allocation), the last
    written version in each lock, the calls under way, and what the backend holds.  [applied]
    and [results] record the writes that took effect, each with its answer, and the answers
    of the calls, in order. *)
Record store := mkStore {
  next_write_version : Z;
  write_version_locks : gmap string nat;
  last_written : gmap nat Z;
  next_ref : nat;
  tasks : gmap nat task;
  contents : gmap kv_key bytes;
  applied : list task;
  results : list (task * outcome ErrorKind unit);
}.
Implicit Types (s : store) (t : task).

Definition new (m : gmap kv_key bytes) : store := mkStore 1 ∅ ∅ 0 ∅ m [] [].

(** ** Steps *)

Definition set_task (i : nat) t s : store :=
  mkStore (next_write_version s) (write_version_locks s) (last_written s) (next_ref s)
    (<[i := t]> (tasks s)) (contents s) (applied s) (results s).
Definition drop_task (i : nat) s : store :=
  mkStore (next_write_version s) (write_version_locks s) (last_written s) (next_ref s)
    (delete i (tasks s)) (contents s) (applied s) (results s).
Definition at_ (p : phase) t : task :=
  mkTask (version t) (location t) (wanted t) (inner_lock_ref t) (issued_at t) p.
Definition answer t (res : outcome ErrorKind unit) s : store :=
  mkStore (next_write_version s) (write_version_locks s) (last_written s) (next_ref s)
    (tasks s) (contents s) (applied s) (results s ++ [(t, res)]).

Section steps.
Context {SN : StoreNames}.

(** [fetch_add] in [get_new_version_and_lock_ref]: [None] is the panic at the last version. *)
Definition take_version (i : nat) (k : kv_key) (c : change) s : option store :=
  if decide (is_Some (tasks s !! i)) then None
  else
    let v := next_write_version s in
    if v =? u64_max then None
    else
      Some (mkStore (v + 1) (write_version_locks s) (last_written s) (next_ref s)
        (<[i := mkTask v k c 0 0 Versioned]> (tasks s)) (contents s) (applied s) (results s)).

(** [entry(locking_key).or_default()] *)
Definition get_inner_lock_ref (locking_key : string) s : nat * store :=
  match write_version_locks s !! locking_key with
  | Some r => (r, s)
  | None =>
      let r := next_ref s in
      (r, mkStore (next_write_version s) (<[locking_key := r]> (write_version_locks s))
            (<[r := 0]> (last_written s)) (r + 1)%nat (tasks s) (contents s) (applied s) (results s))
  end.
Definition take_ref (i : nat) s : option store :=
  t ← tasks s !! i;
  match at_phase t with
  | Versioned =>
      let '(r, s) := get_inner_lock_ref (build_locking_key (location t)) s in
      Some (set_task i (mkTask (version t) (location t) (wanted t) r (next_write_version s) Issued) s)
  | _ => None
  end.

(** The future is dropped before its task is spawned. *)
Definition abandon (i : nat) s : option store :=
  t ← tasks s !! i;
  match at_phase t with Issued => Some (drop_task i s) | _ => None end.

(** The name check of [write_internal] and [remove_internal] fails. *)
Definition reject (i : nat) s : option store :=
  t ← tasks s !! i;
  match at_phase t with
  | Issued =>
      if valid_location (location t) then None
      else Some (answer t (Err KindOther) (drop_task i s))
  | _ => None
  end.

Definition is_writing (r : nat) t : bool :=
  match at_phase t with Writing => bool_decide (inner_lock_ref t = r) | _ => false end.
Definition lock_free (r : nat) s : bool :=
  bool_decide (Forall (λ t, is_writing r t = false) (map_to_list (tasks s)).*2).

(** [execute_locked_write] up to the callback. *)
Definition begin_write (i : nat) s : option store :=
  t ← tasks s !! i;
  match at_phase t with
  | Issued =>
      if valid_location (location t) && lock_free (inner_lock_ref t) s then
        last ← last_written s !! inner_lock_ref t;
        let is_stale_version := version t <=? last in
        Some (set_task i (at_ (if is_stale_version then Written (Ok tt) else Writing) t) s)
      else None
  | _ => None
  end.

(** How the callback ends: the backend did it and said so; it failed and did nothing; or,
    at a remote backend, it did it and the answer was lost, which the callback reports as an
    error too. *)
Inductive reply := Acknowledged | Failed | AnswerLost.
Definition answered (w : reply) : outcome ErrorKind unit :=
  match w with Acknowledged => Ok tt | Failed | AnswerLost => Err KindOther end.
Definition took_effect (w : reply) : bool :=
  match w with Acknowledged | AnswerLost => true | Failed => false end.

(** The callback ends.  Only [Ok] moves the last written version. *)
Definition end_write (i : nat) (w : reply) s : option store :=
  t ← tasks s !! i;
  match at_phase t with
  | Writing =>
      let t' := at_ (Written (answered w)) t in
      Some (mkStore (next_write_version s) (write_version_locks s)
        (if is_ok (answered w) then <[inner_lock_ref t := version t]> (last_written s)
         else last_written s) (next_ref s) (<[i := t']> (tasks s))
        (if took_effect w then effect (wanted t) (location t) (contents s) else contents s)
        (if took_effect w then applied s ++ [t'] else applied s) (results s))
  | _ => None
  end.

(** [Arc::strong_count]: the map's reference and those of the calls under way. *)
Definition refers (r : nat) t : bool :=
  match at_phase t with Versioned => false | _ => bool_decide (inner_lock_ref t = r) end.
Definition strong_count (r : nat) s : nat :=
  (length (List.filter (λ '(_, r'), bool_decide (r' = r)) (map_to_list (write_version_locks s))) +
   length (List.filter (λ '(_, t), refers r t) (map_to_list (tasks s))))%nat.

Definition clean_locks (i : nat) s : option store :=
  t ← tasks s !! i;
  match at_phase t with
  | Written res =>
      let locks :=
        if decide (strong_count (inner_lock_ref t) s = 2%nat)
        then delete (build_locking_key (location t)) (write_version_locks s)
        else write_version_locks s in
      Some (answer t res (drop_task i
        (mkStore (next_write_version s) locks (last_written s) (next_ref s) (tasks s) (contents s)
           (applied s) (results s))))
  | _ => None
  end.

Inductive action :=
| TakeVersion (i : nat) (k : kv_key) (c : change)
| TakeRef (i : nat)
| Abandon (i : nat)
| Reject (i : nat)
| BeginWrite (i : nat)
| EndWrite (i : nat) (w : reply)
| CleanLocks (i : nat).

Definition act (a : action) s : option store :=
  match a with
  | TakeVersion i k c => take_version i k c s
  | TakeRef i => take_ref i s
  | Abandon i => abandon i s
  | Reject i => reject i s
  | BeginWrite i => begin_write i s
  | EndWrite i w => end_write i w s
  | CleanLocks i => clean_locks i s
  end.
Fixpoint run (acts : list action) s : option store :=
  match acts with [] => Some s | a :: acts => s ← act a s; run acts s end.

(** ** The invariant *)

Definition key t : string := build_locking_key (location t).
(** The call has not written yet. *)
Definition pending t : Prop :=
  match at_phase t with Versioned | Issued | Writing => True | Written _ => False end.
Definition has_ref t : Prop := at_phase t ≠ Versioned.
(** The call [a] was over before the call [b] began. *)
Definition precedes a b : Prop := issued_at a ≤ version b.
(** The write took effect and its call knows. *)
Definition acknowledged b : Prop := at_phase b = Written (Ok tt).
(** The write of [t] took effect, or it gave way to a later version of its location. *)
Definition covered s t : Prop :=
  ∃ b, b ∈ applied s ∧ acknowledged b ∧ key b = key t ∧ valid_location (location b) = true ∧
    (version t < version b ∨ version b = version t ∧ wanted b = wanted t).
Definition replay (m : gmap kv_key bytes) (ts : list task) : gmap kv_key bytes :=
  foldl (λ m t, effect (wanted t) (location t) m) m ts.

Record inv (m0 : gmap kv_key bytes) s : Prop := {
  inv_next : 1 ≤ next_write_version s;
  inv_shared : ∀ i t, tasks s !! i = Some t → has_ref t →
    write_version_locks s !! key t = Some (inner_lock_ref t);
  inv_own : ∀ k k' r, write_version_locks s !! k = Some r → write_version_locks s !! k' = Some r →
    k = k';
  inv_alloc : ∀ k r, write_version_locks s !! k = Some r → (r < next_ref s)%nat ∧
    ∃ l, last_written s !! r = Some l ∧ (l = 0 ∨ ∃ b, b ∈ applied s ∧ acknowledged b ∧ key b = k ∧ version b = l ∧
      valid_location (location b) = true);
  inv_versions : ∀ i t, tasks s !! i = Some t →
    1 ≤ version t < next_write_version s ∧
    (has_ref t → version t < issued_at t ≤ next_write_version s);
  inv_unique : ∀ i j t u, tasks s !! i = Some t → tasks s !! j = Some u → version t = version u →
    i = j;
  inv_applied : ∀ b, b ∈ applied s →
    version b < issued_at b ∧ version b < next_write_version s ∧
    ∀ i t, tasks s !! i = Some t → pending t → version b ≠ version t;
  inv_writing : ∀ i t, tasks s !! i = Some t → at_phase t = Writing →
    valid_location (location t) = true ∧
    (∃ l, last_written s !! inner_lock_ref t = Some l ∧ l < version t) ∧
    ∀ j u, tasks s !! j = Some u → at_phase u = Writing → inner_lock_ref u = inner_lock_ref t → i = j;
  inv_newer : ∀ i t b, tasks s !! i = Some t → has_ref t → b ∈ applied s → acknowledged b →
    key b = key t → precedes t b → ∃ l, last_written s !! inner_lock_ref t = Some l ∧ version b ≤ l;
  inv_order : StronglySorted (λ b a, (acknowledged b → key b = key a → ¬ precedes a b) ∧
    version b ≠ version a)
    (applied s);
  inv_written : ∀ i t, tasks s !! i = Some t → at_phase t = Written (Ok tt) →
    valid_location (location t) = true ∧ covered s t;
  inv_results : ∀ t, (t, Ok tt) ∈ results s → valid_location (location t) = true ∧ covered s t;
  inv_contents : contents s = replay m0 (applied s);
}.

(** Case analysis on the tasks of a map that was changed at one place. *)
Ltac by_task :=
  repeat match goal with
  | H : <[_ := _]> _ !! _ = Some _ |- _ =>
      apply lookup_insert_Some in H; destruct H as [[<- <-]|[? H]]
  | H : delete _ _ !! _ = Some _ |- _ => apply lookup_delete_Some in H; destruct H as [? H]
  end; simpl in *.

Lemma inv_new m0 : inv m0 (new m0).
Proof. split; simpl; try (by intros; simplify_map_eq); try set_solver. constructor. Qed.

Lemma inv_take_version m0 i k c s s' : inv m0 s → take_version i k c s = Some s' → inv m0 s'.
Proof.
  intros [H1 Hsh Hown Hal Hv Hu Hap Hw Hn Ho Hwr Hr Hc]. unfold take_version.
  case_decide as Hi; [done|]. apply eq_None_not_Some in Hi. case_match; [done|]. intros [= <-].
  split; simpl; try done; try lia.
  - intros j t Ht Href. by_task; [done|eauto].
  - intros j t Ht. by_task; [split; [lia|done]|].
    destruct (Hv _ _ Ht) as [? Hx]. split; [lia|]. intros Hh. specialize (Hx Hh). lia.
  - intros j j' t u Ht Hu' E. by_task; [done|..].
    + destruct (Hv _ _ Ht) as [? _]. lia.
    + destruct (Hv _ _ Hu') as [? _]. lia.
    + eauto.
  - intros b Hb. destruct (Hap b Hb) as (? & ? & Hp). split_and!; [done|lia|].
    intros j t Ht Hpe. by_task; [lia|eauto].
  - intros j t Ht E. by_task; [done|]. destruct (Hw _ _ Ht E) as (? & ? & Hx). split_and!; [done..|].
    intros j' u Hu'. by_task; [done|eauto].
  - intros j t b Ht Href. by_task; [done|eauto].
  - intros j t Ht E. by_task; [done|eauto].
Qed.

(** Allocating a lock. *)
Lemma inv_get_ref m0 k s r s' :
  inv m0 s → get_inner_lock_ref k s = (r, s') →
  inv m0 s' ∧ write_version_locks s' !! k = Some r ∧ tasks s' = tasks s.
Proof.
  intros HI. unfold get_inner_lock_ref.
  destruct (write_version_locks s !! k) as [r'|] eqn:Hl; intros [= <- <-]; [done|].
  destruct HI as [H1 Hsh Hown Hal Hv Hu Hap Hw Hn Ho Hwr Hr Hc].
  assert (∀ k' r, write_version_locks s !! k' = Some r → r ≠ next_ref s) as Hfresh.
  { intros k' r Hk. destruct (Hal _ _ Hk). lia. }
  assert (∀ i t, tasks s !! i = Some t → has_ref t →
    <[next_ref s := 0]> (last_written s) !! inner_lock_ref t = last_written s !! inner_lock_ref t) as Hlw.
  { intros i t Ht Href. apply lookup_insert_ne, not_eq_sym. by eapply Hfresh, Hsh. }
  split; [|by simpl; rewrite lookup_insert_eq]. split; simpl; try done.
  - intros i t Ht Href. pose proof (Hsh _ _ Ht Href). rewrite lookup_insert_ne; [done|]. congruence.
  - intros k1 k2 r [[<- Hr1]|[? Hk]]%lookup_insert_Some [[<- Hr2]|[? Hk']]%lookup_insert_Some;
      [done|exfalso; by eapply Hfresh..|eauto].
  - intros k' r [[<- <-]|[? Hk]]%lookup_insert_Some.
    + split; [lia|]. exists 0. rewrite lookup_insert_eq. auto.
    + destruct (Hal _ _ Hk) as (? & l & ? & ?). split; [lia|]. exists l.
      rewrite lookup_insert_ne by lia. done.
  - intros i t Ht E. rewrite (Hlw i) by (unfold has_ref; congruence). eauto.
  - intros i t b Ht Href. rewrite (Hlw i) by done. eauto.
Qed.

Lemma inv_take_ref m0 i s s' : inv m0 s → take_ref i s = Some s' → inv m0 s'.
Proof.
  intros HI. unfold take_ref. destruct (tasks s !! i) as [t0|] eqn:Hi; simpl; [|done].
  destruct (at_phase t0) eqn:Hp; try done.
  destruct (get_inner_lock_ref _ s) as [r s1] eqn:Hg. intros [= <-].
  apply (inv_get_ref m0) in Hg as ([H1 Hsh Hown Hal Hv Hu Hap Hw Hn Ho Hwr Hr Hc] & Hl & Ht1); [|done].
  rewrite <- Ht1 in Hi. clear s HI Ht1. split; simpl; try done.
  - intros j t Ht Href. by_task; [done|eauto].
  - intros j t Ht. by_task; [|eauto]. destruct (Hv _ _ Hi) as [? _]. split; [done|]. lia.
  - intros j j' t u Ht Hu' E. by_task; [done|..]; eauto.
  - intros b Hb. destruct (Hap b Hb) as (? & ? & Hx). split_and!; [done..|].
    intros j t Ht Hpe. by_task; [|eauto]. apply (Hx _ _ Hi). unfold pending. by rewrite Hp.
  - intros j t Ht E. by_task; [done|]. destruct (Hw _ _ Ht E) as (? & ? & Hx). split_and!; [done..|].
    intros j' u Hu'. by_task; [done|eauto].
  - intros j t b Ht Href Hb Ha E Hpr. by_task; [|eauto]. destruct (Hap b Hb) as (_ & ? & _).
    unfold precedes in Hpr. simpl in Hpr. lia.
  - intros j t Ht E. by_task; [done|eauto].
Qed.

(** Ending a call. *)
Lemma inv_drop m0 i s : inv m0 s → inv m0 (drop_task i s).
Proof.
  intros [H1 Hsh Hown Hal Hv Hu Hap Hw Hn Ho Hwr Hr Hc]. split; simpl; try done;
    try (intros; by_task; by eauto).
  - intros b Hb. destruct (Hap b Hb) as (? & ? & Hx). split_and!; [done..|]. intros; by_task; eauto.
  - intros j t Ht E. by_task. destruct (Hw _ _ Ht E) as (? & ? & Hx). split_and!; [done..|].
    intros j' u Hu'. by_task. eauto.
Qed.
Lemma inv_answer m0 t res s :
  (res = Ok tt → valid_location (location t) = true ∧ covered s t) → inv m0 s → inv m0 (answer t res s).
Proof.
  intros Hres [H1 Hsh Hown Hal Hv Hu Hap Hw Hn Ho Hwr Hr Hc]. split; simpl; try done.
  intros t' Ht'. apply elem_of_app in Ht' as [?|Heq]; [eauto|].
  apply list_elem_of_singleton in Heq. simplify_eq. eauto.
Qed.

(** A change of phase of a call that has its reference. *)
Lemma inv_set_phase m0 i t p s :
  inv m0 s → tasks s !! i = Some t → has_ref t → pending t →
  match p with
  | Versioned => False
  | Issued => True
  | Writing =>
      valid_location (location t) = true ∧
      (∃ l, last_written s !! inner_lock_ref t = Some l ∧ l < version t) ∧
      ∀ j u, tasks s !! j = Some u → at_phase u = Writing → inner_lock_ref u ≠ inner_lock_ref t
  | Written res => res = Ok tt → valid_location (location t) = true ∧ covered s t
  end → inv m0 (set_task i (at_ p t) s).
Proof.
  intros [H1 Hsh Hown Hal Hv Hu Hap Hw Hn Ho Hwr Hr Hc] Hi Href Hpe Hp. split; simpl; try done.
  - intros j t' Ht' Hr'. by_task; [|eauto]. by apply (Hsh i t).
  - intros j t' Ht'. by_task; [|eauto]. destruct (Hv _ _ Hi) as [? Hx]. split; [done|]. intros _. by apply Hx.
  - intros j j' t' u Ht' Hu' E. by_task; [done|..]; eauto.
  - intros b Hb. destruct (Hap b Hb) as (? & ? & Hx). split_and!; [done..|].
    intros j t' Ht' Hpe'. by_task; eauto.
  - intros j t' Ht' E. by_task.
    + subst p. destruct Hp as (? & ? & Hx). split_and!; [done..|]. intros j u Hu' E' Er. by_task; [done|].
      exfalso. by eapply Hx.
    + destruct (Hw _ _ Ht' E) as (? & ? & Hx). split_and!; [done..|].
      intros j' u Hu' E' Er. by_task; [|eauto]. subst p. destruct Hp as (_ & _ & Hy). exfalso. by eapply Hy.
  - intros j t' b Ht' Hr' Hb Ha E Hpr. by_task; [|eauto]. by apply (Hn i t b).
  - intros j t' Ht' E. by_task; [|eauto]. subst p. by apply Hp.
Qed.

Lemma lock_free_spec r s :
  lock_free r s = true ↔ ∀ j u, tasks s !! j = Some u → at_phase u = Writing → inner_lock_ref u ≠ r.
Proof.
  unfold lock_free. rewrite bool_decide_eq_true, Forall_forall. split.
  - intros H j u Hu Hp Hr. assert (is_writing r u = false) as Hw.
    { apply H, list_elem_of_fmap. exists (j, u). split; [done|]. by apply elem_of_map_to_list. }
    unfold is_writing in Hw. rewrite Hp, bool_decide_eq_true_2 in Hw; done.
  - intros H u Hu. apply list_elem_of_fmap in Hu as ([j u'] & -> & Hj%elem_of_map_to_list). simpl.
    unfold is_writing. destruct (at_phase u') eqn:Hp; try done.
    apply bool_decide_eq_false_2. eauto.
Qed.

Lemma inv_begin_write m0 i s s' : inv m0 s → begin_write i s = Some s' → inv m0 s'.
Proof.
  intros HI. unfold begin_write. destruct (tasks s !! i) as [t|] eqn:Hi; simpl; [|done].
  destruct (at_phase t) eqn:Hp; try done.
  destruct (valid_location (location t)) eqn:Hval; simpl; [|done].
  destruct (lock_free (inner_lock_ref t) s) eqn:Hf; [|done]. pose proof (proj1 (lock_free_spec _ _) Hf) as Hf'.
  destruct (last_written s !! inner_lock_ref t) as [l|] eqn:Hl; simpl; [|done]. intros [= <-].
  assert (has_ref t) as Href by (unfold has_ref; congruence).
  apply inv_set_phase; [done..|unfold pending; by rewrite Hp|].
  destruct (Z.leb_spec (version t) l) as [Hst|Hlt]; [|by eauto 10].
  intros _. split; [done|].
  pose proof (inv_shared _ _ HI i t Hi Href) as Hk.
  destruct (inv_alloc _ _ HI _ _ Hk) as (_ & l' & Hl' & Hb). simplify_eq.
  destruct (inv_versions _ _ HI i t Hi) as [Hv _].
  destruct Hb as [->|(b & Hb & Hack & Hkb & <- & Hvb)]; [lia|]. exists b. split_and!; [done..|].
  destruct (inv_applied _ _ HI b Hb) as (_ & _ & Hne).
  left. assert (version b ≠ version t); [|lia]. apply (Hne i t Hi). unfold pending. by rewrite Hp.
Qed.

Lemma StronglySorted_snoc {A} (R : relation A) xs y :
  StronglySorted R xs → Forall (λ x, R x y) xs → StronglySorted R (xs ++ [y]).
Proof.
  induction 1 as [|x xs Hs IH Hx]; intros Hy; simpl; [by repeat constructor|].
  inversion Hy; subst. constructor; [by apply IH|]. apply Forall_app. auto.
Qed.

Lemma covered_snoc s s' u t : applied s' = applied s ++ [u] → covered s t → covered s' t.
Proof. intros E (b & Hb & H). exists b. rewrite E. set_solver. Qed.

(** The write of a call that holds its lock is later than all it must not overwrite. *)
Lemma writing_newest m0 i t s b :
  inv m0 s → tasks s !! i = Some t → at_phase t = Writing → b ∈ applied s → acknowledged b →
  key b = key t → ¬ precedes t b.
Proof.
  intros HI Hi Hp Hb Hack Hk Hpr. assert (has_ref t) as Href by (unfold has_ref; congruence).
  destruct (inv_newer _ _ HI i t b Hi Href Hb Hack Hk Hpr) as (l & Hl & Hle).
  destruct (inv_writing _ _ HI i t Hi Hp) as (_ & (l' & Hl' & Hlt) & _). simplify_eq.
  destruct (inv_versions _ _ HI i t Hi) as [_ Hx]. specialize (Hx Href). unfold precedes in Hpr. lia.
Qed.

(** The last written versions after the callback, for the later tasks of the lock. *)
Definition last_after (w : reply) t s : gmap nat Z :=
  if is_ok (answered w) then <[inner_lock_ref t := version t]> (last_written s) else last_written s.

Lemma last_after_grows m0 w i t s r l :
  inv m0 s → tasks s !! i = Some t → at_phase t = Writing → last_written s !! r = Some l →
  ∃ l', last_after w t s !! r = Some l' ∧ l ≤ l'.
Proof.
  intros HI Hi Hp Hr. destruct (inv_writing _ _ HI i t Hi Hp) as (_ & (l' & Hl & Hlt) & _).
  unfold last_after. destruct (is_ok _); [|by eauto with lia].
  destruct (decide (inner_lock_ref t = r)) as [<-|Hne].
  - exists (version t). rewrite lookup_insert_eq. simplify_eq. split; [done|lia].
  - exists l. rewrite lookup_insert_ne by done. split; [done|lia].
Qed.

Lemma newer_after_write m0 w i t s j u b :
  inv m0 s → tasks s !! i = Some t → at_phase t = Writing →
  tasks s !! j = Some u → has_ref u → b ∈ applied s ++ [at_ (Written (answered w)) t] →
  acknowledged b → key b = key u → precedes u b →
  ∃ l, last_after w t s !! inner_lock_ref u = Some l ∧ version b ≤ l.
Proof.
  intros HI Hi Hp Hj Hr Hb Hack E Hpr.
  assert (has_ref t) as Href by (unfold has_ref; congruence).
  apply elem_of_app in Hb as [Hb| ->%list_elem_of_singleton].
  - destruct (inv_newer _ _ HI j u b Hj Hr Hb Hack E Hpr) as (l & Hl & Hle).
    destruct (last_after_grows m0 w i t s _ l HI Hi Hp Hl) as (l' & Hl' & Hle'). eauto with lia.
  - exists (version t). assert (inner_lock_ref t = inner_lock_ref u) as <-.
    { pose proof (inv_shared _ _ HI i t Hi Href) as H1. pose proof (inv_shared _ _ HI j u Hj Hr) as H2.
      change (key (at_ _ t)) with (key t) in E. congruence. }
    unfold acknowledged in Hack. simpl in Hack. injection Hack as Hack. unfold last_after. rewrite Hack. simpl.
    by rewrite lookup_insert_eq.
Qed.

(** A write that takes effect, known or not. *)
Lemma inv_take_effect m0 w i t s :
  inv m0 s → tasks s !! i = Some t → at_phase t = Writing →
  inv m0 (mkStore (next_write_version s) (write_version_locks s) (last_after w t s) (next_ref s)
    (<[i := at_ (Written (answered w)) t]> (tasks s)) (effect (wanted t) (location t) (contents s))
    (applied s ++ [at_ (Written (answered w)) t]) (results s)).
Proof.
  intros HI Hi Hp. assert (has_ref t) as Href by (unfold has_ref; congruence).
  assert (pending t) as Hpe by (unfold pending; by rewrite Hp).
  pose proof (writing_newest m0 i t s) as Hnew.
  pose proof (λ j u b, newer_after_write m0 w i t s j u b HI Hi Hp) as Hlater.
  pose proof (λ r l, last_after_grows m0 w i t s r l HI Hi Hp) as Hgrow.
  destruct HI as [H1 Hsh Hown Hal Hv Hu Hap Hw Hn Ho Hwr Hr Hc] eqn:HIeq. clear HIeq.
  destruct (Hw i t Hi Hp) as (Hval & (l & Hl & Hlt) & Hone).
  destruct (Hv i t Hi) as [Hvt Hvx]. specialize (Hvx Href).
  set (t' := at_ _ t) in *. set (s' := mkStore _ _ _ _ _ _ _ _).
  assert (acknowledged t' → covered s' t') as Hct
    by (intros Ha; exists t'; unfold s'; simpl; split_and!; [set_solver|done..|by right]).
  split; unfold s'; simpl; try done.
  - intros j u Hj Hr'. by_task; [by apply (Hsh i t)|eauto].
  - intros k r Hk. destruct (Hal _ _ Hk) as (? & l' & Hl' & Hb). split; [done|].
    assert (l' = 0 ∨ ∃ b, b ∈ applied s ++ [t'] ∧ acknowledged b ∧ key b = k ∧ version b = l' ∧
      valid_location (location b) = true) as Hb'
      by (destruct Hb as [->|(b & ? & ?)]; [by left|right; exists b; set_solver]).
    unfold last_after. destruct (answered w) as [[]| |] eqn:Hans; simpl; [|by eauto..].
    destruct (decide (inner_lock_ref t = r)) as [<-|Hne]; [|rewrite lookup_insert_ne by done; by eauto].
    exists (version t). rewrite lookup_insert_eq. split; [done|]. right. exists t'.
    split_and!; [set_solver|done| |done..].
    eapply Hown; [by apply (Hsh i t)|done].
  - intros j u Hj. by_task; eauto.
  - intros j j' u u' Hj Hj' E. by_task; [done|..]; eauto.
  - intros b Hb. apply elem_of_app in Hb as [Hb|Hb].
    + destruct (Hap b Hb) as (? & ? & Hx). split_and!; [done..|]. intros j u Hj Hpu. by_task; [done|eauto].
    + apply list_elem_of_singleton in Hb as ->. split_and!; [simpl; lia..|].
      intros j u Hj Hpu E. by_task; [done|]. eauto.
  - intros j u Hj E. by_task; [done|]. destruct (Hw _ _ Hj E) as (? & (l' & Hl' & ?) & Hx).
    split_and!; [done| |].
    + exists l'. unfold last_after. destruct (is_ok _); [|done].
      rewrite lookup_insert_ne; [done|]. intros Er. apply H. by eapply Hone.
    + intros j' u' Hj'. by_task; [done|eauto].
  - intros j u b Hj Hr' Hb Ha E Hpr. by_task; [by apply (Hlater i t b)|eauto].
  - apply StronglySorted_snoc; [done|]. apply Forall_forall. intros b Hb. split.
    + intros Ha E. apply (Hnew b); by try split.
    + exact (proj2 (proj2 (Hap b Hb)) i t Hi Hpe).
  - intros j u Hj E. by_task; [split; [done|by apply Hct]|]. destruct (Hwr _ _ Hj E). split; [done|].
    by eapply covered_snoc.
  - intros u Hu'. destruct (Hr _ Hu'). split; [done|]. by eapply covered_snoc.
  - unfold replay. by rewrite foldl_app, Hc.
Qed.

Lemma inv_end_write m0 i w s s' : inv m0 s → end_write i w s = Some s' → inv m0 s'.
Proof.
  intros HI. unfold end_write. destruct (tasks s !! i) as [t|] eqn:Hi; simpl; [|done].
  destruct (at_phase t) eqn:Hp; try done.
  destruct (took_effect w) eqn:Hw; intros [= <-]; [by apply (inv_take_effect m0 w)|].
  destruct w; try done. apply inv_set_phase; [done..|unfold has_ref; congruence| |done].
  unfold pending. by rewrite Hp.
Qed.

(** A lock that only its last call uses is held by nobody else. *)
Lemma length_filter_two {A} `{Countable K} (m : gmap K A) (P : K * A → bool) i j x y :
  m !! i = Some x → m !! j = Some y → i ≠ j → P (i, x) = true → P (j, y) = true →
  (2 ≤ length (List.filter P (map_to_list m)))%nat.
Proof.
  intros Hi Hj Hne Pi Pj. change 2%nat with (length [(i, x); (j, y)]). apply submseteq_length.
  apply NoDup_submseteq.
  - repeat constructor; set_solver.
  - intros z Hz. apply list_elem_of_In, filter_In.
    assert (z = (i, x) ∨ z = (j, y)) as [->| ->] by set_solver;
      (split; [|done]); apply list_elem_of_In, elem_of_map_to_list; done.
Qed.

Lemma last_reference m0 i j t u s :
  inv m0 s → tasks s !! i = Some t → has_ref t → strong_count (inner_lock_ref t) s = 2%nat →
  tasks s !! j = Some u → has_ref u → inner_lock_ref u = inner_lock_ref t → i = j.
Proof.
  intros HI Hi Hrt Hc Hj Hru Er. destruct (decide (i = j)) as [|Hne]; [done|exfalso].
  assert (∀ v, has_ref v → inner_lock_ref v = inner_lock_ref t → refers (inner_lock_ref t) v = true) as Hrf.
  { intros v Hv E. unfold refers. destruct (at_phase v) eqn:Hp; [done|..]; by apply bool_decide_eq_true_2. }
  pose proof (inv_shared _ _ HI i t Hi Hrt) as Hl.
  pose proof (length_filter_two (tasks s) (λ '(_, v), refers (inner_lock_ref t) v) i j t u Hi Hj Hne
    (Hrf t Hrt eq_refl) (Hrf u Hru Er)) as H2.
  assert ((key t, inner_lock_ref t) ∈ List.filter (λ '(_, r'), bool_decide (r' = inner_lock_ref t))
    (map_to_list (write_version_locks s))) as Hin.
  { apply list_elem_of_In, filter_In. split; [by apply list_elem_of_In, elem_of_map_to_list|].
    by apply bool_decide_eq_true_2. }
  unfold strong_count in Hc. destruct (List.filter _ (map_to_list (write_version_locks s))); [set_solver|].
  simpl in Hc. lia.
Qed.

Lemma inv_unlock m0 i t s :
  inv m0 s → tasks s !! i = Some t → has_ref t → strong_count (inner_lock_ref t) s = 2%nat →
  inv m0 (drop_task i (mkStore (next_write_version s) (delete (key t) (write_version_locks s))
    (last_written s) (next_ref s) (tasks s) (contents s) (applied s) (results s))).
Proof.
  intros HI Hi Href Hc. pose proof (λ j u, last_reference m0 i j t u s HI Hi Href Hc) as Hlast.
  pose proof (inv_shared _ _ HI i t Hi Href) as Hl.
  apply (inv_drop _ i) in HI as [H1 Hsh Hown Hal Hv Hu Hap Hw Hn Ho Hwr Hr Hx].
  split; simpl in *; try done.
  - intros j u Hj Hru. pose proof (Hsh _ _ Hj Hru) as Hk. rewrite lookup_delete_ne; [done|]. intros E.
    rewrite <- E in Hk. apply lookup_delete_Some in Hj as [Hne Hj]. apply Hne, (Hlast j u); [done..|congruence].
  - intros k k' r [_ Hk]%lookup_delete_Some [_ Hk']%lookup_delete_Some. eauto.
  - intros k r [_ Hk]%lookup_delete_Some. eauto.
Qed.

Lemma inv_act m0 a s s' : inv m0 s → act a s = Some s' → inv m0 s'.
Proof.
  intros HI. destruct a as [i k c|i|i|i|i|i w|i]; simpl.
  - by apply inv_take_version.
  - by apply inv_take_ref.
  - unfold abandon. destruct (tasks s !! i) as [t|]; simpl; [|done]. case_match; try done.
    intros [= <-]. by apply inv_drop.
  - unfold reject. destruct (tasks s !! i) as [t|]; simpl; [|done]. repeat case_match; try done.
    intros [= <-]. apply inv_answer; [done|by apply inv_drop].
  - by apply inv_begin_write.
  - by apply inv_end_write.
  - unfold clean_locks. destruct (tasks s !! i) as [t|] eqn:Hi; simpl; [|done].
    destruct (at_phase t) as [| | |res] eqn:Hp; try done. intros [= <-].
    apply inv_answer.
    + intros ->. destruct (inv_written _ _ HI i t Hi Hp) as [? Hcov]. split; [done|]. exact Hcov.
    + case_decide as Hc; [apply inv_unlock; [done..|unfold has_ref; congruence|done]|].
      destruct s. by apply inv_drop.
Qed.

Lemma inv_run m0 acts s s' : inv m0 s → run acts s = Some s' → inv m0 s'.
Proof.
  revert s. induction acts as [|a acts IH]; intros s HI; simpl; [by intros [= <-]|].
  destruct (act a s) as [s1|] eqn:Ha; simpl; [|done]. apply IH. by eapply inv_act.
Qed.

(** Where no answer is lost every write that takes effect is acknowledged. *)
Definition loses_answer (a : action) : bool :=
  match a with EndWrite _ AnswerLost => true | _ => false end.

Lemma act_acknowledged a s s' :
  loses_answer a = false → act a s = Some s' → Forall acknowledged (applied s) →
  Forall acknowledged (applied s').
Proof.
  intros Ha Hact Hs. destruct a as [i k c|i|i|i|i|i w|i]; simpl in Hact;
    unfold take_version, take_ref, abandon, reject, begin_write, end_write, clean_locks,
      get_inner_lock_ref in Hact;
    repeat (case_match || (apply bind_Some in Hact; destruct Hact as (? & ? & Hact))); simplify_eq; try done;
    destruct w; simpl in *; try done; apply Forall_app; by repeat constructor.
Qed.
Lemma run_acknowledged acts s s' :
  existsb loses_answer acts = false → run acts s = Some s' → Forall acknowledged (applied s) →
  Forall acknowledged (applied s').
Proof.
  revert s. induction acts as [|a acts IH]; intros s Ha; simpl; [by intros [= <-]|].
  apply orb_false_iff in Ha as [Ha Has]. destruct (act a s) as [s1|] eqn:Hact; simpl; [|done].
  intros Hrun Hs. apply (IH s1); [done..|]. by eapply act_acknowledged.
Qed.

Lemma replay_other m ts k :
  Forall (λ t, location t ≠ k) ts → replay m ts !! k = m !! k.
Proof.
  revert m. induction ts as [|t ts IH]; intros m Hts; [done|]. inversion Hts; subst. simpl.
  rewrite IH by done. destruct (wanted t); simpl; [by rewrite lookup_insert_ne|by rewrite lookup_delete_ne].
Qed.

Lemma StronglySorted_split {A} (R : relation A) pre x post :
  StronglySorted R (pre ++ x :: post) → Forall (R x) post.
Proof.
  induction pre as [|y pre IH]; simpl; intros Hs; inversion Hs; subst; auto.
Qed.

Definition stored (c : change) : option bytes :=
  match c with Write buf => Some buf | Remove => None end.

(** *** A call that meets no other one *)

Lemma take_ref_lone m0 i k c s :
  inv m0 s → tasks s = {[ i := mkTask (next_write_version s - 1) k c 0 0 Versioned ]} →
  ∃ s' r l, take_ref i s = Some s' ∧ last_written s' !! r = Some l ∧
    tasks s' = {[ i := mkTask (next_write_version s - 1) k c r (next_write_version s) Issued ]} ∧
    l < next_write_version s - 1 ∧ contents s' = contents s ∧ results s' = results s.
Proof.
  intros HI Ht. assert (tasks s !! i = Some (mkTask (next_write_version s - 1) k c 0 0 Versioned)) as Hi
    by (rewrite Ht; apply lookup_singleton_eq).
  destruct (inv_versions _ _ HI _ _ Hi) as [Hv _]. simpl in Hv.
  unfold take_ref. rewrite Hi. simpl. unfold get_inner_lock_ref.
  destruct (write_version_locks s !! build_locking_key k) as [r|] eqn:Hr.
  - destruct (inv_alloc _ _ HI _ _ Hr) as (_ & l & Hl & Hb). eexists _, r, l.
    split_and!; [done|done|simpl; by rewrite Ht, insert_singleton_eq| |done..].
    destruct Hb as [->|(b & Hb & _ & _ & <- & _)]; [lia|].
    destruct (inv_applied _ _ HI b Hb) as (_ & ? & Hne). specialize (Hne i _ Hi I). simpl in Hne. lia.
  - eexists _, (next_ref s), 0. split_and!; [done|simpl; apply lookup_insert_eq| |lia|done..].
    simpl. by rewrite Ht, insert_singleton_eq.
Qed.

(** A call that meets no other one answers, and does what the interface of the key-value
    store promises where no answer is lost: its success took effect, its failure changed
    nothing. *)
Theorem lone_call m0 acts s i k c w :
  run acts (new m0) = Some s → tasks s = ∅ → valid_location k = true →
  next_write_version s < u64_max →
  ∃ s' t, run [TakeVersion i k c; TakeRef i; BeginWrite i; EndWrite i w; CleanLocks i] s = Some s' ∧
    location t = k ∧ wanted t = c ∧ tasks s' = ∅ ∧
    results s' = results s ++ [(t, answered w)] ∧
    contents s' = if took_effect w then effect c k (contents s) else contents s.
Proof.
  intros Hrun Ht Hk Hmax. apply (inv_run m0) in Hrun as HI; [|apply inv_new].
  assert (∃ s1, take_version i k c s = Some s1 ∧ next_write_version s1 = next_write_version s + 1 ∧
    tasks s1 = {[ i := mkTask (next_write_version s1 - 1) k c 0 0 Versioned ]} ∧
    contents s1 = contents s ∧ results s1 = results s) as (s1 & Hs1 & Hn1 & Ht1 & Hc1 & Hr1).
  { unfold take_version. rewrite Ht, lookup_empty, decide_False by (intros [? ?]; done).
    destruct (Z.eqb_spec (next_write_version s) u64_max) as [|_]; [lia|].
    eexists. split_and!; [done|done| |done|done]. simpl. by replace (_ + 1 - 1) with (next_write_version s) by lia. }
  destruct (take_ref_lone m0 i k c s1) as (s2 & r & l & Hs2 & Hl & Ht2 & Hlt & Hc2 & Hr2);
    [by eapply inv_take_version|done|].
  assert (lock_free r s2 = true) as Hf.
  { apply lock_free_spec. rewrite Ht2. intros j u [<- <-]%lookup_singleton_Some. done. }
  simpl. rewrite Hs1. simpl. rewrite Hs2. simpl. unfold begin_write.
  rewrite Ht2, lookup_singleton_eq. simpl. rewrite Hk, Hf, Hl. simpl.
  destruct (Z.leb_spec (next_write_version s1 - 1) l) as [|_]; [lia|].
  unfold end_write. simpl. rewrite Ht2, insert_singleton_eq, lookup_singleton_eq. simpl.
  destruct w; simpl; unfold clean_locks; simpl; rewrite ?Ht2, ?insert_singleton_eq, ?lookup_singleton_eq; simpl;
    (eexists _, (mkTask (next_write_version s1 - 1) k c r (next_write_version s1) (Written _));
     split_and!; [done|done|done|simpl..]); rewrite ?Ht2, ?insert_singleton_eq, ?delete_singleton_eq;
    by rewrite ?Hr2, ?Hr1, ?Hc2, ?Hc1.
Qed.

Section ordered.
Context {SNS : StoreNamesSpec}.

Lemma covered_location m0 s t :
  inv m0 s → (t, Ok tt) ∈ results s →
  ∃ b, b ∈ applied s ∧ acknowledged b ∧ location b = location t ∧
    (version t < version b ∨ version b = version t ∧ wanted b = wanted t).
Proof.
  intros HI Ht. destruct (inv_results _ _ HI t Ht) as (Hval & b & Hb & Ha & Hk & Hvb & Hx).
  exists b. split_and!; [done|done|by apply locking_key_inj|done].
Qed.

(** C7. However the steps of any number of concurrent writes and removals interleave,
    with whatever of them failing, rejected, abandoned or done with the answer lost, and
    although versions are drawn and locks taken in two steps and unused locks are removed: a
    write never takes effect after an acknowledged one of the same location whose call began
    when it was over; a call that answers success took effect or gave way to a later version
    that was acknowledged; and if every other write that took
    effect at the location of a successful call was over before that call began, the
    location holds what that call wrote.  Where no answer is lost every write that took
    effect is an acknowledged one. *)
Theorem later_call_wins m0 acts s :
  run acts (new m0) = Some s →
  contents s = replay m0 (applied s) ∧
  (existsb loses_answer acts = false → Forall acknowledged (applied s)) ∧
  (∀ pre b mid a post, applied s = pre ++ b :: mid ++ a :: post → acknowledged b →
     location b = location a → ¬ precedes a b) ∧
  (∀ t, (t, Ok tt) ∈ results s → ∃ b, b ∈ applied s ∧ acknowledged b ∧ location b = location t ∧
     (version t < version b ∨ version b = version t ∧ wanted b = wanted t)) ∧
  (∀ z, (z, Ok tt) ∈ results s →
     (∀ u, u ∈ applied s → location u = location z → version u ≠ version z → precedes u z) →
     contents s !! location z = stored (wanted z)).
Proof.
  intros Hrun. apply (inv_run m0) in Hrun as HI; [|apply inv_new].
  split_and!; [by apply inv_contents|intros Hl; by eapply run_acknowledged| |intros t; by apply (covered_location m0)|].
  - intros pre b mid a post E Hack Hl. pose proof (inv_order _ _ HI) as Ho. rewrite E in Ho.
    apply StronglySorted_split in Ho. rewrite Forall_app, Forall_cons in Ho.
    destruct Ho as (_ & [Ho _] & _). apply Ho; [done|]. unfold key. by rewrite Hl.
  - intros z Hz Hother. destruct (covered_location m0 s z HI Hz) as (b & Hb & Hack & Hl & Hv).
    destruct (inv_applied _ _ HI b Hb) as (Hib & _).
    assert (version b = version z ∧ wanted b = wanted z) as [Ev Ew].
    { destruct Hv as [Hlt|]; [|done]. specialize (Hother b Hb Hl). unfold precedes in Hother. lia. }
    rewrite (inv_contents _ _ HI). apply list_elem_of_split in Hb as (pre & post & E).
    pose proof (inv_order _ _ HI) as Ho. rewrite E in Ho. apply StronglySorted_split in Ho.
    rewrite E. unfold replay. rewrite foldl_app. simpl. fold (replay).
    rewrite <- Hl, <- Ew. etrans; [apply replay_other|].
    + apply Forall_forall. intros a Ha Hla. rewrite Forall_forall in Ho. destruct (Ho a Ha) as [Hp Hne].
      apply Hp; [done|unfold key; congruence|]. unfold precedes. rewrite Ev. apply Hother; [|congruence..].
      rewrite E. set_solver.
    + destruct (wanted b); simpl; [by rewrite lookup_insert_eq|by rewrite lookup_delete_eq].
Qed.
End ordered.
End steps.
End WriteOrder.
