(* ===== verification/SqliteStore.v ===== *)
(** * The SQLite backend ([src/io/sqlite_store/mod.rs], [src/io/sqlite_store/migrations.rs])

    The database file with its schema version and table, opening it with the migration of
    an older schema, the statements of the store, and the names of its locks.  Statements
    may fail; a transaction that fails is rolled back.  The ordering of concurrent writes is
    in [WriteOrder]. *)

From S2P Require Import Prelude KVStore Config IoUtils WriteOrder.

Module SqliteStore.

Definition SCHEMA_USER_VERSION : Z := 2.

(** ** The database *)

(** The table, with whether [secondary_namespace] is part of its primary key. *)
Record table := mkTable { keyed_by_secondary : bool; rows : gmap kv_key bytes }.
(** The table of schema version 1 has the columns [namespace], [key] and [value] and the
    primary key [(namespace, key)]. *)
Inductive schema :=
| Schema1 (rows : gmap (string * string) bytes)
| Schema2 (t : table).
Record database := mkDatabase { user_version : Z; kv_table : option schema }.
Implicit Types (db : database) (t : table).

Definition empty_file : database := mkDatabase 0 None.

(** What the file holds, a row of schema 1 under the empty secondary namespace. *)
Definition rows_of_schema1 (m : gmap (string * string) bytes) : gmap kv_key bytes :=
  kmap (λ '(namespace, key), (namespace, EmptyString, key)) m.
Definition data db : gmap kv_key bytes :=
  match kv_table db with
  | Some (Schema1 m) => rows_of_schema1 m
  | Some (Schema2 t) => rows t
  | None => ∅
  end.

(** ** Statements *)

(** [INSERT OR REPLACE]: rows with the same primary key make way. *)
Definition same_primary_key t (a b : kv_key) : bool :=
  bool_decide (a.1.1 = b.1.1) && bool_decide (a.2 = b.2) &&
  (negb (keyed_by_secondary t) || bool_decide (a.1.2 = b.1.2)).
Definition insert_or_replace (k : kv_key) (value : bytes) t : table :=
  mkTable (keyed_by_secondary t)
    (<[k := value]> (filter (λ '(k', _), same_primary_key t k k' = false) (rows t))).
Definition delete_row (k : kv_key) t : table :=
  mkTable (keyed_by_secondary t) (delete k (rows t)).
(** [ALTER TABLE .. RENAME COLUMN] and [ADD]: the primary key stays that of the columns it
    was declared with. *)
Definition add_secondary_namespace (s : schema) : schema :=
  match s with
  | Schema1 m => Schema2 (mkTable false (rows_of_schema1 m))
  | Schema2 t => Schema2 t
  end.
(** [CREATE TABLE IF NOT EXISTS] *)
Definition create_table (o : option schema) : schema :=
  match o with Some s => s | None => Schema2 (mkTable true ∅) end.

(** ** Opening *)

(** What succeeds while the store is opened. *)
Record open_io := mkOpenIo {
  dir_created : bool;
  file_opened : bool;
  version_set : bool;
  renamed : bool;
  column_added : bool;
  version_raised : bool;
  committed : bool;
  table_created : bool;
}.
Implicit Types (io : open_io).
Abbreviation dbcmd A := (cmd database ErrorKind A).

(** [migrations::migrate_schema]; renaming a column of a missing table fails. *)
Definition migrate_schema io (from_version to_version : Z) : dbcmd unit :=
  if negb (from_version <? to_version) then λ db, (db, Panic)
  else if (from_version =? 1) && (to_version =? 2) then
    with_state (λ db,
      match kv_table db with
      | Some s =>
          if renamed io && column_added io && version_raised io && committed io
          then modify (λ _, mkDatabase to_version (Some (add_secondary_namespace s)))
          else fail KindOther
      | None => fail KindOther
      end)
  else mret tt.

(** [SqliteStoreInner::new] *)
Definition open io : dbcmd unit :=
  if negb (dir_created io) then fail KindOther
  else if negb (file_opened io) then fail KindOther
  else with_state (λ db,
    (* [row.get(0).unwrap()] as [u16] *)
    version_res ← lift (if (0 <=? user_version db) && (user_version db <=? u16_max)
                        then Ok (user_version db) else Panic);
    _ ← (if version_res =? 0 then
           if version_set io then modify (λ db, mkDatabase SCHEMA_USER_VERSION (kv_table db))
           else fail KindOther
         else if version_res <? SCHEMA_USER_VERSION then
           migrate_schema io version_res SCHEMA_USER_VERSION
         else if SCHEMA_USER_VERSION <? version_res then fail KindOther
         else mret tt);
    if table_created io then modify (λ db, mkDatabase (user_version db) (Some (create_table (kv_table db))))
    else fail KindOther).

(** ** The store *)

Section store.
(** LDK's longest name and its alphabet. *)
Context (KVSTORE_NAMESPACE_KEY_MAX_LEN : nat) (in_alphabet : Ascii.ascii → bool).
Context {O : IterOrder kv_key}.

(** [stmt_ok]: preparing and running the statement succeeded. *)
Definition read_internal (stmt_ok : bool) (k : kv_key) t : outcome ErrorKind bytes :=
  _ ← check_location KVSTORE_NAMESPACE_KEY_MAX_LEN in_alphabet k;
  if stmt_ok then ok_or (rows t !! k) KindNotFound else Err KindOther.
Definition list_internal (stmt_ok : bool) (primary_namespace secondary_namespace : string) t :
    outcome ErrorKind (list string) :=
  _ ← check_namespace_key_validity KVSTORE_NAMESPACE_KEY_MAX_LEN in_alphabet
        primary_namespace secondary_namespace None;
  if stmt_ok then
    Ok (snd <$> List.filter
          (λ k, bool_decide (k.1 = (primary_namespace, secondary_namespace))) (keys (rows t)))
  else Err KindOther.

(** The statement in the callback of [write_internal] and [remove_internal]. *)
Definition run_statement (c : WriteOrder.change) (k : kv_key) t : table :=
  match c with
  | WriteOrder.Write buf => insert_or_replace k buf t
  | WriteOrder.Remove => delete_row k t
  end.

Definition build_locking_key (k : kv_key) : string :=
  k.1.1 +:+ String hash (k.1.2 +:+ String hash k.2).

#[local] Instance sqlite_names : StoreNames := {
  WriteOrder.build_locking_key := build_locking_key;
  valid_location k := is_ok (check_location KVSTORE_NAMESPACE_KEY_MAX_LEN in_alphabet k);
}.

(** ** What opening does to the data *)

(** The schema version tells the form of the table. *)
Definition well_formed db : Prop :=
  match kv_table db with
  | None => 0 ≤ user_version db
  | Some (Schema1 _) => user_version db = 1
  | Some (Schema2 _) => SCHEMA_USER_VERSION ≤ user_version db
  end.

Lemma migrate_cases io db :
  migrate_schema io 1 2 db = (db, Err KindOther) ∨
  ∃ s, kv_table db = Some s ∧
    migrate_schema io 1 2 db = (mkDatabase 2 (Some (add_secondary_namespace s)), Ok tt).
Proof.
  unfold migrate_schema, with_state. simpl. destruct (kv_table db) as [s|]; [|by left].
  case_match; [right; by exists s|by left].
Qed.

Ltac solve_open :=
  split_and!; first [done | lia | by left | by right | by eauto | intros; exfalso; lia].

(** C33. Opening a well-formed database leaves a well-formed one that holds the same data,
    rows of the older schema under the empty secondary namespace, also where a statement
    fails at any point, so that opening it again finds everything.  It succeeds only with
    the current schema, refuses a newer schema version without touching the file, and a
    migration that fails is undone as a whole. *)
Theorem open_keeps_data io db db' r :
  well_formed db → open io db = (db', r) →
  well_formed db' ∧ data db' = data db ∧
  match r with
  | Ok _ => user_version db' = SCHEMA_USER_VERSION ∧ ∃ t, kv_table db' = Some (Schema2 t)
  | Err _ => db' = db ∨ user_version db' = SCHEMA_USER_VERSION
  | Panic => db' = db ∧ ¬ is_u16 (user_version db)
  end ∧
  (SCHEMA_USER_VERSION < user_version db → db' = db ∧ r ≠ Ok tt).
Proof.
  intros Hwf. unfold open, SCHEMA_USER_VERSION in *.
  destruct (dir_created io); simpl; [|intros [= <- <-]; by auto].
  destruct (file_opened io); simpl; [|intros [= <- <-]; by auto].
  unfold with_state, mbind, cmd_bind, well_formed, data, SCHEMA_USER_VERSION in *.
  destruct db as [version tb]. unfold lift. simpl in *.
  destruct ((0 <=? version) && (version <=? u16_max)) eqn:H16.
  2:{ intros [= <- <-]. apply andb_false_iff in H16. unfold is_u16. simpl. solve_open. }
  destruct (Z.eqb_spec version 0) as [->|H0].
  { destruct tb as [[]|]; [lia..|].
    destruct (version_set io), (table_created io); simpl; intros [= <- <-]; simpl;
      solve_open. }
  destruct (Z.ltb_spec version 2) as [H2|H2].
  { assert (version = 1) as -> by (destruct tb as [[]|]; lia).
    destruct (migrate_cases io (mkDatabase 1 tb)) as [->|(s & Hs & ->)].
    - intros [= <- <-]. solve_open.
    - simpl in Hs. subst tb. destruct s; simpl in *; [|lia].
      destruct (table_created io); simpl; intros [= <- <-]; simpl; solve_open. }
  destruct (Z.ltb_spec 2 version) as [H3|H3].
  { intros [= <- <-]. solve_open. }
  assert (version = 2) as -> by lia.
  destruct (table_created io); simpl; intros [= <- <-]; simpl.
  - destruct tb as [[]|]; simpl; solve_open.
  - solve_open.
Qed.

Lemma insert_or_replace_keyed k value m :
  rows (insert_or_replace k value (mkTable true m)) = <[k := value]> m.
Proof.
  apply map_eq. intros k'. simpl. destruct (decide (k = k')) as [<-|Hk];
    [by rewrite !lookup_insert_eq|]. rewrite !lookup_insert_ne by done.
  apply option_eq. intros v. rewrite map_lookup_filter_Some. split; [by intros []|].
  intros Hv. split; [done|]. unfold same_primary_key. simpl.
  destruct k as [[p s] k], k' as [[p' s'] k']. simpl.
  destruct (decide (p = p')), (decide (k = k')), (decide (s = s')); simplify_eq;
    repeat first [rewrite bool_decide_eq_true_2 by done | rewrite bool_decide_eq_false_2 by done]; done.
Qed.

(** On a table created with schema 2 the statements are what [WriteOrder] takes them to be. *)
Lemma run_statement_effect c k t :
  keyed_by_secondary t = true → rows (run_statement c k t) = WriteOrder.effect c k (rows t).
Proof.
  intros Hk. destruct t as [b m]. simpl in Hk. subst b.
  destruct c; simpl; [apply insert_or_replace_keyed|done].
Qed.

Lemma open_migrated io m db :
  open io (mkDatabase 1 (Some (Schema1 m))) = (db, Ok tt) →
  kv_table db = Some (Schema2 (mkTable false (rows_of_schema1 m))).
Proof.
  unfold open. destruct (dir_created io), (file_opened io); try done.
  unfold with_state, mbind, cmd_bind, lift, SCHEMA_USER_VERSION. cbn -[migrate_schema].
  change (1 <=? u16_max) with true. cbn -[migrate_schema].
  destruct (migrate_cases io (mkDatabase 1 (Some (Schema1 m)))) as [->|(sc & Hs & ->)]; [done|].
  simpl in Hs. injection Hs as <-. destruct (table_created io); [|done]. by intros [= <-].
Qed.
Lemma open_created io db :
  open io empty_file = (db, Ok tt) → kv_table db = Some (Schema2 (mkTable true ∅)).
Proof.
  unfold open. destruct (dir_created io), (file_opened io); try done.
  unfold with_state, mbind, cmd_bind, lift. simpl.
  destruct (version_set io), (table_created io); try done. by intros [= <-].
Qed.

Definition run_statements (cs : list (WriteOrder.change * kv_key)) t : table :=
  foldl (λ t '(c, k), run_statement c k t) t cs.
Lemma run_statements_keyed cs t : keyed_by_secondary (run_statements cs t) = keyed_by_secondary t.
Proof.
  revert t. induction cs as [|[c k] cs IH]; intros t; [done|].
  change (run_statements ((c, k) :: cs) t) with (run_statements cs (run_statement c k t)).
  rewrite IH. by destruct c.
Qed.

(** C32. A table migrated from schema 1 keeps the primary key [(namespace, key)]: whatever was
    stored before, storing a value removes the row of the same primary namespace and key
    under any other secondary namespace, so that two accounts' data replace each other; on a
    table created with schema 2 storing a value changes nothing else. *)
Theorem migrated_rows_collide io m cs t p s s' k value :
  s ≠ s' →
  (∀ db, open io (mkDatabase 1 (Some (Schema1 m))) = (db, Ok tt) → kv_table db = Some (Schema2 t) →
     rows (run_statement (WriteOrder.Write value) (p, s, k) (run_statements cs t)) !! (p, s', k) = None) ∧
  (∀ db, open io empty_file = (db, Ok tt) → kv_table db = Some (Schema2 t) →
     rows (run_statement (WriteOrder.Write value) (p, s, k) (run_statements cs t))
       = <[(p, s, k) := value]> (rows (run_statements cs t))).
Proof.
  intros Hne. split; intros db Hopen Ht.
  - apply open_migrated in Hopen. rewrite Ht in Hopen. injection Hopen as ->.
    simpl. rewrite lookup_insert_ne by congruence. apply map_lookup_filter_None. right. intros v _.
    unfold same_primary_key. simpl. rewrite run_statements_keyed. simpl. by rewrite !bool_decide_eq_true_2.
  - apply open_created in Hopen. rewrite Ht in Hopen. injection Hopen as ->.
    rewrite run_statement_effect by (by rewrite run_statements_keyed). done.
Qed.

(** ** Names and listing *)

Section names.
Context (hash_not_allowed : in_alphabet hash = false).

Lemma sqlite_names_spec : StoreNamesSpec (SN := sqlite_names).
Proof.
  split. intros [[p s] k] [[p' s'] k'] Ha Hb. apply (check_location_Ok _ _ hash_not_allowed) in Ha as (H1 & H2 & _ & _), Hb as (H3 & H4 & _ & _).
  cbn. unfold build_locking_key. simpl in *. intros E.
  apply hash_split in E as [-> E]; [|done..]. apply hash_split in E as [-> ->]; done.
Qed.
End names.

Lemma list_internal_exact p s t ks :
  list_internal true p s t = Ok ks → NoDup ks ∧ ∀ k, k ∈ ks ↔ is_Some (rows t !! (p, s, k)).
Proof.
  unfold list_internal. intros Hl. inv_outcome.
  assert (∀ k' : kv_key, k' ∈ List.filter (λ k, bool_decide (k.1 = (p, s))) (keys (rows t)) ↔
    k'.1 = (p, s) ∧ is_Some (rows t !! k')) as Hf.
  { intros k'. rewrite list_elem_of_In, filter_In, <- list_elem_of_In, elem_of_keys, bool_decide_eq_true. tauto. }
  split.
  - apply NoDup_fmap_2_strong; [|apply NoDup_ListNoDup, List.NoDup_filter, NoDup_ListNoDup, NoDup_keys].
    intros [? k1] [? k2] [E1 _]%Hf [E2 _]%Hf E. simpl in *. congruence.
  - intros k. rewrite list_elem_of_fmap. split.
    + intros ([ps k'] & -> & [E Hk]%Hf). simpl in *. by subst ps.
    + intros Hk. exists (p, s, k). split; [done|]. by apply Hf.
Qed.
End store.
End SqliteStore.
