(* ===== verification/VssStore.v ===== *)
(** * The VSS backend ([src/io/vss_store.rs])

    Names under which the store keeps its objects at the server in both schema versions,
    reading and writing sealed objects, listing by pages, and the choice of the schema
    version when the store is opened.  The server's objects are a map from names; its
    answers, the obfuscation of names, the sealing of data and HMAC are parameters.  The
    ordering of concurrent writes is in [WriteOrder]. *)

From S2P Require Import Prelude KVStore Config IoUtils WriteOrder.

(** [vss_client]'s [KeyObfuscator], [Storable] and [StorableBuilder]: [build] takes fresh
    entropy, data and what the object is bound to. *)
Class VssCrypto (Storable : Type) := {
  obfuscate : string → string;
  deobfuscate : string → outcome ErrorKind string;
  encode_to_vec : Storable → bytes;
  decode_storable : bytes → option Storable;
  build : bytes → bytes → string → Storable;
  deconstruct : Storable → string → outcome ErrorKind bytes;
}.
(** Obfuscated names are base64 text and can be read back; objects can be read back and open
    with what they are bound to and with nothing else. *)
Class VssCryptoSpec (Storable : Type) {VC : VssCrypto Storable} : Prop := {
  deobfuscate_obfuscate : ∀ s, deobfuscate (obfuscate s) = Ok s;
  obfuscate_no_hash : ∀ s, no_hash (obfuscate s) = true;
  decode_encode : ∀ x, decode_storable (encode_to_vec x) = Some x;
  deconstruct_build : ∀ e b a, deconstruct (build e b a) a = Ok b;
  deconstruct_bound : ∀ e b a a', a ≠ a' → ∃ err, deconstruct (build e b a) a' = Err err;
}.

Module VssStore.

Inductive VssSchemaVersion := V0 | V1.
#[global] Instance VssSchemaVersion_eq_dec : EqDecision VssSchemaVersion.
Proof. solve_decision. Defined.

Section names.
Context {Storable : Type} {VC : VssCrypto Storable}.
Implicit Types (version : VssSchemaVersion).

Definition build_locking_key (k : kv_key) : string :=
  let '(primary_namespace, secondary_namespace, key) := k in
  if decide (primary_namespace = EmptyString) then key
  else primary_namespace +:+ String hash (secondary_namespace +:+ String hash key).

Definition build_obfuscated_prefix version (primary_namespace secondary_namespace : string) : string :=
  let prefix := primary_namespace +:+ String hash secondary_namespace in
  match version with V1 => obfuscate prefix | V0 => prefix end.

Definition build_obfuscated_key version (k : kv_key) : string :=
  let '(primary_namespace, secondary_namespace, key) := k in
  let obfuscated_key := obfuscate key in
  match version with
  | V1 => build_obfuscated_prefix V1 primary_namespace secondary_namespace
            +:+ String hash obfuscated_key
  | V0 =>
      if decide (primary_namespace = EmptyString) then obfuscated_key
      else primary_namespace +:+ String hash (secondary_namespace +:+ String hash obfuscated_key)
  end.

(** What follows the first [#]: the next part of [splitn]. *)
Fixpoint after_hash (s : string) : option string :=
  match s with
  | EmptyString => None
  | String c s => if Ascii.eqb c hash then Some s else after_hash s
  end.
Definition extract_key version (unified_key : string) : outcome ErrorKind string :=
  let part := match version with
              | V1 => after_hash unified_key
              | V0 => after_hash unified_key ≫= after_hash
              end in
  obfuscated_key ← ok_or part KindInvalidData;
  deobfuscate obfuscated_key.

(** ** Objects *)

(** What an object is bound to. *)
Definition aad version (store_key : string) : string :=
  match version with V1 => store_key | V0 => EmptyString end.

(** The server's answer to [get_object]. *)
Inductive get_answer := Found (value : bytes) | NoSuchKey | Failed.
Definition get_object (answers : bool) (store_key : string) (m : gmap string bytes) : get_answer :=
  if answers then match m !! store_key with Some v => Found v | None => NoSuchKey end else Failed.

Context (KVSTORE_NAMESPACE_KEY_MAX_LEN : nat) (in_alphabet : Ascii.ascii → bool).

Definition read_internal version (answers : bool) (k : kv_key) (m : gmap string bytes) :
    outcome ErrorKind bytes :=
  _ ← check_location KVSTORE_NAMESPACE_KEY_MAX_LEN in_alphabet k;
  let store_key := build_obfuscated_key version k in
  match get_object answers store_key m with
  | Found value =>
      storable ← ok_or (decode_storable value) KindOther;
      deconstruct storable (aad version store_key)
  | NoSuchKey => Err KindNotFound
  | Failed => Err KindOther
  end.

(** The request in the callback of [write_internal] and [remove_internal]. *)
Definition request version (entropy : bytes) (c : WriteOrder.change) (k : kv_key)
    (m : gmap string bytes) : gmap string bytes :=
  let store_key := build_obfuscated_key version k in
  match c with
  | WriteOrder.Write buf => 
      <[store_key := encode_to_vec (build entropy buf (aad version store_key))]> m
  | WriteOrder.Remove => delete store_key m
  end.

(** ** Listing *)

Section list_all_keys.
(** [list_key_versions] for a prefix and a page token: the names of the page and the next
    token, or an error. *)
Context (list_key_versions : string → option string → option (list string * option string)).

(** The loop, with [fuel] rounds; the outer [None] is a loop that has not ended yet. *)
Fixpoint list_pages version (fuel : nat) (key_prefix : string) (page_token : option string)
    (names : list string) : option (outcome ErrorKind (list string)) :=
  match fuel with
  | O => None
  | S fuel =>
      if decide (page_token = Some EmptyString) then Some (Ok names)
      else
        match list_key_versions key_prefix page_token with
        | None => Some (Err KindOther)
        | Some (page, next_page_token) =>
            match try_map (extract_key version) page with
            | Ok more => list_pages version fuel key_prefix next_page_token (names ++ more)
            | Err e => Some (Err e)
            | Panic => Some Panic
            end
        end
  end.
Definition list_all_keys version (fuel : nat) (primary_namespace secondary_namespace : string) :
    option (outcome ErrorKind (list string)) :=
  list_pages version fuel (build_obfuscated_prefix version primary_namespace secondary_namespace)
    None [].
Definition list_internal version (fuel : nat) (primary_namespace secondary_namespace : string) :
    option (outcome ErrorKind (list string)) :=
  match check_namespace_key_validity KVSTORE_NAMESPACE_KEY_MAX_LEN in_alphabet
          primary_namespace secondary_namespace None with
  | Ok _ => map_err (λ _, KindOther) <$> list_all_keys version fuel primary_namespace secondary_namespace
  | Err e => Some (Err e)
  | Panic => Some Panic
  end.
End list_all_keys.

(** ** Keys *)

(** [derive_data_encryption_and_obfuscation_keys], over HMAC of a salt and an input. *)
Definition text (s : string) : bytes := String.list_byte_of_string s.
Definition derive_data_encryption_and_obfuscation_keys (hmac : bytes → bytes → bytes)
    (vss_seed : bytes) : bytes * bytes :=
  let prk := hmac (text "pseudo_random_key") vss_seed in
  let k1 := hmac (text "data_encryption_key") prk in
  let k2 := hmac (k1 ++ text "obfuscation_key") prk in
  (k1, k2).

#[local] Instance vss_names : StoreNames := {
  WriteOrder.build_locking_key := build_locking_key;
  valid_location k := is_ok (check_location KVSTORE_NAMESPACE_KEY_MAX_LEN in_alphabet k);
}.

(** ** Names *)

Section laws.
Context {VCS : VssCryptoSpec Storable} (hash_not_allowed : in_alphabet hash = false).

Abbreviation valid k := (is_ok (check_location KVSTORE_NAMESPACE_KEY_MAX_LEN in_alphabet k) = true).

Lemma after_hash_app s r : no_hash s = true → after_hash (s +:+ String hash r) = Some r.
Proof.
  induction s as [|c s IH]; intros Hs; [done|]. unfold no_hash, all_chars in *. cbn in Hs.
  change (String c s +:+ String hash r) with (String c (s +:+ String hash r)). cbn.
  apply andb_true_iff in Hs as [Hc Hs]. destruct (Ascii.eqb c hash); [done|]. by apply IH.
Qed.
Lemma after_hash_None s : no_hash s = true → after_hash s = None.
Proof.
  induction s as [|c s IH]; intros Hs; [done|]. unfold no_hash, all_chars in *. cbn in Hs |- *.
  apply andb_true_iff in Hs as [Hc Hs]. destruct (Ascii.eqb c hash); [done|]. by apply IH.
Qed.
Lemma obfuscate_inj s s' : obfuscate s = obfuscate s' → s = s'.
Proof.
  intros E. pose proof (deobfuscate_obfuscate s) as H. rewrite E, deobfuscate_obfuscate in H. by injection H.
Qed.

Lemma build_obfuscated_key_inj version a b :
  valid a → valid b → build_obfuscated_key version a = build_obfuscated_key version b → a = b.
Proof.
  destruct a as [[p s] k], b as [[p' s'] k'].
  intros (P1 & S1 & _ & E1)%(check_location_Ok _ _ hash_not_allowed)
    (P2 & S2 & _ & E2)%(check_location_Ok _ _ hash_not_allowed). simpl in *.
  destruct version.
  - case_decide as Hp; case_decide as Hp'; intros E.
    + apply obfuscate_inj in E. rewrite (E1 Hp), (E2 Hp'). congruence.
    + exfalso. pose proof (obfuscate_no_hash k) as H. by rewrite E, hash_in in H.
    + exfalso. pose proof (obfuscate_no_hash k') as H. by rewrite <- E, hash_in in H.
    + apply hash_split in E as [-> E]; [|done..]. apply hash_split in E as [-> E]; [|done..].
      by apply obfuscate_inj in E as ->.
  - intros E. apply hash_split in E as [Ep Ek]; [|apply obfuscate_no_hash..].
    apply obfuscate_inj in Ek as ->. apply obfuscate_inj in Ep.
    apply hash_split in Ep as [-> ->]; done.
Qed.

Lemma vss_names_spec : StoreNamesSpec (SN := vss_names).
Proof.
  split. intros [[p s] k] [[p' s'] k'] Ha Hb.
  apply (check_location_Ok _ _ hash_not_allowed) in Ha as (P1 & S1 & K1 & E1), Hb as (P2 & S2 & K2 & E2).
  cbn. simpl in *. case_decide as Hp; case_decide as Hp'; intros E.
  - rewrite (E1 Hp), (E2 Hp'). congruence.
  - by rewrite E, hash_in in K1.
  - by rewrite <- E, hash_in in K2.
  - apply hash_split in E as [-> E]; [|done..]. by apply hash_split in E as [-> ->].
Qed.

(** A listed name gives back the key it was built from in schema version 1, and in
    version 0 for a key with a primary namespace; the name of a key without one is refused
    there, so that listing it fails. *)
Theorem extract_built_key version k :
  valid k →
  extract_key version (build_obfuscated_key version k) =
    if decide (version = V0 ∧ k.1.1 = EmptyString) then Err KindInvalidData else Ok k.2.
Proof.
  destruct k as [[p s] k]. intros (P & S & _ & _)%(check_location_Ok _ _ hash_not_allowed). simpl in *.
  unfold extract_key, build_obfuscated_key.
  destruct (decide (version = V0 ∧ p = EmptyString)) as [[-> ->]|Hd].
  - rewrite decide_True by done. by rewrite after_hash_None by apply obfuscate_no_hash.
  - destruct version.
    + rewrite decide_False by tauto. rewrite after_hash_app by done. simpl. rewrite after_hash_app by done.
      apply deobfuscate_obfuscate.
    + rewrite after_hash_app by apply obfuscate_no_hash. apply deobfuscate_obfuscate.
Qed.

(** What is written can be read at its location and changes what is read nowhere else, a
    removed object is not found; in schema version 1 an object moved to another name is
    refused. *)
Theorem objects_bound version e c k k' m :
  valid k → valid k' →
  let m' := request version e c k m in
  read_internal version true k m' =
    match c with WriteOrder.Write buf => Ok buf | WriteOrder.Remove => Err KindNotFound end ∧
  (k ≠ k' → read_internal version true k' m' = read_internal version true k' m) ∧
  (version = V1 → k ≠ k' → ∀ buf, c = WriteOrder.Write buf →
     ∀ v, m' !! build_obfuscated_key V1 k = Some v →
     ∃ err, read_internal V1 true k' (<[build_obfuscated_key V1 k' := v]> m') = Err err).
Proof.
  intros Hk Hk'. assert (∀ j, valid j → check_location KVSTORE_NAMESPACE_KEY_MAX_LEN in_alphabet j = Ok tt) as Hc.
  { intros j. by destruct (check_location _ _ j) as [[]| |]. }
  assert (k ≠ k' → build_obfuscated_key version k ≠ build_obfuscated_key version k') as Hinj.
  { intros Hne E. by apply Hne, (build_obfuscated_key_inj version). }
  unfold read_internal, get_object, request. rewrite !Hc by done. simpl. split_and!.
  - destruct c; [|by rewrite lookup_delete_eq].
    rewrite lookup_insert_eq, decode_encode. apply deconstruct_build.
  - intros Hne. specialize (Hinj Hne). destruct c; [by rewrite lookup_insert_ne|by rewrite lookup_delete_ne].
  - intros -> Hne buf -> v. rewrite lookup_insert_eq. intros [= <-].
    rewrite lookup_insert_eq, decode_encode. simpl. by apply deconstruct_bound, Hinj.
Qed.

(** ** Listing *)

Section listing.
Context (list_key_versions : string → option string → option (list string * option string)).

(** The pages a server hands out for a prefix, from a token on. *)
Inductive served (prefix : string) : option string → list (list string) → Prop :=
| ServedEnd : served prefix (Some EmptyString) []
| ServedPage token page next pages :
    token ≠ Some EmptyString → list_key_versions prefix token = Some (page, next) →
    served prefix next pages → served prefix token (page :: pages).

Lemma try_map_app {E A B} (f : A → outcome E B) xs ys :
  try_map f (xs ++ ys) = (xs' ← try_map f xs; (λ ys', xs' ++ ys') <$> try_map f ys).
Proof.
  induction xs as [|x xs IH]; cbn; [by destruct (try_map f ys)|].
  destruct (f x); cbn; [|done..]. rewrite IH. destruct (try_map f xs); cbn; [|done..].
  by destruct (try_map f ys).
Qed.

Lemma list_pages_served version prefix token pages fuel names :
  served prefix token pages → (length pages < fuel)%nat →
  list_pages list_key_versions version fuel prefix token names =
    Some ((λ more, names ++ more) <$> try_map (extract_key version) (concat pages)).
Proof.
  intros Hs. revert fuel names. induction Hs as [|token page next pages Ht Hl _ IH]; intros [|fuel] names Hf;
    simpl in Hf; [lia| |lia|]; cbn [list_pages].
  - rewrite decide_True by done. cbn. by rewrite app_nil_r.
  - rewrite decide_False, Hl by done. cbn [concat]. rewrite try_map_app.
    destruct (try_map (extract_key version) page) as [more|e|]; cbn; [|done..].
    rewrite IH by lia. destruct (try_map (extract_key version) (concat pages)); cbn; [|done..].
    by rewrite app_assoc.
Qed.

(** C34. Listing a namespace ends after as many rounds as the server has pages and gives the
    keys of all names of all pages in order, or the error of the first name that cannot be
    read; with a server that leaves out the token of the next page it never ends, however
    many rounds it has. *)
Theorem listing_ends version p s :
  (∀ pages fuel, served (build_obfuscated_prefix version p s) None pages → (length pages < fuel)%nat →
     list_all_keys list_key_versions version fuel p s =
       Some (try_map (extract_key version) (concat pages))) ∧
  (∀ page ks, list_key_versions (build_obfuscated_prefix version p s) None = Some (page, None) →
     try_map (extract_key version) page = Ok ks →
     ∀ fuel, list_all_keys list_key_versions version fuel p s = None).
Proof.
  unfold list_all_keys. split.
  - intros pages fuel Hs Hf. rewrite (list_pages_served _ _ _ pages) by done.
    by destruct (try_map _ _).
  - intros page ks Hl Hk fuel. generalize (@nil string).
    induction fuel as [|fuel IH]; intros names; cbn; [done|]. rewrite Hl, Hk. apply IH.
Qed.
End listing.

Lemma append_assoc (a b c : string) : (a +:+ b) +:+ c = a +:+ (b +:+ c).
Proof. induction a as [|x a IH]; [done|]. change (String x ((a +:+ b) +:+ c) = String x (a +:+ (b +:+ c))). by rewrite IH. Qed.
Lemma prefix_append (a b : string) : String.prefix a (a +:+ b) = true.
Proof.
  induction a as [|x a IH]; [by destruct b|]. change (String x a +:+ b) with (String x (a +:+ b)).
  cbn. by destruct (Ascii.ascii_dec x x).
Qed.

(** In schema version 0 the prefix of a namespace is also a prefix of the names of every
    namespace whose secondary name continues it: listing one lists the keys of the other
    too, and listing with an empty secondary namespace those of all of the primary one. *)
Theorem v0_listing_mixes p s x k :
  valid (p, s +:+ x, k) → p ≠ EmptyString →
  String.prefix (build_obfuscated_prefix V0 p s) (build_obfuscated_key V0 (p, s +:+ x, k)) = true ∧
  extract_key V0 (build_obfuscated_key V0 (p, s +:+ x, k)) = Ok k.
Proof.
  intros (P & S & _ & _)%(check_location_Ok _ _ hash_not_allowed) Hp. simpl in *.
  rewrite decide_False by done. split.
  - replace (p +:+ String hash ((s +:+ x) +:+ String hash (obfuscate k)))
      with ((p +:+ String hash s) +:+ (x +:+ String hash (obfuscate k))); [apply prefix_append|].
    rewrite !append_assoc. by change (String hash s +:+ ?r) with (String hash (s +:+ r)).
  - unfold extract_key. rewrite after_hash_app by done. simpl. rewrite after_hash_app by done.
    apply deobfuscate_obfuscate.
Qed.

End laws.

Section schema.
(** ** The schema version *)

Definition VSS_SCHEMA_VERSION_KEY : string := "vss_schema_version".
Definition V0_BDK_WALLET_PREFIX : string := "bdk_wallet#".
Definition schema_store_key : string :=
  obfuscate (EmptyString +:+ String hash EmptyString) +:+ String hash (obfuscate VSS_SCHEMA_VERSION_KEY).

(** The TLV form of the schema version. *)
Context (encode : VssSchemaVersion → bytes) (decode : bytes → option VssSchemaVersion).

(** Which requests the server answers. *)
Record schema_io := mkSchemaIo { get_answers : bool; list_answers : bool; put_answers : bool; entropy : bytes }.
Definition any_with_prefix (prefix : string) (m : gmap string bytes) : bool :=
  existsb (λ '(name, _), String.prefix prefix name) (map_to_list m).

Definition determine_and_write_schema_version (io : schema_io) :
    cmd (gmap string bytes) ErrorKind VssSchemaVersion :=
  with_state (λ m,
    match get_object (get_answers io) schema_store_key m with
    | Failed => fail KindOther
    | Found value =>
        storable ← lift (ok_or (decode_storable value) KindOther);
        decrypted ← lift (map_err (λ _, KindOther) (deconstruct storable schema_store_key));
        lift (ok_or (decode decrypted) KindOther)
    | NoSuchKey =>
        if negb (list_answers io) then fail KindOther
        else if any_with_prefix V0_BDK_WALLET_PREFIX m then mret V0
        else if put_answers io then
          _ ← modify (insert schema_store_key
                        (encode_to_vec (build (entropy io) (encode V1) schema_store_key)));
          mret V1
        else fail KindOther
    end).

Context {VCS : VssCryptoSpec Storable} (decode_encode_version : ∀ v, decode (encode v) = Some v).

(** Opening the store decides the schema version for good: it writes nothing unless it
    finds neither a stored version nor wallet data, then it stores version 1; any later
    opening, whatever other objects were added, changed or removed meanwhile, decides the
    same as long as the stored version (or, for version 0, some wallet data) is there. *)
Theorem schema_version_stable io io' m m1 version :
  determine_and_write_schema_version io m = (m1, Ok version) →
  (m1 = m ∨ version = V1 ∧ m !! schema_store_key = None ∧
     m1 = <[schema_store_key := encode_to_vec (build (entropy io) (encode V1) schema_store_key)]> m) ∧
  (∀ m2, get_answers io' = true → list_answers io' = true →
     m2 !! schema_store_key = m1 !! schema_store_key →
     (m1 !! schema_store_key = None → any_with_prefix V0_BDK_WALLET_PREFIX m2 = true) →
     determine_and_write_schema_version io' m2 = (m2, Ok version)).
Proof.
  unfold determine_and_write_schema_version, with_state, get_object. intros H.
  destruct (get_answers io); [|done]. destruct (m !! schema_store_key) as [value|] eqn:Hm.
  - assert (m1 = m) as ->.
    { revert H. unfold mbind, cmd_bind, lift. by repeat (case_match; try done); intros [= <- _]. }
    split; [by left|]. intros m2 -> _ Hm2 _. rewrite Hm2, Hm. revert H. unfold mbind, cmd_bind, lift.
    destruct (ok_or (decode_storable value) KindOther); [|done..]. destruct (map_err _ _); [|done..].
    by intros [= ->].
  - destruct (list_answers io); simpl in H; [|done].
    destruct (any_with_prefix V0_BDK_WALLET_PREFIX m) eqn:Hp.
    + injection H as <- <-. split; [by left|]. intros m2 -> -> Hm2 Hw. rewrite Hm2, Hm. simpl. by rewrite Hw.
    + destruct (put_answers io); [|done]. injection H as <- <-. split; [by right|].
      intros m2 -> _ Hm2 _. rewrite Hm2, lookup_insert_eq. unfold mbind, cmd_bind, lift.
      rewrite decode_encode. simpl. rewrite deconstruct_build. simpl. by rewrite decode_encode_version.
Qed.
End schema.
End names.
End VssStore.
