(* ===== verification/LocalGraphStore.v ===== *)
(** * The local cache of the network graph ([src/io/local_graph_store.rs])

    A wrapper around the key-value store that keeps the network graph in a file with a
    header: the file's format, its reading and writing, and the store's operations.  The
    wrapped store is the interface [KVStore]; what the file system does is an input; LDK's
    [NetworkGraph::read] is a parameter. *)

From S2P Require Import Prelude KVStore.

Module LocalGraphStore.

(** [b"LGNC"], version 1, then the timestamp: nine bytes. *)
Definition LOCAL_GRAPH_CACHE_MAGIC : bytes := [Byte.x4c; Byte.x47; Byte.x4e; Byte.x43].
Definition LOCAL_GRAPH_CACHE_VERSION : u8 := Byte.x01.
Definition LOCAL_GRAPH_CACHE_HEADER_SIZE : nat := 9.

(** [u32::to_be_bytes] and [u32::from_be_bytes] *)
Definition to_be_bytes (n : Z) : bytes :=
  [Z_to_u8 (n / 16777216); Z_to_u8 (n / 65536 mod 256); Z_to_u8 (n / 256 mod 256); Z_to_u8 (n mod 256)].
Definition from_be_bytes (a b c d : u8) : Z :=
  u8_to_Z a * 16777216 + u8_to_Z b * 65536 + u8_to_Z c * 256 + u8_to_Z d.

(** The file, and what the file system answers: [fs::write] may fail after any number of
    bytes. *)
Abbreviation file := (option bytes).
Inductive fs_write := WriteOk | NoDirectory | WriteFails (after : nat).
Inductive fs_remove := RemoveOk | RemoveFails.

(** ** The format *)

Definition cache_bytes (graph_bytes : bytes) (rgs_timestamp : Z) : bytes :=
  LOCAL_GRAPH_CACHE_MAGIC ++ [LOCAL_GRAPH_CACHE_VERSION] ++ to_be_bytes rgs_timestamp ++ graph_bytes.

Definition write_local_graph_cache_bytes (fs : fs_write) (graph_bytes : bytes) (rgs_timestamp : Z) :
    cmd file ErrorKind unit := λ f,
  let cache_data := cache_bytes graph_bytes rgs_timestamp in
  match fs with
  | NoDirectory => (f, Err KindOther)
  | WriteOk => (Some cache_data, Ok tt)
  | WriteFails n => (Some (take n cache_data), Err KindOther)
  end.

(** The checks of the header; [fs::read] of a missing file answers [NotFound], and it may
    fail otherwise. *)
Definition split_header (readable : bool) (f : file) : outcome ErrorKind (Z * bytes) :=
  data ← (if readable then ok_or f KindNotFound else Err KindOther);
  if decide (length data < LOCAL_GRAPH_CACHE_HEADER_SIZE)%nat then Err KindInvalidData
  else if decide (take 4 data ≠ LOCAL_GRAPH_CACHE_MAGIC) then Err KindInvalidData
  else match drop 4 data with
       | v :: a :: b :: c :: d :: rest =>
           if decide (v ≠ LOCAL_GRAPH_CACHE_VERSION) then Err KindInvalidData
           else Ok (from_be_bytes a b c d, rest)
       | _ => Panic
       end.

Definition read_local_graph_cache_bytes (readable : bool) (f : file) : outcome ErrorKind bytes :=
  snd <$> split_header readable f.

Section cache.
Context {Graph : Type} (read_graph : bytes → option Graph).
Record LocalGraphCacheData := mkCacheData { graph : Graph; rgs_timestamp : Z }.
Definition read_local_graph_cache (readable : bool) (f : file) : outcome ErrorKind LocalGraphCacheData :=
  '(timestamp, graph_data) ← split_header readable f;
  graph ← ok_or (read_graph graph_data) KindInvalidData;
  Ok (mkCacheData graph timestamp).
End cache.

(** ** The store *)

(** LDK's location of the network graph. *)
Section store.
Context {S : Type} {KV : KVStore S} (NETWORK_GRAPH_KEY : kv_key).

Record LocalGraphStore := mkStore { inner : S; cache : file; timestamp : Z }.
Implicit Types (s : LocalGraphStore).

Definition is_network_graph (k : kv_key) : bool := bool_decide (k = NETWORK_GRAPH_KEY).

Definition read (readable : bool) (k : kv_key) s : outcome ErrorKind bytes :=
  if is_network_graph k then
    map_err (λ e, if decide (e = KindNotFound) then KindNotFound else KindOther)
      (read_local_graph_cache_bytes readable (cache s))
  else kv_read (inner s) k.

Definition write (fs : fs_write) (k : kv_key) (buf : bytes) : cmd LocalGraphStore ErrorKind unit := λ s,
  if is_network_graph k then
    let '(f, r) := write_local_graph_cache_bytes fs buf (timestamp s) (cache s) in
    (mkStore (inner s) f (timestamp s), map_err (λ _, KindOther) r)
  else
    let '(i, r) := kv_write (inner s) k buf in (mkStore i (cache s) (timestamp s), r).

Definition remove (fs : fs_remove) (k : kv_key) : cmd LocalGraphStore ErrorKind unit := λ s,
  if is_network_graph k then
    match cache s, fs with
    | None, _ => (s, Ok tt)
    | Some _, RemoveOk => (mkStore (inner s) None (timestamp s), Ok tt)
    | Some _, RemoveFails => (s, Err KindOther)
    end
  else
    let '(i, r) := kv_remove (inner s) k in (mkStore i (cache s) (timestamp s), r).

(** ** Reading back *)

Lemma from_to_be_bytes n :
  is_u32 n → ∃ a b c d, to_be_bytes n = [a; b; c; d] ∧ from_be_bytes a b c d = n.
Proof.
  unfold is_u32, u32_max, from_be_bytes, to_be_bytes. intros Hn. do 4 eexists. split; [done|].
  rewrite !u8_to_Z_to_u8 by (Z.to_euclidean_division_equations; lia).
  Z.to_euclidean_division_equations. lia.
Qed.

Lemma split_header_cache graph_bytes n :
  is_u32 n → split_header true (Some (cache_bytes graph_bytes n)) = Ok (n, graph_bytes).
Proof.
  intros Hn. destruct (from_to_be_bytes n Hn) as (a & b & c & d & E & <-).
  unfold split_header, cache_bytes. rewrite E. cbn.
  unfold LOCAL_GRAPH_CACHE_HEADER_SIZE. rewrite decide_False by lia. done.
Qed.

(** What a write that fails or is cut short after [n] bytes leaves. *)
Lemma split_header_torn graph_bytes n k :
  is_u32 n →
  split_header true (Some (take k (cache_bytes graph_bytes n))) =
    if decide (k < LOCAL_GRAPH_CACHE_HEADER_SIZE)%nat then Err KindInvalidData
    else Ok (n, take (k - LOCAL_GRAPH_CACHE_HEADER_SIZE) graph_bytes).
Proof.
  intros Hn. destruct (from_to_be_bytes n Hn) as (a & b & c & d & E & <-).
  unfold split_header, cache_bytes, LOCAL_GRAPH_CACHE_HEADER_SIZE. rewrite E.
  do 9 (destruct k as [|k]; [done|]). cbn. rewrite decide_False by lia. by rewrite Nat.sub_0_r.
Qed.

(** Writing the network graph touches the file only, any other object the wrapped store
    only.  A graph that was written reads back as written, with the timestamp of the write
    for the builder; after a write that failed the old graph, an error or a graph cut short
    is read: the format does not show that bytes are missing at the end. *)
Theorem graph_cache_faithful {Graph : Type} (read_graph : bytes → option Graph) fs k buf s s' r :
  is_u32 (timestamp s) → write fs k buf s = (s', r) →
  if is_network_graph k then
    inner s' = inner s ∧
    match r with
    | Ok _ => read true k s' = Ok buf ∧
        read_local_graph_cache read_graph true (cache s') =
          ((λ g, mkCacheData g (timestamp s)) <$> ok_or (read_graph buf) KindInvalidData)
    | Err e => e = KindOther ∧
        (cache s' = cache s ∨ read true k s' = Err KindOther ∨
         ∃ n, read true k s' = Ok (take n buf))
    | Panic => False
    end
  else cache s' = cache s ∧ (inner s', r) = kv_write (inner s) k buf.
Proof.
  intros Hts. unfold write, read, read_local_graph_cache, read_local_graph_cache_bytes.
  destruct (is_network_graph k) eqn:Hk.
  - destruct fs as [| |n]; intros [= <- <-]; cbn [inner cache map_err]; (split; [done|]).
    + rewrite split_header_cache by done. cbn. by destruct (read_graph buf).
    + auto.
    + split; [done|]. right. rewrite split_header_torn by done. case_decide; [by left|right]. by eexists.
  - destruct (kv_write (inner s) k buf) as [i r']. by intros [= <- <-].
Qed.
End store.
End LocalGraphStore.
