(* ===== verification/SeedFile.v ===== *)
(** * The seed file ([read_or_generate_seed_file] of [src/io/utils.rs])

    Reading the node's seed, or drawing and storing one where there is no file.  What the
    file system and the source of entropy do is an input. *)

From S2P Require Import Prelude KVStore.

Module SeedFile.

Definition WALLET_KEYS_SEED_LEN : nat := 64.

(** Writing may stop after any number of bytes, with an error or by a crash. *)
Inductive written := AllWritten | Stopped (after : nat).
Record seed_io := mkSeedIo {
  readable : outcome ErrorKind unit;
  entropy : option bytes;
  parent_created : outcome ErrorKind unit;
  file_created : outcome ErrorKind unit;
  write_all : written;
  synced : outcome ErrorKind unit;
}.
Implicit Types (io : seed_io).

(** The file, if it exists. *)
Abbreviation file := (option bytes).

Definition read_or_generate_seed_file io : cmd file ErrorKind bytes :=
  with_state (λ f,
    match f with
    | Some seed =>
        _ ← lift (readable io);
        if decide (length seed ≠ WALLET_KEYS_SEED_LEN) then fail KindInvalidData else mret seed
    | None =>
        key ← lift (ok_or (entropy io) KindOther);
        _ ← lift (parent_created io);
        _ ← lift (file_created io);
        match write_all io with
        | Stopped n => λ _, (Some (take n key), Err KindOther)
        | AllWritten =>
            _ ← modify (λ _, Some key);
            _ ← lift (synced io);
            mret key
        end
    end).

(** The entropy source fills the array. *)
Definition fills io : Prop := ∀ key, entropy io = Some key → length key = WALLET_KEYS_SEED_LEN.

(** A seed that was once returned is what the file holds, and every later start that can
    read it returns it; a file that is there is never written to, whatever it holds; and
    when storing a new seed is cut short at any byte, the next start reports invalid data
    or returns exactly that seed: it never draws another one in its place. *)
Theorem seed_never_replaced io io' f f' r :
  fills io → read_or_generate_seed_file io f = (f', r) →
  (∀ key, r = Ok key → f' = Some key ∧ length key = WALLET_KEYS_SEED_LEN ∧
     (readable io' = Ok tt → read_or_generate_seed_file io' f' = (f', Ok key))) ∧
  (is_Some f → f' = f) ∧
  (is_Some f' → readable io' = Ok tt →
     read_or_generate_seed_file io' f' = (f', Err KindInvalidData) ∨
     ∃ key, read_or_generate_seed_file io' f' = (f', Ok key) ∧ (f = Some key ∨ f = None ∧ entropy io = Some key)).
Proof.
  intros Hfill. unfold read_or_generate_seed_file, with_state, mbind, cmd_bind, lift.
  destruct f as [seed|].
  - intros H. assert (f' = Some seed) as ->.
    { revert H. repeat (case_match; try done); by intros [= <- _]. }
    split_and!; [|done|].
    + intros key ->. destruct (readable io); [|done..].
      destruct (decide (length seed ≠ WALLET_KEYS_SEED_LEN)) as [|Hl]; [done|]. injection H as <-.
      apply dec_stable in Hl. split_and!; [done..|]. by intros ->.
    + intros _ ->. case_decide as Hl; [by left|right]. eauto.
  - destruct (entropy io) as [key|] eqn:He; simpl; [|by intros [= <- <-]; split_and!; [|intros []|intros []]].
    specialize (Hfill key He).
    destruct (parent_created io); [|by intros [= <- <-]; split_and!; [|intros []|intros []]..].
    destruct (file_created io); [|by intros [= <- <-]; split_and!; [|intros []|intros []]..].
    destruct (write_all io) as [|n].
    + simpl. intros H. assert (f' = Some key) as -> by (revert H; case_match; by intros [= <- _]).
      split_and!.
      * intros key' ->. destruct (synced io); [|done..]. injection H as <-. split_and!; [done..|].
        intros ->. by rewrite decide_False by tauto.
      * by intros [].
      * intros _ ->. right. exists key. rewrite decide_False by tauto. auto.
    + intros [= <- <-]. split_and!; [done|by intros []|]. intros _ ->.
      case_decide as Hl; [by left|]. right. rewrite length_take in Hl.
      exists key. rewrite take_ge by lia. auto.
Qed.
End SeedFile.
