(* ===== verification/WalletSer.v ===== *)
(** * The stored form of the wallet's change sets ([src/wallet/ser.rs])

    Every part of a BDK change set is stored under its own key as a version byte
    followed by its contents.  LDK's integer, string and collection formats and its
    TLV streams (records of a type, a length and a value, with increasing types) are
    the class [LdkFormat]; bitcoin's and miniscript's printed forms are parameters. *)

From S2P Require Import Prelude KVStore Types IoUtils.

(** ** LDK's formats *)

(** A value format: what is written can be read back from the front of the input,
    for the values the format can represent ([fits]). *)
Class LdkCodec (A : Type) := {
  wr : A → bytes;
  rd : bytes → option (A * bytes);
  fits : A → Prop;
}.
Class LdkCodecSpec (A : Type) {C : LdkCodec A} : Prop := {
  rd_wr : ∀ (a : A) rest, fits a → rd (wr a ++ rest) = Some (a, rest);
}.

Abbreviation tlv_record := (Z * bytes)%type.

Class LdkFormat := {
  bigsize_wr : Z → bytes;
  bigsize_rd : bytes → option (Z * bytes);
  (** The bytes of a stream of records, and the records of a stream that takes up
      all of the given bytes. *)
  tlv_stream : list tlv_record → bytes;
  tlv_records : bytes → option (list tlv_record);
}.

Definition byte_len (bs : bytes) : Z := Z.of_nat (length bs).

Class LdkFormatSpec {F : LdkFormat} : Prop := {
  bigsize_rd_wr : ∀ n rest, is_u64 n → bigsize_rd (bigsize_wr n ++ rest) = Some (n, rest);
  tlv_records_stream : ∀ recs,
    StronglySorted Z.lt recs.*1 → Forall is_u64 recs.*1 → byte_len (tlv_stream recs) ≤ u64_max →
    tlv_records (tlv_stream recs) = Some recs;
  tlv_value_len : ∀ recs r, r ∈ recs → byte_len r.2 ≤ byte_len (tlv_stream recs);
}.

(** The order in which a [BTreeSet] is traversed. *)
Class SetOrder (A : Type) `{Countable A} := {
  set_iter : gset A → list A;
  set_iter_perm : ∀ s, set_iter s ≡ₚ elements s;
}.

(** ** The change sets of BDK *)

Abbreviation DescriptorId := array32.

#[global] Program Instance TxOut_countable : Countable TxOut :=
  inj_countable' (λ o, (value o, script_pubkey o)) (λ '(v, s), mkTxOut v s) _.
Next Obligation. by intros []. Qed.
#[global] Program Instance TxIn_countable : Countable TxIn :=
  inj_countable' (λ i, (previous_output i, script_sig i, sequence i, witness i))
    (λ '(p, s, q, w), mkTxIn p s q w) _.
Next Obligation. by intros []. Qed.
#[global] Program Instance Transaction_countable : Countable Transaction :=
  inj_countable' (λ t, (version t, lock_time t, input t, output t))
    (λ '(v, l, i, o), mkTransaction v l i o) _.
Next Obligation. by intros []. Qed.
#[global] Program Instance BlockId_countable : Countable BlockId :=
  inj_countable' (λ b, (block_height b, block_hash b)) (λ '(h, s), mkBlockId h s) _.
Next Obligation. by intros []. Qed.
#[global] Program Instance ConfirmationBlockTime_countable : Countable ConfirmationBlockTime :=
  inj_countable' (λ c, (block_id c, confirmation_time c))
    (λ '(b, t), mkConfirmationBlockTime b t) _.
Next Obligation. by intros []. Qed.

(** [local_chain::ChangeSet]: a height's new block, or [None] if it was removed. *)
Abbreviation LocalChainChangeSet := (gmap Z (option BlockHash)).

(** [tx_graph::ChangeSet] *)
Record TxGraphChangeSet := mkTxGraphChangeSet {
  txs : gset Transaction;
  txouts : gmap OutPoint TxOut;
  anchors : gset (ConfirmationBlockTime * Txid);
  last_seen : gmap Txid Z;
  first_seen : gmap Txid Z;
  last_evicted : gmap Txid Z;
}.

(** [keychain_txout::ChangeSet] *)
Record IndexerChangeSet := mkIndexerChangeSet {
  last_revealed : gmap DescriptorId Z;
  spk_cache : gmap DescriptorId (gmap Z Script);
}.

Section ser.
Context {F : LdkFormat}.
Context {Descriptor Network : Type}.
(** [Descriptor]'s printed form, and a network's magic bytes. *)
Context (descriptor_to_string : Descriptor → string)
  (descriptor_from_str : string → option Descriptor)
  (magic_bytes : Network → bytes) (from_magic : bytes → option Network).
(** LDK's formats of the parts. *)
Context {CStr : LdkCodec string} {CTx : LdkCodec Transaction} {CHash : LdkCodec (list u8)}.
Context (u32_codec u64_codec : LdkCodec Z).
Context {CBlocks : LdkCodec LocalChainChangeSet} {CTxouts : LdkCodec (gmap OutPoint TxOut)}
  {CSeen : LdkCodec (gmap Txid Z)}.
Context {OTx : SetOrder Transaction} {OAnchor : SetOrder (ConfirmationBlockTime * Txid)}
  {ORevealed : IterOrder DescriptorId}.

Definition CHANGESET_SERIALIZATION_VERSION : u8 := Byte.x01.

(** The version byte in front of every stored change set; another version is
    [DecodeError::UnknownVersion]. *)
Definition versioned {A} (body : bytes → option A) (bs : bytes) : option A :=
  match bs with
  | v :: bs => if decide (v = CHANGESET_SERIALIZATION_VERSION) then body bs else None
  | [] => None
  end.

(** ** LDK's macros *)

(** [decode_tlv_stream!]: the records, unless one of unknown even type is among
    them; [required] and [option] fields, whose value must be used up. *)
Definition decode_tlv_stream (known : list Z) (bs : bytes) : option (list tlv_record) :=
  recs ← tlv_records bs;
  guard (Forall (λ r, r.1 ∈ known ∨ Z.odd r.1 = true) recs);; Some recs.

Definition field (recs : list tlv_record) (t : Z) : option bytes :=
  snd <$> List.find (λ r, r.1 =? t) recs.
Definition whole {A} (r : option (A * bytes)) : option A :=
  '(a, rest) ← r; guard (rest = []);; Some a.
Definition required {A} (read : bytes → option (A * bytes)) (recs : list tlv_record) (t : Z) :
    option A :=
  v ← field recs t; whole (read v).
Definition optional {A} (read : bytes → option (A * bytes)) (recs : list tlv_record) (t : Z) :
    option (option A) :=
  match field recs t with
  | Some v => Some <$> whole (read v)
  | None => Some None
  end.

(** [write_tlv_fields!] and [read_tlv_fields!]: a stream behind its length. *)
Definition write_tlv_fields (recs : list tlv_record) : bytes :=
  bigsize_wr (byte_len (tlv_stream recs)) ++ tlv_stream recs.
Definition read_tlv_fields (known : list Z) (bs : bytes) : option (list tlv_record * bytes) :=
  '(len, bs) ← bigsize_rd bs;
  guard (len ≤ byte_len bs);;
  recs ← decode_tlv_stream known (take (Z.to_nat len) bs);
  Some (recs, drop (Z.to_nat len) bs).

(** [for _ in 0..len] over length-prefixed records. *)
Fixpoint read_records {A} (known : list Z) (read : list tlv_record → option A) (n : nat)
    (bs : bytes) : option (list A * bytes) :=
  match n with
  | O => Some ([], bs)
  | S n =>
      '(recs, bs) ← read_tlv_fields known bs;
      a ← read recs;
      '(rest, bs) ← read_records known read n bs;
      Some (a :: rest, bs)
  end.
Definition write_sized (records : list (list tlv_record)) : bytes :=
  bigsize_wr (Z.of_nat (length records)) ++ concat (write_tlv_fields <$> records).
Definition read_sized {A} (known : list Z) (read : list tlv_record → option A) (bs : bytes) :
    option (list A * bytes) :=
  '(len, bs) ← bigsize_rd bs; read_records known read (Z.to_nat len) bs.

(** ** Descriptors and networks *)

Definition write_descriptor (d : Descriptor) : bytes :=
  CHANGESET_SERIALIZATION_VERSION :: wr (descriptor_to_string d).
Definition read_descriptor : bytes → option Descriptor :=
  versioned (λ bs, '(s, _) ← rd bs; descriptor_from_str s).

(** Byte arrays are written as they are. *)
Definition read_array (n : nat) (bs : bytes) : option (bytes * bytes) :=
  guard (n ≤ length bs)%nat;; Some (take n bs, drop n bs).

Definition write_network (n : Network) : bytes :=
  CHANGESET_SERIALIZATION_VERSION :: magic_bytes n.
Definition read_network : bytes → option Network :=
  versioned (λ bs, '(buf, _) ← read_array 4 bs; from_magic buf).

(** ** The local chain *)

Definition write_local_chain (blocks : LocalChainChangeSet) : bytes :=
  CHANGESET_SERIALIZATION_VERSION :: tlv_stream [(0, wr blocks)].
Definition read_local_chain : bytes → option LocalChainChangeSet :=
  versioned (λ bs, recs ← decode_tlv_stream [0] bs; required rd recs 0).

(** ** The transaction graph *)

Definition write_txs (s : gset Transaction) : bytes :=
  write_sized ((λ tx, [(0, wr tx)]) <$> set_iter s).
Definition read_txs (bs : bytes) : option (gset Transaction * bytes) :=
  '(l, bs) ← read_sized [0] (λ recs, required rd recs 0) bs; Some (list_to_set l, bs).

Definition write_block_id (b : BlockId) : bytes :=
  tlv_stream [(0, @wr _ u32_codec (block_height b)); (2, wr (block_hash b))].
Definition read_block_id (bs : bytes) : option (BlockId * bytes) :=
  recs ← decode_tlv_stream [0; 2] bs;
  height ← required (@rd _ u32_codec) recs 0;
  hash ← required rd recs 2;
  Some ({| block_height := height; block_hash := hash |}, []).

Definition write_block_time (c : ConfirmationBlockTime) : bytes :=
  tlv_stream [(0, write_block_id (block_id c)); (2, @wr _ u64_codec (confirmation_time c))].
Definition read_block_time (bs : bytes) : option (ConfirmationBlockTime * bytes) :=
  recs ← decode_tlv_stream [0; 2] bs;
  block_id ← required read_block_id recs 0;
  confirmation_time ← required (@rd _ u64_codec) recs 2;
  Some ({| block_id := block_id; confirmation_time := confirmation_time |}, []).

Definition anchor_record (a : ConfirmationBlockTime * Txid) : list tlv_record :=
  [(0, write_block_time a.1); (2, wr a.2)].
Definition read_anchor (recs : list tlv_record) : option (ConfirmationBlockTime * Txid) :=
  time ← required read_block_time recs 0; txid ← required rd recs 2; Some (time, txid).
Definition write_anchors (s : gset (ConfirmationBlockTime * Txid)) : bytes :=
  write_sized (anchor_record <$> set_iter s).
Definition read_anchors (bs : bytes) : option (gset (ConfirmationBlockTime * Txid) * bytes) :=
  '(l, bs) ← read_sized [0; 2] read_anchor bs; Some (list_to_set l, bs).

Definition tx_graph_records (g : TxGraphChangeSet) : list tlv_record :=
  [(0, write_txs (txs g)); (1, wr (first_seen g)); (2, wr (txouts g));
   (3, wr (last_evicted g)); (4, write_anchors (anchors g)); (6, wr (last_seen g))].
Definition write_tx_graph (g : TxGraphChangeSet) : bytes :=
  CHANGESET_SERIALIZATION_VERSION :: tlv_stream (tx_graph_records g).
Definition read_tx_graph : bytes → option TxGraphChangeSet :=
  versioned (λ bs,
    recs ← decode_tlv_stream [0; 1; 2; 3; 4; 6] bs;
    txs ← required read_txs recs 0;
    first_seen ← optional rd recs 1;
    txouts ← required rd recs 2;
    last_evicted ← optional rd recs 3;
    anchors ← required read_anchors recs 4;
    last_seen ← required rd recs 6;
    Some {| txs := txs; txouts := txouts; anchors := anchors; last_seen := last_seen;
            first_seen := default ∅ first_seen; last_evicted := default ∅ last_evicted |}).

(** ** The keychain index *)

(** A descriptor id is a record around its 32 bytes. *)
Definition write_descriptor_id (d : DescriptorId) : bytes := tlv_stream [(0, d)].
Definition read_descriptor_id (bs : bytes) : option (DescriptorId * bytes) :=
  recs ← decode_tlv_stream [0] bs;
  hash ← required (read_array 32) recs 0;
  Some (hash, []).

Definition revealed_record (e : DescriptorId * Z) : list tlv_record :=
  [(0, write_descriptor_id e.1); (2, @wr _ u32_codec e.2)].
Definition read_revealed (recs : list tlv_record) : option (DescriptorId * Z) :=
  d ← required read_descriptor_id recs 0; i ← required (@rd _ u32_codec) recs 2; Some (d, i).
Definition write_last_revealed (m : gmap DescriptorId Z) : bytes :=
  write_sized (revealed_record <$> iter m).
Definition read_last_revealed (bs : bytes) : option (gmap DescriptorId Z * bytes) :=
  '(l, bs) ← read_sized [0; 2] read_revealed bs;
  Some (foldl (λ m '(k, v), <[k := v]> m) ∅ l, bs).

(** The script cache is not stored. *)
Definition write_indexer (i : IndexerChangeSet) : bytes :=
  CHANGESET_SERIALIZATION_VERSION :: tlv_stream [(0, write_last_revealed (last_revealed i))].
Definition read_indexer : bytes → option IndexerChangeSet :=
  versioned (λ bs,
    recs ← decode_tlv_stream [0] bs;
    last_revealed ← required read_last_revealed recs 0;
    Some {| last_revealed := last_revealed; spk_cache := ∅ |}).

(** ** Round trips *)

#[local] Arguments whole : simpl never.
#[local] Arguments read_array : simpl never.
#[local] Arguments decode_tlv_stream : simpl never.
#[local] Arguments read_block_id : simpl never.
#[local] Arguments read_block_time : simpl never.
#[local] Arguments read_descriptor_id : simpl never.

Context {FS : LdkFormatSpec}.
Context (descriptor_parse : ∀ d, descriptor_from_str (descriptor_to_string d) = Some d)
  (magic_parse : ∀ n, from_magic (magic_bytes n) = Some n)
  (magic_len : ∀ n, length (magic_bytes n) = 4%nat).
Context {CStrS : LdkCodecSpec string} {CTxS : LdkCodecSpec Transaction}
  {CHashS : LdkCodecSpec (list u8)} {CBlocksS : LdkCodecSpec LocalChainChangeSet}
  {CTxoutsS : LdkCodecSpec (gmap OutPoint TxOut)} {CSeenS : LdkCodecSpec (gmap Txid Z)}
  {U32S : @LdkCodecSpec Z u32_codec} {U64S : @LdkCodecSpec Z u64_codec}.
Context (u32_fits : ∀ n, is_u32 n → @fits _ u32_codec n)
  (u64_fits : ∀ n, is_u64 n → @fits _ u64_codec n)
  (hash_fits : ∀ h : list u8, length h = 32%nat → fits h).

(** The types of a record list, checked by evaluation. *)
Definition types_ok (known : list Z) (recs : list tlv_record) : Prop :=
  StronglySorted Z.lt recs.*1 ∧ Forall (λ t, is_u64 t ∧ t ∈ known) recs.*1.

Lemma decode_tlv_stream_ok known recs :
  types_ok known recs → byte_len (tlv_stream recs) ≤ u64_max →
  decode_tlv_stream known (tlv_stream recs) = Some recs.
Proof.
  intros [Hs Ht] Hl. unfold decode_tlv_stream.
  rewrite tlv_records_stream; [|done|by eapply Forall_impl; [done|intros ? []]|done].
  cbn [mbind option_bind]. rewrite option_guard_True; [done|].
  apply Forall_fmap in Ht. eapply Forall_impl; [done|]. intros r [_ ?]. by left.
Qed.

Lemma whole_rd {A} `{LdkCodecSpec A} (a : A) : fits a → whole (rd (wr a)) = Some a.
Proof. intros Hf. rewrite <- (app_nil_r (wr a)), rd_wr by done. done. Qed.
Lemma whole_Some {A} (a : A) : whole (Some (a, [])) = Some a.
Proof. done. Qed.

Lemma read_tlv_fields_ok known recs rest :
  types_ok known recs → byte_len (tlv_stream recs) ≤ u64_max →
  read_tlv_fields known (write_tlv_fields recs ++ rest) = Some (recs, rest).
Proof.
  intros Ht Hl. unfold read_tlv_fields, write_tlv_fields. rewrite <- app_assoc.
  rewrite bigsize_rd_wr by (unfold is_u64, byte_len in *; lia). cbn [mbind option_bind].
  rewrite option_guard_True by (unfold byte_len; rewrite length_app; lia).
  unfold byte_len. rewrite Nat2Z.id, take_app_length, drop_app_length.
  by rewrite decode_tlv_stream_ok.
Qed.

Lemma read_records_ok {A} known read (rec : A → list tlv_record) xs rest :
  Forall (λ a, types_ok known (rec a) ∧ read (rec a) = Some a ∧
    byte_len (tlv_stream (rec a)) ≤ u64_max) xs →
  read_records known read (length xs) (concat (write_tlv_fields <$> (rec <$> xs)) ++ rest)
  = Some (xs, rest).
Proof.
  induction 1 as [|a xs (Ht & Hr & Hl) Hxs IH]; [done|]. csimpl.
  rewrite <- app_assoc, read_tlv_fields_ok by done. cbn [mbind option_bind].
  rewrite Hr. cbn [mbind option_bind]. by rewrite IH.
Qed.

Lemma byte_len_concat (bs : bytes) bss : bs ∈ bss → byte_len bs ≤ byte_len (concat bss).
Proof.
  unfold byte_len. induction 1; simpl; rewrite length_app; lia.
Qed.

Lemma read_sized_ok {A} known read (rec : A → list tlv_record) xs rest :
  (∀ a, a ∈ xs → types_ok known (rec a) ∧
     (byte_len (tlv_stream (rec a)) ≤ u64_max → read (rec a) = Some a)) →
  Z.of_nat (length xs) ≤ u64_max → byte_len (write_sized (rec <$> xs)) ≤ u64_max →
  read_sized known read (write_sized (rec <$> xs) ++ rest) = Some (xs, rest).
Proof.
  intros Hxs Hn Hl. unfold read_sized, write_sized in *.
  rewrite length_fmap in *. rewrite <- app_assoc, bigsize_rd_wr by (unfold is_u64; lia).
  cbn [mbind option_bind]. rewrite Nat2Z.id. apply read_records_ok, Forall_forall.
  intros a Ha. destruct (Hxs a Ha) as [Ht Hr].
  assert (byte_len (tlv_stream (rec a)) ≤ u64_max); [|by auto].
  assert (byte_len (write_tlv_fields (rec a))
          ≤ byte_len (concat (write_tlv_fields <$> (rec <$> xs)))) as Hc.
  { apply byte_len_concat. by do 2 apply list_elem_of_fmap_2. }
  unfold write_tlv_fields, byte_len in *. rewrite length_app in *. lia.
Qed.

Lemma value_len recs t v :
  byte_len (tlv_stream recs) ≤ u64_max → (t, v) ∈ recs → byte_len v ≤ u64_max.
Proof. intros Hl Hin. pose proof (tlv_value_len recs _ Hin). simpl in *. lia. Qed.

(** The values each part can have in the program. *)
Definition block_id_fits (b : BlockId) : Prop :=
  is_u32 (block_height b) ∧ length (block_hash b) = 32%nat.
Definition anchor_fits (a : ConfirmationBlockTime * Txid) : Prop :=
  block_id_fits (block_id a.1) ∧ is_u64 (confirmation_time a.1) ∧ length a.2 = 32%nat.
Definition tx_graph_fits (g : TxGraphChangeSet) : Prop :=
  (∀ tx, tx ∈ txs g → fits tx) ∧ (∀ a, a ∈ anchors g → anchor_fits a) ∧
  fits (txouts g) ∧ fits (last_seen g) ∧ fits (first_seen g) ∧ fits (last_evicted g) ∧
  Z.of_nat (size (txs g)) ≤ u64_max ∧ Z.of_nat (size (anchors g)) ≤ u64_max ∧
  byte_len (write_tx_graph g) ≤ u64_max.
Definition indexer_fits (i : IndexerChangeSet) : Prop :=
  (∀ d n, last_revealed i !! d = Some n → length d = 32%nat ∧ is_u32 n) ∧
  Z.of_nat (size (last_revealed i)) ≤ u64_max ∧ byte_len (write_indexer i) ≤ u64_max.
Definition local_chain_fits (blocks : LocalChainChangeSet) : Prop :=
  fits blocks ∧ byte_len (write_local_chain blocks) ≤ u64_max.

Ltac solve_types :=
  split; [repeat constructor; simpl; lia|
    repeat constructor; unfold is_u64, u64_max; simpl; try lia; set_solver].

Lemma read_array_ok n (bs : bytes) : length bs = n → whole (read_array n bs) = Some bs.
Proof.
  intros Hn. unfold read_array. rewrite option_guard_True by lia. cbn [mbind option_bind].
  by rewrite take_ge, drop_ge by lia.
Qed.

Lemma read_block_id_ok b :
  block_id_fits b → byte_len (write_block_id b) ≤ u64_max →
  read_block_id (write_block_id b) = Some (b, []).
Proof.
  intros [Hh Hb] Hl. unfold read_block_id, write_block_id in *.
  rewrite decode_tlv_stream_ok; [|solve_types|done].
  cbn. rewrite (@whole_rd Z u32_codec) by auto. cbn. rewrite whole_rd by auto. by destruct b.
Qed.

Lemma read_block_time_ok c :
  block_id_fits (block_id c) → is_u64 (confirmation_time c) →
  byte_len (write_block_time c) ≤ u64_max → read_block_time (write_block_time c) = Some (c, []).
Proof.
  intros Hb Ht Hl. unfold read_block_time, write_block_time in *.
  rewrite decode_tlv_stream_ok; [|solve_types|done].
  cbn. rewrite read_block_id_ok; [|done|by eapply value_len; [done|apply list_elem_of_here]].
  rewrite whole_Some. cbn. rewrite (@whole_rd Z u64_codec) by auto. by destruct c.
Qed.

Lemma read_anchors_ok s rest :
  (∀ a, a ∈ s → anchor_fits a) → Z.of_nat (size s) ≤ u64_max →
  byte_len (write_anchors s) ≤ u64_max →
  read_anchors (write_anchors s ++ rest) = Some (s, rest).
Proof.
  intros Hs Hn Hl. unfold read_anchors, write_anchors in *. rewrite read_sized_ok; [|..|done].
  - cbn. do 2 f_equal. rewrite set_iter_perm. apply list_to_set_elements_L.
  - intros a Ha. rewrite set_iter_perm, elem_of_elements in Ha.
    destruct (Hs a Ha) as (Hb & Ht & Hx). split; [solve_types|]. intros Hrec.
    unfold read_anchor, anchor_record in *. cbn.
    rewrite read_block_time_ok; [|done..|by eapply value_len; [done|apply list_elem_of_here]].
    rewrite whole_Some. cbn. rewrite whole_rd by auto. by destruct a.
  - rewrite set_iter_perm. done.
Qed.

Lemma read_txs_ok s rest :
  (∀ tx, tx ∈ s → fits tx) → Z.of_nat (size s) ≤ u64_max → byte_len (write_txs s) ≤ u64_max →
  read_txs (write_txs s ++ rest) = Some (s, rest).
Proof.
  intros Hs Hn Hl. unfold read_txs, write_txs in *. rewrite read_sized_ok; [|..|done].
  - cbn. do 2 f_equal. rewrite set_iter_perm. apply list_to_set_elements_L.
  - intros tx Htx. rewrite set_iter_perm, elem_of_elements in Htx.
    split; [solve_types|]. intros _. cbn. apply whole_rd. auto.
  - rewrite set_iter_perm. done.
Qed.

Lemma read_descriptor_id_ok d :
  length d = 32%nat → byte_len (write_descriptor_id d) ≤ u64_max →
  read_descriptor_id (write_descriptor_id d) = Some (d, []).
Proof.
  intros Hd Hl. unfold read_descriptor_id, write_descriptor_id in *.
  rewrite decode_tlv_stream_ok; [|solve_types|done]. cbn. by rewrite read_array_ok.
Qed.

Lemma read_last_revealed_ok m rest :
  (∀ d n, m !! d = Some n → length d = 32%nat ∧ is_u32 n) → Z.of_nat (size m) ≤ u64_max →
  byte_len (write_last_revealed m) ≤ u64_max →
  read_last_revealed (write_last_revealed m ++ rest) = Some (m, rest).
Proof.
  intros Hm Hn Hl. unfold read_last_revealed, write_last_revealed in *.
  rewrite read_sized_ok; [|..|done].
  - cbn [mbind option_bind]. by rewrite foldl_insert_iter.
  - intros [d n] Hin. apply elem_of_iter, Hm in Hin as [Hd Hi].
    split; [solve_types|]. intros Hrec. unfold read_revealed, revealed_record in *. cbn.
    rewrite read_descriptor_id_ok;
      [|done|by eapply value_len; [done|apply list_elem_of_here]].
    rewrite whole_Some. cbn. by rewrite (@whole_rd Z u32_codec) by auto.
  - by rewrite length_iter.
Qed.

#[local] Arguments read_txs : simpl never.
#[local] Arguments read_anchors : simpl never.
#[local] Arguments read_last_revealed : simpl never.

Lemma versioned_ok {A} (body : bytes → option A) bs :
  versioned body (CHANGESET_SERIALIZATION_VERSION :: bs) = body bs.
Proof. done. Qed.

Lemma read_descriptor_ok d :
  fits (descriptor_to_string d) → read_descriptor (write_descriptor d) = Some d.
Proof.
  intros Hf. unfold read_descriptor, write_descriptor. rewrite versioned_ok.
  rewrite <- (app_nil_r (wr _)), rd_wr by done. apply descriptor_parse.
Qed.

Lemma read_network_ok n : read_network (write_network n) = Some n.
Proof.
  unfold read_network, write_network. rewrite versioned_ok. unfold read_array.
  rewrite option_guard_True by (by rewrite magic_len). cbn [mbind option_bind].
  by rewrite take_ge by (by rewrite magic_len).
Qed.

Lemma versioned_len (bs : bytes) : byte_len bs ≤ byte_len (CHANGESET_SERIALIZATION_VERSION :: bs).
Proof. unfold byte_len. simpl. lia. Qed.

Lemma read_local_chain_ok blocks :
  local_chain_fits blocks → read_local_chain (write_local_chain blocks) = Some blocks.
Proof.
  intros [Hf Hl]. unfold read_local_chain, write_local_chain in *. rewrite versioned_ok.
  rewrite decode_tlv_stream_ok; [|solve_types|etrans; [apply versioned_len|done]].
  cbn. by rewrite whole_rd.
Qed.

Lemma read_indexer_ok i :
  indexer_fits i →
  read_indexer (write_indexer i) = Some {| last_revealed := last_revealed i; spk_cache := ∅ |}.
Proof.
  intros (Hm & Hn & Hl). unfold read_indexer, write_indexer in *. rewrite versioned_ok.
  assert (byte_len (tlv_stream [(0, write_last_revealed (last_revealed i))]) ≤ u64_max) as Hs
    by (etrans; [apply versioned_len|done]).
  rewrite decode_tlv_stream_ok; [|solve_types|done].
  cbn. rewrite <- (app_nil_r (write_last_revealed _)), read_last_revealed_ok; [done|done..|].
  by eapply value_len; [done|apply list_elem_of_here].
Qed.

(** The stream without the two optional records, as written before they existed. *)
Definition old_tx_graph_records (g : TxGraphChangeSet) : list tlv_record :=
  [(0, write_txs (txs g)); (2, wr (txouts g)); (4, write_anchors (anchors g));
   (6, wr (last_seen g))].

Lemma read_tx_graph_ok g :
  tx_graph_fits g → read_tx_graph (write_tx_graph g) = Some g.
Proof.
  intros (Htx & Ha & Ho & Hs & Hf & He & Hn & Hm & Hl). unfold read_tx_graph, write_tx_graph in *.
  assert (byte_len (tlv_stream (tx_graph_records g)) ≤ u64_max) as Hb
    by (etrans; [apply versioned_len|done]).
  rewrite versioned_ok, decode_tlv_stream_ok; [|solve_types|done]. cbn.
  rewrite <- (app_nil_r (write_txs _)), read_txs_ok; [|done..|].
  2: { eapply value_len; [done|]. apply list_elem_of_here. }
  rewrite whole_Some. cbn. rewrite whole_rd by done. cbn. rewrite whole_rd by done. cbn.
  rewrite whole_rd by done. cbn.
  rewrite <- (app_nil_r (write_anchors _)), read_anchors_ok; [|done..|].
  2: { eapply (value_len _ 4); [done|]. unfold tx_graph_records. rewrite !elem_of_cons. tauto. }
  rewrite whole_Some. cbn. rewrite whole_rd by done. by destruct g.
Qed.

Lemma read_old_tx_graph_ok g :
  tx_graph_fits g → byte_len (tlv_stream (old_tx_graph_records g)) ≤ u64_max →
  read_tx_graph (CHANGESET_SERIALIZATION_VERSION :: tlv_stream (old_tx_graph_records g))
  = Some {| txs := txs g; txouts := txouts g; anchors := anchors g; last_seen := last_seen g;
            first_seen := ∅; last_evicted := ∅ |}.
Proof.
  intros (Htx & Ha & Ho & Hs & Hf & He & Hn & Hm & _) Hb. unfold read_tx_graph.
  rewrite versioned_ok, decode_tlv_stream_ok; [|solve_types|done]. cbn.
  rewrite <- (app_nil_r (write_txs _)), read_txs_ok; [|done..|].
  2: { eapply value_len; [done|]. apply list_elem_of_here. }
  rewrite whole_Some. cbn. rewrite whole_rd by done. cbn.
  rewrite <- (app_nil_r (write_anchors _)), read_anchors_ok; [|done..|].
  2: { eapply (value_len _ 4); [done|]. unfold old_tx_graph_records. rewrite !elem_of_cons. tauto. }
  rewrite whole_Some. cbn. by rewrite whole_rd by done.
Qed.

(** C40. Every stored part of a wallet reads back as it was written, the index without
    its script cache; a transaction graph stored before first-seen and eviction
    times were recorded still reads, with those empty; and data of any other
    version is refused rather than misread. *)
Theorem stored_parts_roundtrip d n blocks g i :
  fits (descriptor_to_string d) → local_chain_fits blocks → tx_graph_fits g → indexer_fits i →
  byte_len (tlv_stream (old_tx_graph_records g)) ≤ u64_max →
  read_descriptor (write_descriptor d) = Some d ∧
  read_network (write_network n) = Some n ∧
  read_local_chain (write_local_chain blocks) = Some blocks ∧
  read_indexer (write_indexer i) = Some {| last_revealed := last_revealed i; spk_cache := ∅ |} ∧
  read_tx_graph (write_tx_graph g) = Some g ∧
  read_tx_graph (CHANGESET_SERIALIZATION_VERSION :: tlv_stream (old_tx_graph_records g))
  = Some {| txs := txs g; txouts := txouts g; anchors := anchors g; last_seen := last_seen g;
            first_seen := ∅; last_evicted := ∅ |} ∧
  ∀ v bs, v ≠ CHANGESET_SERIALIZATION_VERSION →
    read_descriptor (v :: bs) = None ∧ read_network (v :: bs) = None ∧
    read_local_chain (v :: bs) = None ∧ read_indexer (v :: bs) = None ∧
    read_tx_graph (v :: bs) = None.
Proof.
  intros Hd Hb Hg Hi Hold. split_and!;
    [by apply read_descriptor_ok|apply read_network_ok|by apply read_local_chain_ok
    |by apply read_indexer_ok|by apply read_tx_graph_ok|by apply read_old_tx_graph_ok|].
  intros v bs Hv. unfold read_descriptor, read_network, read_local_chain, read_indexer,
    read_tx_graph, versioned. by rewrite !decide_False.
Qed.

(** ** The formats as the persister uses them *)

Definition descriptor_format : StoredFormat Descriptor :=
  {| st_write := write_descriptor; st_read := read_descriptor; st_kept := id;
     st_fits d := fits (descriptor_to_string d) |}.
Definition network_format : StoredFormat Network :=
  {| st_write := write_network; st_read := read_network; st_kept := id; st_fits _ := True |}.
Definition local_chain_format : StoredFormat LocalChainChangeSet :=
  {| st_write := write_local_chain; st_read := read_local_chain; st_kept := id;
     st_fits := local_chain_fits |}.
Definition tx_graph_format : StoredFormat TxGraphChangeSet :=
  {| st_write := write_tx_graph; st_read := read_tx_graph; st_kept := id;
     st_fits := tx_graph_fits |}.
Definition indexer_format : StoredFormat IndexerChangeSet :=
  {| st_write := write_indexer; st_read := read_indexer;
     st_kept i := {| last_revealed := last_revealed i; spk_cache := ∅ |};
     st_fits := indexer_fits |}.

Lemma descriptor_format_spec : @StoredFormatSpec _ descriptor_format.
Proof. split. apply read_descriptor_ok. Qed.
Lemma network_format_spec : @StoredFormatSpec _ network_format.
Proof. split. intros n _. apply read_network_ok. Qed.
Lemma local_chain_format_spec : @StoredFormatSpec _ local_chain_format.
Proof. split. apply read_local_chain_ok. Qed.
Lemma tx_graph_format_spec : @StoredFormatSpec _ tx_graph_format.
Proof. split. apply read_tx_graph_ok. Qed.
Lemma indexer_format_spec : @StoredFormatSpec _ indexer_format.
Proof. split. apply read_indexer_ok. Qed.
End ser.
