(* ===== verification/WalletPersist.v ===== *)
(** * Persistence of wallet change sets ([src/wallet/persist.rs])

    [KVStoreWalletPersister] keeps the merged change set of one wallet in memory and
    writes each part that changes to the key-value store under the account's name.
    BDK calls [initialize] when a wallet is loaded and [persist] with the changes
    staged since the last successful call, so a failed call is repeated with the
    same changes. *)

From S2P Require Import Prelude KVStore Types Config IoUtils WalletSer.

(** BDK's [Merge]: change sets are monotone, so applying one twice is applying it
    once, and an empty one changes nothing. *)
Class Merge (A : Type) := {
  merge : A → A → A;
  is_empty : A → bool;
  no_change : A;
}.
Class MergeSpec (A : Type) {M : Merge A} : Prop := {
  merge_idem : ∀ a b : A, merge (merge a b) b = merge a b;
  merge_empty : ∀ a b : A, is_empty b = true → merge a b = a;
  no_change_empty : is_empty no_change = true;
}.

Module persist.
Section persist.
Context {S : Type} {KV : KVStore S}.
Context {Descriptor Network : Type} `{EqDecision Descriptor, EqDecision Network}.
Context {FD : StoredFormat Descriptor} {FN : StoredFormat Network}
  {FC : StoredFormat LocalChainChangeSet} {FG : StoredFormat TxGraphChangeSet}
  {FI : StoredFormat IndexerChangeSet}.
Context {MC : Merge LocalChainChangeSet} {MG : Merge TxGraphChangeSet}
  {MI : Merge IndexerChangeSet}.

(** [bdk_wallet::ChangeSet] *)
Record ChangeSet := mkChangeSet {
  descriptor : option Descriptor;
  change_descriptor : option Descriptor;
  network : option Network;
  local_chain : LocalChainChangeSet;
  tx_graph : TxGraphChangeSet;
  indexer : IndexerChangeSet;
}.

Definition default_change_set : ChangeSet :=
  {| descriptor := None; change_descriptor := None; network := None;
     local_chain := no_change; tx_graph := no_change; indexer := no_change |}.

(** [ChangeSet::is_empty]: no part has changes. *)
Definition change_set_is_empty (cs : ChangeSet) : bool :=
  bool_decide (descriptor cs = None) && bool_decide (change_descriptor cs = None) &&
  bool_decide (network cs = None) && is_empty (local_chain cs) && is_empty (tx_graph cs) &&
  is_empty (indexer cs).

Definition set_descriptor d l : ChangeSet :=
  {| descriptor := d; change_descriptor := change_descriptor l; network := network l;
     local_chain := local_chain l; tx_graph := tx_graph l; indexer := indexer l |}.
Definition set_change_descriptor d l : ChangeSet :=
  {| descriptor := descriptor l; change_descriptor := d; network := network l;
     local_chain := local_chain l; tx_graph := tx_graph l; indexer := indexer l |}.
Definition set_network n l : ChangeSet :=
  {| descriptor := descriptor l; change_descriptor := change_descriptor l; network := n;
     local_chain := local_chain l; tx_graph := tx_graph l; indexer := indexer l |}.
Definition set_local_chain c l : ChangeSet :=
  {| descriptor := descriptor l; change_descriptor := change_descriptor l; network := network l;
     local_chain := c; tx_graph := tx_graph l; indexer := indexer l |}.
Definition set_tx_graph g l : ChangeSet :=
  {| descriptor := descriptor l; change_descriptor := change_descriptor l; network := network l;
     local_chain := local_chain l; tx_graph := g; indexer := indexer l |}.
Definition set_indexer i l : ChangeSet :=
  {| descriptor := descriptor l; change_descriptor := change_descriptor l; network := network l;
     local_chain := local_chain l; tx_graph := tx_graph l; indexer := i |}.

(** ** The persister *)

Record KVStoreWalletPersister := mkPersister {
  latest_change_set : option ChangeSet;
  kv_store : S;
  wallet_account : OnchainWalletAccount;
}.
Implicit Types (p : KVStoreWalletPersister) (cs l : ChangeSet).

Definition new (kv : S) (account : OnchainWalletAccount) : KVStoreWalletPersister :=
  {| latest_change_set := None; kv_store := kv; wallet_account := account |}.

Definition set_latest l p : KVStoreWalletPersister :=
  {| latest_change_set := Some l; kv_store := kv_store p; wallet_account := wallet_account p |}.
Definition set_kv (kv : S) p : KVStoreWalletPersister :=
  {| latest_change_set := latest_change_set p; kv_store := kv;
     wallet_account := wallet_account p |}.

(** [io::utils::read_bdk_wallet_change_set]: nothing without both descriptors and the
    network. *)
Definition read_bdk_wallet_change_set (kv : S) (account : OnchainWalletAccount) :
    outcome ErrorKind (option ChangeSet) :=
  d ← read_part kv account BDK_WALLET_DESCRIPTOR_KEY;
  match d with
  | None => Ok None
  | Some d =>
      c ← read_part kv account BDK_WALLET_CHANGE_DESCRIPTOR_KEY;
      match c with
      | None => Ok None
      | Some c =>
          n ← read_part kv account BDK_WALLET_NETWORK_KEY;
          match n with
          | None => Ok None
          | Some n =>
              chain ← read_part kv account BDK_WALLET_LOCAL_CHAIN_KEY;
              graph ← read_part kv account BDK_WALLET_TX_GRAPH_KEY;
              index ← read_part kv account BDK_WALLET_INDEXER_KEY;
              Ok (Some {| descriptor := Some d; change_descriptor := Some c; network := Some n;
                          local_chain := default no_change chain;
                          tx_graph := default no_change graph;
                          indexer := default no_change index |})
          end
      end
  end.

Definition initialize : cmd KVStoreWalletPersister ErrorKind ChangeSet := λ p,
  match latest_change_set p with
  | Some l => (p, Ok l)
  | None =>
      match read_bdk_wallet_change_set (kv_store p) (wallet_account p) with
      | Ok o => let l := default default_change_set o in (set_latest l p, Ok l)
      | Err e => (p, Err e)
      | Panic => (p, Panic)
      end
  end.

(** Record a part's new value in memory, then write it. *)
Definition store_part {A} {SF : StoredFormat A} (set : ChangeSet → ChangeSet) (key : string)
    (value : A) : cmd KVStoreWalletPersister ErrorKind unit := λ p,
  let p := match latest_change_set p with Some l => set_latest (set l) p | None => p end in
  let '(kv, r) := write_part value (kv_store p) (wallet_account p) key in
  (set_kv kv p, r).

(** Run a step on the latest change set; without one the persister was not
    initialized. *)
Definition with_latest (f : ChangeSet → cmd KVStoreWalletPersister ErrorKind unit) :
    cmd KVStoreWalletPersister ErrorKind unit :=
  with_state (λ p, match latest_change_set p with Some l => f l | None => fail KindOther end).

(** A part that may be set once: the descriptors and the network. *)
Definition persist_fixed {A} {SF : StoredFormat A} `{EqDecision A} (get : ChangeSet → option A)
    (set : option A → ChangeSet → ChangeSet) (key : string) (change : option A) :
    cmd KVStoreWalletPersister ErrorKind unit :=
  match change with
  | None => mret tt
  | Some x =>
      with_latest (λ l,
        if bool_decide (is_Some (get l)) && negb (bool_decide (get l = Some x))
        then fail KindInvalidData
        else store_part (set (Some x)) key x)
  end.

(** A part that grows by merging. *)
Definition persist_merged {A} {SF : StoredFormat A} {M : Merge A} (get : ChangeSet → A)
    (set : A → ChangeSet → ChangeSet) (key : string) (change : A) :
    cmd KVStoreWalletPersister ErrorKind unit :=
  if is_empty change then mret tt
  else with_latest (λ l, let merged := merge (get l) change in store_part (set merged) key merged).

Definition persist (cs : ChangeSet) : cmd KVStoreWalletPersister ErrorKind unit :=
  if change_set_is_empty cs then mret tt
  else with_latest (λ _,
    _ ← persist_fixed descriptor set_descriptor BDK_WALLET_DESCRIPTOR_KEY (descriptor cs);
    _ ← persist_fixed change_descriptor set_change_descriptor BDK_WALLET_CHANGE_DESCRIPTOR_KEY
          (change_descriptor cs);
    _ ← persist_fixed network set_network BDK_WALLET_NETWORK_KEY (network cs);
    _ ← persist_merged indexer set_indexer BDK_WALLET_INDEXER_KEY (indexer cs);
    _ ← persist_merged tx_graph set_tx_graph BDK_WALLET_TX_GRAPH_KEY (tx_graph cs);
    persist_merged local_chain set_local_chain BDK_WALLET_LOCAL_CHAIN_KEY (local_chain cs)).

(** The change set that removes every block above the checkpoint and sets its block. *)
Definition rewind_change_set (checkpoint : BlockId) (blocks : LocalChainChangeSet) :
    ChangeSet :=
  set_local_chain
    (<[block_height checkpoint := Some (block_hash checkpoint)]>
       ((λ _, None) <$> filter (λ '(h, _), block_height checkpoint < h) blocks))
    default_change_set.

Definition rewind_to_checkpoint (checkpoint : BlockId) :
    cmd KVStoreWalletPersister ErrorKind unit :=
  persisted ← initialize;
  if bool_decide (block_height checkpoint = 0) &&
     negb (bool_decide (mjoin (local_chain persisted !! 0) = Some (block_hash checkpoint)))
  then fail KindInvalidData
  else persist (rewind_change_set checkpoint (local_chain persisted)).

(** Repeating a failed call, up to [n] more times. *)
Fixpoint persist_retrying (n : nat) (cs : ChangeSet) : cmd KVStoreWalletPersister ErrorKind unit :=
  λ p, match persist cs p with
       | (p', Err e) => match n with O => (p', Err e) | Datatypes.S n => persist_retrying n cs p' end
       | r => r
       end.

(** ** What is on disk *)

Context {KSPEC : KVStoreSpec S}.
Context {FDS : StoredFormatSpec Descriptor} {FNS : StoredFormatSpec Network}
  {FCS : StoredFormatSpec LocalChainChangeSet} {FGS : StoredFormatSpec TxGraphChangeSet}
  {FIS : StoredFormatSpec IndexerChangeSet}.
Context {MCS : MergeSpec LocalChainChangeSet} {MGS : MergeSpec TxGraphChangeSet}
  {MIS : MergeSpec IndexerChangeSet}.

(** The parts in the order they are written. *)
Inductive part := PDescriptor | PChangeDescriptor | PNetwork | PIndexer | PTxGraph | PLocalChain.
Definition part_index (pt : part) : nat :=
  match pt with
  | PDescriptor => 0 | PChangeDescriptor => 1 | PNetwork => 2
  | PIndexer => 3 | PTxGraph => 4 | PLocalChain => 5
  end.
Definition part_name (pt : part) : string :=
  match pt with
  | PDescriptor => BDK_WALLET_DESCRIPTOR_KEY
  | PChangeDescriptor => BDK_WALLET_CHANGE_DESCRIPTOR_KEY
  | PNetwork => BDK_WALLET_NETWORK_KEY
  | PIndexer => BDK_WALLET_INDEXER_KEY
  | PTxGraph => BDK_WALLET_TX_GRAPH_KEY
  | PLocalChain => BDK_WALLET_LOCAL_CHAIN_KEY
  end.
Definition part_type (pt : part) : Type :=
  match pt with
  | PDescriptor | PChangeDescriptor => option Descriptor
  | PNetwork => option Network
  | PIndexer => IndexerChangeSet
  | PTxGraph => TxGraphChangeSet
  | PLocalChain => LocalChainChangeSet
  end.
Definition get_part (pt : part) l : part_type pt :=
  match pt with
  | PDescriptor => descriptor l
  | PChangeDescriptor => change_descriptor l
  | PNetwork => network l
  | PIndexer => indexer l
  | PTxGraph => tx_graph l
  | PLocalChain => local_chain l
  end.
Definition set_part (pt : part) : part_type pt → ChangeSet → ChangeSet :=
  match pt with
  | PDescriptor => set_descriptor
  | PChangeDescriptor => set_change_descriptor
  | PNetwork => set_network
  | PIndexer => set_indexer
  | PTxGraph => set_tx_graph
  | PLocalChain => set_local_chain
  end.

(** What a part's bytes stand for, and what of a value survives storing it. *)
Definition read_fixed {A} {SF : StoredFormat A} (bs : option bytes) : option (option A) :=
  match bs with Some bs => Some <$> st_read bs | None => Some None end.
Definition read_merged {A} {SF : StoredFormat A} {M : Merge A} (bs : option bytes) : option A :=
  match bs with Some bs => st_read bs | None => Some no_change end.
Definition part_read (pt : part) : option bytes → option (part_type pt) :=
  match pt with
  | PDescriptor | PChangeDescriptor | PNetwork => read_fixed
  | PIndexer | PTxGraph | PLocalChain => read_merged
  end.
Definition kept (l : ChangeSet) : ChangeSet :=
  {| descriptor := st_kept <$> descriptor l;
     change_descriptor := st_kept <$> change_descriptor l;
     network := st_kept <$> network l;
     local_chain := st_kept (local_chain l);
     tx_graph := st_kept (tx_graph l);
     indexer := st_kept (indexer l) |}.

(** The store holds a change set under an account. *)
Definition disk_agrees (m : gmap kv_key bytes) (a : OnchainWalletAccount) l : Prop :=
  ∀ pt, part_read pt (stored_bytes m a (part_name pt)) = Some (get_part pt (kept l)).

(** The values in the change set can be stored. *)
Definition storable l : Prop :=
  (∀ d, descriptor l = Some d → st_fits d) ∧ (∀ d, change_descriptor l = Some d → st_fits d) ∧
  (∀ n, network l = Some n → st_fits n) ∧ st_fits (local_chain l) ∧ st_fits (tx_graph l) ∧
  st_fits (indexer l).

(** The change set after a change, if the fixed parts agree. *)
Definition compatible {A} (old change : option A) : Prop :=
  ∀ x y, old = Some x → change = Some y → x = y.
Definition fixed_after {A} (old change : option A) : option A :=
  match change with Some x => Some x | None => old end.
Definition merged_after l cs : ChangeSet :=
  {| descriptor := fixed_after (descriptor l) (descriptor cs);
     change_descriptor := fixed_after (change_descriptor l) (change_descriptor cs);
     network := fixed_after (network l) (network cs);
     local_chain := merge (local_chain l) (local_chain cs);
     tx_graph := merge (tx_graph l) (tx_graph cs);
     indexer := merge (indexer l) (indexer cs) |}.
Definition consistent l cs : Prop :=
  compatible (descriptor l) (descriptor cs) ∧
  compatible (change_descriptor l) (change_descriptor cs) ∧ compatible (network l) (network cs).

(** The first [k] parts of one change set and the rest of another. *)
Definition mix (k : nat) (l t : ChangeSet) : ChangeSet :=
  {| descriptor := if (0 <? k)%nat then descriptor t else descriptor l;
     change_descriptor := if (1 <? k)%nat then change_descriptor t else change_descriptor l;
     network := if (2 <? k)%nat then network t else network l;
     indexer := if (3 <? k)%nat then indexer t else indexer l;
     tx_graph := if (4 <? k)%nat then tx_graph t else tx_graph l;
     local_chain := if (5 <? k)%nat then local_chain t else local_chain l |}.

Lemma change_set_ext l l' : (∀ pt, get_part pt l = get_part pt l') → l = l'.
Proof.
  destruct l, l'. intros H. f_equal.
  - apply (H PDescriptor).
  - apply (H PChangeDescriptor).
  - apply (H PNetwork).
  - apply (H PLocalChain).
  - apply (H PTxGraph).
  - apply (H PIndexer).
Qed.

Lemma get_set_part pt v l : get_part pt (set_part pt v l) = v.
Proof. by destruct pt. Qed.
Lemma get_set_part_ne pt pt' v l : pt ≠ pt' → get_part pt' (set_part pt v l) = get_part pt' l.
Proof. by destruct pt, pt'. Qed.
Lemma get_mix pt k l t :
  get_part pt (mix k l t) = if (part_index pt <? k)%nat then get_part pt t else get_part pt l.
Proof. destruct pt; simpl; by repeat case_match. Qed.
Lemma part_index_inj pt pt' : part_index pt = part_index pt' → pt = pt'.
Proof. by destruct pt, pt'. Qed.

(** Setting a part that is already set changes nothing; setting the next one
    extends the prefix. *)
Lemma set_part_mix pt k l t :
  (part_index pt < k)%nat → set_part pt (get_part pt t) (mix k l t) = mix k l t.
Proof.
  intros Hk. apply change_set_ext. intros pt'. destruct (decide (part_index pt = part_index pt'))
    as [->%part_index_inj|Hne].
  - rewrite get_set_part, get_mix. by rewrite (proj2 (Nat.ltb_lt _ _)).
  - apply get_set_part_ne. congruence.
Qed.
Lemma set_part_next pt l t :
  set_part pt (get_part pt t) (mix (part_index pt) l t) = mix (part_index pt + 1) l t.
Proof. by destruct pt. Qed.
Lemma mix_skip pt l t :
  get_part pt t = get_part pt l → mix (part_index pt + 1) l t = mix (part_index pt) l t.
Proof. intros Heq. rewrite <- set_part_next, Heq. by destruct pt. Qed.
Lemma mix_0 l t : mix 0 l t = l.
Proof. by destruct l. Qed.
Lemma mix_all k l t : (6 ≤ k)%nat → mix k l t = t.
Proof.
  intros Hk. apply change_set_ext. intros pt. rewrite get_mix.
  by rewrite (proj2 (Nat.ltb_lt _ _)) by (destruct pt; simpl; lia).
Qed.
Lemma kept_mix k l t : kept (mix k l t) = mix k (kept l) (kept t).
Proof. unfold kept, mix. simpl. f_equal; by case_match. Qed.
Lemma part_name_inj pt pt' : part_name pt = part_name pt' → pt = pt'.
Proof. by destruct pt, pt'. Qed.

(** ** Repeated attempts at one change *)

Section attempts.
Context (a : OnchainWalletAccount) (account_ok : 0 ≤ account_index a) (l0 cs : ChangeSet).
Let t := merged_after l0 cs.
Context (Hcons : consistent l0 cs) (Hfits : storable t).

(** The disk holds the first [k] parts of the new change set; memory holds them too,
    and perhaps the next one. *)
Definition prefix_state (k : nat) p : Prop :=
  wallet_account p = a ∧ disk_agrees (kv_view (kv_store p)) a (mix k l0 t) ∧
  (latest_change_set p = Some (mix k l0 t) ∨ latest_change_set p = Some (mix (k + 1) l0 t)).

(** A step that, once the first [i] parts are stored, stores those up to [j] or
    fails with a prefix stored. *)
Definition stores (i j : nat) (m : cmd KVStoreWalletPersister ErrorKind unit) : Prop :=
  ∀ k p, (i ≤ k)%nat → prefix_state k p →
    match m p with
    | (p', Ok _) => ∃ k', (j ≤ k')%nat ∧ prefix_state k' p'
    | (p', Err _) => ∃ k', prefix_state k' p'
    | (_, Panic) => False
    end.

Lemma stores_bind i j n m m' :
  stores i j m → stores j n m' → stores i n (m ≫= λ _, m').
Proof.
  intros Hm Hm' k p Hk Hp. specialize (Hm k p Hk Hp). unfold mbind, cmd_bind.
  destruct (m p) as [p1 [[]|e|]]; [|done..]. destruct Hm as (k1 & Hk1 & Hp1).
  by apply (Hm' k1).
Qed.

Lemma stores_skip pt :
  get_part pt t = get_part pt l0 →
  stores (part_index pt) (part_index pt + 1) (mret tt).
Proof.
  intros Heq k p Hk Hp. destruct (decide (k = part_index pt)) as [->|Hne].
  - exists (part_index pt + 1)%nat. split; [done|]. destruct Hp as (Ha & Hd & Hl).
    pose proof (mix_skip pt l0 t Heq) as Hm.
    split_and!; [done|by rewrite Hm|left; rewrite Hm in *; by destruct Hl].
  - exists k. split; [lia|done].
Qed.

Lemma disk_agrees_write m pt k bs :
  (part_index pt ≤ k)%nat → disk_agrees m a (mix k l0 t) →
  part_read pt (Some bs) = Some (get_part pt (kept t)) →
  disk_agrees (<[part_key a (part_name pt) := bs]> m) a (mix (k `max` (part_index pt + 1)) l0 t).
Proof.
  intros Hk Hd Hr pt'. rewrite stored_bytes_write by done.
  rewrite kept_mix, get_mix. specialize (Hd pt'). rewrite kept_mix, get_mix in Hd.
  case_decide as Heq.
  - destruct Heq as [_ ->%part_name_inj]. rewrite Hr.
    by rewrite (proj2 (Nat.ltb_lt _ _)) by lia.
  - assert (part_index pt ≠ part_index pt') as Hne by (intros ->%part_index_inj; by apply Heq).
    rewrite Hd. destruct (Nat.ltb_spec (part_index pt') k);
      destruct (Nat.ltb_spec (part_index pt') (k `max` (part_index pt + 1))); (done || lia).
Qed.

Lemma latest_after_set pt k l :
  (part_index pt ≤ k)%nat → l = mix k l0 t ∨ l = mix (k + 1) l0 t →
  (set_part pt (get_part pt t) l = mix k l0 t ∨ set_part pt (get_part pt t) l = mix (k + 1) l0 t) ∧
  (part_index pt = k → set_part pt (get_part pt t) l = mix (k + 1) l0 t).
Proof.
  intros Hk Hl. destruct (decide (part_index pt = k)) as [<-|Hne].
  - assert (set_part pt (get_part pt t) l = mix (part_index pt + 1) l0 t) as ->; [|by auto].
    destruct Hl as [->| ->]; [apply set_part_next|apply set_part_mix; lia].
  - split; [|done]. destruct Hl as [->| ->]; rewrite set_part_mix by lia; auto.
Qed.

Lemma store_part_stores pt {A} {SF : StoredFormat A} set (value : A) :
  (∀ l, set l = set_part pt (get_part pt t) l) →
  part_read pt (Some (st_write value)) = Some (get_part pt (kept t)) →
  stores (part_index pt) (part_index pt + 1) (store_part set (part_name pt) value).
Proof.
  intros Hset Hr k p Hk (Ha & Hd & Hl).
  assert (∃ l, latest_change_set p = Some l ∧ (l = mix k l0 t ∨ l = mix (k + 1) l0 t))
    as (l & Hlat & Hl') by naive_solver.
  destruct (latest_after_set pt k l Hk Hl') as [Hset1 Hset2].
  unfold store_part. rewrite Hlat, Hset. unfold write_part. simpl. rewrite Ha.
  destruct (kv_write_cases (kv_store p) (part_key a (part_name pt)) (st_write value))
    as [(kv & -> & Hv)|(kv & e & -> & Hv)].
  - exists (k `max` (part_index pt + 1))%nat. split; [lia|]. split_and!; [done| |].
    + simpl. rewrite Hv. by apply disk_agrees_write.
    + simpl. destruct (decide (part_index pt = k)) as [Heq|Hne].
      * left. rewrite Hset2 by done. do 2 f_equal. lia.
      * rewrite (Nat.max_l k) by lia. destruct Hset1 as [->| ->]; auto.
  - exists k. split_and!; [done|by simpl; rewrite Hv|]. simpl. destruct Hset1 as [->| ->]; auto.
Qed.

Lemma with_latest_stores i j f :
  (∀ k, stores i j (f (mix k l0 t))) → stores i j (with_latest f).
Proof.
  intros Hf k p Hk Hp. unfold with_latest, with_state.
  pose proof Hp as (_ & _ & [Hl|Hl]); rewrite Hl; by eapply Hf.
Qed.

Lemma persist_fixed_stores pt {A} {SF : StoredFormat A} {EQ : EqDecision A}
    (get : ChangeSet → option A) set change :
  (change = None → get_part pt t = get_part pt l0) →
  (∀ x, change = Some x →
     (∀ k, get (mix k l0 t) = None ∨ get (mix k l0 t) = Some x) ∧
     (∀ l, set (Some x) l = set_part pt (get_part pt t) l) ∧
     part_read pt (Some (st_write x)) = Some (get_part pt (kept t))) →
  stores (part_index pt) (part_index pt + 1) (persist_fixed get set (part_name pt) change).
Proof.
  intros Hnone Hsome. unfold persist_fixed. destruct change as [x|]; [|by apply stores_skip; auto].
  destruct (Hsome x eq_refl) as (Hget & Hset & Hread).
  apply with_latest_stores. intros k.
  assert (bool_decide (is_Some (get (mix k l0 t)))
    && negb (bool_decide (get (mix k l0 t) = Some x)) = false) as ->.
  { destruct (Hget k) as [->| ->]; [by rewrite bool_decide_eq_false_2 by apply is_Some_None|].
    rewrite (bool_decide_eq_true_2 (Some x = Some x)) by done. apply andb_false_r. }
  by apply store_part_stores.
Qed.

Lemma persist_merged_stores pt {A} {SF : StoredFormat A} {M : Merge A}
    (get : ChangeSet → A) set change :
  (is_empty change = true → get_part pt t = get_part pt l0) →
  (∀ k, merge (get (mix k l0 t)) change = get t) →
  (∀ l, set (get t) l = set_part pt (get_part pt t) l) →
  part_read pt (Some (st_write (get t))) = Some (get_part pt (kept t)) →
  stores (part_index pt) (part_index pt + 1) (persist_merged get set (part_name pt) change).
Proof.
  intros Hempty Hmerge Hset Hread. unfold persist_merged.
  destruct (is_empty change); [apply stores_skip; auto|].
  apply with_latest_stores. intros k. rewrite Hmerge. by apply store_part_stores.
Qed.

Lemma fixed_mix {A} (old change : option A) x (b : bool) :
  compatible old change → change = Some x →
  (if b then fixed_after old change else old) = None ∨
  (if b then fixed_after old change else old) = Some x.
Proof.
  intros Hc ->. destruct b; [by right|]. destruct old as [y|]; [right|by left].
  by rewrite (Hc y x).
Qed.

Lemma merged_mix {A} {M : Merge A} {MS : MergeSpec A} (old change : A) (b : bool) :
  merge (if b then merge old change else old) change = merge old change.
Proof. destruct b; [apply merge_idem|done]. Qed.

Lemma read_fixed_write {A} {SF : StoredFormat A} {SFS : StoredFormatSpec A} (x : A) :
  st_fits x → read_fixed (Some (st_write x)) = Some (Some (st_kept x)).
Proof. intros Hf. simpl. by rewrite st_read_write. Qed.

Lemma unchanged l : change_set_is_empty cs = true → merged_after l cs = l.
Proof.
  unfold change_set_is_empty. rewrite !andb_true_iff, !bool_decide_eq_true.
  intros [[[[[Hd Hc] Hn] He1] He2] He3]. unfold merged_after.
  rewrite Hd, Hc, Hn, !merge_empty by done. by destruct l.
Qed.

Lemma persist_stores : stores 0 6 (persist cs).
Proof.
  unfold persist. destruct (change_set_is_empty cs) eqn:He.
  { intros k p _ (Ha & Hd & Hl). exists 6%nat. split; [done|].
    assert (∀ k, mix k l0 t = l0) as Hm.
    { intros k'. unfold t. rewrite unchanged by done. unfold mix. destruct l0; simpl.
      f_equal; by case_match. }
    unfold prefix_state. rewrite !Hm in *. naive_solver. }
  destruct Hcons as (Hd & Hc & Hn). destruct Hfits as (Fd & Fc & Fn & Fl & Fg & Fi).
  apply with_latest_stores. intros _.
  eapply stores_bind; [apply (persist_fixed_stores PDescriptor)|].
  { simpl. by intros ->. }
  { intros x Hx. split_and!; [intros k; by apply fixed_mix|intros l; simpl; by rewrite Hx|].
    simpl in *. rewrite Hx in *. apply read_fixed_write. by apply Fd. }
  eapply stores_bind; [apply (persist_fixed_stores PChangeDescriptor)|].
  { simpl. by intros ->. }
  { intros x Hx. split_and!; [intros k; by apply fixed_mix|intros l; simpl; by rewrite Hx|].
    simpl in *. rewrite Hx in *. apply read_fixed_write. by apply Fc. }
  eapply stores_bind; [apply (persist_fixed_stores PNetwork)|].
  { simpl. by intros ->. }
  { intros x Hx. split_and!; [intros k; by apply fixed_mix|intros l; simpl; by rewrite Hx|].
    simpl in *. rewrite Hx in *. apply read_fixed_write. by apply Fn. }
  eapply stores_bind; [apply (persist_merged_stores PIndexer)|];
    [simpl; apply merge_empty|intros k; apply merged_mix|done|by apply st_read_write|].
  eapply stores_bind; [apply (persist_merged_stores PTxGraph)|];
    [simpl; apply merge_empty|intros k; apply merged_mix|done|by apply st_read_write|].
  apply (persist_merged_stores PLocalChain);
    [simpl; apply merge_empty|intros k; apply merged_mix|done|by apply st_read_write].
Qed.

Lemma persist_retrying_stores n k p :
  prefix_state k p →
  match persist_retrying n cs p with
  | (p', Ok _) => ∃ k', (6 ≤ k')%nat ∧ prefix_state k' p'
  | (p', Err _) => ∃ k', prefix_state k' p'
  | (_, Panic) => False
  end.
Proof.
  revert k p. induction n as [|n IH]; intros k p Hp; simpl;
    pose proof (persist_stores k p ltac:(lia) Hp) as Hs;
    destruct (persist cs p) as [p1 [[]|e|]]; try done.
  destruct Hs as [k1 Hp1]. by apply (IH k1).
Qed.
End attempts.

(** ** Restarting *)

Definition mandatory l : bool :=
  bool_decide (is_Some (descriptor l)) && bool_decide (is_Some (change_descriptor l)) &&
  bool_decide (is_Some (network l)).
(** What is loaded of a stored change set. *)
Definition loaded l : ChangeSet := if mandatory l then kept l else default_change_set.
Definition restart (kv : S) (a : OnchainWalletAccount) : outcome ErrorKind ChangeSet :=
  (initialize (new kv a)).2.

Lemma read_part_fixed {A} {SF : StoredFormat A} kv a key (o : option A) :
  reads_work kv → read_fixed (stored_bytes (kv_view kv) a key) = Some o →
  read_part kv a key = Ok o.
Proof.
  intros Hr Hs. unfold read_part. rewrite read_part_bytes_ok by done. simpl.
  destruct (stored_bytes _ _ _) as [bs|]; simpl in Hs; [|by simplify_eq].
  by destruct (st_read bs); simplify_eq/=.
Qed.

Lemma read_part_merged {A} {SF : StoredFormat A} {M : Merge A} kv a key (x : A) :
  reads_work kv → read_merged (stored_bytes (kv_view kv) a key) = Some x →
  ∃ o, read_part kv a key = Ok o ∧ default no_change o = x.
Proof.
  intros Hr Hs. unfold read_part. rewrite read_part_bytes_ok by done. simpl.
  destruct (stored_bytes _ _ _) as [bs|]; simpl in Hs; [|simplify_eq; by exists None].
  rewrite Hs. by exists (Some x).
Qed.

Lemma restart_loads kv a l :
  reads_work kv → disk_agrees (kv_view kv) a l → restart kv a = Ok (loaded l).
Proof.
  intros Hr Hd. unfold restart, initialize, read_bdk_wallet_change_set.
  cbn [latest_change_set new kv_store wallet_account].
  rewrite (read_part_fixed kv a BDK_WALLET_DESCRIPTOR_KEY _ Hr (Hd PDescriptor)),
    (read_part_fixed kv a BDK_WALLET_CHANGE_DESCRIPTOR_KEY _ Hr (Hd PChangeDescriptor)),
    (read_part_fixed kv a BDK_WALLET_NETWORK_KEY _ Hr (Hd PNetwork)).
  destruct (read_part_merged (A := LocalChainChangeSet) kv a BDK_WALLET_LOCAL_CHAIN_KEY _ Hr (Hd PLocalChain))
    as (oc & -> & Hc).
  destruct (read_part_merged (A := TxGraphChangeSet) kv a BDK_WALLET_TX_GRAPH_KEY _ Hr (Hd PTxGraph))
    as (og & -> & Hg).
  destruct (read_part_merged (A := IndexerChangeSet) kv a BDK_WALLET_INDEXER_KEY _ Hr (Hd PIndexer))
    as (oi & -> & Hi).
  unfold loaded, mandatory. simpl in *.
  destruct (descriptor l) as [d|] eqn:?; simpl; [|done].
  destruct (change_descriptor l) as [c|] eqn:?; simpl; [|done].
  destruct (network l) as [n|] eqn:?; simpl; [|done].
  rewrite Hc, Hg, Hi. unfold kept. by repeat (simplify_option_eq; f_equal).
Qed.

(** C30. Persisting is crash-safe.  However often a change is tried again and whichever
    writes fail, a restart finds a prefix of the change applied in the order
    descriptors, network, index, transactions, chain tip: the tip on disk is never
    ahead of the transactions.  As soon as one attempt succeeds, memory and a
    restart both have exactly the previous change set with the change merged in. *)
Theorem persist_crash_safe n cs l0 p :
  0 ≤ account_index (wallet_account p) →
  latest_change_set p = Some l0 →
  disk_agrees (kv_view (kv_store p)) (wallet_account p) l0 →
  consistent l0 cs → storable (merged_after l0 cs) →
  match persist_retrying n cs p with
  | (p', Ok _) =>
      latest_change_set p' = Some (merged_after l0 cs) ∧
      (reads_work (kv_store p') →
       restart (kv_store p') (wallet_account p) = Ok (loaded (merged_after l0 cs)))
  | (p', Err _) =>
      ∃ k, reads_work (kv_store p') →
        restart (kv_store p') (wallet_account p) = Ok (loaded (mix k l0 (merged_after l0 cs)))
  | (_, Panic) => False
  end.
Proof.
  intros Ha Hl Hd Hc Hf.
  assert (prefix_state (wallet_account p) l0 cs 0 p) as Hp
    by (split_and!; [done|by rewrite mix_0|left; by rewrite mix_0]).
  pose proof (persist_retrying_stores _ Ha l0 cs Hc Hf n 0 p Hp) as Hs.
  destruct (persist_retrying n cs p) as [p' [[]|e|]]; [| |done].
  - destruct Hs as (k & Hk & _ & Hd' & Hl'). rewrite !mix_all in * by lia.
    split; [by destruct Hl'|]. intros. by apply restart_loads.
  - destruct Hs as (k & _ & Hd' & _). exists k. intros. by apply restart_loads.
Qed.

(** ** Stored data that no change set touches *)

(** A fixed part that is set. *)
Definition is_set (pt : part) l : Prop :=
  match pt with
  | PDescriptor => is_Some (descriptor l)
  | PChangeDescriptor => is_Some (change_descriptor l)
  | PNetwork => is_Some (network l)
  | _ => False
  end.

Section frame.
Context (a : OnchainWalletAccount) (account_ok : 0 ≤ account_index a).
Context (l0 : ChangeSet) (Hfits : storable l0) (m0 : gmap kv_key bytes).

(** The set parts of [l0] are in memory and on disk, and other accounts' data is as
    in [m0]. *)
Definition frame p : Prop :=
  wallet_account p = a ∧
  (∃ l, latest_change_set p = Some l ∧ ∀ pt, is_set pt l0 → get_part pt l = get_part pt l0) ∧
  (∀ b key, b ≠ a → 0 ≤ account_index b →
     stored_bytes (kv_view (kv_store p)) b key = stored_bytes m0 b key) ∧
  (∀ pt, is_set pt l0 →
     part_read pt (stored_bytes (kv_view (kv_store p)) a (part_name pt))
     = Some (get_part pt (kept l0))).
Definition keeps (m : cmd KVStoreWalletPersister ErrorKind unit) : Prop :=
  ∀ p, frame p → frame (m p).1.

Lemma keeps_bind m m' : keeps m → keeps m' → keeps (m ≫= λ _, m').
Proof.
  intros Hm Hm' p Hp. specialize (Hm p Hp). unfold mbind, cmd_bind.
  destruct (m p) as [p1 [[]|e|]]; [by apply Hm'|done..].
Qed.

Lemma keeps_with_latest f :
  (∀ l, (∀ pt, is_set pt l0 → get_part pt l = get_part pt l0) → keeps (f l)) →
  keeps (with_latest f).
Proof.
  intros Hf p Hp. pose proof Hp as (_ & (l & Hl & Hset) & _).
  unfold with_latest, with_state. rewrite Hl. by apply Hf.
Qed.

Lemma store_part_keeps pt {A} {SF : StoredFormat A} set (value : A) :
  (∀ l pt', pt' ≠ pt → get_part pt' (set l) = get_part pt' l) →
  (is_set pt l0 → (∀ l, get_part pt (set l) = get_part pt l0) ∧
     part_read pt (Some (st_write value)) = Some (get_part pt (kept l0))) →
  keeps (store_part set (part_name pt) value).
Proof.
  intros Hother Hset p (Ha & (l & Hl & Hmem) & Hframe & Hdisk).
  unfold store_part, write_part. rewrite Hl. simpl. rewrite Ha.
  assert (∀ pt', is_set pt' l0 → get_part pt' (set l) = get_part pt' l0) as Hmem'.
  { intros pt' Hpt'. destruct (decide (part_index pt' = part_index pt)) as [->%part_index_inj|Hne].
    - by apply Hset.
    - rewrite Hother by congruence. auto. }
  destruct (kv_write_cases (kv_store p) (part_key a (part_name pt)) (st_write value))
    as [(kv & -> & Hv)|(kv & e & -> & Hv)]; unfold frame; simpl; rewrite Hv;
    (split_and!; [done|by eexists|..]); [| |done|done].
  - intros b key Hb Hb0. rewrite stored_bytes_write, decide_False by naive_solver. auto.
  - intros pt' Hpt'. rewrite stored_bytes_write by done. case_decide as Hd; [|auto].
    destruct Hd as [_ ->%part_name_inj]. by apply Hset.
Qed.

Lemma persist_fixed_keeps pt {A} {SF : StoredFormat A} {EQ : EqDecision A}
    (get : ChangeSet → option A) set change :
  (∀ x l pt', pt' ≠ pt → get_part pt' (set x l) = get_part pt' l) →
  (∀ l, is_set pt l0 → get_part pt l = get_part pt l0 → is_Some (get l)) →
  (∀ x l, get l = Some x → is_set pt l0 → get_part pt l = get_part pt l0 →
     (∀ l, get_part pt (set (Some x) l) = get_part pt l0) ∧
     part_read pt (Some (st_write x)) = Some (get_part pt (kept l0))) →
  keeps (persist_fixed get set (part_name pt) change).
Proof.
  intros Hother Hsome Hsame. unfold persist_fixed. destruct change as [x|]; [|by intros p Hp].
  apply keeps_with_latest. intros l Hl.
  destruct (bool_decide (is_Some (get l)) && negb (bool_decide (get l = Some x))) eqn:Hc;
    [by intros p Hp|].
  apply store_part_keeps; [intros; by apply Hother|]. intros Hset.
  apply (Hsame x l); [|done|by apply Hl].
  apply andb_false_iff in Hc as [Hc%bool_decide_eq_false|Hc%negb_false_iff%bool_decide_eq_true];
    [|done]. destruct Hc. by apply Hsome; [|apply Hl].
Qed.

Lemma persist_merged_keeps pt {A} {SF : StoredFormat A} {M : Merge A} (get : ChangeSet → A) set
    change :
  (∀ x l pt', pt' ≠ pt → get_part pt' (set x l) = get_part pt' l) → ¬ is_set pt l0 →
  keeps (persist_merged get set (part_name pt) change).
Proof.
  intros Hother Hns. unfold persist_merged. destruct (is_empty change); [by intros p Hp|].
  apply keeps_with_latest. intros l Hl. apply store_part_keeps; [intros; by apply Hother|done].
Qed.

Lemma persist_keeps cs : keeps (persist cs).
Proof.
  destruct Hfits as (Fd & Fc & Fn & _).
  unfold persist. destruct (change_set_is_empty cs); [by intros p Hp|].
  apply keeps_with_latest. intros _ _.
  apply keeps_bind; [apply (persist_fixed_keeps PDescriptor)|];
    [by intros x l []|simpl; by intros l ? ->| |].
  { simpl. intros x l Hx _ Heq. rewrite Heq in Hx. split; [done|].
    rewrite Hx. apply read_fixed_write. auto. }
  apply keeps_bind; [apply (persist_fixed_keeps PChangeDescriptor)|];
    [by intros x l []|simpl; by intros l ? ->| |].
  { simpl. intros x l Hx _ Heq. rewrite Heq in Hx. split; [done|].
    rewrite Hx. apply read_fixed_write. auto. }
  apply keeps_bind; [apply (persist_fixed_keeps PNetwork)|];
    [by intros x l []|simpl; by intros l ? ->| |].
  { simpl. intros x l Hx _ Heq. rewrite Heq in Hx. split; [done|].
    rewrite Hx. apply read_fixed_write. auto. }
  repeat apply keeps_bind; [apply (persist_merged_keeps PIndexer)|
    apply (persist_merged_keeps PTxGraph)|apply (persist_merged_keeps PLocalChain)];
    try (by intros x l []); by intros [].
Qed.
End frame.

(** No change set, however wrong, damages stored data it must not touch: whatever
    is persisted and whichever writes fail, descriptors and network that are on
    disk stay as they are, and so does everything stored for other accounts. *)
Theorem persist_protects cs l p :
  0 ≤ account_index (wallet_account p) → storable l →
  latest_change_set p = Some l →
  disk_agrees (kv_view (kv_store p)) (wallet_account p) l →
  let m' := kv_view (kv_store (persist cs p).1) in
  (∀ pt, is_set pt l →
     part_read pt (stored_bytes m' (wallet_account p) (part_name pt))
     = Some (get_part pt (kept l))) ∧
  (∀ b key, b ≠ wallet_account p → 0 ≤ account_index b →
     stored_bytes m' b key = stored_bytes (kv_view (kv_store p)) b key).
Proof.
  intros Ha Hf Hl Hd.
  destruct (persist_keeps (wallet_account p) Ha l Hf (kv_view (kv_store p)) cs p)
    as (_ & _ & Hframe & Hdisk); [|by auto].
  split_and!; [done|by exists l|done|]. intros pt _. apply Hd.
Qed.

(** ** Rewinding *)

Section rewind.
(** The chain's change sets are maps that later entries override. *)
Context (chain_merge : ∀ (c c' : LocalChainChangeSet) h,
  merge c c' !! h = match c' !! h with Some b => Some b | None => c !! h end).

(** The block of a change set's chain at a height. *)
Definition block_at l (h : Z) : option BlockHash := mjoin (local_chain l !! h).
Definition rewound (cp : BlockId) l : ChangeSet :=
  merged_after l (rewind_change_set cp (local_chain l)).

Lemma rewound_parts cp l : rewound cp l = set_local_chain (local_chain (rewound cp l)) l.
Proof.
  unfold rewound, merged_after, set_local_chain. simpl. f_equal; apply merge_empty, no_change_empty.
Qed.

Lemma rewound_blocks cp l h :
  block_at (rewound cp l) h =
  if decide (h < block_height cp) then block_at l h
  else if decide (h = block_height cp) then Some (block_hash cp) else None.
Proof.
  unfold block_at, rewound. simpl. rewrite chain_merge.
  destruct (decide (h = block_height cp)) as [->|Hne].
  { rewrite lookup_insert_eq. simpl. by rewrite decide_False by lia. }
  rewrite lookup_insert_ne, lookup_fmap, map_lookup_filter by done.
  destruct (local_chain l !! h) as [b|] eqn:Hb; simpl; [|by case_decide].
  destruct (decide (h < block_height cp)).
  - rewrite option_guard_False by lia. done.
  - rewrite option_guard_True by lia. done.
Qed.

Lemma mix_rewound k cp l : mix k l (rewound cp l) = l ∨ mix k l (rewound cp l) = rewound cp l.
Proof.
  rewrite rewound_parts. unfold mix, set_local_chain. destruct l; simpl.
  destruct (5 <? k)%nat; [right|left]; f_equal; by case_match.
Qed.

(** Rewinding to a checkpoint keeps descriptors, transactions and index, keeps the
    blocks below the checkpoint, sets its block and removes every block above, in
    memory and after a restart; it is refused only for another genesis block, and
    if a write fails a restart finds the wallet as before or fully rewound. *)
Theorem rewind_exact cp l p :
  0 ≤ account_index (wallet_account p) →
  latest_change_set p = Some l →
  disk_agrees (kv_view (kv_store p)) (wallet_account p) l →
  storable (rewound cp l) →
  (∀ h, block_at (rewound cp l) h =
    if decide (h < block_height cp) then block_at l h
    else if decide (h = block_height cp) then Some (block_hash cp) else None) ∧
  match rewind_to_checkpoint cp p with
  | (p', Ok _) =>
      latest_change_set p' = Some (rewound cp l) ∧
      rewound cp l = set_local_chain (local_chain (rewound cp l)) l ∧
      (reads_work (kv_store p') →
       restart (kv_store p') (wallet_account p) = Ok (loaded (rewound cp l)))
  | (p', Err e) =>
      (p' = p ∧ e = KindInvalidData ∧ block_height cp = 0 ∧ block_at l 0 ≠ Some (block_hash cp)) ∨
      (reads_work (kv_store p') →
       restart (kv_store p') (wallet_account p) = Ok (loaded l) ∨
       restart (kv_store p') (wallet_account p) = Ok (loaded (rewound cp l)))
  | (_, Panic) => False
  end.
Proof.
  intros Ha Hl Hd Hf. split; [intros h; apply rewound_blocks|].
  unfold rewind_to_checkpoint, mbind, cmd_bind, initialize. rewrite Hl.
  destruct (bool_decide (block_height cp = 0) && _) eqn:Hg.
  { apply andb_true_iff in Hg as [Hh%bool_decide_eq_true Hb%negb_true_iff%bool_decide_eq_false].
    simpl. left. done. }
  assert (prefix_state (wallet_account p) l (rewind_change_set cp (local_chain l)) 0 p) as Hp
    by (split_and!; [done|by rewrite mix_0|left; by rewrite mix_0]).
  assert (consistent l (rewind_change_set cp (local_chain l))) as Hc
    by (by split_and!; intros ? ? ?).
  pose proof (persist_stores _ Ha l _ Hc Hf 0%nat p ltac:(lia) Hp) as Hs.
  destruct (persist _ p) as [p' [[]|e|]]; [| |done].
  - destruct Hs as (k & Hk & _ & Hd' & Hl'). rewrite !mix_all in * by lia.
    split_and!; [by destruct Hl'|apply rewound_parts|]. intros. by apply restart_loads.
  - destruct Hs as (k & _ & Hd' & _). right. intros Hr.
    destruct (mix_rewound k cp l) as [Hm|Hm]; fold (rewound cp l) in Hd'; rewrite Hm in Hd';
      [left|right]; by apply restart_loads.
Qed.
End rewind.
End persist.
Arguments ChangeSet Descriptor Network : clear implicits.
Arguments KVStoreWalletPersister S Descriptor Network : clear implicits.
End persist.
