(* ===== verification/WalletExamples.v ===== *)
(** * The wallet's persistence on concrete formats

    Formats, merge operations and change sets that meet the assumptions of the
    persistence theorems, and the theorems at those inputs. *)

From S2P Require Import Prelude KVStore Types Config IoUtils WalletSer WalletPersist.
From S2P Require Import Codec StoreExamples.

(** ** Formats *)

(** A self-delimiting form for every countable type: the bits of its number. *)
Fixpoint wr_positive (p : positive) : bytes :=
  match p with
  | xO p => Byte.x00 :: wr_positive p
  | xI p => Byte.x01 :: wr_positive p
  | xH => [Byte.x02]
  end.
Fixpoint rd_positive (bs : bytes) : option (positive * bytes) :=
  match bs with
  | Byte.x00 :: bs => '(p, rest) ← rd_positive bs; Some (xO p, rest)
  | Byte.x01 :: bs => '(p, rest) ← rd_positive bs; Some (xI p, rest)
  | Byte.x02 :: bs => Some (xH, bs)
  | _ => None
  end.
Lemma rd_wr_positive p rest : rd_positive (wr_positive p ++ rest) = Some (p, rest).
Proof. induction p as [p IH|p IH|]; simpl; [by rewrite IH|by rewrite IH|done]. Qed.

#[global] Instance countable_codec `{Countable A} : LdkCodec A := {
  wr a := wr_positive (encode a);
  rd bs := '(p, rest) ← rd_positive bs; a ← decode p; Some (a, rest);
  fits _ := True;
}.
#[global] Instance countable_codec_spec `{Countable A} : LdkCodecSpec A.
Proof.
  split. intros a rest _. simpl. rewrite rd_wr_positive. simpl. by rewrite decode_encode.
Qed.

(** Lengths and record types in unary. *)
Definition wr_unary (n : Z) : bytes := replicate (Z.to_nat n) Byte.x01 ++ [Byte.x00].
Fixpoint rd_unary (bs : bytes) : option (Z * bytes) :=
  match bs with
  | Byte.x00 :: rest => Some (0, rest)
  | Byte.x01 :: bs => '(n, rest) ← rd_unary bs; Some (n + 1, rest)
  | _ => None
  end.
Lemma rd_wr_unary n rest : 0 ≤ n → rd_unary (wr_unary n ++ rest) = Some (n, rest).
Proof.
  intros Hn. unfold wr_unary. rewrite <- app_assoc. rewrite <- (Z2Nat.id n) at 2 by done.
  induction (Z.to_nat n) as [|k IH]; [done|].
  cbn [replicate app rd_unary] in *. rewrite IH. cbn [mbind option_bind]. do 2 f_equal. lia.
Qed.

Definition wr_record (r : tlv_record) : bytes := wr_unary r.1 ++ enc_bytes r.2.
(** One record per unit of fuel; a record takes at least one byte. *)
Fixpoint rd_records (fuel : nat) (bs : bytes) : option (list tlv_record) :=
  match bs, fuel with
  | [], _ => Some []
  | _, O => None
  | _, S fuel =>
      '(t, bs) ← rd_unary bs; '(v, bs) ← dec_bytes bs;
      recs ← rd_records fuel bs; Some ((t, v) :: recs)
  end.

#[global] Instance example_format : LdkFormat := {
  bigsize_wr := wr_unary;
  bigsize_rd := rd_unary;
  tlv_stream recs := concat (wr_record <$> recs);
  tlv_records bs := rd_records (length bs) bs;
}.

Lemma rd_records_step fuel bs :
  bs ≠ [] →
  rd_records (S fuel) bs =
  '(t, bs) ← rd_unary bs; '(v, bs) ← dec_bytes bs;
  recs ← rd_records fuel bs; Some ((t, v) :: recs).
Proof. by destruct bs. Qed.

Lemma rd_wr_records recs fuel :
  Forall is_u64 recs.*1 → (length (concat (wr_record <$> recs)) ≤ fuel)%nat →
  rd_records fuel (concat (wr_record <$> recs)) = Some recs.
Proof.
  revert fuel. induction recs as [|[t v] recs IH]; intros fuel Ht Hf; [by destruct fuel|].
  csimpl in *. apply Forall_cons in Ht as [Ht Hts]. rewrite length_app in Hf.
  assert (1 ≤ length (wr_record (t, v)))%nat as Hlen.
  { unfold wr_record, wr_unary. simpl. rewrite !length_app. simpl. lia. }
  destruct fuel as [|fuel]; [lia|]. rewrite rd_records_step.
  2: { intros [Hn _]%app_nil. rewrite Hn in Hlen. simpl in Hlen. lia. }
  unfold wr_record at 1. cbn [fst snd]. rewrite <- app_assoc.
  rewrite rd_wr_unary by apply Ht. cbn [mbind option_bind].
  rewrite dec_enc_bytes.
  cbn [mbind option_bind]. rewrite IH; [done|done|lia].
Qed.

Lemma enc_bytes_len bs : (length bs ≤ length (enc_bytes bs))%nat.
Proof. induction bs; simpl; lia. Qed.

#[global] Instance example_format_spec : LdkFormatSpec.
Proof.
  split.
  - intros n rest [Hn _]. by apply rd_wr_unary.
  - intros recs _ Ht _. by apply rd_wr_records.
  - intros recs r Hr. simpl. unfold byte_len.
    assert (byte_len (wr_record r) ≤ byte_len (concat (wr_record <$> recs))) as Hc
      by (apply byte_len_concat, list_elem_of_fmap_2, Hr).
    unfold byte_len in Hc. pose proof (enc_bytes_len r.2).
    assert (length (enc_bytes r.2) ≤ length (wr_record r))%nat
      by (unfold wr_record; rewrite length_app; lia). lia.
Qed.

#[global] Instance elements_order `{Countable A} : SetOrder A :=
  {| set_iter s := elements s; set_iter_perm s := Permutation_refl _ |}.
#[local] Instance revealed_order : IterOrder DescriptorId := canonical_order DescriptorId.

(** ** Merging *)

(** Maps of times or indices: an entry of both sides is the larger, or the smaller. *)
Definition merge_by (f : Z → Z → Z) {K} `{Countable K} (m m' : gmap K Z) : gmap K Z :=
  union_with (λ x y, Some (f x y)) m m'.
Lemma merge_by_idem f {K} `{Countable K} (m m' : gmap K Z) :
  (∀ x y, f (f x y) y = f x y) → (∀ x, f x x = x) →
  merge_by f (merge_by f m m') m' = merge_by f m m'.
Proof.
  intros Hf Hx. apply map_eq. intros k. unfold merge_by. rewrite !lookup_union_with.
  destruct (m !! k), (m' !! k); simpl; by rewrite ?Hf, ?Hx.
Qed.
Lemma merge_by_empty f {K} `{Countable K} (m : gmap K Z) : merge_by f m ∅ = m.
Proof.
  apply map_eq. intros k. unfold merge_by. rewrite lookup_union_with, lookup_empty.
  by destruct (m !! k).
Qed.

#[global] Instance chain_merge : Merge LocalChainChangeSet := {
  merge c c' := c' ∪ c;
  is_empty c := bool_decide (c = ∅);
  no_change := ∅;
}.
#[global] Instance chain_merge_spec : MergeSpec LocalChainChangeSet.
Proof.
  split; simpl.
  - intros c c'. apply map_eq. intros h. rewrite !lookup_union. by destruct (c' !! h), (c !! h).
  - intros c c' ->%bool_decide_eq_true. apply (left_id_L ∅ (∪)).
  - done.
Qed.

#[global] Instance graph_merge : Merge TxGraphChangeSet := {
  merge g g' :=
    {| txs := txs g ∪ txs g'; txouts := txouts g' ∪ txouts g; anchors := anchors g ∪ anchors g';
       last_seen := merge_by Z.max (last_seen g) (last_seen g');
       first_seen := merge_by Z.min (first_seen g) (first_seen g');
       last_evicted := merge_by Z.max (last_evicted g) (last_evicted g') |};
  is_empty g :=
    bool_decide (txs g = ∅) && bool_decide (txouts g = ∅) && bool_decide (anchors g = ∅) &&
    bool_decide (last_seen g = ∅) && bool_decide (first_seen g = ∅) &&
    bool_decide (last_evicted g = ∅);
  no_change :=
    {| txs := ∅; txouts := ∅; anchors := ∅; last_seen := ∅; first_seen := ∅; last_evicted := ∅ |};
}.
#[global] Instance graph_merge_spec : MergeSpec TxGraphChangeSet.
Proof.
  split; simpl.
  - intros g g'. f_equal; [set_solver| |set_solver|apply merge_by_idem; lia..].
    apply map_eq. intros h. rewrite !lookup_union. by destruct (txouts g' !! h), (txouts g !! h).
  - intros g g'. rewrite !andb_true_iff, !bool_decide_eq_true.
    intros [[[[[-> ->] ->] ->] ->] ->]. rewrite !merge_by_empty, !(right_id_L ∅ (∪)).
    rewrite (left_id_L ∅ (∪)). by destruct g.
  - done.
Qed.

#[global] Instance indexer_merge : Merge IndexerChangeSet := {
  merge i i' :=
    {| last_revealed := merge_by Z.max (last_revealed i) (last_revealed i');
       spk_cache := spk_cache i' ∪ spk_cache i |};
  is_empty i := bool_decide (last_revealed i = ∅) && bool_decide (spk_cache i = ∅);
  no_change := {| last_revealed := ∅; spk_cache := ∅ |};
}.
#[global] Instance indexer_merge_spec : MergeSpec IndexerChangeSet.
Proof.
  split; simpl.
  - intros i i'. f_equal; [apply merge_by_idem; lia|].
    apply map_eq. intros h. rewrite !lookup_union.
    by destruct (spk_cache i' !! h), (spk_cache i !! h).
  - intros i i'. rewrite andb_true_iff, !bool_decide_eq_true. intros [-> ->].
    rewrite merge_by_empty, (left_id_L ∅ (∪)). by destruct i.
  - done.
Qed.

(** ** Stored parts *)

(** Descriptors are their printed form; two networks with their magic bytes. *)
Definition example_magic (n : bool) : bytes :=
  if n then [Byte.xf9; Byte.xbe; Byte.xb4; Byte.xd9] else [Byte.x0b; Byte.x11; Byte.x09; Byte.x07].
Definition example_from_magic (bs : bytes) : option bool :=
  if decide (bs = example_magic true) then Some true
  else if decide (bs = example_magic false) then Some false else None.

Definition hash_a : bytes := replicate 32 Byte.x0a.
Definition example_tx : Transaction :=
  {| version := 2; lock_time := 0; input := []; output := [] |}.
Definition example_blocks : LocalChainChangeSet := {[0 := Some hash_a]}.
Definition example_graph : TxGraphChangeSet :=
  {| txs := {[example_tx]}; txouts := ∅;
     anchors := {[ (mkConfirmationBlockTime (mkBlockId 7 hash_a) 1000, hash_a) ]};
     last_seen := {[ hash_a := 12 ]}; first_seen := ∅; last_evicted := ∅ |}.
Definition example_index : IndexerChangeSet :=
  {| last_revealed := {[ hash_a := 3 ]}; spk_cache := ∅ |}.

#[local] Instance example_u32 : LdkCodec Z := countable_codec.

Lemma example_anchor_fits :
  anchor_fits (mkConfirmationBlockTime (mkBlockId 7 hash_a) 1000, hash_a).
Proof.
  split_and!; [split; [vm_compute; split; discriminate|reflexivity]
    |vm_compute; split; discriminate|reflexivity].
Qed.
Lemma example_graph_fits : tx_graph_fits example_u32 example_u32 example_graph.
Proof.
  refine (conj (λ _ _, I) (conj _ (conj I (conj I (conj I (conj I (conj _ (conj _ _)))))))).
  - intros a Ha. cbn [anchors example_graph] in Ha. apply elem_of_singleton in Ha as ->.
    apply example_anchor_fits.
  - vm_compute. discriminate.
  - vm_compute. discriminate.
  - vm_compute. discriminate.
Qed.
Lemma example_index_fits : indexer_fits example_u32 example_index.
Proof.
  refine (conj _ (conj _ _)); [|vm_compute; discriminate..].
  intros d n Hd. cbn [last_revealed example_index] in Hd.
  apply lookup_singleton_Some in Hd as [<- <-]. split; [reflexivity|].
  vm_compute; split; discriminate.
Qed.
Lemma example_blocks_fits : local_chain_fits example_blocks.
Proof. refine (conj I _). vm_compute. discriminate. Qed.

Lemma stored_parts_roundtrip_witness :
  read_tx_graph example_u32 example_u32 (write_tx_graph example_u32 example_u32 example_graph)
  = Some example_graph.
Proof.
  refine (proj1 (proj2 (proj2 (proj2 (proj2 (stored_parts_roundtrip (λ s, s) Some example_magic
    example_from_magic example_u32 example_u32 _ _ _ _ _ _
    EmptyString true example_blocks example_graph example_index _ _ _ _ _)))))).
  - reflexivity.
  - by intros [].
  - by intros [].
  - exact (λ _ _, I).
  - exact (λ _ _, I).
  - exact (λ _ _, I).
  - exact I.
  - exact example_blocks_fits.
  - exact example_graph_fits.
  - exact example_index_fits.
  - vm_compute. discriminate.
Defined.

(** ** Persisting *)

#[local] Instance example_descriptors : StoredFormat string := descriptor_format (λ s, s) Some.
#[local] Instance example_networks : StoredFormat bool :=
  network_format example_magic example_from_magic.
#[local] Instance example_chains : StoredFormat LocalChainChangeSet := local_chain_format.
#[local] Instance example_graphs : StoredFormat TxGraphChangeSet :=
  tx_graph_format example_u32 example_u32.
#[local] Instance example_indexes : StoredFormat IndexerChangeSet := indexer_format example_u32.

#[local] Instance example_descriptors_spec : StoredFormatSpec string.
Proof. exact (descriptor_format_spec _ _ (λ d, eq_refl)). Qed.
#[local] Instance example_networks_spec : StoredFormatSpec bool.
Proof. refine (network_format_spec _ _ _ _); by intros []. Qed.
#[local] Instance example_chains_spec : StoredFormatSpec LocalChainChangeSet.
Proof. exact local_chain_format_spec. Qed.
#[local] Instance example_graphs_spec : StoredFormatSpec TxGraphChangeSet.
Proof. exact (tx_graph_format_spec _ _ (λ _ _, I) (λ _ _, I) (λ _ _, I)). Qed.
#[local] Instance example_indexes_spec : StoredFormatSpec IndexerChangeSet.
Proof. exact (indexer_format_spec _ (λ _ _, I)). Qed.

Definition example_change : persist.ChangeSet string bool :=
  {| persist.descriptor := Some "wpkh(a)"%string;
     persist.change_descriptor := Some "wpkh(b)"%string;
     persist.network := Some true; persist.local_chain := example_blocks;
     persist.tx_graph := example_graph; persist.indexer := example_index |}.

(** A new wallet; the fifth write fails, so the change is tried again. *)
Definition example_account : OnchainWalletAccount := account_zero Taproot.
Definition example_new : persist.KVStoreWalletPersister FaultyStore string bool :=
  {| persist.latest_change_set := Some persist.default_change_set;
     persist.kv_store :=
       {| contents := ∅; faults := [false; false; false; false; true] |};
     persist.wallet_account := example_account |}.
Definition example_stored : persist.KVStoreWalletPersister FaultyStore string bool :=
  (persist.persist_retrying 1 example_change example_new).1.

Lemma faulty_reads_work (s : FaultyStore) : reads_work s.
Proof. by intros k. Qed.

Lemma merge_by_no_change f {K} `{Countable K} (m : gmap K Z) : merge_by f ∅ m = m.
Proof.
  apply map_eq. intros k. unfold merge_by. rewrite lookup_union_with, lookup_empty.
  by destruct (m !! k).
Qed.
Lemma merged_from_default (cs : persist.ChangeSet string bool) :
  persist.merged_after persist.default_change_set cs = cs.
Proof.
  apply persist.change_set_ext. intros []; cbn [persist.get_part persist.merged_after
    persist.descriptor persist.change_descriptor persist.network persist.indexer persist.tx_graph
    persist.local_chain persist.default_change_set]; [unfold persist.fixed_after; by case_match..| | |].
  - destruct (persist.indexer cs) as [r s]. unfold merge, no_change, indexer_merge.
    cbn [last_revealed spk_cache]. f_equal; [apply merge_by_no_change|apply (right_id_L ∅ (∪))].
  - destruct (persist.tx_graph cs) as [g1 g2 g3 g4 g5 g6]. unfold merge, no_change, graph_merge.
    cbn [txs txouts anchors last_seen first_seen last_evicted].
    f_equal; first [apply merge_by_no_change|apply (left_id_L ∅ (∪))|apply (right_id_L ∅ (∪))].
  - exact (right_id_L (∅ : LocalChainChangeSet) (∪) _).
Qed.

Lemma example_storable : persist.storable example_change.
Proof.
  refine (conj (λ _ _, I) (conj (λ _ _, I) (conj (λ _ _, I) (conj example_blocks_fits
    (conj example_graph_fits example_index_fits))))).
Qed.

Lemma persist_crash_safe_witness :
  persist.restart (persist.kv_store example_stored) example_account = Ok example_change.
Proof.
  assert (is_ok (persist.persist_retrying 1 example_change example_new).2 = true) as Hok
    by (vm_compute; reflexivity).
  pose proof (persist.persist_crash_safe 1 example_change persist.default_change_set example_new)
    as H. rewrite merged_from_default in H.
  unfold example_stored.
  destruct (persist.persist_retrying 1 example_change example_new) as [p' [[]|e|]];
    [|discriminate Hok..].
  refine (proj2 (H _ _ _ _ _) (faulty_reads_work _)).
  - done.
  - done.
  - intros []; reflexivity.
  - by split_and!; intros ? ? ?.
  - apply example_storable.
Defined.

Lemma example_agrees :
  persist.disk_agrees (kv_view (persist.kv_store example_new)) example_account
    (persist.default_change_set : persist.ChangeSet string bool).
Proof. intros []; reflexivity. Qed.

(** The wallet after its first change, with all of it on disk. *)
Definition loaded_at (m : gmap kv_key bytes) : persist.KVStoreWalletPersister FaultyStore string bool :=
  {| persist.latest_change_set := Some example_change;
     persist.kv_store := {| contents := m; faults := [] |};
     persist.wallet_account := example_account |}.
Definition example_loaded := loaded_at (contents (persist.kv_store example_stored)).

Lemma example_stored_agrees :
  persist.disk_agrees (contents (persist.kv_store example_stored)) example_account example_change.
Proof.
  assert (is_ok (persist.persist_retrying 1 example_change example_new).2 = true) as Hok
    by (vm_compute; reflexivity).
  pose proof (persist.persist_retrying_stores (S := FaultyStore) (Descriptor := string)
    (Network := bool) example_account ltac:(done)
    (persist.default_change_set : persist.ChangeSet string bool) example_change) as H.
  rewrite merged_from_default in H.
  specialize (H ltac:(by split_and!; intros ? ? ?) example_storable 1%nat 0%nat example_new).
  unfold example_stored.
  destruct (persist.persist_retrying 1 example_change example_new) as [p' [[]|e|]];
    [|discriminate Hok..].
  destruct H as (k & Hk & _ & Hd & _).
  - split_and!; [done| |left; reflexivity]. rewrite persist.mix_0. apply example_agrees.
  - rewrite persist.mix_all, merged_from_default in Hd by done. exact Hd.
Qed.

(** A change set with another descriptor is refused and the stored one stays. *)
(** The same for the loaded wallet. *)
Lemma loaded_at_agrees m :
  persist.disk_agrees m example_account example_change →
  persist.disk_agrees (kv_view (persist.kv_store (loaded_at m)))
    (persist.wallet_account (loaded_at m)) example_change.
Proof. done. Qed.
Lemma example_loaded_agrees :
  persist.disk_agrees (kv_view (persist.kv_store example_loaded))
    (persist.wallet_account example_loaded) example_change.
Proof. exact (loaded_at_agrees _ example_stored_agrees). Qed.

Definition example_wrong : persist.ChangeSet string bool :=
  persist.set_descriptor (Some "wpkh(c)"%string) persist.default_change_set.

Lemma persist_protects_witness :
  persist.part_read persist.PDescriptor
    (stored_bytes (kv_view (persist.kv_store (persist.persist example_wrong example_loaded).1))
       example_account BDK_WALLET_DESCRIPTOR_KEY)
  = Some (Some "wpkh(a)"%string).
Proof.
  refine (proj1 (persist.persist_protects example_wrong example_change example_loaded
    _ _ _ _) persist.PDescriptor _).
  - done.
  - apply example_storable.
  - reflexivity.
  - exact example_loaded_agrees.
  - by eexists.
Defined.

Definition example_checkpoint : BlockId := mkBlockId 0 hash_a.

Lemma example_rewound_storable :
  persist.storable (persist.rewound example_checkpoint example_change).
Proof.
  rewrite persist.rewound_parts.
  refine (conj (λ _ _, I) (conj (λ _ _, I) (conj (λ _ _, I) (conj (conj I _)
    (conj example_graph_fits example_index_fits))))).
  vm_compute. discriminate.
Qed.

Lemma example_chain_merge (c c' : LocalChainChangeSet) h :
  merge c c' !! h = match c' !! h with Some b => Some b | None => c !! h end.
Proof. unfold merge, chain_merge. rewrite lookup_union. by destruct (c' !! h), (c !! h). Qed.

Lemma rewind_exact_witness :
  persist.block_at (persist.rewound example_checkpoint example_change) 0 = Some hash_a.
Proof.
  refine (proj1 (persist.rewind_exact example_chain_merge example_checkpoint example_change
    example_loaded _ _ _ _) 0).
  - done.
  - reflexivity.
  - exact example_loaded_agrees.
  - apply example_rewound_storable.
Defined.

(** LDK's limits on names. *)
Definition ldk_alphabet (c : Ascii.ascii) : bool :=
  let n := Ascii.N_of_ascii c in
  is_digit c || ((97 <=? n)%N && (n <=? 122)%N) || ((65 <=? n)%N && (n <=? 90)%N)
  || (n =? 95)%N || (n =? 45)%N.

Lemma wallet_locations_valid_witness :
  check_namespace_key_validity 120 ldk_alphabet BDK_WALLET_PRIMARY_NAMESPACE
    (change_set_namespace (mkAccount NestedSegwit 7)) (Some BDK_WALLET_TX_GRAPH_KEY) = Ok tt.
Proof.
  refine (proj1 (wallet_locations_valid 120 ldk_alphabet _ _ (mkAccount NestedSegwit 7)
    (account_zero Legacy) BDK_WALLET_TX_GRAPH_KEY EmptyString _ _ _)).
  - lia.
  - intros c Hc. unfold name_char in Hc. unfold ldk_alphabet.
    apply orb_true_iff in Hc as [[->| ->]%orb_true_iff| ->]; by rewrite ?orb_true_r.
  - vm_compute. split; discriminate.
  - vm_compute. split; discriminate.
  - unfold change_set_keys. rewrite !elem_of_cons. tauto.
Defined.
