(* ===== verification/WalletKeys.v ===== *)
(** * Keys and account wallets ([src/builder.rs])

    Which keys and descriptors an on-chain account has, how the wallet of an account
    is loaded from the store or created, and how the configured accounts are checked
    and loaded when the node is built.  Key derivation is the [bitcoin] crate's and
    loading a wallet is BDK's: both are interfaces here. *)

From stdpp Require Import functions.
From Stdlib Require Import Strings.Byte.
From S2P Require Import Prelude Types KVStore Bdk Config.

(** [BuildError], all variants. *)
Inductive BuildError :=
| InvalidSeedBytes | InvalidSeedFile | InvalidSystemTime | InvalidChannelMonitor
| InvalidListeningAddresses | InvalidAnnouncementAddresses | InvalidNodeAlias
| RuntimeSetupFailed | ReadFailed | DangerousValue | WriteFailed
| StoragePathAccessFailed | KVStoreSetupFailed | WalletSetupFailed | LoggerSetupFailed
| NetworkMismatch | AsyncPaymentsConfigMismatch.

(** [bitcoin::Network]; [BitcoinMainnet] is [Network::Bitcoin]. *)
Inductive Network := BitcoinMainnet | Testnet | Testnet4 | Signet | Regtest.

#[global] Instance Network_eq_dec : EqDecision Network.
Proof. solve_decision. Defined.

(** [bitcoin::bip32::ChildNumber] with its two constructors' range check: an index
    has 31 bits. *)
Inductive ChildNumber := Normal (index : Z) | Hardened (index : Z).
Definition from_normal_idx (index : Z) : option ChildNumber :=
  if Z.testbit index 31 then None else Some (Normal index).
Definition from_hardened_idx (index : Z) : option ChildNumber :=
  if Z.testbit index 31 then None else Some (Hardened index).
Abbreviation DerivationPath := (list ChildNumber).

(** ** Trimming

    [str::trim] removes the code points with the Unicode property [White_Space] on
    both sides; here is their UTF-8 encoding. *)

Definition white_space : list (list u8) :=
  [[x09]; [x0a]; [x0b]; [x0c]; [x0d]; [x20]; [xc2; x85]; [xc2; xa0]; [xe1; x9a; x80];
   [xe2; x80; x80]; [xe2; x80; x81]; [xe2; x80; x82]; [xe2; x80; x83]; [xe2; x80; x84];
   [xe2; x80; x85]; [xe2; x80; x86]; [xe2; x80; x87]; [xe2; x80; x88]; [xe2; x80; x89];
   [xe2; x80; x8a]; [xe2; x80; xa8]; [xe2; x80; xa9]; [xe2; x80; xaf]; [xe2; x81; x9f];
   [xe3; x80; x80]].

(** [bs] without the prefix [p]. *)
Definition strip_prefix (p bs : list u8) : option (list u8) :=
  if decide (take (length p) bs = p) then Some (drop (length p) bs) else None.

(** Remove prefixes in [ps] as long as there is one; every prefix removed shortens the
    text, so [length bs] rounds are enough. *)
Fixpoint strip_all (fuel : nat) (ps : list (list u8)) (bs : list u8) : list u8 :=
  match fuel with
  | 0%nat => bs
  | S n =>
      match find_map (λ p, strip_prefix p bs) ps with
      | Some bs => strip_all n ps bs
      | None => bs
      end
  end.
Definition trim_start (bs : list u8) : list u8 := strip_all (length bs) white_space bs.
Definition trim_end (bs : list u8) : list u8 :=
  reverse (strip_all (length bs) (reverse <$> white_space) (reverse bs)).
Definition trim (bs : list u8) : list u8 := trim_end (trim_start bs).

(** ** Derivation paths *)

Definition bip_coin_type (network : Network) : Z :=
  match network with BitcoinMainnet => 0 | _ => 1 end.

Definition account_derivation_path (t : AddressType) (network : Network) (account_index : Z) :
    outcome BuildError DerivationPath :=
  if MAX_ONCHAIN_WALLET_ACCOUNT_INDEX <? account_index then Err InvalidSeedBytes
  else
    p ← ok_or (from_hardened_idx (bip_purpose t)) InvalidSeedBytes;
    c ← ok_or (from_hardened_idx (bip_coin_type network)) InvalidSeedBytes;
    i ← ok_or (from_hardened_idx account_index) InvalidSeedBytes;
    Ok [p; c; i].

Definition keychain_index (k : KeychainKind) : Z :=
  match k with External => 0 | Internal => 1 end.

Definition account_keychain_derivation_path (t : AddressType) (network : Network)
    (account_index : Z) (k : KeychainKind) : outcome BuildError DerivationPath :=
  path ← account_derivation_path t network account_index;
  i ← ok_or (from_normal_idx (keychain_index k)) InvalidSeedBytes;
  Ok (path ++ [i]).

(** ** Keys *)

(** [bitcoin::bip32]: master keys, derivation, and the text of the public key. *)
Class Bip32 (Xpriv : Type) := {
  new_master : Network → list u8 → option Xpriv;
  fingerprint : Xpriv → list u8;
  derive_priv : Xpriv → DerivationPath → option Xpriv;
  (** [Xpub::from_priv(..).to_string()], as UTF-8. *)
  xpub_string : Xpriv → list u8;
}.

(** [bdk_wallet::template]: the BIP templates on a master key, and the single-key
    templates on a key with its derivation path. *)
Inductive Template (Xpriv : Type) :=
| Bip44 (master : Xpriv) (k : KeychainKind)
| Bip49 (master : Xpriv) (k : KeychainKind)
| Bip84 (master : Xpriv) (k : KeychainKind)
| Bip86 (master : Xpriv) (k : KeychainKind)
| P2Pkh (key : Xpriv * DerivationPath)
| P2Wpkh_P2Sh (key : Xpriv * DerivationPath)
| P2Wpkh (key : Xpriv * DerivationPath)
| P2TR (key : Xpriv * DerivationPath).
Arguments Bip44 {_} _ _.
Arguments Bip49 {_} _ _.
Arguments Bip84 {_} _ _.
Arguments Bip86 {_} _ _.
Arguments P2Pkh {_} _.
Arguments P2Wpkh_P2Sh {_} _.
Arguments P2Wpkh {_} _.
Arguments P2TR {_} _.

(** [LoadWithPersistError], as far as it is distinguished. *)
Inductive LoadError := LoadNetworkMismatch | OtherLoadError.

(** What the wallet needs of its persisters: [KVStoreWalletPersister] of
    [src/wallet/persist.rs], which [WalletPersist] models and [WalletLink] shows to
    implement this interface.  [P] is the persister, opened on a store of type [D]. *)
Class Persister (P D : Type) := {
  persister_new : D → OnchainWalletAccount → P;
  (** The store behind a persister, and the persister on a store that was changed
      through another handle. *)
  persister_store : P → D;
  set_persister_store : D → P → P;
  persister_rewind : BlockId → P → P * outcome ErrorKind unit;
}.
Class PersisterSpec (P D : Type) {PS : Persister P D} : Prop := {
  persister_store_new : ∀ d a, persister_store (persister_new d a) = d;
  persister_store_set : ∀ d p, persister_store (set_persister_store d p) = d;
}.

(** What the builder needs of BDK wallets: [BdkWallet::load] and [create] with their
    parameters, [CheckPoint::insert] (which aborts, [None], on a different genesis
    block) and [apply_update] with an update that only has a chain. *)
Class WalletLoader (Xpriv W P : Type) := {
  load_wallet : Template Xpriv → Template Xpriv → Network → option Z → P →
    P * outcome LoadError (option W);
  create_wallet : Template Xpriv → Template Xpriv → Network → option Z → P → P * option W;
  checkpoint_insert : CheckPoint → BlockId → option CheckPoint;
  apply_chain_update : W → CheckPoint → W * bool;
}.

(** [BestBlock] of [lightning]. *)
Record BestBlock := mkBestBlock { best_block_hash : BlockHash; best_height : Z }.
Definition best_block_id (b : BestBlock) : BlockId :=
  {| block_height := best_height b; block_hash := best_block_hash b |}.

Section keys.
Context {Xpriv : Type} {B32 : Bip32 Xpriv}.
Context {W P U Ev D : Type} {BDK : Bdk W P U Ev} {WL : WalletLoader Xpriv W P} {PER : Persister P D}.

Definition derive_account_xprv (master_xprv : Xpriv) (network : Network) (t : AddressType)
    (account_index : Z) : outcome BuildError (Xpriv * list u8) :=
  account_path ← account_derivation_path t network account_index;
  account_xprv ← ok_or (derive_priv master_xprv account_path) InvalidSeedBytes;
  Ok (account_xprv, fingerprint master_xprv).

Definition derive_account_xpub_string (master_xprv : Xpriv) (network : Network)
    (t : AddressType) (account_index : Z) : outcome BuildError (list u8) :=
  '(account_xprv, _) ← derive_account_xprv master_xprv network t account_index;
  Ok (xpub_string account_xprv).

(** ** Loading the wallet of an account *)

(** The [load_or_create!] macro; the flag says whether the wallet was loaded. *)
Definition load_or_create (network : Network) (lookahead : option Z)
    (ext int : Template Xpriv) : cmd P BuildError (W * bool) := λ p,
  match load_wallet ext int network lookahead p with
  | (p, Ok (Some w)) => (p, Ok (w, true))
  | (p, Ok None) =>
      let '(p, r) := create_wallet ext int network lookahead p in
      (p, ok_or ((λ w, (w, false)) <$> r) WalletSetupFailed)
  | (p, Err LoadNetworkMismatch) => (p, Err NetworkMismatch)
  | (p, Err OtherLoadError) => (p, Err WalletSetupFailed)
  | (p, Panic) => (p, Panic)
  end.

(** The descriptors of an account: the BIP templates on the master key for account 0,
    and explicit key paths for the derived accounts. *)
Definition account_templates (a : OnchainWalletAccount) (master_xprv : Xpriv)
    (network : Network) : outcome BuildError (Template Xpriv * Template Xpriv) :=
  if account_index a =? 0 then
    Ok match address_type a with
       | Legacy => (Bip44 master_xprv External, Bip44 master_xprv Internal)
       | NestedSegwit => (Bip49 master_xprv External, Bip49 master_xprv Internal)
       | NativeSegwit => (Bip84 master_xprv External, Bip84 master_xprv Internal)
       | Taproot => (Bip86 master_xprv External, Bip86 master_xprv Internal)
       end
  else if MAX_ONCHAIN_WALLET_ACCOUNT_INDEX <? account_index a then Err InvalidSeedBytes
  else
    external_path ← account_keychain_derivation_path (address_type a) network
                      (account_index a) External;
    internal_path ← account_keychain_derivation_path (address_type a) network
                      (account_index a) Internal;
    let external_key := (master_xprv, external_path) in
    let internal_key := (master_xprv, internal_path) in
    Ok match address_type a with
       | Legacy => (P2Pkh external_key, P2Pkh internal_key)
       | NestedSegwit => (P2Wpkh_P2Sh external_key, P2Wpkh_P2Sh internal_key)
       | NativeSegwit => (P2Wpkh external_key, P2Wpkh internal_key)
       | Taproot => (P2TR external_key, P2TR internal_key)
       end.

Definition get_or_create_wallet_for_account (a : OnchainWalletAccount) (master_xprv : Xpriv)
    (network : Network) (lookahead : option Z) : cmd P BuildError (W * bool) :=
  '(ext, int) ← lift (account_templates a master_xprv network);
  load_or_create network lookahead ext int.

(** A wallet that was just created starts at the given tip: the tip is inserted into
    its checkpoint and the result applied. *)
Definition start_at_tip (w : W) (tip : BestBlock) : outcome BuildError W :=
  cp ← expect (checkpoint_insert (latest_checkpoint w) (best_block_id tip));
  let '(w, ok) := apply_chain_update w cp in
  if (ok : bool) then Ok w else Err WalletSetupFailed.

(** ** The configured accounts *)

Record OnchainWalletAccountConfig := mkAccountConfig {
  configured_type : AddressType;
  configured_index : Z;
  configured_xpub : list u8;
}.

Definition validate_configured_account (network : Network) (xprv : Xpriv)
    (c : OnchainWalletAccountConfig) : outcome BuildError OnchainWalletAccount :=
  let i := configured_index c in
  if (i =? 0) || (MAX_ONCHAIN_WALLET_ACCOUNT_INDEX <? i) then Err InvalidSeedBytes
  else
    let account := mkAccount (configured_type c) i in
    expected_xpub ← derive_account_xpub_string xprv network (configured_type c) i;
    if decide (trim (configured_xpub c) = expected_xpub) then Ok account
    else Err InvalidSeedBytes.

(** [seen] holds exactly the accounts listed already. *)
Definition add_configured_account (network : Network) (xprv : Xpriv)
    (accounts : list OnchainWalletAccount) (c : OnchainWalletAccountConfig) :
    outcome BuildError (list OnchainWalletAccount) :=
  account ← validate_configured_account network xprv c;
  Ok (if decide (account ∈ accounts) then accounts else accounts ++ [account]).
Definition validate_configured_onchain_wallet_accounts (network : Network) (xprv : Xpriv)
    (configured : list OnchainWalletAccountConfig) :
    outcome BuildError (list OnchainWalletAccount) :=
  try_fold (add_configured_account network xprv) [] configured.

(** The stores of the accounts: each account's persister works on locations of its
    own, so the shared store is given here as one store per account. *)
Abbreviation account_stores := (OnchainWalletAccount → D).

Definition build_wallet_for_account (network : Network) (a : OnchainWalletAccount)
    (xprv : Xpriv) (chain_tip_opt : option BestBlock) (lookahead : option Z) :
    cmd account_stores BuildError (OnchainWalletAccount * W * P) := λ stores,
  let '(p, r) :=
    get_or_create_wallet_for_account a xprv network lookahead (persister_new (stores a) a) in
  let stores := <[a := persister_store p]> stores in
  (stores,
   '(w, loaded_from_store) ← r;
   w ← match chain_tip_opt with
       | Some tip => if (loaded_from_store : bool) then Ok w else start_at_tip w tip
       | None => Ok w
       end;
   Ok (a, w, p)).

(** A monitored address type whose wallet cannot be built is left out. *)
Fixpoint build_monitored_wallets (network : Network) (xprv : Xpriv)
    (chain_tip_opt : option BestBlock) (types : list AddressType) :
    cmd account_stores BuildError (list (OnchainWalletAccount * W * P)) := λ stores,
  match types with
  | [] => (stores, Ok [])
  | t :: types =>
      let '(stores, r) :=
        build_wallet_for_account network (account_zero t) xprv chain_tip_opt None stores in
      let '(stores, rest) := build_monitored_wallets network xprv chain_tip_opt types stores in
      (stores,
       match r with
       | Ok tuple => (λ ws, tuple :: ws) <$> rest
       | Err _ => rest
       | Panic => Panic
       end)
  end.

Fixpoint build_configured_wallets (network : Network) (xprv : Xpriv)
    (chain_tip_opt : option BestBlock) (lookahead : Z) (accounts : list OnchainWalletAccount) :
    cmd account_stores BuildError (list (OnchainWalletAccount * W * P)) :=
  match accounts with
  | [] => mret []
  | a :: accounts =>
      tuple ← build_wallet_for_account network a xprv chain_tip_opt (Some lookahead);
      rest ← build_configured_wallets network xprv chain_tip_opt lookahead accounts;
      mret (tuple :: rest)
  end.

Definition build_additional_wallets (network : Network) (additional_types : list AddressType)
    (configured_accounts : list OnchainWalletAccount) (xprv : Xpriv)
    (chain_tip_opt : option BestBlock) (derived_account_lookahead : Z) :
    cmd account_stores BuildError (list (OnchainWalletAccount * W * P)) :=
  monitored_wallets ← build_monitored_wallets network xprv chain_tip_opt additional_types;
  derived_wallets ← build_configured_wallets network xprv chain_tip_opt derived_account_lookahead
    configured_accounts;
  mret (monitored_wallets ++ derived_wallets).
End keys.

(** ** Properties of the keys *)

(** BDK's documentation of its templates: the BIP templates are at
    [m/purpose'/coin_type'/0'/keychain] of the master key, the single-key ones at the
    path given. *)
Definition template_path {Xpriv} (network : Network) (t : Template Xpriv) : DerivationPath :=
  let bip purpose k :=
    [Hardened purpose; Hardened (bip_coin_type network); Hardened 0; Normal (keychain_index k)] in
  match t with
  | Bip44 _ k => bip 44 k
  | Bip49 _ k => bip 49 k
  | Bip84 _ k => bip 84 k
  | Bip86 _ k => bip 86 k
  | P2Pkh (_, path) | P2Wpkh_P2Sh (_, path) | P2Wpkh (_, path) | P2TR (_, path) => path
  end.
Definition template_master {Xpriv} (t : Template Xpriv) : Xpriv :=
  match t with
  | Bip44 m _ | Bip49 m _ | Bip84 m _ | Bip86 m _ => m
  | P2Pkh (m, _) | P2Wpkh_P2Sh (m, _) | P2Wpkh (m, _) | P2TR (m, _) => m
  end.
(** The script a template pays to. *)
Definition template_type {Xpriv} (t : Template Xpriv) : AddressType :=
  match t with
  | Bip44 _ _ | P2Pkh _ => Legacy
  | Bip49 _ _ | P2Wpkh_P2Sh _ => NestedSegwit
  | Bip84 _ _ | P2Wpkh _ => NativeSegwit
  | Bip86 _ _ | P2TR _ => Taproot
  end.

(** The account's path. *)
Definition account_path (network : Network) (a : OnchainWalletAccount) : DerivationPath :=
  [Hardened (bip_purpose (address_type a)); Hardened (bip_coin_type network);
   Hardened (account_index a)].

Definition valid_index (i : Z) : Prop := 0 ≤ i ≤ MAX_ONCHAIN_WALLET_ACCOUNT_INDEX.

Lemma testbit_31 i : valid_index i → Z.testbit i 31 = false.
Proof.
  unfold valid_index, MAX_ONCHAIN_WALLET_ACCOUNT_INDEX. intros Hi.
  destruct (decide (i = 0)) as [->|]; [done|]. apply Z.bits_above_log2; [lia|].
  apply Z.log2_lt_pow2; lia.
Qed.

Lemma account_derivation_path_ok network a :
  valid_index (account_index a) →
  account_derivation_path (address_type a) network (account_index a) = Ok (account_path network a).
Proof.
  intros Hi. unfold account_derivation_path, from_hardened_idx.
  rewrite (proj2 (Z.ltb_ge _ _)) by apply Hi. rewrite (testbit_31 (account_index a)) by done.
  unfold account_path. destruct (address_type a), network; done.
Qed.

Section key_properties.
Context {Xpriv : Type} {B32 : Bip32 Xpriv}.

(** The two descriptors of an account, whether they come from the historical
    templates of account 0 or from the explicit paths of a derived account, pay to the
    account's address type and use the keys at [m/purpose'/coin_type'/account'/0] and
    [/1] of the node's master key; the exported extended public key is the one of
    [m/purpose'/coin_type'/account'], the parent of both.  No two accounts of a node,
    nor the two keychains of an account, share a path.  An index that cannot be hardened
    is refused in both. *)
Theorem account_keys_exact (network : Network) (master : Xpriv) (a : OnchainWalletAccount) :
  0 ≤ account_index a →
  (valid_index (account_index a) →
   (∃ ext int, account_templates a master network = Ok (ext, int) ∧
      template_master ext = master ∧ template_master int = master ∧
      template_type ext = address_type a ∧ template_type int = address_type a ∧
      template_path network ext = account_path network a ++ [Normal 0] ∧
      template_path network int = account_path network a ++ [Normal 1]) ∧
   derive_account_xpub_string master network (address_type a) (account_index a)
     = (xpub_string <$> ok_or (derive_priv master (account_path network a)) InvalidSeedBytes) ∧
   ∀ b i j, account_path network a ++ [Normal i] = account_path network b ++ [Normal j] →
     a = b ∧ i = j) ∧
  (MAX_ONCHAIN_WALLET_ACCOUNT_INDEX < account_index a →
   account_templates a master network = Err InvalidSeedBytes ∧
   derive_account_xpub_string master network (address_type a) (account_index a)
     = Err InvalidSeedBytes).
Proof.
  intros Hpos. split; [intros Hv; split_and!|intros Hbig; split].
  - destruct a as [t i]. unfold account_templates, account_keychain_derivation_path; simpl in *.
    destruct (Z.eqb_spec i 0) as [->|Hi].
    { by destruct t; eexists _, _. }
    rewrite (proj2 (Z.ltb_ge _ _)) by apply Hv.
    pose proof (account_derivation_path_ok network (mkAccount t i) Hv) as Hp.
    cbn [address_type account_index] in Hp. rewrite Hp.
    by destruct t; eexists _, _.
  - unfold derive_account_xpub_string, derive_account_xprv.
    rewrite account_derivation_path_ok by done. simpl. destruct (derive_priv _ _); simpl; reflexivity.
  - intros [t' i'] i j. destruct a as [t k]. unfold account_path; simpl. intros Heq. simplify_eq.
    by destruct t, t'.
  - unfold account_templates. rewrite (proj2 (Z.eqb_neq _ _)), (proj2 (Z.ltb_lt _ _)); [done|lia|].
    unfold MAX_ONCHAIN_WALLET_ACCOUNT_INDEX in Hbig. lia.
  - unfold derive_account_xpub_string, derive_account_xprv, account_derivation_path.
    by rewrite (proj2 (Z.ltb_lt _ _)).
Qed.

(** What a configured account must satisfy. *)
Definition account_ok (network : Network) (xprv : Xpriv) (c : OnchainWalletAccountConfig) : Prop :=
  1 ≤ configured_index c ≤ MAX_ONCHAIN_WALLET_ACCOUNT_INDEX ∧
  derive_account_xpub_string xprv network (configured_type c) (configured_index c)
    = Ok (trim (configured_xpub c)).
Definition config_account (c : OnchainWalletAccountConfig) : OnchainWalletAccount :=
  mkAccount (configured_type c) (configured_index c).

Lemma validate_configured_account_Ok network xprv c a :
  0 ≤ configured_index c →
  validate_configured_account network xprv c = Ok a ↔ account_ok network xprv c ∧ a = config_account c.
Proof.
  intros Hpos. unfold validate_configured_account, account_ok, config_account.
  destruct (Z.eqb_spec (configured_index c) 0); simpl; [split; [done|lia]|].
  destruct (Z.ltb_spec MAX_ONCHAIN_WALLET_ACCOUNT_INDEX (configured_index c)); [split; [done|lia]|].
  destruct (derive_account_xpub_string _ _ _ _) as [x| |]; simpl; [|naive_solver..].
  case_decide; naive_solver lia.
Qed.

Lemma validate_accounts_from network xprv cs accounts accounts' :
  Forall (λ c, 0 ≤ configured_index c) cs → NoDup accounts →
  try_fold (add_configured_account network xprv) accounts cs = Ok accounts' →
  Forall (account_ok network xprv) cs ∧ NoDup accounts' ∧
  ∀ a, a ∈ accounts' ↔ a ∈ accounts ∨ a ∈ config_account <$> cs.
Proof.
  intros Hpos. revert accounts. induction Hpos as [|c cs Hc Hpos IH]; intros accounts Hnd; simpl.
  { intros; simplify_eq. split_and!; [constructor|done|]. intros a. rewrite elem_of_nil. tauto. }
  intros (acc & (a & (Hok & ->)%validate_configured_account_Ok & Heq)%bind_Ok & Hrest)%bind_Ok;
    [|done]. simplify_eq.
  apply IH in Hrest as (? & ? & Hin); last first.
  { case_decide; [done|]. apply NoDup_app. split_and!; [done| |apply NoDup_singleton].
    intros x Hx ->%list_elem_of_singleton. done. }
  split_and!; [by constructor|done|]. intros a. rewrite Hin, elem_of_cons.
  case_decide as Hd; rewrite ?elem_of_app, ?list_elem_of_singleton; [|tauto].
  split; [tauto|]. intros [|[->|]]; tauto.
Qed.

(** The accounts configured for a node are accepted exactly when every one of
    them is a derived account whose extended public key, up to surrounding white space, is
    the one the node's seed gives, and then each is loaded once. *)
Theorem configured_accounts_checked network (xprv : Xpriv) cs :
  Forall (λ c, 0 ≤ configured_index c) cs →
  (Forall (account_ok network xprv) cs ↔
     is_ok (validate_configured_onchain_wallet_accounts network xprv cs) = true) ∧
  ∀ accounts, validate_configured_onchain_wallet_accounts network xprv cs = Ok accounts →
    NoDup accounts ∧ (∀ a, a ∈ accounts ↔ a ∈ config_account <$> cs) ∧
    Forall (λ a, is_derived a = true ∧ valid_index (account_index a)) accounts.
Proof.
  intros Hpos. assert (∀ accounts,
    validate_configured_onchain_wallet_accounts network xprv cs = Ok accounts →
    Forall (account_ok network xprv) cs ∧ NoDup accounts ∧
    ∀ a, a ∈ accounts ↔ a ∈ config_account <$> cs) as Hv.
  { intros accounts (? & ? & Hin)%validate_accounts_from; [|done|constructor].
    split_and!; [done..|]. intros a. rewrite Hin, elem_of_nil. tauto. }
  split; [split|].
  - intros Hall. clear Hv. unfold validate_configured_onchain_wallet_accounts.
    generalize (@nil OnchainWalletAccount). induction Hall as [|c cs Hc Hall IH]; intros l; [done|].
    apply Forall_cons in Hpos as [Hp ?]. simpl.
    destruct (add_configured_account network xprv l c) eqn:Hadd; unfold add_configured_account in Hadd;
      rewrite (proj2 (validate_configured_account_Ok network xprv c _ Hp) (conj Hc eq_refl)) in Hadd;
      simplify_eq/=. by apply IH.
  - destruct (validate_configured_onchain_wallet_accounts _ _ _); [|done..]. naive_solver.
  - intros accounts (Hok & ? & Hin)%Hv. split_and!; [done..|]. apply Forall_forall. intros a Ha.
    apply Hin in Ha as (c & -> & Hc)%list_elem_of_fmap. rewrite Forall_forall in Hok.
    destruct (Hok c Hc) as [Hr _]. unfold is_derived, valid_index, config_account; simpl.
    split; [apply bool_decide_eq_true_2; lia|lia].
Qed.
End key_properties.

(** ** Trimming takes all white space, and only white space *)

Lemma strip_prefix_Some p bs rest : strip_prefix p bs = Some rest ↔ bs = p ++ rest.
Proof.
  unfold strip_prefix. split.
  - case_decide as Hp; [|done]. intros; simplify_eq. rewrite <- Hp at 1. by rewrite take_drop.
  - intros ->. rewrite take_app_length, drop_app_length. by rewrite decide_True.
Qed.

Lemma strip_all_spec ps bs n :
  Forall (λ p, p ≠ []) ps → (length bs ≤ n)%nat →
  ∃ l, Forall (λ p, p ∈ ps) l ∧ bs = concat l ++ strip_all n ps bs ∧
    ∀ p rest, p ∈ ps → strip_all n ps bs ≠ p ++ rest.
Proof.
  intros Hps. revert bs. induction n as [|n IH]; intros bs Hlen; simpl.
  { exists []. split_and!; [constructor|done|]. intros p rest Hp Heq. rewrite Forall_forall in Hps.
    destruct p; [by apply (Hps [])|]. subst bs. simpl in Hlen. lia. }
  destruct (find_map (λ p, strip_prefix p bs) ps) as [bs'|] eqn:Hf.
  - apply find_map_elem_of in Hf as (p & Hp & ->%strip_prefix_Some).
    rewrite length_app in Hlen. rewrite Forall_forall in Hps. specialize (Hps p Hp) as Hne.
    destruct (IH bs') as (l & Hl & Heq & Hno).
    { destruct p; [done|]. simpl in Hlen. lia. }
    exists (p :: l). split_and!; [by constructor| |done]. simpl. rewrite <- app_assoc.
    by rewrite <- Heq.
  - exists []. split_and!; [constructor|done|]. intros p rest Hp Heq.
    rewrite find_map_None in Hf. specialize (Hf p Hp). by rewrite (proj2 (strip_prefix_Some _ _ _) Heq) in Hf.
Qed.

Lemma white_space_non_empty : Forall (λ p : list u8, p ≠ []) white_space.
Proof. by repeat constructor. Qed.

(** Trimming ends with a text that neither begins nor ends with a white-space
    character, and what it took away on each side is white space only: the number of
    rounds given to the loop is always enough. *)
Theorem trim_exact (bs : list u8) :
  ∃ l r, Forall (λ p, p ∈ white_space) l ∧ Forall (λ p, p ∈ white_space) r ∧
    bs = concat l ++ trim bs ++ concat r ∧
    ∀ p rest, p ∈ white_space → trim bs ≠ p ++ rest ∧ trim bs ≠ rest ++ p.
Proof.
  destruct (strip_all_spec white_space bs (length bs)) as (l & Hl & Heq & Hno);
    [apply white_space_non_empty|lia|].
  change (strip_all _ _ bs) with (trim_start bs) in Heq, Hno. set (t := trim_start bs) in *.
  destruct (strip_all_spec (reverse <$> white_space) (reverse t) (length t)) as (r & Hr & Heq' & Hno').
  { apply Forall_fmap. eapply Forall_impl; [apply white_space_non_empty|].
    intros p Hp Hrev. apply Hp. rewrite <- (reverse_involutive p). simpl in Hrev. by rewrite Hrev. }
  { by rewrite length_reverse. }
  set (s := strip_all _ _ (reverse t)) in *.
  assert (trim bs = reverse s) as Htrim by done.
  assert (t = reverse s ++ concat (reverse <$> reverse r)) as Ht.
  { rewrite <- (reverse_involutive t), Heq', reverse_app. f_equal. clear.
    induction r as [|p r IH]; [done|]. simpl. rewrite reverse_app, IH, reverse_cons, fmap_app, concat_app.
    simpl. by rewrite app_nil_r. }
  exists l, (reverse <$> reverse r). rewrite Htrim. split_and!; [done| | |].
  - apply Forall_fmap, Forall_reverse. eapply Forall_impl; [done|].
    intros p (q & -> & Hq)%list_elem_of_fmap. cbn. by rewrite reverse_involutive.
  - by rewrite <- Ht.
  - intros p rest Hp. split; intros Hs.
    + apply (Hno p (rest ++ concat (reverse <$> reverse r)) Hp). by rewrite Ht, Hs, app_assoc.
    + apply (Hno' (reverse p) (reverse rest)); [by apply list_elem_of_fmap_2|].
      rewrite <- (reverse_involutive s), Hs. apply reverse_app.
Qed.
