(* ===== verification/Event.v ===== *)
(** * Events ([Event], [TxInput], [TxOutput] and [TransactionDetails] of [src/event.rs])

    The events the node hands to its user, and the descriptions of transactions they
    carry.  [PaymentFailureReason], [ClosureReason] and the custom records are values
    of [lightning] that are passed on unchanged; addresses come from [bitcoin]. *)

From S2P Require Import Prelude HexUtils Types WalletKeys.

(** [u64 as i64], and the wrap-around of [i64] arithmetic. *)
Definition wrap_i64 (z : Z) : Z := (z + 2 ^ 63) mod 2 ^ 64 - 2 ^ 63.
Definition as_i64 (z : Z) : Z := wrap_i64 z.

Lemma as_i64_small z : 0 ≤ z < 2 ^ 63 → as_i64 z = z.
Proof. unfold as_i64, wrap_i64. intros. rewrite Z.mod_small; lia. Qed.

Record TxInput := mkTxInput {
  in_txid : Txid;
  in_vout : Z;
  scriptsig : string;
  in_witness : list string;
  in_sequence : Z;
}.

Record TxOutput := mkTxOutput {
  scriptpubkey : string;
  scriptpubkey_type : option string;
  scriptpubkey_address : option string;
  out_value : Z;
  out_n : Z;
}.

Record TransactionDetails := mkTransactionDetails {
  amount_sats : Z;
  inputs : list TxInput;
  outputs : list TxOutput;
}.

(** [hex_utils::to_string] of a byte slice. *)
Definition to_hex (bs : list u8) : string := hex_utils.to_string (u8_to_Z <$> bs).

Definition from_tx_input (i : TxIn) : TxInput :=
  {| in_txid := txid (previous_output i); in_vout := vout (previous_output i);
     scriptsig := to_hex (script_sig i); in_witness := to_hex <$> witness i;
     in_sequence := sequence i |}.

(** [bitcoin::address::AddressType] *)
Inductive BitcoinAddressType := TP2pkh | TP2sh | TP2wpkh | TP2wsh | TP2tr | TP2a.

(** [bitcoin::Address::from_script]: the kind of address, where it is a known one, and
    its text. *)
Class BitcoinAddress := {
  address_from_script : Script → Network → option (option BitcoinAddressType * string);
}.

Section details.
Context {BA : BitcoinAddress}.

Definition parse_script_type_and_address (script : Script) (network : Network) :
    option string * option string :=
  match address_from_script script network with
  | Some (t, text) =>
      let script_type :=
        match t with
        | Some TP2pkh => Some "p2pkh"%string
        | Some TP2sh => Some "p2sh"%string
        | Some TP2wpkh => Some "p2wpkh"%string
        | Some TP2wsh => Some "p2wsh"%string
        | Some TP2tr => Some "p2tr"%string
        | _ => None
        end in
      (script_type, Some text)
  | None => (None, None)
  end.

Definition from_tx_output (o : TxOut) (index : Z) (network : Network) : TxOutput :=
  let '(ty, address) := parse_script_type_and_address (script_pubkey o) network in
  {| scriptpubkey := to_hex (script_pubkey o); scriptpubkey_type := ty;
     scriptpubkey_address := address; out_value := as_i64 (value o); out_n := index |}.
End details.

Inductive SyncType := OnchainWallet | LightningWallet | FeeRateCache.

Section event.
Context {PaymentFailureReason ClosureReason CustomTlvRecord : Type}.

(** A [u128] in the source. *)
Abbreviation UserChannelId := Z.

Inductive Event :=
| PaymentSuccessful (payment_id : option PaymentId) (payment_hash : PaymentHash)
    (payment_preimage : option PaymentPreimage) (fee_paid_msat : option Z)
| PaymentFailed (payment_id : option PaymentId) (payment_hash : option PaymentHash)
    (reason : option PaymentFailureReason)
| PaymentReceived (payment_id : option PaymentId) (payment_hash : PaymentHash)
    (amount_msat : Z) (custom_records : list CustomTlvRecord)
| PaymentForwarded (prev_channel_id next_channel_id : ChannelId)
    (prev_user_channel_id next_user_channel_id : option UserChannelId)
    (prev_node_id next_node_id : option PublicKey)
    (total_fee_earned_msat skimmed_fee_msat : option Z) (claim_from_onchain_tx : bool)
    (outbound_amount_forwarded_msat : option Z)
| PaymentClaimable (payment_id : PaymentId) (payment_hash : PaymentHash)
    (claimable_amount_msat : Z) (claim_deadline : option Z)
    (custom_records : list CustomTlvRecord)
| ProbeSuccessful (payment_id : PaymentId) (payment_hash : PaymentHash)
    (route_fee_msat : option Z)
| ProbeFailed (payment_id : PaymentId) (payment_hash : PaymentHash)
    (short_channel_id route_fee_msat : option Z)
| ChannelPending (channel_id : ChannelId) (user_channel_id : UserChannelId)
    (former_temporary_channel_id : ChannelId) (counterparty_node_id : PublicKey)
    (funding_txo : OutPoint)
| ChannelReady (channel_id : ChannelId) (user_channel_id : UserChannelId)
    (counterparty_node_id : option PublicKey) (funding_txo : option OutPoint)
| ChannelClosed (channel_id : ChannelId) (user_channel_id : UserChannelId)
    (counterparty_node_id : option PublicKey) (reason : option ClosureReason)
| SplicePending (channel_id : ChannelId) (user_channel_id : UserChannelId)
    (counterparty_node_id : PublicKey) (new_funding_txo : OutPoint)
| SpliceFailed (channel_id : ChannelId) (user_channel_id : UserChannelId)
    (counterparty_node_id : PublicKey) (abandoned_funding_txo : option OutPoint)
| OnchainTransactionConfirmed (txid : Txid) (block_hash : BlockHash)
    (block_height confirmation_time : Z) (details : TransactionDetails)
| OnchainTransactionReceived (txid : Txid) (details : TransactionDetails)
| OnchainTransactionReplaced (txid : Txid) (conflicts : list Txid)
| OnchainTransactionReorged (txid : Txid)
| OnchainTransactionEvicted (txid : Txid)
| SyncProgress (sync_type : SyncType) (progress_percent current_block_height target_block_height : Z)
| SyncCompleted (sync_type : SyncType) (synced_block_height : Z)
| BalanceChanged (old_spendable_onchain_balance_sats new_spendable_onchain_balance_sats
    old_total_onchain_balance_sats new_total_onchain_balance_sats
    old_total_lightning_balance_sats new_total_lightning_balance_sats : Z).
End event.
Arguments Event : clear implicits.
