(* ===== verification/NodeMetrics.v ===== *)
(** * Node metrics and balance events ([NodeMetrics] and [check_and_emit_balance_update]
      of [src/lib.rs], [read_node_metrics] and [write_node_metrics] of [src/io/utils.rs])

    The status values that survive a restart, when each on-chain wallet was last
    synchronised, and the event that reports a change of balance.  The byte form of the
    record is LDK's TLV macro: a parameter. *)

From S2P Require Import Prelude Errors KVStore Codec Types Config WalletKeys EventQueue Event.

Record NodeMetrics := mkNodeMetrics {
  latest_lightning_wallet_sync_timestamp : option Z;
  latest_onchain_wallet_sync_timestamp : option Z;
  latest_fee_rate_cache_update_timestamp : option Z;
  latest_rgs_snapshot_timestamp : option Z;
  latest_pathfinding_scores_sync_timestamp : option Z;
  latest_node_announcement_broadcast_timestamp : option Z;
  latest_channel_monitor_archival_height : option Z;
  last_known_spendable_onchain_balance_sats : option Z;
  last_known_total_onchain_balance_sats : option Z;
  last_known_total_lightning_balance_sats : option Z;
  monitored_wallet_sync_timestamps : list (AddressType * Z);
}.

(** [Default for NodeMetrics] *)
Definition default_node_metrics : NodeMetrics :=
  mkNodeMetrics None None None None None None None None None None [].

Definition set_onchain_sync_timestamp (t : option Z) (m : NodeMetrics) : NodeMetrics :=
  mkNodeMetrics (latest_lightning_wallet_sync_timestamp m) t
    (latest_fee_rate_cache_update_timestamp m) (latest_rgs_snapshot_timestamp m)
    (latest_pathfinding_scores_sync_timestamp m) (latest_node_announcement_broadcast_timestamp m)
    (latest_channel_monitor_archival_height m) (last_known_spendable_onchain_balance_sats m)
    (last_known_total_onchain_balance_sats m) (last_known_total_lightning_balance_sats m)
    (monitored_wallet_sync_timestamps m).
Definition set_lightning_sync_timestamp (t : option Z) (m : NodeMetrics) : NodeMetrics :=
  mkNodeMetrics t (latest_onchain_wallet_sync_timestamp m)
    (latest_fee_rate_cache_update_timestamp m) (latest_rgs_snapshot_timestamp m)
    (latest_pathfinding_scores_sync_timestamp m) (latest_node_announcement_broadcast_timestamp m)
    (latest_channel_monitor_archival_height m) (last_known_spendable_onchain_balance_sats m)
    (last_known_total_onchain_balance_sats m) (last_known_total_lightning_balance_sats m)
    (monitored_wallet_sync_timestamps m).
Definition set_fee_rate_timestamp (t : option Z) (m : NodeMetrics) : NodeMetrics :=
  mkNodeMetrics (latest_lightning_wallet_sync_timestamp m) (latest_onchain_wallet_sync_timestamp m)
    t (latest_rgs_snapshot_timestamp m)
    (latest_pathfinding_scores_sync_timestamp m) (latest_node_announcement_broadcast_timestamp m)
    (latest_channel_monitor_archival_height m) (last_known_spendable_onchain_balance_sats m)
    (last_known_total_onchain_balance_sats m) (last_known_total_lightning_balance_sats m)
    (monitored_wallet_sync_timestamps m).
Definition set_archival_height (h : option Z) (m : NodeMetrics) : NodeMetrics :=
  mkNodeMetrics (latest_lightning_wallet_sync_timestamp m) (latest_onchain_wallet_sync_timestamp m)
    (latest_fee_rate_cache_update_timestamp m) (latest_rgs_snapshot_timestamp m)
    (latest_pathfinding_scores_sync_timestamp m) (latest_node_announcement_broadcast_timestamp m)
    h (last_known_spendable_onchain_balance_sats m)
    (last_known_total_onchain_balance_sats m) (last_known_total_lightning_balance_sats m)
    (monitored_wallet_sync_timestamps m).
Definition set_monitored_timestamps (l : list (AddressType * Z)) (m : NodeMetrics) : NodeMetrics :=
  mkNodeMetrics (latest_lightning_wallet_sync_timestamp m) (latest_onchain_wallet_sync_timestamp m)
    (latest_fee_rate_cache_update_timestamp m) (latest_rgs_snapshot_timestamp m)
    (latest_pathfinding_scores_sync_timestamp m) (latest_node_announcement_broadcast_timestamp m)
    (latest_channel_monitor_archival_height m) (last_known_spendable_onchain_balance_sats m)
    (last_known_total_onchain_balance_sats m) (last_known_total_lightning_balance_sats m) l.
Definition set_known_balances (spendable total lightning : Z) (m : NodeMetrics) : NodeMetrics :=
  mkNodeMetrics (latest_lightning_wallet_sync_timestamp m) (latest_onchain_wallet_sync_timestamp m)
    (latest_fee_rate_cache_update_timestamp m) (latest_rgs_snapshot_timestamp m)
    (latest_pathfinding_scores_sync_timestamp m) (latest_node_announcement_broadcast_timestamp m)
    (latest_channel_monitor_archival_height m) (Some spendable) (Some total) (Some lightning)
    (monitored_wallet_sync_timestamps m).

(** [iter().find(|(at, _)| *at == t)] *)
Definition find_timestamp (t : AddressType) (l : list (AddressType * Z)) : option Z :=
  snd <$> List.find (λ '(at_, _), bool_decide (at_ = t)) l.

Definition get_wallet_sync_timestamp (m : NodeMetrics) (a : OnchainWalletAccount) : option Z :=
  if account_index a =? 0 then find_timestamp (address_type a) (monitored_wallet_sync_timestamps m)
  else None.

(** The first entry of the type is overwritten, or a new one is appended. *)
Fixpoint update_timestamp (t : AddressType) (timestamp : Z) (l : list (AddressType * Z)) :
    list (AddressType * Z) :=
  match l with
  | [] => [(t, timestamp)]
  | (t', ts) :: l =>
      if decide (t' = t) then (t', timestamp) :: l else (t', ts) :: update_timestamp t timestamp l
  end.

Definition set_wallet_sync_timestamp (a : OnchainWalletAccount) (timestamp : Z) (m : NodeMetrics) :
    NodeMetrics :=
  if account_index a =? 0 then
    set_monitored_timestamps
      (update_timestamp (address_type a) timestamp (monitored_wallet_sync_timestamps m)) m
  else m.

Definition NODE_METRICS_KEY : kv_key := (EmptyString, EmptyString, "node_metrics"%string).

(** The balances of [BalanceDetails] that are tracked. *)
Record Balances := mkBalances {
  spendable_onchain_balance_sats : Z;
  total_onchain_balance_sats : Z;
  total_lightning_balance_sats : Z;
}.
#[global] Instance Balances_eq_dec : EqDecision Balances.
Proof. solve_decision. Defined.

Section metrics.
Context {S : Type} {KV : KVStore S} {U16 : U16Codec}.
Context {PaymentFailureReason ClosureReason CustomTlvRecord : Type}.
Abbreviation Ev := (Event PaymentFailureReason ClosureReason CustomTlvRecord).
Context {CE : Codec Ev}.
(** [NodeMetrics::encode] and [NodeMetrics::read] *)
Context (metrics_encode : NodeMetrics → bytes) (metrics_decode : bytes → option NodeMetrics).

Definition read_node_metrics (kv : S) : outcome ErrorKind NodeMetrics :=
  bs ← kv_read kv NODE_METRICS_KEY;
  ok_or (metrics_decode bs) KindInvalidData.

Definition write_node_metrics (m : NodeMetrics) (kv : S) : S * outcome Error unit :=
  let '(kv, r) := kv_write kv NODE_METRICS_KEY (metrics_encode m) in
  (kv, map_err (λ _, PersistenceFailed) r).

(** The metrics beside the event queue, which holds the shared store. *)
Record state := mkState { metrics : NodeMetrics; events : EventQueue.EventQueue S Ev }.
Implicit Types (s : state).

Definition set_store (kv : S) (q : EventQueue.EventQueue S Ev) :=
  EventQueue.mkEventQueue (EventQueue.queue q) (EventQueue.waker q) kv (EventQueue.woken q).

Definition known_balances (m : NodeMetrics) : Balances :=
  mkBalances (default 0 (last_known_spendable_onchain_balance_sats m))
    (default 0 (last_known_total_onchain_balance_sats m))
    (default 0 (last_known_total_lightning_balance_sats m)).

Definition balance_changed (old new : Balances) : Ev :=
  BalanceChanged (spendable_onchain_balance_sats old) (spendable_onchain_balance_sats new)
    (total_onchain_balance_sats old) (total_onchain_balance_sats new)
    (total_lightning_balance_sats old) (total_lightning_balance_sats new).

Definition emit (event : Ev) : cmd state Error unit := λ s,
  let '(q, r) := EventQueue.add_event event (events s) in (mkState (metrics s) q, r).

(** Update the tracked balances and persist the metrics. *)
Definition track_balances (new : Balances) : cmd state Error unit := λ s,
  let m := set_known_balances (spendable_onchain_balance_sats new)
    (total_onchain_balance_sats new) (total_lightning_balance_sats new) (metrics s) in
  let '(kv, r) := write_node_metrics m (EventQueue.kv_store (events s)) in
  (mkState m (set_store kv (events s)), r).

Definition check_and_emit_balance_update (new : Balances) : cmd state Error unit :=
  with_state (λ s,
    let old := known_balances (metrics s) in
    if decide (old = new) then mret tt
    else
      _ ← emit (balance_changed old new);
      track_balances new).

(** Successive updates; the run stops at the first that fails. *)
Definition balance_updates (bs : list Balances) : cmd state Error unit :=
  for_each check_and_emit_balance_update bs.

(** ** What is reported

    The changes between successive balances, starting from [b]. *)
Fixpoint changes (b : Balances) (bs : list Balances) : list Ev :=
  match bs with
  | [] => []
  | b' :: bs => (if decide (b = b') then [] else [balance_changed b b']) ++ changes b' bs
  end.

Context {KSPEC : KVStoreSpec S} (metrics_decode_encode : ∀ m, metrics_decode (metrics_encode m) = Some m).

(** A restart finds the metrics of the running node. *)
Definition metrics_stored s : Prop :=
  kv_view (EventQueue.kv_store (events s)) !! NODE_METRICS_KEY = Some (metrics_encode (metrics s)).

Lemma emit_Ok event s s' :
  emit event s = (s', Ok tt) →
  metrics s' = metrics s ∧
  EventQueue.queue (events s') = EventQueue.queue (events s) ++ [event] ∧
  (∀ k, k ≠ EventQueue.EVENT_QUEUE_KEY →
     kv_view (EventQueue.kv_store (events s')) !! k = kv_view (EventQueue.kv_store (events s)) !! k).
Proof.
  unfold emit, EventQueue.add_event, EventQueue.push_event, EventQueue.persist_queue,
    EventQueue.wake, modify, mbind, cmd_bind. simpl.
  destruct (kv_write _ _ _) as [kv [[]| |]] eqn:Hw; simpl; intros; simplify_eq/=.
  split_and!; [done..|]. intros k Hk. apply kv_write_Ok in Hw as ->. by rewrite lookup_insert_ne.
Qed.

Lemma known_set_known b m :
  known_balances (set_known_balances (spendable_onchain_balance_sats b)
    (total_onchain_balance_sats b) (total_lightning_balance_sats b) m) = b.
Proof. by destruct b. Qed.

Lemma balance_update_Ok b s s' :
  check_and_emit_balance_update b s = (s', Ok tt) →
  known_balances (metrics s') = b ∧
  EventQueue.queue (events s') = EventQueue.queue (events s) ++ changes (known_balances (metrics s)) [b] ∧
  (s' = s ∨ metrics_stored s').
Proof.
  unfold check_and_emit_balance_update, with_state. cbn [changes].
  destruct (decide (known_balances (metrics s) = b)) as [Heq|Heq].
  - intros Hr. injection Hr as <-. rewrite !app_nil_r. auto.
  - intros (s1 & [] & (Hm & Hq & Hkv)%emit_Ok & Hw)%cmd_bind_Ok.
    unfold track_balances, write_node_metrics in Hw.
    destruct (kv_write _ _ _) as [kv r] eqn:Hkw. simplify_eq/=.
    match goal with H : map_err _ r = Ok _ |- _ => apply map_err_Ok in H as -> end.
    rewrite known_set_known. split_and!; [done|done|right].
    unfold metrics_stored; simpl. apply kv_write_Ok in Hkw as ->. by rewrite lookup_insert_eq.
Qed.

Lemma read_stored s m :
  metrics_stored s → read_node_metrics (EventQueue.kv_store (events s)) = Ok m → m = metrics s.
Proof.
  unfold metrics_stored, read_node_metrics. intros Hst Hr. inv_outcome.
  match goal with H : kv_read _ _ = Ok _ |- _ => apply kv_read_Ok in H end. simplify_eq.
  by rewrite metrics_decode_encode in *; simplify_eq.
Qed.

(** Over any sequence of balances reported without a failing write, the queue
    receives exactly the changes between successive balances, in order, each starting
    from the balance the previous one ended with; the last known balance is the last one
    reported; and a restart finds these metrics, so that it continues the same chain. *)
Theorem balance_events_chain bs s s' :
  metrics_stored s →
  balance_updates bs s = (s', Ok tt) →
  EventQueue.queue (events s')
    = EventQueue.queue (events s) ++ changes (known_balances (metrics s)) bs ∧
  known_balances (metrics s') = default (known_balances (metrics s)) (last bs) ∧
  metrics_stored s' ∧
  (∀ m, read_node_metrics (EventQueue.kv_store (events s')) = Ok m → m = metrics s').
Proof.
  intros Hst. revert s Hst. induction bs as [|b bs IH]; intros s Hst; simpl.
  { intros Hr. injection Hr as <-. split_and!; [by rewrite app_nil_r|done|done|].
    intros m. by apply read_stored. }
  intros (s1 & [] & (Hb & Hq & Hs1)%balance_update_Ok & Hrest)%cmd_bind_Ok.
  destruct (IH s1) as (Hq' & Hk & Hst' & Hread); [by destruct Hs1 as [->|]|done|].
  split_and!; [|by rewrite Hk, Hb, last_cons; destruct (last bs)|done..].
  rewrite Hq', Hq, Hb. simpl. by rewrite app_nil_r, app_assoc.
Qed.
End metrics.
