(* ===== verification/Gossip.v ===== *)
(** * Gossip, scores and announcements ([src/gossip.rs], [src/scoring.rs] and the background
      tasks of [src/lib.rs])

    Rapid gossip snapshots, external path-finding scores and the announcement of the node:
    one round of each background task, over the node's metrics and the store.  Answers of
    the servers, the time and LDK's graph, scorer and peers are inputs. *)

From S2P Require Import Prelude Errors KVStore Config NodeMetrics.

Module Gossip.

(** [RGS] or the peers' own gossip. *)
Inductive GossipSource := P2PNetwork | RapidGossipSync.

Section gossip.
Context {S : Type} {KV : KVStore S} {SocketAddress Scores : Type}.
Context (metrics_encode : NodeMetrics → bytes) (scores_encode : Scores → bytes).
(** LDK's location of the scorer, with the key of the cached external scores. *)
Context (EXTERNAL_PATHFINDING_SCORES_CACHE_KEY : kv_key).

(** [applied] lists the snapshots applied to the graph with the timestamp asked for and the
    one they end with, [merged] the scores given to the scorer with the time, [announced]
    the announcements with the time of day, if it is after 1970. *)
Record state := mkState {
  gossip_source : GossipSource;
  latest_sync_timestamp : Z;
  metrics : NodeMetrics;
  kv_store : S;
  applied : list (Z * Z);
  merged : list (Scores * Z);
  announced : list (string * list SocketAddress * option Z);
}.
Implicit Types (s : state).

Definition set_timestamp (t : Z) (update : Z * Z) s : state :=
  mkState (gossip_source s) t (metrics s) (kv_store s) (applied s ++ [update]) (merged s) (announced s).
Definition set_metrics (m : NodeMetrics) s : state :=
  mkState (gossip_source s) (latest_sync_timestamp s) m (kv_store s) (applied s) (merged s) (announced s).
Definition set_kv (kv : S) s : state :=
  mkState (gossip_source s) (latest_sync_timestamp s) (metrics s) kv (applied s) (merged s) (announced s).

(** The metrics are changed and written; a failed write is only logged. *)
Definition store_metrics (f : NodeMetrics → NodeMetrics) s : state :=
  let s := set_metrics (f (metrics s)) s in
  set_kv (write_node_metrics metrics_encode (metrics s) (kv_store s)).1 s.

(** ** Snapshots *)

(** The server's answer: [Snapshot r] where updating the graph gives [r]. *)
Inductive rgs_answer :=
| RgsTimeout | RgsFailed | RgsBadStatus | RgsBodyFailed | Snapshot (updated : option Z).

Definition update_rgs_snapshot (answer : rgs_answer) : cmd state Error Z :=
  with_state (λ s,
    match gossip_source s with
    | P2PNetwork => mret 0
    | RapidGossipSync =>
        let query_timestamp := latest_sync_timestamp s in
        match answer with
        | RgsTimeout => fail GossipUpdateTimeout
        | RgsFailed | RgsBadStatus | RgsBodyFailed => fail GossipUpdateFailed
        | Snapshot updated =>
            new_latest_sync_timestamp ← lift (ok_or updated GossipUpdateFailed);
            _ ← modify (set_timestamp new_latest_sync_timestamp
                          (query_timestamp, new_latest_sync_timestamp));
            mret new_latest_sync_timestamp
        end
    end).

Definition set_rgs_timestamp (t : option Z) (m : NodeMetrics) : NodeMetrics :=
  mkNodeMetrics (latest_lightning_wallet_sync_timestamp m) (latest_onchain_wallet_sync_timestamp m)
    (latest_fee_rate_cache_update_timestamp m) t
    (latest_pathfinding_scores_sync_timestamp m) (latest_node_announcement_broadcast_timestamp m)
    (latest_channel_monitor_archival_height m) (last_known_spendable_onchain_balance_sats m)
    (last_known_total_onchain_balance_sats m) (last_known_total_lightning_balance_sats m)
    (monitored_wallet_sync_timestamps m).
Definition set_scores_timestamp (t : option Z) (m : NodeMetrics) : NodeMetrics :=
  mkNodeMetrics (latest_lightning_wallet_sync_timestamp m) (latest_onchain_wallet_sync_timestamp m)
    (latest_fee_rate_cache_update_timestamp m) (latest_rgs_snapshot_timestamp m)
    t (latest_node_announcement_broadcast_timestamp m)
    (latest_channel_monitor_archival_height m) (last_known_spendable_onchain_balance_sats m)
    (last_known_total_onchain_balance_sats m) (last_known_total_lightning_balance_sats m)
    (monitored_wallet_sync_timestamps m).
Definition set_announcement_timestamp (t : option Z) (m : NodeMetrics) : NodeMetrics :=
  mkNodeMetrics (latest_lightning_wallet_sync_timestamp m) (latest_onchain_wallet_sync_timestamp m)
    (latest_fee_rate_cache_update_timestamp m) (latest_rgs_snapshot_timestamp m)
    (latest_pathfinding_scores_sync_timestamp m) t
    (latest_channel_monitor_archival_height m) (last_known_spendable_onchain_balance_sats m)
    (last_known_total_onchain_balance_sats m) (last_known_total_lightning_balance_sats m)
    (monitored_wallet_sync_timestamps m).

(** A round of the gossip task, apart from the peers it stores ([Channels]). *)
Definition rgs_round (answer : rgs_answer) s : state :=
  match update_rgs_snapshot answer s with
  | (s, Ok updated_timestamp) => store_metrics (set_rgs_timestamp (Some updated_timestamp)) s
  | (s, _) => s
  end.

(** ** Scores *)

Inductive scores_answer :=
| ScoresTimeout | ScoresFailed | ScoresBodyFailed | ScoresBody (parsed : option Scores).

Definition sync_external_scores (answer : scores_answer) (now : Z) s : state :=
  match answer with
  | ScoresBody (Some liquidities) =>
      let s := set_kv (kv_write (kv_store s) EXTERNAL_PATHFINDING_SCORES_CACHE_KEY
                         (scores_encode liquidities)).1 s in
      let s := mkState (gossip_source s) (latest_sync_timestamp s) (metrics s) (kv_store s) (applied s)
                 (merged s ++ [(liquidities, now)]) (announced s) in
      store_metrics (set_scores_timestamp (Some now)) s
  | _ => s
  end.

(** ** Announcements *)

(** [NODE_ANN_BCAST_INTERVAL], in seconds *)
Definition NODE_ANN_BCAST_INTERVAL : Z := 3600.

(** The time in seconds since 1970; whether some announced channel is ready, and a peer
    connected; the configured announcement addresses. *)
Record round := mkRound {
  unix_time : Z;
  public_channel_ready : bool;
  peer_connected : bool;
}.
Implicit Types (r : round).

Definition skip_broadcast r s : bool :=
  match latest_node_announcement_broadcast_timestamp (metrics s) with
  | Some latest => unix_time r <? latest + NODE_ANN_BCAST_INTERVAL
  | None => false
  end.

Definition announcement_round (config : Config SocketAddress)
    (announcement_addresses : option (list SocketAddress)) r s : state :=
  if skip_broadcast r s then s
  else if negb (public_channel_ready r) then s
  else if negb (peer_connected r) then s
  else match announcement_addresses, listening_addresses config, node_alias config with
       | Some addresses, _, Some alias | None, Some addresses, Some alias =>
           let unix_time_secs_opt := if 0 <=? unix_time r then Some (unix_time r) else None in
           let s := mkState (gossip_source s) (latest_sync_timestamp s) (metrics s) (kv_store s)
                      (applied s) (merged s) (announced s ++ [(alias, addresses, unix_time_secs_opt)]) in
           store_metrics (set_announcement_timestamp unix_time_secs_opt) s
       | _, _, _ => s
       end.

(** ** The background tasks, in any order *)

Inductive event :=
| RgsRound (answer : rgs_answer)
| ScoresRound (answer : scores_answer) (now : Z)
| AnnouncementRound (r : round).
Definition step config addresses (e : event) s : state :=
  match e with
  | RgsRound answer => rgs_round answer s
  | ScoresRound answer now => sync_external_scores answer now s
  | AnnouncementRound r => announcement_round config addresses r s
  end.
Definition run config addresses (es : list event) s : state := foldl (flip (step config addresses)) s es.

(** The snapshots follow each other from [from] to [to]. *)
Fixpoint chained (from : Z) (us : list (Z * Z)) (to : Z) : Prop :=
  match us with
  | [] => from = to
  | (q, t) :: us => q = from ∧ chained t us to
  end.
Lemma chained_snoc from us q t : chained from us q → chained from (us ++ [(q, t)]) t.
Proof. revert from. induction us as [|[q' t'] us IH]; simpl; intros from Hc; [by subst|naive_solver]. Qed.

Lemma step_chained config addresses e s from :
  chained from (applied s) (latest_sync_timestamp s) →
  chained from (applied (step config addresses e s)) (latest_sync_timestamp (step config addresses e s)).
Proof.
  intros Hc. destruct e as [answer|answer now|r]; simpl.
  - unfold rgs_round, update_rgs_snapshot, with_state. destruct (gossip_source s); simpl; [done|].
    destruct answer as [| | | |[t|]]; simpl; try done. by apply chained_snoc.
  - by destruct answer as [| | |[scores|]].
  - unfold announcement_round. by repeat case_match.
Qed.

(** However the background tasks' rounds follow each other and whatever fails, the
    snapshots applied to the network graph have no gap: each was asked for from where the
    one before it ended, and the timestamp that is kept is where the last one ended. *)
Theorem snapshots_contiguous config addresses es s :
  applied s = [] →
  let s' := run config addresses es s in
  chained (latest_sync_timestamp s) (applied s') (latest_sync_timestamp s').
Proof.
  intros Ha. simpl. assert (chained (latest_sync_timestamp s) (applied s) (latest_sync_timestamp s)) as Hc
    by (by rewrite Ha). revert Hc. generalize (latest_sync_timestamp s) at 1 3. clear Ha. intros from.
  revert s. induction es as [|e es IH]; intros s Hc; simpl; [done|]. apply IH. by apply step_chained.
Qed.

(** Announcements at least an hour after the one before, the first after [last]. *)
Fixpoint spaced (last : option Z) (ts : list (option Z)) (latest : option Z) : Prop :=
  match ts with
  | [] => last = latest
  | t :: ts =>
      (∀ t1, last = Some t1 → ∃ t2, t = Some t2 ∧ t1 + NODE_ANN_BCAST_INTERVAL ≤ t2) ∧ spaced t ts latest
  end.
Lemma spaced_snoc last ts latest t :
  spaced last ts latest →
  (∀ t1, latest = Some t1 → ∃ t2, t = Some t2 ∧ t1 + NODE_ANN_BCAST_INTERVAL ≤ t2) →
  spaced last (ts ++ [t]) t.
Proof. revert last. induction ts as [|t' ts IH]; simpl; intros last Hs Ht; [by subst|naive_solver]. Qed.

Abbreviation latest_announcement s := (latest_node_announcement_broadcast_timestamp (metrics s)).
Definition announcement_times s : list (option Z) := snd <$> announced s.

Lemma step_spaced config addresses e s from :
  (∀ t, latest_announcement s = Some t → 0 ≤ t) →
  spaced from (announcement_times s) (latest_announcement s) →
  let s' := step config addresses e s in
  (∀ t, latest_announcement s' = Some t → 0 ≤ t) ∧
  spaced from (announcement_times s') (latest_announcement s').
Proof.
  intros Hn Hs. destruct e as [answer|answer now|r]; simpl.
  - unfold rgs_round, update_rgs_snapshot, with_state. destruct (gossip_source s); simpl; [done|].
    by destruct answer as [| | | |[t|]].
  - by destruct answer as [| | |[scores|]].
  - unfold announcement_round. destruct (skip_broadcast r s) eqn:Hskip; [done|].
    destruct (negb (public_channel_ready r)); [done|]. destruct (negb (peer_connected r)); [done|].
    assert (∀ alias ads, let s' := store_metrics
        (set_announcement_timestamp (if 0 <=? unix_time r then Some (unix_time r) else None))
        (mkState (gossip_source s) (latest_sync_timestamp s) (metrics s) (kv_store s) (applied s) (merged s)
           (announced s ++ [(alias, ads, if 0 <=? unix_time r then Some (unix_time r) else None)])) in
      (∀ t, latest_announcement s' = Some t → 0 ≤ t) ∧
      spaced from (announcement_times s') (latest_announcement s')) as Hnew.
    { intros alias ads. simpl. split.
      - intros t. destruct (Z.leb_spec 0 (unix_time r)); by intros [= <-].
      - unfold announcement_times. simpl. rewrite fmap_app. eapply spaced_snoc; [done|].
        intros t1 Ht1. specialize (Hn t1 Ht1). unfold skip_broadcast in Hskip. rewrite Ht1 in Hskip.
        apply Z.ltb_ge in Hskip. unfold NODE_ANN_BCAST_INTERVAL in *.
        destruct (Z.leb_spec 0 (unix_time r)); [eauto|lia]. }
    destruct addresses, (listening_addresses config), (node_alias config); by auto.
Qed.

(** However the background tasks' rounds follow each other and however the clock moves,
    the node announces itself at most once an hour, counted from the announcement the
    metrics it was started with record. *)
Theorem announcements_spaced config addresses es s :
  announced s = [] → (∀ t, latest_announcement s = Some t → 0 ≤ t) →
  let s' := run config addresses es s in
  spaced (latest_announcement s) (announcement_times s') (latest_announcement s').
Proof.
  intros Ha Hn. simpl.
  assert (spaced (latest_announcement s) (announcement_times s) (latest_announcement s)) as Hs
    by (unfold announcement_times; by rewrite Ha).
  revert Hs. generalize (latest_announcement s) at 1 3. clear Ha. intros from. revert s Hn.
  induction es as [|e es IH]; intros s Hn Hs; simpl; [done|].
  destruct (step_spaced config addresses e s from Hn Hs). by apply IH.
Qed.
End gossip.
End Gossip.
