(* ===== verification/ChainFees.v ===== *)
(** * Updating the fee rates ([update_fee_rate_estimates] of [src/chain/])

    Each chain source asks its server for estimates, converts them to satoshis per 1000
    weight units, adjusts them for LDK's targets, and replaces the estimator's cache.  The
    answers are inputs. *)

From Stdlib Require Import Floats.SpecFloat.
From S2P Require Import Prelude Errors Floats KVStore Codec Types Config WalletKeys Bdk Json.
From S2P Require Import FeeEstimator NodeMetrics.

(** What a request under a timeout ends with; [E] is the error of the client. *)
Inductive timed (E A : Type) :=
| InTime (result : outcome E A)
| TimedOut.
Arguments InTime {E A}.
Arguments TimedOut {E A}.

Inductive FeeRateEstimationMode := Economical | Conservative.
Inductive fee_request :=
| GetMempoolInfo
| EstimateSmartFee (num_blocks : Z) (mode : FeeRateEstimationMode).

Module ChainFees.
Section fees.
Context {S : Type} {KV : KVStore S}.
Context (FEERATE_FLOOR_SATS_PER_KW : Z) (metrics_encode : NodeMetrics → bytes).
(** [esplora_client::convert_fee_rate] *)
Context (convert_fee_rate : Z → gmap Z spec_float → option spec_float).

Abbreviation Estimator := OnchainFeeEstimator.OnchainFeeEstimator.
Abbreviation cache := (gmap ConfirmationTarget FeeRate).
Abbreviation adjust := (OnchainFeeEstimator.apply_post_estimation_adjustments FEERATE_FLOOR_SATS_PER_KW).

Record state := mkState { fee_estimator : Estimator; node_metrics : NodeMetrics; kv_store : S }.
Implicit Types (s : state) (target : ConfirmationTarget).
Abbreviation fcmd A := (cmd state Error A).

Definition replace_fee_rate_cache (c : cache) : fcmd unit :=
  modify (λ s, mkState (OnchainFeeEstimator.set_fee_rate_cache c (fee_estimator s)).1
                 (node_metrics s) (kv_store s)).

Definition record_update_time (now : option Z) : fcmd unit := λ s,
  let m := set_fee_rate_timestamp now (node_metrics s) in
  let '(kv, r) := write_node_metrics metrics_encode m (kv_store s) in
  (mkState (fee_estimator s) m kv, r).

(** [insert] of each adjusted rate *)
Definition insert_all (rates : list (ConfirmationTarget * FeeRate)) : cache :=
  foldl (λ c '(target, rate), <[target := adjust target rate]> c) ∅ rates.

(** ** Esplora *)

Definition esplora_rate (estimates : gmap Z spec_float) target : FeeRate :=
  let num_blocks := get_num_block_defaults_for_target target in
  let converted_estimate_sat_vb :=
    from_option (λ converted, float_max converted (f32_of_Z 1)) (f32_of_Z 1)
      (convert_fee_rate num_blocks estimates) in
  float_as_u64 (f32_mul converted_estimate_sat_vb (f32_of_Z 250)).

Definition esplora_update (network : Network) (answer : timed unit (gmap Z spec_float))
    (now : option Z) : fcmd unit :=
  match answer with
  | TimedOut => fail FeerateEstimationUpdateTimeout
  | InTime result =>
      estimates ← lift (map_err (λ _, FeerateEstimationUpdateFailed) result);
      if decide (estimates = ∅ ∧ network = BitcoinMainnet) then fail FeerateEstimationUpdateFailed
      else
        _ ← replace_fee_rate_cache
              (insert_all ((λ target, (target, esplora_rate estimates target)) <$> get_all_conf_targets));
        record_update_time now
  end.

(** ** Electrum *)

(** The literal [0.00001] *)
Definition min_btc_per_kvb : spec_float := f64_div (f64_of_Z 1) (f64_of_Z 100000).

Definition electrum_rate (raw_fee_rate_btc_per_kvb : json) : FeeRate :=
  let fee_rate_btc_per_kvb :=
    from_option (λ converted, float_max converted min_btc_per_kvb) min_btc_per_kvb
      (as_f64 raw_fee_rate_btc_per_kvb) in
  fee_rate_from_btc_per_kvbyte fee_rate_btc_per_kvb.

(** [Err (Some e)] is a failed call, [Err None] a failed task. *)
Definition get_fee_rate_cache_update {E} (network : Network)
    (answer : timed (option E) (list json)) : outcome Error cache :=
  match answer with
  | TimedOut => Err FeerateEstimationUpdateTimeout
  | InTime result =>
      raw_estimates_btc_kvb ← map_err (λ _, FeerateEstimationUpdateFailed) result;
      if decide (length raw_estimates_btc_kvb ≠ length get_all_conf_targets ∧ network = BitcoinMainnet)
      then Err FeerateEstimationUpdateFailed
      else
        Ok (insert_all (zip get_all_conf_targets (electrum_rate <$> raw_estimates_btc_kvb)))
  end.

(** [started]: whether there is a client. *)
Definition electrum_update {E} (network : Network) (started : bool)
    (answer : timed (option E) (list json)) (now : option Z) : fcmd unit :=
  if negb started then fail FeerateEstimationUpdateFailed
  else
    new_fee_rate_cache ← lift (get_fee_rate_cache_update network answer);
    _ ← replace_fee_rate_cache new_fee_rate_cache;
    record_update_time now.

(** ** Bitcoin Core *)

Definition request_for target : fee_request :=
  match target with
  | Lightning MinAllowedAnchorChannelRemoteFee => GetMempoolInfo
  | Lightning MaximumFeeEstimate | Lightning UrgentOnChainSweep =>
      EstimateSmartFee (get_num_block_defaults_for_target target) Conservative
  | _ => EstimateSmartFee (get_num_block_defaults_for_target target) Economical
  end.
Definition read_response (request : fee_request) : json → outcome IoErr FeeRate :=
  match request with
  | GetMempoolInfo => mempool_min_fee_response
  | EstimateSmartFee _ _ => fee_response
  end.

(** The loop over the targets; [None] is the early return that leaves the cache. *)
Fixpoint collect_rates (network : Network)
    (rpc : ConfirmationTarget → fee_request → timed IoErr json)
    (targets : list ConfirmationTarget) (acc : cache) : outcome Error (option cache) :=
  match targets with
  | [] => Ok (Some acc)
  | target :: targets =>
      match rpc target (request_for target) with
      | TimedOut => Err FeerateEstimationUpdateTimeout
      | InTime reply =>
          let continue rate := collect_rates network rpc targets (<[target := adjust target rate]> acc) in
          match (j ← reply; read_response (request_for target) j) with
          | Ok rate => continue rate
          | Err _ =>
              match network with
              | BitcoinMainnet => Err FeerateEstimationUpdateFailed
              | Regtest | Signet => continue 250
              | _ => Ok None
              end
          | Panic => Panic
          end
      end
  end.

Definition bitcoind_update (network : Network)
    (rpc : ConfirmationTarget → fee_request → timed IoErr json) (now : option Z) : fcmd unit :=
  collected ← lift (collect_rates network rpc get_all_conf_targets ∅);
  match collected with
  | None => mret tt
  | Some new_fee_rate_cache =>
      _ ← replace_fee_rate_cache new_fee_rate_cache;
      record_update_time now
  end.

(** ** Any source ([ChainSource::update_fee_rate_estimates]) *)

Inductive fee_source :=
| FromEsplora (answer : timed unit (gmap Z spec_float))
| FromElectrum (started : bool) (answer : timed (option unit) (list json))
| FromBitcoind (rpc : ConfirmationTarget → fee_request → timed IoErr json).

Definition update_fee_rate_estimates (network : Network) (source : fee_source) (now : option Z) :
    fcmd unit :=
  match source with
  | FromEsplora answer => esplora_update network answer now
  | FromElectrum started answer => electrum_update network started answer now
  | FromBitcoind rpc => bitcoind_update network rpc now
  end.

(** ** What the cache holds afterwards *)

(** The estimate for one target. *)
Definition estimate_of (network : Network) (source : fee_source) target : option FeeRate :=
  match source with
  | FromEsplora (InTime (Ok estimates)) => Some (esplora_rate estimates target)
  | FromElectrum _ (InTime (Ok raw)) => electrum_rate <$> raw !! target_index target
  | FromBitcoind rpc =>
      match rpc target (request_for target) with
      | InTime reply =>
          match (j ← reply; read_response (request_for target) j) with
          | Ok rate => Some rate
          | _ => Some 250
          end
      | TimedOut => None
      end
  | _ => None
  end.

Lemma all_targets_nodup : NoDup get_all_conf_targets.
Proof. apply (bool_decide_unpack _). by vm_compute. Qed.
Lemma target_at target : get_all_conf_targets !! target_index target = Some target.
Proof. by destruct target as [| |[]]. Qed.
Lemma all_targets target : target ∈ get_all_conf_targets.
Proof. eapply list_elem_of_lookup_2, target_at. Qed.

Lemma insert_all_lookup (rates : list (ConfirmationTarget * FeeRate)) target :
  NoDup rates.*1 →
  insert_all rates !! target = adjust target <$> (list_to_map rates : cache) !! target.
Proof.
  intros Hd. unfold insert_all.
  assert (Hgen : ∀ c : cache, foldl (λ c '(t, rate), <[t := adjust t rate]> c) c rates !! target
    = match (list_to_map rates : cache) !! target with
      | Some r => Some (adjust target r)
      | None => c !! target
      end).
  { clear -Hd. induction rates as [|[t r] rates IH]; intros c; csimpl; [by rewrite lookup_empty|].
    apply NoDup_cons in Hd as [Hn Hd]. rewrite (IH Hd).
    destruct (decide (t = target)) as [->|Hne].
    - rewrite lookup_insert_eq, (not_elem_of_list_to_map_1 (M := gmap ConfirmationTarget)) by done.
      by rewrite lookup_insert_eq.
    - by rewrite !lookup_insert_ne by done. }
  rewrite Hgen. by destruct (_ !! target); [|rewrite lookup_empty].
Qed.

Lemma zip_sublist {A B} (ks : list A) (vs : list B) : (zip ks vs).*1 `sublist_of` ks.
Proof.
  revert vs. induction ks as [|k ks IH]; intros [|v vs]; csimpl; try constructor; [apply sublist_nil_l|apply IH].
Qed.
Lemma zip_targets (rates : list FeeRate) target :
  (list_to_map (zip get_all_conf_targets rates) : cache) !! target = rates !! target_index target.
Proof.
  assert (Hd : NoDup (zip get_all_conf_targets rates).*1).
  { eapply sublist_NoDup; [apply all_targets_nodup|]. apply zip_sublist. }
  destruct (rates !! target_index target) as [r|] eqn:Hr.
  - apply elem_of_list_to_map_1; [done|]. apply (list_elem_of_lookup_2 _ (target_index target)).
    apply lookup_zip_with_Some. by exists target, r; split_and!; [|apply target_at|].
  - apply not_elem_of_list_to_map_1. intros ([t r] & -> & [i Hi]%list_elem_of_lookup_1)%list_elem_of_fmap.
    apply lookup_zip_with_Some in Hi as (t' & r' & [= <- <-] & Ht & Hr'). simpl in *.
    assert (i = target_index t).
    { eapply NoDup_lookup; [apply all_targets_nodup|done|apply target_at]. }
    congruence.
Qed.

Lemma collect_rates_Ok network rpc targets (acc c : cache) :
  collect_rates network rpc targets acc = Ok (Some c) → NoDup targets →
  ∀ target, c !! target = if decide (target ∈ targets)
    then adjust target <$> estimate_of network (FromBitcoind rpc) target else acc !! target.
Proof.
  revert acc. induction targets as [|t targets IH]; intros acc; cbn [collect_rates].
  { intros [= <-] _ target. by rewrite decide_False by apply not_elem_of_nil. }
  intros Hc [Hn Hd]%NoDup_cons target. unfold estimate_of.
  assert (Hrate : ∃ rate, collect_rates network rpc targets (<[t := adjust t rate]> acc) = Ok (Some c) ∧
    match rpc t (request_for t) with
    | InTime reply => match (j ← reply; read_response (request_for t) j) with Ok r => Some r | _ => Some 250 end
    | TimedOut => None
    end = Some rate).
  { destruct (rpc t (request_for t)) as [reply|]; [|done].
    destruct (reply ≫= _) as [rate|e|]; [by exists rate| |done].
    destruct network; (done || by exists 250). }
  destruct Hrate as (rate & Hrest & Hrate). rewrite (IH _ Hrest Hd target).
  destruct (decide (target = t)) as [->|Hne].
  - rewrite decide_False by done. rewrite decide_True by (by left). by rewrite lookup_insert_eq, Hrate.
  - rewrite lookup_insert_ne by done. unfold estimate_of. apply decide_ext. rewrite elem_of_cons. naive_solver.
Qed.

Lemma collect_all network rpc targets (acc c : cache) target :
  collect_rates network rpc targets acc = Ok (Some c) → target ∈ targets →
  is_Some (estimate_of network (FromBitcoind rpc) target).
Proof.
  revert acc. induction targets as [|t targets IH]; intros acc; cbn [collect_rates]; [by intros _ ?%elem_of_nil|].
  intros Hc [->|Hin]%elem_of_cons.
  - simpl. destruct (rpc t (request_for t)) as [reply|]; [|done]. by destruct (reply ≫= _).
  - destruct (rpc t (request_for t)) as [reply|]; [|done].
    destruct (reply ≫= _) as [rate|e|]; [by eapply IH| |done]. destruct network; (done || by eapply IH).
Qed.
(** The early return does not happen on the main network. *)
Lemma collect_main rpc targets acc : collect_rates BitcoinMainnet rpc targets acc ≠ Ok None.
Proof.
  revert acc. induction targets as [|t targets IH]; intros acc; cbn [collect_rates]; [done|].
  destruct (rpc t (request_for t)) as [reply|]; [|done]. by destruct (reply ≫= _).
Qed.

(** ** The least rate *)

Lemma esplora_rate_ge estimates target :
  (∀ n m x, convert_fee_rate n m = Some x → valid_binary 24 128 x = true) →
  250 ≤ esplora_rate estimates target.
Proof.
  intros Hv. unfold esplora_rate, f32_mul.
  assert (Hx : ∀ x, valid_binary 24 128 x = true →
    250 ≤ float_as_u64 (SFmul 24 128 (float_max x (f32_of_Z 1)) (f32_of_Z 250))).
  { intros x Hx.
    change (f32_of_Z 1) with (S754_finite false 8388608 (-23)).
    change (f32_of_Z 250) with (S754_finite false 16384000 (-16)).
    pose proof (max_mul_ge 24 128 eq_refl x 8388608 (-23) 16384000 (-16) 250 0 Hx eq_refl
      ltac:(by vm_compute) ltac:(by vm_compute) ltac:(by vm_compute)) as Hge.
    destruct (SFmul _ _ _ _) as [[]|[]| |[] m e]; try done.
    by apply scaled_as_u64. }
  destruct (convert_fee_rate _ _) as [x|] eqn:Hc; simpl.
  - by apply Hx, (Hv _ _ _ Hc).
  - by vm_compute.
Qed.

Lemma electrum_rate_ge (raw : json) :
  (∀ x, as_f64 raw = Some x → valid_binary 53 1024 x = true) → 250 ≤ electrum_rate raw.
Proof.
  intros Hv. unfold electrum_rate, fee_rate_from_btc_per_kvbyte, f64_mul.
  destruct (as_f64 raw) as [x|]; simpl; [|by vm_compute].
  specialize (Hv x eq_refl).
  change min_btc_per_kvb with (S754_finite false 5902958103587057 (-69)).
  change (f64_of_Z 25000000) with (S754_finite false 6710886400000000 (-28)).
  pose proof (max_mul_ge 53 1024 eq_refl x 5902958103587057 (-69) 6710886400000000 (-28) 499 (-1) Hv eq_refl
    ltac:(by vm_compute) ltac:(by vm_compute) ltac:(by vm_compute)) as Hge.
  destruct (SFmul _ _ _ _) as [[]|[]| |[] m e]; try done.
  by apply (scaled_round 250).
Qed.

(** ** An update *)

Definition floats_valid (source : fee_source) : Prop :=
  match source with
  | FromElectrum _ (InTime (Ok raw)) =>
      ∀ j x, j ∈ raw → as_f64 j = Some x → valid_binary 53 1024 x = true
  | _ => True
  end.
(** Every target has an estimate unless an Electrum server off the main network answers
    with fewer. *)
Definition all_estimated (network : Network) (source : fee_source) : Prop :=
  match source with FromElectrum _ _ => network = BitcoinMainnet | _ => True end.
Definition floored (source : fee_source) : Prop :=
  match source with FromBitcoind _ => False | _ => True end.

Definition replaced (c : cache) (now : option Z) s s' (r : outcome Error unit) : Prop :=
  OnchainFeeEstimator.fee_rate_cache (fee_estimator s') = c ∧
  node_metrics s' = set_fee_rate_timestamp now (node_metrics s) ∧
  (kv_store s', r) = write_node_metrics metrics_encode (node_metrics s') (kv_store s).

Lemma replace_cache (c : cache) now s s' r :
  (replace_fee_rate_cache c ≫= λ _, record_update_time now) s = (s', r) → replaced c now s s' r.
Proof.
  unfold mbind, cmd_bind, replace_fee_rate_cache, modify, record_update_time. cbn [kv_store node_metrics fee_estimator].
  destruct (write_node_metrics _ _ _) as [kv r'] eqn:Hw. intros [= <- <-].
  split_and!; [|done|symmetry; exact Hw].
  simpl. unfold OnchainFeeEstimator.set_fee_rate_cache. by case_decide.
Qed.

Lemma estimates_ge network source target rate :
  (∀ n m x, convert_fee_rate n m = Some x → valid_binary 24 128 x = true) →
  floats_valid source → floored source → estimate_of network source target = Some rate → 250 ≤ rate.
Proof.
  intros Hc Hf Hn. destruct source as [[[estimates|e|]|]|started [[raw|e|]|]|rpc]; simpl; try done.
  - intros [= <-]. by apply esplora_rate_ge.
  - intros (j & Hj & ->)%fmap_Some. apply electrum_rate_ge. intros x.
    apply Hf. by eapply list_elem_of_lookup_2.
Qed.

Lemma update_replaced network source now s s' r :
  update_fee_rate_estimates network source now s = (s', r) →
  (s' = s ∧ (network = BitcoinMainnet → r ≠ Ok tt)) ∨
  ∃ c, replaced c now s s' r ∧
    (∀ target, c !! target = adjust target <$> estimate_of network source target) ∧
    (all_estimated network source → ∀ target, is_Some (estimate_of network source target)).
Proof.
  destruct source as [[result|]|[] answer|rpc]; cbn [update_fee_rate_estimates].
  - unfold esplora_update, mbind at 1, cmd_bind at 1, lift.
    destruct result as [estimates|e|]; [|intros [= <- <-]; by left..]. cbn beta iota delta [map_err].
    case_decide; [intros [= <- <-]; by left|]. intros Hr%replace_cache. right. eexists. split; [exact Hr|].
    split; [|intros _ target; by eexists]. intros target.
    assert (Hd : NoDup ((λ target, (target, esplora_rate estimates target)) <$> get_all_conf_targets).*1).
    { rewrite <-list_fmap_compose. unfold compose. cbn [fst]. rewrite list_fmap_id. apply all_targets_nodup. }
    rewrite insert_all_lookup by done. f_equal. apply elem_of_list_to_map_1; [done|].
    apply list_elem_of_fmap. exists target. split; [done|apply all_targets].
  - intros [= <- <-]. by left.
  - unfold electrum_update, mbind at 1, cmd_bind at 1, lift. simpl negb. cbn beta iota.
    unfold get_fee_rate_cache_update. destruct answer as [[raw|e|]|]; [|intros [= <- <-]; by left..].
    cbn beta iota delta [map_err mbind outcome_bind]. case_decide as Hlen; [intros [= <- <-]; by left|].
    intros Hr%replace_cache. right. eexists. split; [exact Hr|]. split.
    + intros target. rewrite insert_all_lookup.
      { rewrite zip_targets. by rewrite list_lookup_fmap. }
      eapply sublist_NoDup; [apply all_targets_nodup|]. apply zip_sublist.
    + intros Hmain target. simpl in Hmain. apply fmap_is_Some, lookup_lt_is_Some.
      replace (length raw) with 10%nat; [by destruct target as [| |[]]; simpl; lia|].
      destruct (decide (length raw = 10%nat)) as [->|Hne]; [done|]. by destruct Hlen.
  - intros [= <- <-]. by left.
  - unfold bitcoind_update, mbind at 1, cmd_bind at 1, lift.
    destruct (collect_rates _ _ _ _) as [[c|]|e|] eqn:Hc; [| |intros [= <- <-]; by left..].
    2:{ intros [= <- <-]. left. split; [done|]. intros ->. by apply collect_main in Hc. }
    intros Hr%replace_cache. right. exists c. split; [exact Hr|].
    pose proof (collect_rates_Ok _ _ _ _ _ Hc all_targets_nodup) as Hall. split.
    + intros target. rewrite Hall. by rewrite decide_True by apply all_targets.
    + intros _ target. by eapply collect_all; [|apply all_targets].
Qed.

(** C27. A fee update from any source leaves everything as it was, and is then not reported
    as a success on the main network, or replaces the whole cache: each target's entry is
    its own estimate, adjusted; on the main network no target is left out; a rate from
    Esplora or Electrum is at least one satoshi per virtual byte whatever number the
    server sent; and only the result of writing the metrics is reported. *)
Theorem fees_replaced_whole network source now s s' r :
  (∀ n m x, convert_fee_rate n m = Some x → valid_binary 24 128 x = true) →
  floats_valid source →
  update_fee_rate_estimates network source now s = (s', r) →
  (s' = s ∧ (network = BitcoinMainnet → r ≠ Ok tt)) ∨
  let cached := OnchainFeeEstimator.fee_rate_cache (fee_estimator s') in
  (∀ target, cached !! target = adjust target <$> estimate_of network source target) ∧
  (all_estimated network source → ∀ target, is_Some (cached !! target)) ∧
  (floored source → ∀ target rate, estimate_of network source target = Some rate → 250 ≤ rate) ∧
  node_metrics s' = set_fee_rate_timestamp now (node_metrics s) ∧
  (kv_store s', r) = write_node_metrics metrics_encode (node_metrics s') (kv_store s).
Proof.
  intros Hc Hf [?|(c & (Hcache & Hm & Hw) & Hall & Hest)]%update_replaced; [by left|right].
  cbv zeta. rewrite Hcache. split_and!; [done| | |done|done].
  - intros He target. rewrite Hall. by apply fmap_is_Some, Hest.
  - intros Hfl target rate. by apply estimates_ge.
Qed.
End fees.
End ChainFees.
