(* ===== verification/Broadcast.v ===== *)
(** * Submitting a transaction ([src/chain/])

    What each chain source answers when a transaction is submitted: accepted only when the
    server acknowledged this transaction, rejected only for a definite refusal, unknown in
    every other case, in which it may have been delivered.  The replies of the servers and
    the time they take are inputs. *)

From S2P Require Import Prelude Errors Floats KVStore Types Config WalletKeys Bdk Json ChainFees.

Inductive BroadcastResponse := RAccepted | RRejected (reason : string) | RUnknown.

Abbreviation text := String.list_byte_of_string.

Definition non_final_rejection (code : Z) (message : string) : bool :=
  (code =? -26) && bool_decide (trim (text message) = text "non-final").

(** [electrum_client::Error], as far as it is matched; the kind of an I/O error is by
    whether it is [WouldBlock] or [TimedOut]. *)
Inductive ElectrumError :=
| IOError (kind_is_timeout : bool)
| SharedIOError (kind_is_timeout : bool)
| JSONError (is_eof : bool)
| AllAttemptsErrored (errors : list ElectrumError)
| Protocol (response : json)
| OtherElectrumError.

(** [esplora_client::Error] *)
Inductive EsploraError :=
| HttpResponse (status : Z) (message : string)
| InvalidResponse
| OtherEsploraError.

Fixpoint electrum_connection_broken (error : ElectrumError) : bool :=
  match error with
  | IOError kind_is_timeout | SharedIOError kind_is_timeout => negb kind_is_timeout
  | JSONError is_eof => is_eof
  | AllAttemptsErrored errors => existsb electrum_connection_broken errors
  | _ => false
  end.

Section classify.
(** [serde_json::from_str] *)
Context (from_str : list u8 → option json).

(** The refusal of [sendrawtransaction] as Esplora and Blockstream's electrs wrap it. *)
Definition wrapped_refusal (message : string) : bool :=
  match strip_prefix (text "sendrawtransaction RPC error: ") (text message) ≫= from_str with
  | Some rpc =>
      bool_decide ((get_field "code" rpc ≫= as_i64) = Some (-26)) &&
      match get_field "message" rpc ≫= as_str with
      | Some m => non_final_rejection (-26) m
      | None => false
      end
  | None => false
  end.

Definition classify_esplora_broadcast (result : outcome EsploraError unit) : BroadcastResponse :=
  match result with
  | Ok _ => RAccepted
  | Err (HttpResponse status message) =>
      if (status =? 400) && wrapped_refusal message then RRejected message else RUnknown
  | _ => RUnknown
  end.

Definition classify_bitcoind_broadcast (expected : Txid) (result : outcome IoErr Txid) :
    BroadcastResponse :=
  match result with
  | Ok actual => if decide (actual = expected) then RAccepted else RUnknown
  | Err error =>
      match get_ref error with
      | Some (RpcError code message) =>
          if non_final_rejection code message then RRejected message else RUnknown
      | _ => RUnknown
      end
  | Panic => RUnknown
  end.

Definition classify_electrum_broadcast (expected : Txid) (result : outcome ElectrumError Txid) :
    BroadcastResponse :=
  match result with
  | Ok actual => if decide (actual = expected) then RAccepted else RUnknown
  | Err (Protocol response) =>
      match as_str response with
      | Some message => if wrapped_refusal message then RRejected message else RUnknown
      | None =>
          match get_field "code" response ≫= as_i64, get_field "message" response ≫= as_str with
          | Some code, Some message =>
              if non_final_rejection code message ||
                 (code =? 2) && bool_decide (trim (text message) = text "non-final")
              then RRejected message else RUnknown
          | _, _ => RUnknown
          end
      end
  | _ => RUnknown
  end.

(** ** Esplora and Bitcoin Core *)

Context {BTC : Bitcoin}.
(** [str::parse::<Txid>] *)
Context (txid_from_str : list u8 → option Txid).

(** The reply is the status and the body. *)
Definition broadcast_transaction_checked (tx : Transaction)
    (reply : outcome unit (Z * string)) : outcome EsploraError unit :=
  '(status, body) ← map_err (λ _, OtherEsploraError) reply;
  if negb ((200 <=? status) && (status <? 300)) then Err (HttpResponse status body)
  else if decide (txid_from_str (trim (text body)) ≠ Some (compute_txid tx)) then Err InvalidResponse
  else Ok tt.

Definition esplora_broadcast (tx : Transaction) (reply : timed unit (Z * string)) :
    BroadcastResponse :=
  match reply with
  | InTime reply =>
      match broadcast_transaction_checked tx reply with
      | Ok _ => RAccepted
      | error => classify_esplora_broadcast error
      end
  | TimedOut => RUnknown
  end.

Definition bitcoind_broadcast (tx : Transaction) (reply : timed IoErr Txid) : BroadcastResponse :=
  let expected := compute_txid tx in
  match reply with
  | InTime (Ok actual) => if decide (actual = expected) then RAccepted else RUnknown
  | InTime error => classify_bitcoind_broadcast expected error
  | TimedOut => RUnknown
  end.

(** ** Electrum

    A call takes some time, and ends with the server's answer or with the failure of the
    blocking task. *)

Record call_result := mkCall { takes : Z; gives : option (outcome ElectrumError Txid) }.
(** The task that reconnects: whether the client differs from the failed one. *)
Record reconnect_result := mkReconnect { reconnect_takes : Z; reconnected : option bool }.

Inductive BroadcastAttempt :=
| Answered (response : BroadcastResponse)
| ConnectionBroken
| AttemptTimedOut.

(** With the time that has passed. *)
Definition broadcast_on (tx : Transaction) (timeout : Z) (c : call_result) : BroadcastAttempt * Z :=
  let expected := compute_txid tx in
  if takes c <=? timeout then
    (match gives c with
     | Some (Ok actual) =>
         if decide (actual = expected) then Answered RAccepted else Answered RUnknown
     | Some (Err error) =>
         if electrum_connection_broken error then ConnectionBroken
         else Answered (classify_electrum_broadcast expected (Err error))
     | _ => Answered RUnknown
     end, takes c)
  else (AttemptTimedOut, timeout).

Record electrum_replies := mkReplies {
  first_call : call_result;
  reconnect : reconnect_result;
  (** Time between the reconnection and the second reading of the clock. *)
  pause : Z;
  second_call : call_result;
}.

Definition broadcast_with_timeout (tx : Transaction) (timeout : Z) (i : electrum_replies) :
    BroadcastResponse * Z :=
  let deadline := timeout in
  match broadcast_on tx timeout (first_call i) with
  | (Answered response, now) => (response, now)
  | (AttemptTimedOut, now) => (RUnknown, now)
  | (ConnectionBroken, now) =>
      if now + reconnect_takes (reconnect i) <=? deadline then
        let now := now + reconnect_takes (reconnect i) in
        match reconnected (reconnect i) with
        | Some true =>
            let now := now + pause i in
            let remaining := saturating_sub deadline now in
            if remaining =? 0 then (RUnknown, now)
            else
              match broadcast_on tx remaining (second_call i) with
              | (Answered response, t) => (response, now + t)
              | (_, t) => (RUnknown, now + t)
              end
        | _ => (RUnknown, now)
        end
      else (RUnknown, deadline)
  end.

Definition TX_BROADCAST_TIMEOUT_SECS : Z := 15.

(** ** Any source ([ChainSource::broadcast_user_transaction]) *)

Inductive submission :=
| ToEsplora (reply : timed unit (Z * string))
| ToElectrum (started : bool) (i : electrum_replies)
| ToBitcoind (reply : timed IoErr Txid).

Definition broadcast_user_transaction (tx : Transaction) (to : submission) :
    outcome Error BroadcastResponse :=
  match to with
  | ToEsplora reply => Ok (esplora_broadcast tx reply)
  | ToElectrum started i =>
      if started then Ok (broadcast_with_timeout tx TX_BROADCAST_TIMEOUT_SECS i).1 else Err NotRunning
  | ToBitcoind reply => Ok (bitcoind_broadcast tx reply)
  end.

(** ** What an answer means *)

(** A refusal in an answer of an Electrum server. *)
Definition protocol_refusal (response : json) (m : string) : Prop :=
  (as_str response = Some m ∧ wrapped_refusal m = true) ∨
  (as_str response = None ∧ (get_field "message" response ≫= as_str) = Some m ∧
   trim (text m) = text "non-final" ∧
   ((get_field "code" response ≫= as_i64) = Some (-26) ∨ (get_field "code" response ≫= as_i64) = Some 2)).

(** The call whose answer counts: the first one, if it ended in time and its connection
    did not break; or the second one, if it ended in what was left of the time. *)
Definition broke (c : call_result) : Prop :=
  ∃ error, gives c = Some (Err error) ∧ electrum_connection_broken error = true.
Definition decides (timeout : Z) (i : electrum_replies) (c : call_result) : Prop :=
  takes (first_call i) ≤ timeout ∧
  ((c = first_call i ∧ ¬ broke c) ∨
   (c = second_call i ∧ broke (first_call i) ∧ ¬ broke c ∧ reconnected (reconnect i) = Some true ∧
    takes (first_call i) + reconnect_takes (reconnect i) ≤ timeout ∧
    let left := saturating_sub timeout
      (takes (first_call i) + reconnect_takes (reconnect i) + pause i) in
    left ≠ 0 ∧ takes c ≤ left)).

Definition acknowledged (tx : Transaction) (to : submission) : Prop :=
  match to with
  | ToEsplora reply =>
      ∃ status body, reply = InTime (Ok (status, body)) ∧ 200 ≤ status < 300 ∧
        txid_from_str (trim (text body)) = Some (compute_txid tx)
  | ToElectrum _ i =>
      ∃ c, decides TX_BROADCAST_TIMEOUT_SECS i c ∧ gives c = Some (Ok (compute_txid tx))
  | ToBitcoind reply => reply = InTime (Ok (compute_txid tx))
  end.
Definition refused (m : string) (to : submission) : Prop :=
  match to with
  | ToEsplora reply => reply = InTime (Ok (400, m)) ∧ wrapped_refusal m = true
  | ToElectrum _ i =>
      ∃ c response, decides TX_BROADCAST_TIMEOUT_SECS i c ∧
        gives c = Some (Err (Protocol response)) ∧ protocol_refusal response m
  | ToBitcoind reply =>
      ∃ e, reply = InTime (Err e) ∧ get_ref e = Some (RpcError (-26) m) ∧
        trim (text m) = text "non-final"
  end.

Lemma non_final_true code m :
  non_final_rejection code m = true ↔ code = -26 ∧ trim (text m) = text "non-final".
Proof. unfold non_final_rejection. by rewrite andb_true_iff, Z.eqb_eq, bool_decide_eq_true. Qed.

Lemma classify_electrum_accepted expected r :
  classify_electrum_broadcast expected r = RAccepted ↔ r = Ok expected.
Proof.
  destruct r as [actual|e|]; simpl; [case_decide; naive_solver| |done].
  destruct e as [| | | |response|]; try done. split; [|done].
  destruct (as_str response); [by destruct (wrapped_refusal _)|].
  destruct (get_field "code" response ≫= as_i64), (get_field "message" response ≫= as_str); try done. by destruct (_ || _).
Qed.
Lemma classify_electrum_rejected expected r m :
  classify_electrum_broadcast expected r = RRejected m ↔
  ∃ response, r = Err (Protocol response) ∧ protocol_refusal response m.
Proof.
  split.
  - destruct r as [actual|e|]; simpl; [by case_decide| |done].
    destruct e as [| | | |response|]; try done. intros Hr. exists response. split; [done|].
    unfold protocol_refusal. destruct (as_str response) as [s|].
    { left. destruct (wrapped_refusal s) eqn:Hw; [|done]. injection Hr as ->. done. }
    right. destruct (get_field "code" response ≫= as_i64) as [code|],
      (get_field "message" response ≫= as_str) as [s|]; try done.
    destruct (_ || _) eqn:Hb; [|done]. injection Hr as ->.
    apply orb_true_iff in Hb as [[-> Ht]%non_final_true|[->%Z.eqb_eq Ht%bool_decide_eq_true]%andb_true_iff];
      split_and!; try done; [by left|by right].
  - intros (response & -> & [[Hs Hw]|(Hs & Hm & Ht & Hc)]); simpl; rewrite Hs.
    + by rewrite Hw.
    + rewrite Hm. destruct Hc as [-> | ->].
      * by rewrite (proj2 (non_final_true (-26) m)).
      * rewrite orb_comm. by rewrite bool_decide_eq_true_2.
Qed.


Abbreviation answer_of tx c :=
  (from_option (classify_electrum_broadcast (compute_txid tx)) RUnknown (gives c)).

(** One call. *)
Lemma broadcast_on_cases tx timeout c :
  (timeout < takes c ∧ broadcast_on tx timeout c = (AttemptTimedOut, timeout)) ∨
  (takes c ≤ timeout ∧ broke c ∧ broadcast_on tx timeout c = (ConnectionBroken, takes c)) ∨
  (takes c ≤ timeout ∧ ¬ broke c ∧
   broadcast_on tx timeout c = (Answered (answer_of tx c), takes c)).
Proof.
  unfold broadcast_on. destruct (Z.leb_spec (takes c) timeout); [right|by left].
  unfold broke. destruct (gives c) as [[actual|error|]|].
  - right. split_and!; [done|by intros (? & ? & ?)|]. simpl. by case_decide.
  - destruct (electrum_connection_broken error) eqn:Hb; [left; by eauto|right].
    split_and!; [done| |done]. intros (? & [= <-] & ?). congruence.
  - right. by split_and!; [|intros (? & ? & ?)|].
  - right. by split_and!; [|intros (? & ? & ?)|].
Qed.

Lemma electrum_decided tx timeout i :
  let response := (broadcast_with_timeout tx timeout i).1 in
  (∃ c, decides timeout i c ∧ response = answer_of tx c ∧ ∀ c', decides timeout i c' → c' = c) ∨
  (response = RUnknown ∧ ∀ c, ¬ decides timeout i c).
Proof.
  unfold broadcast_with_timeout, decides.
  destruct (broadcast_on_cases tx timeout (first_call i)) as [[Ht ->]|[(Ht & Hb & ->)|(Ht & Hb & ->)]].
  { right. split; [done|]. intros c [? _]. lia. }
  2:{ left. exists (first_call i). split_and!; [done|by left|done|].
      by intros c (_ & [[-> _]|(_ & ? & _)]). }
  destruct (Z.leb_spec (takes (first_call i) + reconnect_takes (reconnect i)) timeout).
  2:{ right. split; [done|]. intros c (_ & [[-> ?]|(_ & _ & _ & _ & ? & _)]); [done|lia]. }
  destruct (reconnected (reconnect i)) as [[]|] eqn:Hr.
  2,3: right; split; [done|]; intros c (_ & [[-> ?]|(_ & _ & _ & ? & _)]); done.
  set (left := saturating_sub timeout _).
  destruct (Z.eqb_spec left 0).
  { right. split; [done|]. intros c (_ & [[-> ?]|(_ & _ & _ & _ & _ & ? & _)]); done. }
  destruct (broadcast_on_cases tx left (second_call i)) as [[Ht2 ->]|[(Ht2 & Hb2 & ->)|(Ht2 & Hb2 & ->)]].
  - right. split; [done|]. intros c (_ & [[-> ?]|(-> & _ & _ & _ & _ & _ & ?)]); [done|lia].
  - right. split; [done|]. by intros c (_ & [[-> ?]|(-> & _ & ? & _)]).
  - left. exists (second_call i). split_and!; [done|right; by split_and!|done|].
    by intros c (_ & [[-> ?]|(-> & _)]).
Qed.

(** A submission to Electrum takes no longer than its timeout, reconnection and retry
    included. *)
Lemma broadcast_in_time tx timeout i :
  0 ≤ timeout → 0 ≤ takes (first_call i) → 0 ≤ reconnect_takes (reconnect i) → 0 ≤ pause i →
  (broadcast_with_timeout tx timeout i).2 ≤ timeout + pause i.
Proof.
  intros. unfold broadcast_with_timeout.
  destruct (broadcast_on_cases tx timeout (first_call i)) as [[? ->]|[(? & _ & ->)|(? & _ & ->)]];
    cbn [snd]; [lia| |lia].
  destruct (Z.leb_spec (takes (first_call i) + reconnect_takes (reconnect i)) timeout); cbn [snd]; [|lia].
  destruct (reconnected (reconnect i)) as [[]|]; cbn [snd]; [|lia..].
  set (now := takes (first_call i) + reconnect_takes (reconnect i) + pause i).
  destruct (Z.eqb_spec (saturating_sub timeout now) 0); cbn [snd]; [lia|].
  unfold saturating_sub in *.
  destruct (broadcast_on_cases tx (Z.max 0 (timeout - now)) (second_call i))
    as [[? ->]|[(? & _ & ->)|(? & _ & ->)]]; cbn [snd]; lia.
Qed.

Lemma esplora_refusal status body m :
  (if (status =? 400) && wrapped_refusal body then RRejected body else RUnknown) = RRejected m ↔
  (@InTime unit (Z * string) (Ok (status, body)) = InTime (Ok (400, m)) ∧ wrapped_refusal m = true).
Proof.
  destruct (Z.eqb_spec status 400) as [->|Hne]; simpl.
  2:{ split; [done|]. by intros [[= -> _] _]. }
  destruct (wrapped_refusal body) eqn:Hw.
  - split; [intros [= <-]; done|]. by intros [[= <-] _].
  - split; [done|]. intros [[= <-] ?]. congruence.
Qed.

(** C26. A submitted transaction is reported as accepted exactly if the server acknowledged
    its transaction id in time, and as rejected exactly for the refusal of a non-final
    transaction, whichever the chain source, and for Electrum by the call that counts: the
    first one, or the one on a new connection in the time left if the first connection
    broke.  Everything else is unknown. *)
Theorem broadcast_answers_definite tx to response :
  broadcast_user_transaction tx to = Ok response →
  (response = RAccepted ↔ acknowledged tx to) ∧ (∀ m, response = RRejected m ↔ refused m to).
Proof.
  destruct to as [reply|[] i|reply]; simpl; intros [= <-].
  - unfold esplora_broadcast, broadcast_transaction_checked.
    destruct reply as [[[status body]|e|]|]; simpl.
    2-4: split; [split; [done|by intros (? & ? & ? & _)]|split; [done|by intros [? _]]].
    destruct (Z.leb_spec 200 status), (Z.ltb_spec status 300); simpl.
    2-4: split; [split; [by destruct (_ && _)|intros (s & b & [= -> ->] & ? & _); lia]|].
    2-4: intros m; apply esplora_refusal.
    case_decide as Ht; simpl.
    + split; [split; [done|by intros (s & b & [= -> ->] & _ & ?)]|].
      intros m. split; [done|]. intros [[= -> _] _]. lia.
    + split; [split; [|done]; intros _; exists status, body; split_and!; [done|lia|lia|destruct (decide (txid_from_str (trim (text body)) = Some (compute_txid tx))); done]|].
      intros m. split; [done|]. intros [[= -> _] _]. lia.
  - destruct (electrum_decided tx TX_BROADCAST_TIMEOUT_SECS i) as [(c & Hd & -> & Hu)|[-> Hn]].
    2:{ split; [split; [done|intros (c & ? & _); by destruct (Hn c)]|].
        intros m. split; [done|]. intros (c & ? & ? & _). by destruct (Hn c). }
    split.
    + split; [|intros (c' & ->%Hu & ->); by apply classify_electrum_accepted].
      destruct (gives c) eqn:Hg; [|done]. simpl. intros ->%classify_electrum_accepted. by exists c.
    + intros m. split.
      * destruct (gives c) eqn:Hg; [|done]. simpl. intros (rsp & -> & ?)%classify_electrum_rejected.
        by exists c, rsp.
      * intros (c' & rsp & ->%Hu & -> & ?). apply classify_electrum_rejected. by exists rsp.
  - unfold bitcoind_broadcast. destruct reply as [[actual|e|]|]; simpl.
    + split; [case_decide; split; congruence|]. intros m.
      split; [by case_decide|]. by intros (? & ? & _).
    + destruct (get_ref e) as [[code m'| |]|] eqn:He.
      2-4: split; [done|]; intros m; split; [done|]; intros (? & [= <-] & ? & _); congruence.
      destruct (non_final_rejection code m') eqn:Hn.
      * apply non_final_true in Hn as [-> ?]. split; [done|]. intros m. split.
        { intros [= ->]. by exists e. }
        intros (? & [= <-] & Hg & _). congruence.
      * split; [done|]. intros m. split; [done|]. intros (? & [= <-] & Hg & Ht).
        rewrite He in Hg. injection Hg as -> ->.
        rewrite (proj2 (non_final_true (-26) m)) in Hn; done.
    + split; [done|]. intros m. split; [done|]. by intros (? & ? & _).
    + split; [done|]. intros m. split; [done|]. by intros (? & ? & _).
Qed.
End classify.
