(* ===== verification/TxBroadcaster.v ===== *)
(** * The broadcast queue ([src/tx_broadcaster.rs])

    Packages of transactions waiting to be sent by the chain source, in a bounded
    channel: [try_send] on a full channel fails, and the package is dropped with a log
    message. *)

From S2P Require Import Prelude Types.

Definition BCAST_PACKAGE_QUEUE_SIZE : nat := 50.

(** The packages in the channel, oldest first. *)
Record TransactionBroadcaster := mkBroadcaster { packages : list (list Transaction) }.

Definition new_broadcaster : TransactionBroadcaster := mkBroadcaster [].

Definition broadcast_transactions (txs : list Transaction) (b : TransactionBroadcaster) :
    TransactionBroadcaster :=
  if decide (length (packages b) < BCAST_PACKAGE_QUEUE_SIZE)%nat
  then mkBroadcaster (packages b ++ [txs])
  else b.

(** The receiving end: [recv] on [get_broadcast_queue]. *)
Definition recv_package (b : TransactionBroadcaster) :
    TransactionBroadcaster * option (list Transaction) :=
  (mkBroadcaster (tail (packages b)), head (packages b)).
