(* ===== verification/Wallet.v ===== *)
(** * The node's on-chain wallet ([Wallet] of [src/wallet/mod.rs])

    The wallet owns the aggregate wallet, the payment store, the run-time configuration
    of the monitored accounts and the queue of transactions to broadcast.  This file has
    its state, account management, chain data, addresses and balances; keeping the
    payment records is in [WalletPayments], sending in [WalletSend].

    Methods run one at a time here.  Those that add, remove or reload accounts hold the
    wallet's [operation_lock] throughout, so that the set of accounts cannot change
    between their steps. *)

From stdpp Require Import functions.
From S2P Require Import Prelude Errors KVStore DataStore Types PaymentStore Bdk AggTypes.
From S2P Require Import Aggregate AggBuild FeeEstimator Config WalletKeys Event NodeMetrics TxBroadcaster.

Definition DUST_LIMIT_SATS : Z := 546.

Definition validate_derivation_index (index : Z) : outcome Error unit :=
  if BIP32_MAX_NORMAL_INDEX <? index then Err InvalidQuantity else Ok tt.

Definition validate_derivation_range (start_index count : Z) : outcome Error unit :=
  _ ← validate_derivation_index start_index;
  if MAX_ADDRESS_INFO_BATCH_COUNT <? count then Err InvalidQuantity
  else if count =? 0 then Ok tt
  else
    last_index ← ok_or (checked_add32 start_index (count - 1)) InvalidQuantity;
    validate_derivation_index last_index.

Definition map_wallet_account_error (a : OnchainWalletAccount) (e : aggregate.Error) : Error :=
  match e with
  | aggregate.WalletNotFound =>
      if is_derived a then OnchainWalletAccountNotRegistered else WalletOperationFailed
  | _ => WalletOperationFailed
  end.

(** [PersistenceFailed] is kept, anything else failed in the wallet. *)
Definition keep_persistence_error (e : aggregate.Error) : Error :=
  match e with aggregate.PersistenceFailed => PersistenceFailed | _ => WalletOperationFailed end.

Definition update_error (e : aggregate.Error) : Error :=
  match e with
  | aggregate.PersistenceFailed | aggregate.PersisterNotFound => PersistenceFailed
  | _ => WalletOperationFailed
  end.

Module Wallet.
Section wallet.
Context {S : Type} {KV : KVStore S}.
Context {OBJ : StorableObject PaymentDetails PaymentId PaymentDetailsUpdate}.
Context {O : IterOrder OnchainWalletAccount} {OT : IterOrder Txid}.
Context {BTC : Bitcoin} {W P U Ev : Type} {BDK : Bdk W P U Ev} {CS : CoinSelection}.
Context {Xpriv D : Type} {B32 : Bip32 Xpriv} {WL : WalletLoader Xpriv W P}.
Context {PER : Persister P D} {BA : BitcoinAddress}.
(** The text of a transaction id. *)
Context (txid_to_string : Txid → string).

Abbreviation Aggregate := (AggregateWallet.AggregateWallet OnchainWalletAccount W P).

(** [payment_store] holds the shared key-value store, which the broadcast records are
    written to as well.  [account_stores] is the part of it that belongs to the
    persisters of accounts that are not loaded; a loaded account's part is behind its
    persister. *)
Record Wallet := mkWallet {
  inner : Aggregate;
  account_generation : Z;
  synced_derived_accounts : gset OnchainWalletAccount;
  broadcaster : TransactionBroadcaster;
  fee_estimator : OnchainFeeEstimator.OnchainFeeEstimator;
  payment_store : DataStore.DataStore PaymentDetails PaymentId S;
  payment_store_update_pending : bool;
  network : Network;
  include_untrusted_pending_in_spendable : bool;
  account_stores : OnchainWalletAccount → D;
  seed_bytes : list u8;
  address_type_runtime_config : AddressTypeRuntimeConfig;
  node_metrics : NodeMetrics;
  derived_account_lookahead : Z;
}.
Implicit Types (s : Wallet) (a : OnchainWalletAccount).
Abbreviation wcmd A := (cmd Wallet Error A).

Definition set_inner (i : Aggregate) s : Wallet :=
  mkWallet i (account_generation s) (synced_derived_accounts s) (broadcaster s)
    (fee_estimator s) (payment_store s) (payment_store_update_pending s) (network s)
    (include_untrusted_pending_in_spendable s) (account_stores s) (seed_bytes s)
    (address_type_runtime_config s) (node_metrics s) (derived_account_lookahead s).
Definition set_generation (g : Z) s : Wallet :=
  mkWallet (inner s) g (synced_derived_accounts s) (broadcaster s)
    (fee_estimator s) (payment_store s) (payment_store_update_pending s) (network s)
    (include_untrusted_pending_in_spendable s) (account_stores s) (seed_bytes s)
    (address_type_runtime_config s) (node_metrics s) (derived_account_lookahead s).
Definition set_synced (l : gset OnchainWalletAccount) s : Wallet :=
  mkWallet (inner s) (account_generation s) l (broadcaster s)
    (fee_estimator s) (payment_store s) (payment_store_update_pending s) (network s)
    (include_untrusted_pending_in_spendable s) (account_stores s) (seed_bytes s)
    (address_type_runtime_config s) (node_metrics s) (derived_account_lookahead s).
Definition set_broadcaster (b : TransactionBroadcaster) s : Wallet :=
  mkWallet (inner s) (account_generation s) (synced_derived_accounts s) b
    (fee_estimator s) (payment_store s) (payment_store_update_pending s) (network s)
    (include_untrusted_pending_in_spendable s) (account_stores s) (seed_bytes s)
    (address_type_runtime_config s) (node_metrics s) (derived_account_lookahead s).
Definition set_payment_store (p : DataStore.DataStore PaymentDetails PaymentId S) s : Wallet :=
  mkWallet (inner s) (account_generation s) (synced_derived_accounts s) (broadcaster s)
    (fee_estimator s) p (payment_store_update_pending s) (network s)
    (include_untrusted_pending_in_spendable s) (account_stores s) (seed_bytes s)
    (address_type_runtime_config s) (node_metrics s) (derived_account_lookahead s).
Definition set_pending (b : bool) s : Wallet :=
  mkWallet (inner s) (account_generation s) (synced_derived_accounts s) (broadcaster s)
    (fee_estimator s) (payment_store s) b (network s)
    (include_untrusted_pending_in_spendable s) (account_stores s) (seed_bytes s)
    (address_type_runtime_config s) (node_metrics s) (derived_account_lookahead s).
Definition set_account_stores (l : OnchainWalletAccount → D) s : Wallet :=
  mkWallet (inner s) (account_generation s) (synced_derived_accounts s) (broadcaster s)
    (fee_estimator s) (payment_store s) (payment_store_update_pending s) (network s)
    (include_untrusted_pending_in_spendable s) l (seed_bytes s)
    (address_type_runtime_config s) (node_metrics s) (derived_account_lookahead s).
Definition set_runtime (c : AddressTypeRuntimeConfig) s : Wallet :=
  mkWallet (inner s) (account_generation s) (synced_derived_accounts s) (broadcaster s)
    (fee_estimator s) (payment_store s) (payment_store_update_pending s) (network s)
    (include_untrusted_pending_in_spendable s) (account_stores s) (seed_bytes s)
    c (node_metrics s) (derived_account_lookahead s).
Definition set_metrics (m : NodeMetrics) s : Wallet :=
  mkWallet (inner s) (account_generation s) (synced_derived_accounts s) (broadcaster s)
    (fee_estimator s) (payment_store s) (payment_store_update_pending s) (network s)
    (include_untrusted_pending_in_spendable s) (account_stores s) (seed_bytes s)
    (address_type_runtime_config s) m (derived_account_lookahead s).

Definition set_monitored (l : list AddressType) (c : AddressTypeRuntimeConfig) :=
  mkRuntimeConfig (primary c) l (derived_accounts c).
Definition set_derived (l : list OnchainWalletAccount) (c : AddressTypeRuntimeConfig) :=
  mkRuntimeConfig (primary c) (monitored c) l.

(** [Wallet::new] *)
Definition new (wallet : W) (wallet_persister : P)
    (additional_wallets : list (OnchainWalletAccount * W * P)) (seed : list u8)
    (b : TransactionBroadcaster) (fe : OnchainFeeEstimator.OnchainFeeEstimator)
    (ps : DataStore.DataStore PaymentDetails PaymentId S) (primary_type : AddressType)
    (net : Network) (include_untrusted : bool) (stores : OnchainWalletAccount → D)
    (rc : AddressTypeRuntimeConfig) (m : NodeMetrics) (lookahead : Z) : Wallet :=
  {| inner := AggregateWallet.new wallet wallet_persister (account_zero primary_type)
                additional_wallets;
     account_generation := 0; synced_derived_accounts := ∅; broadcaster := b;
     fee_estimator := fe; payment_store := ps; payment_store_update_pending := false;
     network := net; include_untrusted_pending_in_spendable := include_untrusted;
     account_stores := stores; seed_bytes := seed; address_type_runtime_config := rc;
     node_metrics := m; derived_account_lookahead := lookahead |}.

(** Run a method of the aggregate on [self.inner]. *)
Definition on_inner {A} (err : aggregate.Error → Error)
    (m : cmd Aggregate aggregate.Error A) : wcmd A := λ s,
  let '(i, r) := m (inner s) in (set_inner i s, map_err err r).

(** [self.account_generation.fetch_add(1, ..)] *)
Definition bump_generation : wcmd unit :=
  modify (λ s, set_generation (wrap64 (account_generation s + 1)) s).

(** ** Broadcast records *)

Definition is_funding_transaction (t : Txid) (channels : list (option OutPoint)) : bool :=
  existsb (λ funding_txo,
    match funding_txo with Some o => bool_decide (txid o = t) | None => false end) channels.

Definition broadcast_key (t : Txid) : kv_key :=
  ("wallet_broadcast_txids"%string, EmptyString, txid_to_string t).

Definition record_broadcast_txid (t : Txid) : wcmd unit := λ s,
  let ps := payment_store s in
  let '(kv, r) := kv_write (DataStore.kv_store ps) (broadcast_key t) [] in
  (set_payment_store (DataStore.set_kv kv ps) s, map_err (λ _, PersistenceFailed) r).

Definition is_broadcast_by_wallet (t : Txid) s : outcome Error bool :=
  match kv_read (DataStore.kv_store (payment_store s)) (broadcast_key t) with
  | Ok _ => Ok true
  | Err KindNotFound => Ok false
  | Err _ => Err PersistenceFailed
  | Panic => Panic
  end.

(** ** Chain queries *)

Definition get_wallet_incremental_sync_request a s :
    outcome aggregate.Error (list (KeychainKind * Z * Script)) :=
  if account_index a =? 0 then AggregateWallet.wallet_incremental_sync_request (inner s) a
  else AggregateWallet.wallet_incremental_sync_request_with_lookahead (inner s) a.

Definition current_best_block s : outcome Error BestBlock :=
  '(hash, height) ← map_err (λ _, WalletOperationFailed) (AggregateWallet.current_best_block (inner s));
  Ok (mkBestBlock hash height).

Definition account_sync_snapshot s : Z * list (OnchainWalletAccount * BestBlock) :=
  (account_generation s,
   (λ '(a, hash, height), (a, mkBestBlock hash height))
     <$> AggregateWallet.chain_tips_by_key (inner s)).

Definition get_drain_script s : outcome Error Script :=
  w ← map_err (λ _, WalletOperationFailed) (AggregateWallet.primary_wallet (inner s));
  Ok (address_script (ai_address (peek_address w Internal 0))).

Definition get_loaded_address_types s : list AddressType :=
  address_type <$> List.filter (λ a, account_index a =? 0) (AggregateWallet.loaded_keys (inner s)).
Definition get_loaded_onchain_wallet_accounts s : list OnchainWalletAccount :=
  AggregateWallet.loaded_keys (inner s).
Definition has_onchain_wallet_account a s : bool :=
  bool_decide (is_Some (AggregateWallet.wallets (inner s) !! a)).
Definition has_synced_derived_account a s : bool := bool_decide (a ∈ synced_derived_accounts s).
Definition mark_derived_account_synced a : wcmd unit :=
  modify (λ s, set_synced ({[a]} ∪ synced_derived_accounts s) s).

(** ** Accounts *)

(** A loaded wallet of the account, or a new one at the tip. *)
Definition create_wallet_for_account (seed : list u8) a (chain_tip : BestBlock)
    (lookahead : option Z) : wcmd (W * P) := λ s,
  match new_master (network s) seed with
  | None => (s, Err WalletOperationFailed)
  | Some xprv =>
      let '(p, r) :=
        get_or_create_wallet_for_account a xprv (network s) lookahead
          (persister_new (account_stores s a) a) in
      let s := set_account_stores (<[a := persister_store p]> (account_stores s)) s in
      (s,
       '(w, loaded_from_store) ← map_err (λ _, WalletOperationFailed) r;
       w ← if (loaded_from_store : bool) then Ok w
           else map_err (λ _, WalletOperationFailed) (start_at_tip w chain_tip);
       Ok (w, p))
  end.

(** [create_wallet_for_account(.., self.current_best_block(), ..)] *)
Definition create_at_best_block (seed : list u8) a (lookahead : option Z) : wcmd (W * P) :=
  with_state (λ s,
    tip ← lift (current_best_block s);
    create_wallet_for_account seed a tip lookahead).

Definition add_monitored_address_type (t : AddressType) (seed : list u8) : wcmd unit :=
  with_state (λ s,
    let a := account_zero t in
    let rc := address_type_runtime_config s in
    if decide (primary rc = t) then fail AddressTypeIsPrimary
    else if decide (t ∈ monitored rc) then fail AddressTypeAlreadyMonitored
    else
      '(wallet, persister) ← create_at_best_block seed a None;
      _ ← on_inner (λ _, WalletOperationFailed) (AggregateWallet.add_wallet a wallet persister);
      _ ← bump_generation;
      modify (λ s, set_runtime (set_monitored (monitored (address_type_runtime_config s) ++ [t])
                                  (address_type_runtime_config s)) s)).

(** Unload an account: its part of the store stays behind. *)
Definition unload a : wcmd (outcome aggregate.Error unit) := λ s,
  let store := persister_store <$> AggregateWallet.persisters (inner s) !! a in
  let '(i, r) := AggregateWallet.remove_wallet a (inner s) in
  let s := set_inner i s in
  match r, store with
  | Ok _, Some d => (set_account_stores (<[a := d]> (account_stores s)) s, Ok r)
  | _, _ => (s, Ok r)
  end.

Definition remove_monitored_address_type (t : AddressType) : wcmd unit :=
  with_state (λ s,
    let a := account_zero t in
    let rc := address_type_runtime_config s in
    if decide (primary rc = t) then fail AddressTypeIsPrimary
    else if decide (t ∉ monitored rc) then fail AddressTypeNotMonitored
    else
      r ← unload a;
      removed ← match r with
                | Ok _ => mret true
                | Err aggregate.CannotRemovePrimary => fail AddressTypeIsPrimary
                | Err aggregate.WalletNotFound => mret false
                | Err _ => fail WalletOperationFailed
                | Panic => lift Panic
                end;
      _ ← modify (λ s,
            let rc := address_type_runtime_config s in
            set_runtime (set_monitored (filter (λ t', t' ≠ t) (monitored rc)) rc) s);
      if (removed : bool) then bump_generation else mret tt).

(** Make a loaded account 0 the primary: the old primary type becomes a monitored one,
    and a type that was never synchronised makes the next synchronisation a full scan. *)
Definition promote (t old_primary : AddressType) : wcmd unit :=
  _ ← on_inner (λ _, WalletOperationFailed) (AggregateWallet.set_primary (account_zero t));
  _ ← modify (λ s,
        let rc := address_type_runtime_config s in
        let kept := filter (λ t', t' ≠ t) (monitored rc) in
        set_runtime
          (mkRuntimeConfig t (if decide (old_primary ∈ kept) then kept else kept ++ [old_primary])
             (derived_accounts rc)) s);
  with_state (λ s,
    if decide (get_wallet_sync_timestamp (node_metrics s) (account_zero t) = None)
    then modify (λ s, set_metrics (set_onchain_sync_timestamp None (node_metrics s)) s)
    else mret tt).

Definition set_primary_address_type (t : AddressType) (seed : list u8) : wcmd unit :=
  with_state (λ s,
    let a := account_zero t in
    let old_primary := primary (address_type_runtime_config s) in
    if decide (t = old_primary) then mret tt
    else if decide (a ∈ AggregateWallet.loaded_keys (inner s)) then promote t old_primary
    else
      '(wallet, persister) ← create_at_best_block seed a None;
      _ ← on_inner (λ _, WalletOperationFailed) (AggregateWallet.add_wallet a wallet persister);
      _ ← bump_generation;
      promote t old_primary).

Definition export_onchain_wallet_account_xpub (t : AddressType) (account_index : Z) s :
    outcome Error (list u8) :=
  if MAX_ONCHAIN_WALLET_ACCOUNT_INDEX <? account_index then Err InvalidQuantity
  else
    xprv ← ok_or (new_master (network s) (seed_bytes s)) Errors.InvalidSeedBytes;
    map_err (λ _, Errors.InvalidSeedBytes)
      (derive_account_xpub_string xprv (network s) t account_index).

(** [if !derived_accounts.contains(&account) { derived_accounts.push(account) }] *)
Definition register_derived a : wcmd unit :=
  modify (λ s,
    let rc := address_type_runtime_config s in
    set_runtime
      (set_derived (if decide (a ∈ derived_accounts rc) then derived_accounts rc
                    else derived_accounts rc ++ [a]) rc) s).

(** [add_wallet_and_persist].  When it fails the new wallet is dropped again, but what was
    written for it stays in the store. *)
Definition add_and_persist a (wallet : W) (persister : P) : wcmd unit := λ s,
  let '(i, r) := AggregateWallet.add_wallet_and_persist a wallet persister (inner s) in
  let attempt :=
    (AggregateWallet.persist_all (AggregateWallet.add_wallet a wallet persister (inner s)).1).1 in
  let stores :=
    match r, AggregateWallet.persisters attempt !! a with
    | Err _, Some p => <[a := persister_store p]> (account_stores s)
    | _, _ => account_stores s
    end in
  (set_account_stores stores (set_inner i s), map_err keep_persistence_error r).

Definition add_onchain_wallet_account (t : AddressType) (account_index : Z) (xpub : list u8) :
    wcmd unit :=
  with_state (λ s,
    if (account_index =? 0) || (MAX_ONCHAIN_WALLET_ACCOUNT_INDEX <? account_index)
    then fail InvalidQuantity
    else
      let a := mkAccount t account_index in
      expected_xpub ← lift (export_onchain_wallet_account_xpub t account_index s);
      if decide (trim xpub ≠ expected_xpub) then fail Errors.InvalidSeedBytes
      else if decide (a ∈ AggregateWallet.loaded_keys (inner s)) then
        _ ← on_inner (λ _, PersistenceFailed) AggregateWallet.persist_all;
        register_derived a
      else
        '(wallet, persister) ←
          create_at_best_block (seed_bytes s) a (Some (derived_account_lookahead s));
        _ ← add_and_persist a wallet persister;
        _ ← bump_generation;
        register_derived a).

Definition remove_onchain_wallet_account (t : AddressType) (account_index : Z) : wcmd unit :=
  with_state (λ s,
    if (account_index =? 0) || (MAX_ONCHAIN_WALLET_ACCOUNT_INDEX <? account_index)
    then fail InvalidQuantity
    else
      let a := mkAccount t account_index in
      if decide (a ∉ derived_accounts (address_type_runtime_config s))
      then fail OnchainWalletAccountNotRegistered
      else
        r ← unload a;
        removed ← match r with
                  | Ok _ => mret true
                  | Err aggregate.WalletNotFound => mret false
                  | Err _ => fail WalletOperationFailed
                  | Panic => lift Panic
                  end;
        _ ← modify (λ s,
              let rc := address_type_runtime_config s in
              set_runtime (set_derived (filter (λ a', a' ≠ a) (derived_accounts rc)) rc) s);
        _ ← modify (λ s, set_synced (synced_derived_accounts s ∖ {[a]}) s);
        if (removed : bool) then bump_generation else mret tt).

(** ** Rewinding an account *)

(** What happens to an account's store through another persister shows to the loaded
    one as well. *)
Definition share_store a (d : D) (i : Aggregate) : Aggregate :=
  match AggregateWallet.persisters i !! a with
  | Some p => AggregateWallet.set_persister a (set_persister_store d p) i
  | None => i
  end.
Definition store_of a s : D :=
  match AggregateWallet.persisters (inner s) !! a with
  | Some p => persister_store p
  | None => account_stores s a
  end.

(** Rewind the stored chain of the account and load the wallet from it again, on a
    persister of its own. *)
Definition reload_at (xprv : Xpriv) a (checkpoint : BlockId) (d : D) s :
    P * outcome Error W :=
  let '(p, r) := persister_rewind checkpoint (persister_new d a) in
  match r with
  | Ok _ =>
      let lookahead := if account_index a =? 0 then None else Some (derived_account_lookahead s) in
      let '(p, r) := get_or_create_wallet_for_account a xprv (network s) lookahead p in
      (p,
       '(wallet, loaded_from_store) ← map_err (λ _, WalletOperationFailed) r;
       let cp := latest_checkpoint wallet in
       if negb loaded_from_store ||
          bool_decide ({| block_height := cp_height cp; block_hash := cp_hash cp |} ≠ checkpoint)
       then Err WalletOperationFailed else Ok wallet)
  | Err _ => (p, Err PersistenceFailed)
  | Panic => (p, Panic)
  end.

Definition rewind_wallet_account a (checkpoint : BestBlock) : wcmd unit :=
  with_state (λ s,
    xprv ← lift (ok_or (new_master (network s) (seed_bytes s)) WalletOperationFailed);
    if decide (AggregateWallet.wallets (inner s) !! a = None) then fail WalletOperationFailed
    else
      _ ← on_inner (λ _, PersistenceFailed) AggregateWallet.persist_all;
      with_state (λ s,
        let '(p, r) := reload_at xprv a (best_block_id checkpoint) (store_of a s) s in
        match r with
        | Ok wallet =>
            _ ← modify (λ s,
                  set_inner (AggregateWallet.set_persister a p
                               (AggregateWallet.set_wallet a wallet (inner s))) s);
            modify (set_pending true)
        | Err e =>
            _ ← modify (λ s, set_inner (share_store a (persister_store p) (inner s)) s);
            fail e
        | Panic => lift Panic
        end)).

(** ** Chain data *)

Definition apply_block_to_account a (block : Block) (height : Z) : wcmd unit :=
  _ ← modify (set_pending true);
  _ ← on_inner keep_persistence_error (AggregateWallet.apply_block_to a block height);
  mret tt.

Definition apply_update (update : U) : wcmd (list Ev) :=
  '(events, _) ← on_inner update_error (AggregateWallet.apply_update update);
  mret events.

(** [None] for an account that is not loaded. *)
Definition apply_update_for_wallet_account a (update : U) : wcmd (option (list Ev)) :=
  with_state (λ s,
    if decide (AggregateWallet.wallets (inner s) !! a = None) then mret None
    else
      '(events, _) ← on_inner update_error (AggregateWallet.apply_update_to_wallet a update);
      mret (Some events)).

(** ** Addresses *)

Definition get_new_address_info : wcmd AddressInfo :=
  on_inner (λ _, WalletOperationFailed) AggregateWallet.new_address_info.
Definition get_new_address : wcmd Address :=
  info ← get_new_address_info; mret (ai_address info).

Definition get_new_address_info_for_account a : wcmd AddressInfo :=
  on_inner (map_wallet_account_error a) (AggregateWallet.new_address_info_for a).
Definition get_new_address_for_account a : wcmd Address :=
  info ← get_new_address_info_for_account a; mret (ai_address info).
Definition get_new_address_info_for_type (t : AddressType) : wcmd AddressInfo :=
  get_new_address_info_for_account (account_zero t).
Definition get_new_address_for_type (t : AddressType) : wcmd Address :=
  info ← get_new_address_info_for_type t; mret (ai_address info).

Definition get_address_info_for_account_at_index a (k : KeychainKind) (index : Z) s :
    outcome Error AddressInfo :=
  _ ← validate_derivation_index index;
  map_err (map_wallet_account_error a) (AggregateWallet.address_info_for (inner s) a k index).
Definition get_address_info_for_type_at_index (t : AddressType) (k : KeychainKind) (index : Z) s :
    outcome Error AddressInfo :=
  get_address_info_for_account_at_index (account_zero t) k index s.

Definition get_address_infos_for_account a (k : KeychainKind) (start_index count : Z) s :
    outcome Error (list AddressInfo) :=
  _ ← validate_derivation_range start_index count;
  map_err (map_wallet_account_error a)
    (AggregateWallet.address_infos_for (inner s) a k start_index count).
Definition get_address_infos_for_type (t : AddressType) (k : KeychainKind) (start_index count : Z)
    s : outcome Error (list AddressInfo) :=
  get_address_infos_for_account (account_zero t) k start_index count s.

Definition reveal_receive_addresses_to_account a (index : Z) : wcmd unit :=
  _ ← lift (validate_derivation_index index);
  on_inner (map_wallet_account_error a) (AggregateWallet.reveal_addresses_to a index).
Definition reveal_receive_addresses_to (t : AddressType) (index : Z) : wcmd unit :=
  reveal_receive_addresses_to_account (account_zero t) index.

Definition is_witness_account a : bool :=
  (account_index a =? 0) && is_native_witness (address_type a).

Definition get_new_witness_address : wcmd Address :=
  with_state (λ s,
    if is_witness_account (AggregateWallet.primary (inner s)) then get_new_address
    else
      match List.find is_witness_account (AggregateWallet.loaded_keys (inner s)) with
      | Some key => get_new_address_for_type (address_type key)
      | None => fail WalletOperationFailed
      end).

Definition get_new_internal_address : wcmd Address :=
  on_inner (λ _, WalletOperationFailed) AggregateWallet.new_internal_address.

Definition transaction_fee_sats (tx : Transaction) s : outcome Error Z :=
  map_err (λ _, WalletOperationFailed) (AggregateWallet.calculate_tx_fee (inner s) tx).

Definition cancel_tx (tx : Transaction) : wcmd unit :=
  on_inner (λ _, PersistenceFailed) (AggregateWallet.cancel_tx tx).

(** ** Balances *)

(** [Balance::trusted_spendable] and [Balance::total], sums of [Amount]s. *)
Definition trusted_spendable {E} (b : Balance) : outcome E Amount :=
  amount_add (confirmed b) (trusted_pending b).
Definition total {E} (b : Balance) : outcome E Amount :=
  x ← amount_add (confirmed b) (trusted_pending b);
  x ← amount_add x (untrusted_pending b);
  amount_add x (immature b).

(** (total, spendable) *)
Definition get_balances_inner (balance : Balance) (total_anchor_channels_reserve_sats : Z) s :
    outcome Error (Z * Z) :=
  trusted ← trusted_spendable balance;
  let spendable_base :=
    if include_untrusted_pending_in_spendable s then wrap64 (trusted + untrusted_pending balance)
    else trusted in
  total ← total balance;
  Ok (total, saturating_sub spendable_base total_anchor_channels_reserve_sats).

Definition get_balances (total_anchor_channels_reserve_sats : Z) s : outcome Error (Z * Z) :=
  balance ← map_err (λ _, WalletOperationFailed) (AggregateWallet.balance (inner s));
  get_balances_inner balance total_anchor_channels_reserve_sats s.

Definition get_balance_for_onchain_wallet_account a s : outcome Error (Z * Z) :=
  balance ← map_err (map_wallet_account_error a) (AggregateWallet.balance_for (inner s) a);
  get_balances_inner balance 0 s.
Definition get_balance_for_address_type (t : AddressType) s : outcome Error (Z * Z) :=
  get_balance_for_onchain_wallet_account (account_zero t) s.

Definition get_spendable_amount_sats (total_anchor_channels_reserve_sats : Z) s :
    outcome Error Z :=
  snd <$> get_balances total_anchor_channels_reserve_sats s.

Definition not_legacy a : bool := bool_decide (address_type a ≠ Legacy).

Definition get_witness_spendable_amount_sats (total_anchor_channels_reserve_sats : Z) s :
    outcome Error Z :=
  let has_account_zero_segwit_builder :=
    existsb (λ a, (account_index a =? 0) && not_legacy a) (AggregateWallet.loaded_keys (inner s)) in
  if has_account_zero_segwit_builder then
    balance ← map_err (λ _, WalletOperationFailed)
                (AggregateWallet.balance_filtered (inner s) not_legacy);
    snd <$> get_balances_inner balance total_anchor_channels_reserve_sats s
  else Ok 0.

(** ** Transactions *)

Definition get_tx_details (t : Txid) s : option (Z * list TxInput * list TxOutput) :=
  '(sent_sat, received_sat) ← AggregateWallet.sent_and_received (inner s) t;
  tx ← AggregateWallet.find_tx (inner s) t;
  let net_amount := wrap_i64 (as_i64 received_sat - as_i64 sent_sat) in
  Some (net_amount, from_tx_input <$> input tx,
        (λ '(index, o), from_tx_output o (Z.of_nat index) (network s)) <$> enumerate (output tx)).
End wallet.
Arguments Wallet S W P D : clear implicits.
End Wallet.
