(* ===== verification/WalletAccounts.v ===== *)
(** * Accounts of the node's wallet

    What the operations that add, remove and promote accounts do to the set of loaded
    wallets, the run-time configuration and the account generation, as a refinement of
    a specification on those values alone; and the invariant that ties them together
    through every operation and every failure. *)

From stdpp Require Import functions.
From S2P Require Import Prelude Errors KVStore DataStore Types PaymentStore Bdk AggTypes.
From S2P Require Import AggUtxo AggSigning AggRbf Aggregate AggBuild AggInvariant.
From S2P Require Import FeeEstimator Config WalletKeys Event NodeMetrics TxBroadcaster Wallet.
Import Wallet.

(** ** The specification *)

(** What the operations are about: the loaded accounts, the primary type, the monitored
    types, the registered derived accounts, and the account generation. *)
Record accounts := mkAccounts {
  loaded : gset OnchainWalletAccount;
  prim : AddressType;
  mon : list AddressType;
  der : list OnchainWalletAccount;
  gen : Z;
}.

(** The generation moves exactly when the set of loaded accounts does. *)
Definition with_loaded (l : gset OnchainWalletAccount) (p : AddressType) (m : list AddressType)
    (d : list OnchainWalletAccount) (x : accounts) : accounts :=
  mkAccounts l p m d (if decide (l = loaded x) then gen x else wrap64 (gen x + 1)).

Inductive op (Agg : Type) :=
| AddMonitored (t : AddressType) (seed : list u8)
| RemoveMonitored (t : AddressType)
| SetPrimary (t : AddressType) (seed : list u8)
| AddAccount (t : AddressType) (index : Z) (xpub : list u8)
| RemoveAccount (t : AddressType) (index : Z)
| RewindAccount (a : OnchainWalletAccount) (checkpoint : BestBlock)
| OtherCall (c : Agg).
Arguments AddMonitored {_} _ _.
Arguments RemoveMonitored {_} _.
Arguments SetPrimary {_} _ _.
Arguments AddAccount {_} _ _ _.
Arguments RemoveAccount {_} _ _.
Arguments RewindAccount {_} _ _.
Arguments OtherCall {_} _.

(** What a successful call does. *)
Definition spec {Agg} (c : op Agg) (x : accounts) : accounts :=
  match c with
  | AddMonitored t _ =>
      with_loaded ({[account_zero t]} ∪ loaded x) (prim x) (mon x ++ [t]) (der x) x
  | RemoveMonitored t =>
      with_loaded (loaded x ∖ {[account_zero t]}) (prim x) (filter (λ t', t' ≠ t) (mon x)) (der x) x
  | SetPrimary t _ =>
      if decide (t = prim x) then x
      else
        let kept := filter (λ t', t' ≠ t) (mon x) in
        with_loaded ({[account_zero t]} ∪ loaded x) t
          (if decide (prim x ∈ kept) then kept else kept ++ [prim x]) (der x) x
  | AddAccount t i _ =>
      let a := mkAccount t i in
      with_loaded ({[a]} ∪ loaded x) (prim x) (mon x)
        (if decide (a ∈ der x) then der x else der x ++ [a]) x
  | RemoveAccount t i =>
      let a := mkAccount t i in
      with_loaded (loaded x ∖ {[a]}) (prim x) (mon x) (filter (λ a', a' ≠ a) (der x)) x
  | RewindAccount _ _ | OtherCall _ => x
  end.

(** Every loaded account is configured: the primary type is loaded and is not listed as
    monitored, a loaded account 0 is the primary or monitored, and a loaded derived
    account is registered, once, with an index that can be hardened. *)
Record consistent (x : accounts) : Prop := {
  primary_loaded : account_zero (prim x) ∈ loaded x;
  primary_not_monitored : prim x ∉ mon x;
  loaded_configured : ∀ a, a ∈ loaded x →
    (account_index a = 0 ∧ (address_type a = prim x ∨ address_type a ∈ mon x)) ∨ a ∈ der x;
  derived_valid : Forall (λ a, 1 ≤ account_index a ≤ MAX_ONCHAIN_WALLET_ACCOUNT_INDEX) (der x);
  derived_once : NoDup (der x);
}.

Lemma account_zero_inj t t' : account_zero t = account_zero t' → t = t'.
Proof. by intros [=]. Qed.

#[local] Instance account_zero_Inj : Inj (=) (=) account_zero := account_zero_inj.

(** The calls' own guards, as far as the invariant needs them. *)
Definition admissible {Agg} (c : op Agg) (x : accounts) : Prop :=
  match c with
  | AddMonitored t _ | RemoveMonitored t => t ≠ prim x
  | AddAccount _ i _ | RemoveAccount _ i => 1 ≤ i ≤ MAX_ONCHAIN_WALLET_ACCOUNT_INDEX
  | _ => True
  end.

Lemma NoDup_snoc {A} (l : list A) x : NoDup l → x ∉ l → NoDup (l ++ [x]).
Proof.
  intros Hl Hx. apply NoDup_app. split_and!; [done| |apply NoDup_singleton].
  by intros y Hy ->%list_elem_of_singleton.
Qed.

Lemma add_account_consistent {Agg} t i xpub x :
  1 ≤ i ≤ MAX_ONCHAIN_WALLET_ACCOUNT_INDEX → consistent x →
  consistent (spec (AddAccount (Agg := Agg) t i xpub) x).
Proof.
  intros Hi [Hp Hpm Hl Hd Hn]. split; simpl; [set_solver|done|intros a|..].
  - rewrite elem_of_union, elem_of_singleton. intros [->|Ha].
    + right. case_decide; [done|]. set_solver.
    + destruct (Hl a Ha) as [?|?]; [by left|right]. case_decide; set_solver.
  - case_decide; [done|]. apply Forall_app. split; [done|]. constructor; [done|constructor].
  - case_decide; [done|]. by apply NoDup_snoc.
Qed.

Lemma remove_account_consistent {Agg} t i x :
  1 ≤ i ≤ MAX_ONCHAIN_WALLET_ACCOUNT_INDEX → consistent x →
  consistent (spec (RemoveAccount (Agg := Agg) t i) x).
Proof.
  intros Hi [Hp Hpm Hl Hd Hn]. split; simpl; [|done|intros a|..].
  - apply elem_of_difference. split; [done|]. rewrite elem_of_singleton.
    unfold account_zero. intros [= ? ?]. lia.
  - rewrite elem_of_difference, elem_of_singleton. intros [Ha Hne].
    destruct (Hl a Ha) as [?|?]; [by left|right]. by apply list_elem_of_filter.
  - rewrite Forall_forall in Hd |- *. intros a [_ Ha]%list_elem_of_filter. by apply Hd.
  - by apply NoDup_filter.
Qed.

Lemma set_primary_consistent {Agg} t seed x :
  consistent x → consistent (spec (SetPrimary (Agg := Agg) t seed) x).
Proof.
  intros Hc. simpl. destruct (decide (t = prim x)) as [->|Hne]; [done|].
  destruct Hc as [Hp Hpm Hl Hd Hn]. split; simpl; [set_solver| |intros a|done|done].
  - case_decide; rewrite ?elem_of_app, ?list_elem_of_singleton, list_elem_of_filter; naive_solver.
  - rewrite elem_of_union, elem_of_singleton. intros [->|Ha]; [by left; auto|].
    destruct (Hl a Ha) as [[H0 Ht]|?]; [left|by right]. split; [done|].
    destruct (decide (address_type a = t)) as [?|Hat]; [by left|right].
    destruct Ht as [->|Hm].
    + case_decide; [done|]. set_solver.
    + assert (address_type a ∈ filter (λ t', t' ≠ t) (mon x)) by (by apply list_elem_of_filter).
      case_decide; [done|]. apply elem_of_app. by left.
Qed.

Lemma spec_consistent {Agg} (c : op Agg) x :
  admissible c x → consistent x → consistent (spec c x).
Proof.
  destruct c as [t seed|t|t seed|t i xpub|t i|a cp|c]; intros Hadm Hc;
    [| |by apply set_primary_consistent|by apply add_account_consistent
     |by apply remove_account_consistent|done..]; destruct Hc as [Hp Hpm Hl Hd Hn]; simpl in *.
  - split; simpl; [set_solver| |intros a|done|done].
    + rewrite elem_of_app, list_elem_of_singleton. naive_solver.
    + rewrite elem_of_union, elem_of_singleton. intros [->|Ha]; [left; simpl; set_solver|].
      destruct (Hl a Ha) as [[? [?|?]]|?]; [left..|by right]; set_solver.
  - split; simpl; [|rewrite list_elem_of_filter; tauto|intros a|done|done].
    + apply elem_of_difference. split; [done|]. rewrite elem_of_singleton.
      intros Heq%account_zero_inj. congruence.
    + rewrite elem_of_difference, elem_of_singleton. intros [Ha Hne].
      destruct (Hl a Ha) as [[H0 [?|?]]|?]; [by left; auto| |by right].
      left. split; [done|right]. apply list_elem_of_filter. split; [|done].
      intros <-. apply Hne. destruct a; simpl in *. by subst.
Qed.

(** ** Refinement *)

Section refinement.
Context {S : Type} {KV : KVStore S}.
Context {OBJ : StorableObject PaymentDetails PaymentId PaymentDetailsUpdate}.
Context {O : IterOrder OnchainWalletAccount} {OT : IterOrder Txid}.
Context {BTC : Bitcoin} {W P U Ev : Type} {BDK : Bdk W P U Ev} {CS : CoinSelection}.
Context {Xpriv D : Type} {B32 : Bip32 Xpriv} {WL : WalletLoader Xpriv W P}.
Context {PER : Persister P D}.
Context {BTCS : BitcoinSpec} {BDKS : BdkSpec W P U Ev}.
Abbreviation Aggregate := (AggregateWallet.AggregateWallet OnchainWalletAccount W P).
Abbreviation wallet_state := (Wallet S W P D).
Abbreviation agg_op := (AggInvariant.op (K := OnchainWalletAccount) (W := W) (P := P) (U := U)).
Implicit Types (s : wallet_state).

(** The wallet's calls; [OtherCall] is any call that runs a method of the aggregate
    wallet which does not change its membership. *)
Definition exec (c : op agg_op) : cmd wallet_state Error unit :=
  match c with
  | AddMonitored t seed => add_monitored_address_type t seed
  | RemoveMonitored t => remove_monitored_address_type t
  | SetPrimary t seed => set_primary_address_type t seed
  | AddAccount t i xpub => add_onchain_wallet_account t i xpub
  | RemoveAccount t i => remove_onchain_wallet_account t i
  | RewindAccount a cp => rewind_wallet_account a cp
  | OtherCall c =>
      if changes_membership c then mret tt
      else on_inner (λ _, WalletOperationFailed) (AggInvariant.exec c)
  end.

Definition view s : accounts :=
  mkAccounts (dom (AggregateWallet.wallets (inner s)))
    (primary (address_type_runtime_config s)) (monitored (address_type_runtime_config s))
    (derived_accounts (address_type_runtime_config s)) (account_generation s).

(** The aggregate has a persister per wallet and the configured primary. *)
Definition agg_ok s : Prop :=
  keys_are (loaded (view s)) (account_zero (prim (view s))) (inner s).
Definition inv s : Prop := agg_ok s ∧ consistent (view s).

(** A command that leaves the accounts alone, whatever its outcome. *)
Definition silent {A} (m : cmd wallet_state Error A) : Prop :=
  ∀ s, inv s → inv (m s).1 ∧ view (m s).1 = view s.
(** A command that takes the accounts from [x] to [y] if it succeeds, and leaves them at
    [x] if it does not. *)
Definition refines {A} (x y : accounts) (m : cmd wallet_state Error A) : Prop :=
  ∀ s, inv s → view s = x → agg_ok (m s).1 ∧ view (m s).1 = if is_ok (m s).2 then y else x.

Lemma silent_refines {A} x (m : cmd wallet_state Error A) : silent m → refines x x m.
Proof.
  intros Hm s Hs Hx. destruct (Hm s Hs) as [[? _] Hv]. rewrite Hx in Hv. split; [done|].
  by destruct (is_ok _).
Qed.

Lemma silent_lift {A} (m : outcome Error A) : silent (lift m).
Proof. by intros s. Qed.
Lemma silent_fail {A} e : silent (@fail _ Error A e).
Proof. by intros s. Qed.
Lemma silent_with_state {A} (f : wallet_state → cmd wallet_state Error A) :
  (∀ s, silent (f s)) → silent (with_state f).
Proof. intros Hf s Hs. by apply Hf. Qed.

Lemma silent_bind {A B} (m : cmd wallet_state Error A) (k : A → cmd wallet_state Error B) :
  silent m → (∀ x, silent (k x)) → silent (m ≫= k).
Proof.
  intros Hm Hk s Hs. unfold mbind, cmd_bind. destruct (Hm s Hs) as [Hs1 Hv].
  destruct (m s) as [s1 [x|e|]]; simpl in *; [|done..].
  destruct (Hk x s1 Hs1) as [? Hv']. by rewrite Hv'.
Qed.

Lemma refines_bind {A B} x y (m : cmd wallet_state Error A) (k : A → cmd wallet_state Error B) :
  silent m → (∀ v, refines x y (k v)) → refines x y (m ≫= k).
Proof.
  intros Hm Hk s Hs Hx. unfold mbind, cmd_bind. destruct (Hm s Hs) as [Hs1 Hv].
  destruct (m s) as [s1 [v|e|]]; simpl in *; [|split; [apply Hs1|congruence]..].
  apply Hk; [done|congruence].
Qed.

Lemma refines_fail {A} x y e : refines x y (@fail _ Error A e).
Proof. intros s [Hs _] Hx. by split. Qed.

Lemma refines_with_state {A} x y (f : wallet_state → cmd wallet_state Error A) :
  (∀ s, inv s → view s = x → refines x y (f s)) → refines x y (with_state f).
Proof. intros Hf s Hs Hx. by apply Hf. Qed.

Lemma silent_on_inner {A} err (m : cmd Aggregate aggregate.Error A) :
  (∀ K p, p ∈ K → stable K K p m) → silent (on_inner err m).
Proof.
  intros Hm s [Ha Hc]. unfold on_inner.
  destruct (Hm _ _ (primary_loaded _ Hc) (inner s) Ha) as [Hk _].
  destruct (m (inner s)) as [i r]; simpl in *.
  assert (view (set_inner i s) = view s) as Hv.
  { unfold view; simpl. f_equal. apply Hk. }
  unfold inv, agg_ok. rewrite Hv. by split; [split|].
Qed.

(** A change of the fields that are not about accounts. *)
Lemma silent_modify f :
  (∀ s, inner (f s) = inner s ∧ address_type_runtime_config (f s) = address_type_runtime_config s ∧
        account_generation (f s) = account_generation s) →
  silent (modify f).
Proof.
  intros Hf s [Ha Hc]. destruct (Hf s) as (Hi & Hr & Hg). simpl.
  assert (view (f s) = view s) as Hv by (unfold view; by rewrite Hi, Hr, Hg).
  unfold inv, agg_ok. rewrite Hv, Hi. by split; [split|].
Qed.

Lemma silent_create seed a lookahead : silent (create_at_best_block seed a lookahead).
Proof.
  apply silent_with_state. intros s0. apply silent_bind; [apply silent_lift|]. intros tip s Hs.
  unfold create_wallet_for_account. destruct (new_master _ _) as [xprv|]; [|done].
  destruct (get_or_create_wallet_for_account _ _ _ _ _) as [p r]. done.
Qed.

(** ** The operations *)

(** A new key in the aggregate, the generation bumped, and the configuration set. *)
Definition joined a (w : W) (p : P) (rc : AddressTypeRuntimeConfig) s : wallet_state :=
  set_runtime rc (set_generation (wrap64 (account_generation s + 1))
    (set_inner (AggregateWallet.set_persister a p (AggregateWallet.set_wallet a w (inner s))) s)).

Lemma joined_ok a w p rc s :
  agg_ok s → a ∉ loaded (view s) → primary rc = prim (view s) →
  agg_ok (joined a w p rc s) ∧
  view (joined a w p rc s)
    = with_loaded ({[a]} ∪ loaded (view s)) (primary rc) (monitored rc) (derived_accounts rc) (view s).
Proof.
  intros Ha Hn Hp. apply (keys_are_insert _ _ _ a w p) in Ha as (Hw & Hq & Hpr).
  assert (loaded (view (joined a w p rc s)) = {[a]} ∪ loaded (view s)) as Hl by done.
  split; [unfold agg_ok; rewrite Hl; simpl; by rewrite Hp|].
  unfold with_loaded. rewrite decide_False by set_solver. unfold view; simpl. f_equal. done.
Qed.

Lemma add_wallet_cases a (w : W) (p : P) s :
  agg_ok s →
  (a ∈ loaded (view s) ∧
   on_inner (λ _, WalletOperationFailed) (AggregateWallet.add_wallet a w p) s
     = (s, Err WalletOperationFailed)) ∨
  (a ∉ loaded (view s) ∧
   on_inner (λ _, WalletOperationFailed) (AggregateWallet.add_wallet a w p) s
     = (set_inner (AggregateWallet.set_persister a p (AggregateWallet.set_wallet a w (inner s))) s,
        Ok tt)).
Proof.
  intros _. unfold on_inner, AggregateWallet.add_wallet. simpl.
  destruct (AggregateWallet.wallets (inner s) !! a) eqn:Ha; [left|right].
  - split; [by apply elem_of_dom|]. by destruct s.
  - split; [by apply not_elem_of_dom|]. done.
Qed.

Lemma add_monitored_refines t seed x :
  refines x (spec (AddMonitored (Agg := agg_op) t seed) x) (add_monitored_address_type t seed).
Proof.
  apply refines_with_state. intros s0 _ _. cbv beta zeta. case_decide; [apply refines_fail|].
  case_decide; [apply refines_fail|]. apply refines_bind; [apply silent_create|].
  intros [w p] s [Ha Hc] Hx. unfold mbind, cmd_bind.
  destruct (add_wallet_cases (account_zero t) w p s Ha) as [[_ ->]|[Hn ->]]; [done|].
  destruct (joined_ok (account_zero t) w p
    (set_monitored (monitored (address_type_runtime_config s) ++ [t]) (address_type_runtime_config s))
    s Ha Hn) as [Ha' Hv]; [done|].
  split; [done|]. simpl is_ok. rewrite <- Hx. apply Hv.
Qed.

Lemma unload_cases a s :
  agg_ok s → account_zero (prim (view s)) ∈ loaded (view s) →
  (a = account_zero (prim (view s)) ∧
   unload a s = (s, Ok (Err aggregate.CannotRemovePrimary))) ∨
  (a ∉ loaded (view s) ∧ unload a s = (s, Ok (Err aggregate.WalletNotFound))) ∨
  (a ∈ loaded (view s) ∧ ∃ s', unload a s = (s', Ok (Ok tt)) ∧
     keys_are (loaded (view s) ∖ {[a]}) (account_zero (prim (view s))) (inner s') ∧
     address_type_runtime_config s' = address_type_runtime_config s ∧
     account_generation s' = account_generation s).
Proof.
  intros (Hw & Hq & Hp) Hl. unfold unload, AggregateWallet.remove_wallet. rewrite Hp.
  destruct (decide (a = account_zero (prim (view s)))) as [Ha|Hne]; [left|right].
  { split; [done|]. by destruct s. }
  destruct (decide (AggregateWallet.wallets (inner s) !! a = None)) as [Hn|Hn].
  { left. split; [by apply not_elem_of_dom|]. by destruct s. }
  right. assert (a ∈ loaded (view s)) as Hal by (apply elem_of_dom; by apply not_eq_None_Some).
  assert (is_Some (AggregateWallet.persisters (inner s) !! a)) as [q Hqa].
  { apply elem_of_dom. by rewrite Hq. }
  split; [done|]. rewrite Hqa, decide_False by done. eexists. split; [done|]. simpl.
  split_and!; [|done..]. split_and!; simpl; [by rewrite dom_delete_L|by rewrite dom_delete_L, Hq|done].
Qed.

Lemma view_of K s :
  keys_are K (account_zero (primary (address_type_runtime_config s))) (inner s) →
  agg_ok s ∧ view s = mkAccounts K (primary (address_type_runtime_config s))
    (monitored (address_type_runtime_config s)) (derived_accounts (address_type_runtime_config s))
    (account_generation s).
Proof.
  intros (Hw & Hq & Hp). assert (view s = mkAccounts K (primary (address_type_runtime_config s))
    (monitored (address_type_runtime_config s)) (derived_accounts (address_type_runtime_config s))
    (account_generation s)) as Hv by (unfold view; by rewrite Hw).
  split; [|done]. unfold agg_ok. rewrite Hv. by split_and!.
Qed.

Lemma remove_monitored_refines t x :
  refines x (spec (RemoveMonitored (Agg := agg_op) t) x) (remove_monitored_address_type t).
Proof.
  apply refines_with_state. intros s0 _ _. cbv beta zeta. case_decide; [apply refines_fail|].
  case_decide; [apply refines_fail|]. intros s [Ha Hc] Hx. unfold mbind, cmd_bind.
  destruct (unload_cases (account_zero t) s Ha (primary_loaded _ Hc))
    as [[_ ->]|[[Hn ->]|(Hl & s' & -> & Hk & Hr & Hg)]]; subst x; [done| |]; cbn.
  - destruct (view_of (loaded (view s)) (set_runtime (set_monitored (filter (λ t', t' ≠ t)
      (monitored (address_type_runtime_config s))) (address_type_runtime_config s)) s)) as [Ha' Hv];
      [done|]. split; [done|]. simpl in Hv. rewrite Hv. unfold with_loaded. simpl.
    rewrite decide_True by set_solver. f_equal. set_solver.
  - destruct (view_of (loaded (view s) ∖ {[account_zero t]})
      (set_generation (wrap64 (account_generation s' + 1)) (set_runtime (set_monitored
        (filter (λ t', t' ≠ t) (monitored (address_type_runtime_config s')))
        (address_type_runtime_config s')) s'))) as [Ha' Hv].
    { simpl. by rewrite Hr. }
    split; [done|]. simpl in Hv. rewrite Hv. unfold with_loaded.
    rewrite decide_False by set_solver. simpl. by rewrite Hr, Hg.
Qed.

Lemma remove_account_refines t i x :
  refines x (spec (RemoveAccount (Agg := agg_op) t i) x) (remove_onchain_wallet_account t i).
Proof.
  apply refines_with_state. intros s0 _ _. cbv beta zeta.
  destruct (_ || _) eqn:Hi; [apply refines_fail|]. case_decide; [apply refines_fail|].
  intros s [Ha Hc] Hx. unfold mbind, cmd_bind.
  destruct (unload_cases (mkAccount t i) s Ha (primary_loaded _ Hc))
    as [[_ ->]|[[Hn ->]|(Hl & s' & -> & Hk & Hr & Hg)]]; subst x; [done| |]; cbn.
  - destruct (view_of (loaded (view s)) (set_synced (synced_derived_accounts s ∖ {[mkAccount t i]})
      (set_runtime (set_derived (filter (λ a', a' ≠ mkAccount t i)
        (derived_accounts (address_type_runtime_config s))) (address_type_runtime_config s)) s)))
      as [Ha' Hv]; [done|]. split; [done|]. simpl in Hv. rewrite Hv. unfold with_loaded. simpl.
    rewrite decide_True by set_solver. f_equal. set_solver.
  - destruct (view_of (loaded (view s) ∖ {[mkAccount t i]})
      (set_generation (wrap64 (account_generation s' + 1))
        (set_synced (synced_derived_accounts s' ∖ {[mkAccount t i]}) (set_runtime (set_derived
          (filter (λ a', a' ≠ mkAccount t i) (derived_accounts (address_type_runtime_config s')))
          (address_type_runtime_config s')) s')))) as [Ha' Hv].
    { simpl. by rewrite Hr. }
    split; [done|]. simpl in Hv. rewrite Hv. unfold with_loaded.
    rewrite decide_False by set_solver. simpl. by rewrite Hr, Hg.
Qed.

Lemma set_primary_ok a s :
  agg_ok s → a ∈ loaded (view s) →
  on_inner (λ _, WalletOperationFailed) (AggregateWallet.set_primary a) s
  = (set_inner (AggregateWallet.mkAggregateWallet (AggregateWallet.wallets (inner s))
       (AggregateWallet.persisters (inner s)) a) s, Ok tt).
Proof.
  intros _ Hl. unfold on_inner, AggregateWallet.set_primary.
  change (a ∈ dom (AggregateWallet.wallets (inner s))) in Hl.
  apply elem_of_dom in Hl as [w Hw]. by rewrite Hw.
Qed.

Definition promoted (t : AddressType) (x : accounts) : accounts :=
  let kept := filter (λ t', t' ≠ t) (mon x) in
  mkAccounts (loaded x) t (if decide (prim x ∈ kept) then kept else kept ++ [prim x])
    (der x) (gen x).

Lemma promote_ok t s :
  agg_ok s → account_zero t ∈ loaded (view s) →
  ∃ s', promote t (prim (view s)) s = (s', Ok tt) ∧ agg_ok s' ∧ view s' = promoted t (view s).
Proof.
  intros Hk Hl. unfold promote, mbind, cmd_bind. rewrite (set_primary_ok _ s Hk Hl).
  destruct Hk as (Hw & Hq & Hp). unfold modify, with_state. cbn [node_metrics set_inner set_runtime].
  destruct (decide (get_wallet_sync_timestamp (node_metrics s) (account_zero t) = None));
    (eexists; split; [done|]; split; [exact (conj Hw (conj Hq eq_refl))|done]).
Qed.

Lemma elem_of_loaded_keys a s : a ∈ AggregateWallet.loaded_keys (inner s) ↔ a ∈ loaded (view s).
Proof. unfold AggregateWallet.loaded_keys. rewrite elem_of_keys. symmetry. apply elem_of_dom. Qed.

Lemma set_primary_refines t seed x :
  refines x (spec (SetPrimary (Agg := agg_op) t seed) x) (set_primary_address_type t seed).
Proof.
  apply refines_with_state. intros s0 Hs0 Hx0. cbv beta zeta. simpl spec.
  change (primary (address_type_runtime_config s0)) with (prim (view s0)). rewrite Hx0.
  case_decide as Ht; [apply silent_refines, silent_lift|].
  destruct (decide (account_zero t ∈ AggregateWallet.loaded_keys (inner s0))) as [Hl|Hl];
    rewrite elem_of_loaded_keys, Hx0 in Hl; clear s0 Hs0 Hx0.
  - intros s [Ha Hc] <-. destruct (promote_ok t s Ha Hl) as (s' & -> & Ha' & Hv). split; [done|].
    cbn [fst snd is_ok]. rewrite Hv. unfold with_loaded, promoted. 
    assert ({[account_zero t]} ∪ loaded (view s) = loaded (view s)) as Hu.
    { by apply subseteq_union_1_L, singleton_subseteq_l. }
    rewrite Hu. by rewrite (decide_True (P := loaded (view s) = loaded (view s))).
  - apply refines_bind; [apply silent_create|]. intros [w p] s [Ha Hc] Hx.
    unfold mbind, cmd_bind.
    destruct (add_wallet_cases (account_zero t) w p s Ha) as [[_ ->]|[Hn ->]]; [done|]. cbv iota.
    destruct (joined_ok (account_zero t) w p (address_type_runtime_config s) s Ha Hn) as [Ha' Hv];
      [done|]. subst x.
    set (s1 := joined _ _ _ _ _) in *.
    destruct (promote_ok t s1 Ha') as (s' & Hok & Ha'' & Hv''); [rewrite Hv; set_solver|].
    change (prim (view s1)) with (prim (view s)) in Hok.
    change (bump_generation _) with (s1, @Ok Error unit tt). cbv iota. rewrite Hok.
    split; [done|]. cbn [fst snd is_ok]. by rewrite Hv'', Hv.
Qed.

Lemma register_refines a s :
  agg_ok s →
  ∃ s', register_derived a s = (s', Ok tt) ∧ agg_ok s' ∧
    view s' = mkAccounts (loaded (view s)) (prim (view s)) (mon (view s))
      (if decide (a ∈ der (view s)) then der (view s) else der (view s) ++ [a]) (gen (view s)).
Proof. intros (Hw & Hq & Hp). eexists. split; [done|]. split; [exact (conj Hw (conj Hq Hp))|done]. Qed.

Lemma add_and_persist_cases a (w : W) (p : P) s :
  inv s →
  match add_and_persist a w p s with
  | (s', Ok _) => a ∉ loaded (view s) ∧
      keys_are ({[a]} ∪ loaded (view s)) (account_zero (prim (view s))) (inner s') ∧
      address_type_runtime_config s' = address_type_runtime_config s ∧
      account_generation s' = account_generation s
  | (s', Err _) => agg_ok s' ∧ view s' = view s
  | (s', Panic) => False
  end.
Proof.
  intros [Ha Hc]. unfold add_and_persist.
  pose proof (add_wallet_and_persist_spec _ _ _ (inner s) a w p (primary_loaded _ Hc) Ha) as Hs.
  destruct (AggregateWallet.add_wallet_and_persist a w p (inner s)) as [i [[]|e|]]; simpl; [|..|done].
  - destruct Hs as [Hn Hk]. by split_and!.
  - assert (keys_are (loaded (view s)) (account_zero (prim (view s))) i) as Hk.
    { assert (a ∉ loaded (view s) → loaded (view s) ∖ {[a]} = loaded (view s)) as Hd by set_solver.
      unfold keys_are. destruct e; destruct Hs as [Hn Hs]; rewrite ?Hd in Hs by done; by subst. }
    set (s' := set_account_stores _ _).
    destruct (view_of (loaded (view s)) s') as [Ha' Hv]; [exact Hk|]. split; [done|].
    rewrite Hv. done.
Qed.

Lemma persist_all_silent err : silent (on_inner err AggregateWallet.persist_all).
Proof. apply silent_on_inner. intros K p _. apply stable_persist_all. Qed.

Lemma add_account_refines t i xpub x :
  refines x (spec (AddAccount (Agg := agg_op) t i xpub) x) (add_onchain_wallet_account t i xpub).
Proof.
  apply refines_with_state. intros s0 Hs0 Hx0. cbv beta zeta.
  destruct (_ || _) eqn:Hi; [apply refines_fail|]. apply refines_bind; [apply silent_lift|].
  intros expected. destruct (decide (trim xpub ≠ expected)); [apply refines_fail|].
  destruct (decide (mkAccount t i ∈ AggregateWallet.loaded_keys (inner s0))) as [Hl|Hl];
    rewrite elem_of_loaded_keys, Hx0 in Hl;
    (apply refines_bind; [|intros y]); [apply persist_all_silent| |apply silent_create|];
    clear Hs0 Hx0.
  - intros s [Ha Hc] <-. destruct (register_refines (mkAccount t i) s Ha) as (s' & -> & Ha' & Hv).
    split; [done|]. cbn [fst snd is_ok spec]. rewrite Hv. unfold with_loaded.
    assert ({[mkAccount t i]} ∪ loaded (view s) = loaded (view s)) as Hu.
    { by apply subseteq_union_1_L, singleton_subseteq_l. }
    rewrite Hu. by rewrite (decide_True (P := loaded (view s) = loaded (view s))).
  - destruct y as [w p]. intros s Hs <-. unfold mbind, cmd_bind.
    pose proof (add_and_persist_cases (mkAccount t i) w p s Hs) as Hadd.
    destruct (add_and_persist _ w p s) as [s1 [[]|e|]]; [|exact Hadd|done].
    destruct Hadd as (Hn & Hk & Hr & Hg). cbn [bump_generation modify].
    set (s2 := set_generation _ s1).
    destruct (view_of ({[mkAccount t i]} ∪ loaded (view s)) s2) as [Ha2 Hv2]; [simpl; by rewrite Hr|].
    destruct (register_refines (mkAccount t i) s2 Ha2) as (s3 & -> & Ha3 & Hv3).
    split; [done|]. cbn [fst snd is_ok spec]. rewrite Hv3, Hv2. unfold with_loaded.
    rewrite (decide_False (P := {[mkAccount t i]} ∪ loaded (view s) = loaded (view s)))
      by (intros Heq; apply Hn; rewrite <- Heq; set_solver).
    simpl. by rewrite Hr, Hg.
Qed.

(** Replacing the wallet and the persister of a loaded account. *)
Lemma replace_keeps a (w : W) (p : P) s :
  inv s → a ∈ loaded (view s) →
  let s' := set_inner (AggregateWallet.set_persister a p (AggregateWallet.set_wallet a w (inner s))) s in
  inv s' ∧ view s' = view s.
Proof.
  intros [Ha Hc] Hl s'. apply (keys_are_insert _ _ _ a w p) in Ha.
  rewrite (subseteq_union_1_L {[a]}) in Ha by (by apply singleton_subseteq_l).
  destruct (view_of (loaded (view s)) s' Ha) as [Ha' Hv].
  assert (view s' = view s) as Hv' by (by rewrite Hv). split; [|done]. split; [done|]. by rewrite Hv'.
Qed.

Lemma share_store_keeps a (d : D) s :
  inv s → let s' := set_inner (share_store a d (inner s)) s in inv s' ∧ view s' = view s.
Proof.
  intros [Ha Hc] s'. unfold share_store in s'.
  destruct (AggregateWallet.persisters (inner s) !! a) as [p|] eqn:Hp; [|by destruct s].
  destruct Ha as (Hw & Hq & Hpr).
  destruct (view_of (loaded (view s)) s') as [Ha' Hv].
  { split_and!; [done| |done].
    change (dom (<[a := set_persister_store d p]> (AggregateWallet.persisters (inner s)))
      = loaded (view s)).
    rewrite dom_insert_L, Hq. apply subseteq_union_1_L, singleton_subseteq_l.
    rewrite <- Hq. by apply elem_of_dom. }
  assert (view s' = view s) as Hv' by (by rewrite Hv). split; [|done]. split; [done|]. by rewrite Hv'.
Qed.

Lemma rewind_silent a cp : silent (rewind_wallet_account a cp).
Proof.
  intros s Hs. unfold rewind_wallet_account, with_state, mbind, cmd_bind, lift.
  destruct (new_master _ _) as [xprv|]; [|done]. cbn [ok_or].
  destruct (decide (AggregateWallet.wallets (inner s) !! a = None)) as [|Hl]; [done|].
  destruct (persist_all_silent (λ _, PersistenceFailed) s Hs) as [Hs1 Hv1].
  destruct (on_inner _ _ s) as [s1 [[]|e|]]; [|done..]. cbn [fst] in *. rewrite <- Hv1.
  assert (a ∈ loaded (view s1)) as Hl1.
  { rewrite Hv1. apply elem_of_dom. by apply not_eq_None_Some. }
  destruct (reload_at xprv a _ _ s1) as [p [w|e|]]; cbn.
  - destruct (replace_keeps a w p s1 Hs1 Hl1) as [? ?]. done.
  - by apply share_store_keeps.
  - done.
Qed.

Lemma exec_refines c x : refines x (spec c x) (exec c).
Proof.
  destruct c as [t seed|t|t seed|t i xpub|t i|a cp|c];
    [apply add_monitored_refines|apply remove_monitored_refines|apply set_primary_refines
    |apply add_account_refines|apply remove_account_refines|apply silent_refines, rewind_silent|].
  apply silent_refines. unfold exec. destruct (changes_membership c) eqn:Hc; [apply silent_lift|].
  apply silent_on_inner. intros K p Hp. by apply stable_exec_matched.
Qed.

(** Account indices are [u32]. *)
Definition typed (c : op agg_op) : Prop :=
  match c with AddAccount _ i _ | RemoveAccount _ i => is_u32 i | _ => True end.

(** A call succeeds only on what it admits. *)
Lemma exec_admissible c s : typed c → is_ok (exec c s).2 = true → admissible c (view s).
Proof.
  destruct c as [t seed|t|t seed|t i xpub|t i|a cp|c]; simpl; try done; intros Hi.
  - unfold add_monitored_address_type, with_state. case_decide; [done|]. naive_solver.
  - unfold remove_monitored_address_type, with_state. case_decide; [done|]. naive_solver.
  - unfold add_onchain_wallet_account, with_state.
    destruct (Z.eqb_spec i 0); [done|]. destruct (Z.ltb_spec MAX_ONCHAIN_WALLET_ACCOUNT_INDEX i); [done|].
    intros _. unfold is_u32 in Hi. lia.
  - unfold remove_onchain_wallet_account, with_state.
    destruct (Z.eqb_spec i 0); [done|]. destruct (Z.ltb_spec MAX_ONCHAIN_WALLET_ACCOUNT_INDEX i); [done|].
    intros _. unfold is_u32 in Hi. lia.
Qed.

Lemma exec_inv c s :
  typed c → inv s →
  inv (exec c s).1 ∧ view (exec c s).1 = if is_ok (exec c s).2 then spec c (view s) else view s.
Proof.
  intros Ht Hs. destruct (exec_refines c (view s) s Hs eq_refl) as [Ha Hv].
  pose proof (exec_admissible c s Ht) as Hadm. destruct Hs as [_ Hc].
  split; [|done]. split; [done|]. rewrite Hv. destruct (is_ok _); [|done].
  by apply spec_consistent, Hc; auto.
Qed.

(** Successive calls, with the accounts seen after each and whether it succeeded. *)
Fixpoint trace (cs : list (op agg_op)) s : wallet_state * list (bool * accounts) :=
  match cs with
  | [] => (s, [])
  | c :: cs =>
      let '(s', r) := exec c s in
      let '(s'', l) := trace cs s' in
      (s'', (is_ok r, view s') :: l)
  end.

(** The same calls on the specification, with the outcomes observed. *)
Fixpoint spec_trace (cs : list (op agg_op)) (oks : list bool) (x : accounts) : list accounts :=
  match cs, oks with
  | c :: cs, ok :: oks =>
      let x' := if (ok : bool) then spec c x else x in x' :: spec_trace cs oks x'
  | _, _ => []
  end.

(** C3. Whatever sequence of calls a wallet gets, and whichever of them fail, its
    loaded accounts, run-time configuration and account generation are what the
    specification says: a successful call does exactly its one change, a failed one
    changes none of them, also when it fails after creating a wallet, adding it to the
    aggregate or persisting.  At every point the aggregate has the configured primary
    wallet with a persister for each wallet, and every loaded account is the primary, a
    monitored type, or a registered derived account with a valid index. *)
Theorem accounts_refine cs s :
  Forall typed cs → inv s →
  let '(s', l) := trace cs s in
  inv s' ∧ l.*2 = spec_trace cs l.*1 (view s) ∧ Forall consistent l.*2.
Proof.
  intros Ht. revert s. induction Ht as [|c cs Hc Ht IH]; intros s Hs; simpl; [by split_and!|].
  destruct (exec_inv c s Hc Hs) as [Hs' Hv]. destruct (exec c s) as [s' r]. simpl in Hs', Hv.
  specialize (IH s' Hs'). destruct (trace cs s') as [s'' l]. destruct IH as (Hs'' & Hl & Hf).
  csimpl. rewrite <- Hv. split_and!; [done|by rewrite Hl|constructor; [apply Hs'|done]].
Qed.

(** How often the set of loaded accounts changed along a trace. *)
Fixpoint membership_changes (x : accounts) (l : list accounts) : Z :=
  match l with
  | [] => 0
  | y :: l => (if decide (loaded y = loaded x) then 0 else 1) + membership_changes y l
  end.

Lemma spec_gen c x : gen (spec (Agg := agg_op) c x)
  = if decide (loaded (spec c x) = loaded x) then gen x else wrap64 (gen x + 1).
Proof.
  destruct c; simpl; try done; try (by rewrite decide_True).
  destruct (decide (t = prim x)); [by rewrite decide_True|done].
Qed.
Lemma trace_changes cs s :
  Forall typed cs → inv s → is_u64 (gen (view s)) →
  let '(s', l) := trace cs s in
  gen (view s') = wrap64 (gen (view s) + membership_changes (view s) l.*2) ∧
  0 ≤ membership_changes (view s) l.*2 ≤ Z.of_nat (length cs) ∧
  (membership_changes (view s) l.*2 = 0 → Forall (λ y, loaded y = loaded (view s)) l.*2).
Proof.
  intros Ht. revert s. induction Ht as [|c cs Hc Ht IH]; intros s Hs Hg.
  { simpl. split_and!; [|done|done|constructor]. by rewrite Z.add_0_r, wrap64_small. }
  cbn [trace length]. destruct (exec_inv c s Hc Hs) as [Hs' Hv].
  destruct (exec c s) as [s1 r]. cbn [fst snd] in Hs', Hv.
  assert (gen (view s1) = if decide (loaded (view s1) = loaded (view s)) then gen (view s)
            else wrap64 (gen (view s) + 1)) as Hg1.
  { rewrite Hv. destruct (is_ok r); [apply spec_gen|by rewrite decide_True]. }
  specialize (IH s1 Hs'). rewrite Hg1 in IH. destruct (trace cs s1) as [s2 l].
  rewrite fmap_cons. cbn [membership_changes snd]. case_decide as Heq.
  - destruct (IH Hg) as (H1 & H2 & H3). split_and!; [by rewrite H1|lia|lia|].
    intros Hz. constructor; [done|]. rewrite <- Heq. apply H3. lia.
  - destruct (IH (wrap64_range _)) as (H1 & H2 & H3). split_and!; [|lia|lia|lia].
    rewrite H1. unfold wrap64. rewrite Zplus_mod_idemp_l. f_equal. lia.
Qed.

Lemma trace_last cs s :
  let '(s', l) := trace cs s in view s' = default (view s) (last l.*2).
Proof.
  revert s. induction cs as [|c cs IH]; intros s; simpl; [done|].
  destruct (exec c s) as [s1 r]. specialize (IH s1). destruct (trace cs s1) as [s2 l].
  rewrite fmap_cons, last_cons. rewrite IH. by destruct (last l.*2).
Qed.

Lemma elem_of_tips a s :
  a ∈ ((λ '(a, hash, height), (a, mkBestBlock hash height))
         <$> AggregateWallet.chain_tips_by_key (inner s)).*1 ↔ a ∈ loaded (view s).
Proof.
  rewrite <- elem_of_loaded_keys. unfold AggregateWallet.chain_tips_by_key,
    AggregateWallet.loaded_keys, keys. rewrite <- !list_fmap_compose.
  rewrite !list_elem_of_fmap. split; intros ([b w] & -> & Hin); by exists (b, w).
Qed.

(** The account generation tells whether a synchronisation snapshot still
    describes the wallet: if it is the same after any number of calls below 2^64 as when
    the snapshot was taken, no call in between added or removed an account, so the
    accounts listed in the snapshot are still exactly the loaded ones. *)
Theorem snapshot_current cs s :
  Forall typed cs → inv s → is_u64 (account_generation s) → Z.of_nat (length cs) < 2 ^ 64 →
  let '(s', l) := trace cs s in
  let '(generation, tips) := account_sync_snapshot s in
  account_generation s' = generation →
  (∀ a, a ∈ tips.*1 ↔ a ∈ get_loaded_onchain_wallet_accounts s') ∧
  Forall (λ y, loaded y = loaded (view s)) l.*2.
Proof.
  intros Ht Hs Hg Hlen. pose proof (trace_changes cs s Ht Hs Hg) as Htr.
  pose proof (trace_last cs s) as Hlast. destruct (trace cs s) as [s' l].
  destruct Htr as (Hgen & Hb & Hz). unfold account_sync_snapshot. intros Heq.
  change (gen (view s') = gen (view s)) in Heq. change (is_u64 (gen (view s))) in Hg.
  assert (membership_changes (view s) l.*2 = 0) as Hmc.
  { rewrite Heq in Hgen. unfold wrap64, is_u64, u64_max in *.
    destruct (decide (gen (view s) + membership_changes (view s) l.*2 < 2 ^ 64)).
    - rewrite Z.mod_small in Hgen; lia.
    - rewrite <- (Z_mod_plus_full _ (-1)), Z.mod_small in Hgen; lia. }
  split; [|by apply Hz]. intros a. unfold get_loaded_onchain_wallet_accounts.
  rewrite elem_of_loaded_keys, elem_of_tips, Hlast. clear Hlast.
  destruct (last l.*2) as [y|] eqn:Hy; [|done]. simpl default.
  specialize (Hz Hmc). rewrite Forall_forall in Hz. rewrite (Hz y); [done|].
  by apply last_Some_elem_of.
Qed.

(** ** Removing an account keeps its data *)

Lemma unload_stores a s s' r :
  unload a s = (s', r) →
  (∀ b, store_of b s' = store_of b s) ∧ payment_store s' = payment_store s ∧
  (r = Ok (Ok tt) → AggregateWallet.wallets (inner s') !! a = None ∧
     AggregateWallet.persisters (inner s') !! a = None) ∧
  (r = Ok (Err aggregate.WalletNotFound) → s' = s ∧ AggregateWallet.wallets (inner s) !! a = None).
Proof.
  unfold unload, AggregateWallet.remove_wallet.
  case_decide as Hp. { intros [= <- <-]. by destruct s. }
  case_decide as Hw. { intros [= <- <-]. by destruct s. }
  case_decide as Hq. { intros [= <- <-]. by destruct s. }
  apply not_eq_None_Some in Hq as [q Hq]. rewrite Hq. simpl. intros [= <- <-].
  split_and!; [|done|intros _; simpl; by rewrite !lookup_delete_eq|done].
  intros b. unfold store_of. simpl. destruct (decide (b = a)) as [->|Hne].
  - rewrite lookup_delete_eq, Hq. apply fn_lookup_insert.
  - rewrite lookup_delete_ne by done. destruct (AggregateWallet.persisters (inner s) !! b); [done|].
    by apply fn_lookup_insert_ne.
Qed.

(** The account a call removes. *)
Definition removes (c : op agg_op) : option OnchainWalletAccount :=
  match c with
  | RemoveMonitored t => Some (account_zero t)
  | RemoveAccount t i => Some (mkAccount t i)
  | _ => None
  end.

Definition data_kept a s s' : Prop :=
  (∀ b, store_of b s' = store_of b s) ∧ payment_store s' = payment_store s ∧
  a ∉ loaded (view s') ∧ account_stores s' a = store_of a s.

(** After the account is unloaded, or was not loaded, only other fields change. *)
Lemma unloaded_data_kept a s s1 s' r :
  agg_ok s → unload a s = (s1, Ok r) → r = Ok tt ∨ r = Err aggregate.WalletNotFound →
  inner s' = inner s1 → account_stores s' = account_stores s1 → payment_store s' = payment_store s1 →
  data_kept a s s'.
Proof.
  intros (Hw & Hq & _) (Hst & Hps & Hok & Hnf)%unload_stores Hr Hi Hs Hp.
  assert (∀ b, store_of b s' = store_of b s) as Hst'.
  { intros b. rewrite <- Hst. unfold store_of. by rewrite Hi, Hs. }
  assert (AggregateWallet.wallets (inner s') !! a = None ∧
    AggregateWallet.persisters (inner s') !! a = None) as [Hwn Hqn].
  { rewrite Hi. destruct Hr as [->| ->]; [by apply Hok|]. destruct (Hnf eq_refl) as [-> Hn].
    split; [done|]. apply not_elem_of_dom. rewrite Hq. by apply not_elem_of_dom. }
  split_and!; [done|congruence|by apply not_elem_of_dom|].
  rewrite <- Hst'. unfold store_of. by rewrite Hqn.
Qed.

(** Removing a monitored type or a derived account only unloads its wallet: the
    stored data of every account is what it was, also when the call fails, and so is the
    payment store; after a successful call the account is not loaded, and adding it
    again opens its wallet on exactly the data its persister had written. *)
Theorem removal_retains_data c a s :
  removes c = Some a → inv s →
  let '(s', r) := exec c s in
  if is_ok r then data_kept a s s'
  else (∀ b, store_of b s' = store_of b s) ∧ payment_store s' = payment_store s.
Proof.
  intros Ha [Hs _]. destruct c as [| t | | |t i| |]; simplify_eq/=.
  - unfold remove_monitored_address_type, with_state. cbv beta zeta.
    do 2 (case_decide; [done|]). unfold mbind, cmd_bind.
    destruct (unload _ s) as [s1 r1] eqn:Hu. pose proof Hu as (Hs1 & Hps & _)%unload_stores.
    destruct r1 as [[[]|[]|]|e|]; try done; simpl; eapply (unloaded_data_kept _ s s1); eauto.
  - unfold remove_onchain_wallet_account, with_state. cbv beta zeta.
    destruct (_ || _); [done|]. case_decide; [done|]. unfold mbind, cmd_bind.
    destruct (unload _ s) as [s1 r1] eqn:Hu. pose proof Hu as (Hs1 & Hps & _)%unload_stores.
    destruct r1 as [[[]|[]|]|e|]; try done; simpl; eapply (unloaded_data_kept _ s s1); eauto.
Qed.

(** ** The wallet of a node that was just built *)

Lemma new_keys (w : W) (q : P) (p : OnchainWalletAccount) others :
  keys_are ({[p]} ∪ list_to_set others.*1.*1) p (AggregateWallet.new w q p others).
Proof.
  unfold AggregateWallet.new.
  assert (∀ (ws : gmap OnchainWalletAccount W) (ps : gmap OnchainWalletAccount P) K,
    dom ws = K → dom ps = K →
    let '(ws', ps') := foldl (λ '(ws, ps) '(key, wallet, persister),
      (<[key := wallet]> ws, <[key := persister]> ps)) (ws, ps) others in
    dom ws' = K ∪ list_to_set others.*1.*1 ∧ dom ps' = K ∪ list_to_set others.*1.*1) as Hf.
  { induction others as [|[[k w'] q'] others IH]; intros ws ps K Hw Hp; [split; set_solver|].
    csimpl. specialize (IH (<[k := w']> ws) (<[k := q']> ps) ({[k]} ∪ K)).
    rewrite !dom_insert_L in IH. rewrite Hw, Hp in IH. specialize (IH eq_refl eq_refl).
    destruct (foldl _ _ others) as [ws' ps']. destruct IH as [-> ->]. split; set_solver. }
  specialize (Hf {[p := w]} {[p := q]} {[p]}). rewrite !dom_singleton_L in Hf.
  specialize (Hf eq_refl eq_refl). destruct (foldl _ _ others) as [ws' ps'].
  destruct Hf as [H1 H2]. split_and!; [exact H1|exact H2|done].
Qed.

Lemma build_wallet_key net a xprv tip la (stores stores' : OnchainWalletAccount → D) k w q :
  build_wallet_for_account (W := W) (P := P) net a xprv tip la stores = (stores', Ok (k, w, q)) → k = a.
Proof.
  unfold build_wallet_for_account. destruct (get_or_create_wallet_for_account _ _ _ _ _) as [p r].
  intros Hr. injection Hr as _ Hr. inv_outcome. destruct x as [w1 l]. by inv_outcome.
Qed.

Lemma build_monitored_keys net xprv tip types (stores stores' : OnchainWalletAccount → D) ws :
  build_monitored_wallets (W := W) (P := P) net xprv tip types stores = (stores', Ok ws) →
  ∀ k, k ∈ ws.*1.*1 → k ∈ account_zero <$> types.
Proof.
  revert stores stores' ws. induction types as [|t types IH]; intros stores stores' ws; simpl.
  { intros [= <- <-]. done. }
  destruct (build_wallet_for_account _ _ _ _ _ stores) as [s1 r] eqn:Hb.
  destruct (build_monitored_wallets _ _ _ types s1) as [s2 rest] eqn:Hm.
  intros [= <- Hr]. destruct r as [[[k' w] q]|e|]; [|subst rest; set_solver|done].
  inv_outcome. apply build_wallet_key in Hb as ->. set_solver.
Qed.

Lemma build_configured_keys net xprv tip la accs (stores stores' : OnchainWalletAccount → D) ws :
  build_configured_wallets (W := W) (P := P) net xprv tip la accs stores = (stores', Ok ws) →
  ws.*1.*1 = accs.
Proof.
  revert stores stores' ws. induction accs as [|a accs IH]; intros stores stores' ws; simpl.
  { intros [= <- <-]. done. }
  intros (s1 & [[k w] q] & ->%build_wallet_key & Hr)%cmd_bind_Ok.
  apply cmd_bind_Ok in Hr as (s2 & rest & Hrest%IH & Hr). injection Hr as _ <-. csimpl. by rewrite Hrest.
Qed.

Lemma validated_accounts net (xprv : Xpriv) configured derived :
  Forall (λ ac, 0 ≤ configured_index ac) configured →
  validate_configured_onchain_wallet_accounts net xprv configured = Ok derived →
  NoDup derived ∧ Forall (λ a, 1 ≤ account_index a ≤ MAX_ONCHAIN_WALLET_ACCOUNT_INDEX) derived.
Proof.
  intros Hidx (Hok & Hnd & Hin)%validate_accounts_from; [|done|constructor].
  split; [done|]. apply Forall_forall. intros a [Ha|Ha]%Hin; [by apply elem_of_nil in Ha|].
  apply list_elem_of_fmap in Ha as (ac & -> & Hac). rewrite Forall_forall in Hok.
  apply (Hok ac Hac).
Qed.

(** A node built from a configuration starts consistent: when the configured
    derived accounts pass the check and the additional wallets are built, the wallet
    made from them has the configured primary, loads nothing that is not configured,
    loads every configured derived account (a monitored type whose wallet cannot be built
    is left out), and its account generation starts at 0. *)
Theorem built_consistent {A : Type} (c : Config A) (net : Network) (xprv : Xpriv)
    (configured : list OnchainWalletAccountConfig) (derived : list OnchainWalletAccount)
    (tip : option BestBlock) (la : Z)
    (stores stores' : OnchainWalletAccount → D) (ws : list (OnchainWalletAccount * W * P))
    (w : W) (q : P) (seed : list u8)
    (b : TransactionBroadcaster)
    (fe : OnchainFeeEstimator.OnchainFeeEstimator)
    (ps : DataStore.DataStore PaymentDetails PaymentId S) (untrusted : bool) (m : NodeMetrics) :
  Forall (λ ac, is_u32 (configured_index ac)) configured →
  validate_configured_onchain_wallet_accounts net xprv configured = Ok derived →
  build_additional_wallets net (config_additional_address_types c) derived xprv tip la stores
    = (stores', Ok ws) →
  let s := Wallet.new w q ws seed b fe ps (primary_address_type c) net untrusted stores'
             (from_config c derived) m la in
  inv s ∧ account_generation s = 0 ∧
  (∀ a, a ∈ derived → a ∈ get_loaded_onchain_wallet_accounts s) ∧
  (∀ a, a ∈ get_loaded_onchain_wallet_accounts s →
     a = account_zero (primary_address_type c) ∨
     a ∈ additional_wallet_accounts (from_config c derived)).
Proof.
  intros Hidx Hval Hbuild s.
  destruct (validated_accounts net xprv configured derived) as [Hnd Hdv]; [|done|].
  { eapply Forall_impl; [exact Hidx|]. simpl. unfold is_u32. lia. }
  apply cmd_bind_Ok in Hbuild as (s1 & mws & Hm & Hbuild).
  apply cmd_bind_Ok in Hbuild as (s2 & dws & Hd%build_configured_keys & Hr). injection Hr as _ <-.
  pose proof (build_monitored_keys _ _ _ _ _ _ _ Hm) as Hmk.
  pose proof (new_keys w q (account_zero (primary_address_type c)) (mws ++ dws)) as Hk.
  rewrite !fmap_app, Hd in Hk. set (K := {[_]} ∪ _) in Hk.
  destruct (view_of K s Hk) as [Ha Hv].
  assert (∀ a, a ∈ K → a = account_zero (primary_address_type c) ∨ a ∈ derived ∨
    ∃ t, a = account_zero t ∧ t ∈ monitored (from_config c derived)) as HK.
  { intros a. unfold K. rewrite elem_of_union, elem_of_singleton, elem_of_list_to_set, elem_of_app.
    intros [->|[Hin|Hin]]; [by left| |by right; left]. right; right.
    apply Hmk, list_elem_of_fmap in Hin as (t & -> & Ht). exists t. split; [done|].
    apply dedup_spec in Ht. simpl. apply Ht. }
  split_and!; [split; [done|]|done|..].
  - rewrite Hv. split; simpl; [set_solver| |intros a Hin|done|done].
    + rewrite list_elem_of_filter. naive_solver.
    + destruct (HK a Hin) as [->|[?|(t & -> & Ht)]]; [left|by right|left]; simpl; auto.
  - intros a Hin. apply elem_of_loaded_keys. rewrite Hv. simpl. unfold K. set_solver.
  - intros a Hin%elem_of_loaded_keys. rewrite Hv in Hin. simpl in Hin.
    destruct (HK a Hin) as [->|Hin']; [by left|right]. unfold additional_wallet_accounts.
    apply push_missing_spec; [apply (NoDup_fmap_2 _), dedup_spec|].
    destruct Hin' as [?|(t & -> & Ht)]; [by right|left]. apply list_elem_of_fmap_2.
    unfold additional_address_types. apply dedup_spec. split; [done|set_solver].
Qed.
End refinement.
