(* ===== verification/WalletPayments.v ===== *)
(** * On-chain payment records ([update_payment_store] of [src/wallet/mod.rs])

    After every change of chain data the wallet goes over its transactions and enters
    each as a payment: with the confirmation all loaded wallets agree on, the amount the
    wallets together sent or received, and [Succeeded] once it is buried deep enough. *)

From S2P Require Import Prelude Errors KVStore DataStore Types PaymentStore Bdk AggTypes.
From S2P Require Import AggUtxo AggSigning AggRbf Aggregate AggBuild AggInvariant.
From S2P Require Import FeeEstimator Config WalletKeys Event NodeMetrics TxBroadcaster Wallet WalletAccounts.
Import Wallet.

(** [lightning::chain::channelmonitor::ANTI_REORG_DELAY] *)
Definition ANTI_REORG_DELAY : Z := 6.

(** The status of a transaction with the given confirmation. *)
Definition confirmation_states (cur_height : Z) (anchor : option ConfirmationBlockTime) :
    PaymentStatus * ConfirmationStatus :=
  match anchor with
  | Some anchor =>
      let confirmation_height := block_height (block_id anchor) in
      (if wrap32 (confirmation_height + ANTI_REORG_DELAY - 1) <=? cur_height
       then Succeeded else Pending,
       PaymentStore.Confirmed (block_hash (block_id anchor)) confirmation_height
         (confirmation_time anchor))
  | None => (Pending, PaymentStore.Unconfirmed)
  end.

(** Direction and amount, in millisatoshis. *)
Definition payment_flow (sent_sat received_sat fee_sat : Z) : PaymentDirection * Z :=
  if received_sat <? sent_sat then
    (Outbound, wrap64 (saturating_sub (saturating_sub sent_sat fee_sat) received_sat * 1000))
  else
    (Inbound, wrap64 (saturating_sub received_sat (saturating_sub sent_sat fee_sat) * 1000)).

(** [if !seen_txids.insert(txid) { continue; }] *)
Fixpoint distinct_txs (seen : gset Txid) (txs : list WalletTx) : list WalletTx :=
  match txs with
  | [] => []
  | wtx :: txs =>
      if decide (wtx_txid wtx ∈ seen) then distinct_txs seen txs
      else wtx :: distinct_txs ({[wtx_txid wtx]} ∪ seen) txs
  end.

Section payments.
Context {S : Type} {KV : KVStore S}.
Context (tlv_encode : PaymentTlv → bytes) (tlv_decode : bytes → option PaymentTlv).
Context {O : IterOrder OnchainWalletAccount} {OT : IterOrder Txid}.
Context {BTC : Bitcoin} {W P U Ev : Type} {BDK : Bdk W P U Ev} {CS : CoinSelection}.
Context {D : Type}.
Abbreviation Aggregate := (AggregateWallet.AggregateWallet OnchainWalletAccount W P).
Abbreviation wallet_state := (Wallet S W P D).
Abbreviation wcmd A := (cmd wallet_state Error A).
Implicit Types (s : wallet_state) (a : Aggregate).
#[local] Instance payments_storable :
  StorableObject PaymentDetails PaymentId PaymentDetailsUpdate := payment_storable tlv_encode tlv_decode.

(** The record of one transaction; [now] is the time it is made. *)
Definition onchain_payment (now : Z) a (cur_height : Z)
    (confirmations : gmap Txid ConfirmationBlockTime) (wtx : WalletTx) :
    outcome Error PaymentDetails :=
  let t := wtx_txid wtx in
  let '(payment_status, confirmation_status) :=
    confirmation_states cur_height (confirmations !! t) in
  fee_sat ← match AggregateWallet.calculate_tx_fee a (wtx_tx wtx) with
            | Ok fee => Ok fee | Err _ => Ok 0 | Panic => Panic
            end;
  let '(sent_sat, received_sat) := default (0, 0) (AggregateWallet.sent_and_received a t) in
  let '(dir, amount) := payment_flow sent_sat received_sat fee_sat in
  Ok (new_payment now t (Onchain t confirmation_status) (Some amount)
        (Some (wrap64 (fee_sat * 1000))) dir payment_status).

Definition on_payments {A} (m : cmd (DataStore.DataStore PaymentDetails PaymentId S) Error A) : wcmd A :=
  λ s, let '(ps, r) := m (payment_store s) in (set_payment_store ps s, r).

(** The body of the loop; [clock] is the time at which each record is made. *)
Definition record_tx (clock : Txid → Z) a (cur_height : Z)
    (confirmations : gmap Txid ConfirmationBlockTime) (wtx : WalletTx) : wcmd unit :=
  let now := clock (wtx_txid wtx) in
  payment ← lift (onchain_payment now a cur_height confirmations wtx);
  _ ← on_payments (DataStore.insert_or_update now payment);
  mret tt.

Definition update_payment_store_inner (clock : Txid → Z) : wcmd unit :=
  with_state (λ s,
    let a := inner s in
    '(_, cur_height) ← lift (map_err (λ _, WalletOperationFailed)
                              (AggregateWallet.current_best_block a));
    let confirmations := AggregateWallet.transaction_confirmations a in
    for_each (record_tx clock a cur_height confirmations)
      (distinct_txs ∅ (flat_map transactions (values (AggregateWallet.wallets a))))).

Definition update_payment_store (clock : Txid → Z) : wcmd unit := λ s,
  let '(s, r) := update_payment_store_inner clock (set_pending true s) in
  (if is_ok r then set_pending false s else s, r).

(** ** The callers *)

Definition update_payment_store_for_all_transactions (clock : Txid → Z) : wcmd unit :=
  update_payment_store clock.

Definition finish_pending_sync (clock : Txid → Z) (refresh_payment_store : bool) : wcmd unit :=
  _ ← on_inner (λ _, PersistenceFailed) AggregateWallet.persist_all;
  with_state (λ s,
    if refresh_payment_store || payment_store_update_pending s then update_payment_store clock
    else mret tt).

Definition apply_mempool_txs (clock : Txid → Z) (unconfirmed_txs : list (Transaction * Z))
    (evicted_txids : list (Txid * Z)) : wcmd unit :=
  _ ← modify (set_pending true);
  _ ← on_inner (λ _, PersistenceFailed)
        (AggregateWallet.apply_mempool_txs unconfirmed_txs evicted_txids);
  update_payment_store clock.

(** [if let Err(e) = .. { log_error!(..); return; }] *)
Definition logged {A} (m : wcmd A) : wcmd unit := λ s,
  match m s with
  | (s, Panic) => (s, Panic)
  | (s, _) => (s, Ok tt)
  end.

(** [Listen::block_connected] *)
Definition block_connected (clock : Txid → Z) (block : Block) (height : Z) : wcmd unit :=
  logged (_ ← on_inner (λ _, WalletOperationFailed) (AggregateWallet.apply_block block height);
          update_payment_store clock).

(** ** What the records say *)

(** The transactions of the loaded wallets. *)
Definition known_txs a : list WalletTx :=
  flat_map transactions (values (AggregateWallet.wallets a)).

Definition entry s (t : Txid) : option PaymentDetails :=
  DataStore.objects (payment_store s) !! t.

(** [p] is the record of [q]'s transaction after [q] was entered over [old]: what the
    chain says is [q]'s, and an older record keeps its kind, and its direction unless
    the transaction is outgoing. *)
Definition entered (old : option PaymentDetails) (q p : PaymentDetails) : Prop :=
  id p = id q ∧ status p = status q ∧ amount_msat p = amount_msat q ∧
  fee_paid_msat p = fee_paid_msat q ∧
  match old with
  | None => p = q
  | Some o =>
      kind p = merge_kind (payment_to_update q) (kind o) ∧
      direction p = merge_direction (Some (direction q)) (direction o)
  end.

Section laws.
Context {KSPEC : KVStoreSpec S}.
Hypothesis tlv_decode_encode : ∀ t, tlv_decode (tlv_encode t) = Some t.
#[local] Instance payments_storable_spec :
  StorableObjectSpec PaymentDetails PaymentId PaymentDetailsUpdate :=
  payment_storable_spec tlv_encode tlv_decode tlv_decode_encode.

Lemma distinct_txs_spec (seen : gset Txid) (txs : list WalletTx) :
  NoDup (wtx_txid <$> distinct_txs seen txs) ∧
  (∀ wtx, wtx ∈ distinct_txs seen txs → wtx ∈ txs ∧ wtx_txid wtx ∉ seen) ∧
  ∀ wtx, wtx ∈ txs → wtx_txid wtx ∉ seen →
    wtx_txid wtx ∈ wtx_txid <$> distinct_txs seen txs.
Proof.
  revert seen; induction txs as [|x txs IH]; intros seen; simpl.
  { split_and!; [constructor|set_solver..]. }
  destruct (decide (wtx_txid x ∈ seen)) as [Hin|Hin].
  - destruct (IH seen) as (? & ? & ?). split_and!; [done|set_solver|].
    intros wtx [->|?]%elem_of_cons; [done|eauto].
  - destruct (IH ({[wtx_txid x]} ∪ seen)) as (Hnd & Hsub & Hall). rewrite fmap_cons.
    split_and!.
    + constructor; [|done]. intros (y & Hy & Hd)%list_elem_of_fmap.
      apply Hsub in Hd as [_ Hn]. apply Hn. rewrite Hy. set_solver.
    + intros wtx [->|Hd]%elem_of_cons; [split; [left|done]|].
      apply Hsub in Hd as [? Hn]. split; [by right|]. set_solver.
    + intros wtx Hw Hn. destruct (decide (wtx_txid wtx = wtx_txid x)) as [->|Hne]; [left|].
      right. apply Hall; [|set_solver].
      apply elem_of_cons in Hw as [->|?]; [done|done].
Qed.

Lemma onchain_payment_Ok now a h confirmations wtx q :
  onchain_payment now a h confirmations wtx = Ok q →
  id q = wtx_txid wtx ∧
  status q = (confirmation_states h (confirmations !! wtx_txid wtx)).1 ∧
  kind q = Onchain (wtx_txid wtx) (confirmation_states h (confirmations !! wtx_txid wtx)).2.
Proof.
  unfold onchain_payment. destruct (confirmation_states _ _) as [st cs].
  intros Hq. inv_outcome. destruct (default _ _) as [sent received].
  destruct (payment_flow _ _ _) as [dir amount]. by simplify_eq/=.
Qed.

Lemma entered_update now o q b p :
  id o = id q → payment_update now o (payment_to_update q) = (p, b) →
  entered (Some o) q p.
Proof.
  intros Hid Hu. unfold entered.
  assert (p = merge (payment_to_update q) o ∨
          p = touch now (merge (payment_to_update q) o)) as Hp.
  { apply payment_update_eq in Hu as [(_ & -> & He)|(_ & -> & _)]; auto. }
  destruct Hp as [-> | ->]; simpl; unfold payment_to_update;
    destruct (kind q); simpl; split_and!; auto.
Qed.

Lemma spec_entry (now : Z) (q : PaymentDetails) (ds : DataStore.DataStore PaymentDetails PaymentId S)
    (m : gmap PaymentId PaymentDetails) (b : bool) :
  DataStore.valid ds →
  DataStore.spec now (DataStore.OpInsertOrUpdate q) (DataStore.objects ds)
    = (m, DataStore.RBool b) →
  (∀ t, t ≠ id q → m !! t = DataStore.objects ds !! t) ∧
  ∃ p, m !! id q = Some p ∧ entered (DataStore.objects ds !! id q) q p.
Proof.
  intros Hv. cbn. destruct (DataStore.objects ds !! id q) as [o|] eqn:Ho.
  - destruct (payment_update now o (payment_to_update q)) as [p ub] eqn:Hu.
    pose proof (DataStore.valid_id _ Hv _ _ Ho) as Hid. cbn in Hid.
    pose proof (entered_update _ _ _ _ _ Hid Hu) as He.
    destruct ub; intros; simplify_eq/=.
    + split; [intros; by rewrite lookup_insert_ne|]. exists p. by rewrite lookup_insert_eq.
    + split; [done|]. exists p. split; [|done]. rewrite Ho.
      apply payment_update_eq in Hu as [(_ & -> & _)|(? & _)]; done.
  - intros; simplify_eq/=. split; [intros; by rewrite lookup_insert_ne|].
    exists q. by rewrite lookup_insert_eq.
Qed.

(** One round of the loop enters one record, or fails and changes none. *)
Lemma record_tx_spec clock a h confirmations wtx s s' r :
  DataStore.valid (payment_store s) →
  record_tx clock a h confirmations wtx s = (s', r) →
  DataStore.valid (payment_store s') ∧ s' = set_payment_store (payment_store s') s ∧
  (∀ t, t ≠ wtx_txid wtx → entry s' t = entry s t) ∧
  if is_ok r then
    ∃ q p, onchain_payment (clock (wtx_txid wtx)) a h confirmations wtx = Ok q ∧
      entry s' (wtx_txid wtx) = Some p ∧ entered (entry s (wtx_txid wtx)) q p
  else entry s' (wtx_txid wtx) = entry s (wtx_txid wtx).
Proof.
  intros Hv. unfold record_tx, mbind, cmd_bind, lift.
  destruct (onchain_payment _ a h confirmations wtx) as [q|e|] eqn:Hq;
    [|intros; simplify_eq/=; by destruct s'..].
  destruct (onchain_payment_Ok _ _ _ _ _ _ Hq) as (Hid & _ & _).
  unfold on_payments.
  pose proof (DataStore.insert_or_update_cases (clock (wtx_txid wtx)) q _ Hv) as Hc.
  destruct_pair Hc ps ro.
  destruct Hc as [(b & -> & Hv' & Hs)|(-> & Hv' & Ho)]; intros; simplify_eq/=.
  - destruct (spec_entry _ _ _ _ _ Hv Hs) as [Hne (p & Hp & He)]. rewrite Hid in *.
    injection H as <- <-. split_and!; [done|reflexivity|exact Hne|]. by exists q, p.
  - unfold entry; cbn. rewrite Ho. done.
Qed.

Lemma record_txs_spec clock a h confirmations (txs : list WalletTx) s s' r :
  NoDup (wtx_txid <$> txs) → DataStore.valid (payment_store s) →
  for_each (record_tx clock a h confirmations) txs s = (s', r) →
  DataStore.valid (payment_store s') ∧ s' = set_payment_store (payment_store s') s ∧
  (∀ t, t ∉ wtx_txid <$> txs → entry s' t = entry s t) ∧
  ∀ wtx, wtx ∈ txs →
    (is_ok r = false ∧ entry s' (wtx_txid wtx) = entry s (wtx_txid wtx)) ∨
    ∃ q p, onchain_payment (clock (wtx_txid wtx)) a h confirmations wtx = Ok q ∧
      entry s' (wtx_txid wtx) = Some p ∧ entered (entry s (wtx_txid wtx)) q p.
Proof.
  revert s; induction txs as [|x txs IH]; intros s Hnd Hv.
  { cbn. intros [= <- <-]. split_and!; [done|by destruct s|done|set_solver]. }
  rewrite fmap_cons in Hnd. apply NoDup_cons in Hnd as [Hx Hnd]. cbn [for_each].
  destruct (record_tx clock a h confirmations x s) as [s1 r1] eqn:H1.
  destruct (record_tx_spec _ _ _ _ _ _ _ _ Hv H1) as (Hv1 & Hs1 & Hne1 & Hx1).
  unfold mbind, cmd_bind. rewrite H1.
  destruct r1 as [[]|e|]; cbn [is_ok] in Hx1;
    [|intros [= <- <-]; split_and!; [done|done|set_solver|];
      intros wtx Hw; left; split; [done|];
      apply elem_of_cons in Hw as [->|Hw]; [done|]; apply Hne1;
      intros He; apply Hx; rewrite <- He; by apply list_elem_of_fmap_2..].
  intros Hl. destruct (IH s1 Hnd Hv1 Hl) as (Hv' & Hs' & Hne & Hall).
  split_and!; [done| | |].
  - rewrite Hs' at 1. rewrite Hs1 at 1. reflexivity.
  - intros t Ht. rewrite Hne, Hne1; set_solver.
  - intros wtx [->|Hw]%elem_of_cons.
    + right. by rewrite (Hne _ Hx).
    + assert (wtx_txid wtx ≠ wtx_txid x) as Hd.
      { intros He. apply Hx. rewrite <- He. by apply list_elem_of_fmap_2. }
      rewrite <- (Hne1 _ Hd). auto.
Qed.

Lemma update_inner_spec clock s s' r :
  DataStore.valid (payment_store s) →
  update_payment_store_inner clock s = (s', r) →
  DataStore.valid (payment_store s') ∧ inner s' = inner s ∧
  payment_store_update_pending s' = payment_store_update_pending s ∧
  (∀ t, t ∉ wtx_txid <$> known_txs (inner s) → entry s' t = entry s t) ∧
  (is_ok r = true → ∃ hash h, AggregateWallet.current_best_block (inner s) = Ok (hash, h) ∧
   ∀ t, t ∈ wtx_txid <$> known_txs (inner s) →
     ∃ wtx q p, wtx ∈ known_txs (inner s) ∧ wtx_txid wtx = t ∧
       onchain_payment (clock t) (inner s) h
         (AggregateWallet.transaction_confirmations (inner s)) wtx = Ok q ∧
       entry s' t = Some p ∧ entered (entry s t) q p).
Proof.
  intros Hv. unfold update_payment_store_inner, with_state, lift, mbind, cmd_bind.
  destruct (AggregateWallet.current_best_block (inner s)) as [[hash h]|e|] eqn:Hb; cbn [map_err];
    [|intros [= <- <-]; by split_and!..].
  fold (known_txs (inner s)).
  destruct (distinct_txs_spec ∅ (known_txs (inner s))) as (Hnd & Hsub & Hall).
  intros Hl. destruct (record_txs_spec _ _ _ _ _ _ _ _ Hnd Hv Hl) as (Hv' & Hs' & Hne & Hrec).
  split_and!; [done|by rewrite Hs'|by rewrite Hs'| |].
  - intros t Ht. apply Hne. intros (wtx & -> & Hd)%list_elem_of_fmap.
    apply Ht, list_elem_of_fmap_2. by apply Hsub.
  - intros Hr. exists hash, h. split; [done|].
    intros t (wtx0 & -> & Hd0)%list_elem_of_fmap.
    apply Hall in Hd0 as (wtx & -> & Hd)%list_elem_of_fmap; [|set_solver].
    destruct (Hrec wtx Hd) as [[? _]|(q & p & Hq & Hp & He)]; [congruence|].
    exists wtx, q, p. split_and!; [by apply Hsub|done..].
Qed.

Lemma confirmation_states_Succeeded h anchor :
  (confirmation_states h anchor).1 = Succeeded ↔
  ∃ c, anchor = Some c ∧ wrap32 (block_height (block_id c) + 5) ≤ h.
Proof.
  destruct anchor as [c|]; simpl; [|naive_solver].
  unfold ANTI_REORG_DELAY. replace (_ + 6 - 1) with (block_height (block_id c) + 5) by lia.
  destruct (Z.leb_spec (wrap32 (block_height (block_id c) + 5)) h); naive_solver lia.
Qed.

Lemma entered_kind old q p t st cs :
  entered old q p → kind q = Onchain t cs →
  (∃ o, old = Some o ∧ kind o = Onchain t st) ∨ old = None →
  kind p = Onchain t cs.
Proof.
  intros (_ & _ & _ & _ & He) Hq [(o & -> & Ho)| ->]; [|by subst].
  destruct He as [-> _]. unfold payment_to_update. by rewrite Ho, Hq.
Qed.

(** C11. The payment store follows the chain. Whatever [update_payment_store] is
    interrupted by, the payment records stay what a restart would load, and only records
    of transactions of the loaded wallets change; a failed update stays pending. After a
    successful one nothing is pending and each wallet transaction has its record: its
    status is [Succeeded] exactly when all wallets that know it agree on a confirmation
    that is at least six blocks deep at the height all wallets reached, an on-chain record
    carries that confirmation, amount and fee are those of the transaction, and a record
    that was there before keeps the kind of payment it had. *)
Theorem payments_follow_chain clock s s' r :
  DataStore.valid (payment_store s) →
  update_payment_store clock s = (s', r) →
  DataStore.valid (payment_store s') ∧ inner s' = inner s ∧
  payment_store_update_pending s' = negb (is_ok r) ∧
  (∀ t, t ∉ wtx_txid <$> known_txs (inner s) → entry s' t = entry s t) ∧
  (is_ok r = true → ∃ hash h, AggregateWallet.current_best_block (inner s) = Ok (hash, h) ∧
   ∀ t, t ∈ wtx_txid <$> known_txs (inner s) →
     ∃ wtx q p, wtx ∈ known_txs (inner s) ∧ wtx_txid wtx = t ∧
       let anchor := AggregateWallet.transaction_confirmations (inner s) !! t in
       onchain_payment (clock t) (inner s) h
         (AggregateWallet.transaction_confirmations (inner s)) wtx = Ok q ∧
       entry s' t = Some p ∧ entered (entry s t) q p ∧
       (status p = Succeeded ↔
        ∃ c, anchor = Some c ∧ wrap32 (block_height (block_id c) + 5) ≤ h) ∧
       (∀ status, (∃ o, entry s t = Some o ∧ kind o = Onchain t status) ∨ entry s t = None →
        kind p = Onchain t (confirmation_states h anchor).2)).
Proof.
  intros Hv. unfold update_payment_store.
  destruct (update_payment_store_inner clock (set_pending true s)) as [s1 r1] eqn:Hu.
  intros [= <- <-].
  destruct (update_inner_spec clock (set_pending true s) s1 r1 Hv Hu)
    as (Hv1 & Hi & Hpend & Hne & Hall).
  destruct r1 as [u|e|]; cbn [is_ok negb]; split_and!; try done.
  intros _. destruct (Hall eq_refl) as (hash & h & Hb & Hrec). exists hash, h.
  split; [done|]. intros t Ht. destruct (Hrec t Ht) as (wtx & q & p & Hin & <- & Hq & Hp & He).
  exists wtx, q, p. destruct (onchain_payment_Ok _ _ _ _ _ _ Hq) as (_ & Hst & Hk).
  split_and!; [done..| |].
  - destruct He as (_ & -> & _). rewrite Hst. apply confirmation_states_Succeeded.
  - intros st Hold.
    by apply (entered_kind _ _ _ _ _ _ He Hk Hold).
Qed.
End laws.
End payments.
