(* ===== verification/ChainSync.v ===== *)
(** * Synchronising the on-chain wallets with a transaction-based source
      ([src/chain/mod.rs], [src/chain/esplora.rs], [src/chain/electrum.rs])

    One request per account is sent to the server, the answers are applied to the
    wallets, and what changed is reported as events.  The server's answers, the clock
    and LDK's channel data are inputs; who synchronises is in [SyncStatus]. *)

From S2P Require Import Prelude Errors KVStore Codec DataStore Types PaymentStore Bdk AggTypes.
From S2P Require Import Aggregate AggBuild AggInvariant FeeEstimator Config WalletKeys EventQueue Event NodeMetrics.
From S2P Require Import TxBroadcaster Wallet WalletPayments.
Import Wallet.

(** [bdk_wallet::event::WalletEvent], with the data the node reads. *)
Inductive BdkWalletEvent :=
| ChainTipChanged (old_tip new_tip : BlockId)
| TxConfirmed (txid : Txid)
| TxUnconfirmed (txid : Txid) (old_block_time : option ConfirmationBlockTime)
| TxReplaced (txid : Txid) (conflicts : list (nat * Txid))
| TxDropped (txid : Txid).

Module ChainSync.
Section sync.
Context {S : Type} {KV : KVStore S}.
Context (tlv_encode : PaymentTlv → bytes) (tlv_decode : bytes → option PaymentTlv).
Context {O : IterOrder OnchainWalletAccount} {OT : IterOrder Txid}.
Context {BTC : Bitcoin} {W P U : Type} {BDK : Bdk W P U BdkWalletEvent} {CS : CoinSelection}.
Context {D : Type} {BA : BitcoinAddress} {U16 : U16Codec}.
Context {PaymentFailureReason ClosureReason CustomTlvRecord : Type}.
Abbreviation Ev := (Event PaymentFailureReason ClosureReason CustomTlvRecord).
Context {CE : Codec Ev}.
(** [NodeMetrics::encode] *)
Context (metrics_encode : NodeMetrics → bytes).

Abbreviation Wal := (Wallet.Wallet S W P D).
Abbreviation wcmd A := (cmd Wal Error A).
Implicit Types (s : Wal) (a : OnchainWalletAccount) (t : Txid).

(** The result of a call that is looked at by the caller; only a panic passes on. *)
Definition attempt {St A} (m : cmd St Error A) : cmd St Error (A + Error) := λ st,
  match m st with
  | (st, Ok r) => (st, Ok (inl r))
  | (st, Err e) => (st, Ok (inr e))
  | (st, Panic) => (st, Panic)
  end.

(** ** Requests *)

Inductive WalletSyncRequest :=
| FullScan
| Incremental (spks : list (KeychainKind * Z * Script)).

Definition should_use_incremental_sync a s : bool :=
  if account_index a =? 0 then bool_decide (is_Some (get_wallet_sync_timestamp (node_metrics s) a))
  else has_synced_derived_account a s.

(** [wallet_full_scan_request]: the scan covers all scripts of a loaded wallet. *)
Definition get_wallet_full_scan_request a s : outcome aggregate.Error WalletSyncRequest :=
  _ ← ok_or (AggregateWallet.wallets (inner s) !! a) aggregate.WalletNotFound;
  Ok FullScan.

Definition collect_request s a : outcome Error (OnchainWalletAccount * WalletSyncRequest) :=
  let request :=
    if should_use_incremental_sync a s
    then Incremental <$> get_wallet_incremental_sync_request a s
    else get_wallet_full_scan_request a s in
  map_err (λ _, WalletOperationFailed) (pair a <$> request).
Definition collect_additional_sync_requests (additional_accounts : list OnchainWalletAccount) s :
    outcome Error (list (OnchainWalletAccount * WalletSyncRequest)) :=
  try_map (collect_request s) additional_accounts.

(** ** Applying the answers *)

Record AdditionalSyncOutcome := mkAdditional {
  events : list BdkWalletEvent;
  any_applied : bool;
  error : option Error;
}.

(** [error.get_or_insert(e)] *)
Definition get_or_insert (o : option Error) (e : Error) : option Error :=
  Some (default e o).
(** [a.or(b)] *)
Definition or_error (o o' : option Error) : option Error :=
  match o with Some e => Some e | None => o' end.

Definition mark_synced a (now : option Z) s : Wal :=
  let s := match now with
           | Some ts => set_metrics (set_wallet_sync_timestamp a ts (node_metrics s)) s
           | None => s
           end in
  if account_index a =? 0 then s else set_synced ({[a]} ∪ synced_derived_accounts s) s.

(** One result; [now] is the system time, where it is after 1970. *)
Definition apply_additional_result (now : option Z) (acc : AdditionalSyncOutcome)
    (r : OnchainWalletAccount * (U + Error)) : wcmd AdditionalSyncOutcome :=
  let '(a, result) := r in
  match result with
  | inr e => mret (mkAdditional (events acc) (any_applied acc) (get_or_insert (error acc) e))
  | inl update =>
      applied ← attempt (apply_update_for_wallet_account a update);
      match applied with
      | inl (Some wallet_events) =>
          _ ← modify (mark_synced a now);
          mret (mkAdditional (events acc ++ wallet_events) true (error acc))
      | inl None => mret acc
      | inr e => mret (mkAdditional (events acc) (any_applied acc) (get_or_insert (error acc) e))
      end
  end.

Fixpoint apply_additional_results (clock : OnchainWalletAccount → option Z)
    (acc : AdditionalSyncOutcome) (results : list (OnchainWalletAccount * (U + Error))) :
    wcmd AdditionalSyncOutcome :=
  match results with
  | [] => mret acc
  | r :: results =>
      acc ← apply_additional_result (clock r.1) acc r;
      apply_additional_results clock acc results
  end.
Definition apply_additional_sync_results (clock : OnchainWalletAccount → option Z)
    (results : list (OnchainWalletAccount * (U + Error))) : wcmd AdditionalSyncOutcome :=
  apply_additional_results clock (mkAdditional [] false None) results.

Record AppliedWalletSyncOutcome := mkApplied {
  applied_events : list BdkWalletEvent;
  applied_any : bool;
  primary_applied : bool;
  applied_error : option Error;
}.

Definition apply_primary (now : option Z) (primary_update : option U) (error : option Error) :
    wcmd (list BdkWalletEvent * bool * option Error) :=
  match primary_update with
  | None => mret ([], false, error)
  | Some update =>
      applied ← attempt (apply_update update);
      match applied with
      | inl wallet_events =>
          _ ← modify (λ s, set_metrics (set_onchain_sync_timestamp now (node_metrics s)) s);
          mret (wallet_events, true, error)
      | inr e => mret ([], false, get_or_insert error e)
      end
  end.

Definition apply_wallet_sync_results (now : option Z) (clock : OnchainWalletAccount → option Z)
    (primary_update : option U) (primary_error task_error : option Error)
    (additional_results : list (OnchainWalletAccount * (U + Error))) :
    wcmd AppliedWalletSyncOutcome :=
  '(primary_events, primary_applied, err) ← apply_primary now primary_update primary_error;
  let err := or_error err task_error in
  additional ← apply_additional_sync_results clock additional_results;
  mret (mkApplied (primary_events ++ events additional)
          (primary_applied || any_applied additional) primary_applied
          (or_error err (error additional))).

(** ** One synchronisation *)

(** What a task of the [JoinSet] ended with: an answer for the primary wallet ([None]) or
    an additional account, or not at all. *)
Inductive join_result :=
| Joined (account : option OnchainWalletAccount) (result : U + Error)
| TaskPanicked.

(** The answer of an Esplora server within the timeout. *)
Definition esplora_result (r : option (option U)) : U + Error :=
  match r with
  | Some (Some update) => inl update
  | Some None => inr WalletOperationFailed
  | None => inr WalletOperationTimeout
  end.

Record gathered := mkGathered {
  primary_update : option U;
  primary_error : option Error;
  task_error : option Error;
  additional_results : list (OnchainWalletAccount * (U + Error));
}.

Definition gather_one (g : gathered) (j : join_result) : gathered :=
  match j with
  | Joined None (inl update) =>
      mkGathered (Some update) (primary_error g) (task_error g) (additional_results g)
  | Joined None (inr e) =>
      mkGathered (primary_update g) (Some e) (task_error g) (additional_results g)
  | Joined (Some a) r =>
      mkGathered (primary_update g) (primary_error g) (task_error g)
        (additional_results g ++ [(a, r)])
  | TaskPanicked =>
      mkGathered (primary_update g) (primary_error g) (Some WalletOperationFailed)
        (additional_results g)
  end.
Definition gather (joined : list join_result) : gathered :=
  let g := foldl gather_one (mkGathered None None None []) joined in
  match primary_update g, primary_error g with
  | None, None =>
      mkGathered None (Some WalletOperationFailed) (task_error g) (additional_results g)
  | _, _ => g
  end.

Record WalletSyncOutcome := mkOutcome {
  sync_events : list BdkWalletEvent;
  sync_error : option Error;
}.

Definition outcome_result (o : WalletSyncOutcome) : outcome Error unit :=
  match sync_error o with Some e => Err e | None => Ok tt end.

(** [write_node_metrics] to the store shared with the payments. *)
Definition persist_metrics : wcmd unit := λ s,
  let ps := payment_store s in
  let '(kv, r) := write_node_metrics metrics_encode (node_metrics s) (DataStore.kv_store ps) in
  (set_payment_store (DataStore.set_kv kv ps) s, r).

(** The inputs of one synchronisation: the server's answers to the requests, and the time
    at each point where it is read. *)
Record sync_inputs := mkSyncInputs {
  answers : list (OnchainWalletAccount * WalletSyncRequest) → WalletSyncRequest →
            list join_result;
  primary_time : option Z;
  account_time : OnchainWalletAccount → option Z;
  payment_time : Txid → Z;
}.

Definition refresh_after_sync (clock : Txid → Z) (outcome : AppliedWalletSyncOutcome) :
    wcmd (option Error) :=
  if applied_any outcome then
    updated ← attempt (update_payment_store_for_all_transactions tlv_encode tlv_decode clock);
    _ ← attempt persist_metrics;
    mret (match updated with
          | inl _ => applied_error outcome
          | inr e => get_or_insert (applied_error outcome) e
          end)
  else mret (applied_error outcome).

Definition sync_onchain_wallet_inner (i : sync_inputs) : wcmd WalletSyncOutcome :=
  with_state (λ s,
    let primary_incremental :=
      bool_decide (is_Some (latest_onchain_wallet_sync_timestamp (node_metrics s))) in
    let additional_accounts := additional_wallet_accounts (address_type_runtime_config s) in
    additional_sync_requests ← lift (collect_additional_sync_requests additional_accounts s);
    primary ← lift (map_err (λ _, WalletOperationFailed)
                      (AggregateWallet.primary_wallet (inner s)));
    let primary_request :=
      if primary_incremental then Incremental (revealed_spks primary) else FullScan in
    let g := gather (answers i additional_sync_requests primary_request) in
    outcome ← apply_wallet_sync_results (primary_time i) (account_time i) (primary_update g)
                (primary_error g) (task_error g) (additional_results g);
    error ← refresh_after_sync (payment_time i) outcome;
    mret (mkOutcome (applied_events outcome) error)).

(** [.unwrap_or_else(WalletSyncOutcome::failed)] *)
Definition sync_onchain_wallet (i : sync_inputs) : wcmd WalletSyncOutcome :=
  r ← attempt (sync_onchain_wallet_inner i);
  mret (match r with inl outcome => outcome | inr e => mkOutcome [] (Some e) end).

(** ** Reporting

    The wallet beside the event queue, whose store is the wallet's. *)
Record state := mkState { wallet : Wal; event_queue : EventQueue.EventQueue S Ev }.
Implicit Types (x : state).
Abbreviation scmd A := (cmd state Error A).

Definition kv_of s : S := DataStore.kv_store (payment_store s).
Definition set_kv_of (kv : S) s : Wal :=
  set_payment_store (DataStore.set_kv kv (payment_store s)) s.

Definition on_wallet {A} (m : wcmd A) : scmd A := λ x,
  let '(s, r) := m (wallet x) in (mkState s (event_queue x), r).
Definition on_queue {A} (m : cmd (EventQueue.EventQueue S Ev) Error A) : scmd A := λ x,
  let '(q, r) := m (set_store (kv_of (wallet x)) (event_queue x)) in
  (mkState (set_kv_of (EventQueue.kv_store q) (wallet x)) q, r).
Definition enqueue (event : Ev) : scmd unit := on_queue (EventQueue.add_event event).

(** [check_and_emit_balance_update] on the node's metrics and queue. *)
Definition emit_balance_update (new : Balances) : scmd unit := λ x,
  let m := NodeMetrics.mkState (node_metrics (wallet x))
             (set_store (kv_of (wallet x)) (event_queue x)) in
  let '(m, r) := check_and_emit_balance_update metrics_encode new m in
  let q := NodeMetrics.events m in
  (mkState (set_metrics (NodeMetrics.metrics m) (set_kv_of (EventQueue.kv_store q) (wallet x))) q, r).

Definition check_evicted_transactions (prev_unconfirmed_txids : list Txid) s : list Txid :=
  let current_unconfirmed_txids : gset Txid :=
    list_to_set (AggregateWallet.unconfirmed_txids (inner s)) in
  let transaction_confirmations := AggregateWallet.transaction_confirmations (inner s) in
  List.filter (λ t,
    negb (bool_decide (t ∈ current_unconfirmed_txids)) &&
    negb (bool_decide (is_Some (transaction_confirmations !! t)))) prev_unconfirmed_txids.

(** A failure to store the event is only logged. *)
Definition emit_evicted (t : Txid) : scmd unit :=
  _ ← attempt (enqueue (OnchainTransactionEvicted t)); mret tt.
Definition check_and_emit_evicted_transactions (prev_unconfirmed_txids : list Txid) : scmd unit :=
  with_state (λ x,
    for_each emit_evicted (check_evicted_transactions prev_unconfirmed_txids (wallet x))).

Definition get_transaction_details t s : TransactionDetails :=
  match get_tx_details t s with
  | Some (amount_sats, inputs, outputs) => mkTransactionDetails amount_sats inputs outputs
  | None => mkTransactionDetails 0 [] []
  end.

(** The transactions an event of each kind was emitted for. *)
Record seen_txids := mkSeen {
  seen_received : gset Txid;
  seen_confirmed : gset Txid;
  seen_reorged : gset Txid;
  seen_replaced : gset Txid;
}.

(** The event to emit for an event of a wallet, if any, and what was seen with it. *)
Definition event_for (confirmations : gmap Txid ConfirmationBlockTime) s (seen : seen_txids)
    (wallet_event : BdkWalletEvent) : option (seen_txids * Ev) :=
  match wallet_event with
  | TxConfirmed t =>
      block_time ← confirmations !! t;
      if decide (t ∈ seen_confirmed seen) then None
      else Some (mkSeen (seen_received seen) ({[t]} ∪ seen_confirmed seen) (seen_reorged seen)
                   (seen_replaced seen),
                 OnchainTransactionConfirmed t (block_hash (block_id block_time))
                   (block_height (block_id block_time)) (confirmation_time block_time)
                   (get_transaction_details t s))
  | TxUnconfirmed t (Some _) =>
      if decide (t ∈ seen_reorged seen) then None
      else Some (mkSeen (seen_received seen) (seen_confirmed seen) ({[t]} ∪ seen_reorged seen)
                   (seen_replaced seen), OnchainTransactionReorged t)
  | TxUnconfirmed t None =>
      if decide (t ∈ seen_received seen) then None
      else Some (mkSeen ({[t]} ∪ seen_received seen) (seen_confirmed seen) (seen_reorged seen)
                   (seen_replaced seen), OnchainTransactionReceived t (get_transaction_details t s))
  | TxReplaced t conflicts =>
      if decide (t ∈ seen_replaced seen) then None
      else Some (mkSeen (seen_received seen) (seen_confirmed seen) (seen_reorged seen)
                   ({[t]} ∪ seen_replaced seen), OnchainTransactionReplaced t (conflicts.*2))
  | ChainTipChanged _ _ | TxDropped _ => None
  end.

Fixpoint process_events (confirmations : gmap Txid ConfirmationBlockTime) (seen : seen_txids)
    (wallet_events : list BdkWalletEvent) : scmd unit :=
  match wallet_events with
  | [] => mret tt
  | e :: wallet_events =>
      with_state (λ x,
        match event_for confirmations (wallet x) seen e with
        | None => process_events confirmations seen wallet_events
        | Some (seen, event) =>
            _ ← enqueue event; process_events confirmations seen wallet_events
        end)
  end.
Definition process_wallet_events (wallet_events : list BdkWalletEvent) : scmd unit :=
  with_state (λ x,
    process_events (AggregateWallet.transaction_confirmations (inner (wallet x)))
      (mkSeen ∅ ∅ ∅ ∅) wallet_events).

(** The reserve for anchor channels and LDK's claimable balances, where the channel
    manager, the chain monitor and the configuration are at hand. *)
Record channel_data := mkChannelData {
  cur_anchor_reserve_sats : Z;
  claimable_amounts : list Z;
}.

(** [balance_details], as far as it is tracked; the Lightning sum is a [u64]. *)
Definition current_balances (c : channel_data) s : outcome Error Balances :=
  '(total, spendable) ← match get_balances (cur_anchor_reserve_sats c) s with
                        | Err _ => Ok (0, 0)
                        | r => r
                        end;
  Ok (mkBalances spendable total (foldl (λ sum z, wrap64 (sum + z)) 0 (claimable_amounts c))).

Definition report_sync (prev_unconfirmed_txids : list Txid) (channels : option channel_data) :
    scmd unit :=
  _ ← check_and_emit_evicted_transactions prev_unconfirmed_txids;
  with_state (λ x,
    best ← lift (current_best_block (wallet x));
    _ ← enqueue (SyncCompleted OnchainWallet (best_height best));
    match channels with
    | None => mret tt
    | Some c =>
        with_state (λ x,
          balances ← lift (current_balances c (wallet x)); emit_balance_update balances)
    end).

(** [sync_onchain_wallet_with_events], with the queue where it has been set. *)
Definition sync_onchain_wallet_with_events (i : sync_inputs) (has_queue : bool)
    (channels : option channel_data) : scmd unit :=
  with_state (λ x,
    let prev_unconfirmed_txids := AggregateWallet.unconfirmed_txids (inner (wallet x)) in
    outcome ← on_wallet (sync_onchain_wallet i);
    _ ← if has_queue then process_wallet_events (sync_events outcome) else mret tt;
    _ ← lift (outcome_result outcome);
    if has_queue then report_sync prev_unconfirmed_txids channels else mret tt).

(** ** What is reported *)

(** The event the user is owed for an event of one wallet: a confirmation in the block all
    wallets agree on, with the wallets' view of the transaction; a transaction that lost its
    block is reorganised, any other unconfirmed one is new; a replacement names the
    conflicting transactions in order.  The tip and dropped transactions are not reported
    here. *)
Definition announces (confirmations : gmap Txid ConfirmationBlockTime) s (e : BdkWalletEvent) :
    option Ev :=
  match e with
  | TxConfirmed t =>
      (λ '(mkConfirmationBlockTime (mkBlockId height hash) time),
         OnchainTransactionConfirmed t hash height time (get_transaction_details t s))
        <$> confirmations !! t
  | TxUnconfirmed t old_block =>
      Some (if old_block then OnchainTransactionReorged t
            else OnchainTransactionReceived t (get_transaction_details t s))
  | TxReplaced t conflicts => Some (OnchainTransactionReplaced t (map snd conflicts))
  | TxDropped _ | ChainTipChanged _ _ => None
  end.

(** The kind of such an event and its transaction. *)
Definition event_key (event : Ev) : option (nat * Txid) :=
  match event with
  | OnchainTransactionReceived t _ => Some (0%nat, t)
  | OnchainTransactionConfirmed t _ _ _ _ => Some (1%nat, t)
  | OnchainTransactionReorged t => Some (2%nat, t)
  | OnchainTransactionReplaced t _ => Some (3%nat, t)
  | _ => None
  end.

(** The first event of each key, beyond those seen. *)
Fixpoint first_of_each (seen : list (option (nat * Txid))) (events : list Ev) : list Ev :=
  match events with
  | [] => []
  | e :: events =>
      if decide (event_key e ∈ seen) then first_of_each seen events
      else e :: first_of_each (event_key e :: seen) events
  end.

(** [seen] holds exactly the keys of the list. *)
Definition seen_keys (seen : seen_txids) (l : list (option (nat * Txid))) : Prop :=
  ∀ t, (t ∈ seen_received seen ↔ Some (0%nat, t) ∈ l) ∧ (t ∈ seen_confirmed seen ↔ Some (1%nat, t) ∈ l) ∧
    (t ∈ seen_reorged seen ↔ Some (2%nat, t) ∈ l) ∧ (t ∈ seen_replaced seen ↔ Some (3%nat, t) ∈ l).

(** An event is emitted exactly when its key was not seen. *)
Lemma event_for_seen confirmations s seen l e :
  seen_keys seen l →
  match announces confirmations s e with
  | None => event_for confirmations s seen e = None
  | Some ev =>
      if decide (event_key ev ∈ l) then event_for confirmations s seen e = None
      else ∃ seen', event_for confirmations s seen e = Some (seen', ev) ∧
             seen_keys seen' (event_key ev :: l)
  end.
Proof.
  intros Hseen. unfold announces, event_for.
  destruct e as [|t|t [bt|]|t cs|t]; simpl; try done;
    [destruct (confirmations !! t) as [[[h b] time]|]; simpl; [|done]|..];
    destruct (Hseen t) as (H0 & H1 & H2 & H3);
    match goal with |- context [decide (t ∈ ?m)] =>
      match goal with |- context [decide (Some ?k ∈ l)] =>
        rewrite (decide_ext (t ∈ m) (Some k ∈ l)) by done end end;
    case_decide; try done; (eexists; split; [done|]);
    intros t'; destruct (Hseen t') as (H0' & H1' & H2' & H3'); simpl;
    rewrite ?elem_of_union, ?elem_of_singleton, ?elem_of_cons, ?H0', ?H1', ?H2', ?H3';
    clear; intuition congruence.
Qed.

(** Nothing but the shared store differs. *)
Definition same_wallet s s' : Prop := s' = s ∨ ∃ kv, s' = set_kv_of kv s.

#[local] Instance same_wallet_preorder : PreOrder same_wallet.
Proof.
  split; [by left|]. intros s1 s2 s3 [->|[kv ->]] [->|[kv' ->]]; try (by left); right; eauto.
Qed.

Lemma same_wallet_view s s' :
  same_wallet s s' →
  inner s' = inner s ∧ node_metrics s' = node_metrics s ∧ current_best_block s' = current_best_block s ∧
  (∀ confirmations e, announces confirmations s' e = announces confirmations s e) ∧
  (∀ c, current_balances c s' = current_balances c s).
Proof. by intros [->|[kv ->]]. Qed.

(** Adding an event appends it, whether or not it can be stored. *)
Lemma enqueue_queue event x x' r :
  enqueue event x = (x', r) →
  EventQueue.queue (event_queue x') = EventQueue.queue (event_queue x) ++ [event] ∧
  same_wallet (wallet x) (wallet x').
Proof.
  unfold enqueue, on_queue, EventQueue.add_event, EventQueue.push_event, EventQueue.persist_queue,
    EventQueue.wake, mbind, cmd_bind, modify, same_wallet. simpl.
  destruct (kv_write _ _ _) as [kv [[]|e|]]; simpl; intros [= <- <-]; simpl; eauto.
Qed.

Lemma omap_same (f g : BdkWalletEvent → option Ev) (l : list BdkWalletEvent) : (∀ e, f e = g e) → omap f l = omap g l.
Proof. intros Hfg. induction l as [|e l IH]; [done|]. csimpl. by rewrite Hfg, IH. Qed.

Lemma process_events_queue confirmations wallet_events seen l x x' :
  seen_keys seen l →
  process_events confirmations seen wallet_events x = (x', Ok tt) →
  EventQueue.queue (event_queue x') = EventQueue.queue (event_queue x) ++
    first_of_each l (omap (announces confirmations (wallet x)) wallet_events) ∧
  same_wallet (wallet x) (wallet x').
Proof.
  revert seen l x. induction wallet_events as [|e wallet_events IH]; intros seen l x Hseen; simpl.
  { intros [= <-]. by rewrite app_nil_r. }
  unfold with_state. pose proof (event_for_seen confirmations (wallet x) seen l e Hseen) as He.
  destruct (announces confirmations (wallet x) e) as [ev|]; simpl.
  2:{ rewrite He. by apply IH. }
  destruct (decide (event_key ev ∈ l)) as [Hin|Hnin]; [rewrite He; by apply IH|].
  destruct He as (seen' & -> & Hseen').
  intros (x1 & [] & [Hq Hw]%enqueue_queue & Hrest)%cmd_bind_Ok.
  destruct (IH _ _ _ Hseen' Hrest) as [Hq' Hw']. split; [|by etrans].
  rewrite Hq', Hq, <-app_assoc. do 3 f_equal.
  apply omap_same. by apply same_wallet_view.
Qed.

Lemma process_wallet_events_queue wallet_events x x' :
  process_wallet_events wallet_events x = (x', Ok tt) →
  EventQueue.queue (event_queue x') = EventQueue.queue (event_queue x) ++
    first_of_each [] (omap (announces (AggregateWallet.transaction_confirmations
      (inner (wallet x))) (wallet x)) wallet_events) ∧
  same_wallet (wallet x) (wallet x').
Proof.
  apply process_events_queue. intros t. simpl.
  rewrite !elem_of_empty, !elem_of_nil. naive_solver.
Qed.

Lemma emit_evicted_queue ts x x' :
  for_each emit_evicted ts x = (x', Ok tt) →
  EventQueue.queue (event_queue x')
    = EventQueue.queue (event_queue x) ++ (OnchainTransactionEvicted <$> ts) ∧
  same_wallet (wallet x) (wallet x').
Proof.
  revert x. induction ts as [|t ts IH]; intros x; simpl.
  { intros [= <-]. by rewrite app_nil_r. }
  intros (x1 & [] & Hone & Hrest)%cmd_bind_Ok. destruct (IH x1 Hrest) as [Hq' Hw'].
  unfold emit_evicted, attempt, mbind, cmd_bind in Hone.
  destruct (enqueue (OnchainTransactionEvicted t) x) as [x2 r] eqn:Ha.
  apply enqueue_queue in Ha as [Hq Hw].
  assert (x2 = x1) as -> by (destruct r; [by injection Hone|by injection Hone|discriminate]).
  rewrite Hq', Hq, <-app_assoc. split; [done|by etrans].
Qed.

Lemma elem_of_evicted prev t s :
  t ∈ check_evicted_transactions prev s ↔
  t ∈ prev ∧ t ∉ AggregateWallet.unconfirmed_txids (inner s) ∧
  AggregateWallet.transaction_confirmations (inner s) !! t = None.
Proof.
  unfold check_evicted_transactions. rewrite list_elem_of_In, filter_In, <-list_elem_of_In.
  rewrite andb_true_iff, !negb_true_iff, !bool_decide_eq_false, elem_of_list_to_set,
    eq_None_not_Some. done.
Qed.

Lemma emit_balance_queue b x x' :
  emit_balance_update b x = (x', Ok tt) →
  EventQueue.queue (event_queue x') = EventQueue.queue (event_queue x) ++
    changes (known_balances (node_metrics (wallet x))) [b].
Proof.
  unfold emit_balance_update.
  destruct (check_and_emit_balance_update _ _ _) as [m r] eqn:Hm. intros [= <- ->]. simpl.
  revert Hm. unfold check_and_emit_balance_update, with_state. cbn [changes NodeMetrics.metrics].
  destruct (decide (known_balances _ = b)).
  - intros [= <-]. by rewrite !app_nil_r.
  - unfold emit, track_balances, write_node_metrics, EventQueue.add_event, EventQueue.push_event,
      EventQueue.persist_queue, EventQueue.wake, mbind, cmd_bind, modify. simpl.
    destruct (kv_write _ _ _) as [kv [[]| |]]; simpl; [|done..].
    destruct (kv_write _ _ _) as [kv' r']; simpl. intros [= <- Hr]. done.
Qed.

(** The events a completed synchronisation reports after those of the wallets. *)
Lemma report_sync_queue prev channels x x' :
  report_sync prev channels x = (x', Ok tt) →
  ∃ best, current_best_block (wallet x) = Ok best ∧
    ∃ balance_events,
      match channels with
      | None => balance_events = []
      | Some c => ∃ b, current_balances c (wallet x) = Ok b ∧
          balance_events = changes (known_balances (node_metrics (wallet x))) [b]
      end ∧
      EventQueue.queue (event_queue x') = EventQueue.queue (event_queue x) ++
        (OnchainTransactionEvicted <$> check_evicted_transactions prev (wallet x)) ++
        [SyncCompleted OnchainWallet (best_height best)] ++ balance_events.
Proof.
  unfold report_sync, check_and_emit_evicted_transactions.
  intros (x1 & [] & [Hq1 Hw1]%emit_evicted_queue & Hrest)%cmd_bind_Ok.
  destruct (same_wallet_view _ _ Hw1) as (_ & Hm1 & Hb1 & _ & Hc1).
  unfold with_state in Hrest. apply cmd_bind_Ok in Hrest as (x2 & best & Hbest & Hrest).
  injection Hbest as <- Hbest. rewrite Hb1 in Hbest. exists best. split; [done|].
  apply cmd_bind_Ok in Hrest as (x3 & [] & [Hq3 Hw3]%enqueue_queue & Hrest).
  destruct (same_wallet_view _ _ Hw3) as (_ & Hm3 & _ & _ & Hc3).
  destruct channels as [c|].
  - apply cmd_bind_Ok in Hrest as (x4 & b & Hb & Hrest). injection Hb as <- Hb.
    apply emit_balance_queue in Hrest.
    eexists. split; [exists b; split; [by rewrite <-Hc1, <-Hc3|done]|].
    rewrite Hrest, Hq3, Hq1, Hm3, Hm1, <-!app_assoc. done.
  - injection Hrest as <-. exists []. split; [done|].
    rewrite Hq3, Hq1, <-!app_assoc. done.
Qed.

(** What a synchronisation that succeeds leaves in the queue. *)
Lemma synced_queue (i : sync_inputs) (channels : option channel_data) x x' :
  sync_onchain_wallet_with_events i true channels x = (x', Ok tt) →
  ∃ s outcome best balance_events,
    sync_onchain_wallet i (wallet x) = (s, Ok outcome) ∧ sync_error outcome = None ∧
    current_best_block s = Ok best ∧
    match channels with
    | None => balance_events = []
    | Some c => ∃ b, current_balances c s = Ok b ∧
        balance_events = changes (known_balances (node_metrics s)) [b]
    end ∧
    let confirmations := AggregateWallet.transaction_confirmations (inner s) in
    let before := AggregateWallet.unconfirmed_txids (inner (wallet x)) in
    let evicted := check_evicted_transactions before s in
    EventQueue.queue (event_queue x') = EventQueue.queue (event_queue x) ++
      first_of_each [] (omap (announces confirmations s) (sync_events outcome)) ++
      (OnchainTransactionEvicted <$> evicted) ++
      [SyncCompleted OnchainWallet (best_height best)] ++ balance_events ∧
    ∀ t, t ∈ evicted ↔
      t ∈ before ∧ t ∉ AggregateWallet.unconfirmed_txids (inner s) ∧ confirmations !! t = None.
Proof.
  unfold sync_onchain_wallet_with_events, with_state.
  intros (x1 & outcome & Hsync & Hrest)%cmd_bind_Ok. unfold on_wallet in Hsync.
  destruct (sync_onchain_wallet i (wallet x)) as [s r]. injection Hsync as <- ->.
  apply cmd_bind_Ok in Hrest as (x2 & [] & [Hq2 Hw2]%process_wallet_events_queue & Hrest).
  destruct (same_wallet_view _ _ Hw2) as (Hi2 & Hm2 & Hb2 & _ & Hc2). simpl in *.
  apply cmd_bind_Ok in Hrest as (x3 & [] & Hres & Hrest). injection Hres as <- Hres.
  apply report_sync_queue in Hrest as (best & Hbest & balance_events & Hbal & Hq).
  exists s, outcome, best, balance_events. rewrite Hb2 in Hbest.
  assert (Hev : ∀ prev, check_evicted_transactions prev (wallet x2) = check_evicted_transactions prev s)
    by (intros; unfold check_evicted_transactions; by rewrite Hi2).
  split_and!; [done| |done| |by rewrite Hq, Hq2, Hev, <-!app_assoc|intros; apply elem_of_evicted].
  - unfold outcome_result in Hres. by destruct (sync_error outcome).
  - destruct channels as [c|]; [|done]. rewrite Hc2, Hm2 in Hbal. done.
Qed.

Lemma announced_key confirmations s seen e seen' ev :
  event_for confirmations s seen e = Some (seen', ev) → is_Some (event_key ev).
Proof.
  unfold event_for. destruct e as [|t|t [bt|]|t cs|t]; simpl; try done;
    [destruct (confirmations !! t); simpl; [|done]|..]; case_decide; try done;
    intros [= _ <-]; by eexists.
Qed.

Lemma first_of_each_elem seen (l : list Ev) e : e ∈ first_of_each seen l → e ∈ l.
Proof.
  revert seen. induction l as [|e' l IH]; intros seen; simpl; [done|]. case_decide.
  - intros ?%IH. by right.
  - intros [->|?%IH]%elem_of_cons; [by left|by right].
Qed.

(** C12. A synchronisation that succeeds appends to the event queue exactly: for the events
    of all wallets together, one event per kind and transaction, a confirmation only if
    all wallets that know the transaction agree on it; then an eviction for exactly the
    transactions that were unconfirmed before and are neither unconfirmed nor confirmed
    now; then the completion at the wallets' height; then the change of balance. *)
Theorem sync_events_exact (i : sync_inputs) (channels : option channel_data) x x' :
  sync_onchain_wallet_with_events i true channels x = (x', Ok tt) →
  ∃ s outcome best balance_events,
    sync_onchain_wallet i (wallet x) = (s, Ok outcome) ∧ sync_error outcome = None ∧
    current_best_block s = Ok best ∧
    match channels with
    | None => balance_events = []
    | Some c => ∃ b, current_balances c s = Ok b ∧
        balance_events = changes (known_balances (node_metrics s)) [b]
    end ∧
    let confirmations := AggregateWallet.transaction_confirmations (inner s) in
    let before := AggregateWallet.unconfirmed_txids (inner (wallet x)) in
    let evicted := check_evicted_transactions before s in
    EventQueue.queue (event_queue x') = EventQueue.queue (event_queue x) ++
      first_of_each [] (omap (announces confirmations s) (sync_events outcome)) ++
      (OnchainTransactionEvicted <$> evicted) ++
      [SyncCompleted OnchainWallet (best_height best)] ++ balance_events ∧
    ∀ t, t ∈ evicted ↔
      t ∈ before ∧ t ∉ AggregateWallet.unconfirmed_txids (inner s) ∧ confirmations !! t = None.
Proof. apply synced_queue. Qed.

(** Whatever is reported of the wallets' events, also up to a failure, is no eviction. *)
Lemma process_events_kept confirmations wallet_events seen x x' r :
  process_events confirmations seen wallet_events x = (x', r) →
  (∀ t, OnchainTransactionEvicted t ∈ EventQueue.queue (event_queue x') →
        OnchainTransactionEvicted t ∈ EventQueue.queue (event_queue x)) ∧
  inner (wallet x') = inner (wallet x).
Proof.
  revert seen x. induction wallet_events as [|e wallet_events IH]; intros seen x; simpl.
  { by intros [= <- _]. }
  unfold with_state. destruct (event_for confirmations (wallet x) seen e) as [[seen' ev]|] eqn:He; [|by apply IH].
  unfold mbind, cmd_bind. destruct (enqueue ev x) as [x1 r1] eqn:Ha.
  apply enqueue_queue in Ha as [Hq Hw].
  destruct (same_wallet_view _ _ Hw) as (Hi & _).
  assert (H1 : (∀ t, OnchainTransactionEvicted t ∈ EventQueue.queue (event_queue x1) →
        OnchainTransactionEvicted t ∈ EventQueue.queue (event_queue x)) ∧
        inner (wallet x1) = inner (wallet x)).
  { split; [|done]. intros t. rewrite Hq, elem_of_app, list_elem_of_singleton. intros [?|Hev]; [done|].
    subst ev. by apply announced_key in He as [? [=]]. }
  destruct r1 as [[]| |]; [|by intros [= <- _]..].
  intros [Hq2 Hi2]%IH. destruct H1 as [Hq1 Hi1]. split; [auto|congruence].
Qed.

(** C37. An eviction that a synchronisation finds while another account's request fails is
    never reported: the failed synchronisation stops before it looks for evictions, and
    the next one compares with the wallets as they were left. *)
Theorem failed_sync_hides_eviction i i' channels channels' x s outcome e t x2 :
  sync_onchain_wallet i (wallet x) = (s, Ok outcome) → sync_error outcome = Some e →
  t ∈ check_evicted_transactions (AggregateWallet.unconfirmed_txids (inner (wallet x))) s →
  OnchainTransactionEvicted t ∉ EventQueue.queue (event_queue x) →
  let x1 := (sync_onchain_wallet_with_events i true channels x).1 in
  sync_onchain_wallet_with_events i' true channels' x1 = (x2, Ok tt) →
  OnchainTransactionEvicted t ∉ EventQueue.queue (event_queue x2).
Proof.
  intros Hsync Herr (_ & Hgone & _)%elem_of_evicted Hq0 x1 H2.
  assert (H1 : OnchainTransactionEvicted t ∉ EventQueue.queue (event_queue x1) ∧
               inner (wallet x1) = inner s).
  { assert (Hrun : sync_onchain_wallet_with_events i true channels x =
                   (x1, (sync_onchain_wallet_with_events i true channels x).2))
      by apply surjective_pairing.
    revert Hrun. generalize (sync_onchain_wallet_with_events i true channels x).2.
    generalize x1. clear x1 H2. intros x1 r1. unfold sync_onchain_wallet_with_events, with_state, mbind, cmd_bind, on_wallet.
    rewrite Hsync. destruct (process_wallet_events (sync_events outcome) _) as [x0 r] eqn:Hp.
    apply process_events_kept in Hp as [Hk Hi]. simpl in Hi.
    unfold outcome_result, lift. rewrite Herr. intros Hr.
    assert (x1 = x0) as -> by (by destruct r as [[]| |]; injection Hr).
    split; [intros H%Hk; done|done]. }
  destruct H1 as [Hq1 Hi1].
  apply synced_queue in H2 as (s2 & outcome2 & best & balance_events & _ & _ & _ & Hbal & Hq & Hev).
  rewrite Hq, !elem_of_app. intros [?|[Ha|[Ht|[Hc|Hb]]]]; [done|..].
  - apply first_of_each_elem in Ha. apply list_elem_of_omap in Ha as (we & _ & Ha).
    destruct we as [|t'|t' [b|]|t' cs|t']; simplify_eq/=.
    by destruct (_ !! t') as [[[] ?]|].
  - apply list_elem_of_fmap in Ht as (t' & [= <-] & (Ht' & _)%Hev). by rewrite Hi1 in Ht'.
  - by apply list_elem_of_singleton in Hc.
  - destruct channels' as [c|]; [|subst; by apply elem_of_nil in Hb].
    destruct Hbal as (b & _ & ->). simpl in Hb. case_decide; [by apply elem_of_nil in Hb|].
    by apply list_elem_of_singleton in Hb.
Qed.

(** ** Which accounts count as synchronised *)

Context {BTCS : BitcoinSpec} {BDKS : BdkSpec W P U BdkWalletEvent}.

(** What decides between a full scan and an incremental request is the same. *)
Record same_marks s s' : Prop := {
  marks_metrics : node_metrics s' = node_metrics s;
  marks_synced : synced_derived_accounts s' = synced_derived_accounts s;
  marks_config : address_type_runtime_config s' = address_type_runtime_config s;
}.

Lemma same_marks_incremental a s s' :
  same_marks s s' → should_use_incremental_sync a s' = should_use_incremental_sync a s.
Proof.
  intros [Hm Hs _]. unfold should_use_incremental_sync, has_synced_derived_account.
  by rewrite Hm, Hs.
Qed.

Lemma find_update_timestamp (t t' : AddressType) ts l :
  find_timestamp t' (update_timestamp t ts l)
  = if decide (t' = t) then Some ts else find_timestamp t' l.
Proof.
  unfold find_timestamp. induction l as [|[t1 ts1] l IH]; simpl.
  - destruct (decide (t = t')) as [->|]; [by rewrite bool_decide_true, decide_True|].
    by rewrite bool_decide_false, decide_False.
  - destruct (decide (t1 = t)) as [->|]; simpl.
    + destruct (decide (t = t')) as [->|]; [by rewrite bool_decide_true, decide_True|].
      by rewrite bool_decide_false, decide_False.
    + destruct (decide (t1 = t')) as [->|]; [by rewrite bool_decide_true, decide_False|].
      by rewrite bool_decide_false.
Qed.

(** An account is marked by its own result only, if the time is known or not needed. *)
Definition markable (now : option Z) a : bool :=
  negb (account_index a =? 0) || bool_decide (is_Some now).

Lemma mark_synced_incremental a now a' s :
  should_use_incremental_sync a' (mark_synced a now s)
  = should_use_incremental_sync a' s || bool_decide (a' = a) && markable now a.
Proof.
  unfold should_use_incremental_sync, mark_synced, markable, has_synced_derived_account,
    get_wallet_sync_timestamp, set_wallet_sync_timestamp.
  destruct a as [ty i], a' as [ty' i']. simpl.
  destruct (i =? 0) eqn:Hi, (i' =? 0) eqn:Hi'; destruct now as [ts|]; simpl;
    rewrite ?Hi, ?Hi', ?andb_false_r, ?orb_false_r, ?andb_true_r; simpl; try done;
    rewrite ?find_update_timestamp;
    apply Z.eqb_eq in Hi || apply Z.eqb_neq in Hi; apply Z.eqb_eq in Hi' || apply Z.eqb_neq in Hi';
    apply eq_true_iff_eq; rewrite ?orb_true_iff, ?bool_decide_eq_true, ?elem_of_union,
      ?elem_of_singleton; try case_decide; simplify_eq; naive_solver.
Qed.

Lemma on_inner_marks {A} err (m : cmd (AggregateWallet.AggregateWallet OnchainWalletAccount W P)
    aggregate.Error A) s s' r :
  on_inner err m s = (s', r) → same_marks s s' ∧ (m (inner s)).1 = inner s'.
Proof. unfold on_inner. destruct (m (inner s)). intros [= <- <-]. by split; [split|]. Qed.

Lemma on_inner_stable {A} K p err (m : cmd (AggregateWallet.AggregateWallet OnchainWalletAccount W P)
    aggregate.Error A) s s' r :
  stable K K p m → on_inner err m s = (s', r) → keys_are K p (inner s) →
  same_marks s s' ∧ keys_are K p (inner s').
Proof.
  intros Hm Hr Hk. apply on_inner_marks in Hr as [? <-]. split; [done|]. by apply Hm.
Qed.

Lemma apply_update_marks K p u s s' r :
  apply_update u s = (s', r) → keys_are K p (inner s) → same_marks s s' ∧ keys_are K p (inner s').
Proof.
  unfold apply_update, mbind, cmd_bind. intros Hr Hk.
  destruct (on_inner _ _ s) as [s1 r1] eqn:H1.
  eapply on_inner_stable in H1; [|apply stable_apply_update|done].
  by destruct r1 as [[]| |]; injection Hr as <- <-.
Qed.

Lemma apply_account_marks K p a u s s' r :
  apply_update_for_wallet_account a u s = (s', r) → keys_are K p (inner s) →
  same_marks s s' ∧ keys_are K p (inner s') ∧ (r = Ok None → a ∉ K).
Proof.
  unfold apply_update_for_wallet_account, with_state. intros Hr Hk. case_decide as Ha.
  - injection Hr as <- <-. split_and!; [by split|done|]. intros _ Hin.
    destruct (keys_in_is_Some _ _ _ _ _ Hk Hin). congruence.
  - unfold mbind, cmd_bind in Hr. destruct (on_inner _ _ s) as [s1 r1] eqn:H1.
    eapply on_inner_stable in H1 as [Hm Hk1]; [|apply stable_apply_update_to_wallet|done].
    by destruct r1 as [[]| |]; injection Hr as <- <-.
Qed.

(** After results were applied: only an account with an answer became synchronised, and
    none ceased to be. *)
Record marked K p (results : list (OnchainWalletAccount * (U + Error))) s s' : Prop := {
  marked_keys : keys_are K p (inner s');
  marked_config : address_type_runtime_config s' = address_type_runtime_config s;
  marked_primary :
    latest_onchain_wallet_sync_timestamp (node_metrics s')
    = latest_onchain_wallet_sync_timestamp (node_metrics s);
  marked_keep a : should_use_incremental_sync a s = true → should_use_incremental_sync a s' = true;
  marked_new a :
    should_use_incremental_sync a s' = true →
    should_use_incremental_sync a s = true ∨ ∃ u, (a, inl u) ∈ results;
}.

Lemma marked_app K p rs1 rs2 s1 s2 s3 :
  marked K p rs1 s1 s2 → marked K p rs2 s2 s3 → marked K p (rs1 ++ rs2) s1 s3.
Proof.
  intros M1 M2. split.
  - exact (marked_keys _ _ _ _ _ M2).
  - rewrite (marked_config _ _ _ _ _ M2). exact (marked_config _ _ _ _ _ M1).
  - rewrite (marked_primary _ _ _ _ _ M2). exact (marked_primary _ _ _ _ _ M1).
  - intros a Ha. by apply (marked_keep _ _ _ _ _ M2), (marked_keep _ _ _ _ _ M1).
  - intros a [Ha|[u Hu]]%(marked_new _ _ _ _ _ M2); [|right; exists u; apply elem_of_app; by right].
    apply (marked_new _ _ _ _ _ M1) in Ha as [Ha|[u Hu]]; [by left|right].
    exists u. apply elem_of_app. by left.
Qed.

Lemma marked_same K p rs s s' : same_marks s s' → keys_are K p (inner s') → marked K p rs s s'.
Proof.
  intros M Hk. assert (Hi := λ a, same_marks_incremental a _ _ M). destruct M as [Hm _ Hc].
  split; [done|done|congruence|intros; by rewrite Hi|intros a; rewrite Hi; auto].
Qed.

Lemma mark_synced_marked K p a now u s :
  keys_are K p (inner s) → marked K p [(a, inl u)] s (mark_synced a now s).
Proof.
  intros Hk. split.
  - unfold mark_synced. by destruct now, (account_index a =? 0).
  - unfold mark_synced. by destruct now, (account_index a =? 0).
  - unfold mark_synced, set_wallet_sync_timestamp. by destruct now, (account_index a =? 0).
  - intros a' Ha'. by rewrite mark_synced_incremental, Ha'.
  - intros a'. rewrite mark_synced_incremental.
    intros [?|[->%bool_decide_eq_true _]%andb_true_iff]%orb_true_iff; [by left|right].
    exists u. by left.
Qed.

(** One result; without an error, a loaded account is now synchronised. *)
Lemma apply_result_marked K p clock a result acc s s' acc' :
  apply_additional_result (clock a) acc (a, result) s = (s', Ok acc') → keys_are K p (inner s) →
  marked K p [(a, result)] s s' ∧
  (error acc' = None → error acc = None ∧
     (a ∈ K → markable (clock a) a = true → should_use_incremental_sync a s' = true)).
Proof.
  intros Hone Hk. destruct result as [u|e]; simpl in Hone.
  2:{ injection Hone as <- <-. split; [|done]. by apply marked_same. }
  unfold attempt, mbind, cmd_bind in Hone.
  destruct (apply_update_for_wallet_account a u s) as [s2 r] eqn:Ha.
  destruct (apply_account_marks _ _ _ _ _ _ _ Ha Hk) as (M & Hk2 & Hnone).
  destruct r as [[evs|]|e|]; simpl in Hone; [..|done]; injection Hone as <- <-.
  - split; [|intros He; split; [done|]; intros _ Hmk;
              by rewrite mark_synced_incremental, bool_decide_true, Hmk, orb_true_r].
    apply (marked_app _ _ [] [(a, inl u)] _ s2); [by apply marked_same|].
    by apply mark_synced_marked.
  - split; [by apply marked_same|]. intros He. split; [done|]. intros Hin.
    by destruct (Hnone eq_refl).
  - split; [by apply marked_same|done].
Qed.

Lemma apply_additional_marked K p clock results acc s s' acc' :
  apply_additional_results clock acc results s = (s', Ok acc') → keys_are K p (inner s) →
  marked K p results s s' ∧
  (error acc' = None → error acc = None ∧
     ∀ a r, (a, r) ∈ results → a ∈ K → markable (clock a) a = true →
       should_use_incremental_sync a s' = true).
Proof.
  revert acc s. induction results as [|[a result] results IH]; intros acc s; simpl.
  { intros [= <- <-] Hk. split; [by apply marked_same|]. intros ?. split; [done|].
    by intros ?? ?%elem_of_nil. }
  intros (s1 & acc1 & Hone & Hrest)%cmd_bind_Ok Hk.
  apply (apply_result_marked K p) in Hone as [M1 Herr1]; [|done].
  destruct (IH _ _ Hrest (marked_keys _ _ _ _ _ M1)) as [M2 Herr2].
  split; [by apply (marked_app _ _ [(a, result)] results _ s1)|].
  intros He. destruct (Herr2 He) as [He1 Hall]. destruct (Herr1 He1) as [He0 Ha].
  split; [done|]. intros a' r [[= -> ->]|Hin]%elem_of_cons; [|eauto].
  intros. by apply (marked_keep _ _ _ _ _ M2), Ha.
Qed.

(** ** The rest of a synchronisation marks no account *)

Lemma record_payments_marks (clock : Txid → Z) i h confirmations txs s s' r :
  for_each (record_tx tlv_encode tlv_decode clock i h confirmations) txs s = (s', r) →
  same_marks s s' ∧ inner s' = inner s.
Proof.
  revert s. induction txs as [|wtx txs IH]; intros s; simpl.
  { intros [= <- _]. by split; [split|]. }
  unfold record_tx, on_payments, lift, mbind at 1, cmd_bind at 1. unfold mbind at 1, cmd_bind at 1.
  destruct (onchain_payment _ _ _ _ _) as [payment| |]; [|by intros [= <- _]; split; [split|]..].
  unfold mbind at 1, cmd_bind at 1.
  destruct (DataStore.insert_or_update _ _ _) as [ps [b| |]]; [|by intros [= <- _]; split; [split|]..].
  simpl. intros [[Hm Hs Hc] Hi]%IH. by split; [split|].
Qed.

Lemma update_payments_marks (clock : Txid → Z) s s' r :
  update_payment_store_for_all_transactions tlv_encode tlv_decode clock s = (s', r) →
  same_marks s s' ∧ inner s' = inner s.
Proof.
  unfold update_payment_store_for_all_transactions, update_payment_store, update_payment_store_inner,
    with_state, mbind, cmd_bind, lift.
  destruct (map_err _ _) as [[hash h]| |]; simpl; [|by intros [= <- _]; split; [split|]..].
  destruct (for_each _ _ _) as [s1 r1] eqn:Hf. apply record_payments_marks in Hf as [[Hm Hs Hc] Hi].
  intros [= <- _]. destruct (is_ok r1); by split; [split|].
Qed.
Lemma persist_metrics_marks s s' r :
  persist_metrics s = (s', r) → same_marks s s' ∧ inner s' = inner s.
Proof.
  unfold persist_metrics. destruct (write_node_metrics _ _ _) as [kv w].
  intros [= <- _]. by split; [split|].
Qed.

Lemma same_marks_trans s1 s2 s3 : same_marks s1 s2 → same_marks s2 s3 → same_marks s1 s3.
Proof. intros [? ? ?] [? ? ?]. split; congruence. Qed.

Lemma attempt_Ok {St A} (m : cmd St Error A) st st' r :
  attempt m st = (st', Ok r) →
  m st = (st', match r with inl v => Ok v | inr e => Err e end).
Proof. unfold attempt. by destruct (m st) as [st1 [v|e|]]; intros [= <- <-]. Qed.
Lemma attempt_not_Err {St A} (m : cmd St Error A) st st' e : attempt m st ≠ (st', Err e).
Proof. unfold attempt. by destruct (m st) as [st1 [v|e'|]]. Qed.

Lemma refresh_marks (clock : Txid → Z) o s s' e :
  refresh_after_sync clock o s = (s', Ok e) →
  same_marks s s' ∧ inner s' = inner s ∧ (e = None → applied_error o = None).
Proof.
  unfold refresh_after_sync. destruct (applied_any o).
  2:{ intros [= <- <-]. by split; [split|]. }
  intros (s1 & updated & Hup%attempt_Ok & Hrest)%cmd_bind_Ok.
  apply cmd_bind_Ok in Hrest as (s2 & pr & Hpr%attempt_Ok & Hret). injection Hret as <- <-.
  apply update_payments_marks in Hup as [M1 H1]. apply persist_metrics_marks in Hpr as [M2 H2].
  split_and!; [by eapply same_marks_trans|congruence|by destruct updated].
Qed.

Lemma apply_primary_marks K p now u err s s' evs b err' :
  apply_primary now u err s = (s', Ok (evs, b, err')) → keys_are K p (inner s) →
  keys_are K p (inner s') ∧
  (∀ a, should_use_incremental_sync a s' = should_use_incremental_sync a s) ∧
  (err' = None → err = None ∧
     (is_Some u → latest_onchain_wallet_sync_timestamp (node_metrics s') = now)).
Proof.
  intros Hr Hk. destruct u as [u|]; simpl in Hr.
  2:{ injection Hr as <- <- <- <-. split_and!; [done..|]. intros. split; [done|by intros []]. }
  apply cmd_bind_Ok in Hr as (s1 & applied & Hup%attempt_Ok & Hrest).
  apply (apply_update_marks K p) in Hup as [M Hk1]; [|done].
  assert (Hi := λ a, same_marks_incremental a _ _ M).
  destruct applied as [evs'|e]; injection Hrest as <- <- <- <-.
  - split_and!; [done|intros a; by rewrite <-Hi|by intros ->].
  - split_and!; [done|done|by destruct err].
Qed.

(** ** The answers gathered *)

Lemma gathered_results joined g :
  ∀ a r, (a, r) ∈ additional_results (foldl gather_one g joined) ↔
    (a, r) ∈ additional_results g ∨ Joined (Some a) r ∈ joined.
Proof.
  revert g. induction joined as [|j joined IH]; intros g a r; simpl.
  { rewrite elem_of_nil. naive_solver. }
  rewrite IH, elem_of_cons. destruct j as [[a'|] [u|e]|]; simpl;
    rewrite ?elem_of_app, ?list_elem_of_singleton; naive_solver.
Qed.

Lemma gathered_errors joined g :
  let g' := foldl gather_one g joined in
  (task_error g' = None → task_error g = None ∧ TaskPanicked ∉ joined) ∧
  (primary_error g' = None → primary_error g = None).
Proof.
  revert g. induction joined as [|j joined IH]; intros g; simpl.
  { split; [intros; split; [done|by intros ?%elem_of_nil]|done]. }
  destruct (IH (gather_one g j)) as [Ht Hp]. split.
  - intros [H1 H2]%Ht. destruct j as [[a'|] [u|e]|]; simpl in *;
      [..|done]; (split; [done|]); by intros [|]%elem_of_cons.
  - intros H1%Hp. by destruct j as [[a'|] [u|e]|].
Qed.

Lemma gather_spec joined :
  (∀ a r, (a, r) ∈ additional_results (gather joined) ↔ Joined (Some a) r ∈ joined) ∧
  (task_error (gather joined) = None → TaskPanicked ∉ joined) ∧
  (primary_error (gather joined) = None → is_Some (primary_update (gather joined))).
Proof.
  set (g0 := mkGathered None None None []).
  assert (Hr : ∀ a r, (a, r) ∈ additional_results (foldl gather_one g0 joined) ↔
                 Joined (Some a) r ∈ joined)
    by (intros; rewrite gathered_results; simpl; rewrite elem_of_nil; tauto).
  destruct (gathered_errors joined g0) as [Ht _].
  unfold gather. fold g0.
  destruct (primary_update _) as [u|] eqn:Hu; [|destruct (primary_error _) as [e|] eqn:He];
    (split_and!; [exact Hr|apply Ht|simpl; rewrite ?Hu, ?He; eauto; done]).
Qed.

Lemma collected_accounts l s reqs :
  collect_additional_sync_requests l s = Ok reqs → reqs.*1 = l.
Proof.
  intros H%try_map_Ok. induction H as [|a [a' rq] l reqs Hone _ IH]; [done|]. simpl. f_equal; [|done].
  unfold collect_request in Hone. destruct (if should_use_incremental_sync a s then _ else _);
    [by injection Hone as <- _|done..].
Qed.

(** The task of an account ended, with an answer or by a panic. *)
Definition answered a (joined : list join_result) : Prop :=
  (∃ r, Joined (Some a) r ∈ joined) ∨ TaskPanicked ∈ joined.

Lemma or_error_None o o' : or_error o o' = None ↔ o = None ∧ o' = None.
Proof. destruct o; simpl; naive_solver. Qed.

(** What the applied answers leave, for the answers [joined]. *)
Lemma apply_sync_marks K p now clock joined s s' o :
  let g := gather joined in
  apply_wallet_sync_results now clock (primary_update g) (primary_error g) (task_error g)
    (additional_results g) s = (s', Ok o) →
  keys_are K p (inner s) →
  (∀ a, should_use_incremental_sync a s = true → should_use_incremental_sync a s' = true) ∧
  (∀ a, should_use_incremental_sync a s' = true →
     should_use_incremental_sync a s = true ∨ ∃ u, Joined (Some a) (inl u) ∈ joined) ∧
  (applied_error o = None →
     latest_onchain_wallet_sync_timestamp (node_metrics s') = now ∧
     ∀ a, answered a joined → a ∈ K → markable (clock a) a = true →
       should_use_incremental_sync a s' = true).
Proof.
  intros g Hr Hk. destruct (gather_spec joined) as (Hres & Htask & Hprim). fold g in Hres, Htask, Hprim.
  apply cmd_bind_Ok in Hr as (s1 & [[evs b] err] & Hp & Hrest).
  apply (apply_primary_marks K p) in Hp as (Hk1 & Hi & Hnow); [|done].
  apply cmd_bind_Ok in Hrest as (s2 & add & Ha & Hret). injection Hret as <- <-.
  apply (apply_additional_marked K p) in Ha as [M Herr]; [|done].
  split_and!; simpl.
  - intros a Hs. apply (marked_keep _ _ _ _ _ M). by rewrite Hi.
  - intros a [Hs|[u Hu]]%(marked_new _ _ _ _ _ M); [left; by rewrite <-Hi|right].
    exists u. by apply Hres.
  - intros [[He Ht]%or_error_None Hadd]%or_error_None. destruct (Hnow He) as [Hpe Hlast].
    split; [rewrite (marked_primary _ _ _ _ _ M); by apply Hlast, Hprim|].
    intros a [[r Hj]|Hj] Hin Hmark; [|by destruct (Htask Ht)].
    destruct (Herr Hadd) as [_ Hall]. apply Hres in Hj. by eapply Hall.
Qed.

(** The results of other calls are looked at, so these steps return no error. *)
Lemma bind_not_Err {St A B} (m : cmd St Error A) (f : A → cmd St Error B) st :
  (∀ st' e, m st ≠ (st', Err e)) → (∀ v st1 st' e, f v st1 ≠ (st', Err e)) →
  ∀ st' e, (m ≫= f) st ≠ (st', Err e).
Proof.
  intros Hm Hf st' e. unfold mbind, cmd_bind. destruct (m st) as [st1 [v|e1|]] eqn:H1; [apply Hf|..|done].
  intros _. by eapply Hm.
Qed.

Lemma refresh_not_Err (clock : Txid → Z) o s s' e : refresh_after_sync clock o s ≠ (s', Err e).
Proof.
  unfold refresh_after_sync. destruct (applied_any o); [|done].
  revert s' e. apply bind_not_Err; [intros ??; apply attempt_not_Err|]. intros v s1.
  by apply bind_not_Err; [intros ??; apply attempt_not_Err|].
Qed.

Lemma apply_wallet_sync_not_Err now clock pu pe te rs s s' e :
  apply_wallet_sync_results now clock pu pe te rs s ≠ (s', Err e).
Proof.
  revert s' e. apply bind_not_Err.
  - unfold apply_primary. destruct pu as [u|]; [|done].
    apply bind_not_Err; [intros ??; apply attempt_not_Err|]. by intros [evs|e'] s1 s' e.
  - intros [[evs b] err] s1. apply bind_not_Err; [|done].
    unfold apply_additional_sync_results. generalize (mkAdditional [] false None).
    revert s1. induction rs as [|[a r] rs IH]; intros s1 acc; [done|]. simpl.
    apply bind_not_Err; [|intros acc' s2; apply IH].
    destruct r as [u|e1]; [|done]. simpl.
    apply bind_not_Err; [intros ??; apply attempt_not_Err|]. by intros [[evs'|]|e'] s2 s' e.
Qed.

(** A failed synchronisation left the wallets as they were: only the requests can fail. *)
Lemma sync_inner_inv i s s' r :
  sync_onchain_wallet_inner i s = (s', r) → no_panic r →
  match r with
  | Ok outcome => ∃ reqs pr s1 o,
      collect_additional_sync_requests (additional_wallet_accounts (address_type_runtime_config s)) s
        = Ok reqs ∧
      (let g := gather (answers i reqs pr) in
       apply_wallet_sync_results (primary_time i) (account_time i) (primary_update g)
         (primary_error g) (task_error g) (additional_results g) s = (s1, Ok o)) ∧
      refresh_after_sync (payment_time i) o s1 = (s', Ok (sync_error outcome))
  | _ => s' = s
  end.
Proof.
  unfold sync_onchain_wallet_inner, with_state, lift. unfold mbind at 1, cmd_bind at 1.
  destruct (collect_additional_sync_requests _ s) as [reqs|e|] eqn:Hreqs;
    [|by intros [= <- <-]..].
  unfold mbind at 1, cmd_bind at 1.
  destruct (map_err _ _) as [primary|e|]; [|by intros [= <- <-]..].
  set (pr := if bool_decide _ then _ else _). set (g := gather _).
  unfold mbind at 1, cmd_bind at 1.
  destruct (apply_wallet_sync_results _ _ _ _ _ _ s) as [s1 [o|e|]] eqn:Happ.
  2:{ exfalso. revert Happ. apply apply_wallet_sync_not_Err. }
  2:{ by intros [= <- <-]. }
  unfold mbind at 1, cmd_bind at 1.
  destruct (refresh_after_sync _ o s1) as [s2 [err|e|]] eqn:Href.
  2:{ exfalso. revert Href. apply refresh_not_Err. }
  2:{ by intros [= <- <-]. }
  intros [= <- <-] _. by exists reqs, pr, s1, o.
Qed.

(** Which accounts the next synchronisation asks for incrementally: none is forgotten,
    and an account is added only if the server answered for it; if the synchronisation
    reports no error, every monitored account that is loaded is added, if its task ended
    and the clock could be read, and the primary's time is the time of this
    synchronisation.  An account without an answer is scanned in full again. *)
Theorem sync_marks_exactly (i : sync_inputs) K p s s' outcome :
  sync_onchain_wallet i s = (s', Ok outcome) → keys_are K p (inner s) →
  (∀ reqs pr a, a ∈ reqs.*1 → answered a (answers i reqs pr)) →
  (∀ a, should_use_incremental_sync a s = true → should_use_incremental_sync a s' = true) ∧
  (∀ a, should_use_incremental_sync a s' = true →
     should_use_incremental_sync a s = true ∨
     ∃ reqs pr u, Joined (Some a) (inl u) ∈ answers i reqs pr) ∧
  (sync_error outcome = None →
     latest_onchain_wallet_sync_timestamp (node_metrics s') = primary_time i ∧
     ∀ a, a ∈ additional_wallet_accounts (address_type_runtime_config s) → a ∈ K →
       markable (account_time i a) a = true → should_use_incremental_sync a s' = true).
Proof.
  intros Hr Hk Hans. apply cmd_bind_Ok in Hr as (s1 & r & Hin%attempt_Ok & Hret).
  injection Hret as <- <-. apply sync_inner_inv in Hin; [|by destruct r].
  destruct r as [outcome|e]; [|subst s1; split_and!; [done|by left|done]].
  destruct Hin as (reqs & pr & s2 & o & Hreqs & Happ & Href).
  apply refresh_marks in Href as (M & _ & Herr).
  destruct (apply_sync_marks K p _ _ _ _ _ _ Happ Hk) as (Hkeep & Hnew & Hall).
  assert (Hi := λ a, same_marks_incremental a _ _ M).
  split_and!.
  - intros a Ha. rewrite Hi. by apply Hkeep.
  - intros a. rewrite Hi. intros [Ha|[u Hu]]%Hnew; [by left|right; by exists reqs, pr, u].
  - intros He%Herr. destruct (Hall He) as [Hnow Hacc].
    split; [by rewrite (marks_metrics _ _ M)|].
    intros a Ha Hin Hmk. rewrite Hi. apply Hacc; [|done..].
    apply Hans. by rewrite (collected_accounts _ _ _ Hreqs).
Qed.

End sync.
End ChainSync.
