(* ===== verification/Mempool.v ===== *)
(** * Following the mempool of a full node ([BitcoindClient] of [src/chain/bitcoind.rs])

    The client keeps the mempool's entries and transactions and hands the wallet those it
    has not handed out yet.  The answers of the full node are inputs; [None] is a failed
    call. *)

From S2P Require Import Prelude Types Bdk.

Record MempoolEntry := mkEntry { entry_txid : Txid; entry_time : Z; entry_height : Z }.

(** What the full node answers during one update. *)
Record rpc_answers := mkAnswers {
  raw_mempool : option (list Txid);
  (** Its time and height. *)
  mempool_entry : Txid → option (option (Z * Z));
  raw_transaction : Txid → option (option Transaction);
}.

Record MempoolUpdate := mkMempoolUpdate {
  update_transactions : list (Transaction * Z);
  update_evicted : list (Txid * Z);
  next_timestamp : option Z;
}.

(** [std::io::Error] *)
Inductive io_error := IoError.

Definition should_emit_mempool_entry (entry_time entry_height best_processed_height watermark : Z)
    (replay_all : bool) : bool :=
  replay_all || (best_processed_height <? entry_height) || (watermark <=? entry_time).

Module BitcoindClient.
Section client.
Context {BTC : Bitcoin} {OT : IterOrder Txid}.

Record BitcoindClient := mkClient {
  latest_mempool_timestamp : Z;
  mempool_entries_cache : gmap Txid MempoolEntry;
  mempool_txs_cache : gmap Txid (Transaction * Z);
}.
Implicit Types (c : BitcoindClient) (t : Txid) (e : MempoolEntry).
Abbreviation ccmd A := (cmd BitcoindClient io_error A).

Definition new : BitcoindClient :=
  {| latest_mempool_timestamp := 0; mempool_entries_cache := ∅; mempool_txs_cache := ∅ |}.

Definition set_timestamp (z : Z) c := mkClient z (mempool_entries_cache c) (mempool_txs_cache c).
Definition set_entries (m : gmap Txid MempoolEntry) c :=
  mkClient (latest_mempool_timestamp c) m (mempool_txs_cache c).
Definition set_txs (m : gmap Txid (Transaction * Z)) c :=
  mkClient (latest_mempool_timestamp c) (mempool_entries_cache c) m.

(** ** The entries *)

Definition get_mempool_entry (r : rpc_answers) t : option (option MempoolEntry) :=
  fmap (M := option) (λ '(time, height), mkEntry t time height) <$> mempool_entry r t.

Definition update_entry (r : rpc_answers) t : ccmd unit :=
  with_state (λ c,
    if decide (is_Some (mempool_entries_cache c !! t)) then mret tt
    else
      entry ← lift (ok_or (get_mempool_entry r t) IoError);
      match entry with
      | Some e => modify (λ c, set_entries (<[t := e]> (mempool_entries_cache c)) c)
      | None => mret tt
      end).

Definition update_mempool_entries_cache (r : rpc_answers) : ccmd unit :=
  mempool_txids ← lift (ok_or (raw_mempool r) IoError);
  _ ← modify (λ c, set_entries
        (filter (λ te : Txid * MempoolEntry, te.1 ∈ mempool_txids) (mempool_entries_cache c)) c);
  for_each (update_entry r) mempool_txids.

(** ** The transactions *)

(** The loop over the entries, with the latest time and what is to be emitted. *)
Fixpoint emit_entries (r : rpc_answers) (best_processed_height prev_mempool_time : Z)
    (replay_all : bool) (entries : list (Txid * MempoolEntry)) (latest_time : Z)
    (txs_to_emit : list (Transaction * Z)) : ccmd (Z * list (Transaction * Z)) :=
  match entries with
  | [] => mret (latest_time, txs_to_emit)
  | (t, e) :: entries =>
      let latest_time := if latest_time <? entry_time e then entry_time e else latest_time in
      let continue := emit_entries r best_processed_height prev_mempool_time replay_all entries
                        latest_time in
      if negb (should_emit_mempool_entry (entry_time e) (entry_height e) best_processed_height
                 prev_mempool_time replay_all)
      then continue txs_to_emit
      else
        with_state (λ c,
          match mempool_txs_cache c !! t with
          | Some cached => continue (txs_to_emit ++ [cached])
          | None =>
              tx ← lift (ok_or (raw_transaction r (entry_txid e)) IoError);
              match tx with
              | Some tx =>
                  _ ← modify (λ c,
                        set_txs (<[entry_txid e := (tx, entry_time e)]> (mempool_txs_cache c)) c);
                  continue (txs_to_emit ++ [(tx, entry_time e)])
              | None => continue txs_to_emit
              end
          end)
  end.

Definition get_mempool_transactions_and_timestamp_at_height (r : rpc_answers)
    (best_processed_height : Z) (replay_all : bool) :
    ccmd (list (Transaction * Z) * option Z) :=
  with_state (λ c,
    let prev_mempool_time := latest_mempool_timestamp c in
    _ ← update_mempool_entries_cache r;
    _ ← modify (λ c, set_txs
          (filter (λ tt : Txid * (Transaction * Z), is_Some (mempool_entries_cache c !! tt.1))
             (mempool_txs_cache c)) c);
    with_state (λ c,
      '(latest_time, txs_to_emit) ←
        emit_entries r best_processed_height prev_mempool_time replay_all
          (iter (mempool_entries_cache c)) prev_mempool_time [];
      mret (txs_to_emit, match txs_to_emit with [] => None | _ => Some latest_time end))).

Definition get_evicted_mempool_txids_and_timestamp (bdk_unconfirmed_txids : list (Txid * Z))
    (timestamp : Z) c : list (Txid * Z) :=
  (λ '(t, last_seen), (t, Z.max timestamp last_seen)) <$>
    List.filter (λ tl, negb (bool_decide (is_Some (mempool_entries_cache c !! tl.1))))
      bdk_unconfirmed_txids.

(** [now] is the system time, where it is after 1970. *)
Definition get_updated_mempool_transactions (r : rpc_answers) (now : option Z)
    (best_processed_height : Z) (bdk_unconfirmed_txids : list (Txid * Z)) (replay_all : bool) :
    ccmd MempoolUpdate :=
  '(transactions, next_timestamp) ←
    get_mempool_transactions_and_timestamp_at_height r best_processed_height replay_all;
  with_state (λ c,
    let sync_timestamp := default (latest_mempool_timestamp c) now in
    let eviction_timestamp :=
      Z.max (default (latest_mempool_timestamp c) next_timestamp) sync_timestamp in
    mret (mkMempoolUpdate transactions
            (get_evicted_mempool_txids_and_timestamp bdk_unconfirmed_txids eviction_timestamp c)
            next_timestamp)).

Definition commit_mempool_timestamp (timestamp : option Z) c : BitcoindClient :=
  match timestamp with
  | None => c
  | Some timestamp => set_timestamp (Z.max (latest_mempool_timestamp c) timestamp) c
  end.

(** ** Following the mempool

    One update with what becomes of it: the wallet takes it ([applied]), or its
    transactions are not handed out.  [handed] is what the wallet has been given since
    the last replay it took; [polls] are the updates since then, that replay included, each
    with the time of the latest entry that was handed out before it. *)
Record polling := mkPoll {
  answers : rpc_answers;
  poll_time : option Z;
  poll_height : Z;
  unconfirmed : list (Txid * Z);
  replay : bool;
  applied : bool;
}.
Record following := mkFollowing {
  client : BitcoindClient;
  handed : gset Txid;
  polls : list (Z * polling);
}.
Implicit Types (p : polling) (f : following).

Definition txids (txs : list (Transaction * Z)) : gset Txid :=
  list_to_set ((λ tx, compute_txid tx.1) <$> txs).

Definition follow p f : following * option MempoolUpdate :=
  let w := latest_mempool_timestamp (client f) in
  match get_updated_mempool_transactions (answers p) (poll_time p) (poll_height p) (unconfirmed p)
          (replay p) (client f) with
  | (c, Ok u) =>
      if applied p then
        (mkFollowing (commit_mempool_timestamp (next_timestamp u) c)
           ((if replay p then ∅ else handed f) ∪ txids (update_transactions u))
           ((if replay p then [] else polls f) ++ [(w, p)]), Some u)
      else (mkFollowing c (handed f) (polls f ++ [(w, p)]), None)
  | (c, _) => (mkFollowing c (handed f) (polls f ++ [(w, p)]), None)
  end.

(** A transaction is returned for its own id. *)
Definition honest (r : rpc_answers) : Prop :=
  ∀ t tx, raw_transaction r t = Some (Some tx) → compute_txid tx = t.

Inductive followed : following → Prop :=
| followed_new : followed (mkFollowing new ∅ [])
| followed_poll f p : followed f → honest (answers p) → followed (follow p f).1.

(** The full node had no transaction for [t] when it was asked. *)
Definition missed f t : Prop := ∃ w p, (w, p) ∈ polls f ∧ raw_transaction (answers p) t = Some None.
(** The full node named a time for [t] that was earlier than that of an entry that had
    been handed out by then. *)
Definition late f t : Prop :=
  ∃ w p time height, (w, p) ∈ polls f ∧
    mempool_entry (answers p) t = Some (Some (time, height)) ∧ time < w.
Definition excepted f t : Prop := missed f t ∨ late f t.

(** Every entry was handed out, is excepted, or is due: its time is no earlier than [w]. *)
Definition due (w : Z) (H : gset Txid) (M : Txid → Prop) c : Prop :=
  ∀ t e, mempool_entries_cache c !! t = Some e →
    entry_txid e = t ∧ (t ∈ H ∨ M t ∨ w ≤ entry_time e).
Definition own_txids c : Prop :=
  ∀ t tx z, mempool_txs_cache c !! t = Some (tx, z) → compute_txid tx = t.

Lemma get_mempool_entry_Some r t e :
  get_mempool_entry r t = Some (Some e) →
  ∃ time height, mempool_entry r t = Some (Some (time, height)) ∧ e = mkEntry t time height.
Proof.
  unfold get_mempool_entry. destruct (mempool_entry r t) as [[[time height]|]|]; [|done..].
  intros [= <-]. by eexists _, _.
Qed.

(** The loop that fills the cache, from entries [m]. *)
Lemma update_entries_due (r : rpc_answers) (ids : list Txid) (w : Z) (H : gset Txid) (M : Txid → Prop) (m : gmap Txid MempoolEntry) c c' (res : outcome io_error unit) :
  for_each (update_entry r) ids c = (c', res) →
  (∀ t, t ∈ ids → is_Some (m !! t) → is_Some (mempool_entries_cache c !! t)) →
  (∀ t time height, m !! t = None → mempool_entry r t = Some (Some (time, height)) → M t ∨ w ≤ time) →
  due w H M c →
  due w H M c' ∧ latest_mempool_timestamp c' = latest_mempool_timestamp c ∧
  mempool_txs_cache c' = mempool_txs_cache c ∧
  (∀ t, is_Some (mempool_entries_cache c !! t) → is_Some (mempool_entries_cache c' !! t)) ∧
  (∀ t, is_Some (mempool_entries_cache c' !! t) → is_Some (mempool_entries_cache c !! t) ∨ t ∈ ids) ∧
  (res = Ok tt → ∀ t, t ∈ ids →
     is_Some (mempool_entries_cache c' !! t) ∨ mempool_entry r t = Some None).
Proof.
  revert c. induction ids as [|t ids IH]; intros c; simpl.
  { intros [= <- <-] _ _ Hd. split_and!; [done..|by left|]. by intros _ t ?%elem_of_nil. }
  intros Hrun Hm Ht Hd. unfold mbind, cmd_bind in Hrun.
  destruct (update_entry r t c) as [c1 r1] eqn:H1.
  assert (Hone : (c1 = c ∧ (r1 = Ok tt → is_Some (mempool_entries_cache c !! t) ∨ mempool_entry r t = Some None)) ∨
    ∃ e time height, m !! t = None ∧ mempool_entry r t = Some (Some (time, height)) ∧
      e = mkEntry t time height ∧ r1 = Ok tt ∧
      c1 = set_entries (<[t := e]> (mempool_entries_cache c)) c).
  { revert H1. unfold update_entry, with_state. case_decide as Hc.
    { intros [= <- <-]. left. auto. }
    unfold mbind, cmd_bind, lift.
    destruct (get_mempool_entry r t) as [[e|]|] eqn:He; simpl; intros [= <- <-].
    - right. apply get_mempool_entry_Some in He as (time & height & He & ->).
      exists (mkEntry t time height), time, height. split_and!; [|done..].
      destruct (m !! t) eqn:Hmt; [|done]. destruct Hc. apply Hm; [by left|by eexists].
    - left. split; [done|]. intros _. right. unfold get_mempool_entry in He.
      by destruct (mempool_entry r t) as [[[]|]|].
    - by left. }
  destruct Hone as [[-> Hr1]|(e & time & height & Hmt & He & -> & -> & ->)].
  - destruct r1 as [[]|e|]; [|injection Hrun as <- <-; split_and!; [done..|by left|done]..].
    destruct (IH c Hrun) as (H1' & H2 & H3 & H4 & H5 & H6); [|done..|].
    { intros t' Ht'. apply Hm. by right. }
    split_and!; [done..| |].
    + intros t' [?|?]%H5; [by left|right; by right].
    + intros Hres t' [->|Ht']%elem_of_cons; [|by apply H6].
      destruct (Hr1 eq_refl) as [?|?]; [left; by apply H4|by right].
  - destruct (IH _ Hrun) as (H1' & H2 & H3 & H4 & H5 & H6).
    { intros t' Ht' Hs. simpl. apply lookup_insert_is_Some'. right. apply Hm; [by right|done]. }
    { done. }
    { intros t' e'. simpl. intros [[<- <-]|[_ ?]]%lookup_insert_Some; [|by apply Hd].
      split; [done|]. right. simpl. by apply (Ht t time height). }
    simpl in *. split_and!; [done..| | |].
    + intros t' Hs. apply H4, lookup_insert_is_Some'. by right.
    + intros t' Hs%H5. destruct Hs as [Hs|?]; [|right; by right].
      apply lookup_insert_is_Some' in Hs as [->|?]; [right; by left|by left].
    + intros Hres t' [->|Ht']%elem_of_cons; [|by apply H6]. left.
      apply H4, lookup_insert_is_Some'. by left.
Qed.

(** The whole refresh of the entries. *)
Lemma update_cache_due (r : rpc_answers) (H : gset Txid) (M : Txid → Prop) c c' res :
  update_mempool_entries_cache r c = (c', res) →
  (∀ t time height, mempool_entry r t = Some (Some (time, height)) →
     M t ∨ latest_mempool_timestamp c ≤ time) →
  due (latest_mempool_timestamp c) H M c →
  due (latest_mempool_timestamp c) H M c' ∧
  latest_mempool_timestamp c' = latest_mempool_timestamp c ∧
  mempool_txs_cache c' = mempool_txs_cache c ∧
  (res = Ok tt → ∃ ids, raw_mempool r = Some ids ∧
     (∀ t, is_Some (mempool_entries_cache c' !! t) → t ∈ ids) ∧
     (∀ t, t ∈ ids → is_Some (mempool_entries_cache c' !! t) ∨ mempool_entry r t = Some None)).
Proof.
  intros Hrun Ht Hd. unfold update_mempool_entries_cache in Hrun.
  unfold mbind at 1, cmd_bind at 1, lift in Hrun.
  destruct (raw_mempool r) as [ids|] eqn:Hids; simpl in Hrun.
  2:{ injection Hrun as <- <-. by split_and!. }
  set (m := filter (λ te : Txid * MempoolEntry, te.1 ∈ ids) (mempool_entries_cache c)).
  change (for_each (update_entry r) ids (set_entries m c) = (c', res)) in Hrun.
  assert (Hsub : ∀ t e, m !! t = Some e ↔ mempool_entries_cache c !! t = Some e ∧ t ∈ ids)
    by (intros; unfold m; by rewrite map_lookup_filter_Some).
  destruct (update_entries_due r ids (latest_mempool_timestamp c) H M (mempool_entries_cache c)
    _ _ _ Hrun) as (H1 & H2 & H3 & _ & H5 & H6).
  - intros t Hin [e He]. exists e. by apply Hsub.
  - intros t time height _. apply Ht.
  - intros t e [He _]%Hsub. by apply Hd.
  - split_and!; [done..|]. intros ->. exists ids. split_and!; [done| |by apply H6].
    intros t [[e He]|?]%H5; [|done]. by apply Hsub in He as [_ ?].
Qed.

(** The loop over the entries: what it emits, whatever the order. *)
Lemma emit_entries_spec (r : rpc_answers) best prev rep entries latest out c c' res :
  emit_entries r best prev rep entries latest out c = (c', res) →
  honest r → own_txids c → (∀ t e, (t, e) ∈ entries → entry_txid e = t) →
  mempool_entries_cache c' = mempool_entries_cache c ∧
  latest_mempool_timestamp c' = latest_mempool_timestamp c ∧ own_txids c' ∧
  (∀ latest' out', res = Ok (latest', out') →
     txids out ⊆ txids out' ∧
     ∀ t e, (t, e) ∈ entries →
       should_emit_mempool_entry (entry_time e) (entry_height e) best prev rep = true →
       t ∈ txids out' ∨ raw_transaction r t = Some None).
Proof.
  revert latest out c. induction entries as [|[t e] entries IH]; intros latest out c; simpl.
  { intros [= <- <-] _ Ho _. split_and!; [done..|]. intros ?? [= <- <-]. split; [done|].
    by intros ?? ?%elem_of_nil. }
  intros Hrun Hh Ho Hid.
  assert (Hid' : ∀ t e, (t, e) ∈ entries → entry_txid e = t) by (intros; apply Hid; by right).
  assert (Het : entry_txid e = t) by (apply Hid; by left). rewrite Het in Hrun.
  destruct (should_emit_mempool_entry _ _ _ _ _) eqn:Hs; simpl in Hrun.
  2:{ destruct (IH _ _ _ Hrun Hh Ho Hid') as (H1 & H2 & H3 & H4). split_and!; [done..|].
      intros l' out' Hres. destruct (H4 l' out' Hres) as [Hsub Hall]. split; [done|].
      intros t' e' [[= -> ->]|?]%elem_of_cons; [congruence|by apply Hall]. }
  unfold with_state in Hrun.
  assert (Hgo : ∀ tx z c0, compute_txid tx = t → own_txids c0 →
    emit_entries r best prev rep entries
      (if latest <? entry_time e then entry_time e else latest) (out ++ [(tx, z)]) c0 = (c', res) →
    mempool_entries_cache c' = mempool_entries_cache c0 ∧
    latest_mempool_timestamp c' = latest_mempool_timestamp c0 ∧ own_txids c' ∧
    (∀ latest' out', res = Ok (latest', out') →
       txids out ⊆ txids out' ∧
       ∀ t' e', (t', e') ∈ (t, e) :: entries →
         should_emit_mempool_entry (entry_time e') (entry_height e') best prev rep = true →
         t' ∈ txids out' ∨ raw_transaction r t' = Some None)).
  { intros tx z c0 Htx Ho0 Hrun0. destruct (IH _ _ _ Hrun0 Hh Ho0 Hid') as (H1 & H2 & H3 & H4).
    split_and!; [done..|]. intros l' out' Hres. destruct (H4 l' out' Hres) as [Hsub Hall].
    unfold txids in Hsub at 1. rewrite fmap_app, list_to_set_app_L in Hsub. simpl in Hsub.
    split; [unfold txids at 1; set_solver|].
    intros t' e' [[= -> ->]|?]%elem_of_cons; [|by apply Hall]. intros _. left. rewrite Htx in Hsub.
    set_solver. }
  destruct (mempool_txs_cache c !! t) as [[tx z]|] eqn:Hc; [by apply (Hgo tx z c); [by eapply Ho|..]|].
  unfold mbind, cmd_bind, lift in Hrun.
  destruct (raw_transaction r t) as [[tx|]|] eqn:Hraw; simpl in Hrun.
  - apply (Hgo tx (entry_time e) (set_txs (<[t := (tx, entry_time e)]> (mempool_txs_cache c)) c));
      [by apply Hh| |done].
    intros t' tx' z'. simpl. intros [[<- [= <- <-]]|[_ ?]]%lookup_insert_Some; [by apply Hh|by eapply Ho].
  - destruct (IH _ _ _ Hrun Hh Ho Hid') as (H1 & H2 & H3 & H4). split_and!; [done..|].
    intros l' out' Hres. destruct (H4 l' out' Hres) as [Hsub Hall]. split; [done|].
    intros t' e' [[= -> ->]|?]%elem_of_cons; [by right|by apply Hall].
  - injection Hrun as <- <-. by split_and!.
Qed.
(** One update, whether it succeeds or not. *)
Lemma get_updated_due (r : rpc_answers) (now : option Z) (best : Z) (unconf : list (Txid * Z)) (rep : bool)
    (H : gset Txid) (M : Txid → Prop) c c' res :
  get_updated_mempool_transactions r now best unconf rep c = (c', res) →
  honest r →
  (∀ t time height, mempool_entry r t = Some (Some (time, height)) →
     M t ∨ latest_mempool_timestamp c ≤ time) →
  due (latest_mempool_timestamp c) H M c → own_txids c →
  due (latest_mempool_timestamp c) H M c' ∧
  latest_mempool_timestamp c' = latest_mempool_timestamp c ∧ own_txids c' ∧
  (∀ u, res = Ok u →
     (∃ ids, raw_mempool r = Some ids ∧
       (∀ t, is_Some (mempool_entries_cache c' !! t) → t ∈ ids) ∧
       (∀ t, t ∈ ids → is_Some (mempool_entries_cache c' !! t) ∨ mempool_entry r t = Some None)) ∧
     (∀ t, is_Some (mempool_entries_cache c' !! t) →
        t ∈ txids (update_transactions u) ∨ raw_transaction r t = Some None ∨
        rep = false ∧ (t ∈ H ∨ M t)) ∧
     ∃ ts, default ts now ≤ ts ∧ update_evicted u = get_evicted_mempool_txids_and_timestamp unconf ts c').
Proof.
  intros Hrun Hh Ht Hd Ho. unfold get_updated_mempool_transactions,
    get_mempool_transactions_and_timestamp_at_height, with_state, mbind, cmd_bind in Hrun.
  destruct (update_mempool_entries_cache r c) as [c1 r1] eqn:H1.
  apply (update_cache_due r H M) in H1 as (Hd1 & Hw1 & Htx1 & Hids); [|done..].
  assert (Ho1 : own_txids c1) by (unfold own_txids; by rewrite Htx1).
  destruct r1 as [[]|e|]; [|injection Hrun as <- <-; by split_and!..].
  cbn beta iota in Hrun. unfold modify in Hrun. cbn beta iota in Hrun.
  set (c2 := set_txs _ c1) in Hrun.
  assert (Ho2 : own_txids c2).
  { intros t tx z. unfold c2. simpl. intros [? _]%map_lookup_filter_Some. by eapply Ho1. }
  destruct (emit_entries _ _ _ _ _ _ _ c2) as [c3 r3] eqn:H3.
  apply emit_entries_spec in H3 as (He3 & Hw3 & Ho3 & Hout); [|done..|].
  2:{ intros t e Hin%elem_of_iter. by apply (Hd1 t e). }
  assert (Hec : mempool_entries_cache c3 = mempool_entries_cache c1) by done.
  assert (Hd3 : due (latest_mempool_timestamp c) H M c3) by (intros t e; rewrite Hec; apply Hd1).
  assert (Hw : latest_mempool_timestamp c3 = latest_mempool_timestamp c) by (by rewrite Hw3).
  destruct r3 as [[latest' out]|e|]; [|injection Hrun as <- <-; by split_and!..].
  injection Hrun as <- <-. split_and!; [done..|]. intros u [= <-]. simpl.
  destruct (Hids eq_refl) as (ids & Hraw & Hin & Hall).
  destruct (Hout latest' out eq_refl) as [_ Hemit]. rewrite Hec. split_and!.
  - by exists ids.
  - intros t [e He]. destruct (Hd1 t e He) as [_ Hcase].
    destruct (should_emit_mempool_entry (entry_time e) (entry_height e) best
      (latest_mempool_timestamp c) rep) eqn:Hs.
    { destruct (Hemit t e) as [?|?]; [by apply elem_of_iter|done|by left|right; by left]. }
    unfold should_emit_mempool_entry in Hs. apply orb_false_iff in Hs as [[Hrep _]%orb_false_iff Hle].
    right; right. apply Z.leb_gt in Hle. split; [done|]. destruct Hcase as [?|[?|?]]; [by left|by right|lia].
  - eexists. split; [|done]. destruct now; simpl; lia.
Qed.

(** The exceptions of an update to come, those of before included. *)
Definition excepted_by p f t : Prop :=
  excepted (mkFollowing (client f) (handed f) (polls f ++ [(latest_mempool_timestamp (client f), p)])) t.

Lemma excepted_more f f' t :
  (∀ x, x ∈ polls f → x ∈ polls f') → excepted f t → excepted f' t.
Proof.
  intros Hsub [(w & p & Hp & ?)|(w & p & time & height & Hp & ?)]; [left|right].
  - exists w, p. auto.
  - exists w, p, time, height. auto.
Qed.

Lemma excepted_by_time p f t time height :
  mempool_entry (answers p) t = Some (Some (time, height)) →
  excepted_by p f t ∨ latest_mempool_timestamp (client f) ≤ time.
Proof.
  intros He. destruct (Z.le_gt_cases (latest_mempool_timestamp (client f)) time); [by right|left; right].
  exists (latest_mempool_timestamp (client f)), p, time, height. split_and!; [|done..]. cbn. set_solver.
Qed.

Lemma due_weaken w H M M' c : (∀ t, M t → M' t) → due w H M c → due w H M' c.
Proof. intros HM Hd t e He. destruct (Hd t e He) as [? [?|[?|?]]]; auto. Qed.

(** One update, from what holds throughout. *)
Lemma update_due p f c' res :
  get_updated_mempool_transactions (answers p) (poll_time p) (poll_height p) (unconfirmed p) (replay p)
    (client f) = (c', res) →
  honest (answers p) →
  due (latest_mempool_timestamp (client f)) (handed f) (excepted f) (client f) → own_txids (client f) →
  due (latest_mempool_timestamp (client f)) (handed f) (excepted_by p f) c' ∧
  latest_mempool_timestamp c' = latest_mempool_timestamp (client f) ∧ own_txids c' ∧
  (∀ u, res = Ok u →
     (∃ ids, raw_mempool (answers p) = Some ids ∧
       (∀ t, is_Some (mempool_entries_cache c' !! t) → t ∈ ids) ∧
       (∀ t, t ∈ ids → is_Some (mempool_entries_cache c' !! t) ∨ mempool_entry (answers p) t = Some None)) ∧
     (∀ t, is_Some (mempool_entries_cache c' !! t) →
        t ∈ txids (update_transactions u) ∨ raw_transaction (answers p) t = Some None ∨
        replay p = false ∧ (t ∈ handed f ∨ excepted_by p f t)) ∧
     ∃ ts, default ts (poll_time p) ≤ ts ∧
       update_evicted u = get_evicted_mempool_txids_and_timestamp (unconfirmed p) ts c').
Proof.
  intros Hr Hh Hd Ho. apply (get_updated_due _ _ _ _ _ (handed f) (excepted_by p f) _ _ _ Hr); [done| | |done].
  - intros t time height. apply excepted_by_time.
  - eapply due_weaken; [|exact Hd]. intros t. apply excepted_more. cbn. set_solver.
Qed.

Lemma commit_entries u c :
  mempool_entries_cache (commit_mempool_timestamp (next_timestamp u) c) = mempool_entries_cache c ∧
  mempool_txs_cache (commit_mempool_timestamp (next_timestamp u) c) = mempool_txs_cache c.
Proof. unfold commit_mempool_timestamp. by destruct (next_timestamp u). Qed.

(** What an update that the wallet takes hands out, up to the exceptions. *)
Lemma taken_handed p f f' u c' t :
  f' = mkFollowing (commit_mempool_timestamp (next_timestamp u) c')
         ((if replay p then ∅ else handed f) ∪ txids (update_transactions u))
         ((if replay p then [] else polls f) ++ [(latest_mempool_timestamp (client f), p)]) →
  t ∈ txids (update_transactions u) ∨ raw_transaction (answers p) t = Some None ∨
    replay p = false ∧ (t ∈ handed f ∨ excepted_by p f t) →
  t ∈ handed f' ∨ excepted f' t.
Proof.
  intros -> [?|[?|[-> [?|Hx]]]]; cbn; [left; set_solver|right; left|left; set_solver|by right].
  exists (latest_mempool_timestamp (client f)), p. split; [set_solver|done].
Qed.

(** What holds throughout. *)
Lemma followed_due f :
  followed f →
  due (latest_mempool_timestamp (client f)) (handed f) (excepted f) (client f) ∧ own_txids (client f).
Proof.
  induction 1 as [|f p _ [Hd Ho] Hh].
  { split; intros t e; simpl; [by intros ?%lookup_empty_Some|intros z; by intros ?%lookup_empty_Some]. }
  unfold follow.
  destruct (get_updated_mempool_transactions _ _ _ _ _ (client f)) as [c' r] eqn:Hr.
  apply update_due in Hr as (Hd' & Hw & Ho' & Hok); [|done..]. rewrite <- Hw in Hd'.
  destruct r as [u|e|]; [|done..]. destruct (applied p); [|done]. cbn [fst].
  destruct (commit_entries u c') as [Hc Hx]. split; [|unfold own_txids; cbn; by rewrite Hx].
  intros t e. cbn [client]. rewrite Hc. intros He. destruct (Hd' t e He) as [? _]. split; [done|].
  destruct (Hok u eq_refl) as (_ & Hall & _). specialize (Hall t (ex_intro _ e He)).
  apply (taken_handed p f _ u c' t eq_refl) in Hall as [?|?]; auto.
Qed.

(** C25. After an update that the wallet took, whatever updates failed or were not taken
    before: the entries are those of the full node's mempool, but for those the full node
    had no entry for when it was asked; every transaction in it has been handed to the wallet
    since the last replay, with two exceptions: the full node had no transaction for it when
    it was asked, since the watermark moves past it all the same, or it named a time for it
    before that of an entry that had been handed out; and exactly the wallet's unconfirmed
    transactions that are not in the mempool are evicted, no earlier than the wallet saw them
    and than now.  The full node returns a transaction for its own id; nothing is assumed of
    the times it names. *)
Theorem mempool_followed f p f' u :
  followed f → honest (answers p) →
  follow p f = (f', Some u) →
  let entries := mempool_entries_cache (client f') in
  (∃ ids, raw_mempool (answers p) = Some ids ∧
     (∀ t, is_Some (entries !! t) → t ∈ ids) ∧
     (∀ t, t ∈ ids → is_Some (entries !! t) ∨ mempool_entry (answers p) t = Some None)) ∧
  (∀ t, is_Some (entries !! t) → t ∈ handed f' ∨ missed f' t ∨ late f' t) ∧
  (∀ t, t ∈ (update_evicted u).*1 ↔ t ∈ (unconfirmed p).*1 ∧ entries !! t = None) ∧
  (∀ t z, (t, z) ∈ update_evicted u →
     (∃ seen, (t, seen) ∈ unconfirmed p ∧ seen ≤ z) ∧ default z (poll_time p) ≤ z).
Proof.
  intros Hf Hh. destruct (followed_due _ Hf) as [Hd Ho]. unfold follow.
  destruct (get_updated_mempool_transactions _ _ _ _ _ (client f)) as [c' r] eqn:Hr.
  apply update_due in Hr as (Hd' & Hw & Ho' & Hok); [|done..].
  destruct r as [u'|e|]; [|done..]. destruct (applied p); [|done]. intros [= <- ->].
  destruct (Hok u eq_refl) as (Hids & Hall & ts & Hts & Hev). cbn [client handed].
  destruct (commit_entries u c') as [Hc _]. rewrite Hc. cbv zeta. split_and!; [done|..].
  - intros t Ht. exact (taken_handed p f _ u c' t eq_refl (Hall t Ht)).
  - intros t. rewrite Hev. unfold get_evicted_mempool_txids_and_timestamp.
    rewrite list_elem_of_fmap. split.
    + intros ([t' z] & -> & ([t1 seen] & [= -> ->] & [Hin Hn]%list_elem_of_In%filter_In)%list_elem_of_fmap).
      simpl in *. apply negb_true_iff, bool_decide_eq_false, eq_None_not_Some in Hn.
      split; [|done]. apply list_elem_of_fmap. exists (t1, seen). split; [done|by apply list_elem_of_In].
    + intros [([t1 seen] & -> & Hin)%list_elem_of_fmap Hn]. simpl in Hn.
      exists (t1, Z.max ts seen). split; [done|]. apply list_elem_of_fmap. exists (t1, seen).
      split; [done|]. apply list_elem_of_In, filter_In. split; [by apply list_elem_of_In|].
      simpl. apply negb_true_iff, bool_decide_eq_false. by rewrite Hn.
  - intros t z. rewrite Hev. unfold get_evicted_mempool_txids_and_timestamp.
    intros ([t1 seen] & [= -> ->] & [Hin Hn]%list_elem_of_In%filter_In)%list_elem_of_fmap.
    split; [exists seen; split; [by apply list_elem_of_In|lia]|destruct (poll_time p); simpl in *; lia].
Qed.
End client.
End BitcoindClient.
