(* ===== verification/HeaderCache.v ===== *)
(** * The header cache ([BoundedHeaderCache] of [src/chain/bitcoind.rs])

    Headers of recent blocks, kept for following reorganisations. *)

From S2P Require Import Prelude Types Bdk.

Definition MAX_HEADER_CACHE_ENTRIES : nat := 100.

Module BoundedHeaderCache.
Section cache.
Context {Header : Type}.

Record BoundedHeaderCache := mkCache {
  header_map : gmap BlockHash Header;
  recently_seen : list BlockHash;
}.
Implicit Types (c : BoundedHeaderCache) (h : BlockHash).

Definition new : BoundedHeaderCache := {| header_map := ∅; recently_seen := [] |}.
Definition look_up h c : option Header := header_map c !! h.

(** Old entries are dropped until one of them was in the map. *)
Fixpoint drop_oldest (seen : list BlockHash) (m : gmap BlockHash Header) : BoundedHeaderCache :=
  match seen with
  | [] => mkCache m []
  | h :: seen => if decide (is_Some (m !! h)) then mkCache (delete h m) seen else drop_oldest seen m
  end.
Definition block_connected h (header : Header) c : BoundedHeaderCache :=
  let seen := recently_seen c ++ [h] in
  let m := <[h := header]> (header_map c) in
  if (MAX_HEADER_CACHE_ENTRIES <=? size m)%nat then drop_oldest seen m else mkCache m seen.
Definition block_disconnected h c : BoundedHeaderCache * option Header :=
  (mkCache (delete h (header_map c)) (List.filter (λ h', negb (bool_decide (h' = h))) (recently_seen c)),
   header_map c !! h).

Inductive cache_call := Connected (h : BlockHash) (header : Header) | Disconnected (h : BlockHash).
Definition call (x : cache_call) c : BoundedHeaderCache :=
  match x with
  | Connected h header => block_connected h header c
  | Disconnected h => (block_disconnected h c).1
  end.

(** The header a block was last connected with, if it was not disconnected since. *)
Fixpoint connected_as (calls : list cache_call) h : option Header :=
  match calls with
  | [] => None
  | Connected h' header :: calls => if decide (h' = h) then Some header else connected_as calls h
  | Disconnected h' :: calls => if decide (h' = h) then None else connected_as calls h
  end.

Definition cache_inv c : Prop :=
  (size (header_map c) < MAX_HEADER_CACHE_ENTRIES)%nat ∧
  ∀ h, is_Some (header_map c !! h) → h ∈ recently_seen c.

Lemma drop_oldest_spec (seen : list BlockHash) (m : gmap BlockHash Header) :
  (∀ h, is_Some (m !! h) → h ∈ seen) →
  let c := drop_oldest seen m in
  (∀ h, is_Some (header_map c !! h) → h ∈ recently_seen c) ∧ header_map c ⊆ m ∧
  (m ≠ ∅ → S (size (header_map c)) = size m).
Proof.
  induction seen as [|h seen IH]; simpl; intros Hs.
  { split_and!; [done..|]. intros Hm. destruct (map_choose _ Hm) as (h & x & Hh).
    assert (h ∈ []) as ?%elem_of_nil by (apply Hs; by eexists). done. }
  case_decide as Hh; simpl.
  - split_and!; [|apply delete_subseteq|].
    + intros h' [x [Hne Hx]%lookup_delete_Some]. assert (h' ∈ h :: seen) as Hin by (apply Hs; by eexists).
      apply elem_of_cons in Hin as [->|?]; done.
    + intros _. destruct Hh as [x Hx]. rewrite map_size_delete, Hx. simpl.
      assert (size m ≠ 0%nat); [|lia]. intros ?%map_size_empty_inv. subst m. by rewrite lookup_empty in Hx.
  - apply IH. intros h' Hh'. specialize (Hs h' Hh') as [->|?]%elem_of_cons; done.
Qed.

(** An entry at the end is not dropped if there is an older one. *)
Lemma drop_oldest_keeps (seen : list BlockHash) (m : gmap BlockHash Header) h h' header :
  h ∉ seen → m !! h = Some header → h' ∈ seen → is_Some (m !! h') →
  header_map (drop_oldest (seen ++ [h]) m) !! h = Some header.
Proof.
  induction seen as [|h1 seen IH]; intros Hseen Hm Hin Hh'; [by apply elem_of_nil in Hin|].
  apply not_elem_of_cons in Hseen as [Hne Hseen]. simpl. case_decide as Hd.
  - simpl. by rewrite lookup_delete_ne.
  - apply IH; [done..| |done]. apply elem_of_cons in Hin as [->|?]; done.
Qed.

Lemma new_block_found h header c :
  cache_inv c → h ∉ recently_seen c → look_up h (block_connected h header c) = Some header.
Proof.
  intros [Hsz Hdom] Hseen. unfold block_connected, look_up.
  destruct (MAX_HEADER_CACHE_ENTRIES <=? _)%nat eqn:Hle; [|by apply lookup_insert_eq].
  destruct (decide (header_map c = ∅)) as [He|He].
  { apply Nat.leb_le in Hle. rewrite He, map_size_insert_None, map_size_empty in Hle by done.
    unfold MAX_HEADER_CACHE_ENTRIES in Hle. lia. }
  destruct (map_choose _ He) as (h' & x & Hh').
  apply (drop_oldest_keeps _ _ h h'); [done|by rewrite lookup_insert_eq|apply Hdom; by eexists|].
  apply lookup_insert_is_Some'. right. by eexists.
Qed.

Lemma connected_inv h header c : cache_inv c → cache_inv (block_connected h header c) ∧
  header_map (block_connected h header c) ⊆ <[h := header]> (header_map c).
Proof.
  intros [Hsz Hdom]. unfold block_connected. set (m := <[h := header]> (header_map c)).
  assert (Hm : ∀ h', is_Some (m !! h') → h' ∈ recently_seen c ++ [h]).
  { intros h' [->|?]%lookup_insert_is_Some'; apply elem_of_app; [right; by left|left; by apply Hdom]. }
  case_match eqn:Hle.
  - destruct (drop_oldest_spec (recently_seen c ++ [h]) m Hm) as (Hd & Hsub & Hsize).
    apply Nat.leb_le in Hle. split; [split; [|done]|done].
    assert (Hsz' : (size m ≤ S (size (header_map c)))%nat)
      by (unfold m; rewrite map_size_insert; destruct (header_map c !! h); simpl; lia).
    assert (S (size (header_map (drop_oldest (recently_seen c ++ [h]) m))) = size m); [|lia].
    apply Hsize. unfold m. apply insert_non_empty.
  - apply Nat.leb_gt in Hle. by split; [split|].
Qed.

Lemma disconnected_inv h c : cache_inv c → cache_inv (block_disconnected h c).1.
Proof.
  intros [Hsz Hdom]. split; simpl.
  - rewrite map_size_delete. destruct (header_map c !! h); simpl; lia.
  - intros h' [hd [Hne Hl]%lookup_delete_Some]. apply list_elem_of_In, filter_In.
    split; [apply list_elem_of_In, Hdom; by eexists|]. by rewrite bool_decide_false.
Qed.

(** However blocks are connected and disconnected: the cache stays bounded, a header it
    finds is the one the block was last connected with, and a block that is newly
    connected is found. *)
Theorem header_cache_sound (calls : list cache_call) :
  let c := foldr call new calls in
  (size (header_map c) < MAX_HEADER_CACHE_ENTRIES)%nat ∧
  (∀ h header, look_up h c = Some header → connected_as calls h = Some header) ∧
  (∀ h header, h ∉ recently_seen c → look_up h (block_connected h header c) = Some header).
Proof.
  intros c. assert (Hc : cache_inv c ∧ ∀ h header, look_up h c = Some header → connected_as calls h = Some header).
  { unfold c. clear c. induction calls as [|x calls [Hi Hf]]; simpl.
    - split; [split|].
      + unfold new, MAX_HEADER_CACHE_ENTRIES. simpl. rewrite map_size_empty. lia.
      + intros h [? Hl]. exact (False_ind _ (lookup_empty_Some _ _ Hl)).
      + intros h hd Hl. exact (False_ind _ (lookup_empty_Some _ _ Hl)).
    - destruct x as [h header|h]; simpl.
      + destruct (connected_inv h header _ Hi) as [Hi' Hsub]. split; [done|]. intros h' hd Hl.
        pose proof (lookup_weaken _ _ _ _ Hl Hsub) as Hin.
        apply lookup_insert_Some in Hin as [[Heq Hhd]|[Hne ?]].
        * subst h' hd. by rewrite decide_True.
        * rewrite decide_False by done. by apply Hf.
      + split; [by apply disconnected_inv|]. intros h' hd Hl.
        unfold look_up in Hl; simpl in Hl. apply (proj1 (lookup_delete_Some _ _ _ _)) in Hl as [Hne Hl].
        rewrite decide_False by done. by apply Hf. }
  destruct Hc as [Hi Hf]. split_and!; [apply Hi|done|]. intros. by apply new_block_found.
Qed.
End cache.
End BoundedHeaderCache.
