(* ===== verification/Bitcoind.v ===== *)
(** * Synchronising with a full node ([BitcoindChainSource] of [src/chain/bitcoind.rs])

    Every account is a listener of its own: blocks are connected and disconnected on it
    from its own tip on.  Then the mempool is applied to all accounts.  Accounts may be
    added and removed meanwhile by other tasks; the account generation detects that, and
    the poll is repeated.  Which blocks [lightning_block_sync] delivers, what other tasks
    do in between, and the answers of the full node are inputs. *)

From S2P Require Import Prelude Errors KVStore DataStore Types PaymentStore Bdk AggTypes.
From S2P Require Import AggUtxo AggSigning AggRbf Aggregate AggBuild AggInvariant.
From S2P Require Import FeeEstimator Config WalletKeys Event NodeMetrics TxBroadcaster Wallet.
From S2P Require Import WalletAccounts WalletPayments ChainSync Mempool.
Import Wallet.

Definition MAX_ACCOUNT_SET_CHANGE_RETRIES : nat := 3.
Definition CHAIN_POLLING_INTERVAL_SECS : Z := 2.
Definition MAX_BACKOFF_SECS : Z := 300.
Definition RESOLVED_CHANNEL_MONITOR_ARCHIVAL_INTERVAL : Z := 6.

Inductive ListenerSyncOutcome :=
| Complete (account_generation : Z)
| AccountSetChanged.

(** A call of [Listen] on the listener of an account. *)
Inductive listen_call :=
| FilteredBlockConnected
| BlockConnected (block : Block) (height : Z)
| BlocksDisconnected (fork_point : BestBlock).

Module Bitcoind.
Section bitcoind.
Context {S : Type} {KV : KVStore S}.
Context (tlv_encode : PaymentTlv → bytes) (tlv_decode : bytes → option PaymentTlv).
Context {O : IterOrder OnchainWalletAccount} {OT : IterOrder Txid}.
Context {BTC : Bitcoin} {W P U Ev : Type} {BDK : Bdk W P U Ev} {CS : CoinSelection}.
Context {Xpriv D : Type} {B32 : Bip32 Xpriv} {WL : WalletLoader Xpriv W P}.
Context {PER : Persister P D}.
Context (metrics_encode : NodeMetrics → bytes).

Abbreviation wallet_state := (Wallet S W P D).
Abbreviation wcmd A := (cmd wallet_state Error A).
Abbreviation agg_op := (AggInvariant.op (K := OnchainWalletAccount) (W := W) (P := P) (U := U)).
Abbreviation account_call := (WalletAccounts.op agg_op).
Implicit Types (s : wallet_state) (a : OnchainWalletAccount).

(** ** Listeners ([AccountChainListener]) *)

(** The listeners of one poll, each with its [apply_error]. *)
Abbreviation listeners := (gmap OnchainWalletAccount (option Error)).
Implicit Types (ls : listeners).

(** [AccountChainListener::new] for each account *)
Definition new_listeners (accounts : list OnchainWalletAccount) : listeners :=
  list_to_map ((λ a, (a, None)) <$> accounts).

Definition record_apply_result a (result : outcome Error unit) ls : listeners :=
  match result, ls !! a with
  | Err error, Some None => <[a := Some error]> ls
  | _, _ => ls
  end.

Definition apply_call a (call : listen_call) : wcmd unit :=
  match call with
  | FilteredBlockConnected => fail WalletOperationFailed
  | BlockConnected block height => apply_block_to_account a block height
  | BlocksDisconnected fork_point => rewind_wallet_account a fork_point
  end.

(** A listener with an error ignores further calls. *)
Definition listen a (call : listen_call) ls : wcmd listeners := λ s,
  match ls !! a with
  | Some None =>
      match apply_call a call s with
      | (s, Panic) => (s, Panic)
      | (s, r) => (s, Ok (record_apply_result a r ls))
      end
  | _ => (s, Ok ls)
  end.

(** What happens while the listeners are synchronised: calls on them, and account calls
    of other tasks. *)
Inductive sync_event :=
| ListenerCall (account : OnchainWalletAccount) (call : listen_call)
| Meanwhile (c : account_call).

Fixpoint synchronize_listeners (events : list sync_event) ls : wcmd listeners :=
  match events with
  | [] => mret ls
  | ListenerCall a call :: events => ls ← listen a call ls; synchronize_listeners events ls
  | Meanwhile c :: events => λ s, synchronize_listeners events ls (WalletAccounts.exec c s).1
  end.

Definition finish (account_generation : Z) ls a : wcmd ListenerSyncOutcome :=
  with_state (λ s,
    match ls !! a with
    | Some (Some error) =>
        let account_was_removed :=
          negb (Wallet.account_generation s =? account_generation) &&
          negb (has_onchain_wallet_account a s) in
        if account_was_removed then mret AccountSetChanged else fail error
    | _ => mret (Complete account_generation)
    end).

Fixpoint finish_all (account_generation : Z) ls (accounts : list OnchainWalletAccount) :
    wcmd ListenerSyncOutcome :=
  match accounts with
  | [] => mret (Complete account_generation)
  | a :: accounts =>
      outcome ← finish account_generation ls a;
      match outcome with
      | Complete _ => finish_all account_generation ls accounts
      | AccountSetChanged => mret AccountSetChanged
      end
  end.

(** ** Metrics *)

(** Without LDK's own archival of the monitors. *)
Definition periodically_archive_fully_resolved_monitors (cur_height : Z) : wcmd unit :=
  with_state (λ s,
    let should_archive :=
      match latest_channel_monitor_archival_height (node_metrics s) with
      | None => true
      | Some h => wrap32 (h + RESOLVED_CHANNEL_MONITOR_ARCHIVAL_INTERVAL) <=? cur_height
      end in
    if should_archive then
      _ ← modify (λ s, set_metrics (set_archival_height (Some cur_height) (node_metrics s)) s);
      ChainSync.persist_metrics metrics_encode
    else mret tt).

(** ** One poll *)

Record Bitcoind := mkBitcoind {
  wallet : wallet_state;
  api_client : BitcoindClient.BitcoindClient;
  last_mempool_account_generation : Z;
}.
Implicit Types (b : Bitcoind).
Abbreviation bcmd A := (cmd Bitcoind Error A).

Definition new (s : wallet_state) : Bitcoind := mkBitcoind s BitcoindClient.new u64_max.

Definition on_wallet {A} (m : wcmd A) : bcmd A := λ b,
  let '(s, r) := m (wallet b) in (mkBitcoind s (api_client b) (last_mempool_account_generation b), r).
Definition on_client {A} (m : cmd BitcoindClient.BitcoindClient io_error A) : bcmd A := λ b,
  let '(c, r) := m (api_client b) in
  (mkBitcoind (wallet b) c (last_mempool_account_generation b), map_err (λ _, TxSyncFailed) r).
Definition other_tasks (cs : list account_call) : bcmd unit := λ b,
  (mkBitcoind (trace cs (wallet b)).1 (api_client b) (last_mempool_account_generation b), Ok tt).
(** A failure that is only logged. *)
Definition best_effort (m : wcmd unit) : wcmd unit :=
  _ ← ChainSync.attempt m; mret tt.

Record poll_inputs := mkPollInputs {
  before_poll : list account_call;
  payment_clock : nat → Txid → Z;
  sync_events : list sync_event;
  (** Whether [synchronize_listeners] succeeds. *)
  synchronized : bool;
  after_sync : list account_call;
  lightning_height : Z;
  mempool_answers : rpc_answers;
  mempool_time : option Z;
  during_mempool : list account_call;
  sync_time : option Z;
}.

(** The part that runs with the account operations locked. *)
Definition apply_mempool (clock : Txid → Z) (account_generation : Z) (update : MempoolUpdate) :
    bcmd ListenerSyncOutcome :=
  with_state (λ b,
    if negb (Wallet.account_generation (wallet b) =? account_generation) then mret AccountSetChanged
    else
      _ ← on_wallet (apply_mempool_txs tlv_encode tlv_decode clock (update_transactions update)
                       (update_evicted update));
      _ ← modify (λ b, mkBitcoind (wallet b)
            (BitcoindClient.commit_mempool_timestamp (next_timestamp update) (api_client b))
            account_generation);
      mret (Complete account_generation)).

Definition record_sync_time (t : option Z) : wcmd unit :=
  _ ← modify (λ s, set_metrics (set_onchain_sync_timestamp t
        (set_lightning_sync_timestamp t (node_metrics s))) s);
  best_effort (ChainSync.persist_metrics metrics_encode).

Definition poll_mempool (i : poll_inputs) (account_generation : Z) : bcmd ListenerSyncOutcome :=
  with_state (λ b,
    let bdk_unconfirmed_txids :=
      AggregateWallet.unconfirmed_txids_with_last_seen (inner (wallet b)) in
    let replay_mempool := negb (last_mempool_account_generation b =? account_generation) in
    update ← on_client (BitcoindClient.get_updated_mempool_transactions (mempool_answers i)
               (mempool_time i) (lightning_height i) bdk_unconfirmed_txids replay_mempool);
    _ ← other_tasks (during_mempool i);
    outcome ← apply_mempool (payment_clock i 2) account_generation update;
    match outcome with
    | AccountSetChanged => mret AccountSetChanged
    | Complete _ =>
        _ ← on_wallet (record_sync_time (sync_time i));
        mret (Complete account_generation)
    end).

Definition poll_and_update_listeners_inner (i : poll_inputs) : bcmd ListenerSyncOutcome :=
  _ ← other_tasks (before_poll i);
  _ ← on_wallet (finish_pending_sync tlv_encode tlv_decode (payment_clock i 0) false);
  with_state (λ b,
    let '(account_generation, account_tips) := account_sync_snapshot (wallet b) in
    ls ← on_wallet (synchronize_listeners (sync_events i) (new_listeners account_tips.*1));
    if negb (synchronized i) then fail TxSyncFailed
    else
      _ ← other_tasks (after_sync i);
      outcome ← on_wallet (finish_all account_generation ls account_tips.*1);
      match outcome with
      | AccountSetChanged => mret AccountSetChanged
      | Complete _ =>
          _ ← on_wallet (finish_pending_sync tlv_encode tlv_decode (payment_clock i 1) false);
          _ ← on_wallet (best_effort
                (periodically_archive_fully_resolved_monitors (lightning_height i)));
          poll_mempool i account_generation
      end).

(** ** Polling until the accounts stay the same

    [attempt n] is the [n]-th attempt: its inputs, and what other tasks do between it and
    the lock under which its generation is checked. *)
Fixpoint poll_loop (attempt : nat → poll_inputs * list account_call) (n retries : nat) : bcmd unit :=
  outcome ← poll_and_update_listeners_inner (attempt n).1;
  _ ← other_tasks (attempt n).2;
  with_state (λ b,
    let retry :=
      match retries with
      | 0%nat => fail WalletOperationFailed
      | Datatypes.S retries => poll_loop attempt (Datatypes.S n) retries
      end in
    match outcome with
    | Complete account_generation =>
        if Wallet.account_generation (wallet b) =? account_generation then mret tt else retry
    | AccountSetChanged => retry
    end).

(** The attempt's result, which is also what [wallet_polling_status] propagates. *)
Definition poll_and_update_listeners (attempt : nat → poll_inputs * list account_call) : bcmd unit :=
  poll_loop attempt 0 MAX_ACCOUNT_SET_CHANGE_RETRIES.

(** ** The initial synchronisation ([continuously_sync_wallets])

    Before polling starts, the same poll is repeated until it completes.  A round has the
    poll's inputs, what other tasks do between it and the check of its generation, and
    whether the node is stopped before it or during the wait after a failure. *)
Record round := mkRound {
  stop_before : bool;
  round_poll : poll_inputs;
  after_round : list account_call;
  stop_in_backoff : bool;
}.
Inductive initial_end := Synchronized | StoppedEarly | StillRunning.

Definition next_backoff (backoff : Z) : Z := Z.min (backoff * 2) MAX_BACKOFF_SECS.

(** With the wait after the next failure. *)
Fixpoint initial_sync (rounds : list round) (backoff : Z) : bcmd (initial_end * Z) := λ b,
  match rounds with
  | [] => (b, Ok (StillRunning, backoff))
  | r :: rounds =>
      if stop_before r then (b, Ok (StoppedEarly, backoff))
      else
        match poll_and_update_listeners_inner (round_poll r) b with
        | (b, Ok AccountSetChanged) => initial_sync rounds backoff b
        | (b, Ok (Complete account_generation)) =>
            let b := (other_tasks (after_round r) b).1 in
            if Wallet.account_generation (wallet b) =? account_generation
            then (b, Ok (Synchronized, backoff)) else initial_sync rounds backoff b
        | (b, Err _) =>
            if stop_in_backoff r then (b, Ok (StoppedEarly, backoff))
            else initial_sync rounds (next_backoff backoff) b
        | (b, Panic) => (b, Panic)
        end
  end.

(** ** What a completed poll means *)

Context {BTCS : BitcoinSpec} {BDKS : BdkSpec W P U Ev}.

(** Every call on a listener succeeded, with the account calls in between. *)
Fixpoint all_applied (events : list sync_event) ls s : Prop :=
  match events with
  | [] => True
  | ListenerCall a call :: events =>
      match ls !! a with
      | None => all_applied events ls s
      | Some _ => (apply_call a call s).2 = Ok tt ∧ all_applied events ls (apply_call a call s).1
      end
  | Meanwhile c :: events => all_applied events ls (WalletAccounts.exec c s).1
  end.

(** The wallet after the calls and the account calls in between. *)
Fixpoint delivered (events : list sync_event) ls s : wallet_state :=
  match events with
  | [] => s
  | ListenerCall a call :: events =>
      delivered events ls (match ls !! a with None => s | Some _ => (apply_call a call s).1 end)
  | Meanwhile c :: events => delivered events ls (WalletAccounts.exec c s).1
  end.

Lemma listen_error_stays a call ls s s' ls' a' e :
  listen a call ls s = (s', Ok ls') → ls !! a' = Some (Some e) → ls' !! a' = Some (Some e).
Proof.
  unfold listen. destruct (ls !! a) as [[e'|]|] eqn:Ha; [by intros [= <- <-]| |by intros [= <- <-]].
  destruct (apply_call a call s) as [s1 [[]|e'|]]; intros [= <- <-]; simpl; [done|].
  rewrite Ha. intros He. rewrite lookup_insert_ne; [done|]. intros ->. congruence.
Qed.

Lemma synchronize_error_stays events ls s s' ls' a e :
  synchronize_listeners events ls s = (s', Ok ls') → ls !! a = Some (Some e) →
  ls' !! a = Some (Some e).
Proof.
  revert ls s. induction events as [|[a' call|c] events IH]; intros ls s; simpl.
  - by intros [= <- <-].
  - intros (s1 & ls1 & H1 & Hrest)%cmd_bind_Ok He. eapply IH; [done|]. by eapply listen_error_stays.
  - apply IH.
Qed.

Lemma synchronize_dom events ls s s' ls' :
  synchronize_listeners events ls s = (s', Ok ls') → ∀ a, ls !! a = None → ls' !! a = None.
Proof.
  revert ls s. induction events as [|[a call|c] events IH]; intros ls s; simpl.
  - by intros [= <- <-].
  - intros (s1 & ls1 & H1 & Hrest)%cmd_bind_Ok a' Ha'. eapply IH; [done|].
    revert H1. unfold listen. destruct (ls !! a) as [[e|]|] eqn:Ha; [by intros [= _ <-]| |by intros [= _ <-]].
    destruct (apply_call a call s) as [s2 [[]|e|]]; intros [= _ <-]; simpl; [done|].
    rewrite Ha, lookup_insert_ne; [done|]. intros ->. congruence.
  - apply IH.
Qed.

Definition no_errors ls : Prop := ∀ a e, ls !! a ≠ Some (Some e).

Lemma synchronize_applied events ls s s' ls' :
  synchronize_listeners events ls s = (s', Ok ls') → no_errors ls → no_errors ls' →
  all_applied events ls s ∧ ls' = ls ∧ s' = delivered events ls s.
Proof.
  revert ls s. induction events as [|[a call|c] events IH]; intros ls s; simpl.
  - by intros [= <- <-].
  - intros (s1 & ls1 & H1 & Hrest)%cmd_bind_Ok Hn Hn'. unfold listen in H1.
    destruct (ls !! a) as [[e|]|] eqn:Ha; [by destruct (Hn a e)| |].
    + destruct (apply_call a call s) as [s2 [[]|e|]] eqn:Hc; [..|done];
        injection H1 as <- <-; simpl in *.
      * destruct (IH _ _ Hrest Hn Hn') as (? & ? & ?). done.
      * rewrite Ha in Hrest. destruct (Hn' a e).
        by apply (synchronize_error_stays _ _ _ _ _ a e Hrest), lookup_insert_eq.
    + injection H1 as <- <-. by apply IH.
  - apply IH.
Qed.

Lemma finish_all_errors g ls accounts s s' g' :
  finish_all g ls accounts s = (s', Ok (Complete g')) →
  s' = s ∧ g' = g ∧ ∀ a e, a ∈ accounts → ls !! a ≠ Some (Some e).
Proof.
  induction accounts as [|a accounts IH]; simpl.
  { intros [= <- <-]. split_and!; [done..|]. by intros ?? ?%elem_of_nil. }
  intros (s1 & o & H1 & Hrest)%cmd_bind_Ok. unfold finish, with_state in H1.
  destruct (ls !! a) as [[e|]|] eqn:Ha.
  - destruct (_ && _); [injection H1 as <- <-; by injection Hrest|done].
  - injection H1 as <- <-. destruct (IH Hrest) as (-> & -> & Hn). split_and!; [done..|].
    intros a' e [->|?]%elem_of_cons; [congruence|by apply Hn].
  - injection H1 as <- <-. destruct (IH Hrest) as (-> & -> & Hn). split_and!; [done..|].
    intros a' e [->|?]%elem_of_cons; [congruence|by apply Hn].
Qed.

(** *** The generation *)

Definition ok s : Prop := inv s ∧ is_u64 (Wallet.account_generation s).

(** At most [n] changes of the accounts, counted by the generation. *)
Definition moves (n : Z) s s' : Prop :=
  ok s → ok s' ∧ ∃ k, 0 ≤ k ≤ n ∧ gen (view s') = wrap64 (gen (view s) + k) ∧
    (k = 0 → loaded (view s') = loaded (view s)).

Lemma moves_refl s : moves 0 s s.
Proof.
  intros Hs. split; [done|]. exists 0. split_and!; [lia..| |done]. rewrite Z.add_0_r.
  symmetry. apply wrap64_small, Hs.
Qed.
Lemma moves_silent {A} (m : wcmd A) s : silent m → moves 0 s (m s).1.
Proof.
  intros Hm [Hs Hg]. destruct (Hm s Hs) as [Hs' Hv]. split.
  - split; [done|]. change (is_u64 (gen (view (m s).1))). by rewrite Hv.
  - exists 0. rewrite Hv, Z.add_0_r. split_and!; [lia..| |done]. symmetry. by apply wrap64_small.
Qed.
Lemma moves_trans n n' s1 s2 s3 : moves n s1 s2 → moves n' s2 s3 → moves (n + n') s1 s3.
Proof.
  intros H1 H2 Hs. destruct (H1 Hs) as (Hs2 & k & Hk & Hg & Hl).
  destruct (H2 Hs2) as (Hs3 & k' & Hk' & Hg' & Hl'). split; [done|]. exists (k + k').
  split_and!; [lia..| |].
  - rewrite Hg', Hg. unfold wrap64. rewrite Zplus_mod_idemp_l. f_equal. lia.
  - intros Hz. rewrite Hl' by lia. apply Hl. lia.
Qed.
Lemma moves_exec c s : typed c → moves 1 s (WalletAccounts.exec c s).1.
Proof.
  intros Hc [Hs Hg]. destruct (exec_inv c s Hc Hs) as [Hs' Hv].
  assert (Hgen : gen (view (WalletAccounts.exec c s).1)
    = if decide (loaded (view (WalletAccounts.exec c s).1) = loaded (view s)) then gen (view s)
      else wrap64 (gen (view s) + 1)).
  { rewrite Hv. destruct (is_ok _); [apply spec_gen|by rewrite decide_True]. }
  split.
  - split; [done|]. change (is_u64 (gen (view (WalletAccounts.exec c s).1))). rewrite Hgen.
    case_decide; [done|apply wrap64_range].
  - case_decide as Hl; [exists 0|exists 1]; (split_and!; [lia..| |]); [|done|done|done].
    rewrite Hgen, Z.add_0_r. symmetry. by apply wrap64_small.
Qed.
Lemma moves_trace cs s : Forall typed cs → moves (Z.of_nat (length cs)) s (trace cs s).1.
Proof.
  intros Ht. revert s. induction Ht as [|c cs Hc Ht IH]; intros s; simpl; [apply moves_refl|].
  pose proof (moves_exec c s Hc) as Hm. destruct (WalletAccounts.exec c s) as [s1 r].
  specialize (IH s1). destruct (trace cs s1) as [s2 l]. simpl in *.
  replace (Z.of_nat (Datatypes.S (length cs))) with (1 + Z.of_nat (length cs)) by lia.
  by eapply moves_trans.
Qed.
Lemma moves_same n s s' :
  moves n s s' → ok s → n < 2 ^ 64 → Wallet.account_generation s' = Wallet.account_generation s →
  loaded (view s') = loaded (view s).
Proof.
  intros Hm Hs Hn Heq. destruct (Hm Hs) as (_ & k & Hk & Hg & Hl). apply Hl.
  change (gen (view s') = gen (view s)) in Heq. destruct Hs as [_ Hu].
  change (is_u64 (gen (view s))) in Hu. rewrite Heq in Hg. unfold wrap64, is_u64, u64_max in *.
  destruct (decide (gen (view s) + k < 2 ^ 64)).
  - rewrite Z.mod_small in Hg; lia.
  - rewrite <- (Z_mod_plus_full _ (-1)), Z.mod_small in Hg; lia.
Qed.

(** *** The steps of a poll leave the accounts alone *)

(** What the accounts are read from is the same. *)
Definition same_accounts s s' : Prop :=
  inner s' = inner s ∧ address_type_runtime_config s' = address_type_runtime_config s ∧
  Wallet.account_generation s' = Wallet.account_generation s.

#[local] Instance same_accounts_preorder : PreOrder same_accounts.
Proof.
  split; [done|]. intros s1 s2 s3 (? & ? & ?) (? & ? & ?). split_and!; congruence.
Qed.

Lemma silent_same {A} (m : wcmd A) : (∀ s, same_accounts s (m s).1) → silent m.
Proof.
  intros Hm s [Ha Hc]. destruct (Hm s) as (Hi & Hr & Hg).
  assert (view (m s).1 = view s) as Hv by (unfold view; by rewrite Hi, Hr, Hg).
  unfold inv, agg_ok. rewrite Hv, Hi. by split; [split|].
Qed.

Lemma record_txs_same (clock : Txid → Z) i h confirmations txs s :
  same_accounts s (for_each (record_tx tlv_encode tlv_decode clock i h confirmations) txs s).1.
Proof.
  revert s. induction txs as [|wtx txs IH]; intros s; simpl; [done|].
  unfold mbind at 1, cmd_bind at 1.
  assert (H1 : same_accounts s (record_tx tlv_encode tlv_decode clock i h confirmations wtx s).1).
  { unfold record_tx, on_payments, lift, mbind, cmd_bind.
    destruct (onchain_payment _ _ _ _ _) as [payment| |]; [|done..].
    by destruct (DataStore.insert_or_update _ _ _) as [ps [b| |]]. }
  destruct (record_tx _ _ _ _ _ _ _ s) as [s1 [[]|e|]]; simpl in *; [|done..]. by etrans.
Qed.

Lemma silent_update_payments (clock : Txid → Z) : silent (update_payment_store tlv_encode tlv_decode clock : wcmd unit).
Proof.
  apply silent_same. intros s. unfold update_payment_store, update_payment_store_inner, with_state,
    mbind, cmd_bind, lift.
  destruct (map_err _ _) as [[hash h]| |]; [|done..].
  pose proof (record_txs_same clock (inner (set_pending true s)) h
    (AggregateWallet.transaction_confirmations (inner (set_pending true s)))
    (distinct_txs ∅ (flat_map transactions (values (AggregateWallet.wallets (inner (set_pending true s))))))
    (set_pending true s)) as Hs.
  destruct (for_each _ _ _) as [s1 r1]. simpl in *. by destruct (is_ok r1).
Qed.

Lemma silent_finish_pending (clock : Txid → Z) refresh :
  silent (finish_pending_sync tlv_encode tlv_decode clock refresh : wcmd unit).
Proof.
  apply silent_bind; [apply persist_all_silent|]. intros _. apply silent_with_state. intros s.
  destruct (_ || _); [apply silent_update_payments|apply silent_lift].
Qed.

Lemma silent_apply_mempool (clock : Txid → Z) txs evicted :
  silent (apply_mempool_txs tlv_encode tlv_decode clock txs evicted : wcmd unit).
Proof.
  apply silent_bind; [by apply silent_modify|]. intros _. apply silent_bind; [|intros _; apply silent_update_payments].
  apply silent_on_inner. intros K p _. apply stable_apply_mempool_txs.
Qed.

Lemma silent_attempt {A} (m : wcmd A) : silent m → silent (ChainSync.attempt m).
Proof.
  intros Hm s Hs. destruct (Hm s Hs) as [Hs' Hv]. unfold ChainSync.attempt.
  by destruct (m s) as [s1 [v|e|]].
Qed.

Lemma silent_best_effort m : silent m → silent (best_effort m).
Proof. intros Hm. apply silent_bind; [by apply silent_attempt|]. intros _. apply silent_lift. Qed.

Lemma silent_persist_metrics : silent (ChainSync.persist_metrics metrics_encode : wcmd unit).
Proof.
  apply silent_same. intros s. unfold ChainSync.persist_metrics. by destruct (write_node_metrics _ _ _).
Qed.

Lemma silent_archive h : silent (periodically_archive_fully_resolved_monitors h).
Proof.
  apply silent_with_state. intros s. destruct (match _ with Some _ => _ | None => _ end); [|apply silent_lift].
  apply silent_bind; [by apply silent_modify|]. intros _. apply silent_persist_metrics.
Qed.

Lemma silent_record_time t : silent (record_sync_time t).
Proof.
  apply silent_bind; [by apply silent_modify|]. intros _.
  apply silent_best_effort, silent_persist_metrics.
Qed.

Lemma silent_apply_call a call : silent (apply_call a call).
Proof.
  destruct call as [|block h|fp]; [apply silent_fail| |apply rewind_silent].
  apply silent_bind; [by apply silent_modify|]. intros _.
  apply silent_bind; [|intros _; apply silent_lift].
  apply silent_on_inner. intros K p _. apply stable_apply_block_to.
Qed.

(** The calls of other tasks in a list of events. *)
Definition calls_of (events : list sync_event) : list account_call :=
  omap (λ e, match e with Meanwhile c => Some c | _ => None end) events.

Lemma synchronize_moves events ls s s' r :
  synchronize_listeners events ls s = (s', r) → Forall typed (calls_of events) →
  moves (Z.of_nat (length (calls_of events))) s s'.
Proof.
  revert ls s. induction events as [|[a call|c] events IH]; intros ls s; csimpl.
  - intros [= <- _] _. apply moves_refl.
  - unfold mbind, cmd_bind. intros Hr Ht.
    assert (H1 : moves 0 s (listen a call ls s).1).
    { unfold listen. destruct (ls !! a) as [[e|]|]; [apply moves_refl| |apply moves_refl].
      pose proof (moves_silent _ s (silent_apply_call a call)) as Hm.
      by destruct (apply_call a call s) as [s1 [[]|e|]]. }
    destruct (listen a call ls s) as [s1 [ls1|e|]].
    + change (moves (0 + Z.of_nat (length (calls_of events))) s s'). eapply moves_trans; [done|by eapply IH].
    + injection Hr as <- _. intros Hs. destruct (H1 Hs) as (? & k & ? & ? & ?). split; [done|].
      exists k. split_and!; [lia..|done|done].
    + injection Hr as <- _. intros Hs. destruct (H1 Hs) as (? & k & ? & ? & ?). split; [done|].
      exists k. split_and!; [lia..|done|done].
  - intros Hr [Hc Ht]%Forall_cons.
    change (Z.of_nat (length (c :: calls_of events))) with (Z.of_nat (Datatypes.S (length (calls_of events)))).
    replace (Z.of_nat (Datatypes.S (length (calls_of events)))) with (1 + Z.of_nat (length (calls_of events))) by lia.
    eapply moves_trans; [by apply moves_exec|by eapply IH].
Qed.

(** *** A poll *)

Definition bmoves (n : Z) {A} (m : bcmd A) : Prop :=
  ∀ b b' r, m b = (b', r) → moves n (wallet b) (wallet b').

Lemma moves_weaken n n' s s' : moves n s s' → n ≤ n' → moves n' s s'.
Proof.
  intros Hm Hn Hs. destruct (Hm Hs) as (? & k & ? & ? & ?). split; [done|].
  exists k. split_and!; [lia..|done|done].
Qed.
Lemma bmoves_bind {A B} n n' (m : bcmd A) (k : A → bcmd B) :
  bmoves n m → (∀ v, bmoves n' (k v)) → 0 ≤ n' → bmoves (n + n') (m ≫= k).
Proof.
  intros Hm Hk Hn b b' r. unfold mbind, cmd_bind. destruct (m b) as [b1 r1] eqn:H1.
  apply Hm in H1. destruct r1 as [v|e|].
  - intros H2%Hk. by eapply moves_trans.
  - intros [= <- _]. eapply moves_weaken; [done|lia].
  - intros [= <- _]. eapply moves_weaken; [done|lia].
Qed.
Lemma bmoves_bind0 {A B} n (m : bcmd A) (k : A → bcmd B) :
  bmoves 0 m → (∀ v, bmoves n (k v)) → 0 ≤ n → bmoves n (m ≫= k).
Proof. intros Hm Hk Hn. by apply (bmoves_bind 0 n). Qed.
Lemma bmoves_still {A} (m : bcmd A) : (∀ b, wallet (m b).1 = wallet b) → bmoves 0 m.
Proof. intros Hm b b' r Hr. specialize (Hm b). rewrite Hr in Hm. simpl in Hm. rewrite Hm. apply moves_refl. Qed.
Lemma bmoves_on_client {A} (m : cmd BitcoindClient.BitcoindClient io_error A) : bmoves 0 (on_client m).
Proof. apply bmoves_still. intros b. unfold on_client. by destruct (m (api_client b)). Qed.
Lemma bmoves_silent {A} (m : wcmd A) : silent m → bmoves 0 (on_wallet m).
Proof.
  intros Hm b b' r. unfold on_wallet. pose proof (moves_silent m (wallet b) Hm) as H1.
  destruct (m (wallet b)) as [s' r']. by intros [= <- _].
Qed.
Lemma bmoves_tasks cs : Forall typed cs → bmoves (Z.of_nat (length cs)) (other_tasks cs).
Proof. intros Hc b b' r [= <- _]. by apply moves_trace. Qed.
Lemma bmoves_with_state {A} n (f : Bitcoind → bcmd A) : (∀ b, bmoves n (f b)) → bmoves n (with_state f).
Proof. intros Hf b b' r. by apply Hf. Qed.

Lemma bmoves_apply (clock : Txid → Z) g update : bmoves 0 (apply_mempool clock g update).
Proof.
  apply bmoves_with_state. intros b. destruct (negb _); [by apply bmoves_still|].
  apply (bmoves_bind 0 0); [apply bmoves_silent, silent_apply_mempool| |done]. intros _.
  by apply (bmoves_bind 0 0); [by apply bmoves_still|intros _; by apply bmoves_still|].
Qed.

(** The account calls of other tasks during an attempt. *)
Definition calls (i : poll_inputs) : list account_call :=
  before_poll i ++ calls_of (sync_events i) ++ after_sync i ++ during_mempool i.

Lemma bmoves_poll_mempool i g :
  Forall typed (during_mempool i) → bmoves (Z.of_nat (length (during_mempool i))) (poll_mempool i g).
Proof.
  intros Ht. apply bmoves_with_state. intros b.
  apply bmoves_bind0; [apply bmoves_on_client| |lia]. intros update.
  replace (Z.of_nat (length (during_mempool i))) with (Z.of_nat (length (during_mempool i)) + 0) by lia.
  apply bmoves_bind; [by apply bmoves_tasks| |done]. intros _.
  apply (bmoves_bind 0 0); [apply bmoves_apply| |done]. intros [g'|]; [|by apply bmoves_still].
  apply (bmoves_bind 0 0); [apply bmoves_silent, silent_record_time| |done]. intros _. by apply bmoves_still.
Qed.

Lemma bmoves_synchronize events ls :
  Forall typed (calls_of events) →
  bmoves (Z.of_nat (length (calls_of events))) (on_wallet (synchronize_listeners events ls)).
Proof.
  intros Ht b b' r. unfold on_wallet. destruct (synchronize_listeners events ls (wallet b)) as [s' r'] eqn:Hs.
  intros [= <- _]. by eapply synchronize_moves.
Qed.

Lemma silent_finish_all g ls accounts : silent (finish_all g ls accounts).
Proof.
  induction accounts as [|a accounts IH]; simpl; [apply silent_lift|]. apply silent_bind.
  - apply silent_with_state. intros s. destruct (ls !! a) as [[e|]|]; [|apply silent_lift..].
    destruct (_ && _); [apply silent_lift|apply silent_fail].
  - by intros [g'|]; [|apply silent_lift].
Qed.

Lemma bmoves_inner i :
  Forall typed (calls i) → bmoves (Z.of_nat (length (calls i))) (poll_and_update_listeners_inner i).
Proof.
  unfold calls. intros [Hb [Hs [Ha Hm]%Forall_app]%Forall_app]%Forall_app.
  rewrite !length_app, !Nat2Z.inj_add.
  apply bmoves_bind; [by apply bmoves_tasks| |lia]. intros _.
  apply bmoves_bind0; [apply bmoves_silent, silent_finish_pending| |lia]. intros _.
  apply bmoves_with_state. intros b. destruct (account_sync_snapshot (wallet b)) as [g tips].
  apply bmoves_bind; [by apply bmoves_synchronize| |lia]. intros ls.
  destruct (negb _); [by intros b1 b2 r [= <- _]; eapply moves_weaken; [apply moves_refl|lia]|].
  apply bmoves_bind; [by apply bmoves_tasks| |lia]. intros _.
  apply bmoves_bind0; [apply bmoves_silent, silent_finish_all| |lia]. intros [g'|].
  2:{ intros b1 b2 r [= <- _]. eapply moves_weaken; [apply moves_refl|lia]. }
  apply bmoves_bind0; [apply bmoves_silent, silent_finish_pending| |lia]. intros _.
  apply bmoves_bind0; [apply bmoves_silent, silent_best_effort, silent_archive| |lia]. intros _.
  by apply bmoves_poll_mempool.
Qed.

(** The wallet at the snapshot of its accounts, in a poll that begins with [s], and the
    listeners of the poll. *)
Definition at_snapshot (i : poll_inputs) s : wallet_state :=
  (finish_pending_sync tlv_encode tlv_decode (payment_clock i 0) false (trace (before_poll i) s).1).1.
Definition poll_listeners (i : poll_inputs) s : listeners :=
  new_listeners (account_sync_snapshot (at_snapshot i s)).2.*1.
(** The wallet when the full node is asked for its mempool: every block was delivered. *)
Definition at_mempool (i : poll_inputs) s : wallet_state :=
  let s1 := delivered (sync_events i) (poll_listeners i s) (at_snapshot i s) in
  let s2 := (finish_pending_sync tlv_encode tlv_decode (payment_clock i 1) false (trace (after_sync i) s1).1).1 in
  (best_effort (periodically_archive_fully_resolved_monitors (lightning_height i)) s2).1.

(** A poll from [b] to [b'] that completes with generation [g]: the update is what the
    client makes of the full node's answers, [s1] is the wallet it is applied to and [s2]
    the wallet it makes. *)
Record completed (i : poll_inputs) (g : Z) (b : Bitcoind) (s1 s2 : wallet_state)
    (c : BitcoindClient.BitcoindClient) (update : MempoolUpdate) (b' : Bitcoind) : Prop := {
  completed_ok : ok (at_snapshot i (wallet b));
  completed_generation : Wallet.account_generation (at_snapshot i (wallet b)) = g;
  completed_applied :
    all_applied (sync_events i) (poll_listeners i (wallet b)) (at_snapshot i (wallet b));
  completed_moves : moves (Z.of_nat (length (calls i))) (at_snapshot i (wallet b)) s1;
  completed_same : Wallet.account_generation s1 = g;
  completed_update :
    BitcoindClient.get_updated_mempool_transactions (mempool_answers i) (mempool_time i)
      (lightning_height i)
      (AggregateWallet.unconfirmed_txids_with_last_seen (inner (at_mempool i (wallet b))))
      (negb (last_mempool_account_generation b =? g)) (api_client b) = (c, Ok update);
  completed_at : s1 = (trace (during_mempool i) (at_mempool i (wallet b))).1;
  completed_mempool :
    apply_mempool_txs tlv_encode tlv_decode (payment_clock i 2) (update_transactions update)
      (update_evicted update) s1 = (s2, Ok tt);
  completed_end : b' = mkBitcoind (record_sync_time (sync_time i) s2).1
    (BitcoindClient.commit_mempool_timestamp (next_timestamp update) c) g;
}.

Lemma on_wallet_Ok {A} (m : wcmd A) b b' r :
  on_wallet m b = (b', Ok r) →
  m (wallet b) = (wallet b', Ok r) ∧
  b' = mkBitcoind (m (wallet b)).1 (api_client b) (last_mempool_account_generation b).
Proof. unfold on_wallet. destruct (m (wallet b)). by intros [= <- ->]. Qed.

Lemma new_listeners_lookup accounts a :
  new_listeners accounts !! a = if decide (a ∈ accounts) then Some None else None.
Proof.
  unfold new_listeners. induction accounts as [|a' accounts IH]; csimpl; [done|].
  destruct (decide (a = a')) as [->|Hne].
  - by rewrite lookup_insert_eq, decide_True by (by left).
  - rewrite lookup_insert_ne by done. rewrite IH.
    apply decide_ext. rewrite elem_of_cons. naive_solver.
Qed.

Lemma poll_mempool_complete i g b b' g' :
  poll_mempool i g b = (b', Ok (Complete g')) →
  g' = g ∧ ∃ c update s2,
    BitcoindClient.get_updated_mempool_transactions (mempool_answers i) (mempool_time i)
      (lightning_height i) (AggregateWallet.unconfirmed_txids_with_last_seen (inner (wallet b)))
      (negb (last_mempool_account_generation b =? g)) (api_client b) = (c, Ok update) ∧
    let s1 := (trace (during_mempool i) (wallet b)).1 in
    Wallet.account_generation s1 = g ∧
    apply_mempool_txs tlv_encode tlv_decode (payment_clock i 2) (update_transactions update)
      (update_evicted update) s1 = (s2, Ok tt) ∧
    b' = mkBitcoind (record_sync_time (sync_time i) s2).1
      (BitcoindClient.commit_mempool_timestamp (next_timestamp update) c) g.
Proof.
  unfold poll_mempool, with_state. intros (b1 & update & Hup & Hrest)%cmd_bind_Ok.
  unfold on_client in Hup.
  destruct (BitcoindClient.get_updated_mempool_transactions _ _ _ _ _ (api_client b)) as [c r] eqn:Hget.
  injection Hup as <- Hr. apply map_err_Ok in Hr as ->.
  apply cmd_bind_Ok in Hrest as (b2 & [] & Hot & Hrest). injection Hot as <-. cbn [wallet api_client] in Hrest.
  apply cmd_bind_Ok in Hrest as (b3 & o & Happ & Hrest). unfold apply_mempool, with_state in Happ.
  cbn [wallet] in Happ. set (s1 := (trace (during_mempool i) (wallet b)).1) in *.
  destruct (Z.eqb_spec (Wallet.account_generation s1) g) as [Hg|]; simpl in Happ.
  2:{ injection Happ as <- <-. by injection Hrest. }
  apply cmd_bind_Ok in Happ as (b4 & [] & [Hmp Hb4]%on_wallet_Ok & Happ). cbn in Hmp, Hb4.
  apply cmd_bind_Ok in Happ as (b5 & [] & Hset & Happ). injection Hset as <-. injection Happ as <- <-.
  apply cmd_bind_Ok in Hrest as (b6 & [] & [_ Htime]%on_wallet_Ok & Hret). injection Hret as <- <-.
  split; [done|]. exists c, update, (wallet b4). split_and!; [done..|]. rewrite Htime. cbn.
  by rewrite Hb4.
Qed.

Lemma poll_inner_complete i b b' g :
  poll_and_update_listeners_inner i b = (b', Ok (Complete g)) → ok (wallet b) →
  Forall typed (calls i) → ∃ s1 s2 c update, completed i g b s1 s2 c update b'.
Proof.
  unfold calls, poll_and_update_listeners_inner.
  intros (b1 & [] & H1 & Hrest)%cmd_bind_Ok Hok [Hb [Hs [Ha Hm]%Forall_app]%Forall_app]%Forall_app.
  pose proof H1 as H1'. apply (bmoves_tasks _ Hb) in H1'. injection H1 as <-.
  apply cmd_bind_Ok in Hrest as (b2 & [] & H2 & Hrest). pose proof H2 as H2'.
  apply (bmoves_silent _ (silent_finish_pending (payment_clock i 0) false)) in H2'.
  assert (Hok2 : ok (wallet b2)) by (apply H2', H1', Hok).
  apply on_wallet_Ok in H2 as [_ H2]. cbn in H2. fold (at_snapshot i (wallet b)) in H2.
  unfold with_state in Hrest. destruct (account_sync_snapshot (wallet b2)) as [g0 tips] eqn:Hsnap.
  apply cmd_bind_Ok in Hrest as (b3 & ls & H3 & Hrest). pose proof H3 as H3'.
  apply (bmoves_synchronize _ _ Hs) in H3'. apply on_wallet_Ok in H3 as [H3 Hb3].
  destruct (synchronized i); simpl in Hrest; [|done].
  apply cmd_bind_Ok in Hrest as (b4 & [] & H4 & Hrest). pose proof H4 as H4'.
  apply (bmoves_tasks _ Ha) in H4'. injection H4 as <-.
  apply cmd_bind_Ok in Hrest as (b5 & [g1|] & H5 & Hrest); [|by injection Hrest].
  apply on_wallet_Ok in H5 as [H5 Hb5]. rewrite H5 in Hb5. apply finish_all_errors in H5 as (Hw5 & -> & Hnone).
  apply cmd_bind_Ok in Hrest as (b6 & [] & H6 & Hrest). pose proof H6 as H6'.
  apply (bmoves_silent _ (silent_finish_pending (payment_clock i 1) false)) in H6'.
  apply on_wallet_Ok in H6 as [_ H6].
  apply cmd_bind_Ok in Hrest as (b7 & [] & H7 & Hrest). pose proof H7 as H7'.
  apply (bmoves_silent _ (silent_best_effort _ (silent_archive (lightning_height i)))) in H7'.
  apply on_wallet_Ok in H7 as [_ H7].
  apply poll_mempool_complete in Hrest as (-> & c & update & s2 & Hget & Hg & Hap & Hend).
  assert (Hg0 : g0 = Wallet.account_generation (wallet b2)) by (by injection Hsnap).
  assert (Hls : new_listeners tips.*1 = poll_listeners i (wallet b)).
  { unfold poll_listeners. replace (at_snapshot i (wallet b)) with (wallet b2) by (by rewrite H2). by rewrite Hsnap. }
  assert (Hw2 : at_snapshot i (wallet b) = wallet b2) by (by rewrite H2).
  destruct (synchronize_applied _ _ _ _ _ H3) as (Happ & -> & Hdel).
  { intros a e. rewrite new_listeners_lookup. by case_decide. }
  { intros a e. destruct (decide (a ∈ tips.*1)) as [Hin|Hin]; [by apply Hnone|].
    rewrite (synchronize_dom _ _ _ _ _ H3 a); [done|]. by rewrite new_listeners_lookup, decide_False. }
  assert (Hw7 : wallet b7 = at_mempool i (wallet b)).
  { rewrite H7. cbn. rewrite H6. cbn. rewrite Hw5. cbn. unfold at_mempool. by rewrite Hw2, <- Hls, <- Hdel. }
  assert (Hb7 : api_client b7 = api_client b ∧
    last_mempool_account_generation b7 = last_mempool_account_generation b)
    by (rewrite H7, H6, Hb5; cbn; by rewrite Hb3, H2).
  destruct Hb7 as [Hc7 Hl7]. rewrite Hc7, Hl7, Hw7 in Hget. rewrite Hw7 in Hg, Hap.
  exists (trace (during_mempool i) (at_mempool i (wallet b))).1, s2, c, update. split; [..|done|done].
  all: try (rewrite Hw2; done).
  - rewrite Hw2, <- Hls. done.
  - rewrite Hw2, <- Hw7. unfold calls. rewrite !length_app, !Nat2Z.inj_add. rewrite Hw5 in H6'. cbn in H6'.
    apply (moves_weaken (Z.of_nat (length (calls_of (sync_events i))) +
      (Z.of_nat (length (after_sync i)) + (0 + (0 + Z.of_nat (length (during_mempool i))))))); [|lia].
    eapply moves_trans; [exact H3'|]. eapply moves_trans; [exact H4'|].
    eapply moves_trans; [exact H6'|]. eapply moves_trans; [exact H7'|]. by apply moves_trace.
  - by rewrite Hg.
  - exact Hget.
  - done.
Qed.
(** The mempool part of a poll is one step of [BitcoindClient.follow], whatever the poll
    comes to: with a replay exactly if the accounts are not those of the last update the
    wallet took, and taken if the poll completes. *)
Lemma poll_mempool_follows (i : poll_inputs) (g : Z) b b' (r : outcome Error ListenerSyncOutcome) (H : gset Txid) polls :
  poll_mempool i g b = (b', r) →
  ∃ applied,
    let p := BitcoindClient.mkPoll (mempool_answers i) (mempool_time i) (lightning_height i)
      (AggregateWallet.unconfirmed_txids_with_last_seen (inner (wallet b)))
      (negb (last_mempool_account_generation b =? g)) applied in
    api_client b' = BitcoindClient.client
      (BitcoindClient.follow p (BitcoindClient.mkFollowing (api_client b) H polls)).1 ∧
    (∀ g', r = Ok (Complete g') → applied = true).
Proof.
  unfold poll_mempool, with_state. unfold mbind at 1, cmd_bind at 1. unfold on_client at 1.
  unfold BitcoindClient.follow. cbn [BitcoindClient.answers BitcoindClient.poll_time
    BitcoindClient.poll_height BitcoindClient.unconfirmed BitcoindClient.replay
    BitcoindClient.applied BitcoindClient.client].
  destruct (BitcoindClient.get_updated_mempool_transactions _ _ _ _ _ (api_client b)) as [c [u|e|]];
    simpl map_err; cbn beta iota; [|intros [= <- <-]; by exists false..].
  unfold mbind at 1, cmd_bind at 1. unfold other_tasks at 1. cbn beta iota.
  unfold mbind at 1, cmd_bind at 1.
  destruct (apply_mempool (payment_clock i 2) g u _) as [b2 o] eqn:Ha.
  unfold apply_mempool, with_state in Ha. cbn [wallet] in Ha.
  destruct (negb _); [injection Ha as <- <-; intros [= <- <-]; by exists false|].
  unfold mbind, cmd_bind, on_wallet in Ha. cbn [wallet api_client] in Ha.
  destruct (apply_mempool_txs _ _ _ _ _ _) as [s2 [[]|e|]];
    [|injection Ha as <- <-; intros [= <- <-]; by exists false..].
  injection Ha as <- <-. unfold mbind, cmd_bind, on_wallet. cbn [wallet api_client].
  destruct (record_sync_time (sync_time i) s2) as [s3 [[]|e|]]; intros [= <- <-]; by exists true.
Qed.

(** ** Completed polls *)

(** Accounts that are the same by the generation. *)
Lemma moves_loaded n s s' a :
  moves n s s' → ok s → n < 2 ^ 64 → Wallet.account_generation s' = Wallet.account_generation s →
  a ∈ get_loaded_onchain_wallet_accounts s ↔ a ∈ get_loaded_onchain_wallet_accounts s'.
Proof.
  intros Hm Hs Hn Heq. unfold get_loaded_onchain_wallet_accounts. rewrite !elem_of_loaded_keys.
  by rewrite (moves_same _ _ _ Hm Hs Hn Heq).
Qed.

Definition attempt_calls (x : poll_inputs * list account_call) : list account_call := calls x.1 ++ x.2.

(** The state before the [n]-th attempt, where those before it were all made. *)
Fixpoint before_attempt (attempt : nat → poll_inputs * list account_call) (n : nat) b : Bitcoind :=
  match n with
  | 0%nat => b
  | Datatypes.S n =>
      (other_tasks (attempt n).2
         (poll_and_update_listeners_inner (attempt n).1 (before_attempt attempt n b)).1).1
  end.
(** The [n]-th attempt ends, and the accounts are not those it was made with. *)
Definition accounts_changed (attempt : nat → poll_inputs * list account_call) b (n : nat) : Prop :=
  ∃ o, (poll_and_update_listeners_inner (attempt n).1 (before_attempt attempt n b)).2 = Ok o ∧
    o ≠ Complete (Wallet.account_generation (wallet (before_attempt attempt (Datatypes.S n) b))).

Lemma before_attempt_ok attempt n b :
  (∀ n, Forall typed (attempt_calls (attempt n))) → ok (wallet b) → ok (wallet (before_attempt attempt n b)).
Proof.
  intros Hc Hok. induction n as [|n IH]; [done|]. cbn [before_attempt].
  destruct (proj1 (Forall_app _ _ _) (Hc n)) as [Ht1 Ht2].
  apply (bmoves_tasks _ Ht2 _ _ _ (surjective_pairing _)), (bmoves_inner _ Ht1 _ _ _ (surjective_pairing _)), IH.
Qed.

Lemma poll_loop_complete attempt n retries b b' :
  (∀ k, (k < n)%nat → accounts_changed attempt b k) →
  poll_loop attempt n retries (before_attempt attempt n b) = (b', Ok tt) →
  ∃ k b1, (k ≤ n + retries)%nat ∧ (∀ j, (j < k)%nat → accounts_changed attempt b j) ∧
    poll_and_update_listeners_inner (attempt k).1 (before_attempt attempt k b)
      = (b1, Ok (Complete (Wallet.account_generation (wallet b')))) ∧
    b' = (other_tasks (attempt k).2 b1).1.
Proof.
  revert n. induction retries as [|retries IH]; intros n Hn.
  all: cbn [poll_loop]; intros (b1 & o & H1 & Hrest)%cmd_bind_Ok.
  all: apply cmd_bind_Ok in Hrest as (b2 & [] & H2 & Hrest); injection H2 as H2; unfold with_state in Hrest.
  all: assert (Hb2 : before_attempt attempt (Datatypes.S n) b = b2)
    by (cbn [before_attempt]; rewrite H1; exact H2).
  all: assert (Hnot : o ≠ Complete (Wallet.account_generation (wallet b2)) →
    ∀ k, (k < Datatypes.S n)%nat → accounts_changed attempt b k)
    by (intros Ho k Hk; destruct (decide (k = n)) as [->|]; [|apply Hn; lia];
        exists o; by rewrite Hb2, H1).
  all: destruct o as [g|]; [destruct (Z.eqb_spec (Wallet.account_generation (wallet b2)) g) as [Hg|]|].
  1,4: injection Hrest as <-; rewrite Hg; exists n, b1; split_and!; [lia|done..].
  1,2: discriminate Hrest.
  all: rewrite <- Hb2 in Hrest; destruct (IH (Datatypes.S n)) as (k & b3 & ? & ? & ? & ?);
    [apply Hnot; congruence|done|]; exists k, b3; split_and!; [lia|done..].
Qed.

(** C24. A poll that reports success, in spite of accounts that other tasks add and remove
    at any point meanwhile, was made by the first of its attempts, at most four, during
    which the accounts did not change.  In that attempt every account that is loaded now had
    a listener; every block that was connected or disconnected on any of them was applied,
    one after the other; the update that the client made of the full node's answers, which
    is a replay exactly if the last one was for other accounts, was applied to the wallet
    all these blocks made, with the same accounts loaded; and the wallet it made is the one
    the poll leaves, up to the metrics and what other tasks did after it.  The client moves
    its watermark by that update and the next poll replays the mempool if the accounts
    change.  Other tasks make fewer than 2^64 account calls during an attempt. *)
Theorem poll_complete attempt b b' :
  (∀ n, Forall typed (attempt_calls (attempt n)) ∧
        Z.of_nat (length (attempt_calls (attempt n))) < 2 ^ 64) →
  inv (wallet b) → is_u64 (Wallet.account_generation (wallet b)) →
  poll_and_update_listeners attempt b = (b', Ok tt) →
  ∃ n s2 c update,
    (n ≤ MAX_ACCOUNT_SET_CHANGE_RETRIES)%nat ∧
    (∀ k, (k < n)%nat → accounts_changed attempt b k) ∧
    let b0 := before_attempt attempt n b in
    let i := (attempt n).1 in
    let ls := poll_listeners i (wallet b0) in
    let s1 := (trace (during_mempool i) (at_mempool i (wallet b0))).1 in
    (∀ a, ls !! a = Some None ↔ a ∈ get_loaded_onchain_wallet_accounts (wallet b')) ∧
    all_applied (sync_events i) ls (at_snapshot i (wallet b0)) ∧
    BitcoindClient.get_updated_mempool_transactions (mempool_answers i) (mempool_time i)
      (lightning_height i)
      (AggregateWallet.unconfirmed_txids_with_last_seen (inner (at_mempool i (wallet b0))))
      (negb (last_mempool_account_generation b0 =? Wallet.account_generation (wallet b')))
      (api_client b0) = (c, Ok update) ∧
    apply_mempool_txs tlv_encode tlv_decode (payment_clock i 2) (update_transactions update)
      (update_evicted update) s1 = (s2, Ok tt) ∧
    (∀ a, a ∈ get_loaded_onchain_wallet_accounts s1 ↔
          a ∈ get_loaded_onchain_wallet_accounts (wallet b')) ∧
    wallet b' = (trace (attempt n).2 (record_sync_time (sync_time i) s2).1).1 ∧
    api_client b' = BitcoindClient.commit_mempool_timestamp (next_timestamp update) c ∧
    last_mempool_account_generation b' = Wallet.account_generation (wallet b').
Proof.
  intros Hc Hinv Hu Hrun.
  destruct (poll_loop_complete attempt 0 MAX_ACCOUNT_SET_CHANGE_RETRIES b b') as (n & b1 & Hn & Hch & Hin & Hb');
    [lia|done|].
  destruct (Hc n) as [[Ht1 Ht2]%Forall_app Hlen].
  pose proof (before_attempt_ok attempt n b (λ n, proj1 (Hc n)) (conj Hinv Hu)) as Hok.
  destruct (poll_inner_complete _ _ _ _ Hin Hok Ht1) as (s1 & s2 & c & update & C).
  destruct C as [C1 C2 C3 C4 C5 C6 -> C8 C9]. set (s1 := (trace (during_mempool _) _).1) in *.
  assert (Hw : wallet b' = (trace (attempt n).2 (record_sync_time (sync_time (attempt n).1) s2).1).1)
    by (by rewrite Hb', C9).
  assert (Hm1 : moves (0 + (0 + Z.of_nat (length (attempt n).2))) s1 (wallet b')).
  { rewrite Hw. apply (moves_trans _ _ _ s2).
    - pose proof (moves_silent _ s1 (silent_apply_mempool (payment_clock (attempt n).1 2)
        (update_transactions update) (update_evicted update))) as H. by rewrite C8 in H.
    - eapply moves_trans; [|by apply moves_trace].
      apply (moves_silent _ s2 (silent_record_time (sync_time (attempt n).1))). }
  assert (Hok1 : ok s1) by (by apply C4).
  unfold attempt_calls in Hlen. rewrite length_app, Nat2Z.inj_add in Hlen.
  exists n, s2, c, update. split; [lia|]. split; [done|]. cbv zeta. split_and!; try done.
  - intros a. unfold poll_listeners. rewrite new_listeners_lookup.
    assert (Htips : a ∈ (account_sync_snapshot (at_snapshot (attempt n).1
        (wallet (before_attempt attempt n b)))).2.*1 ↔ a ∈ get_loaded_onchain_wallet_accounts (wallet b')).
    { unfold account_sync_snapshot, get_loaded_onchain_wallet_accounts. cbn [snd].
      rewrite elem_of_tips, elem_of_loaded_keys.
      rewrite (moves_same _ _ (wallet b') (moves_trans _ _ _ _ _ C4 Hm1) C1); [done|lia|by rewrite C2]. }
    rewrite <-Htips. case_decide; naive_solver.
  - intros a. apply (moves_loaded _ _ _ _ Hm1 Hok1); [lia|by rewrite C5].
  - by rewrite Hb', C9.
  - pose proof (f_equal last_mempool_account_generation Hb') as Hl. by rewrite C9 in Hl.
Qed.

(** The initial synchronisation ends as a poll does: with every account that is loaded
    then; and its wait after a failure stays between two seconds and five minutes. *)
Theorem initial_sync_complete rounds b b' backoff backoff' :
  (∀ r, r ∈ rounds → Forall typed (calls (round_poll r) ++ after_round r) ∧
        Z.of_nat (length (calls (round_poll r) ++ after_round r)) < 2 ^ 64) →
  inv (wallet b) → is_u64 (Wallet.account_generation (wallet b)) →
  CHAIN_POLLING_INTERVAL_SECS ≤ backoff ≤ MAX_BACKOFF_SECS →
  initial_sync rounds backoff b = (b', Ok (Synchronized, backoff')) →
  CHAIN_POLLING_INTERVAL_SECS ≤ backoff' ≤ MAX_BACKOFF_SECS ∧
  ∃ r b0 s1 s2 c update b1, r ∈ rounds ∧
    completed (round_poll r) (Wallet.account_generation (wallet b')) b0 s1 s2 c update b1 ∧
    moves (Z.of_nat (length (after_round r))) (wallet b1) (wallet b').
Proof.
  revert b backoff. induction rounds as [|r rounds IH]; intros b backoff Hc Hi Hu Hb; cbn [initial_sync]; [done|].
  destruct (stop_before r); [done|].
  destruct (Hc r) as [[Ht1 Ht2]%Forall_app _]; [by left|].
  assert (Hc' : ∀ r, r ∈ rounds → Forall typed (calls (round_poll r) ++ after_round r) ∧
    Z.of_nat (length (calls (round_poll r) ++ after_round r)) < 2 ^ 64) by (intros; apply Hc; by right).
  destruct (poll_and_update_listeners_inner (round_poll r) b) as [b1 o] eqn:Hp.
  assert (Hok1 : ok (wallet b1)) by (apply (bmoves_inner _ Ht1 _ _ _ Hp); by split).
  assert (Hrest : ∀ b2 backoff2, ok (wallet b2) → CHAIN_POLLING_INTERVAL_SECS ≤ backoff2 ≤ MAX_BACKOFF_SECS →
    initial_sync rounds backoff2 b2 = (b', Ok (Synchronized, backoff')) →
    CHAIN_POLLING_INTERVAL_SECS ≤ backoff' ≤ MAX_BACKOFF_SECS ∧
    ∃ r' b0 s1 s2 c update b1, r' ∈ r :: rounds ∧
      completed (round_poll r') (Wallet.account_generation (wallet b')) b0 s1 s2 c update b1 ∧
      moves (Z.of_nat (length (after_round r'))) (wallet b1) (wallet b')).
  { intros b2 backoff2 [Hi2 Hu2] Hb2 Hrun.
    destruct (IH b2 backoff2 Hc' Hi2 Hu2 Hb2 Hrun) as (? & r' & b0 & s1 & s2 & c & update & b3 & Hr' & ?).
    split; [done|]. exists r', b0, s1, s2, c, update, b3. by split; [right|]. }
  destruct o as [[g|]|e|]; [| |destruct (stop_in_backoff r); [done|]|done].
  - pose proof (bmoves_tasks _ Ht2 b1 _ _ (surjective_pairing _)) as Hm.
    destruct (Z.eqb_spec (Wallet.account_generation (wallet (other_tasks (after_round r) b1).1)) g) as [Hg|].
    + intros [= <- <-]. split; [done|]. destruct (poll_inner_complete _ _ _ _ Hp (conj Hi Hu) Ht1)
        as (s1 & s2 & c & update & Hcomp). exists r, b, s1, s2, c, update, b1. split_and!; [by left|by rewrite <-Hg in Hcomp|done].
    + apply Hrest; [|done]. by apply Hm.
  - by apply Hrest.
  - apply Hrest; [done|]. unfold next_backoff, MAX_BACKOFF_SECS, CHAIN_POLLING_INTERVAL_SECS in *. lia.
Qed.
End bitcoind.
End Bitcoind.
