(* ===== verification/Electrum.v ===== *)
(** * The Electrum chain source ([src/chain/electrum.rs])

    Its timeouts, the client that exists while the node runs, the registrations of LDK's
    filter, the replacement of a broken connection by several tasks, the gate that keeps
    callbacks out after a shutdown began, the synchronisation of the Lightning wallet, and
    the balance of an address. *)

From S2P Require Import Prelude Errors KVStore DataStore Types PaymentStore Bdk AggTypes.
From S2P Require Import AggUtxo AggSigning AggRbf Aggregate AggBuild AggInvariant.
From S2P Require Import FeeEstimator Config WalletKeys Event NodeMetrics ChainFees TxBroadcaster Wallet.
From S2P Require Import WalletAccounts WalletPayments ChainSync Mempool Bitcoind.

Definition DEFAULT_ELECTRUM_CONNECTION_TIMEOUT_SECS : Z := 10.
Definition BDK_ELECTRUM_CLIENT_BATCH_SIZE : Z := 5.
Definition BDK_CLIENT_STOP_GAP : Z := 20.
Definition BDK_WALLET_SYNC_TIMEOUT_SECS : Z := 20.
Definition u8_max : Z := 255.

(** [usize] is 64 bits wide. *)
Definition div_ceil (a b : Z) : outcome Error Z :=
  if b =? 0 then Panic else Ok ((a + b - 1) / b).

(** ** Timeouts *)

Definition effective_connection_timeout_secs (configured_timeout_secs : Z) : Z :=
  let requested_timeout :=
    if configured_timeout_secs =? 0 then DEFAULT_ELECTRUM_CONNECTION_TIMEOUT_SECS
    else configured_timeout_secs in
  Z.min requested_timeout u8_max.

Record FullScanSettings := mkScan { stop_gap : Z; batch_size : Z }.
Record ElectrumSyncConfig := mkElectrumConfig {
  connection_timeout_secs : Z;
  additional_wallet_full_scan_batch_size : Z;
  additional_wallet_full_scan_stop_gap : Z;
}.

Definition PRIMARY_WALLET_FULL_SCAN_SETTINGS : FullScanSettings :=
  mkScan BDK_CLIENT_STOP_GAP BDK_ELECTRUM_CLIENT_BATCH_SIZE.
Definition additional_wallet_full_scan_settings (config : ElectrumSyncConfig) : FullScanSettings :=
  mkScan (Z.max (additional_wallet_full_scan_stop_gap config) 1)
    (Z.max (additional_wallet_full_scan_batch_size config) 1).

Definition additional_wallet_full_scan_timeout (settings : FullScanSettings) (keychain_count : Z) :
    outcome Error Z :=
  requests ← div_ceil (stop_gap settings) (batch_size settings);
  let request_count := saturating_mul64 requests keychain_count in
  Ok (saturating_add64 BDK_WALLET_SYNC_TIMEOUT_SECS request_count).

Definition additional_wallet_incremental_batch_size (account_index : Z)
    (full_scan_settings : FullScanSettings) : Z :=
  if account_index =? 0 then BDK_ELECTRUM_CLIENT_BATCH_SIZE else batch_size full_scan_settings.

(** [bdk_chain]'s [SyncProgress] *)
Record SyncProgress := mkProgress {
  spks_remaining : Z;
  txids_remaining : Z;
  outpoints_remaining : Z;
}.
Definition derived_wallet_incremental_sync_timeout (progress : SyncProgress) (batch_size : Z) :
    outcome Error Z :=
  requests ← div_ceil (spks_remaining progress) batch_size;
  let request_count :=
    saturating_add64 (saturating_add64 requests (txids_remaining progress)) (outpoints_remaining progress) in
  Ok (saturating_add64 BDK_WALLET_SYNC_TIMEOUT_SECS request_count).

(** The timeout of an additional account's request (in [sync_onchain_wallet_inner]). *)
Definition additional_request_timeout (config : ElectrumSyncConfig) (account_index : Z)
    (request : SyncProgress + Z) : outcome Error Z :=
  let settings := additional_wallet_full_scan_settings config in
  match request with
  | inl progress =>
      if account_index =? 0 then Ok BDK_WALLET_SYNC_TIMEOUT_SECS
      else derived_wallet_incremental_sync_timeout progress
             (additional_wallet_incremental_batch_size account_index settings)
  | inr keychain_count => additional_wallet_full_scan_timeout settings keychain_count
  end.

(** Whatever is configured, the connection times out after 1 to 255 seconds, and every
    request of an additional account has a timeout of at least the usual one, which grows
    with the number of requests and never overflows. *)
Theorem electrum_timeouts_finite config account_index (request : SyncProgress + Z) :
  0 ≤ connection_timeout_secs config →
  match request with
  | inl p => is_u64 (spks_remaining p) ∧ is_u64 (txids_remaining p) ∧ is_u64 (outpoints_remaining p)
  | inr keychain_count => is_u64 keychain_count
  end →
  0 < effective_connection_timeout_secs (connection_timeout_secs config) ≤ u8_max ∧
  ∃ t, additional_request_timeout config account_index request = Ok t ∧
    BDK_WALLET_SYNC_TIMEOUT_SECS ≤ t ≤ u64_max.
Proof.
  intros Hc Hr. split.
  { unfold effective_connection_timeout_secs, u8_max, DEFAULT_ELECTRUM_CONNECTION_TIMEOUT_SECS.
    destruct (Z.eqb_spec (connection_timeout_secs config) 0); lia. }
  assert (Hadd : ∀ n, 0 ≤ n → ∃ t, Ok (E := Error) (saturating_add64 BDK_WALLET_SYNC_TIMEOUT_SECS n) = Ok t ∧
    BDK_WALLET_SYNC_TIMEOUT_SECS ≤ t ≤ u64_max).
  { intros n Hn. eexists; split; [done|].
    unfold saturating_add64, BDK_WALLET_SYNC_TIMEOUT_SECS, u64_max. lia. }
  assert (Hdiv : ∀ a b, 0 ≤ a → 0 < b → 0 ≤ (a + b - 1) / b) by (intros; apply Z.div_pos; lia).
  unfold additional_request_timeout. destruct request as [p|k].
  - destruct Hr as ([? ?] & [? ?] & [? ?]). destruct (Z.eqb_spec account_index 0) as [->|Hne].
    { exists BDK_WALLET_SYNC_TIMEOUT_SECS. by unfold BDK_WALLET_SYNC_TIMEOUT_SECS, u64_max; split; [|lia]. }
    unfold derived_wallet_incremental_sync_timeout, div_ceil, additional_wallet_incremental_batch_size.
    rewrite (proj2 (Z.eqb_neq _ _) Hne). simpl.
    destruct (Z.eqb_spec (Z.max (additional_wallet_full_scan_batch_size config) 1) 0); [lia|]. simpl.
    apply Hadd. pose proof (Hdiv (spks_remaining p) (Z.max (additional_wallet_full_scan_batch_size config) 1)).
    unfold saturating_add64, u64_max. lia.
  - unfold additional_wallet_full_scan_timeout, div_ceil. simpl.
    destruct (Z.eqb_spec (Z.max (additional_wallet_full_scan_batch_size config) 1) 0); [lia|]. simpl.
    apply Hadd. destruct Hr.
    pose proof (Hdiv (Z.max (additional_wallet_full_scan_stop_gap config) 1)
      (Z.max (additional_wallet_full_scan_batch_size config) 1)).
    assert (0 ≤ (Z.max (additional_wallet_full_scan_stop_gap config) 1 +
       Z.max (additional_wallet_full_scan_batch_size config) 1 - 1) /
       Z.max (additional_wallet_full_scan_batch_size config) 1 * k) by (apply Z.mul_nonneg_nonneg; lia).
    unfold saturating_mul64, u64_max. lia.
Qed.

(** ** The client and LDK's filter ([ElectrumRuntimeStatus]) *)

Module ElectrumRuntimeStatus.
Section status.
(** [WatchedOutput] *)
Context {WatchedOutput : Type}.

(** The registrations in the client's [tx_sync]. *)
Record client := mkElectrumClient {
  watched_txs : list (Txid * Script);
  watched_outputs : list WatchedOutput;
}.
Inductive ElectrumRuntimeStatus :=
| Started (c : client)
| Stopped (pending_registered_txs : list (Txid * Script))
    (pending_registered_outputs : list WatchedOutput).
Implicit Types (s : ElectrumRuntimeStatus) (c : client).

Definition new : ElectrumRuntimeStatus := Stopped [] [].

Definition client_register_tx (tx : Txid * Script) c := mkElectrumClient (watched_txs c ++ [tx]) (watched_outputs c).
Definition client_register_output (o : WatchedOutput) c := mkElectrumClient (watched_txs c) (watched_outputs c ++ [o]).

(** [connects]: whether the connections are established. *)
Definition start (connects : bool) s : ElectrumRuntimeStatus * outcome Error unit :=
  match s with
  | Stopped pending_registered_txs pending_registered_outputs =>
      if connects then
        let c := foldl (λ c tx, client_register_tx tx c) (mkElectrumClient [] []) pending_registered_txs in
        let c := foldl (λ c o, client_register_output o c) c pending_registered_outputs in
        (Started c, Ok tt)
      else (s, Err ConnectionFailed)
  | Started _ => (s, Ok tt)
  end.
Definition stop s : ElectrumRuntimeStatus * option client :=
  match s with
  | Started c => (new, Some c)
  | Stopped _ _ => (new, None)
  end.
Definition get_client s : option client :=
  match s with Started c => Some c | Stopped _ _ => None end.
Definition register_tx (tx : Txid * Script) s : ElectrumRuntimeStatus :=
  match s with
  | Started c => Started (client_register_tx tx c)
  | Stopped txs outputs => Stopped (txs ++ [tx]) outputs
  end.
Definition register_output (o : WatchedOutput) s : ElectrumRuntimeStatus :=
  match s with
  | Started c => Started (client_register_output o c)
  | Stopped txs outputs => Stopped txs (outputs ++ [o])
  end.

Inductive filter_op := FStart (connects : bool) | FStop | FTx (tx : Txid * Script) | FOutput (o : WatchedOutput).
Definition filter_exec s (o : filter_op) : ElectrumRuntimeStatus :=
  match o with
  | FStart connects => (start connects s).1
  | FStop => (stop s).1
  | FTx tx => register_tx tx s
  | FOutput o => register_output o s
  end.

(** What was registered since the last stop. *)
Definition since_stop (l : list filter_op) : list filter_op :=
  foldl (λ acc o, match o with FStop => [] | _ => acc ++ [o] end) [] l.
Definition txs_in (l : list filter_op) : list (Txid * Script) :=
  omap (λ o, match o with FTx tx => Some tx | _ => None end) l.
Definition outputs_in (l : list filter_op) : list WatchedOutput :=
  omap (λ o, match o with FOutput o => Some o | _ => None end) l.

Lemma register_txs (l : list (Txid * Script)) c :
  foldl (λ c tx, client_register_tx tx c) c l = mkElectrumClient (watched_txs c ++ l) (watched_outputs c).
Proof.
  revert c. induction l as [|tx l IH]; intros c; simpl; [by rewrite app_nil_r; destruct c|].
  rewrite IH. simpl. by rewrite <-app_assoc.
Qed.
Lemma register_outputs (l : list WatchedOutput) c :
  foldl (λ c o, client_register_output o c) c l = mkElectrumClient (watched_txs c) (watched_outputs c ++ l).
Proof.
  revert c. induction l as [|o l IH]; intros c; simpl; [by rewrite app_nil_r; destruct c|].
  rewrite IH. simpl. by rewrite <-app_assoc.
Qed.

Definition registered s : list (Txid * Script) * list WatchedOutput :=
  match s with
  | Started c => (watched_txs c, watched_outputs c)
  | Stopped txs outputs => (txs, outputs)
  end.

(** The client watches exactly what was registered since the node was last stopped, in
    order, also what was registered before it was started: a transaction or output that
    was registered before a stop is not watched after the next start unless it is
    registered again. *)
Theorem watched_since_stop (l : list filter_op) :
  let s := foldl filter_exec new l in
  registered s = (txs_in (since_stop l), outputs_in (since_stop l)) ∧
  (∀ l1 l2 connects, l = l1 ++ [FStop] ++ l2 ++ [FStart connects] →
     (∀ o, o ∈ l2 → o ≠ FStop) →
     registered s = (txs_in l2, outputs_in l2)).
Proof.
  cbv zeta.
  assert (Hone : ∀ l, registered (foldl filter_exec new l) = (txs_in (since_stop l), outputs_in (since_stop l))).
  { clear. intros l. induction l as [|o l IH] using rev_ind; [done|]. unfold since_stop in *.
    rewrite !foldl_app. simpl. set (s := foldl filter_exec new l) in *.
    destruct o as [connects| |tx|o]; simpl.
    - unfold txs_in, outputs_in in *. rewrite !omap_app. csimpl. rewrite !app_nil_r, <-IH.
      destruct s as [c|txs outputs]; [done|]. simpl. destruct connects; [|done]. simpl.
      by rewrite register_txs, register_outputs.
    - by destruct s.
    - unfold txs_in, outputs_in in *. rewrite !omap_app. csimpl. rewrite app_nil_r.
      destruct s; simpl in *; congruence.
    - unfold txs_in, outputs_in in *. rewrite !omap_app. csimpl. rewrite app_nil_r.
      destruct s; simpl in *; congruence. }
  split; [apply Hone|]. intros l1 l2 connects -> Hn. rewrite Hone.
  assert (Hs : since_stop (l1 ++ [FStop] ++ l2 ++ [FStart connects]) = l2 ++ [FStart connects]).
  { unfold since_stop. rewrite !foldl_app. simpl.
    assert (Hl2 : ∀ acc, foldl (λ acc o, match o with FStop => [] | _ => acc ++ [o] end) acc l2 = acc ++ l2).
    { clear -Hn. induction l2 as [|o l2 IH]; intros acc; simpl; [by rewrite app_nil_r|].
      assert (o ≠ FStop) by (apply Hn; by left). rewrite IH by (intros; apply Hn; by right).
      destruct o; try done; by rewrite <-app_assoc. }
    by rewrite Hl2. }
  rewrite Hs. unfold txs_in, outputs_in. rewrite !omap_app. csimpl. by rewrite !app_nil_r.
Qed.
End status.
End ElectrumRuntimeStatus.

(** ** Replacing a broken connection ([reconnect_main_client])

    Clients are numbered as they are created; [current] is the shared one.  A task that
    found a client broken checks whether it is still the current one, connects, and
    installs the new client unless another task did so meanwhile. *)

Module Reconnect.

Inductive phase :=
| Begun (failed : nat)
| Connecting (failed : nat)
| Done (failed : nat) (differs : bool).
Record state := mkState { current : nat; created : nat; tasks : gmap nat phase }.
Implicit Types (s : state).

Definition init : state := mkState 0 1 ∅.

(** A call on a client finds its connection broken. *)
Definition begin_reconnect (t failed : nat) s : state :=
  mkState (current s) (created s) (<[t := Begun failed]> (tasks s)).
(** [if !is_current() { return true; }] *)
Definition check_current (t failed : nat) s : state :=
  mkState (current s) (created s)
    (<[t := if decide (current s = failed) then Connecting failed else Done failed true]> (tasks s)).
(** [connect_main()] succeeds. *)
Definition connected (t failed : nat) s : state :=
  let fresh := created s in
  mkState (if decide (current s = failed) then fresh else current s) (Datatypes.S fresh)
    (<[t := Done failed true]> (tasks s)).
(** [connect_main()] fails. *)
Definition not_connected (t failed : nat) s : state :=
  mkState (current s) (created s)
    (<[t := Done failed (negb (bool_decide (current s = failed)))]> (tasks s)).

(** A broken client is one that was the shared client once: no newer than it is now. *)
Inductive step : state → state → Prop :=
| StepBegin t failed s : tasks s !! t = None → (failed ≤ current s)%nat → step s (begin_reconnect t failed s)
| StepCheck t failed s : tasks s !! t = Some (Begun failed) → step s (check_current t failed s)
| StepConnected t failed s : tasks s !! t = Some (Connecting failed) → step s (connected t failed s)
| StepNotConnected t failed s :
    tasks s !! t = Some (Connecting failed) → step s (not_connected t failed s).

Definition failed_client (p : phase) : nat :=
  match p with Begun f | Connecting f | Done f _ => f end.
Definition invariant s : Prop :=
  (current s < created s)%nat ∧
  ∀ t p, tasks s !! t = Some p → (failed_client p ≤ current s)%nat ∧
    (∀ f, p = Done f true → (f < current s)%nat).

Lemma reconnect_step_inv s s' :
  invariant s → step s s' → invariant s' ∧ (current s ≤ current s')%nat ∧
  (current s' ≠ current s →
     ∃ t, tasks s !! t = Some (Connecting (current s)) ∧ current s' = created s).
Proof.
  intros [Hc Ht] Hstep.
  assert (Hins : ∀ t p c n, (current s ≤ c)%nat → (c < n)%nat → (failed_client p ≤ c)%nat →
    (∀ f, p = Done f true → (f < c)%nat) → invariant (mkState c n (<[t := p]> (tasks s)))).
  { intros t p c n Hle Hn Hf Hd. split; [done|]. simpl. intros t' p' [[-> ->]|[_ Hp]]%lookup_insert_Some; [done|].
    destruct (Ht t' p' Hp) as [? Hd']. split; [lia|]. intros f Hf'. specialize (Hd' f Hf'). lia. }
  destruct Hstep as [t failed s Hn Hf|t failed s Hp|t failed s Hp|t failed s Hp].
  - split_and!; [by apply Hins|done|done].
  - destruct (Ht _ _ Hp) as [Hle _]. simpl in Hle. split_and!; [|done|done].
    apply Hins; [done..| |]; case_decide; [done|done|done|]. intros f [= <-]. lia.
  - destruct (Ht _ _ Hp) as [Hle _]. simpl in Hle. unfold connected. case_decide as Heq; simpl.
    + split_and!; [|lia|intros _; exists t; by subst failed]. apply Hins; simpl; [lia..|].
      intros f [= <-]. lia.
    + split_and!; [|done|done]. apply Hins; simpl; [lia..|]. intros f [= <-]. lia.
  - destruct (Ht _ _ Hp) as [Hle _]. simpl in Hle. split_and!; [|done|done].
    apply Hins; [done..|]. intros f [= <- Hb]. apply negb_true_iff, bool_decide_eq_false in Hb. lia.
Qed.

(** However the tasks of several failed calls interleave, the shared client is replaced
    only by a new one and only by a task that found it broken itself, so that a client
    another task has installed stays; and a task that reports success leaves a client that
    is newer than the one that failed, from then on. *)
Theorem reconnect_keeps_newer s s' :
  rtc step init s → rtc step s s' →
  (current s ≤ current s')%nat ∧
  (∀ t f, tasks s !! t = Some (Done f true) → (f < current s')%nat) ∧
  (∀ s'', step s' s'' → current s'' ≠ current s' →
     ∃ t, tasks s' !! t = Some (Connecting (current s')) ∧ current s'' = created s' ∧
       ∀ t' p, tasks s' !! t' = Some p → failed_client p ≠ current s'').
Proof.
  intros Hs Hs'.
  assert (Hinv : ∀ s1 s2, rtc step s1 s2 → invariant s1 → invariant s2 ∧ (current s1 ≤ current s2)%nat).
  { clear. intros s1 s2 Hr Hi. induction Hr as [|s1 s2 s3 Hst _ IH]; [done|].
    destruct (reconnect_step_inv _ _ Hi Hst) as (Hi2 & ? & _). destruct (IH Hi2). split; [done|lia]. }
  destruct (Hinv _ _ Hs) as [Hi _]; [split; [simpl; lia|done]|]. destruct (Hinv _ _ Hs' Hi) as [Hi' Hle].
  split_and!; [done| |].
  - intros t f Ht. destruct Hi as [_ Hi]. destruct (Hi _ _ Ht) as [_ Hd]. specialize (Hd f eq_refl). lia.
  - intros s'' Hst Hne. destruct (reconnect_step_inv _ _ Hi' Hst) as (_ & _ & H).
    destruct (H Hne) as (t & Ht & Hcur). exists t. split_and!; [done..|].
    intros t' p Hp. destruct Hi' as [Hc Hi']. destruct (Hi' _ _ Hp) as [? _]. lia.
Qed.
End Reconnect.

(** ** The gate ([ConfirmGate] and [ShutdownAwareConfirm])

    A callback of [tx_sync] into LDK passes the gate in four moves: it looks at the gate,
    upgrades its references, looks at the gate again, and calls LDK.  The node may begin
    to shut down at any time between them. *)

Module ConfirmGate.
Section gate.
(** A callback: [transactions_confirmed], [transaction_unconfirmed], [best_block_updated],
    or [get_relevant_txids]. *)
Context {Callback : Type}.

Inductive phase := Entered | Upgrading | Looking | Calling | Returned.
Record state := mkState {
  active : bool;
  callbacks : gmap nat (Callback * phase);
  (** What LDK was called with, in order. *)
  forwarded : list (nat * Callback);
}.
Implicit Types (s : state).

Definition init : state := mkState true ∅ [].
Definition is_active s : bool := active s.
Definition deactivate s : state := mkState false (callbacks s) (forwarded s).
Definition move (t : nat) (c : Callback) (p : phase) s : state :=
  mkState (active s) (<[t := (c, p)]> (callbacks s)) (forwarded s).

(** [with_confirmables], move by move; [alive]: whether everything could be upgraded. *)
Definition look (t : nat) (c : Callback) (next : phase) s : state :=
  move t c (if is_active s then next else Returned) s.
Definition upgrade (t : nat) (c : Callback) (alive : bool) s : state :=
  move t c (if alive then Looking else Returned) s.
Definition forward (t : nat) (c : Callback) s : state :=
  mkState (active s) (<[t := (c, Returned)]> (callbacks s)) (forwarded s ++ [(t, c)]).

Inductive step : state → state → Prop :=
| StepDeactivate s : step s (deactivate s)
| StepEnter t c s : callbacks s !! t = None → step s (move t c Entered s)
| StepLook t c s : callbacks s !! t = Some (c, Entered) → step s (look t c Upgrading s)
| StepUpgrade t c alive s : callbacks s !! t = Some (c, Upgrading) → step s (upgrade t c alive s)
| StepLookAgain t c s : callbacks s !! t = Some (c, Looking) → step s (look t c Calling s)
| StepForward t c s : callbacks s !! t = Some (c, Calling) → step s (forward t c s).

(** From [s] on, [l] was forwarded. *)
Definition closed_since s s' (l : list (nat * Callback)) : Prop :=
  active s' = false ∧ forwarded s' = forwarded s ++ l ∧ NoDup l.*1 ∧
  (∀ x, x ∈ l → callbacks s !! x.1 = Some (x.2, Calling)) ∧
  (∀ t c, callbacks s' !! t = Some (c, Calling) → callbacks s !! t = Some (c, Calling) ∧ t ∉ l.*1).

Lemma closed_step s s1 s2 l :
  closed_since s s1 l → step s1 s2 → ∃ l', closed_since s s2 l'.
Proof.
  intros (Ha & Hf & Hd & Hl & Hc) Hst.
  assert (Hmove : ∀ t c p, p ≠ Calling → closed_since s (move t c p s1) l).
  { intros t c p Hp. split_and!; [done..|]. simpl.
    intros t' c' [[_ [= _ ->]]|[_ ?]]%lookup_insert_Some; [done|by apply Hc]. }
  destruct Hst as [s1|t c s1 _|t c s1 _|t c alive s1 _|t c s1 _|t c s1 Ht].
  - by exists l.
  - exists l. by apply Hmove.
  - exists l. unfold look, is_active. rewrite Ha. by apply Hmove.
  - exists l. apply Hmove. by destruct alive.
  - exists l. unfold look, is_active. rewrite Ha. by apply Hmove.
  - destruct (Hc t c Ht) as [Hts Htl]. exists (l ++ [(t, c)]). split_and!; [done| | | |]; simpl.
    + by rewrite Hf, app_assoc.
    + rewrite fmap_app. apply NoDup_app. split_and!; [done| |by apply NoDup_singleton].
      intros t' Ht' ->%list_elem_of_singleton. done.
    + intros x [?| ->%list_elem_of_singleton]%elem_of_app; [by apply Hl|done].
    + intros t' c' [[_ ?]|[Hne Hc']]%lookup_insert_Some; [done|].
      destruct (Hc t' c' Hc') as [? Hn]. split; [done|]. rewrite fmap_app, elem_of_app.
      intros [?| ->%list_elem_of_singleton]; done.
Qed.

(** Once the node began to shut down, in every interleaving, only callbacks that had
    already looked at the gate twice reach LDK, each at most once. *)
Theorem gate_closed s s' :
  active s = false → rtc step s s' →
  ∃ l, forwarded s' = forwarded s ++ l ∧ NoDup l.*1 ∧
    ∀ t c, (t, c) ∈ l → callbacks s !! t = Some (c, Calling).
Proof.
  intros Ha Hr. assert (∃ l, closed_since s s' l) as (l & _ & Hf & Hd & Hl & _).
  2:{ exists l. split_and!; [done..|]. intros t c Hin. exact (Hl (t, c) Hin). }
  assert (Hs : closed_since s s []).
  { split_and!; [done|by rewrite app_nil_r|constructor|by intros ? ?%elem_of_nil|].
    intros t c Ht. split; [done|apply not_elem_of_nil]. }
  assert (Hgen : ∀ s1 l, closed_since s s1 l → rtc step s1 s' → ∃ l', closed_since s s' l').
  { clear. intros s1 l Hl Hr. revert l Hl. induction Hr as [s1|s1 s2 s3 Hst _ IH]; intros l Hl; [by exists l|].
    destruct (closed_step _ _ _ _ Hl Hst) as [l' Hl']. by eapply IH. }
  by apply (Hgen s []).
Qed.
End gate.
End ConfirmGate.
