(* ===== verification/LightningSync.v ===== *)
(** * Synchronising the Lightning wallet ([sync_lightning_wallet] of [src/chain/esplora.rs]
      and [src/chain/electrum.rs]) and the balance of an address

    LDK's [tx_sync] client confirms transactions in the channel manager, the monitors and
    the sweeper; its outcome is an input.  What the node does with it is to record the time
    and to archive monitors. *)

From S2P Require Import Prelude Errors KVStore DataStore Types PaymentStore Bdk AggTypes.
From S2P Require Import AggUtxo AggSigning AggRbf Aggregate AggBuild AggInvariant.
From S2P Require Import FeeEstimator Config WalletKeys Event NodeMetrics ChainFees Broadcast.
From S2P Require Import TxBroadcaster Wallet WalletAccounts WalletPayments ChainSync Bitcoind.
Import Wallet.

Section lightning_sync.
Context {S : Type} {KV : KVStore S}.
Context {W P D : Type} (metrics_encode : NodeMetrics → bytes).
Abbreviation wallet_state := (Wallet S W P D).
Abbreviation wcmd A := (cmd wallet_state Error A).
Implicit Types (s : wallet_state).

Definition record_lightning_sync (now : option Z) : wcmd unit :=
  _ ← modify (λ s, set_metrics (set_lightning_sync_timestamp now (node_metrics s)) s);
  ChainSync.persist_metrics metrics_encode.

(** The height is that of the channel manager. *)
Definition after_lightning_sync (now : option Z) (height : Z) : wcmd unit :=
  _ ← record_lightning_sync now;
  Bitcoind.periodically_archive_fully_resolved_monitors metrics_encode height.

(** [sync_lightning_wallet_inner] of Esplora *)
Definition esplora_sync_lightning (result : timed unit unit) (now : option Z) (height : Z) :
    wcmd unit :=
  match result with
  | InTime (Ok _) => after_lightning_sync now height
  | InTime (Err _) => fail TxSyncFailed
  | InTime Panic => lift Panic
  | TimedOut => fail TxSyncTimeout
  end.

(** [sync_confirmables]; an error inside is that of [tx_sync] or of the blocking task. *)
Definition sync_confirmables (result : timed unit unit) (gate_active : bool) : outcome Error unit :=
  match result with
  | TimedOut => Err TxSyncTimeout
  | InTime (Ok _) => if gate_active then Ok tt else Err TxSyncFailed
  | InTime _ => Err TxSyncFailed
  end.

(** [sync_lightning_wallet_inner] of Electrum; [started]: whether there is a client. *)
Definition electrum_sync_lightning (started : bool) (result : timed unit unit) (gate_active : bool)
    (now : option Z) (height : Z) : wcmd unit :=
  if negb started then fail TxSyncFailed
  else
    match sync_confirmables result gate_active with
    | Ok _ => after_lightning_sync now height
    | res => lift res
    end.

Inductive lightning_source :=
| LightningEsplora (result : timed unit unit)
| LightningElectrum (started : bool) (result : timed unit unit) (gate_active : bool).
(** [ChainSource::sync_lightning_wallet], for the transaction-based sources *)
Definition sync_lightning_wallet (source : lightning_source) (now : option Z) (height : Z) : wcmd unit :=
  match source with
  | LightningEsplora result => esplora_sync_lightning result now height
  | LightningElectrum started result gate_active =>
      electrum_sync_lightning started result gate_active now height
  end.

(** Whether the server's part succeeded while the node was not shutting down. *)
Definition synced (source : lightning_source) : Prop :=
  match source with
  | LightningEsplora result => result = InTime (Ok tt)
  | LightningElectrum started result gate_active =>
      started = true ∧ result = InTime (Ok tt) ∧ gate_active = true
  end.

Context {KVS : KVStoreSpec S}.
Abbreviation stored s := (kv_view (DataStore.kv_store (payment_store s)) !! NODE_METRICS_KEY).

Lemma persist_metrics_Ok s s' :
  ChainSync.persist_metrics metrics_encode s = (s', Ok tt) →
  node_metrics s' = node_metrics s ∧ stored s' = Some (metrics_encode (node_metrics s')).
Proof.
  unfold ChainSync.persist_metrics, write_node_metrics.
  destruct (kv_write _ _ _) as [kv [[]|e|]] eqn:Hw; intros [= <-]. split; [done|]. simpl.
  rewrite (kv_write_Ok _ _ _ _ Hw). by rewrite lookup_insert_eq.
Qed.

Lemma after_sync_Ok now height s s' :
  after_lightning_sync now height s = (s', Ok tt) →
  latest_lightning_wallet_sync_timestamp (node_metrics s') = now ∧
  stored s' = Some (metrics_encode (node_metrics s')) ∧
  ∃ h, latest_channel_monitor_archival_height (node_metrics s') = Some h ∧
    (h = height ∨ height < wrap32 (h + RESOLVED_CHANNEL_MONITOR_ARCHIVAL_INTERVAL)).
Proof.
  intros (s1 & [] & H1 & H2)%cmd_bind_Ok. apply cmd_bind_Ok in H1 as (s0 & [] & H0 & H1).
  injection H0 as <-. apply persist_metrics_Ok in H1 as [Hm1 Hst1].
  unfold Bitcoind.periodically_archive_fully_resolved_monitors, with_state in H2.
  destruct (latest_channel_monitor_archival_height (node_metrics s1)) as [h|] eqn:Hh.
  - destruct (Z.leb_spec (wrap32 (h + RESOLVED_CHANNEL_MONITOR_ARCHIVAL_INTERVAL)) height).
    + apply cmd_bind_Ok in H2 as (s2 & [] & H0 & H2). injection H0 as <-.
      apply persist_metrics_Ok in H2 as [Hm2 Hst2].
      split_and!; [by rewrite Hm2; simpl; rewrite Hm1|exact Hst2|].
      exists height. by split; [rewrite Hm2|left].
    + injection H2 as <-. split_and!; [by rewrite Hm1|done|]. exists h. by split; [|right].
  - apply cmd_bind_Ok in H2 as (s2 & [] & H0 & H2). injection H0 as <-.
    apply persist_metrics_Ok in H2 as [Hm2 Hst2].
    split_and!; [by rewrite Hm2; simpl; rewrite Hm1|exact Hst2|].
    exists height. by split; [rewrite Hm2|left].
Qed.

(** A successful synchronisation of the Lightning wallet means that the server's part
    succeeded, in time and not after a shutdown began, that the time is recorded in memory
    and on disk, and that the monitors were archived recently; whenever the server's part
    fails nothing changes and the failure is reported. *)
Theorem lightning_sync_recorded source now height s s' r :
  sync_lightning_wallet source now height s = (s', r) →
  (r = Ok tt → synced source ∧
     latest_lightning_wallet_sync_timestamp (node_metrics s') = now ∧
     stored s' = Some (metrics_encode (node_metrics s')) ∧
     ∃ h, latest_channel_monitor_archival_height (node_metrics s') = Some h ∧
       (h = height ∨ height < wrap32 (h + RESOLVED_CHANNEL_MONITOR_ARCHIVAL_INTERVAL))) ∧
  (¬ synced source → s' = s ∧ r ≠ Ok tt).
Proof.
  destruct source as [result|started result gate_active]; simpl.
  - destruct result as [[[]|e|]|]; simpl; [|intros [= <- <-]; by split..].
    intros Hr. split; [|done]. intros ->. split; [done|]. by apply (after_sync_Ok _ _ s).
  - unfold electrum_sync_lightning. destruct started; simpl; [|intros [= <- <-]; split; [done|by intros _]].
    destruct result as [[[]|e|]|]; simpl; [|intros [= <- <-]; split; [done|by intros _]..].
    destruct gate_active; [|intros [= <- <-]; split; [done|by intros _]].
    intros Hr. split; [|by intros []]. intros ->. split; [done|]. by apply (after_sync_Ok _ _ s).
Qed.
End lightning_sync.

(** ** The balance of an address ([get_address_balance]) *)

(** The outputs of a transaction in the address's history, and the outputs it spends. *)
Record EsploraTx := mkEsploraTx {
  vout : list TxOut;
  vin_prevout : list (option TxOut);
}.

(** Values are cast to [i64]. *)
Definition add_output (script : Script) (balance : Z) (o : TxOut) : Z :=
  if decide (script_pubkey o = script) then wrap_i64 (balance + as_i64 (value o)) else balance.
Definition sub_input (script : Script) (balance : Z) (o : option TxOut) : Z :=
  match o with
  | Some prevout =>
      if decide (script_pubkey prevout = script) then wrap_i64 (balance - as_i64 (value prevout))
      else balance
  | None => balance
  end.
Definition esplora_tx_balance (script : Script) (balance : Z) (tx : EsploraTx) : Z :=
  foldl (sub_input script) (foldl (add_output script) balance (vout tx)) (vin_prevout tx).
Definition esplora_address_balance (script : Script) (txs : option (list EsploraTx)) : option Z :=
  (λ txs, Z.max (foldl (esplora_tx_balance script) 0 txs) 0) <$> txs.

(** The server's confirmed and unconfirmed balance. *)
Definition electrum_address_balance (balance : option (Z * Z)) : option Z :=
  (λ '(confirmed, unconfirmed), wrap64 (Z.max confirmed 0 + Z.max unconfirmed 0)) <$> balance.

(** What a transaction adds to the address. *)
Definition effect (script : Script) (tx : EsploraTx) : Z :=
  sum_Z ((λ o, if decide (script_pubkey o = script) then value o else 0) <$> vout tx) -
  sum_Z ((λ o, match o with
               | Some o => if decide (script_pubkey o = script) then value o else 0
               | None => 0
               end) <$> vin_prevout tx).

Lemma wrap_i64_add_l a b : wrap_i64 (wrap_i64 a + b) = wrap_i64 (a + b).
Proof.
  unfold wrap_i64. f_equal.
  replace ((a + 2 ^ 63) mod 2 ^ 64 - 2 ^ 63 + b + 2 ^ 63) with ((a + 2 ^ 63) mod 2 ^ 64 + b) by lia.
  rewrite Zplus_mod_idemp_l. f_equal. lia.
Qed.
Lemma wrap_i64_add_r a b : wrap_i64 (a + wrap_i64 b) = wrap_i64 (a + b).
Proof. rewrite (Z.add_comm a), wrap_i64_add_l. f_equal. lia. Qed.
Lemma wrap_i64_sub_r a b : wrap_i64 (a - wrap_i64 b) = wrap_i64 (a - b).
Proof.
  unfold wrap_i64. f_equal.
  replace (a - ((b + 2 ^ 63) mod 2 ^ 64 - 2 ^ 63) + 2 ^ 63)
    with (a + 2 ^ 63 + 2 ^ 63 - (b + 2 ^ 63) mod 2 ^ 64) by lia.
  rewrite Zminus_mod_idemp_r. f_equal. lia.
Qed.
Lemma wrap_i64_small z : - 2 ^ 63 ≤ z < 2 ^ 63 → wrap_i64 z = z.
Proof. intros. unfold wrap_i64. rewrite Z.mod_small; lia. Qed.

Lemma outputs_sum script outs z :
  foldl (add_output script) (wrap_i64 z) outs =
  wrap_i64 (z + sum_Z ((λ o, if decide (script_pubkey o = script) then value o else 0) <$> outs)).
Proof.
  revert z. induction outs as [|o outs IH]; intros z; csimpl; [by rewrite Z.add_0_r|].
  unfold add_output at 2. case_decide.
  - unfold as_i64. rewrite wrap_i64_add_r, wrap_i64_add_l, IH. f_equal. lia.
  - rewrite IH. done.
Qed.
Lemma inputs_sum script ins z :
  foldl (sub_input script) (wrap_i64 z) ins =
  wrap_i64 (z - sum_Z ((λ o, match o with
               | Some o => if decide (script_pubkey o = script) then value o else 0
               | None => 0
               end) <$> ins)).
Proof.
  revert z. induction ins as [|o ins IH]; intros z; csimpl; [by rewrite Z.sub_0_r|].
  unfold sub_input at 2. destruct o as [o|]; [|by rewrite IH]. case_decide.
  - unfold as_i64. rewrite wrap_i64_sub_r.
    replace (wrap_i64 (wrap_i64 z - value o)) with (wrap_i64 (z - value o))
      by (unfold Z.sub at 2; by rewrite wrap_i64_add_l).
    rewrite IH. f_equal. lia.
  - by rewrite IH.
Qed.
Lemma esplora_balance_sum script txs z :
  foldl (esplora_tx_balance script) (wrap_i64 z) txs = wrap_i64 (z + sum_Z (effect script <$> txs)).
Proof.
  revert z. induction txs as [|tx txs IH]; intros z; csimpl; [by rewrite Z.add_0_r|].
  unfold esplora_tx_balance at 2. rewrite outputs_sum, inputs_sum, IH. f_equal. unfold effect. lia.
Qed.

(** For an address whose confirmed transactions add up to [c] and whose unconfirmed ones to
    [u], Esplora's answer is the sum.  Electrum's is larger whenever a pending
    transaction spends more from the address than it receives. *)
Theorem address_balances script (confirmed unconfirmed : list EsploraTx) :
  let c := sum_Z (effect script <$> confirmed) in
  let u := sum_Z (effect script <$> unconfirmed) in
  0 ≤ c < 2 ^ 62 → - 2 ^ 62 ≤ u < 2 ^ 62 →
  esplora_address_balance script (Some (confirmed ++ unconfirmed)) = Some (Z.max (c + u) 0) ∧
  electrum_address_balance (Some (c, u)) = Some (c + Z.max u 0) ∧
  (electrum_address_balance (Some (c, u)) =
     esplora_address_balance script (Some (confirmed ++ unconfirmed)) ↔ 0 ≤ u ∨ c = 0).
Proof.
  intros c u Hc Hu.
  assert (He : esplora_address_balance script (Some (confirmed ++ unconfirmed)) = Some (Z.max (c + u) 0)).
  { simpl. f_equal. f_equal. change 0 with (wrap_i64 0) at 1.
    rewrite esplora_balance_sum, fmap_app, sum_Z_app. apply wrap_i64_small. fold c u. lia. }
  assert (Hel : electrum_address_balance (Some (c, u)) = Some (c + Z.max u 0)).
  { simpl. f_equal. rewrite wrap64_small; [lia|]. unfold is_u64, u64_max. lia. }
  split_and!; [done..|]. rewrite He, Hel. split; [intros [=]; lia|intros ?; f_equal; lia].
Qed.
