(* ===== verification/WalletSend.v ===== *)
(** * Sending on-chain funds ([src/wallet/mod.rs])

    Payments, fee bumps and channel funding.  A payment is built on the primary wallet,
    with the other wallets' outputs as foreign inputs where it needs them, and checked
    against the reserve kept for anchor channels before it is signed, recorded and handed
    to the broadcaster. *)

From S2P Require Import Prelude Errors KVStore DataStore Types PaymentStore Bdk AggTypes.
From S2P Require Import AggUtxo AggSigning AggRbf Aggregate AggBuild AggInvariant.
From S2P Require Import FeeEstimator Config WalletKeys Event NodeMetrics TxBroadcaster Wallet.
Import Wallet.

Inductive OnchainSendAmount :=
| ExactRetainingReserve (amount_sats cur_anchor_reserve_sats : Z)
| AllRetainingReserve (cur_anchor_reserve_sats : Z)
| AllDrainingReserve.

(** [impl From<BdkCreateTxError> for Error] *)
Definition from_create_tx_error (e : CreateTxError) : Error :=
  match e with CoinSelectionError => InsufficientFunds | _ => OnchainTxCreationFailed end.

Definition checked_sum (values : list Z) : outcome Error Z :=
  try_fold (λ t v, ok_or (checked_add64 t v) InsufficientFunds) 0 values.

Section send.
Context {S : Type} {KV : KVStore S}.
Context {O : IterOrder OnchainWalletAccount} {OT : IterOrder Txid}.
Context {BTC : Bitcoin} {W P U Ev : Type} {BDK : Bdk W P U Ev} {CS : CoinSelection}.
Context {D : Type}.
Context (txid_to_string : Txid → string).
(** [TxIn::default().segwit_weight()] *)
Context (default_input_weight : Weight).
(** [lightning::chain::chaininterface::FEERATE_FLOOR_SATS_PER_KW] *)
Context (FEERATE_FLOOR_SATS_PER_KW : Z).
(** Whether the text of an address parses and [require_network] accepts it. *)
Context (address_valid : Address → Network → bool).
Abbreviation Aggregate := (AggregateWallet.AggregateWallet OnchainWalletAccount W P).
Abbreviation wallet_state := (Wallet S W P D).
Abbreviation wcmd A := (cmd wallet_state Error A).
Implicit Types (s : wallet_state) (a : Aggregate) (channels : list (option OutPoint)).

Definition additional_input_weight (utxos : list aggregate.UtxoPsbtInfo) : outcome Error Weight :=
  try_fold (λ total utxo,
    ok_or (w ← checked_add64 total default_input_weight;
           checked_add64 w (aggregate.weight utxo)) InvalidFeeRate) 0 utxos.

(** [infos.map(additional_input_weight).transpose()?.unwrap_or(Weight::ZERO)] *)
Definition optional_input_weight (utxos : option (list aggregate.UtxoPsbtInfo)) :
    outcome Error Weight :=
  match utxos with Some us => additional_input_weight us | None => Ok 0 end.

Definition checked_payment_target (amount_sats : Z) (recipient_spk : Script)
    (manual_utxo_infos : option (list aggregate.UtxoPsbtInfo)) (fee_rate : FeeRate) :
    outcome Error Amount :=
  let recipient_weight := txout_weight {| value := 0; script_pubkey := recipient_spk |} in
  manual_input_weight ← optional_input_weight manual_utxo_infos;
  let min_weight := wrap64 (wrap64 (42 + recipient_weight) + manual_input_weight) in
  min_fee ← ok_or (fee_wu fee_rate min_weight) InvalidFeeRate;
  ok_or (checked_add64 amount_sats min_fee) InsufficientFunds.

Definition parse_and_validate_address (address : Address) s : outcome Error unit :=
  if address_valid address (network s) then Ok tt else Err InvalidAddress.

Definition estimate_fee_rate (target : ConfirmationTarget) s : FeeRate :=
  OnchainFeeEstimator.estimate_fee_rate FEERATE_FLOOR_SATS_PER_KW (fee_estimator s) target.

(** ** Building *)

(** The outpoints the caller names are outputs of the wallets and not of channel
    funding transactions; their values add up. *)
Definition check_outpoint (all_utxos : list LocalOutput) channels (o : OutPoint) :
    outcome Error unit :=
  if decide (o ∉ outpoint <$> all_utxos) then Err WalletOperationFailed
  else if is_funding_transaction (txid o) channels then Err WalletOperationFailed
  else Ok tt.

Definition check_outpoints (all_utxos : list LocalOutput) channels
    (utxos_to_spend : option (list OutPoint)) : outcome Error unit :=
  match utxos_to_spend with
  | None => Ok tt
  | Some outpoints =>
      _ ← try_fold (λ _ o, check_outpoint all_utxos channels o) tt outpoints;
      _ ← checked_sum ((λ u, value (txout u)) <$>
            List.filter (λ u, bool_decide (outpoint u ∈ outpoints)) all_utxos);
      Ok tt
  end.

Definition funding_txids (all_utxos : list LocalOutput) channels : gset Txid :=
  list_to_set ((λ u, txid (outpoint u)) <$>
    List.filter (λ u, is_funding_transaction (txid (outpoint u)) channels) all_utxos).

(** The outputs of the other wallets, for a payment of all funds. *)
Definition non_primary_infos a (send_amount : OnchainSendAmount)
    (utxos_to_spend : option (list OutPoint)) (funding : gset Txid) :
    outcome Error (option (list aggregate.UtxoPsbtInfo)) :=
  match utxos_to_spend, send_amount with
  | None, (AllDrainingReserve | AllRetainingReserve _) =>
      infos ← map_err (λ _, WalletOperationFailed) (build.non_primary_foreign_utxos a funding);
      Ok (if decide (infos = []) then None else Some infos)
  | _, _ => Ok None
  end.

Definition manual_infos a (utxos_to_spend : option (list OutPoint)) :
    outcome Error (option (list aggregate.UtxoPsbtInfo)) :=
  match utxos_to_spend with
  | Some outpoints =>
      infos ← map_err (λ _, WalletOperationFailed) (build.prepare_outpoints_for_psbt a outpoints);
      Ok (Some infos)
  | None => Ok None
  end.

(** [add_utxos_to_tx_builder], where there are any. *)
Definition add_infos (w : W) (b : TxBuilder) (infos : option (list aggregate.UtxoPsbtInfo)) :
    outcome Error TxBuilder :=
  match infos with
  | Some infos =>
      map_err (λ _, OnchainTxCreationFailed) (utxo.add_utxos_to_tx_builder w b infos)
  | None => Ok b
  end.
Definition add_manual (w : W) (b : TxBuilder) (infos : option (list aggregate.UtxoPsbtInfo)) :
    outcome Error TxBuilder :=
  b ← add_infos w b infos;
  Ok (match infos with Some _ => b ++ [ManuallySelectedOnly] | None => b end).

Definition primary_wallet a : outcome Error W :=
  map_err (λ _, WalletOperationFailed) (AggregateWallet.primary_wallet a).

(** [tx_builder.finish()] on the primary wallet. *)
Definition finish_primary (b : TxBuilder) : wcmd (Psbt + CreateTxError) :=
  with_state (λ s,
    w ← lift (primary_wallet (inner s));
    let '(w, r) := finish w b in
    _ ← modify (λ s, set_inner (AggregateWallet.set_wallet (AggregateWallet.primary (inner s)) w
                                  (inner s)) s);
    mret r).

(** [locked_wallet.cancel_dry_run_tx(&psbt.unsigned_tx)] *)
Definition cancel_dry_run (psbt : Psbt) : wcmd unit :=
  on_inner (λ _, WalletOperationFailed) (AggregateWallet.cancel_dry_run_tx (unsigned_tx psbt)).

(** [self.get_balances_inner(..).map(|(_, s)| s).unwrap_or(0)] *)
Definition spendable_sats (balance : Balance) (reserve : Z) s : outcome Error Z :=
  match get_balances_inner balance reserve s with
  | Ok (_, spendable) => Ok spendable
  | Err _ => Ok 0
  | Panic => Panic
  end.

(** [AllRetainingReserve] with a reserve above dust: a temporary transaction that pays
    the reserve to a change address shows the fee, and the rest is sent. *)
Definition reserve_builder (script : Script) (reserve : Z) (fee_rate : FeeRate)
    (manual non_primary : option (list aggregate.UtxoPsbtInfo)) (balance : Balance) :
    wcmd TxBuilder :=
  with_state (λ s,
    w ← lift (primary_wallet (inner s));
    spendable_amount_sats ← lift (spendable_sats balance reserve s);
    tmp_builder ← lift (add_manual w
      [DrainWallet; DrainTo script; AddRecipient (build.change_script w) reserve;
       SetFeeRate fee_rate] manual);
    r ← finish_primary tmp_builder;
    tmp_psbt ← lift (match r with inl psbt => Ok psbt | inr e => Err (from_create_tx_error e) end);
    _ ← cancel_dry_run tmp_psbt;
    with_state (λ s,
      base_fee ← lift (map_err (λ _, WalletOperationFailed)
                         (AggregateWallet.calculate_fee_from_psbt (inner s) tmp_psbt));
      extra_input_weight ← lift (optional_input_weight non_primary);
      extra_input_fee ← lift (ok_or (fee_wu fee_rate extra_input_weight) InvalidFeeRate);
      estimated_tx_fee ← lift (ok_or (checked_add64 base_fee extra_input_fee) InvalidFeeRate);
      let estimated_spendable_amount := saturating_sub spendable_amount_sats estimated_tx_fee in
      if estimated_spendable_amount <? DUST_LIMIT_SATS then fail InsufficientFunds
      else mret [AddRecipient script estimated_spendable_amount; FeeAbsolute estimated_tx_fee])).

Definition drain_builder (script : Script) (fee_rate : FeeRate) : TxBuilder :=
  [DrainWallet; DrainTo script; SetFeeRate fee_rate].

(** The calls on the builder before inputs are added. *)
Definition start_builder (script : Script) (send_amount : OnchainSendAmount)
    (fee_rate : FeeRate) (manual non_primary : option (list aggregate.UtxoPsbtInfo))
    (balance : Balance) : wcmd TxBuilder :=
  match send_amount with
  | ExactRetainingReserve amount_sats _ =>
      mret [AddRecipient script amount_sats; SetFeeRate fee_rate]
  | AllRetainingReserve reserve =>
      if DUST_LIMIT_SATS <? reserve
      then reserve_builder script reserve fee_rate manual non_primary balance
      else mret (drain_builder script fee_rate)
  | AllDrainingReserve => mret (drain_builder script fee_rate)
  end.

Definition fallback_error (e : aggregate.Error) : Error :=
  match e with
  | aggregate.InsufficientFunds => InsufficientFunds
  | _ => OnchainTxCreationFailed
  end.

(** [tx_builder.finish()]; a payment of an exact amount that the primary wallet cannot
    make on its own is tried again over all wallets. *)
Definition finish_or_retry (script : Script) (send_amount : OnchainSendAmount)
    (fee_rate : FeeRate) (manual non_primary : option (list aggregate.UtxoPsbtInfo))
    (funding : gset Txid) (b : TxBuilder) : wcmd Psbt :=
  r ← finish_primary b;
  match r with
  | inl psbt => mret psbt
  | inr e =>
      match send_amount, manual, non_primary with
      | ExactRetainingReserve amount_sats _, None, None =>
          on_inner fallback_error
            (build.build_psbt_with_cross_wallet_fallback script amount_sats fee_rate funding
               BranchAndBound)
      | _, _, _ => fail (from_create_tx_error e)
      end
  end.

(** [locked_wallet.cancel_dry_run_tx(..); return Err(e)] *)
Definition cancel_and_fail {A} (psbt : Psbt) (e : Error) : wcmd A :=
  _ ← cancel_dry_run psbt; fail e.

Definition check_reserve (send_amount : OnchainSendAmount) (balance : Balance) (psbt : Psbt) :
    wcmd unit :=
  with_state (λ s,
    match send_amount with
    | ExactRetainingReserve amount_sats reserve =>
        spendable_amount_sats ← lift (spendable_sats balance reserve s);
        match AggregateWallet.calculate_fee_with_fallback (inner s) psbt with
        | Ok tx_fee_sats =>
            if spendable_amount_sats <? saturating_add64 amount_sats tx_fee_sats
            then cancel_and_fail psbt InsufficientFunds else mret tt
        | Err _ => cancel_and_fail psbt WalletOperationFailed
        | Panic => lift Panic
        end
    | AllRetainingReserve reserve =>
        spendable_amount_sats ← lift (spendable_sats balance reserve s);
        drain_amount ← lift (map_err (λ _, WalletOperationFailed)
                               (AggregateWallet.drain_amount_from_psbt (inner s) psbt));
        if spendable_amount_sats <? drain_amount
        then cancel_and_fail psbt InsufficientFunds else mret tt
    | AllDrainingReserve => mret tt
    end).

(** The inputs of the builder: what is chosen by hand, or the other wallets' outputs. *)
Definition build_transaction_psbt (script : Script) (send_amount : OnchainSendAmount)
    (fee_rate : FeeRate) (utxos_to_spend : option (list OutPoint)) channels : wcmd Psbt :=
  with_state (λ s,
    let all_utxos := AggregateWallet.list_unspent (inner s) in
    _ ← lift (check_outpoints all_utxos channels utxos_to_spend);
    let funding := funding_txids all_utxos channels in
    non_primary ← lift (non_primary_infos (inner s) send_amount utxos_to_spend funding);
    manual ← lift (manual_infos (inner s) utxos_to_spend);
    _ ← lift (match send_amount with
              | ExactRetainingReserve amount_sats _ =>
                  checked_payment_target amount_sats script manual fee_rate
              | _ => Ok 0
              end);
    balance ← lift (map_err (λ _, WalletOperationFailed) (AggregateWallet.balance (inner s)));
    b ← start_builder script send_amount fee_rate manual non_primary balance;
    with_state (λ s,
      w ← lift (primary_wallet (inner s));
      b ← lift (add_manual w b manual);
      b ← lift (add_infos w b non_primary);
      psbt ← finish_or_retry script send_amount fee_rate manual non_primary funding b;
      _ ← check_reserve send_amount balance psbt;
      mret psbt)).

(** ** Sending *)

(** [fee_rate.unwrap_or_else(|| self.fee_estimator.estimate_fee_rate(..))] *)
Definition payment_fee_rate (fee_rate : option FeeRate) s : FeeRate :=
  default (estimate_fee_rate OnchainPayment s) fee_rate.

Definition calculate_transaction_fee (address : Address) (send_amount : OnchainSendAmount)
    (fee_rate : option FeeRate) (utxos_to_spend : option (list OutPoint)) channels : wcmd Z :=
  with_state (λ s,
    _ ← lift (parse_and_validate_address address s);
    psbt ← build_transaction_psbt (address_script address) send_amount
             (payment_fee_rate fee_rate s) utxos_to_spend channels;
    with_state (λ s,
      let fee_result := AggregateWallet.calculate_fee_with_fallback (inner s) psbt in
      _ ← match fee_result with Panic => lift Panic | _ => mret tt end;
      _ ← cancel_dry_run psbt;
      lift (map_err (λ _, WalletOperationFailed) fee_result))).

Definition is_drain_all (send_amount : OnchainSendAmount) : bool :=
  match send_amount with
  | AllDrainingReserve => true
  | AllRetainingReserve reserve => reserve <=? DUST_LIMIT_SATS
  | _ => false
  end.

(** [locked_wallet.persist_all()] *)
Definition persist_wallets : wcmd unit :=
  on_inner (λ _, PersistenceFailed) AggregateWallet.persist_all.

Definition prepare_send_to_address (address : Address) (send_amount : OnchainSendAmount)
    (fee_rate : option FeeRate) (utxos_to_spend : option (list OutPoint)) channels :
    wcmd Transaction :=
  with_state (λ s,
    _ ← lift (parse_and_validate_address address s);
    let fee_rate := payment_fee_rate fee_rate s in
    if is_drain_all send_amount && bool_decide (utxos_to_spend = None) then
      tx ← on_inner (λ _, OnchainTxCreationFailed)
             (build.build_and_sign_drain (address_script address) fee_rate);
      _ ← persist_wallets;
      mret tx
    else
      psbt ← build_transaction_psbt (address_script address) send_amount fee_rate
               utxos_to_spend channels;
      tx ← with_state (λ s, lift (map_err (λ _, OnchainTxSigningFailed)
                                   (build.sign_psbt_all (inner s) psbt)));
      _ ← persist_wallets;
      mret tx).

(** Record a transaction and hand it to the broadcaster; one that cannot be recorded is
    given up and never broadcast. *)
Definition record_and_broadcast (tx : Transaction) : wcmd Txid := λ s,
  let t := compute_txid tx in
  match record_broadcast_txid txid_to_string t s with
  | (s, Ok _) => (set_broadcaster (broadcast_transactions [tx] (broadcaster s)) s, Ok t)
  | (s, Err e) =>
      match cancel_tx tx s with
      | (s, Panic) => (s, Panic)
      | (s, _) => (s, Err e)
      end
  | (s, Panic) => (s, Panic)
  end.

Definition send_to_address (address : Address) (send_amount : OnchainSendAmount)
    (fee_rate : option FeeRate) (utxos_to_spend : option (list OutPoint)) channels : wcmd Txid :=
  tx ← prepare_send_to_address address send_amount fee_rate utxos_to_spend channels;
  record_and_broadcast tx.

(** ** Fee bumps *)

Definition rbf_error (e : aggregate.Error) : Error :=
  match e with
  | aggregate.TransactionNotFound => TransactionNotFound
  | aggregate.TransactionAlreadyConfirmed => TransactionAlreadyConfirmed
  | aggregate.InvalidFeeRate => InvalidFeeRate
  | aggregate.InsufficientFunds => InsufficientFunds
  | _ => OnchainTxCreationFailed
  end.

(** The fee computed for the log. *)
Definition logged_fee (tx : Transaction) : wcmd unit :=
  with_state (λ s,
    match AggregateWallet.calculate_tx_fee (inner s) tx with
    | Panic => lift Panic
    | _ => mret tt
    end).

Definition bump_fee_by_rbf (t : Txid) (fee_rate : FeeRate) channels : wcmd Txid :=
  if is_funding_transaction t channels then fail CannotRbfFundingTransaction
  else
    with_state (λ s,
      own ← lift (is_broadcast_by_wallet txid_to_string t s);
      if negb own then fail TransactionNotBroadcastByWallet
      else
        '(tx, _) ← on_inner rbf_error (build.build_rbf t fee_rate);
        _ ← persist_wallets;
        new_txid ← record_and_broadcast tx;
        _ ← logged_fee tx;
        mret new_txid).

Definition cpfp_error (e : aggregate.Error) : Error :=
  match e with
  | aggregate.TransactionNotFound => TransactionNotFound
  | aggregate.TransactionAlreadyConfirmed => TransactionAlreadyConfirmed
  | aggregate.NoSpendableOutputs => NoSpendableOutputs
  | _ => OnchainTxCreationFailed
  end.

Definition accelerate_by_cpfp (t : Txid) (fee_rate : FeeRate)
    (destination_address : option Address) : wcmd Txid :=
  with_state (λ s,
    destination_script ← lift (match destination_address with
      | Some addr =>
          _ ← parse_and_validate_address addr s; Ok (Some (address_script addr))
      | None => Ok None
      end);
    '(tx, _, _) ← on_inner cpfp_error (build.build_cpfp t fee_rate destination_script);
    _ ← persist_wallets;
    child_txid ← record_and_broadcast tx;
    _ ← logged_fee tx;
    mret child_txid).

Definition cpfp_rate_error (e : aggregate.Error) : Error :=
  match e with
  | aggregate.TransactionNotFound => TransactionNotFound
  | aggregate.TransactionAlreadyConfirmed => TransactionAlreadyConfirmed
  | _ => WalletOperationFailed
  end.

Definition calculate_cpfp_fee_rate (parent_txid : Txid) (urgent : bool) s :
    outcome Error FeeRate :=
  let target := if urgent then Lightning MaximumFeeEstimate else OnchainPayment in
  let target_fee_rate := estimate_fee_rate target s in
  map_err cpfp_rate_error
    (build.calculate_cpfp_fee_rate (inner s) parent_txid target_fee_rate).

(** ** Channel funding *)

Definition is_segwit_account (k : OnchainWalletAccount) : bool :=
  (account_index k =? 0) && bool_decide (address_type k ≠ Legacy).

Definition funding_error (e : aggregate.Error) : Error :=
  match e with
  | aggregate.InsufficientFunds => InsufficientFunds
  | aggregate.OnchainTxSigningFailed => OnchainTxSigningFailed
  | aggregate.PersistenceFailed => PersistenceFailed
  | _ => OnchainTxCreationFailed
  end.

Definition create_funding_transaction (output_script : Script) (amount : Amount)
    (confirmation_target : ConfirmationTarget) (locktime : Z) : wcmd Transaction :=
  with_state (λ s,
    let fee_rate := estimate_fee_rate confirmation_target s in
    on_inner funding_error
      (if decide (address_type (AggregateWallet.primary (inner s)) = Legacy)
       then build.build_and_sign_tx_with_best_wallet output_script amount fee_rate locktime
              is_segwit_account
       else build.build_and_sign_funding_tx output_script amount fee_rate locktime)).

(** ** What is only done to the wallets *)

(** A command that changes no part of the state but the aggregate wallet. *)
Definition only_inner {A} (m : wcmd A) : Prop :=
  ∀ s s' r, m s = (s', r) → s' = set_inner (inner s') s.

Lemma only_inner_trans s1 s2 s3 :
  s2 = set_inner (inner s2) s1 → s3 = set_inner (inner s3) s2 → s3 = set_inner (inner s3) s1.
Proof. intros H1 H2. rewrite H2 at 1. rewrite H1. reflexivity. Qed.
Lemma only_inner_bind {A B} (m : wcmd A) (f : A → wcmd B) :
  only_inner m → (∀ x, only_inner (f x)) → only_inner (m ≫= f).
Proof.
  intros Hm Hf s s' r. unfold mbind, cmd_bind.
  destruct (m s) as [s1 [x|e|]] eqn:H1; intros H2;
    [|simplify_eq; by apply Hm in H1..].
  eapply only_inner_trans; [by eapply Hm|by eapply Hf].
Qed.
Lemma only_inner_with_state {A} (f : wallet_state → wcmd A) :
  (∀ s, only_inner (f s)) → only_inner (with_state f).
Proof. intros Hf s s' r H. by eapply Hf. Qed.
Lemma only_inner_lift {A} (r : outcome Error A) : only_inner (lift r).
Proof. intros s s' r' [= <- <-]. by destruct s. Qed.
Lemma only_inner_ret {A} (x : A) : only_inner (mret x).
Proof. intros s s' r' [= <- <-]. by destruct s. Qed.
Lemma only_inner_fail {A} e : only_inner (A := A) (fail e).
Proof. intros s s' r' [= <- <-]. by destruct s. Qed.
Lemma only_inner_on_inner {A} err (m : cmd Aggregate aggregate.Error A) :
  only_inner (on_inner err m).
Proof. intros s s' r. unfold on_inner. destruct (m (inner s)). by intros [= <- <-]. Qed.
Lemma only_inner_modify f : only_inner (modify (λ s, set_inner (f s) s)).
Proof. by intros s s' r [= <- <-]. Qed.

Ltac only_inner_step :=
  lazymatch goal with
  | |- ∀ _, _ => intro
  | |- only_inner (lift _) => apply only_inner_lift
  | |- only_inner (mret _) => apply only_inner_ret
  | |- only_inner (fail _) => apply only_inner_fail
  | |- only_inner (on_inner _ _) => apply only_inner_on_inner
  | |- only_inner (modify _) => apply only_inner_modify
  | |- only_inner (with_state _) => apply only_inner_with_state
  | |- only_inner (_ ≫= _) => apply only_inner_bind
  | |- only_inner (match ?x with _ => _ end) => destruct x
  end.
Ltac only_inner := repeat only_inner_step; auto with only_inner.

Create HintDb only_inner.

Lemma only_inner_cancel psbt : only_inner (cancel_dry_run psbt).
Proof. unfold cancel_dry_run. only_inner. Qed.
#[local] Hint Resolve only_inner_cancel : only_inner.
Lemma only_inner_finish b : only_inner (finish_primary b).
Proof. unfold finish_primary. only_inner. Qed.
#[local] Hint Resolve only_inner_finish : only_inner.
Lemma only_inner_cancel_fail {A} psbt e : only_inner (A := A) (cancel_and_fail psbt e).
Proof. unfold cancel_and_fail. only_inner. Qed.
#[local] Hint Resolve only_inner_cancel_fail : only_inner.
Lemma only_inner_reserve script reserve rate manual non_primary balance :
  only_inner (reserve_builder script reserve rate manual non_primary balance).
Proof. unfold reserve_builder. only_inner. Qed.
#[local] Hint Resolve only_inner_reserve : only_inner.
Lemma only_inner_start script amount rate manual non_primary balance :
  only_inner (start_builder script amount rate manual non_primary balance).
Proof. unfold start_builder. only_inner. Qed.
Lemma only_inner_finish_retry script amount rate manual non_primary funding b :
  only_inner (finish_or_retry script amount rate manual non_primary funding b).
Proof. unfold finish_or_retry. only_inner. Qed.
Lemma only_inner_check amount balance psbt : only_inner (check_reserve amount balance psbt).
Proof. unfold check_reserve. only_inner. Qed.
#[local] Hint Resolve only_inner_start only_inner_finish_retry only_inner_check : only_inner.
Lemma only_inner_build script amount rate utxos channels :
  only_inner (build_transaction_psbt script amount rate utxos channels).
Proof. unfold build_transaction_psbt. only_inner. Qed.
#[local] Hint Resolve only_inner_build : only_inner.
Lemma only_inner_prepare address amount rate utxos channels :
  only_inner (prepare_send_to_address address amount rate utxos channels).
Proof. unfold prepare_send_to_address, persist_wallets. only_inner. Qed.
Lemma only_inner_fee address amount rate utxos channels :
  only_inner (calculate_transaction_fee address amount rate utxos channels).
Proof. unfold calculate_transaction_fee. only_inner. Qed.

(** ** The steps of a successful build *)

Lemma build_steps script amount rate utxos channels s s' psbt :
  build_transaction_psbt script amount rate utxos channels s = (s', Ok psbt) →
  ∃ manual non_primary balance s1 b w b1 b2 s2,
    check_outpoints (AggregateWallet.list_unspent (inner s)) channels utxos = Ok tt ∧
    non_primary_infos (inner s) amount utxos
      (funding_txids (AggregateWallet.list_unspent (inner s)) channels) = Ok non_primary ∧
    manual_infos (inner s) utxos = Ok manual ∧
    AggregateWallet.balance (inner s) = Ok balance ∧
    start_builder script amount rate manual non_primary balance s = (s1, Ok b) ∧
    primary_wallet (inner s1) = Ok w ∧ add_manual w b manual = Ok b1 ∧
    add_infos w b1 non_primary = Ok b2 ∧
    finish_or_retry script amount rate manual non_primary
      (funding_txids (AggregateWallet.list_unspent (inner s)) channels) b2 s1 = (s2, Ok psbt) ∧
    check_reserve amount balance psbt s2 = (s', Ok tt).
Proof.
  unfold build_transaction_psbt, with_state at 1.
  intros ([] & Hc & H)%build.lift_bind_Ok.
  apply build.lift_bind_Ok in H as (np & Hnp & H). apply build.lift_bind_Ok in H as (m & Hm & H).
  apply build.lift_bind_Ok in H as (x & _ & H).
  apply build.lift_bind_Ok in H as (bal & Hbal%map_err_Ok & H).
  apply cmd_bind_Ok in H as (s1 & b & Hb & H). unfold with_state in H.
  apply build.lift_bind_Ok in H as (w & Hw & H). apply build.lift_bind_Ok in H as (b1 & Hb1 & H).
  apply build.lift_bind_Ok in H as (b2 & Hb2 & H).
  apply cmd_bind_Ok in H as (s2 & psbt' & Hf & H).
  apply cmd_bind_Ok in H as (s3 & [] & Hr & H). injection H as -> ->.
  by exists m, np, bal, s1, b, w, b1, b2, s2.
Qed.

(** The part of the balance that payments may use, apart from the reserve. *)
Lemma spendable_sats_Ok balance reserve s1 s x total base :
  include_untrusted_pending_in_spendable s1 = include_untrusted_pending_in_spendable s →
  spendable_sats balance reserve s1 = Ok x → get_balances_inner balance 0 s = Ok (total, base) →
  0 < x → x + reserve ≤ base.
Proof.
  intros Hf. unfold spendable_sats, get_balances_inner. rewrite Hf.
  destruct (trusted_spendable balance) as [t|e|]; cbn; [|done..].
  destruct (Wallet.total balance) as [tot|e|]; cbn; [|done..].
  intros [= <-] [= <- <-]. unfold saturating_sub. lia.
Qed.

Lemma check_reserve_exact amount reserve balance psbt s s' :
  check_reserve (ExactRetainingReserve amount reserve) balance psbt s = (s', Ok tt) →
  s' = s ∧ ∃ x fee, spendable_sats balance reserve s = Ok x ∧
    AggregateWallet.calculate_fee_with_fallback (inner s) psbt = Ok fee ∧
    saturating_add64 amount fee ≤ x.
Proof.
  unfold check_reserve, with_state. intros (x & Hx & H)%build.lift_bind_Ok.
  destruct (AggregateWallet.calculate_fee_with_fallback (inner s) psbt) as [fee|e|] eqn:Hfee;
    [|apply cmd_bind_Ok in H as (? & ? & _ & ?); done|done].
  destruct (Z.ltb_spec x (saturating_add64 amount fee));
    [apply cmd_bind_Ok in H as (? & ? & _ & ?); done|].
  injection H as <-. eauto 6.
Qed.

Lemma check_reserve_all reserve balance psbt s s' :
  check_reserve (AllRetainingReserve reserve) balance psbt s = (s', Ok tt) →
  s' = s ∧ ∃ x drained, spendable_sats balance reserve s = Ok x ∧
    AggregateWallet.drain_amount_from_psbt (inner s) psbt = Ok drained ∧ drained ≤ x.
Proof.
  unfold check_reserve, with_state. intros (x & Hx & H)%build.lift_bind_Ok.
  apply build.lift_bind_Ok in H as (d & Hd%map_err_Ok & H).
  destruct (Z.ltb_spec x d); [apply cmd_bind_Ok in H as (? & ? & _ & ?); done|].
  injection H as <-. eauto 6.
Qed.

(** Whatever BDK selected, a payment of an exact amount is only built when amount, fee and
    reserve together fit into the spendable balance the wallets had before, and a payment of
    everything above the reserve only when what leaves the wallets and the reserve fit. *)
Definition fits (amount : OnchainSendAmount) (base : Z) a (psbt : Psbt) : Prop :=
  match amount with
  | ExactRetainingReserve amount_sats reserve =>
      ∃ fee, AggregateWallet.calculate_fee_with_fallback a psbt = Ok fee ∧
        (0 ≤ reserve → 0 < amount_sats + fee → amount_sats + fee + reserve ≤ base)
  | AllRetainingReserve reserve =>
      ∃ drained, AggregateWallet.drain_amount_from_psbt a psbt = Ok drained ∧
        (0 < drained → drained + reserve ≤ base)
  | AllDrainingReserve => True
  end.

Lemma build_fits script amount rate utxos channels s s' psbt total base :
  get_balances 0 s = Ok (total, base) → base < u64_max →
  build_transaction_psbt script amount rate utxos channels s = (s', Ok psbt) →
  fits amount base (inner s') psbt.
Proof.
  clear txid_to_string. unfold get_balances. intros Hb Hmax Hrun.
  destruct (build_steps _ _ _ _ _ _ _ _ Hrun) as
    (manual & np & balance & s1 & b & w & b1 & b2 & s2 & _ & _ & _ & Hbal & Hst & _ & _ & _ & Hf & Hr).
  rewrite Hbal in Hb. simpl in Hb.
  assert (include_untrusted_pending_in_spendable s2 = include_untrusted_pending_in_spendable s) as Hi.
  { rewrite (only_inner_finish_retry _ _ _ _ _ _ _ _ _ _ Hf).
    by rewrite (only_inner_start _ _ _ _ _ _ _ _ _ Hst). }
  destruct amount as [amount reserve|reserve|]; [| |done].
  - apply check_reserve_exact in Hr as (-> & x & fee & Hx & Hfee & Hle).
    exists fee. split; [done|]. intros Hres Hpos. unfold saturating_add64 in Hle.
    pose proof (spendable_sats_Ok _ _ _ _ _ _ _ Hi Hx Hb) as Hsp.
    unfold u64_max in *. lia.
  - apply check_reserve_all in Hr as (-> & x & d & Hx & Hd & Hle).
    exists d. split; [done|]. intros Hpos.
    pose proof (spendable_sats_Ok _ _ _ _ _ _ _ Hi Hx Hb). lia.
Qed.

(** A payment to an address drains the wallets, or signs what was built. *)
Lemma prepare_steps address amount rate utxos channels s s' tx :
  prepare_send_to_address address amount rate utxos channels s = (s', Ok tx) →
  if is_drain_all amount && bool_decide (utxos = None)
  then ∃ a, build.build_and_sign_drain (address_script address) (payment_fee_rate rate s) (inner s)
         = (a, Ok tx)
  else ∃ s1 psbt,
    build_transaction_psbt (address_script address) amount (payment_fee_rate rate s) utxos channels s
      = (s1, Ok psbt) ∧ build.sign_psbt_all (inner s1) psbt = Ok tx.
Proof.
  clear txid_to_string. unfold prepare_send_to_address, with_state.
  intros ([] & _ & H)%build.lift_bind_Ok. destruct (_ && _).
  - apply cmd_bind_Ok in H as (s1 & tx1 & H1 & H). apply cmd_bind_Ok in H as (s2 & [] & _ & H).
    injection H as _ <-. unfold on_inner in H1.
    destruct (build.build_and_sign_drain _ _ _) as [a r]. injection H1 as _ Hr.
    apply map_err_Ok in Hr as ->. by exists a.
  - apply cmd_bind_Ok in H as (s1 & psbt & H1 & H). apply cmd_bind_Ok in H as (s2 & tx1 & H2 & H).
    apply cmd_bind_Ok in H as (s3 & [] & _ & H). injection H as _ <-.
    injection H2 as _ Hr. apply map_err_Ok in Hr. by exists s1, psbt.
Qed.


(** ** The inputs of a payment *)

Context {BTCS : BitcoinSpec} {BDKS : BdkSpec W P U Ev} {CSS : CoinSelectionSpec}.

Lemma check_outpoints_Ok (all_utxos : list LocalOutput) channels os o :
  check_outpoints all_utxos channels (Some os) = Ok tt → o ∈ os →
  o ∈ outpoint <$> all_utxos ∧ is_funding_transaction (txid o) channels = false.
Proof.
  unfold check_outpoints. intros H Ho.
  apply bind_Ok in H as ([] & Hf & _). revert Hf.
  induction os as [|x os IH]; [set_solver|]. cbn [try_fold].
  intros ([] & Hx & Hos)%bind_Ok. apply elem_of_cons in Ho as [->|Ho]; [|by apply IH].
  unfold check_outpoint in Hx. case_decide as Hn; [done|].
  by destruct (is_funding_transaction (txid x) channels).
Qed.

Lemma funding_txids_spec (us : list LocalOutput) channels u :
  u ∈ us → txid (outpoint u) ∉ funding_txids us channels →
  is_funding_transaction (txid (outpoint u)) channels = false.
Proof.
  unfold funding_txids. intros Hu Hn. rewrite elem_of_list_to_set in Hn.
  destruct (is_funding_transaction _ channels) eqn:Hf; [|done]. destruct Hn.
  apply list_elem_of_fmap. exists u. split; [done|]. by apply build.elem_of_filter_b.
Qed.

Lemma start_builder_outpoints script amount rate manual non_primary balance s s' b :
  start_builder script amount rate manual non_primary balance s = (s', Ok b) →
  build.builder_outpoints b = [].
Proof.
  unfold start_builder.
  destruct amount as [am res|res|]; [by intros [= <- <-]| |by intros [= <- <-]].
  destruct (DUST_LIMIT_SATS <? res); [|by intros [= <- <-]].
  unfold reserve_builder, with_state at 1. intros (w & _ & H)%build.lift_bind_Ok.
  do 2 apply build.lift_bind_Ok in H as (? & _ & H).
  apply cmd_bind_Ok in H as (? & r & _ & H). apply build.lift_bind_Ok in H as (? & _ & H).
  apply cmd_bind_Ok in H as (? & ? & _ & H). unfold with_state in H.
  do 4 apply build.lift_bind_Ok in H as (? & _ & H).
  case_match; [done|]. by injection H as <- <-.
Qed.

Lemma add_infos_builder w b infos b' :
  add_infos w b infos = Ok b' →
  build.builder_outpoints b' = build.builder_outpoints b ++
    (aggregate.info_outpoint <$> default [] infos) ∧ b `prefix_of` b'.
Proof.
  destruct infos as [infos|]; cbn.
  - intros H%map_err_Ok. apply (build.add_infos_outpoints (utxo.add_info w)) in H; [done|].
    by apply build.add_info_outpoints.
  - intros [= <-]. by rewrite app_nil_r.
Qed.

Lemma add_manual_builder w b infos b' :
  add_manual w b infos = Ok b' →
  build.builder_outpoints b' = build.builder_outpoints b ++
    (aggregate.info_outpoint <$> default [] infos) ∧
  (is_Some infos → ManuallySelectedOnly ∈ b').
Proof.
  unfold add_manual. intros (b1 & [Hb1 _]%add_infos_builder & H)%bind_Ok.
  injection H as <-. destruct infos as [infos|]; split.
  - unfold build.builder_outpoints at 1. rewrite omap_app. cbn. by rewrite app_nil_r.
  - set_solver.
  - done.
  - by intros [].
Qed.

Lemma finish_primary_Ok b s s' r :
  finish_primary b s = (s', Ok r) →
  ∃ w w', AggregateWallet.wallets (inner s) !! AggregateWallet.primary (inner s) = Some w ∧
    finish w b = (w', r) ∧
    inner s' = AggregateWallet.set_wallet (AggregateWallet.primary (inner s)) w' (inner s).
Proof.
  unfold finish_primary, with_state. intros (w & Hw & H)%build.lift_bind_Ok.
  unfold primary_wallet, AggregateWallet.primary_wallet in Hw. inv_outcome.
  destruct (finish w b) as [w' r'] eqn:Hf.
  apply cmd_bind_Ok in H as (s1 & [] & [= <-] & H). injection H as <- <-.
  exists w, w'. done.
Qed.

Lemma list_unspent_set_wallet a k w w' u :
  AggregateWallet.wallets a !! k = Some w →
  wallet_list_unspent w' = wallet_list_unspent w →
  u ∈ AggregateWallet.list_unspent (AggregateWallet.set_wallet k w' a) →
  u ∈ AggregateWallet.list_unspent a.
Proof.
  intros Hk Hw. unfold AggregateWallet.list_unspent.
  rewrite !AggregateWallet.elem_of_flat_map_values. intros (k' & x & Hx & Hu). cbn in Hx.
  destruct (decide (k' = k)) as [->|Hne].
  - rewrite lookup_insert_eq in Hx. simplify_eq. exists k, w. by rewrite <- Hw.
  - rewrite lookup_insert_ne in Hx by done. eauto.
Qed.

(** What a finished build was asked to spend. *)
Lemma finish_or_retry_Ok script amount rate manual non_primary us channels b s s' psbt :
  (∀ am res u, amount = ExactRetainingReserve am res →
     u ∈ AggregateWallet.list_unspent (inner s) → u ∈ us) →
  finish_or_retry script amount rate manual non_primary (funding_txids us channels) b s
    = (s', Ok psbt) →
  ∃ b' w w', finish w b' = (w', inl psbt) ∧
    (b' = b ∨ manual = None ∧ non_primary = None ∧
      ∀ o, o ∈ build.builder_outpoints b' →
        o ∈ outpoint <$> us ∧ is_funding_transaction (txid o) channels = false).
Proof.
  intros Hsub. unfold finish_or_retry. intros (s1 & r & H1 & H)%cmd_bind_Ok.
  apply finish_primary_Ok in H1 as (w & w' & Hw & Hf & Hi).
  destruct r as [p|e]; [injection H as <- <-; exists b, w, w'; auto|].
  destruct amount as [am res|res|], manual, non_primary; try done.
  unfold on_inner in H.
  destruct (build.build_psbt_with_cross_wallet_fallback _ _ _ _ _ _) as [i r] eqn:Hb.
  injection H as <- Hr. apply map_err_Ok in Hr as ->.
  unfold build.build_psbt_with_cross_wallet_fallback, with_state in Hb.
  apply build.build_tx_unified_Ok in Hb as (x & x' & b' & _ & Hfin & _ & _ & _ & _ & Hall).
  exists b', x, x'. split; [done|]. right. split_and!; [done..|].
  intros o Ho. destruct (Hall o Ho) as (u & Hu & <- & _ & Hn).
  rewrite Hi in Hu. apply (list_unspent_set_wallet _ _ w) in Hu; [|done|].
  - apply (Hsub _ _ _ eq_refl) in Hu. split; [by apply list_elem_of_fmap_2|]. by eapply funding_txids_spec.
  - rewrite <- (finish_unspent w b). by rewrite Hf.
Qed.

Lemma non_primary_infos_Ok a amount utxos funding infos :
  non_primary_infos a amount utxos funding = Ok infos →
  (is_Some utxos → infos = None) ∧
  ∀ o, o ∈ aggregate.info_outpoint <$> default [] infos →
    ∃ u, u ∈ AggregateWallet.list_unspent a ∧ outpoint u = o ∧ txid o ∉ funding.
Proof.
  unfold non_primary_infos. destruct utxos as [os|].
  { intros [= <-]. split; [done|set_solver]. }
  destruct amount as [am res|res|].
  1: intros [= <-]; split; [done|set_solver].
  all: intros (us & Hi%map_err_Ok & H)%bind_Ok; split; [by intros []|].
  all: unfold build.non_primary_foreign_utxos in Hi; inv_outcome; case_decide; simplify_eq;
    [set_solver|].
  all: case_decide; simplify_eq; [set_solver|]; intros o Ho; cbn in Ho;
    match goal with Hp : build.prepare_utxos_for_psbt _ _ = Ok _ |- _ =>
      apply utxo.prepare_utxos_Ok, utxo.describes_outpoints in Hp; rewrite Hp in Ho end.
  all: apply list_elem_of_fmap in Ho as (u & -> & Hu); apply build.elem_of_non_primary in Hu;
    exists u; naive_solver.
Qed.

Lemma manual_infos_Ok a utxos infos :
  manual_infos a utxos = Ok infos →
  (is_Some infos ↔ is_Some utxos) ∧
  aggregate.info_outpoint <$> default [] infos = default [] utxos.
Proof.
  destruct utxos as [os|]; cbn.
  - intros (us & Hi%map_err_Ok & H)%bind_Ok. injection H as <-. split; [done|].
    by apply utxo.prepare_outpoints_outpoints in Hi.
  - by intros [= <-].
Qed.

Lemma build_inputs script amount rate utxos channels s s' psbt :
  build_transaction_psbt script amount rate utxos channels s = (s', Ok psbt) →
  ∃ b w w', finish w b = (w', inl psbt) ∧
    (∀ os, utxos = Some os → build.builder_outpoints b = os ∧ ManuallySelectedOnly ∈ b) ∧
    ∀ o, o ∈ build.builder_outpoints b →
      o ∈ outpoint <$> AggregateWallet.list_unspent (inner s) ∧
      is_funding_transaction (txid o) channels = false.
Proof.
  intros (manual & np & balance & s1 & b & w & b1 & b2 & s2 & Hc & Hnp & Hm & _ & Hst & _ &
    Hb1 & Hb2 & Hf & _)%build_steps.
  apply start_builder_outpoints in Hst as Hb.
  apply add_manual_builder in Hb1 as [Hb1 Hmo]. apply add_infos_builder in Hb2 as [Hb2 Hpre].
  destruct (non_primary_infos_Ok _ _ _ _ _ Hnp) as [Hex Hfor].
  destruct (manual_infos_Ok _ _ _ Hm) as [Hiff Hman]. rewrite Hb1, Hb, Hman in Hb2. cbn in Hb2.
  apply finish_or_retry_Ok in Hf as (b' & x & x' & Hfin & Hcase).
  2: { intros am res u ->. by injection Hst as <- <-. }
  exists b', x, x'. split; [done|].
  destruct Hcase as [->|(-> & -> & Hall)].
  - split.
    + intros os ->. rewrite (Hex ltac:(done)) in Hb2. cbn in Hb2. rewrite app_nil_r in Hb2.
      split; [done|]. destruct Hpre as [rest ->]. apply elem_of_app. left. apply Hmo, Hiff. done.
    + intros o. rewrite Hb2, elem_of_app. intros [Ho|Ho].
      * destruct utxos as [os|]; [by eapply check_outpoints_Ok|set_solver].
      * destruct (Hfor o Ho) as (u & Hu & <- & Hn).
        split; [by apply list_elem_of_fmap_2|by eapply funding_txids_spec].
  - split; [|done]. intros os ->. destruct Hiff as [_ [? Hn]]; [done|]. done.
Qed.

(** C31. Which inputs a payment to an address names to BDK, unless it drains the wallets:
    outputs the caller chose are spent exactly as chosen, and BDK may add none; whether
    chosen or taken from the other wallets, every named input is an unspent output of a
    loaded wallet and none is an output of a channel's funding transaction.  (A payment of
    all funds without chosen outputs, channel funding and fee bumps name inputs without
    looking at the channels, and BDK chooses freely among the primary wallet's outputs when
    the caller chose none.) *)
Theorem named_inputs_safe address amount rate utxos channels s s' tx :
  prepare_send_to_address address amount rate utxos channels s = (s', Ok tx) →
  is_drain_all amount && bool_decide (utxos = None) = false →
  ∃ s1 psbt b w w', build.sign_psbt_all (inner s1) psbt = Ok tx ∧ finish w b = (w', inl psbt) ∧
    (∀ os, utxos = Some os → build.builder_outpoints b = os ∧ ManuallySelectedOnly ∈ b) ∧
    ∀ o, o ∈ build.builder_outpoints b →
      o ∈ outpoint <$> AggregateWallet.list_unspent (inner s) ∧
      is_funding_transaction (txid o) channels = false.
Proof.
  intros Hrun%prepare_steps Hd. rewrite Hd in Hrun.
  destruct Hrun as (s1 & psbt & (b & w & w' & Hf & Hb)%build_inputs & Hs). eauto 10.
Qed.
End send.
