(* ===== verification/WalletBroadcast.v ===== *)
(** * What the wallet broadcasts

    Sending, fee bumps, the payment records, the account operations, LDK's own broadcasts
    through the shared queue and the chain source that empties it, in any order: the
    wallet never hands a transaction to the broadcaster before its id is on record, which
    is what decides later whether it may be replaced.  LDK's packages carry no record. *)

From stdpp Require Import functions.
From S2P Require Import Prelude Errors KVStore DataStore Types PaymentStore Bdk AggTypes.
From S2P Require Import AggUtxo AggSigning AggRbf Aggregate AggBuild AggInvariant.
From S2P Require Import FeeEstimator Config WalletKeys Event NodeMetrics TxBroadcaster Wallet.
From S2P Require Import WalletAccounts WalletPayments WalletSend.
Import Wallet.

Section broadcast.
Context {S : Type} {KV : KVStore S} {KSPEC : KVStoreSpec S}.
Context (tlv_encode : PaymentTlv → bytes) (tlv_decode : bytes → option PaymentTlv).
Context {O : IterOrder OnchainWalletAccount} {OT : IterOrder Txid}.
Context {BTC : Bitcoin} {W P U Ev : Type} {BDK : Bdk W P U Ev} {CS : CoinSelection}.
Context {Xpriv D : Type} {B32 : Bip32 Xpriv} {WL : WalletLoader Xpriv W P}.
Context {PER : Persister P D}.
Context (txid_to_string : Txid → string) (default_input_weight : Weight).
Context (FEERATE_FLOOR_SATS_PER_KW : Z) (address_valid : Address → Network → bool).
Abbreviation Aggregate := (AggregateWallet.AggregateWallet OnchainWalletAccount W P).
Abbreviation wallet_state := (Wallet S W P D).
Abbreviation wcmd A := (cmd wallet_state Error A).
Abbreviation agg_op := (AggInvariant.op (K := OnchainWalletAccount) (W := W) (P := P) (U := U)).
Implicit Types (s : wallet_state) (t : Txid).

(** The calls on the wallet, LDK broadcasting a package (the chain monitor, the channel
    manager, the sweeper and the handler of fee-bump events share the broadcaster,
    [builder.rs] and [lib.rs]), and the chain source taking a package off the queue. *)
Inductive call :=
| Send (address : Address) (amount : OnchainSendAmount) (rate : option FeeRate)
    (utxos : option (list OutPoint)) (channels : list (option OutPoint))
| EstimateFee (address : Address) (amount : OnchainSendAmount) (rate : option FeeRate)
    (utxos : option (list OutPoint)) (channels : list (option OutPoint))
| Bump (original : Txid) (rate : FeeRate) (channels : list (option OutPoint))
| Accelerate (parent : Txid) (rate : FeeRate) (destination : option Address)
| Fund (script : Script) (amount : Amount) (target : ConfirmationTarget) (locktime : Z)
| RefreshPayments (clock : Txid → Z)
| FinishSync (clock : Txid → Z) (refresh : bool)
| Mempool (clock : Txid → Z) (unconfirmed : list (Transaction * Z)) (evicted : list (Txid * Z))
| ConnectBlock (clock : Txid → Z) (block : Block) (height : Z)
| Account (c : WalletAccounts.op agg_op)
| LdkBroadcast (package : list Transaction)
| TakePackage.

Definition silently {A} (m : wcmd A) : wcmd (option Txid) := _ ← m; mret None.
Definition sending (m : wcmd Txid) : wcmd (option Txid) := t ← m; mret (Some t).

Definition take_package : wcmd unit :=
  modify (λ s, set_broadcaster (recv_package (broadcaster s)).1 s).

Definition ldk_broadcast (package : list Transaction) : wcmd unit :=
  modify (λ s, set_broadcaster (broadcast_transactions package (broadcaster s)) s).

Definition exec (c : call) : wcmd (option Txid) :=
  match c with
  | Send address amount rate utxos channels =>
      sending (send_to_address txid_to_string default_input_weight FEERATE_FLOOR_SATS_PER_KW
        address_valid address amount rate utxos channels)
  | EstimateFee address amount rate utxos channels =>
      silently (calculate_transaction_fee default_input_weight FEERATE_FLOOR_SATS_PER_KW
        address_valid address amount rate utxos channels)
  | Bump original rate channels => sending (bump_fee_by_rbf txid_to_string original rate channels)
  | Accelerate parent rate destination =>
      sending (accelerate_by_cpfp txid_to_string address_valid parent rate destination)
  | Fund script amount target locktime =>
      silently (create_funding_transaction FEERATE_FLOOR_SATS_PER_KW script amount target locktime)
  | RefreshPayments clock => silently (update_payment_store tlv_encode tlv_decode clock)
  | FinishSync clock refresh =>
      silently (finish_pending_sync tlv_encode tlv_decode clock refresh)
  | Mempool clock unconfirmed evicted =>
      silently (apply_mempool_txs tlv_encode tlv_decode clock unconfirmed evicted)
  | ConnectBlock clock block height =>
      silently (block_connected tlv_encode tlv_decode clock block height)
  | Account c => silently (WalletAccounts.exec c)
  | LdkBroadcast package => silently (ldk_broadcast package)
  | TakePackage => silently take_package
  end.

(** A sequence of calls, which a panic ends. *)
Fixpoint run (cs : list call) s : wallet_state * list (outcome Error (option Txid)) :=
  match cs with
  | [] => (s, [])
  | c :: cs =>
      match exec c s with
      | (s, Panic) => (s, [Panic])
      | (s, r) => let '(s, rs) := run cs s in (s, r :: rs)
      end
  end.

(** ** Records *)

Definition record_of s t : option bytes :=
  kv_view (DataStore.kv_store (payment_store s)) !! broadcast_key txid_to_string t.

(** The payment records are kept apart from the broadcast records. *)
Definition apart s : Prop :=
  DataStore.primary_namespace (payment_store s) ≠ "wallet_broadcast_txids"%string.

(** The packages LDK broadcasts among the calls. *)
Definition ldk_packages : list call → list (list Transaction) :=
  omap (λ c, match c with LdkBroadcast package => Some package | _ => None end).

(** Every package in the queue is one of LDK's, or has a record for each transaction. *)
Definition all_recorded (ldk : list (list Transaction)) s : Prop :=
  ∀ package, package ∈ packages (broadcaster s) →
    package ∈ ldk ∨ ∀ tx, tx ∈ package → is_Some (record_of s (compute_txid tx)).

(** ** Calls that leave queue and records alone *)

Definition quiet {A} (m : wcmd A) : Prop := ∀ s s' r,
  apart s → m s = (s', r) →
  apart s' ∧ broadcaster s' = broadcaster s ∧ ∀ t, record_of s' t = record_of s t.

Lemma quiet_bind {A B} (m : wcmd A) (f : A → wcmd B) :
  quiet m → (∀ x, quiet (f x)) → quiet (m ≫= f).
Proof.
  intros Hm Hf s s' r Ha. unfold mbind, cmd_bind.
  destruct (m s) as [s1 r1] eqn:H1. destruct (Hm _ _ _ Ha H1) as (Ha1 & Hb1 & Hr1).
  destruct r1 as [x|e|]; [|by intros [= <- <-]..].
  intros H2. destruct (Hf _ _ _ _ Ha1 H2) as (Ha2 & Hb2 & Hr2).
  split_and!; [done|congruence|]. intros t. by rewrite Hr2.
Qed.
Lemma quiet_with_state {A} (f : wallet_state → wcmd A) :
  (∀ s, quiet (f s)) → quiet (with_state f).
Proof. intros Hf s s' r Ha H. by eapply Hf. Qed.
Lemma quiet_lift {A} (r : outcome Error A) : quiet (lift r).
Proof. by intros s s' r' Ha [= <- <-]. Qed.
Lemma quiet_ret {A} (x : A) : quiet (mret x).
Proof. by intros s s' r' Ha [= <- <-]. Qed.
Lemma quiet_fail {A} e : quiet (A := A) (fail e).
Proof. by intros s s' r' Ha [= <- <-]. Qed.
Lemma quiet_same {A} (m : wcmd A) :
  (∀ s, broadcaster (m s).1 = broadcaster s ∧ payment_store (m s).1 = payment_store s) →
  quiet m.
Proof.
  intros Hm s s' r Ha H. destruct (Hm s) as [Hb Hp]. rewrite H in Hb, Hp. cbn in Hb, Hp.
  unfold apart, record_of. by rewrite Hp.
Qed.
Lemma quiet_only_inner {A} (m : wcmd A) : only_inner m → quiet m.
Proof.
  intros Hm. apply quiet_same. intros s. destruct (m s) as [s' r] eqn:H.
  cbn. by rewrite (Hm _ _ _ H).
Qed.
Lemma quiet_on_inner {A} err (m : cmd Aggregate aggregate.Error A) : quiet (on_inner err m).
Proof. apply quiet_only_inner, only_inner_on_inner. Qed.

Ltac quiet_step :=
  lazymatch goal with
  | |- ∀ _, _ => intro
  | |- quiet (lift _) => apply quiet_lift
  | |- quiet (mret _) => apply quiet_ret
  | |- quiet (fail _) => apply quiet_fail
  | |- quiet (on_inner _ _) => apply quiet_on_inner
  | |- quiet (modify _) => by apply quiet_same
  | |- quiet (with_state _) => apply quiet_with_state
  | |- quiet (_ ≫= _) => apply quiet_bind
  | |- quiet (match ?x with _ => _ end) => destruct x
  | |- quiet (let '(_, _) := ?x in _) => destruct x
  end.
Ltac quiet := repeat quiet_step; auto with quiet.

Create HintDb quiet.

Lemma quiet_create seed a lookahead : quiet (create_at_best_block seed a lookahead).
Proof.
  unfold create_at_best_block. quiet. apply quiet_same. intros s1.
  unfold create_wallet_for_account. repeat case_match; done.
Qed.
Lemma quiet_unload a : quiet (unload a).
Proof. apply quiet_same. intros s. unfold unload. repeat case_match; done. Qed.
Lemma quiet_add_and_persist a w q : quiet (add_and_persist a w q).
Proof. apply quiet_same. intros s. unfold add_and_persist. by case_match. Qed.
Lemma quiet_bump : quiet bump_generation.
Proof. unfold bump_generation. quiet. Qed.
#[local] Hint Resolve quiet_create quiet_unload quiet_add_and_persist quiet_bump : quiet.
Lemma quiet_promote (ty old : AddressType) : quiet (promote ty old).
Proof. unfold promote. quiet. Qed.
#[local] Hint Resolve quiet_promote : quiet.
Lemma quiet_account (c : WalletAccounts.op agg_op) : quiet (WalletAccounts.exec c).
Proof.
  destruct c; unfold WalletAccounts.exec, add_monitored_address_type, remove_monitored_address_type,
    set_primary_address_type, add_onchain_wallet_account, remove_onchain_wallet_account,
    rewind_wallet_account, register_derived; quiet.
Qed.

(** Writing a payment record leaves other namespaces alone. *)
Lemma persist_other (OBJ : StorableObject PaymentDetails PaymentId PaymentDetailsUpdate)
    (o : PaymentDetails) (ds ds' : DataStore.DataStore PaymentDetails PaymentId S)
    (r : outcome Error unit) (k : kv_key) :
  DataStore.persist o ds = (ds', r) → DataStore.primary_namespace ds ≠ k.1.1 →
  DataStore.primary_namespace ds' = DataStore.primary_namespace ds ∧
  kv_view (DataStore.kv_store ds') !! k = kv_view (DataStore.kv_store ds) !! k.
Proof.
  intros H Hk. destruct (DataStore.persist_cases o ds) as [(kv & Hp & Hv)|(kv & Hp & Hv)];
    rewrite Hp in H; injection H as <- <-; cbn; split; [done| |done|by rewrite Hv].
  rewrite Hv, lookup_insert_ne; [done|]. intros <-. by apply Hk.
Qed.

Lemma insert_or_update_other (OBJ : StorableObject PaymentDetails PaymentId PaymentDetailsUpdate)
    (now : Z) (o : PaymentDetails) (ds ds' : DataStore.DataStore PaymentDetails PaymentId S)
    (r : outcome Error bool) (k : kv_key) :
  DataStore.insert_or_update now o ds = (ds', r) → DataStore.primary_namespace ds ≠ k.1.1 →
  DataStore.primary_namespace ds' = DataStore.primary_namespace ds ∧
  kv_view (DataStore.kv_store ds') !! k = kv_view (DataStore.kv_store ds) !! k.
Proof.
  intros H Hk. assert (∀ o', (_ ← DataStore.persist o'; _ ← DataStore.set_entry (so_id o) o';
      mret true) ds = (ds', r) →
    DataStore.primary_namespace ds' = DataStore.primary_namespace ds ∧
    kv_view (DataStore.kv_store ds') !! k = kv_view (DataStore.kv_store ds) !! k) as Hp.
  { intros o'. unfold mbind, cmd_bind. destruct (DataStore.persist o' ds) as [ds1 r1] eqn:Hp.
    apply (λ H, persist_other _ _ _ _ _ _ H Hk) in Hp. by destruct r1; intros [= <- <-]. }
  unfold DataStore.insert_or_update, with_state in H.
  destruct (DataStore.objects ds !! so_id o) as [entry|]; [|by apply Hp in H].
  destruct (so_update now entry (to_update o)) as [o' []]; [by apply Hp in H|].
  by injection H as <- <-.
Qed.

Lemma quiet_record_tx clock a h confirmations wtx :
  quiet (record_tx tlv_encode tlv_decode clock a h confirmations wtx).
Proof.
  unfold record_tx. quiet. intros s s' r Ha. unfold on_payments.
  destruct (DataStore.insert_or_update _ _ _) as [ps r'] eqn:H. intros [= <- <-].
  unfold apart, record_of in *. cbn.
  pose proof (λ k, insert_or_update_other _ _ _ _ _ _ k H) as Ho.
  split_and!; [|done|].
  - destruct (Ho (broadcast_key txid_to_string [])) as [-> _]; done.
  - intros t. by apply Ho.
Qed.
#[local] Hint Resolve quiet_record_tx : quiet.
Lemma quiet_for_each {A} (f : A → wcmd unit) xs : (∀ x, quiet (f x)) → quiet (for_each f xs).
Proof. intros Hf. induction xs; cbn [for_each]; quiet. Qed.
Lemma quiet_update clock : quiet (update_payment_store tlv_encode tlv_decode clock).
Proof.
  assert (quiet (update_payment_store_inner tlv_encode tlv_decode clock)) as Hq.
  { unfold update_payment_store_inner. quiet. apply quiet_for_each. quiet. }
  intros s s' r Ha. unfold update_payment_store.
  destruct (update_payment_store_inner _ _ _ _) as [s1 r1] eqn:H1.
  destruct (Hq _ _ _ (Ha : apart (set_pending true s)) H1) as (Ha1 & Hb & Hr).
  intros [= <- <-]. by destruct (is_ok r1).
Qed.
#[local] Hint Resolve quiet_update : quiet.
Lemma quiet_logged {A} (m : wcmd A) : quiet m → quiet (logged m).
Proof.
  intros Hm s s' r Ha. unfold logged. destruct (m s) as [s1 r1] eqn:H1.
  destruct (Hm _ _ _ Ha H1) as (? & ? & ?). by destruct r1; intros [= <- <-].
Qed.

(** ** Sending *)

(** What a call may do to queue and records: nothing, or one transaction that is on
    record now goes to the end of the queue, where it is not full. *)
Definition sends (m : wcmd Txid) : Prop := ∀ s s' r,
  apart s → m s = (s', r) →
  apart s' ∧ (∀ t, is_Some (record_of s t) → is_Some (record_of s' t)) ∧
  (∀ t, r = Ok t → is_Some (record_of s' t)) ∧
  (broadcaster s' = broadcaster s ∨
   ∃ tx, broadcaster s' = broadcast_transactions [tx] (broadcaster s) ∧
     is_Some (record_of s' (compute_txid tx)) ∧ (r = Ok (compute_txid tx) ∨ r = Panic)).

Lemma sends_record tx : sends (record_and_broadcast txid_to_string tx).
Proof.
  intros s s' r Ha. unfold record_and_broadcast, record_broadcast_txid.
  set (k := broadcast_key txid_to_string (compute_txid tx)).
  destruct (kv_write_cases (DataStore.kv_store (payment_store s)) k [])
    as [(kv & -> & Hv)|(kv & e & -> & Hv)]; cbn [map_err].
  - intros [= <- <-]. assert (∀ t, is_Some (record_of s t) ∨ t = compute_txid tx →
      is_Some (kv_view kv !! broadcast_key txid_to_string t)) as Hrec.
    { intros t Ht. rewrite Hv. destruct (decide (broadcast_key txid_to_string t = k)) as [->|Hne].
      - by rewrite lookup_insert_eq.
      - rewrite lookup_insert_ne by done. destruct Ht as [Ht| ->]; [done|]. by destruct Hne. }
    split_and!; [done|intros; by apply Hrec; left|intros t [= <-]; by apply Hrec; right|].
    right. exists tx. split_and!; [done|by apply Hrec; right|by left].
  - assert (quiet (cancel_tx tx)) as Hc by (unfold cancel_tx; quiet).
    destruct (cancel_tx tx _) as [s1 r1] eqn:H1.
    destruct (Hc _ _ _ (Ha : apart (set_payment_store (DataStore.set_kv kv (payment_store s)) s)) H1)
      as (Ha1 & Hb1 & Hr1).
    intros H. assert (s' = s1 ∧ ∀ t, r ≠ Ok t) as [-> Hr] by (destruct r1; by injection H as <- <-).
    split_and!; [done| |intros t ->; by destruct (Hr t)|left; by rewrite Hb1].
    intros t. rewrite Hr1. unfold record_of. cbn. by rewrite Hv.
Qed.

Lemma sends_quiet_bind {A} (m : wcmd A) (f : A → wcmd Txid) :
  quiet m → (∀ x, sends (f x)) → sends (m ≫= f).
Proof.
  intros Hm Hf s s' r Ha. unfold mbind, cmd_bind.
  destruct (m s) as [s1 r1] eqn:H1. destruct (Hm _ _ _ Ha H1) as (Ha1 & Hb1 & Hr1).
  destruct r1 as [x|e|].
  2,3: intros [= <- <-]; split_and!; [done|intros t; by rewrite Hr1|done|by left].
  intros H2. destruct (Hf _ _ _ _ Ha1 H2) as (Ha2 & Hk2 & Ho2 & Hc2).
  rewrite Hb1 in Hc2. split_and!; [done| |done|done]. intros t Ht. apply Hk2. by rewrite Hr1.
Qed.

Lemma sends_then_quiet (m : wcmd Txid) (f : Txid → wcmd unit) :
  sends m → (∀ t, quiet (f t)) → (∀ t s, (f t s).2 = Ok tt ∨ (f t s).2 = Panic) →
  sends (t ← m; _ ← f t; mret t).
Proof.
  intros Hm Hf Hok s s' r Ha. unfold mbind, cmd_bind.
  destruct (m s) as [s1 r1] eqn:H1. destruct (Hm _ _ _ Ha H1) as (Ha1 & Hk1 & Ho1 & Hc1).
  destruct r1 as [t|e|]; [|by intros [= <- <-]..].
  pose proof (Hok t s1) as Hft. destruct (f t s1) as [s2 r2] eqn:H2.
  destruct (Hf _ _ _ _ Ha1 H2) as (Ha2 & Hb2 & Hr2). cbn in Hft.
  intros H. assert (s' = s2 ∧ (r = Ok t ∨ r = Panic)) as [-> Hr].
  { destruct Hft as [-> | ->]; injection H as <- <-; auto. }
  split_and!; [done|intros t' Ht'; rewrite Hr2; auto| |].
  - intros t' ->. destruct Hr as [[= ->]|?]; [|done]. rewrite Hr2. by apply Ho1.
  - rewrite Hb2. destruct Hc1 as [?|(tx & ? & ? & Ht)]; [by left|]. right. exists tx.
    rewrite Hr2. split_and!; [done..|]. destruct Ht as [[= ->]|?]; [|done].
    destruct Hr as [->|?]; auto.
Qed.

Lemma sends_logged tx : sends (t ← record_and_broadcast txid_to_string tx; _ ← logged_fee tx; mret t).
Proof.
  apply sends_then_quiet; [apply sends_record|intros; unfold logged_fee; quiet|].
  intros t s. unfold logged_fee, with_state. case_match; auto.
Qed.
Lemma sends_lift r : (∀ t, r ≠ Ok t) → sends (lift r).
Proof.
  intros Hr s s' r' Ha [= <- <-]. split_and!; [done|done| |by left].
  intros t ->. by destruct (Hr t).
Qed.
Lemma sends_with_state (f : wallet_state → wcmd Txid) :
  (∀ s, sends (f s)) → sends (with_state f).
Proof. intros Hf s s' r Ha H. by eapply Hf. Qed.

Lemma sends_send address amount rate utxos channels :
  sends (send_to_address txid_to_string default_input_weight FEERATE_FLOOR_SATS_PER_KW
           address_valid address amount rate utxos channels).
Proof.
  unfold send_to_address. apply sends_quiet_bind; [|apply sends_record].
  apply quiet_only_inner, only_inner_prepare.
Qed.
Lemma sends_bump t rate channels : sends (bump_fee_by_rbf txid_to_string t rate channels).
Proof.
  unfold bump_fee_by_rbf. destruct (is_funding_transaction _ _); [by apply sends_lift|].
  apply sends_with_state. intros s. apply sends_quiet_bind; [quiet|]. intros own.
  destruct own; cbn [negb]; [|by apply sends_lift].
  apply sends_quiet_bind; [quiet|]. intros [tx fee].
  apply sends_quiet_bind; [unfold persist_wallets; quiet|]. intros _. apply sends_logged.
Qed.
Lemma sends_accelerate t rate destination :
  sends (accelerate_by_cpfp txid_to_string address_valid t rate destination).
Proof.
  unfold accelerate_by_cpfp. apply sends_with_state. intros s.
  apply sends_quiet_bind; [quiet|]. intros script.
  apply sends_quiet_bind; [quiet|]. intros [[tx fee] fee_rate].
  apply sends_quiet_bind; [unfold persist_wallets; quiet|]. intros _. apply sends_logged.
Qed.

(** ** Sequences of calls *)

(** One call: records stay, and a package that is new in the queue is the one
    transaction the call returned, which is on record, or the package of LDK's the call
    is about. *)
Definition steps (ldk : list (list Transaction)) s s' (r : outcome Error (option Txid)) : Prop :=
  apart s' ∧ (∀ t, is_Some (record_of s t) → is_Some (record_of s' t)) ∧
  (∀ t, r = Ok (Some t) → is_Some (record_of s' t)) ∧
  ∀ p, p ∈ packages (broadcaster s') → p ∈ packages (broadcaster s) ∨ p ∈ ldk ∨
    ∃ tx, p = [tx] ∧ is_Some (record_of s' (compute_txid tx)) ∧
      (r = Ok (Some (compute_txid tx)) ∨ r = Panic).

Lemma steps_quiet {A} (m : wcmd A) s s' r :
  quiet m → apart s → silently m s = (s', r) → steps [] s s' r.
Proof.
  intros Hm Ha. unfold silently, mbind, cmd_bind. destruct (m s) as [s1 r1] eqn:H1.
  destruct (Hm _ _ _ Ha H1) as (Ha1 & Hb1 & Hr1).
  intros H. assert (s' = s1 ∧ ∀ t, r ≠ Ok (Some t)) as [-> Hr]
    by (destruct r1; by injection H as <- <-).
  split_and!; [done|intros t; by rewrite Hr1|intros t ->; by destruct (Hr t)|].
  intros p. rewrite Hb1. auto.
Qed.

Lemma steps_sends (m : wcmd Txid) s s' r :
  sends m → apart s → sending m s = (s', r) → steps [] s s' r.
Proof.
  intros Hm Ha. unfold sending, mbind, cmd_bind. destruct (m s) as [s1 r1] eqn:H1.
  destruct (Hm _ _ _ Ha H1) as (Ha1 & Hk1 & Ho1 & Hc1).
  intros H. assert (s' = s1 ∧ r = Some <$> r1) as [-> ->]
    by (destruct r1; by injection H as <- <-).
  split_and!; [done|done| |].
  - intros t Hr. destruct r1; simplify_eq/=. by apply Ho1.
  - intros p. destruct Hc1 as [->|(tx & -> & Hrec & Hr)]; [by left|].
    unfold broadcast_transactions. case_decide; cbn; [|by left].
    rewrite elem_of_app, list_elem_of_singleton. intros [?| ->]; [by left|right; right].
    exists tx. split_and!; [done..|]. destruct Hr as [-> | ->]; auto.
Qed.

Lemma exec_steps c s s' r :
  apart s → exec c s = (s', r) → steps (ldk_packages [c]) s s' r.
Proof.
  intros Ha. destruct c; cbn [exec ldk_packages omap list_omap].
  - apply steps_sends; [apply sends_send|done].
  - apply steps_quiet; [|done]. apply quiet_only_inner, only_inner_fee.
  - apply steps_sends; [apply sends_bump|done].
  - apply steps_sends; [apply sends_accelerate|done].
  - apply steps_quiet; [unfold create_funding_transaction; quiet|done].
  - apply steps_quiet; [quiet|done].
  - apply steps_quiet; [unfold finish_pending_sync; quiet|done].
  - apply steps_quiet; [unfold apply_mempool_txs; quiet|done].
  - apply steps_quiet; [unfold block_connected; apply quiet_logged; quiet|done].
  - apply steps_quiet; [apply quiet_account|done].
  - intros [= <- <-]. split_and!; [done..|]. intros p. cbn.
    unfold broadcast_transactions. case_decide; cbn; [|by left].
    rewrite elem_of_app, !list_elem_of_singleton. tauto.
  - intros [= <- <-]. split_and!; [done..|]. intros p Hp. left. revert Hp. cbn.
    destruct (packages (broadcaster s)); set_solver.
Qed.

Lemma elem_of_cons_ldk c cs p :
  p ∈ ldk_packages (c :: cs) ↔ p ∈ ldk_packages [c] ∨ p ∈ ldk_packages cs.
Proof. unfold ldk_packages. destruct c; cbn; set_solver. Qed.

Lemma run_steps cs s s' rs :
  apart s → run cs s = (s', rs) →
  apart s' ∧ (∀ t, is_Some (record_of s t) → is_Some (record_of s' t)) ∧
  (∀ t, Ok (Some t) ∈ rs → is_Some (record_of s' t)) ∧
  ∀ p, p ∈ packages (broadcaster s') → p ∈ packages (broadcaster s) ∨ p ∈ ldk_packages cs ∨
    ∃ tx, p = [tx] ∧ is_Some (record_of s' (compute_txid tx)) ∧
      (Ok (Some (compute_txid tx)) ∈ rs ∨ Panic ∈ rs).
Proof.
  revert s s' rs; induction cs as [|c cs IH]; intros s s' rs Ha; cbn [run].
  { intros [= <- <-]. split_and!; [done|done|set_solver|by left]. }
  destruct (exec c s) as [s1 r1] eqn:H1.
  destruct (exec_steps _ _ _ _ Ha H1) as (Ha1 & Hk1 & Ho1 & Hp1).
  assert (r1 = Panic ∨ r1 ≠ Panic) as [->|Hnp] by (destruct r1; auto).
  { intros [= <- <-]. split_and!; [done|done|set_solver|]. intros p Hp.
    destruct (Hp1 p Hp) as [?|[?|(tx & ? & ? & [?|?])]]; [by left| |done|].
    - right; left. apply (elem_of_cons_ldk c cs). by left.
    - do 2 right. exists tx. set_solver. }
  destruct (run cs s1) as [s2 rs2] eqn:H2.
  destruct (IH _ _ _ Ha1 H2) as (Ha2 & Hk2 & Ho2 & Hp2).
  intros H. assert (s' = s2 ∧ rs = r1 :: rs2) as [-> ->] by (destruct r1; by simplify_eq).
  split_and!; [done|auto| |].
  - intros t [Ht|Ht]%elem_of_cons; auto.
  - intros p Hp. rewrite elem_of_cons_ldk. destruct (Hp2 p Hp) as [Hp'|[?|(tx & ? & ? & ?)]].
    + destruct (Hp1 p Hp') as [?|[?|(tx & ? & ? & [->|?])]]; [by left|by auto| |done].
      do 2 right. exists tx. split_and!; [done|auto|left; left].
    + by auto.
    + do 2 right. exists tx. set_solver.
Qed.

(** C4. The wallet broadcasts nothing off the record. Whatever payments, fee bumps,
    synchronisations, account changes, broadcasts of LDK through the same queue and
    broadcasts to the chain happen in whatever order, and whichever of them fail, every
    package in the queue that is not one of LDK's own has a durable broadcast record for
    its transactions; a package that entered the queue is LDK's or the one transaction a
    wallet call reported to its caller, unless the process aborted in that call; every
    reported id is on record, and a record once made stays. *)
Theorem broadcasts_recorded ldk cs s s' rs :
  apart s → all_recorded ldk s → run cs s = (s', rs) →
  all_recorded (ldk ++ ldk_packages cs) s' ∧
  (∀ t, Ok (Some t) ∈ rs ∨ is_Some (record_of s t) → is_Some (record_of s' t)) ∧
  (Panic ∉ rs → ∀ package, package ∈ packages (broadcaster s') →
     package ∈ packages (broadcaster s) ∨ package ∈ ldk_packages cs ∨
     ∃ tx, package = [tx] ∧ Ok (Some (compute_txid tx)) ∈ rs).
Proof.
  intros Ha Hall Hrun. destruct (run_steps _ _ _ _ Ha Hrun) as (_ & Hk & Ho & Hp).
  split_and!.
  - intros p Hin. rewrite elem_of_app.
    destruct (Hp p Hin) as [Hold|[?|(tx & -> & Hr & _)]]; [|by auto|right].
    + destruct (Hall p Hold) as [?|Hr]; [by auto|right]. intros tx Htx. by apply Hk, Hr.
    + by intros tx' ->%list_elem_of_singleton.
  - intros t [?|?]; auto.
  - intros Hnp p Hin. destruct (Hp p Hin) as [?|[?|(tx & -> & _ & [?|?])]]; naive_solver.
Qed.

(** Only the wallet's own payments are replaced. A transaction that funds one of
    the channels, and one without a broadcast record, is refused with the error that says
    so and nothing changes; a successful bump is a replacement the aggregate wallet built
    for a recorded transaction, and its id is on record too. *)
Theorem rbf_own_only t rate channels s s' r :
  apart s → bump_fee_by_rbf txid_to_string t rate channels s = (s', r) →
  if is_funding_transaction t channels then s' = s ∧ r = Err CannotRbfFundingTransaction
  else match r with
       | Ok t' =>
           is_Some (record_of s t) ∧ is_Some (record_of s' t') ∧
           ∃ a tx fee, build.build_rbf t rate (inner s) = (a, Ok (tx, fee)) ∧ t' = compute_txid tx
       | Err e =>
           broadcaster s' = broadcaster s ∧
           (record_of s t = None → s' = s ∧
              (e = TransactionNotBroadcastByWallet ∨ e = PersistenceFailed))
       | Panic => True
       end.
Proof.
  intros Ha Hrun. destruct (sends_bump t rate channels _ _ _ Ha Hrun) as (_ & _ & Hok & Hc).
  unfold bump_fee_by_rbf in Hrun.
  destruct (is_funding_transaction t channels); [by injection Hrun as <- <-|].
  unfold with_state, is_broadcast_by_wallet in Hrun.
  set (k := broadcast_key txid_to_string t) in *.
  assert (kv_read (DataStore.kv_store (payment_store s)) k ≠ Panic) as Hnp by apply kv_read_total.
  destruct (kv_read (DataStore.kv_store (payment_store s)) k) as [v|e|] eqn:Hread; [|clear Hnp|done].
  - apply kv_read_Ok in Hread. destruct r as [t'|e|]; [|split|done].
    + split; [by eexists|]. split; [by apply Hok|].
      apply build.lift_bind_Ok in Hrun as (own & [= <-] & H). cbn [negb] in H.
      apply cmd_bind_Ok in H as (s1 & [tx fee] & H1 & H). unfold on_inner in H1.
      destruct (build.build_rbf t rate (inner s)) as [a ro] eqn:Hb.
      injection H1 as <- Hro. apply map_err_Ok in Hro as ->. exists a, tx, fee. split; [done|].
      apply cmd_bind_Ok in H as (s2 & [] & _ & H).
      apply cmd_bind_Ok in H as (s3 & t1 & H3 & H). apply cmd_bind_Ok in H as (s4 & [] & _ & H).
      injection H as _ <-. unfold record_and_broadcast in H3.
      destruct (record_broadcast_txid _ _ s2) as [s5 [[]|?|]]; [by injection H3 as _ <-|..];
        repeat case_match; done.
    + by destruct Hc as [?|(? & _ & _ & [?|?])].
    + unfold record_of. fold k. by rewrite Hread.
  - destruct e; cbn in Hrun.
    1: unfold mbind, cmd_bind, lift in Hrun.
    all: injection Hrun as <- <-; auto.
Qed.
End broadcast.
