(* ===== verification/WalletUtxos.v ===== *)
(** * Outputs and scripts the wallet offers ([src/wallet/mod.rs])

    The outputs a user may choose from, the confirmed outputs LDK may spend for anchor
    channels and splices, signing for others, and the scripts channels pay to
    ([WalletKeysManager]). *)

From S2P Require Import Prelude Errors KVStore DataStore Types PaymentStore Bdk AggTypes.
From S2P Require Import AggUtxo AggSigning AggRbf Aggregate AggBuild AggInvariant.
From S2P Require Import FeeEstimator Config WalletKeys Event NodeMetrics TxBroadcaster Wallet WalletSend.
Import Wallet.

(** [lightning::events::bump_transaction::Utxo] and [Input] *)
Record LdkUtxo := mkLdkUtxo {
  ldk_outpoint : OutPoint;
  ldk_output : TxOut;
  ldk_satisfaction_weight : Z;
}.
Record LdkInput := mkLdkInput {
  in_outpoint : OutPoint;
  in_previous_utxo : TxOut;
  in_satisfaction_weight : Z;
}.

(** Scripts and keys of [bitcoin], and LDK's constructors of the outputs it spends;
    [F] is LDK's [FundingTxInput]. *)
Class Scripts (F : Type) := {
  is_p2pkh : Script → bool;
  (** Whether [WitnessProgram::new] accepts the version and program. *)
  witness_program_ok : Z → bytes → bool;
  (** [ScriptBuf::new_witness_program] *)
  new_witness_program : Z → bytes → Script;
  (** Whether [WPubkeyHash::from_slice], [PubkeyHash::from_slice] and
      [XOnlyPublicKey::from_slice] accept the bytes. *)
  wpkh_ok : bytes → bool;
  pkh_ok : bytes → bool;
  xonly_ok : bytes → bool;
  new_v0_p2wpkh : OutPoint → Amount → bytes → LdkUtxo;
  new_p2pkh : OutPoint → Amount → bytes → LdkUtxo;
  new_nested_p2wpkh : OutPoint → Amount → bytes → LdkUtxo;
  (** [None] for an output of another type. *)
  new_p2tr_key_spend : Transaction → Z → option F;
  new_p2wpkh : Transaction → Z → option F;
  (** [address.witness_program()], and [ShutdownScript::new_witness_program]. *)
  witness_program : Address → option (Z * bytes);
  shutdown_script_ok : Z * bytes → bool;
}.

(** What is relied on: how long such scripts are, that a key hash is 20 bytes, and that
    LDK's constructors keep outpoint and value. *)
Class ScriptsSpec (F : Type) {SC : Scripts F} {BTC : Bitcoin} : Prop := {
  witness_version_length : ∀ s v, witness_version s = Some v → (4 ≤ length s ≤ 42)%nat;
  p2pkh_length : ∀ s, is_p2pkh s = true → length s = 25%nat;
  pkh_ok_length : ∀ b, length b = 20%nat → pkh_ok b = true;
  new_v0_p2wpkh_outpoint : ∀ o v b,
    ldk_outpoint (new_v0_p2wpkh o v b) = o ∧ value (ldk_output (new_v0_p2wpkh o v b)) = v;
  new_p2pkh_outpoint : ∀ o v b,
    ldk_outpoint (new_p2pkh o v b) = o ∧ value (ldk_output (new_p2pkh o v b)) = v;
  new_nested_p2wpkh_outpoint : ∀ o v b,
    ldk_outpoint (new_nested_p2wpkh o v b) = o ∧
    value (ldk_output (new_nested_p2wpkh o v b)) = v;
}.

(** [&bytes[start..]] and [&bytes[start..end]] *)
Definition slice_from {E} (start : nat) (b : bytes) : outcome E bytes :=
  if decide (start ≤ length b)%nat then Ok (drop start b) else Panic.
Definition slice {E} (start stop : nat) (b : bytes) : outcome E bytes :=
  if decide (stop ≤ length b)%nat then Ok (take (stop - start) (drop start b)) else Panic.

(** [.map_err(|_| ())] on a check. *)
Definition require (b : bool) : outcome unit unit := if b then Ok tt else Err tt.

Section utxos.
Context {S : Type} {KV : KVStore S}.
Context {O : IterOrder OnchainWalletAccount} {OT : IterOrder Txid}.
Context {BTC : Bitcoin} {W P U Ev : Type} {BDK : Bdk W P U Ev} {CS : CoinSelection}.
Context {D F : Type} {SC : Scripts F}.
(** [Wallet::tx_details], by the transaction in it. *)
Context (tx_details : W → Txid → option Transaction).
Abbreviation Aggregate := (AggregateWallet.AggregateWallet OnchainWalletAccount W P).
Abbreviation wallet_state := (Wallet S W P D).
Abbreviation wcmd A := (cmd wallet_state Error A).
(** Methods whose error is [()]. *)
Abbreviation ucmd A := (cmd wallet_state unit A).
Implicit Types (s : wallet_state) (a : Aggregate) (channels : list (option OutPoint)).

(** ** Choosing outputs *)

Definition is_funding_utxo channels (u : LocalOutput) : bool :=
  is_funding_transaction (txid (outpoint u)) channels.

Definition get_spendable_utxos channels s : list LocalOutput :=
  List.filter (λ u, negb (is_funding_utxo channels u)) (AggregateWallet.list_unspent (inner s)).

Definition select_utxos_with_algorithm (target_amount : Z) (available_utxos : list LocalOutput)
    (fee_rate : FeeRate) (algorithm : CoinSelectionAlgorithm) (drain_script : Script) channels s :
    outcome Error (list OutPoint) :=
  let excluded_outpoints := outpoint <$> List.filter (is_funding_utxo channels) available_utxos in
  map_err (λ _, CoinSelectionFailed)
    (build.select_utxos (inner s) target_amount available_utxos fee_rate algorithm drain_script
       excluded_outpoints).

(** ** Confirmed outputs for LDK *)

(** One confirmed output; [None] where it is skipped. *)
Definition ldk_utxo a (u : LocalOutput) : outcome unit (option LdkUtxo) :=
  let script := script_pubkey (txout u) in
  match witness_version script with
  | Some 0 =>
      program ← slice_from 2 script;
      _ ← require (witness_program_ok 0 program);
      _ ← require (wpkh_ok program);
      Ok (Some (new_v0_p2wpkh (outpoint u) (value (txout u)) program))
  | Some 1 =>
      program ← slice_from 2 script;
      _ ← require (witness_program_ok 1 program);
      _ ← require (xonly_ok program);
      Ok (Some {| ldk_outpoint := outpoint u;
                  ldk_output := {| value := value (txout u);
                                   script_pubkey := new_witness_program 1 program |};
                  ldk_satisfaction_weight := 1 * 4 + 1 + 1 + 64 |})
  | Some _ => Ok None
  | None =>
      if is_p2pkh script then
        pkh ← slice 3 23 script;
        _ ← require (pkh_ok pkh);
        Ok (Some (new_p2pkh (outpoint u) (value (txout u)) pkh))
      else if is_p2sh script then
        Ok ((λ wpkh, new_nested_p2wpkh (outpoint u) (value (txout u)) wpkh)
              <$> AggregateWallet.derive_wpkh_for_p2sh a u)
      else Ok None
  end.

Definition list_confirmed_utxos_inner s : outcome unit (list LdkUtxo) :=
  utxos ← try_map (ldk_utxo (inner s)) (AggregateWallet.list_confirmed_unspent (inner s));
  Ok (omap (λ u : option LdkUtxo, u) (utxos : list _)).

(** [Sequence::MAX], what [add_foreign_utxo] uses. *)
Definition SEQUENCE_MAX : Z := 0xFFFFFFFF.

Definition witness_only_input (i : LdkInput) : PsbtInput := {|
  witness_utxo := Some (in_previous_utxo i); non_witness_utxo := None;
  final_script_sig := None; final_script_witness := None; rest := []
|}.

Definition add_must_spend (w : W) (b : TxBuilder) (i : LdkInput) : outcome unit TxBuilder :=
  let psbt_input := witness_only_input i in
  if add_foreign_utxo w b (in_outpoint i) psbt_input (in_satisfaction_weight i) SEQUENCE_MAX
  then Ok (b ++ [AddForeignUtxo (in_outpoint i) psbt_input (in_satisfaction_weight i) SEQUENCE_MAX])
  else Err tt.

(** The input of a splice for one input BDK chose; [None] where the transaction that
    created the output is not known. *)
Definition funding_input (w : W) (o : OutPoint) : option (option F) :=
  (λ prevtx,
    let is_p2tr :=
      match output prevtx !! Z.to_nat (vout o) with
      | Some out => Bdk.is_p2tr (script_pubkey out)
      | None => false
      end in
    if is_p2tr then new_p2tr_key_spend prevtx (vout o) else new_p2wpkh prevtx (vout o))
  <$> tx_details w (txid o).

(** [.filter(|txin| must_spend.iter().all(|input| input.outpoint != txin.previous_output))] *)
Definition chosen_inputs (psbt : Psbt) (must_spend : list LdkInput) : list OutPoint :=
  List.filter (λ o, forallb (λ i, negb (bool_decide (in_outpoint i = o))) must_spend)
    (previous_output <$> input (unsigned_tx psbt)).

Definition select_confirmed_utxos (must_spend : list LdkInput) (must_pay_to : list TxOut)
    (fee_rate : FeeRate) : ucmd (list F) :=
  with_state (λ s,
    let k := AggregateWallet.primary (inner s) in
    if negb (is_native_witness (address_type k)) then fail tt
    else
      w ← lift (map_err (λ _, tt) (AggregateWallet.primary_wallet (inner s)));
      b ← lift (try_fold (add_must_spend w) [OnlyWitnessUtxo] must_spend);
      let b := b ++ ((λ o, AddRecipient (script_pubkey o) (value o)) <$> must_pay_to)
                 ++ [SetFeeRate fee_rate; ExcludeUnconfirmed] in
      let '(w, r) := finish w b in
      _ ← modify (λ s, set_inner (AggregateWallet.set_wallet k w (inner s)) s);
      psbt ← lift (match r with inl psbt => Ok psbt | inr _ => Err tt end);
      let inputs := omap (funding_input w) (chosen_inputs psbt must_spend) in
      let result := try_map (λ i, ok_or i tt) inputs in
      _ ← modify (λ s, set_inner (AggregateWallet.set_wallet k
                                    (wallet_cancel_tx w (unsigned_tx psbt)) (inner s)) s);
      lift result).

(** ** Signing *)

Definition unit_error {A} (m : wcmd A) : ucmd A := cmd_map_err (λ _, tt) m.

Definition sign_psbt_inner (psbt : Psbt) s : outcome unit Transaction :=
  map_err (λ _, tt) (build.sign_psbt_all (inner s) psbt).

Definition fill_prevout (known_prevouts : list (OutPoint * TxOut)) (txin : TxIn)
    (i : PsbtInput) : PsbtInput :=
  match List.find (λ '(o, _), bool_decide (o = previous_output txin)) known_prevouts with
  | Some (_, out) =>
      {| witness_utxo := Some out; non_witness_utxo := non_witness_utxo i;
         final_script_sig := final_script_sig i;
         final_script_witness := final_script_witness i; rest := rest i |}
  | None => i
  end.

(** [zip] stops at the shorter of the two lists; [inputs] keeps what is left of it. *)
Definition fill_prevouts (known_prevouts : list (OutPoint * TxOut)) (psbt : Psbt) : Psbt := {|
  unsigned_tx := unsigned_tx psbt;
  psbt_inputs :=
    zip_with (fill_prevout known_prevouts) (input (unsigned_tx psbt)) (psbt_inputs psbt)
    ++ drop (length (input (unsigned_tx psbt))) (psbt_inputs psbt)
|}.

Definition sign_owned_inputs (tx : Transaction) (known_prevouts : list (OutPoint * TxOut)) s :
    outcome unit Transaction :=
  psbt ← ok_or (from_unsigned_tx tx) tt;
  sign_psbt_inner (fill_prevouts known_prevouts psbt) s.

(** ** Scripts for LDK *)

Definition get_change_script_inner : ucmd Script :=
  addr ← unit_error (on_inner (λ _, WalletOperationFailed) AggregateWallet.new_internal_address);
  mret (address_script addr).

(** [WalletKeysManager::get_destination_script] *)
Definition get_destination_script : ucmd Script :=
  address ← unit_error get_new_witness_address;
  mret (address_script address).

(** [WalletKeysManager::get_shutdown_scriptpubkey] *)
Definition get_shutdown_scriptpubkey : ucmd (Z * bytes) :=
  address ← unit_error get_new_witness_address;
  match witness_program address with
  | Some program => if shutdown_script_ok program then mret program else fail tt
  | None => fail tt
  end.

(** [WalletKeysManager::get_change_destination_script] *)
Definition get_change_destination_script : ucmd Script :=
  addr ← unit_error get_new_internal_address;
  mret (address_script addr).

(** ** Theorems *)

Section laws.
Context {BTCS : BitcoinSpec} {BDKS : BdkSpec W P U Ev} {CSS : CoinSelectionSpec}.
Context {SCS : ScriptsSpec F}.

(** Whatever outputs a caller offers and whatever BDK's algorithm picks, the
    selection consists of offered outputs, none of which belongs to a channel funding
    transaction. *)
Theorem selection_never_funding target available rate algorithm drain channels s sel :
  select_utxos_with_algorithm target available rate algorithm drain channels s = Ok sel →
  ∀ o, o ∈ sel → is_funding_transaction (txid o) channels = false ∧
    ∃ u, u ∈ available ∧ outpoint u = o.
Proof.
  unfold select_utxos_with_algorithm, build.select_utxos. intros H%map_err_Ok o Ho.
  destruct (utxo.select_utxos_subset _ _ H o Ho) as (u & Hu & <- & Hn). cbn in Hu, Hn.
  split; [|eauto]. destruct (is_funding_transaction _ channels) eqn:Hf; [|done]. destruct Hn.
  apply list_elem_of_fmap_2, build.elem_of_filter_b. done.
Qed.

Lemma slice_from_Ok {E} n (b : bytes) : (n ≤ length b)%nat → @slice_from E n b = Ok (drop n b).
Proof. intros. unfold slice_from. by rewrite decide_True. Qed.
Lemma slice_Ok {E} n m (b : bytes) :
  (m ≤ length b)%nat → @slice E n m b = Ok (take (m - n) (drop n b)).
Proof. intros. unfold slice. by rewrite decide_True. Qed.

Lemma ldk_utxo_spec a u :
  match ldk_utxo a u with
  | Ok (Some l) => ldk_outpoint l = outpoint u ∧ value (ldk_output l) = value (txout u)
  | Ok None | Err _ => True
  | Panic => False
  end.
Proof.
  unfold ldk_utxo. set (script := script_pubkey (txout u)).
  destruct (witness_version script) as [v|] eqn:Hv.
  - apply witness_version_length in Hv. rewrite !slice_from_Ok by lia.
    destruct v as [|[]|]; cbn; try done;
      destruct (witness_program_ok _ _); cbn; try done.
    + destruct (wpkh_ok _); cbn; [|done]. apply new_v0_p2wpkh_outpoint.
    + by destruct (xonly_ok _); cbn.
  - destruct (is_p2pkh script) eqn:Hp.
    + apply p2pkh_length in Hp. rewrite slice_Ok by lia. cbn.
      destruct (pkh_ok _); cbn; [|done]. apply new_p2pkh_outpoint.
    + destruct (is_p2sh script); [|done].
      destruct (AggregateWallet.derive_wpkh_for_p2sh a u); cbn; [|done].
      apply new_nested_p2wpkh_outpoint.
Qed.

(** Listing the confirmed outputs for LDK never panics, whatever scripts the
    wallets hold, and what it lists are confirmed unspent outputs of the wallets, in order
    and with their values. *)
Theorem confirmed_utxos_faithful s :
  list_confirmed_utxos_inner s ≠ Panic ∧
  ∀ us, list_confirmed_utxos_inner s = Ok us →
    ((λ l, (ldk_outpoint l, value (ldk_output l))) <$> us) `sublist_of`
    ((λ u, (outpoint u, value (txout u))) <$> AggregateWallet.list_confirmed_unspent (inner s)).
Proof.
  unfold list_confirmed_utxos_inner. split.
  - destruct (try_map _ _) as [l|e|] eqn:Hm; [done..|].
    apply try_map_Panic in Hm as (u & _ & Hu). pose proof (ldk_utxo_spec (inner s) u) as Hs.
    by rewrite Hu in Hs.
  - intros us (ls & Hm & H)%bind_Ok. injection H as <-. apply try_map_Ok in Hm.
    induction Hm as [|u l rest ls Hu _ IH]; [done|]. rewrite fmap_cons.
    pose proof (ldk_utxo_spec (inner s) u) as Hs. rewrite Hu in Hs.
    destruct l as [l|]; csimpl.
    + destruct Hs as [-> ->]. by apply sublist_skip.
    + by apply sublist_cons.
Qed.

(** A fresh address of the account under [k], persisted. *)
Definition revealed s k s' (info : AddressInfo) : Prop :=
  ∃ w w' w'' p p',
    AggregateWallet.wallets (inner s) !! k = Some w ∧
    AggregateWallet.persisters (inner s) !! k = Some p ∧
    reveal_next_address w External = (w', info) ∧ wallet_persist w' p = (w'', p', true) ∧
    AggregateWallet.wallets (inner s') !! k = Some w'' ∧
    AggregateWallet.persisters (inner s') !! k = Some p'.

Lemma new_address_info_for_Ok k a a' info :
  AggregateWallet.new_address_info_for k a = (a', Ok info) →
  ∃ w w' w'' p p',
    AggregateWallet.wallets a !! k = Some w ∧ AggregateWallet.persisters a !! k = Some p ∧
    reveal_next_address w External = (w', info) ∧ wallet_persist w' p = (w'', p', true) ∧
    AggregateWallet.wallets a' !! k = Some w'' ∧ AggregateWallet.persisters a' !! k = Some p'.
Proof.
  unfold AggregateWallet.new_address_info_for, AggregateWallet.with_wallet_persisted, with_state.
  intros (w & Hw%ok_or_Ok & H)%build.lift_bind_Ok.
  apply build.lift_bind_Ok in H as (p & Hp%ok_or_Ok & H).
  destruct (reveal_next_address w External) as [w' i] eqn:Hr.
  apply cmd_bind_Ok in H as (a1 & [] & Hper & H). injection H as <- <-.
  unfold AggregateWallet.persist_with in Hper.
  destruct (wallet_persist w' p) as [[w'' p'] []] eqn:Hwp; [|done].
  injection Hper as <-. exists w, w', w'', p, p'. split_and!; [done..| |]; cbn.
  - by rewrite lookup_insert_eq.
  - by rewrite lookup_insert_eq.
Qed.

Lemma on_inner_reveal_Ok err k s s' info :
  on_inner err (AggregateWallet.new_address_info_for k) s = (s', Ok info) →
  revealed s k s' info.
Proof.
  unfold on_inner. destruct (AggregateWallet.new_address_info_for k (inner s)) as [a r] eqn:Hr.
  intros [= <- H]. apply map_err_Ok in H as ->. by apply new_address_info_for_Ok in Hr.
Qed.

Lemma get_new_witness_address_Ok s s' addr :
  get_new_witness_address s = (s', Ok addr) →
  ∃ k info, is_witness_account k = true ∧ revealed s k s' info ∧ addr = ai_address info.
Proof.
  unfold get_new_witness_address, with_state.
  destruct (is_witness_account (AggregateWallet.primary (inner s))) eqn:Hp.
  - unfold get_new_address. intros (s1 & info & H1 & H)%cmd_bind_Ok. injection H as <- <-.
    exists (AggregateWallet.primary (inner s)), info. split_and!; [done| |done].
    by eapply (on_inner_reveal_Ok (λ _, WalletOperationFailed)).
  - destruct (List.find is_witness_account _) as [k|] eqn:Hf; [|done].
    apply find_some in Hf as [_ Hk]. unfold get_new_address_for_type.
    intros (s1 & info & H1 & H)%cmd_bind_Ok. injection H as <- <-.
    exists k, info. split_and!; [done| |done].
    assert (account_zero (address_type k) = k) as Hz.
    { unfold is_witness_account in Hk. apply andb_true_iff in Hk as [Hk _].
      apply Z.eqb_eq in Hk. destruct k; cbn in *. by rewrite Hk. }
    unfold get_new_address_info_for_type, get_new_address_info_for_account in H1.
    rewrite Hz in H1. by eapply on_inner_reveal_Ok.
Qed.

(** Channels only ever pay out to scripts the wallets can spend as native witness
    outputs: the destination script is that of a fresh external address of the loaded
    account 0 of a native witness type, and its wallet was persisted with the address
    revealed. *)
Theorem destination_is_witness s s' script :
  get_destination_script s = (s', Ok script) →
  ∃ k info, account_index k = 0 ∧ is_native_witness (address_type k) = true ∧
    script = address_script (ai_address info) ∧ revealed s k s' info.
Proof.
  unfold get_destination_script, unit_error, cmd_map_err. intros (s1 & addr & H1 & H)%cmd_bind_Ok.
  injection H as <- <-. destruct (get_new_witness_address s) as [s2 r] eqn:Hr.
  injection H1 as <- H1. apply map_err_Ok in H1 as ->.
  apply get_new_witness_address_Ok in Hr as (k & info & Hk & Hrev & ->).
  apply andb_true_iff in Hk as [Hk1%Z.eqb_eq Hk2]. eauto 7.
Qed.
End laws.
End utxos.
