(* ===== verification/WalletLink.v ===== *)
(** * The wallet's persisters are [KVStoreWalletPersister]s

    The node's wallet is modelled against the interface [Persister]; this file shows that
    the persister of [src/wallet/persist.rs] implements it, so that the theorems about
    accounts apply to wallets stored by it. *)

From S2P Require Import Prelude KVStore Types Config IoUtils WalletSer WalletPersist WalletKeys.

Section link.
Context {S : Type} {KV : KVStore S}.
Context {Descriptor Net : Type} `{EqDecision Descriptor, EqDecision Net}.
Context {FD : StoredFormat Descriptor} {FN : StoredFormat Net}
  {FC : StoredFormat LocalChainChangeSet} {FG : StoredFormat TxGraphChangeSet}
  {FI : StoredFormat IndexerChangeSet}.
Context {MC : Merge LocalChainChangeSet} {MG : Merge TxGraphChangeSet}
  {MI : Merge IndexerChangeSet}.
Abbreviation wallet_persister := (persist.KVStoreWalletPersister S Descriptor Net).

#[global] Instance kv_wallet_persister : Persister wallet_persister S := {
  persister_new := persist.new;
  persister_store := persist.kv_store;
  set_persister_store := persist.set_kv;
  persister_rewind := persist.rewind_to_checkpoint;
}.

#[global] Instance kv_wallet_persister_spec : PersisterSpec wallet_persister S.
Proof. by split. Qed.
End link.
