(* ===== verification/OnchainPayment.v ===== *)
(** * The on-chain payment handler ([src/payment/onchain.rs])

    What the application calls: it checks that the node runs, works out the reserve for
    anchor channels, and calls the wallet.  A prepared send is a signed transaction the
    caller may look at before it is submitted; submitting it asks the chain source for an
    answer, which is kept. *)

From S2P Require Import Prelude Errors KVStore DataStore Types PaymentStore Bdk AggTypes.
From S2P Require Import AggUtxo AggSigning AggRbf Aggregate AggBuild AggInvariant.
From S2P Require Import FeeEstimator Config WalletKeys Event NodeMetrics TxBroadcaster Wallet.
From S2P Require Import Broadcast WalletSend WalletUtxos.

(** ** Channels and reserves *)

Inductive ChannelShutdownState :=
  NotShuttingDown | ShutdownInitiated | ResolvingHTLCs | NegotiatingClosingFee | ShutdownComplete.

#[global] Instance ChannelShutdownState_eq_dec : EqDecision ChannelShutdownState.
Proof. solve_decision. Defined.

(** [lightning::ln::channel_state::ChannelDetails], as far as it is read;
    [requires_anchors] is the answer of the channel type, where there is one. *)
Record ChannelDetails := mkChannelDetails {
  counterparty_node_id : PublicKey;
  channel_shutdown_state : option ChannelShutdownState;
  requires_anchors : option bool;
  funding_txo : option OutPoint;
}.

Definition needs_reserve (c : AnchorChannelsConfig) (ch : ChannelDetails) : bool :=
  negb (bool_decide (counterparty_node_id ch ∈ trusted_peers_no_reserve c)) &&
  match channel_shutdown_state ch with
  | Some st => bool_decide (st ≠ ShutdownComplete)
  | None => true
  end &&
  match requires_anchors ch with Some b => b | None => false end.

Definition total_anchor_channels_reserve_sats {SocketAddress} (channels : list ChannelDetails)
    (config : Config SocketAddress) : Z :=
  match anchor_channels_config config with
  | Some c =>
      wrap64 (Z.of_nat (length (List.filter (needs_reserve c) channels)) * per_channel_reserve_sats c)
  | None => 0
  end.

(** ** Results *)

Inductive OnchainSendResult :=
| Accepted (txid : Txid)
| Rejected (txid : Txid) (reason : string)
| Unknown (txid : Txid).

Definition send_result (t : Txid) (response : BroadcastResponse) : OnchainSendResult :=
  match response with
  | RAccepted => Accepted t
  | RRejected reason => Rejected t reason
  | RUnknown => Unknown t
  end.

Record SpendableUtxo := mkSpendableUtxo { su_outpoint : OutPoint; value_sats : Z }.

(** [impl From<bdk_wallet::LocalOutput> for SpendableUtxo] *)
Definition spendable_utxo (o : LocalOutput) : SpendableUtxo :=
  {| su_outpoint := outpoint o; value_sats := value (txout o) |}.

(** ** Checks *)

(** What a call finds: whether the node runs, whether it is made on a current-thread
    runtime, whether the node's runtime still takes work, and what the chain source would
    answer to a submission. *)
Record env := mkEnv {
  is_running : bool;
  current_thread : bool;
  runtime_available : bool;
  response : outcome Error BroadcastResponse;
}.

Definition check_running (e : env) : outcome Error unit :=
  if is_running e then Ok tt else Err NotRunning.

Definition check_send_context (e : env) : outcome Error unit :=
  if negb (is_running e) then Err NotRunning
  else if current_thread e then Err PaymentSendingFailed
  else Ok tt.

Definition validate_selected_outpoints (outpoints : list OutPoint) : outcome Error unit :=
  if decide (outpoints = [] ∨ size (list_to_set outpoints : gset OutPoint) ≠ length outpoints)
  then Err WalletOperationFailed else Ok tt.

Definition tx_inputs (tx : Transaction) : list OutPoint := previous_output <$> input tx.

Definition validate_signed_inputs (tx : Transaction) (outpoints : list OutPoint) :
    outcome Error unit :=
  _ ← validate_selected_outpoints outpoints;
  if decide (length (input tx) ≠ length outpoints ∨
             (list_to_set (tx_inputs tx) : gset OutPoint) ≠ list_to_set outpoints)
  then Err OnchainTxCreationFailed else Ok tt.

(** ** Prepared sends *)

Record PreparedOnchainSend := mkPrepared {
  prepared_tx : Transaction;
  submission_started : bool;
  recipient_amount_sats : Z;
  mining_fee_sats : Z;
  result : option (outcome Error OnchainSendResult);
}.

Section onchain.
Context {S : Type} {KV : KVStore S}.
Context {O : IterOrder OnchainWalletAccount} {OT : IterOrder Txid}.
Context {BTC : Bitcoin} {W P U Ev : Type} {BDK : Bdk W P U Ev} {CS : CoinSelection}.
Context {D : Type}.
Context (txid_to_string : Txid → string) (default_input_weight : Weight).
Context (FEERATE_FLOOR_SATS_PER_KW : Z) (address_valid : Address → Network → bool).
(** [channel_manager.list_channels()] and the node's configuration. *)
Context {SocketAddress : Type}.
Context (channels : list ChannelDetails) (config : Config SocketAddress).
Abbreviation wallet_state := (Wallet.Wallet S W P D).
Abbreviation wcmd A := (cmd wallet_state Error A).
Implicit Types (s : wallet_state) (e : env).

Definition funding_txos : list (option OutPoint) := funding_txo <$> channels.
Definition reserve : Z := total_anchor_channels_reserve_sats channels config.

(** What a prepared send lives with: the wallet and the chain source, which here keeps
    the transactions it was asked to submit and those it dispatched. *)
Record sending_state := mkSending {
  wallet : wallet_state;
  prepared : PreparedOnchainSend;
  requested : list Transaction;
  submitted : list Transaction;
}.
Implicit Types (x : sending_state).

Definition set_wallet (s : wallet_state) x := mkSending s (prepared x) (requested x) (submitted x).
Definition set_result (r : outcome Error OnchainSendResult) x :=
  let p := prepared x in
  mkSending (wallet x)
    (mkPrepared (prepared_tx p) (submission_started p) (recipient_amount_sats p)
       (mining_fee_sats p) (Some r)) (requested x) (submitted x).
Definition start_submission x :=
  let p := prepared x in
  mkSending (wallet x)
    (mkPrepared (prepared_tx p) true (recipient_amount_sats p) (mining_fee_sats p) (result p))
    (requested x) (submitted x).

(** [broadcast_user_transaction] at the chain source: an error is that of a source without a
    client, which dispatched nothing. *)
Definition ask_chain_source (tx : Transaction) e :
    cmd sending_state Error BroadcastResponse := λ x,
  (mkSending (wallet x) (prepared x) (requested x ++ [tx])
     (match response e with Err _ => submitted x | _ => submitted x ++ [tx] end), response e).

(** A call on the wallet. *)
Definition on_wallet {A} (m : wcmd A) : cmd sending_state Error A := λ x,
  let '(s, r) := m (wallet x) in (set_wallet s x, r).

(** The future run by [try_block_on]. *)
Definition submit e : cmd sending_state Error OnchainSendResult :=
  if runtime_available e then
    _ ← modify start_submission;
    with_state (λ x,
      r ← ask_chain_source (prepared_tx (prepared x)) e;
      mret (send_result (compute_txid (prepared_tx (prepared x))) r))
  else fail NotRunning.

(** [PreparedOnchainSend::broadcast] *)
Definition broadcast e : cmd sending_state Error OnchainSendResult :=
  if current_thread e then fail PaymentSendingFailed
  else
    with_state (λ x,
      match result (prepared x) with
      | Some r => lift r
      | None =>
          _ ← lift (check_send_context e);
          let t := compute_txid (prepared_tx (prepared x)) in
          _ ← on_wallet (Wallet.record_broadcast_txid txid_to_string t);
          r ← submit e;
          _ ← modify (set_result (Ok r));
          mret r
      end).

(** [Drop for PreparedOnchainSend] *)
Definition drop x : wallet_state :=
  if submission_started (prepared x) then wallet x
  else (Wallet.cancel_tx (prepared_tx (prepared x)) (wallet x)).1.

(** ** Preparing *)

Definition recipient_amount (tx : Transaction) (script : Script) : outcome Error Z :=
  try_fold (λ total o, ok_or (checked_add64 total (value o)) OnchainTxCreationFailed) 0
    (List.filter (λ o, bool_decide (script_pubkey o = script)) (output tx)).

Definition mining_fee (tx : Transaction) : wcmd Z := λ s,
  match Wallet.transaction_fee_sats tx s with
  | Ok fee => (s, Ok fee)
  | Err error =>
      match Wallet.cancel_tx tx s with
      | (s, Panic) => (s, Panic)
      | (s, _) => (s, Err error)
      end
  | Panic => (s, Panic)
  end.

Definition optionally {A} (f : A → outcome Error unit) (x : option A) : outcome Error unit :=
  match x with Some x => f x | None => Ok tt end.

Definition prepare_send e (address : Address) (send_amount : OnchainSendAmount)
    (fee_rate : option FeeRate) (utxos_to_spend : option (list OutPoint)) :
    wcmd PreparedOnchainSend :=
  _ ← lift (check_send_context e);
  _ ← lift (optionally validate_selected_outpoints utxos_to_spend);
  tx ← WalletSend.prepare_send_to_address default_input_weight FEERATE_FLOOR_SATS_PER_KW
         address_valid address send_amount fee_rate utxos_to_spend funding_txos;
  _ ← lift (optionally (validate_signed_inputs tx) utxos_to_spend);
  _ ← lift (map_err (λ _, OnchainTxCreationFailed) (validate_selected_outpoints (tx_inputs tx)));
  recipient_amount_sats ← lift (recipient_amount tx (address_script address));
  mining_fee_sats ← mining_fee tx;
  mret (mkPrepared tx false recipient_amount_sats mining_fee_sats None).

Definition all_amount (retain_reserves : bool) : OnchainSendAmount :=
  if retain_reserves then AllRetainingReserve reserve else AllDrainingReserve.

Definition outpoints_of (utxos : option (list SpendableUtxo)) : option (list OutPoint) :=
  fmap (M := list) su_outpoint <$> utxos.

(** [self.wallet.cancel_tx(&prepared.tx)?; return Err(..)], and the candidate is dropped. *)
Definition cancel_prepared (p : PreparedOnchainSend) : wcmd PreparedOnchainSend := λ s,
  let '(s, r) := Wallet.cancel_tx (prepared_tx p) s in
  (drop (mkSending s p [] []), _ ← r; Err OnchainTxCreationFailed).

Definition prepare_send_to_address e (address : Address) (amount_sats : Z)
    (fee_rate : option FeeRate) (utxos_to_spend : option (list SpendableUtxo)) :
    wcmd PreparedOnchainSend :=
  p ← prepare_send e address (ExactRetainingReserve amount_sats reserve) fee_rate
        (outpoints_of utxos_to_spend);
  if decide (recipient_amount_sats p ≠ amount_sats) then cancel_prepared p else mret p.

Definition prepare_send_all_to_address e (address : Address) (retain_reserves : bool)
    (fee_rate : option FeeRate) : wcmd PreparedOnchainSend :=
  prepare_send e address (all_amount retain_reserves) fee_rate None.

(** Submit and drop the prepared send; also returns what was submitted. *)
Definition broadcast_and_drop e (p : PreparedOnchainSend) :
    wcmd (OnchainSendResult * list Transaction) := λ s,
  let '(x, r) := broadcast e (mkSending s p [] []) in
  (drop x, (λ r, (r, submitted x)) <$> r).

Definition send_with_broadcast_result e (address : Address) (send_amount : OnchainSendAmount)
    (fee_rate : option FeeRate) (utxos_to_spend : option (list OutPoint)) :
    wcmd (OnchainSendResult * list Transaction) :=
  p ← prepare_send e address send_amount fee_rate utxos_to_spend;
  broadcast_and_drop e p.

Definition send_to_address_with_broadcast_result e (address : Address) (amount_sats : Z)
    (fee_rate : option FeeRate) (utxos_to_spend : option (list SpendableUtxo)) :=
  send_with_broadcast_result e address (ExactRetainingReserve amount_sats reserve) fee_rate
    (outpoints_of utxos_to_spend).
Definition send_all_to_address_with_broadcast_result e (address : Address)
    (retain_reserves : bool) (fee_rate : option FeeRate) :=
  send_with_broadcast_result e address (all_amount retain_reserves) fee_rate None.

(** ** Sending through the broadcast queue *)

Definition send_to_address e (address : Address) (amount_sats : Z) (fee_rate : option FeeRate)
    (utxos_to_spend : option (list SpendableUtxo)) : wcmd Txid :=
  _ ← lift (check_running e);
  WalletSend.send_to_address txid_to_string default_input_weight FEERATE_FLOOR_SATS_PER_KW
    address_valid address (ExactRetainingReserve amount_sats reserve) fee_rate
    (outpoints_of utxos_to_spend) funding_txos.

Definition send_all_to_address e (address : Address) (retain_reserves : bool)
    (fee_rate : option FeeRate) : wcmd Txid :=
  _ ← lift (check_running e);
  WalletSend.send_to_address txid_to_string default_input_weight FEERATE_FLOOR_SATS_PER_KW
    address_valid address (all_amount retain_reserves) fee_rate None funding_txos.

Definition calculate_fee (address : Address) (send_amount : OnchainSendAmount)
    (fee_rate : option FeeRate) (utxos_to_spend : option (list OutPoint)) : wcmd Z :=
  WalletSend.calculate_transaction_fee default_input_weight FEERATE_FLOOR_SATS_PER_KW
    address_valid address send_amount fee_rate utxos_to_spend funding_txos.

(** The fee of sending everything, where the amount itself does not leave enough for it;
    otherwise the first answer. *)
Definition or_send_all_fee (address : Address) (fee_rate : option FeeRate)
    (outpoints : option (list OutPoint)) (result : outcome Error Z) : wcmd Z := λ s,
  match calculate_fee address (AllRetainingReserve reserve) fee_rate outpoints s with
  | (s, Ok fee) => (s, Ok fee)
  | (s, Err _) => (s, result)
  | (s, Panic) => (s, Panic)
  end.

(** [self.wallet.get_balances(reserve).unwrap_or((0, 0))] *)
Definition spendable_balance s : outcome Error Z :=
  match Wallet.get_balances reserve s with
  | Ok (_, spendable) => Ok spendable
  | Err _ => Ok 0
  | Panic => Panic
  end.

Definition exact_or_all_fee (address : Address) (amount_sats spendable : Z)
    (fee_rate : option FeeRate) (outpoints : option (list OutPoint)) : wcmd Z := λ s,
  let '(s, result) :=
    calculate_fee address (ExactRetainingReserve amount_sats reserve) fee_rate outpoints s in
  match result with
  | Err InsufficientFunds =>
      if amount_sats <=? spendable then or_send_all_fee address fee_rate outpoints result s
      else (s, result)
  | _ => (s, result)
  end.

Definition calculate_total_fee e (address : Address) (amount_sats : Z) (fee_rate : option FeeRate)
    (utxos_to_spend : option (list SpendableUtxo)) : wcmd Z :=
  _ ← lift (check_running e);
  with_state (λ s,
    spendable ← lift (spendable_balance s);
    exact_or_all_fee address amount_sats spendable fee_rate (outpoints_of utxos_to_spend)).

Definition calculate_send_all_fee e (address : Address) (retain_reserves : bool)
    (fee_rate : option FeeRate) : wcmd Z :=
  _ ← lift (check_running e);
  calculate_fee address (all_amount retain_reserves) fee_rate None.

Definition bump_fee_by_rbf e (t : Txid) (fee_rate : FeeRate) : wcmd Txid :=
  _ ← lift (check_running e);
  WalletSend.bump_fee_by_rbf txid_to_string t fee_rate funding_txos.

Definition accelerate_by_cpfp e (t : Txid) (fee_rate : option FeeRate)
    (destination_address : option Address) : wcmd Txid :=
  _ ← lift (check_running e);
  with_state (λ s,
    fee_rate ← lift (match fee_rate with
                     | Some rate => Ok rate
                     | None => WalletSend.calculate_cpfp_fee_rate FEERATE_FLOOR_SATS_PER_KW t true s
                     end);
    WalletSend.accelerate_by_cpfp txid_to_string address_valid t fee_rate destination_address).

(** ** Outputs *)

Definition list_spendable_outputs e s : outcome Error (list SpendableUtxo) :=
  _ ← check_running e;
  Ok (spendable_utxo <$> get_spendable_utxos funding_txos s).

Definition select_utxos_with_algorithm e (target_amount_sats : Z) (fee_rate : option FeeRate)
    (algorithm : CoinSelectionAlgorithm) (utxos : option (list SpendableUtxo)) s :
    outcome Error (list SpendableUtxo) :=
  _ ← check_running e;
  let available_utxos :=
    match utxos with
    | Some spendable_utxos =>
        List.filter (λ o, bool_decide (outpoint o ∈ (su_outpoint <$> spendable_utxos)))
          (get_spendable_utxos funding_txos s)
    | None => get_spendable_utxos funding_txos s
    end in
  if decide (available_utxos = []) then Err InsufficientFunds
  else
    let fee_rate := WalletSend.payment_fee_rate FEERATE_FLOOR_SATS_PER_KW fee_rate s in
    drain_script ← Wallet.get_drain_script s;
    selected ← WalletUtxos.select_utxos_with_algorithm target_amount_sats available_utxos fee_rate
                 algorithm drain_script funding_txos s;
    Ok (spendable_utxo <$> List.filter (λ u, bool_decide (outpoint u ∈ selected)) available_utxos).

(** ** Addresses *)

(** [if !*self.is_running.read().unwrap() { return Err(Error::NotRunning); }] before a call
    of the wallet. *)
Definition while_running {A} e (m : wcmd A) : wcmd A := _ ← lift (check_running e); m.
Definition query_running {A} e (f : wallet_state → outcome Error A) s : outcome Error A :=
  _ ← check_running e; f s.

(** These two do not ask whether the node runs. *)
Definition new_address : wcmd Address := Wallet.get_new_address.
Definition new_address_info : wcmd AddressInfo := Wallet.get_new_address_info.

Definition new_address_for_type e (t : AddressType) : wcmd Address :=
  while_running e (Wallet.get_new_address_for_type t).
Definition new_address_info_for_type e (t : AddressType) : wcmd AddressInfo :=
  while_running e (Wallet.get_new_address_info_for_type t).
Definition new_address_for_account e (t : AddressType) (index : Z) : wcmd Address :=
  while_running e (Wallet.get_new_address_for_account (mkAccount t index)).
Definition new_address_info_for_account e (t : AddressType) (index : Z) : wcmd AddressInfo :=
  while_running e (Wallet.get_new_address_info_for_account (mkAccount t index)).
Definition address_info_for_type_at_index e (t : AddressType) (k : KeychainKind) (index : Z) s :
    outcome Error AddressInfo :=
  query_running e (Wallet.get_address_info_for_type_at_index t k index) s.
Definition address_info_for_account_at_index e (t : AddressType) (account : Z) (k : KeychainKind)
    (index : Z) s : outcome Error AddressInfo :=
  query_running e (Wallet.get_address_info_for_account_at_index (mkAccount t account) k index) s.
Definition address_infos_for_type e (t : AddressType) (k : KeychainKind) (start_index count : Z)
    s : outcome Error (list AddressInfo) :=
  query_running e (Wallet.get_address_infos_for_type t k start_index count) s.
Definition address_infos_for_account e (t : AddressType) (account : Z) (k : KeychainKind)
    (start_index count : Z) s : outcome Error (list AddressInfo) :=
  query_running e
    (Wallet.get_address_infos_for_account (mkAccount t account) k start_index count) s.
Definition reveal_receive_addresses_to e (t : AddressType) (index : Z) : wcmd unit :=
  while_running e (Wallet.reveal_receive_addresses_to t index).
Definition reveal_receive_addresses_to_account e (t : AddressType) (account index : Z) :
    wcmd unit :=
  while_running e (Wallet.reveal_receive_addresses_to_account (mkAccount t account) index).

(** ** A prepared send is submitted at most once with an answer *)

(** A sequence of [broadcast] calls. *)
Fixpoint run (es : list env) x : sending_state * list (outcome Error OnchainSendResult) :=
  match es with
  | [] => (x, [])
  | e :: es => let '(x, r) := broadcast e x in let '(x, rs) := run es x in (x, r :: rs)
  end.

Definition record_of s (t : Txid) : option bytes :=
  kv_view (DataStore.kv_store (Wallet.payment_store s)) !! Wallet.broadcast_key txid_to_string t.

(** What holds of a prepared send at any time: what it was prepared as, that the chain
    source was asked for only it and only on record, that it dispatched at most what it was
    asked for, and that the send knows whether it was asked; a kept answer is an answer for
    the dispatched transaction. *)
Definition candidate (tx : Transaction) x : Prop :=
  prepared_tx (prepared x) = tx ∧
  (∀ tx', tx' ∈ requested x → tx' = tx ∧ is_Some (record_of (wallet x) (compute_txid tx))) ∧
  submitted x `sublist_of` requested x ∧
  submission_started (prepared x) = bool_decide (requested x ≠ []) ∧
  match result (prepared x) with
  | Some r => tx ∈ submitted x ∧ ∃ b, r = Ok (send_result (compute_txid tx) b)
  | None => True
  end.

Context {KSPEC : KVStoreSpec S}.

(** Recording makes the record or leaves the records alone. *)
Lemma record_broadcast_cases t s :
  ∃ s' r, Wallet.record_broadcast_txid txid_to_string t s = (s', r) ∧ r ≠ Panic ∧
    (∀ t', is_Some (record_of s t') → is_Some (record_of s' t')) ∧
    (r = Ok tt → is_Some (record_of s' t)).
Proof.
  unfold Wallet.record_broadcast_txid, record_of.
  set (k := Wallet.broadcast_key txid_to_string t).
  destruct (kv_write_cases (DataStore.kv_store (Wallet.payment_store s)) k [])
    as [(kv & -> & Hv)|(kv & e & -> & Hv)]; do 2 eexists; split_and!; try reflexivity; try done;
    cbn; rewrite Hv; [| |done].
  - intros t' Ht. by apply lookup_insert_is_Some', or_intror.
  - intros _. by rewrite lookup_insert_eq.
Qed.

(** The chain source was asked, and dispatched the transaction or not. *)
Definition asked (dispatched : bool) x : sending_state :=
  let y := start_submission x in
  mkSending (wallet y) (prepared y) (requested x ++ [prepared_tx (prepared x)])
    (if dispatched then submitted x ++ [prepared_tx (prepared x)] else submitted x).

Lemma submit_cases e x :
  (∃ err, submit e x = (x, Err err)) ∨
  (∃ err, submit e x = (asked false x, Err err)) ∨
  submit e x = (asked true x, Panic) ∨
  ∃ b, submit e x
       = (asked true x, Ok (send_result (compute_txid (prepared_tx (prepared x))) b)).
Proof.
  unfold submit. destruct (runtime_available e); [|left; by eexists].
  cbn. unfold with_state, ask_chain_source. cbn.
  destruct (response e) as [b|err|] eqn:Hr; cbn; eauto 10.
Qed.

Lemma candidate_asked tx dispatched x :
  candidate tx x → result (prepared x) = None → is_Some (record_of (wallet x) (compute_txid tx)) →
  candidate tx (asked dispatched x).
Proof.
  intros (Htx & Hreq & Hsub & Hst & _) Hk Hrec. unfold asked. split_and!; cbn.
  - done.
  - intros tx' [?|Ht]%elem_of_app; [by apply Hreq|]. rewrite Htx in Ht.
    apply list_elem_of_singleton in Ht as ->. auto.
  - destruct dispatched; [by apply sublist_app|]. by apply sublist_inserts_r.
  - by destruct (requested x).
  - by rewrite Hk.
Qed.

(** What one call adds to what was dispatched. *)
Definition dispatches (tx : Transaction) (r : outcome Error OnchainSendResult) : list Transaction :=
  match r with Err _ => [] | _ => [tx] end.

(** One call: once there is an answer it is returned and nothing changes; before that a
    call fails, or leaves its answer; an error dispatched nothing. *)
Lemma broadcast_step tx e x x' r :
  candidate tx x → broadcast e x = (x', r) →
  candidate tx x' ∧
  match result (prepared x) with
  | Some kept => x' = x ∧ (r = kept ∨ r = Err PaymentSendingFailed)
  | None =>
      submitted x' = submitted x ++ dispatches tx r ∧
      match result (prepared x') with Some kept => r = kept | None => ∀ a, r ≠ Ok a end
  end.
Proof.
  intros Hx. pose proof Hx as (Htx & Hreq & Hsub & Hst & Hres). unfold broadcast, with_state.
  destruct (current_thread e).
  { intros [= <- <-]. split; [done|]. destruct (result _); [by auto|]. by rewrite app_nil_r. }
  destruct (result (prepared x)) as [kept|] eqn:Hk; [intros [= <- <-]; auto|]. clear Hres.
  unfold mbind at 1, cmd_bind at 1, lift at 1. unfold check_send_context.
  destruct (negb (is_running e)); [intros [= <- <-]; by rewrite Hk, app_nil_r|].
  destruct (current_thread e); [intros [= <- <-]; by rewrite Hk, app_nil_r|].
  unfold mbind at 1, cmd_bind at 1, on_wallet. rewrite Htx.
  destruct (record_broadcast_cases (compute_txid tx) (wallet x)) as (s1 & r1 & -> & Hr1 & Hkeep & Hrec).
  assert (candidate tx (set_wallet s1 x)) as Hx1.
  { split_and!; cbn; [done| |done|done|by rewrite Hk]. intros tx' Ht.
    destruct (Hreq tx' Ht). split; [done|]. by apply Hkeep. }
  destruct r1 as [[]|err|]; [|intros [= <- <-]; cbn; by rewrite Hk, app_nil_r|done].
  pose proof (λ d, candidate_asked tx d (set_wallet s1 x) Hx1 Hk (Hrec eq_refl)) as Hask.
  destruct (submit_cases e (set_wallet s1 x)) as [(err & He)|[(err & He)|[He|(b & He)]]];
    unfold mbind, cmd_bind; rewrite He; intros [= <- <-].
  - split; [done|]. cbn. by rewrite Hk, app_nil_r.
  - split; [done|]. cbn. by rewrite Hk, app_nil_r.
  - split; [done|]. cbn. by rewrite Hk, Htx.
  - specialize (Hask true) as (Ha1 & Ha2 & Ha3 & Ha4 & _). cbn in *. rewrite Htx in *.
    split; [|done]. unfold candidate. cbn. rewrite Htx. split_and!; [done..|set_solver|eauto].
Qed.

Lemma run_kept tx es x x' rs kept :
  candidate tx x → result (prepared x) = Some kept → run es x = (x', rs) →
  x' = x ∧ ∀ r, r ∈ rs → r = kept ∨ r = Err PaymentSendingFailed.
Proof.
  revert x x' rs; induction es as [|e es IH]; intros x x' rs Hx Hk; cbn.
  { intros [= <- <-]. set_solver. }
  destruct (broadcast e x) as [x1 r1] eqn:H1. destruct (broadcast_step _ _ _ _ _ Hx H1) as [Hx1 Hs].
  rewrite Hk in Hs. destruct Hs as [-> Hr]. destruct (run es x) as [x2 rs2] eqn:H2.
  destruct (IH _ _ _ Hx Hk H2) as [-> Hrs]. intros [= <- <-]. set_solver.
Qed.

Lemma run_candidate tx es x x' rs :
  candidate tx x → run es x = (x', rs) →
  candidate tx x' ∧
  (∀ a, Ok a ∈ rs → result (prepared x') = Some (Ok a)) ∧
  (result (prepared x) = None → ∀ kept, result (prepared x') = Some kept →
     ∃ a, kept = Ok a ∧ Ok a ∈ rs).
Proof.
  revert x x' rs; induction es as [|e es IH]; intros x x' rs Hx; cbn.
  { intros [= <- <-]. split_and!; [done|set_solver|congruence]. }
  destruct (broadcast e x) as [x1 r1] eqn:H1. destruct (broadcast_step _ _ _ _ _ Hx H1) as [Hx1 Hs].
  destruct (run es x1) as [x2 rs2] eqn:H2. intros [= <- <-].
  destruct (IH _ _ _ Hx1 H2) as (Hx2 & Hrs & Hkept). split_and!; [done| |].
  - intros a [<-|Ha]%elem_of_cons; [|by apply Hrs].
    assert (result (prepared x1) = Some (Ok a)) as Hk.
    { destruct (result (prepared x)) as [kept|] eqn:Hk.
      - destruct Hs as [-> [<-|?]]; done.
      - destruct Hs as [_ Hs]. destruct (result (prepared x1)) as [kept|] eqn:Hk1; [by rewrite Hs|].
        by destruct (Hs a). }
    by destruct (run_kept _ _ _ _ _ _ Hx1 Hk H2) as [-> _].
  - intros Hk kept Hk2. rewrite Hk in Hs. destruct Hs as [_ Hs].
    destruct (result (prepared x1)) as [kept1|] eqn:Hk1.
    + destruct (run_kept _ _ _ _ _ _ Hx1 Hk1 H2) as [-> _].
      destruct Hx1 as (_ & _ & _ & _ & Hres). rewrite Hk1 in Hres, Hk2. injection Hk2 as <-.
      destruct Hres as (_ & b & ->). eexists. split; [done|]. rewrite Hs. left.
    + destruct (Hkept eq_refl kept Hk2) as (a & -> & Ha). exists a. split; [done|by right].
Qed.

(** What was dispatched before the first answer. *)
Lemma run_dispatches tx es x x' rs :
  candidate tx x → run es x = (x', rs) → result (prepared x) = None →
  Panic ∉ rs →
  submitted x' = submitted x ++ (if result (prepared x') then [tx] else []).
Proof.
  revert x x' rs; induction es as [|e es IH]; intros x x' rs Hx; cbn.
  { intros [= <- <-] Hk _. by rewrite Hk, app_nil_r. }
  destruct (broadcast e x) as [x1 r1] eqn:H1. destruct (broadcast_step _ _ _ _ _ Hx H1) as [Hx1 Hs].
  destruct (run es x1) as [x2 rs2] eqn:H2. intros [= <- <-] Hk Hp. rewrite Hk in Hs.
  destruct Hs as [Hsub Hs]. destruct (result (prepared x1)) as [kept|] eqn:Hk1.
  - pose proof Hx1 as (_ & _ & _ & _ & Hres). rewrite Hk1 in Hres. destruct Hres as (_ & b & ->).
    destruct (run_kept _ _ _ _ _ _ Hx1 Hk1 H2) as [-> _]. subst r1. by rewrite Hk1.
  - rewrite (IH _ _ _ Hx1 H2 Hk1) by set_solver. rewrite Hsub.
    destruct r1 as [a|err|]; [by destruct (Hs a)|by rewrite app_nil_r|set_solver].
Qed.

(** C15. However often and in whatever circumstances a prepared send is broadcast, the chain
    source is asked for its transaction only, and never before its broadcast record is
    durable, and dispatches at most what it is asked for.  The first answer is final: it
    answers the one dispatch there was, and every later call returns it, or refuses to block
    a current-thread runtime, and asks for nothing.  Calls that all failed dispatched
    nothing.  When the prepared send is dropped, its transaction is given up exactly if the
    chain source was never asked for it. *)
Theorem prepared_answer_final tx recipient fee s es1 es2 x1 x2 rs1 rs2 :
  run es1 (mkSending s (mkPrepared tx false recipient fee None) [] []) = (x1, rs1) →
  run es2 x1 = (x2, rs2) →
  (∀ tx', tx' ∈ requested x2 → tx' = tx ∧ is_Some (record_of (wallet x2) (compute_txid tx))) ∧
  submitted x2 `sublist_of` requested x2 ∧
  (∀ a, Ok a ∈ rs1 →
     (∃ b, a = send_result (compute_txid tx) b) ∧
     requested x2 = requested x1 ∧ submitted x2 = submitted x1 ∧
     (Panic ∉ rs1 → submitted x1 = [tx]) ∧
     ∀ r, r ∈ rs2 → r = Ok a ∨ r = Err PaymentSendingFailed) ∧
  ((∀ r, r ∈ rs1 → ∃ err, r = Err err) → submitted x1 = []) ∧
  drop x2 = (if decide (requested x2 = []) then (Wallet.cancel_tx tx (wallet x2)).1 else wallet x2).
Proof.
  intros H1 H2. set (x := mkSending s (mkPrepared tx false recipient fee None) [] []) in H1.
  assert (candidate tx x) as Hx by (split_and!; set_solver).
  destruct (run_candidate _ _ _ _ _ Hx H1) as (Hx1 & Hok1 & Hkept1).
  destruct (run_candidate _ _ _ _ _ Hx1 H2) as [Hx2 _].
  pose proof (run_dispatches _ _ _ _ _ Hx H1 eq_refl) as Hd1. cbn in Hd1.
  pose proof Hx2 as (Htx2 & Hreq2 & Hsub2 & Hst2 & _). split_and!; [done|done| | |].
  - intros a Ha. apply Hok1 in Ha as Hk. destruct (run_kept _ _ _ _ _ _ Hx1 Hk H2) as [-> Hrs].
    destruct Hx1 as (_ & _ & _ & _ & Hres). rewrite Hk in Hres, Hd1. destruct Hres as (_ & b & [= ->]).
    eauto 10.
  - intros Hall. rewrite Hd1 by (intros [? ?]%Hall; done).
    destruct (result (prepared x1)) as [kept|] eqn:Hk; [|done].
    destruct (Hkept1 eq_refl kept eq_refl) as (a & -> & Ha). by destruct (Hall _ Ha).
  - unfold drop. rewrite Hst2, Htx2. case_decide as He.
    + by rewrite bool_decide_eq_false_2 by tauto.
    + by rewrite bool_decide_eq_true_2.
Qed.

Lemma size_list_to_set_le (l : list OutPoint) :
  (size (list_to_set l : gset OutPoint) ≤ length l)%nat.
Proof.
  induction l as [|x l IH]; cbn; [by rewrite size_empty|].
  pose proof (size_union_alt {[x]} (list_to_set l : gset OutPoint)) as Hu.
  rewrite size_singleton in Hu.
  pose proof (subseteq_size (list_to_set l ∖ {[x]}) (list_to_set l : gset OutPoint)
    ltac:(set_solver)). lia.
Qed.

Lemma size_list_to_set_NoDup (l : list OutPoint) :
  size (list_to_set l : gset OutPoint) = length l → NoDup l.
Proof.
  induction l as [|x l IH]; intros Hs; [constructor|]. cbn in Hs.
  pose proof (size_list_to_set_le l) as Hle.
  destruct (decide (x ∈ l)) as [Hin|Hn].
  - rewrite subseteq_union_1_L in Hs by set_solver. lia.
  - rewrite size_union, size_singleton in Hs by set_solver.
    constructor; [done|]. apply IH. lia.
Qed.

Lemma validate_selected_Ok l :
  validate_selected_outpoints l = Ok tt → l ≠ [] ∧ NoDup l.
Proof.
  unfold validate_selected_outpoints. case_decide as Hd; [done|]. intros _. split; [tauto|].
  apply size_list_to_set_NoDup. destruct (decide (size (list_to_set l : gset OutPoint) = length l));
    tauto.
Qed.

Lemma validate_signed_Ok tx l :
  validate_signed_inputs tx l = Ok tt → NoDup (tx_inputs tx) → tx_inputs tx ≡ₚ l.
Proof.
  unfold validate_signed_inputs. intros ([] & [_ Hnd]%validate_selected_Ok & H)%bind_Ok Hin.
  case_decide as Hd; [done|]. apply NoDup_Permutation; [done..|]. intros o.
  assert ((list_to_set (tx_inputs tx) : gset OutPoint) = list_to_set l) as Hs.
  { destruct (decide ((list_to_set (tx_inputs tx) : gset OutPoint) = list_to_set l)); tauto. }
  rewrite <- !(elem_of_list_to_set (C := gset OutPoint)), Hs. done.
Qed.

Lemma prepare_send_Ok e address amount rate utxos s s' p :
  prepare_send e address amount rate utxos s = (s', Ok p) →
  is_running e = true ∧
  recipient_amount (prepared_tx p) (address_script address) = Ok (recipient_amount_sats p) ∧
  NoDup (tx_inputs (prepared_tx p)) ∧ tx_inputs (prepared_tx p) ≠ [] ∧
  (∀ os, utxos = Some os → tx_inputs (prepared_tx p) ≡ₚ os) ∧
  Wallet.transaction_fee_sats (prepared_tx p) s' = Ok (mining_fee_sats p) ∧
  submission_started p = false ∧ result p = None.
Proof.
  unfold prepare_send. intros ([] & Hc & H)%build.lift_bind_Ok.
  apply build.lift_bind_Ok in H as ([] & _ & H). apply cmd_bind_Ok in H as (s1 & tx & _ & H).
  apply build.lift_bind_Ok in H as ([] & Hv & H).
  apply build.lift_bind_Ok in H as ([] & Hd & H). apply build.lift_bind_Ok in H as (ra & Hra & H).
  apply cmd_bind_Ok in H as (s2 & fee & Hfee & H). injection H as <- <-.
  apply map_err_Ok in Hd. apply validate_selected_Ok in Hd as [Hne Hnd].
  unfold mining_fee in Hfee. cbn. split_and!; try done.
  - unfold check_send_context in Hc. by destruct (is_running e).
  - intros os ->. by apply validate_signed_Ok.
  - destruct (Wallet.transaction_fee_sats tx s1) as [f|err|] eqn:Hf;
      [by injection Hfee as <- <-| |done].
    by destruct (Wallet.cancel_tx tx s1) as [? []].
Qed.

(** What a caller is shown is what was signed: a prepared send of a fixed amount
    pays exactly that amount to the address, its inputs are distinct and, where the caller
    chose outputs, exactly those; it carries the wallet's fee for the transaction, and
    nothing of it was submitted yet. *)
Theorem prepared_send_exact e address amount rate utxos s s' p :
  prepare_send_to_address e address amount rate utxos s = (s', Ok p) →
  is_running e = true ∧
  sum_Z (value <$> List.filter (λ o, bool_decide (script_pubkey o = address_script address))
                     (output (prepared_tx p))) = amount ∧
  NoDup (tx_inputs (prepared_tx p)) ∧ tx_inputs (prepared_tx p) ≠ [] ∧
  (∀ us, utxos = Some us → tx_inputs (prepared_tx p) ≡ₚ (su_outpoint <$> us)) ∧
  Wallet.transaction_fee_sats (prepared_tx p) s' = Ok (mining_fee_sats p) ∧
  submission_started p = false ∧ result p = None.
Proof.
  unfold prepare_send_to_address. intros (s1 & q & Hq & H)%cmd_bind_Ok.
  case_decide as Ha.
  { unfold cancel_prepared in H. destruct (Wallet.cancel_tx (prepared_tx q) s1) as [? []]; done. }
  injection H as <- <-.
  destruct (prepare_send_Ok _ _ _ _ _ _ _ _ Hq) as (? & Hra & ? & ? & Hos & ? & ? & ?).
  split_and!; [done| |done..| |done|done|done].
  - rewrite <- Ha. symmetry. unfold recipient_amount in Hra. by apply try_fold_checked_add in Hra.
  - intros us ->. by apply Hos.
Qed.
End onchain.
