(* ===== verification/Payments.v ===== *)
(** * Lightning payments ([src/payment/bolt11.rs], [src/payment/bolt12.rs],
      [src/payment/spontaneous.rs] and the payment events of [src/event.rs])

    The calls that start, expect, claim and fail payments, and the handlers of LDK's
    payment events, over the payment store, the event queue and the list of calls made
    to LDK's channel manager.  What the channel manager answers, the clock, the random
    bytes and the parsed invoices and offers are inputs. *)

From S2P Require Import Prelude Errors KVStore Codec HexUtils DataStore Types PaymentStore EventQueue Event.

(** ** Data of LDK *)

(** [RouteParametersConfig] *)
Record RouteParametersConfig := mkRouteParametersConfig {
  max_total_routing_fee_msat : option Z;
  max_total_cltv_expiry_delta : Z;
  max_path_count : Z;
  max_channel_saturation_power_of_half : Z;
}.

(** [Bolt11InvoiceDescriptionRef] *)
Inductive Bolt11InvoiceDescription :=
| Direct (desc : string)
| Hash (hash : bytes).

(** What the node reads of a [Bolt11Invoice]; [invoice_text] is its [Display]. *)
Record Bolt11Invoice := mkBolt11Invoice {
  invoice_payment_hash : PaymentHash;
  invoice_payment_secret : PaymentSecret;
  amount_milli_satoshis : option Z;
  invoice_description : Bolt11InvoiceDescription;
  invoice_text : string;
}.

(** [Bolt11InvoiceParameters], and the channel manager's functions that make an invoice and
    know its preimage. *)
Record Bolt11InvoiceParameters := mkInvoiceParameters {
  ip_amount_msats : option Z;
  ip_description : Bolt11InvoiceDescription;
  ip_invoice_expiry_delta_secs : option Z;
  ip_payment_hash : option PaymentHash;
}.
Record invoice_manager := mkInvoiceManager {
  create_bolt11_invoice : Bolt11InvoiceParameters → option Bolt11Invoice;
  get_payment_preimage : PaymentHash → PaymentSecret → option PaymentPreimage;
}.

(** [offers::offer::Amount] *)
Inductive OfferAmount :=
| BitcoinAmount (amount_msats : Z)
| CurrencyAmount.

(** What the node reads of an [Offer]; the rest is LDK's. *)
Record Offer := mkOffer { offer_id_of : OfferId; offer_amount : option OfferAmount }.

(** What LDK's offer builder is given. *)
Record offer_request := mkOfferRequest {
  or_amount_msats : option Z;
  or_description : string;
  or_absolute_expiry : option Z;
  or_supported_quantity : option Z;
}.

Record Refund := mkRefund {
  refund_payer_note : option string;
  refund_quantity : option Z;
  refund_amount_msats : Z;
}.

Inductive RetryableSendFailure := SendDuplicatePayment | SendFailureOther.
Inductive Bolt11PaymentError :=
| PayInvalidAmount
| SendingFailed (e : RetryableSendFailure).
Inductive Bolt12SemanticError := DuplicatePaymentId | SemanticOther.

(** [PaymentPurpose], with the fields the node reads. *)
Inductive PaymentPurpose :=
| Bolt11InvoicePayment (payment_preimage : option PaymentPreimage) (payment_secret : PaymentSecret)
| Bolt12OfferPayment (payment_preimage : option PaymentPreimage) (payment_secret : PaymentSecret)
    (offer_id : OfferId) (payer_note_truncated : option string) (quantity : option Z)
| Bolt12RefundPayment (payment_preimage : option PaymentPreimage) (payment_secret : PaymentSecret)
| SpontaneousPayment (preimage : PaymentPreimage).

(** [PaymentPurpose::preimage] *)
Definition purpose_preimage (p : PaymentPurpose) : option PaymentPreimage :=
  match p with
  | Bolt11InvoicePayment preimage _ | Bolt12OfferPayment preimage _ _ _ _
  | Bolt12RefundPayment preimage _ => preimage
  | SpontaneousPayment preimage => Some preimage
  end.

(** [ReplayEvent]: LDK keeps the event and hands it out again. *)
Inductive ReplayEvent := Replay.

(** The calls to the channel manager that concern payments. *)
Inductive payment_call :=
| PayForBolt11Invoice (invoice : Bolt11Invoice) (id : PaymentId) (amount_msat : option Z)
    (params : RouteParametersConfig)
| PayForOffer (offer : Offer) (amount_msat : option Z) (id : PaymentId)
    (payer_note : option string) (quantity : option Z) (params : RouteParametersConfig)
| SendSpontaneousPayment (preimage : PaymentPreimage) (custom_tlvs : list (Z * bytes))
    (id : PaymentId) (node_id : PublicKey) (amount_msat : Z)
    (params : option RouteParametersConfig)
| ClaimFunds (preimage : PaymentPreimage)
| FailHtlcBackwards (hash : PaymentHash).

(** The payment a call starts. *)
Definition started (c : payment_call) : option PaymentId :=
  match c with
  | PayForBolt11Invoice _ id _ _ | PayForOffer _ _ id _ _ _
  | SendSpontaneousPayment _ _ id _ _ _ => Some id
  | ClaimFunds _ | FailHtlcBackwards _ => None
  end.

Module Payments.
Section payments.
Context {S : Type} {KV : KVStore S}.
Context (tlv_encode : PaymentTlv → bytes) (tlv_decode : bytes → option PaymentTlv).
Context {U16 : U16Codec} {PaymentFailureReason ClosureReason CustomTlvRecord : Type}.
Abbreviation Ev := (Event PaymentFailureReason ClosureReason CustomTlvRecord).
Context {CE : Codec Ev}.
(** [RouteParametersConfig::default], the SHA-256 of the [bitcoin_hashes] crate and
    [compute_opening_fee] of [lightning_liquidity]. *)
Context (default_route_parameters : RouteParametersConfig).
Context (sha256 : bytes → bytes).
Context (compute_opening_fee : Z → Z → Z → option Z).

#[local] Instance payment_objects :
  StorableObject PaymentDetails PaymentId PaymentDetailsUpdate :=
  payment_storable tlv_encode tlv_decode.

Abbreviation Store := (DataStore.DataStore PaymentDetails PaymentId S).

(** The payment store and the event queue share the key-value store; [calls] are the
    calls made to the channel manager, the latest last. *)
Record state := mkState {
  payment_store : Store;
  event_queue : EventQueue.EventQueue S Ev;
  calls : list payment_call;
}.
Implicit Types (x : state).
Abbreviation pcmd A := (cmd state Error A).
Abbreviation hcmd A := (cmd state ReplayEvent A).

Definition with_store (kv : S) (q : EventQueue.EventQueue S Ev) : EventQueue.EventQueue S Ev :=
  EventQueue.mkEventQueue (EventQueue.queue q) (EventQueue.waker q) kv (EventQueue.woken q).

Definition on_store {E A} (m : cmd Store E A) : cmd state E A := λ x,
  let '(ps, r) := m (payment_store x) in
  (mkState ps (with_store (DataStore.kv_store ps) (event_queue x)) (calls x), r).
Definition add_event (event : Ev) : pcmd unit := λ x,
  let '(q, r) :=
    EventQueue.add_event event (with_store (DataStore.kv_store (payment_store x)) (event_queue x)) in
  (mkState (DataStore.set_kv (EventQueue.kv_store q) (payment_store x)) q (calls x), r).
Definition call {E} (c : payment_call) : cmd state E unit :=
  modify (λ x, mkState (payment_store x) (event_queue x) (calls x ++ [c])).
Definition record (id : PaymentId) x : option PaymentDetails := DataStore.get id (payment_store x).

(** A failure that is only logged. *)
Definition log_failure {E A} (m : pcmd A) : cmd state E unit := λ x,
  match m x with
  | (x, Panic) => (x, Panic)
  | (x, _) => (x, Ok tt)
  end.
(** [Err(e) => return Err(ReplayEvent())] *)
Definition or_replay {A} (m : pcmd A) : hcmd A := cmd_map_err (λ _, Replay) m.

(** ** Sending *)

Definition must_not_pay (o : option PaymentDetails) : bool :=
  match o with
  | Some payment =>
      bool_decide (status payment = Pending) || bool_decide (status payment = Succeeded)
  | None => false
  end.

Definition description_text (d : Bolt11InvoiceDescription) : string :=
  match d with
  | Direct desc => desc
  | Hash hash => hex_utils.to_string (u8_to_Z <$> hash)
  end.

Definition bolt11_kind (invoice : Bolt11Invoice) (preimage : option PaymentPreimage) : PaymentKind :=
  Bolt11 (invoice_payment_hash invoice) preimage (Some (invoice_payment_secret invoice))
    (Some (description_text (invoice_description invoice))) (Some (invoice_text invoice)).

Definition choose_parameters (given node_wide : option RouteParametersConfig) :
    RouteParametersConfig :=
  default default_route_parameters (match given with Some p => Some p | None => node_wide end).

Definition record_new (now : Z) (id : PaymentId) (kind : PaymentKind) (amount_msat : option Z)
    (direction : PaymentDirection) (status : PaymentStatus) : pcmd bool :=
  on_store (DataStore.insert (new_payment now id kind amount_msat None direction status)).

(** The part [send] and [send_using_amount] share; [res] is the channel manager's answer.
    On success [send] looks at the invoice's amount with [unwrap]. *)
Definition pay_invoice (now : Z) (node_wide : option RouteParametersConfig)
    (res : outcome Bolt11PaymentError unit) (invoice : Bolt11Invoice)
    (given_amount recorded_amount : option Z) (params : option RouteParametersConfig) :
    pcmd PaymentId :=
  let id := invoice_payment_hash invoice in
  with_state (λ x,
    if must_not_pay (record id x) then fail DuplicatePayment
    else
      _ ← call (PayForBolt11Invoice invoice id given_amount (choose_parameters params node_wide));
      let kind := bolt11_kind invoice None in
      match res with
      | Ok _ =>
          _ ← lift (match given_amount with
                    | Some _ => Ok 0
                    | None => expect (amount_milli_satoshis invoice)
                    end);
          _ ← record_new now id kind recorded_amount Outbound Pending;
          mret id
      | Err PayInvalidAmount => fail InvalidInvoice
      | Err (SendingFailed SendDuplicatePayment) => fail DuplicatePayment
      | Err (SendingFailed _) =>
          _ ← record_new now id kind recorded_amount Outbound Failed;
          fail PaymentSendingFailed
      | Panic => lift Panic
      end).

Definition bolt11_send (running : bool) (now : Z) (node_wide : option RouteParametersConfig)
    (res : outcome Bolt11PaymentError unit) (invoice : Bolt11Invoice)
    (params : option RouteParametersConfig) : pcmd PaymentId :=
  if negb running then fail NotRunning
  else pay_invoice now node_wide res invoice None (amount_milli_satoshis invoice) params.

Definition bolt11_send_using_amount (running : bool) (now : Z)
    (node_wide : option RouteParametersConfig) (res : outcome Bolt11PaymentError unit)
    (invoice : Bolt11Invoice) (amount_msat : Z) (params : option RouteParametersConfig) :
    pcmd PaymentId :=
  if negb running then fail NotRunning
  else if match amount_milli_satoshis invoice with
          | Some invoice_amount_msat => amount_msat <? invoice_amount_msat
          | None => false
          end then fail InvalidAmount
  else pay_invoice now node_wide res invoice (Some amount_msat) (Some amount_msat) params.

(** [random_bytes] is the id drawn for the payment. *)
Definition pay_offer (now : Z) (node_wide : option RouteParametersConfig)
    (res : outcome Bolt12SemanticError unit) (random_bytes : PaymentId) (offer : Offer)
    (given_amount : option Z) (recorded_amount : Z) (quantity : option Z)
    (payer_note : option string) (params : option RouteParametersConfig) (failure : Error) :
    pcmd PaymentId :=
  _ ← call (PayForOffer offer given_amount random_bytes payer_note quantity
              (choose_parameters params node_wide));
  let kind := Bolt12Offer None None None (offer_id_of offer) payer_note quantity in
  match res with
  | Ok _ =>
      _ ← record_new now random_bytes kind (Some recorded_amount) Outbound Pending;
      mret random_bytes
  | Err DuplicatePaymentId => fail DuplicatePayment
  | Err _ =>
      _ ← record_new now random_bytes kind (Some recorded_amount) Outbound Failed;
      fail failure
  | Panic => lift Panic
  end.

Definition bolt12_send (running : bool) (now : Z) (node_wide : option RouteParametersConfig)
    (res : outcome Bolt12SemanticError unit) (random_bytes : PaymentId) (offer : Offer)
    (quantity : option Z) (payer_note : option string) (params : option RouteParametersConfig) :
    pcmd PaymentId :=
  if negb running then fail NotRunning
  else match offer_amount offer with
       | Some (BitcoinAmount offer_amount_msat) =>
           pay_offer now node_wide res random_bytes offer None offer_amount_msat quantity
             payer_note params InvoiceRequestCreationFailed
       | Some _ => fail UnsupportedCurrency
       | None => fail InvalidOffer
       end.

Definition bolt12_send_using_amount (running : bool) (now : Z)
    (node_wide : option RouteParametersConfig) (res : outcome Bolt12SemanticError unit)
    (random_bytes : PaymentId) (offer : Offer) (amount_msat : Z) (quantity : option Z)
    (payer_note : option string) (params : option RouteParametersConfig) : pcmd PaymentId :=
  if negb running then fail NotRunning
  else
    offer_amount_msat ← lift (match offer_amount offer with
                              | Some (BitcoinAmount offer_amount_msat) => Ok offer_amount_msat
                              | Some _ => Err UnsupportedCurrency
                              | None => Ok amount_msat
                              end);
    if amount_msat <? offer_amount_msat then fail InvalidAmount
    else pay_offer now node_wide res random_bytes offer (Some amount_msat) amount_msat quantity
           payer_note params PaymentSendingFailed.

(** [SpontaneousPayment::send_inner]; [random_bytes] are drawn when no preimage is given,
    [tlvs_ok] is LDK's check of the custom TLVs. *)
Definition spontaneous_send_inner (running : bool) (now : Z)
    (node_wide : option RouteParametersConfig) (res : outcome RetryableSendFailure unit)
    (random_bytes : PaymentPreimage) (tlvs_ok : list (Z * bytes) → bool)
    (amount_msat : Z) (node_id : PublicKey) (params : option RouteParametersConfig)
    (custom_tlvs : option (list (Z * bytes))) (preimage : option PaymentPreimage) :
    pcmd PaymentId :=
  if negb running then fail NotRunning
  else
    let payment_preimage := default random_bytes preimage in
    let payment_hash := sha256 payment_preimage in
    with_state (λ x,
      if must_not_pay (record payment_hash x) then fail DuplicatePayment
      else
        let route_params := match params with Some p => Some p | None => node_wide end in
        if match custom_tlvs with Some tlvs => negb (tlvs_ok tlvs) | None => false end
        then fail InvalidCustomTlvs
        else
          _ ← call (SendSpontaneousPayment payment_preimage (default [] custom_tlvs) payment_hash
                      node_id amount_msat route_params);
          let kind := Spontaneous payment_hash (Some payment_preimage) in
          match res with
          | Ok _ =>
              _ ← record_new now payment_hash kind (Some amount_msat) Outbound Pending;
              mret payment_hash
          | Err SendDuplicatePayment => fail DuplicatePayment
          | Err _ =>
              _ ← record_new now payment_hash kind (Some amount_msat) Outbound Failed;
              fail PaymentSendingFailed
          | Panic => lift Panic
          end).

(** The public sending functions of [SpontaneousPayment]. *)
Definition spontaneous_send running now node_wide res random_bytes tlvs_ok (amount_msat : Z)
    (node_id : PublicKey) params :=
  spontaneous_send_inner running now node_wide res random_bytes tlvs_ok amount_msat node_id params
    None None.
Definition send_with_custom_tlvs running now node_wide res random_bytes tlvs_ok (amount_msat : Z)
    (node_id : PublicKey) params (custom_tlvs : list (Z * bytes)) :=
  spontaneous_send_inner running now node_wide res random_bytes tlvs_ok amount_msat node_id params
    (Some custom_tlvs) None.
Definition send_with_preimage running now node_wide res random_bytes tlvs_ok (amount_msat : Z)
    (node_id : PublicKey) (preimage : PaymentPreimage) params :=
  spontaneous_send_inner running now node_wide res random_bytes tlvs_ok amount_msat node_id params
    None (Some preimage).
Definition send_with_preimage_and_custom_tlvs running now node_wide res random_bytes tlvs_ok
    (amount_msat : Z) (node_id : PublicKey) (custom_tlvs : list (Z * bytes))
    (preimage : PaymentPreimage) params :=
  spontaneous_send_inner running now node_wide res random_bytes tlvs_ok amount_msat node_id params
    (Some custom_tlvs) (Some preimage).

(** ** Expecting payments *)

Definition bolt11_receive_inner (now : Z) (m : invoice_manager) (amount_msat : option Z)
    (description : Bolt11InvoiceDescription) (expiry_secs : Z)
    (manual_claim_payment_hash : option PaymentHash) : pcmd Bolt11Invoice :=
  invoice ← lift (ok_or (create_bolt11_invoice m
                           {| ip_amount_msats := amount_msat;
                              ip_description := description;
                              ip_invoice_expiry_delta_secs := Some expiry_secs;
                              ip_payment_hash := manual_claim_payment_hash |})
                    InvoiceCreationFailed);
  let preimage :=
    match manual_claim_payment_hash with
    | None => get_payment_preimage m (invoice_payment_hash invoice) (invoice_payment_secret invoice)
    | Some _ => None
    end in
  _ ← record_new now (invoice_payment_hash invoice) (bolt11_kind invoice preimage) amount_msat
        Inbound Pending;
  mret invoice.

Definition bolt11_receive now m (amount_msat : Z) description expiry_secs :=
  bolt11_receive_inner now m (Some amount_msat) description expiry_secs None.
Definition bolt11_receive_for_hash now m (amount_msat : Z) description expiry_secs
    (payment_hash : PaymentHash) :=
  bolt11_receive_inner now m (Some amount_msat) description expiry_secs (Some payment_hash).
Definition bolt11_receive_variable_amount now m description expiry_secs :=
  bolt11_receive_inner now m None description expiry_secs None.
Definition bolt11_receive_variable_amount_for_hash now m description expiry_secs
    (payment_hash : PaymentHash) :=
  bolt11_receive_inner now m None description expiry_secs (Some payment_hash).

(** The record of a JIT invoice, with what the LSP may withhold. *)
Definition jit_kind (invoice : Bolt11Invoice) (preimage : option PaymentPreimage)
    (limits : LSPFeeLimits) : PaymentKind :=
  Bolt11Jit (invoice_payment_hash invoice) preimage (Some (invoice_payment_secret invoice)) None
    limits (Some (description_text (invoice_description invoice))) (Some (invoice_text invoice)).
Definition record_jit_invoice (now : Z) (known_preimage : option PaymentPreimage)
    (amount_msat : option Z) (invoice : Bolt11Invoice)
    (lsp_total_opening_fee lsp_prop_opening_fee : option Z) : pcmd bool :=
  record_new now (invoice_payment_hash invoice)
    (jit_kind invoice known_preimage
       {| max_total_opening_fee_msat := lsp_total_opening_fee;
          max_proportional_opening_fee_ppm_msat := lsp_prop_opening_fee |})
    amount_msat Inbound Pending.

(** [Bolt12Payment::receive_inner] and [receive_variable_amount]; [build] is LDK's
    builder, [None] if it cannot be had or refuses. *)
Definition bolt12_receive_inner (now : Z) (builder_ok : bool) (build : offer_request → option Offer)
    (amount_msat : Z) (description : string) (expiry_secs quantity : option Z) :
    outcome Error Offer :=
  if negb builder_ok then Err OfferCreationFailed
  else if bool_decide (quantity = Some 0) then Err InvalidQuantity
  else ok_or (build {| or_amount_msats := Some amount_msat;
                       or_description := description;
                       or_absolute_expiry := (λ secs, now + secs) <$> expiry_secs;
                       or_supported_quantity := quantity |}) OfferCreationFailed.
Definition bolt12_receive_variable_amount (now : Z) (builder_ok : bool)
    (build : offer_request → option Offer) (description : string) (expiry_secs : option Z) :
    outcome Error Offer :=
  if negb builder_ok then Err OfferCreationFailed
  else ok_or (build {| or_amount_msats := None;
                       or_description := description;
                       or_absolute_expiry := (λ secs, now + secs) <$> expiry_secs;
                       or_supported_quantity := None |}) OfferCreationFailed.

(** [invoice_hash] is the payment hash of the invoice LDK answers with. *)
Definition request_refund_payment (running : bool) (now : Z) (invoice_hash : option PaymentHash)
    (refund : Refund) : pcmd PaymentHash :=
  if negb running then fail NotRunning
  else
    payment_hash ← lift (ok_or invoice_hash InvoiceRequestCreationFailed);
    _ ← record_new now payment_hash
          (Bolt12Refund (Some payment_hash) None None (refund_payer_note refund)
             (refund_quantity refund))
          (Some (refund_amount_msats refund)) Inbound Pending;
    mret payment_hash.

(** [builder_ok] and [build] are LDK's refund builder. *)
Definition initiate_refund (now : Z) (builder_ok : bool) (build : option Refund)
    (random_bytes : PaymentId) (amount_msat : Z) (quantity : option Z)
    (payer_note : option string) : pcmd Refund :=
  if negb builder_ok then fail RefundCreationFailed
  else
    refund ← lift (ok_or build RefundCreationFailed);
    _ ← record_new now random_bytes (Bolt12Refund None None None payer_note quantity)
          (Some amount_msat) Outbound Pending;
    mret refund.

(** ** Claiming and failing by hand *)

Definition withheld (k : PaymentKind) : Z :=
  match k with Bolt11Jit _ _ _ (Some fee) _ _ _ => fee | _ => 0 end.

Definition claim_for_hash (payment_hash : PaymentHash) (claimable_amount_msat : Z)
    (preimage : PaymentPreimage) : pcmd unit :=
  if decide (sha256 preimage = payment_hash) then
    with_state (λ x,
      match record payment_hash x with
      | Some details =>
          if match amount_msat details with
             | Some invoice_amount_msat =>
                 claimable_amount_msat <? wrap64 (invoice_amount_msat - withheld (kind details))
             | None => false
             end then fail InvalidAmount
          else call (ClaimFunds preimage)
      | None => fail InvalidPaymentHash
      end)
  else fail InvalidPaymentPreimage.

(** [PaymentDetailsUpdate { status: Some(PaymentStatus::Failed), .. }] *)
Definition failed_update (id : PaymentId) (hash : option (option PaymentHash)) :
    PaymentDetailsUpdate :=
  mkPaymentDetailsUpdate id hash None None None None None None (Some Failed) None.

Definition fail_for_hash (now : Z) (payment_hash : PaymentHash) : pcmd unit :=
  res ← on_store (DataStore.update now (failed_update payment_hash None));
  match res with
  | NotFound => fail InvalidPaymentHash
  | Updated | Unchanged => call (FailHtlcBackwards payment_hash)
  end.

(** ** LDK's payment events *)

(** Fail the HTLCs and mark the record. *)
Definition refuse (now : Z) (payment_hash : PaymentHash) (update : PaymentDetailsUpdate) :
    hcmd unit :=
  _ ← call (FailHtlcBackwards payment_hash);
  _ ← or_replay (on_store (DataStore.update now update));
  mret tt.

Definition is_spontaneous (k : PaymentKind) : bool :=
  match k with Spontaneous _ _ => true | _ => false end.

(** What the counterparty may withhold of a payment of [amount_msat]. *)
Definition fee_limit (k : PaymentKind) (amount_msat : Z) : Z :=
  match k with
  | Bolt11Jit _ _ _ _ limits _ _ =>
      match max_total_opening_fee_msat limits with
      | Some fee => fee
      | None =>
          default 0 (max_prop_fee ← max_proportional_opening_fee_ppm_msat limits;
                     compute_opening_fee amount_msat 0 max_prop_fee)
      end
  | _ => 0
  end.

Definition skimmed_update (id : PaymentId) (fee_msat : Z) : PaymentDetailsUpdate :=
  mkPaymentDetailsUpdate id None None None None None (Some (Some fee_msat)) None None None.

Definition record_skimmed_fee (now : Z) (payment_hash : PaymentHash) (k : PaymentKind)
    (counterparty_skimmed_fee_msat : Z) : hcmd unit :=
  if 0 <? counterparty_skimmed_fee_msat then
    match k with
    | Bolt11Jit _ _ _ _ _ _ _ =>
        _ ← or_replay (on_store (DataStore.update now
                (skimmed_update payment_hash counterparty_skimmed_fee_msat)));
        mret tt
    | _ => mret tt
    end
  else mret tt.

(** The user holds the preimage of a payment registered for a hash. *)
Definition needs_manual_claim (k : PaymentKind) (purpose : PaymentPurpose) : bool :=
  match k with
  | Bolt11 _ _ _ _ _ | Bolt11Jit _ _ _ _ _ _ _ =>
      bool_decide (purpose_preimage purpose = None)
  | _ => false
  end.

(** Offer and spontaneous payments get their record here; a failure to store it is only
    logged. *)
Definition record_claimable (now : Z) (payment_hash : PaymentHash) (purpose : PaymentPurpose)
    (amount_msat : Z) : hcmd unit :=
  match purpose with
  | Bolt12OfferPayment payment_preimage payment_secret offer_id payer_note quantity =>
      log_failure (record_new now payment_hash
        (Bolt12Offer (Some payment_hash) payment_preimage (Some payment_secret) offer_id
           payer_note quantity) (Some amount_msat) Inbound Pending)
  | SpontaneousPayment preimage =>
      log_failure (record_new now payment_hash (Spontaneous payment_hash (Some preimage))
        (Some amount_msat) Inbound Pending)
  | _ => mret tt
  end.

Definition claim (now : Z) (payment_hash : PaymentHash) (purpose : PaymentPurpose)
    (amount_msat : Z) : hcmd unit :=
  _ ← record_claimable now payment_hash purpose amount_msat;
  match purpose_preimage purpose with
  | Some preimage => call (ClaimFunds preimage)
  | None => refuse now payment_hash (failed_update payment_hash (Some (Some payment_hash)))
  end.

Record claimable := mkClaimable {
  c_payment_hash : PaymentHash;
  c_purpose : PaymentPurpose;
  c_amount_msat : Z;
  c_claim_deadline : option Z;
  c_custom_records : list CustomTlvRecord;
  c_counterparty_skimmed_fee_msat : Z;
}.

(** [LdkEvent::PaymentClaimable] *)
Definition payment_claimable (now : Z) (e : claimable) : hcmd unit :=
  let payment_hash := c_payment_hash e in
  let purpose := c_purpose e in
  let amount_msat := c_amount_msat e in
  let skimmed := c_counterparty_skimmed_fee_msat e in
  with_state (λ x,
    match record payment_hash x with
    | Some info =>
        if bool_decide (direction info = Outbound) then
          refuse now payment_hash (failed_update payment_hash None)
        else if bool_decide (status info = Succeeded) || is_spontaneous (kind info) then
          refuse now payment_hash (failed_update payment_hash None)
        else if fee_limit (kind info) amount_msat <? skimmed then
          refuse now payment_hash (failed_update payment_hash (Some (Some payment_hash)))
        else
          _ ← record_skimmed_fee now payment_hash (kind info) skimmed;
          if needs_manual_claim (kind info) purpose then
            or_replay (add_event (Event.PaymentClaimable payment_hash payment_hash amount_msat
                                    (c_claim_deadline e) (c_custom_records e)))
          else claim now payment_hash purpose amount_msat
    | None => claim now payment_hash purpose amount_msat
    end).

(** Write the outcome into the record, and tell the user when that changed it. *)
Definition report (now : Z) (update : PaymentDetailsUpdate) (log : hcmd unit) (event : Ev) :
    hcmd unit :=
  res ← or_replay (on_store (DataStore.update now update));
  match res with
  | Updated => _ ← log; or_replay (add_event event)
  | Unchanged | NotFound => mret tt
  end.

Definition claimed_update (payment_hash : PaymentHash) (purpose : PaymentPurpose)
    (amount_msat : Z) : PaymentDetailsUpdate :=
  let update preimage secret :=
    mkPaymentDetailsUpdate payment_hash None (Some preimage) secret (Some (Some amount_msat))
      None None None (Some Succeeded) None in
  match purpose with
  | Bolt11InvoicePayment payment_preimage payment_secret
  | Bolt12OfferPayment payment_preimage payment_secret _ _ _
  | Bolt12RefundPayment payment_preimage payment_secret =>
      update payment_preimage (Some (Some payment_secret))
  | SpontaneousPayment preimage => update (Some preimage) None
  end.

(** [LdkEvent::PaymentClaimed] *)
Definition payment_claimed (now : Z) (payment_hash : PaymentHash) (purpose : PaymentPurpose)
    (amount_msat : Z) (custom_records : list CustomTlvRecord) : hcmd unit :=
  report now (claimed_update payment_hash purpose amount_msat) (mret tt)
    (PaymentReceived (Some payment_hash) payment_hash amount_msat custom_records).

Definition sent_update (id : PaymentId) (payment_hash : PaymentHash)
    (payment_preimage : PaymentPreimage) (fee_paid_msat : option Z) : PaymentDetailsUpdate :=
  mkPaymentDetailsUpdate id (Some (Some payment_hash)) (Some (Some payment_preimage)) None None
    (Some fee_paid_msat) None None (Some Succeeded) None.

(** The log line looks at the record's amount with [unwrap]. *)
Definition log_sent (id : PaymentId) : hcmd unit :=
  with_state (λ x,
    match record id x with
    | Some payment => _ ← lift (expect (amount_msat payment)); mret tt
    | None => mret tt
    end).

(** [LdkEvent::PaymentSent] *)
Definition payment_sent (now : Z) (payment_id : option PaymentId) (payment_hash : PaymentHash)
    (payment_preimage : PaymentPreimage) (fee_paid_msat : option Z) : hcmd unit :=
  match payment_id with
  | Some id =>
      report now (sent_update id payment_hash payment_preimage fee_paid_msat) (log_sent id)
        (PaymentSuccessful (Some id) payment_hash (Some payment_preimage) fee_paid_msat)
  | None => mret tt
  end.

(** [LdkEvent::PaymentFailed] *)
Definition payment_failed (now : Z) (id : PaymentId) (payment_hash : option PaymentHash)
    (reason : option PaymentFailureReason) : hcmd unit :=
  report now (failed_update id (Some payment_hash)) (mret tt)
    (Event.PaymentFailed (Some id) payment_hash reason).

(** [LdkEvent::ProbeSuccessful] and [LdkEvent::ProbeFailed]; [path_fee_msat] is the fee of
    the probed path. *)
Definition probe_successful (id : PaymentId) (payment_hash : PaymentHash) (path_fee_msat : Z) :
    hcmd unit :=
  or_replay (add_event (ProbeSuccessful id payment_hash (Some path_fee_msat))).
Definition probe_failed (id : PaymentId) (payment_hash : PaymentHash)
    (short_channel_id : option Z) (path_fee_msat : Z) : hcmd unit :=
  or_replay (add_event (ProbeFailed id payment_hash short_channel_id (Some path_fee_msat))).

(** ** What the calls touch *)

Abbreviation queued x := (EventQueue.queue (event_queue x)).

Lemma on_store_frame {E A} (m : cmd Store E A) x x' r :
  on_store m x = (x', r) →
  calls x' = calls x ∧ queued x' = queued x ∧ m (payment_store x) = (payment_store x', r).
Proof. unfold on_store. destruct (m (payment_store x)). by intros [= <- <-]. Qed.

Lemma or_replay_inv {A} (m : pcmd A) x x' r :
  or_replay m x = (x', r) →
  ∃ r0, m x = (x', r0) ∧ r = map_err (λ _, Replay) r0.
Proof. unfold or_replay, cmd_map_err. destruct (m x). intros [= <- <-]. eauto. Qed.

(** Whether the store takes the record that [update] makes of [p]. *)
Definition written (now : Z) (update : PaymentDetailsUpdate) (p : PaymentDetails) x : bool :=
  let p' := touch now (merge update p) in
  let ps := payment_store x in
  is_ok (kv_write (DataStore.kv_store ps) (DataStore.store_key ps (id p'))
           (tlv_encode (write_payment p'))).2.

(** The records after an update: changed in memory whether or not the write succeeds. *)
Definition updated_records (now : Z) (update : PaymentDetailsUpdate) x :
    gmap PaymentId PaymentDetails :=
  match record (u_id update) x with
  | Some p => <[u_id update := (payment_update now p update).1]> (DataStore.objects (payment_store x))
  | None => DataStore.objects (payment_store x)
  end.

Definition update_answer (now : Z) (update : PaymentDetailsUpdate) x :
    outcome Error DataStoreUpdateResult :=
  match record (u_id update) x with
  | Some p =>
      if decide (merge update p = p) then Ok Unchanged
      else if written now update p x then Ok Updated else Err PersistenceFailed
  | None => Ok NotFound
  end.

Lemma update_answer_cases now update x :
  (∃ a, update_answer now update x = Ok a) ∨ update_answer now update x = Err PersistenceFailed.
Proof. unfold update_answer. repeat case_match; eauto. Qed.

Context {KSPEC : KVStoreSpec S}.

Lemma update_run now update x x' r :
  on_store (DataStore.update now update) x = (x', r) →
  calls x' = calls x ∧ queued x' = queued x ∧
  DataStore.objects (payment_store x') = updated_records now update x ∧
  r = update_answer now update x.
Proof.
  intros (-> & -> & H)%on_store_frame. do 2 (split; [done|]). revert H.
  generalize (payment_store x'). intros ps'.
  unfold DataStore.update, with_state, updated_records, update_answer, record, DataStore.get,
    written, payment_objects, payment_storable. cbn [update_id so_update].
  destruct (DataStore.objects (payment_store x) !! u_id update) as [p|] eqn:Hp;
    [|by intros [= <- <-]].
  rewrite payment_update_merge.
  case_bool_decide as Hm; cbn [negb]; unfold mbind, cmd_bind; cbn.
  { rewrite (decide_True _ _ Hm). by intros [= <- <-]. }
  rewrite (decide_False _ _ Hm). unfold DataStore.persist, DataStore.store_key, payment_id_to_hex_str; cbn.
  match goal with |- context [kv_write ?a ?b ?c] =>
    pose proof (kv_write_total a b c); destruct (kv_write a b c) as [kv [[]|e|]] end;
    cbn in *; by intros [= <- <-].
Qed.

Lemma add_event_run event x x' r :
  add_event event x = (x', r) →
  calls x' = calls x ∧ queued x' = queued x ++ [event] ∧
  DataStore.objects (payment_store x') = DataStore.objects (payment_store x) ∧
  (r = Ok tt ∨ r = Err PersistenceFailed).
Proof.
  unfold add_event, EventQueue.add_event, mbind, cmd_bind. cbn.
  unfold EventQueue.persist_queue. cbn.
  match goal with |- context [kv_write ?a ?b ?c] =>
    pose proof (kv_write_total a b c); destruct (kv_write a b c) as [kv [[]|e|]] end;
    cbn in *; intros [= <- <-]; cbn; auto. by exfalso.
Qed.

Lemma add_event_stored event x x' :
  add_event event x = (x', Ok tt) →
  kv_view (DataStore.kv_store (payment_store x')) !! EventQueue.EVENT_QUEUE_KEY =
    Some (EventQueue.encode_queue (queued x')).
Proof.
  unfold add_event, EventQueue.add_event, mbind, cmd_bind. cbn.
  unfold EventQueue.persist_queue. cbn.
  destruct (kv_write _ _ _) as [kv [[]|e|]] eqn:Hw; cbn; intros [= <-]; cbn.
  rewrite (kv_write_Ok _ _ _ _ Hw). apply lookup_insert_eq.
Qed.

Lemma record_new_run now i k a d st x x' r :
  record_new now i k a d st x = (x', r) →
  calls x' = calls x ∧ queued x' = queued x ∧
  ((∃ b, r = Ok b) ∧ DataStore.objects (payment_store x') =
     <[i := new_payment now i k a None d st]> (DataStore.objects (payment_store x)) ∨
   r = Err PersistenceFailed ∧
     DataStore.objects (payment_store x') = DataStore.objects (payment_store x)).
Proof.
  unfold record_new. intros (-> & -> & H)%on_store_frame. split_and!; [done..|]. revert H.
  unfold DataStore.insert, DataStore.persist, with_state, mbind, cmd_bind. cbn.
  match goal with |- context [kv_write ?a ?b ?c] =>
    pose proof (kv_write_total a b c); destruct (kv_write a b c) as [kv [[]|e|]] end;
    cbn in *; intros [= <- <-]; cbn; eauto. by exfalso.
Qed.

(** ** Claimable payments *)

(** The node may take the payment: there is no record of it, or its record is that of an
    expected payment, is not marked as received, and the counterparty withheld no more than
    agreed. *)
Definition acceptable (e : claimable) x : Prop :=
  match record (c_payment_hash e) x with
  | None => True
  | Some info =>
      direction info = Inbound ∧ status info ≠ Succeeded ∧ is_spontaneous (kind info) = false ∧
      c_counterparty_skimmed_fee_msat e ≤ fee_limit (kind info) (c_amount_msat e)
  end.

Lemma refuse_run now h u x x' r :
  refuse now h u x = (x', r) →
  calls x' = calls x ++ [FailHtlcBackwards h] ∧ queued x' = queued x ∧
  DataStore.objects (payment_store x') = updated_records now u x ∧
  (r = Ok tt ∨ r = Err Replay).
Proof.
  unfold refuse, mbind at 1, cmd_bind at 1. cbn. unfold mbind, cmd_bind.
  destruct (or_replay _ _) as [x1 r1] eqn:Hu.
  apply or_replay_inv in Hu as (r0 & (Hc & Hq & Ho & ->)%update_run & ->). cbn in Hc, Hq.
  change (updated_records now u (mkState _ _ _)) with (updated_records now u x) in Ho.
  edestruct update_answer_cases as [[a Ha]|Ha]; rewrite Ha; cbn; intros [= <- <-]; auto.
Qed.

Lemma record_claimable_run now h p a x x' r :
  record_claimable now h p a x = (x', r) →
  calls x' = calls x ∧ queued x' = queued x ∧ r = Ok tt.
Proof.
  unfold record_claimable, log_failure.
  destruct p; try (by intros [= <- <-]);
    (destruct (record_new _ _ _ _ _ _ x) as [x1 r1] eqn:Hn;
     apply record_new_run in Hn as (? & ? & [[[b ->] _]|[-> _]]); by intros [= <- <-]).
Qed.

(** The payment is of an invoice of ours. *)
Definition invoiced (e : claimable) x : bool :=
  match kind <$> record (c_payment_hash e) x with
  | Some (Bolt11 _ _ _ _ _) | Some (Bolt11Jit _ _ _ _ _ _ _) => true
  | _ => false
  end.

(** How one event was answered: by claiming, by failing the HTLCs, or by asking the
    user.  The three exclude each other. *)
Inductive answer (e : claimable) x : list payment_call → list Ev → Prop :=
| Claimed preimage :
    acceptable e x → purpose_preimage (c_purpose e) = Some preimage →
    answer e x [ClaimFunds preimage] []
| Refused :
    (acceptable e x → purpose_preimage (c_purpose e) = None ∧ invoiced e x = false) →
    answer e x [FailHtlcBackwards (c_payment_hash e)] []
| Asked :
    acceptable e x → purpose_preimage (c_purpose e) = None → invoiced e x = true →
    answer e x [] [Event.PaymentClaimable (c_payment_hash e) (c_payment_hash e)
                     (c_amount_msat e) (c_claim_deadline e) (c_custom_records e)].

(** What one handling of the event did: its answer; or, when the event is asked for again,
    nothing, or an answer other than a claim that could not be stored. *)
Definition answered (e : claimable) x (cs : list payment_call) (es : list Ev)
    (r : outcome ReplayEvent unit) : Prop :=
  match r with
  | Ok _ => answer e x cs es
  | Err Replay =>
      cs = [] ∧ es = [] ∨ answer e x cs es ∧ ∀ preimage, cs ≠ [ClaimFunds preimage]
  | Panic => False
  end.

Lemma claim_run now e x x' x0 r :
  claim now (c_payment_hash e) (c_purpose e) (c_amount_msat e) x = (x', r) →
  acceptable e x0 → (purpose_preimage (c_purpose e) = None → invoiced e x0 = false) →
  ∃ cs, calls x' = calls x ++ cs ∧ queued x' = queued x ∧ answered e x0 cs [] r.
Proof.
  unfold claim, mbind, cmd_bind.
  destruct (record_claimable _ _ _ _ x) as [x1 r1] eqn:Hr.
  apply record_claimable_run in Hr as (Hc & Hq & ->). intros H Hacc Hinv. revert H.
  destruct (purpose_preimage (c_purpose e)) as [p|] eqn:Hp.
  - intros [= <- <-]. cbn. rewrite Hc, Hq. eexists. split_and!; [done|done|by constructor].
  - intros (? & ? & _ & Hr)%refuse_run. rewrite <- Hc, <- Hq. eexists.
    split_and!; [done|done|]. assert (answer e x0 [FailHtlcBackwards (c_payment_hash e)] [])
      by (constructor; auto). destruct Hr as [->| ->]; [done|by right].
Qed.

Lemma record_skimmed_fee_run now h k fee x x' r :
  record_skimmed_fee now h k fee x = (x', r) →
  calls x' = calls x ∧ queued x' = queued x ∧ (r = Ok tt ∨ r = Err Replay).
Proof.
  unfold record_skimmed_fee, mbind, cmd_bind. destruct (0 <? fee); [|by intros [= <- <-]; auto].
  destruct k; try (by intros [= <- <-]; auto).
  destruct (or_replay _ _) as [x1 r1] eqn:Hu.
  apply or_replay_inv in Hu as (r0 & (Hc & Hq & _ & ->)%update_run & ->).
  edestruct update_answer_cases as [[a Ha]|Ha]; rewrite Ha; cbn; intros [= <- <-]; auto.
Qed.

Lemma refuse_answers now e u x x' r :
  refuse now (c_payment_hash e) u x = (x', r) →
  ¬ acceptable e x →
  ∃ cs es, calls x' = calls x ++ cs ∧ queued x' = queued x ++ es ∧ answered e x cs es r.
Proof.
  intros (? & ? & _ & Hr)%refuse_run ?. exists [FailHtlcBackwards (c_payment_hash e)], [].
  rewrite app_nil_r. split_and!; [done|done|].
  assert (answer e x [FailHtlcBackwards (c_payment_hash e)] []) by (by constructor).
  destruct Hr as [->| ->]; [done|by right].
Qed.

#[local] Ltac refused Hrec :=
  let H := fresh in
  intros H; apply (refuse_answers _ _ _ _ _ _ H); unfold acceptable; rewrite Hrec.

Lemma claimable_run now e x x' r :
  payment_claimable now e x = (x', r) →
  ∃ cs es, calls x' = calls x ++ cs ∧ queued x' = queued x ++ es ∧ answered e x cs es r.
Proof.
  unfold payment_claimable, with_state. cbv zeta.
  destruct (record (c_payment_hash e) x) as [info|] eqn:Hrec.
  2:{ assert (acceptable e x) as Hacc by (unfold acceptable; by rewrite Hrec).
      intros H. destruct (claim_run _ _ _ _ _ _ H Hacc) as (cs & ? & ? & ?).
      { unfold invoiced. by rewrite Hrec. }
      exists cs, []. rewrite app_nil_r. auto. }
  case_bool_decide as Hd.
  { refused Hrec. by intros [Hi _]; rewrite Hi in Hd. }
  case_bool_decide as Hs.
  { refused Hrec. by intros (_ & ? & _). }
  destruct (is_spontaneous (kind info)) eqn:Hk.
  { refused Hrec. by intros (_ & _ & Hk' & _); rewrite Hk' in Hk. }
  cbn [orb]. match goal with |- context [?a <? ?b] => destruct (Z.ltb_spec a b) as [Hfee|Hfee] end.
  { refused Hrec. lia. }
  assert (acceptable e x) as Hacc.
  { unfold acceptable. rewrite Hrec. by destruct (direction info). }
  unfold mbind at 1, cmd_bind at 1. destruct (record_skimmed_fee _ _ _ _ x) as [x1 r1] eqn:H1.
  apply record_skimmed_fee_run in H1 as (Hc & Hq & [->| ->]).
  2:{ intros [= <- <-]. exists [], []. rewrite !app_nil_r. split_and!; [done..|]. by left. }
  assert (needs_manual_claim (kind info) (c_purpose e) =
    bool_decide (purpose_preimage (c_purpose e) = None) && invoiced e x) as Hm.
  { unfold invoiced. rewrite Hrec. cbn. destruct (kind info); cbn; by case_bool_decide. }
  destruct (needs_manual_claim (kind info) (c_purpose e)).
  - symmetry in Hm. apply andb_true_iff in Hm as [Hp%bool_decide_eq_true Hi].
    intros (r0 & (Hc' & Hq' & _ & Hr)%add_event_run & ->)%or_replay_inv.
    eexists [], _. rewrite app_nil_r, Hq', Hc', Hc, Hq. split_and!; [done..|].
    destruct Hr as [->| ->]; cbn; [by constructor|right]. by split; [constructor|].
  - intros H. destruct (claim_run _ _ _ _ _ _ H Hacc) as (cs & ? & ? & ?).
    { intros Hp. by rewrite bool_decide_eq_true_2 in Hm. }
    exists cs, []. rewrite app_nil_r, <- Hc, <- Hq. auto.
Qed.

(** C5. Every [PaymentClaimable] event whose handling succeeds got exactly one answer: the
    funds were claimed with the event's preimage, the HTLCs failed, or the user asked.
    Funds are claimed, and the user is asked, only for a payment without a record, or with
    the record of an expected payment that is not marked as received (nor spontaneous) and
    of which the counterparty withheld no more than the agreed fee; the user is asked
    exactly if such a payment is of one of our invoices and LDK does not know the preimage.
    When the handling fails, the event is asked for again: then nothing was done, or the
    refusal or the question could not be stored, and it will be answered anew; funds were
    not claimed.  (That the mark of a received payment does not outlive a refused duplicate
    is [duplicate_reopens].) *)
Theorem claimable_answered now e x x' r :
  payment_claimable now e x = (x', r) →
  ∃ cs es, calls x' = calls x ++ cs ∧ queued x' = queued x ++ es ∧ answered e x cs es r.
Proof. apply claimable_run. Qed.

(** A second payment of an invoice that was paid is failed, but it marks the record of
    the payment that was received as failed; a third one is then claimed like a first. *)
Theorem duplicate_reopens now e e' x x' r info :
  record (c_payment_hash e) x = Some info →
  direction info = Inbound → status info = Succeeded → is_spontaneous (kind info) = false →
  payment_claimable now e x = (x', r) →
  c_payment_hash e' = c_payment_hash e →
  c_counterparty_skimmed_fee_msat e' ≤ fee_limit (kind info) (c_amount_msat e') →
  calls x' = calls x ++ [FailHtlcBackwards (c_payment_hash e)] ∧
  status <$> record (c_payment_hash e) x' = Some Failed ∧ acceptable e' x'.
Proof.
  intros Hrec Hd Hs Hk Hrun He' Hfee. revert Hrun.
  unfold payment_claimable, with_state. cbv zeta. rewrite Hrec.
  rewrite bool_decide_eq_false_2, bool_decide_eq_true_2 by (done || congruence). cbn [orb].
  intros (Hc & _ & Ho & _)%refuse_run.
  assert (record (c_payment_hash e) x' =
    Some (touch now (merge (failed_update (c_payment_hash e) None) info))) as Hrec'.
  { unfold record, DataStore.get. rewrite Ho. unfold updated_records. cbn [u_id failed_update].
    rewrite Hrec, lookup_insert_eq, payment_update_merge, bool_decide_eq_false_2; [done|].
    intros Hm. apply (f_equal status) in Hm. cbn in Hm. congruence. }
  split; [done|]. split; [by rewrite Hrec'|]. unfold acceptable. rewrite He', Hrec'. cbn.
  assert (merge_kind (failed_update (c_payment_hash e) None) (kind info) = kind info) as ->
    by (by destruct (kind info)).
  done.
Qed.

(** ** Outcomes *)

(** The events that settle a payment. *)
Inductive payment_outcome :=
| OutcomeClaimed (payment_hash : PaymentHash) (purpose : PaymentPurpose) (amount_msat : Z)
    (custom_records : list CustomTlvRecord)
| OutcomeSent (id : PaymentId) (payment_hash : PaymentHash)
    (payment_preimage : PaymentPreimage) (fee_paid_msat : option Z)
| OutcomeFailed (id : PaymentId) (payment_hash : option PaymentHash)
    (reason : option PaymentFailureReason).

Definition handle_outcome (o : payment_outcome) (now : Z) : hcmd unit :=
  match o with
  | OutcomeClaimed h p a c => payment_claimed now h p a c
  | OutcomeSent i h p f => payment_sent now (Some i) h p f
  | OutcomeFailed i h r => payment_failed now i h r
  end.
Definition outcome_update (o : payment_outcome) : PaymentDetailsUpdate :=
  match o with
  | OutcomeClaimed h p a _ => claimed_update h p a
  | OutcomeSent i h p f => sent_update i h p f
  | OutcomeFailed i h _ => failed_update i (Some h)
  end.
Definition outcome_event (o : payment_outcome) : Ev :=
  match o with
  | OutcomeClaimed h _ a c => PaymentReceived (Some h) h a c
  | OutcomeSent i h p f => PaymentSuccessful (Some i) h (Some p) f
  | OutcomeFailed i h r => Event.PaymentFailed (Some i) h r
  end.
Definition outcome_log (o : payment_outcome) : hcmd unit :=
  match o with OutcomeSent i _ _ _ => log_sent i | _ => mret tt end.

(** LDK hands an event out again, at later times, as long as its handler asks for it. *)
Fixpoint deliver (times : list Z) (handler : Z → hcmd unit) : hcmd unit := λ x,
  match times with
  | [] => (x, Err Replay)
  | now :: times =>
      match handler now x with
      | (x, Err Replay) => deliver times handler x
      | done => done
      end
  end.

Definition settles (now : Z) (o : payment_outcome) x : bool :=
  match record (u_id (outcome_update o)) x with
  | Some p =>
      negb (bool_decide (merge (outcome_update o) p = p)) && written now (outcome_update o) p x
  | None => false
  end.

(** The record of a sent payment has an amount. *)
Definition amount_known (o : payment_outcome) x : Prop :=
  match o with
  | OutcomeSent i _ _ _ => ∀ p, record i x = Some p → is_Some (amount_msat p)
  | _ => True
  end.

Lemma handle_outcome_report o now :
  handle_outcome o now = report now (outcome_update o) (outcome_log o) (outcome_event o).
Proof. by destruct o. Qed.

Lemma record_updated now u x x' :
  DataStore.objects (payment_store x') = updated_records now u x →
  record (u_id u) x' = (λ p, (payment_update now p u).1) <$> record (u_id u) x.
Proof.
  intros Ho. unfold record at 1, DataStore.get. rewrite Ho. unfold updated_records.
  destruct (record (u_id u) x) as [p|] eqn:Hp; cbn; [by rewrite lookup_insert_eq|exact Hp].
Qed.

(** A second look finds nothing to change. *)
Lemma update_again now now' u x x' :
  DataStore.objects (payment_store x') = updated_records now u x →
  updated_records now' u x' = DataStore.objects (payment_store x') ∧
  update_answer now' u x' ≠ Ok Updated ∧ (∃ a, update_answer now' u x' = Ok a).
Proof.
  intros Ho. pose proof (record_updated _ _ _ _ Ho) as Hr.
  unfold updated_records, update_answer. rewrite Hr.
  destruct (record (u_id u) x) as [p|]; cbn; [|by eauto].
  assert (merge u (payment_update now p u).1 = (payment_update now p u).1) as Hm.
  { rewrite payment_update_merge. case_bool_decide; cbn; [done|]. apply merge_touch_idem. }
  rewrite payment_update_merge, bool_decide_eq_true_2, decide_True by done. cbn.
  split_and!; [|done|by eauto]. apply insert_id. exact Hr.
Qed.

Lemma outcome_log_run now o x x' :
  amount_known o x →
  DataStore.objects (payment_store x') = updated_records now (outcome_update o) x →
  outcome_log o x' = (x', Ok tt).
Proof.
  intros Ha Ho. pose proof (record_updated _ _ _ _ Ho) as Hr.
  destruct o as [|i h pre f|]; [done| |done]. cbn [outcome_log outcome_update] in *.
  change (u_id _) with i in Hr. unfold log_sent, with_state. rewrite Hr. destruct (record i x) as [p|] eqn:Hp; cbn; [|done].
  destruct (Ha p Hp) as [a Hpa]. rewrite payment_update_merge. case_bool_decide; cbn;
    rewrite Hpa; done.
Qed.

Lemma report_again now now' o x x' x'' r :
  DataStore.objects (payment_store x') = updated_records now (outcome_update o) x →
  handle_outcome o now' x' = (x'', r) →
  r = Ok tt ∧ calls x'' = calls x' ∧ queued x'' = queued x' ∧
  DataStore.objects (payment_store x'') = DataStore.objects (payment_store x').
Proof.
  intros Ho. rewrite handle_outcome_report. unfold report, mbind, cmd_bind.
  destruct (or_replay _ _) as [x1 r1] eqn:Hu.
  apply or_replay_inv in Hu as (r0 & (Hc & Hq & Ho' & ->)%update_run & ->).
  destruct (update_again _ now' _ _ _ Ho) as (Hsame & Hn & [a Ha]).
  rewrite Ha in *. rewrite Hsame in Ho'. cbn. destruct a; [done|..]; by intros [= <- <-].
Qed.

(** The first attempt. *)
Lemma report_first now o x x' r :
  amount_known o x →
  handle_outcome o now x = (x', r) →
  (r = Ok tt ∨ r = Err Replay) ∧ calls x' = calls x ∧
  queued x' = queued x ++ (if settles now o x then [outcome_event o] else []) ∧
  DataStore.objects (payment_store x') = updated_records now (outcome_update o) x.
Proof.
  intros Ha. rewrite handle_outcome_report. unfold report, mbind, cmd_bind.
  destruct (or_replay _ _) as [x1 r1] eqn:Hu.
  apply or_replay_inv in Hu as (r0 & (Hc & Hq & Ho & ->)%update_run & ->).
  unfold settles, update_answer.
  destruct (record _ x) as [p|] eqn:Hp;
    [|intros [= <- <-]; rewrite app_nil_r; auto].
  case_decide as Hm; [rewrite bool_decide_eq_true_2 by done|rewrite bool_decide_eq_false_2 by done].
  { intros [= <- <-]. cbn. rewrite app_nil_r. auto. }
  cbn [negb andb]. destruct (written now _ p x); cbn.
  2:{ intros [= <- <-]. rewrite app_nil_r. auto. }
  rewrite (outcome_log_run _ _ _ _ Ha Ho).
  intros (r0 & (Hc' & Hq' & Ho' & Hr)%add_event_run & ->)%or_replay_inv.
  rewrite Hc', Hq', Ho', Hc, Hq. split_and!; [|done..]. destruct Hr as [->| ->]; auto.
Qed.

(** C17. A claimed, sent or failed payment is settled after at most two deliveries of its
    event, and the user is told exactly once, if the payment has a record that the
    outcome changes and the store takes the changed record the first time, and never
    otherwise: an outcome whose write fails is not reported when the event is handed
    out again, because the record in memory has changed already. *)
Theorem outcome_reported_once now now' rest o x x' r :
  amount_known o x →
  deliver (now :: now' :: rest) (handle_outcome o) x = (x', r) →
  r = Ok tt ∧ calls x' = calls x ∧
  queued x' = queued x ++ (if settles now o x then [outcome_event o] else []) ∧
  DataStore.objects (payment_store x') = updated_records now (outcome_update o) x.
Proof.
  intros Ha. cbn. destruct (handle_outcome o now x) as [x1 r1] eqn:H1.
  apply report_first in H1 as (Hr & Hc & Hq & Ho); [|done].
  destruct Hr as [->| ->]; [by intros [= <- <-]|].
  destruct (handle_outcome o now' x1) as [x2 r2] eqn:H2.
  destruct (report_again _ _ _ _ _ _ _ Ho H2) as (-> & Hc2 & Hq2 & Ho2).
  intros [= <- <-]. rewrite Hc2, Hq2, Ho2. done.
Qed.

(** ** Payments in flight are not started again *)

(** [Node::remove_payment] *)
Definition remove_payment (payment_id : PaymentId) : pcmd unit :=
  on_store (DataStore.remove payment_id).

(** All calls and events that touch payment records, with LDK's answers and the clock; the
    wallet records an on-chain payment as pending or, once it is [settled], as succeeded. *)
Inductive op :=
| OpBolt11Send (running : bool) (now : Z) (node_wide : option RouteParametersConfig)
    (res : outcome Bolt11PaymentError unit) (invoice : Bolt11Invoice)
    (amount : option Z) (params : option RouteParametersConfig)
| OpBolt12Send (running : bool) (now : Z) (node_wide : option RouteParametersConfig)
    (res : outcome Bolt12SemanticError unit) (random_bytes : PaymentId) (offer : Offer)
    (amount quantity : option Z) (payer_note : option string)
    (params : option RouteParametersConfig)
| OpSpontaneousSend (running : bool) (now : Z) (node_wide : option RouteParametersConfig)
    (res : outcome RetryableSendFailure unit) (random_bytes : PaymentPreimage)
    (tlvs_ok : list (Z * bytes) → bool) (amount_msat : Z) (node_id : PublicKey)
    (params : option RouteParametersConfig) (custom_tlvs : option (list (Z * bytes)))
    (preimage : option PaymentPreimage)
| OpReceive (now : Z) (m : invoice_manager) (amount_msat : option Z)
    (description : Bolt11InvoiceDescription) (expiry_secs : Z)
    (manual_claim_payment_hash : option PaymentHash)
| OpReceiveJit (now : Z) (known_preimage : option PaymentPreimage) (amount_msat : option Z)
    (invoice : Bolt11Invoice) (lsp_total_opening_fee lsp_prop_opening_fee : option Z)
| OpRequestRefund (running : bool) (now : Z) (invoice_hash : option PaymentHash) (refund : Refund)
| OpInitiateRefund (now : Z) (builder_ok : bool) (build : option Refund)
    (random_bytes : PaymentId) (amount_msat : Z) (quantity : option Z)
    (payer_note : option string)
| OpClaimForHash (payment_hash : PaymentHash) (claimable_amount_msat : Z)
    (preimage : PaymentPreimage)
| OpFailForHash (now : Z) (payment_hash : PaymentHash)
| OpClaimable (now : Z) (e : claimable)
| OpOutcome (now : Z) (o : payment_outcome)
| OpRemovePayment (payment_id : PaymentId)
| OpOnchainRecord (now : Z) (id : PaymentId) (txid : Txid) (confirmation : ConfirmationStatus)
    (amount_msat fee_paid_msat : option Z) (direction : PaymentDirection) (settled : bool).

(** The state after an operation, whatever it answers. *)
Definition exec (o : op) x : state :=
  match o with
  | OpBolt11Send running now node_wide res invoice None params =>
      (bolt11_send running now node_wide res invoice params x).1
  | OpBolt11Send running now node_wide res invoice (Some amount) params =>
      (bolt11_send_using_amount running now node_wide res invoice amount params x).1
  | OpBolt12Send running now node_wide res random_bytes offer None quantity note params =>
      (bolt12_send running now node_wide res random_bytes offer quantity note params x).1
  | OpBolt12Send running now node_wide res random_bytes offer (Some amount) quantity note params =>
      (bolt12_send_using_amount running now node_wide res random_bytes offer amount quantity note
         params x).1
  | OpSpontaneousSend running now node_wide res random_bytes ok amount node_id params tlvs preimage =>
      (spontaneous_send_inner running now node_wide res random_bytes ok amount node_id params
         tlvs preimage x).1
  | OpReceive now m amount description expiry manual =>
      (bolt11_receive_inner now m amount description expiry manual x).1
  | OpReceiveJit now known amount invoice total prop =>
      (record_jit_invoice now known amount invoice total prop x).1
  | OpRequestRefund running now hash refund => (request_refund_payment running now hash refund x).1
  | OpInitiateRefund now builder_ok build random_bytes amount quantity note =>
      (initiate_refund now builder_ok build random_bytes amount quantity note x).1
  | OpClaimForHash h amount preimage => (claim_for_hash h amount preimage x).1
  | OpFailForHash now h => (fail_for_hash now h x).1
  | OpClaimable now e => (payment_claimable now e x).1
  | OpOutcome now o => (handle_outcome o now x).1
  | OpRemovePayment i => (remove_payment i x).1
  | OpOnchainRecord now i txid confirmation amount fee direction settled =>
      (on_store (DataStore.insert_or_update now
         (new_payment now i (Onchain txid confirmation) amount fee direction
            (if settled then Succeeded else Pending))) x).1
  end.
Definition run (os : list op) x : state := foldl (λ x o, exec o x) x os.

(** The operations after which [i] may be paid again: those that can mark its record
    failed, which are its failure, an order to fail it by hand, an incoming payment with its
    hash, or an offer's payment that draws the same id; and the removal of the record. *)
Definition may_fail (i : PaymentId) (o : op) : bool :=
  match o with
  | OpOutcome _ (OutcomeFailed j _ _) => bool_decide (j = i)
  | OpFailForHash _ h => bool_decide (h = i)
  | OpClaimable _ e => bool_decide (c_payment_hash e = i)
  | OpBolt12Send _ _ _ _ random_bytes _ _ _ _ _ => bool_decide (random_bytes = i)
  | OpRemovePayment j => bool_decide (j = i)
  | _ => false
  end.

(** There is a record of the payment, and it has not failed. *)
Definition locked (i : PaymentId) x : Prop := must_not_pay (record i x) = true.

(** A command that keeps a locked payment locked and does not start it. *)
Definition keeps {E A} (i : PaymentId) (m : cmd state E A) : Prop :=
  ∀ x, locked i x → locked i (m x).1 ∧
    ∃ cs, calls (m x).1 = calls x ++ cs ∧ Forall (λ c, started c ≠ Some i) cs.

Lemma keeps_pure {E A} i (m : cmd state E A) : (∀ x, (m x).1 = x) → keeps i m.
Proof. intros H x Hx. rewrite H. split; [done|]. exists []. by rewrite app_nil_r. Qed.
Lemma keeps_ret {E A} i (a : A) : keeps (E := E) i (mret a).
Proof. by apply keeps_pure. Qed.
Lemma keeps_fail {E A} i (e : E) : keeps (A := A) i (fail e).
Proof. by apply keeps_pure. Qed.
Lemma keeps_lift {E A} i (r : outcome E A) : keeps i (lift r).
Proof. by apply keeps_pure. Qed.
Lemma keeps_calls_bind {E A B} i (m : cmd state E A) (f : A → cmd state E B) :
  keeps i m → (∀ a, keeps i (f a)) → keeps i (m ≫= f).
Proof.
  intros Hm Hf x Hx. destruct (Hm x Hx) as (Hl & cs & Hc & Hs). unfold mbind, cmd_bind.
  destruct (m x) as [x1 [a|e|]]; cbn in *; [|by eauto..].
  destruct (Hf a x1 Hl) as (Hl' & cs' & Hc' & Hs'). split; [done|].
  exists (cs ++ cs'). rewrite Hc', Hc, app_assoc. split; [done|]. by apply Forall_app.
Qed.
Lemma keeps_with_state {E A} i (f : state → cmd state E A) :
  (∀ x, locked i x → keeps i (f x)) → keeps i (with_state f).
Proof. intros H x Hx. by apply (H x Hx). Qed.
Lemma keeps_call {E} i c : started c ≠ Some i → keeps (E := E) i (call c).
Proof. intros H x Hx. split; [done|]. exists [c]. cbn. auto. Qed.
Lemma keeps_or_replay {A} i (m : pcmd A) : keeps i m → keeps i (or_replay m).
Proof.
  intros H x Hx. specialize (H x Hx). unfold or_replay, cmd_map_err. by destruct (m x).
Qed.
Lemma keeps_log_failure {E A} i (m : pcmd A) : keeps i m → keeps (E := E) i (log_failure m).
Proof.
  intros H x Hx. specialize (H x Hx). unfold log_failure. by destruct (m x) as [? []].
Qed.
Lemma keeps_no_calls {E A} i (m : cmd state E A) :
  (∀ x x' r, m x = (x', r) → calls x' = calls x ∧ (locked i x → locked i x')) → keeps i m.
Proof.
  intros H x Hx. destruct (m x) as [x' r] eqn:Hm. destruct (H _ _ _ Hm) as [Hc Hl].
  split; [by apply Hl|]. exists []. by rewrite app_nil_r.
Qed.
Lemma keeps_add_event i event : keeps i (add_event event).
Proof.
  apply keeps_no_calls. intros x x' r (Hc & _ & Ho & _)%add_event_run. split; [done|].
  unfold locked, record, DataStore.get. by rewrite Ho.
Qed.
Lemma keeps_record_new now i j k a d st :
  j ≠ i ∨ st ≠ Failed → keeps i (record_new now j k a d st).
Proof.
  intros Hj. apply keeps_no_calls.
  intros x x' r (Hc & _ & [[_ Ho]|[_ Ho]])%record_new_run; (split; [done|]);
    unfold locked, record, DataStore.get; rewrite Ho; [|done].
  destruct (decide (j = i)) as [->|Hne]; [|by rewrite lookup_insert_ne].
  rewrite lookup_insert_eq. cbn. intros _. destruct Hj; [done|]. by destruct st.
Qed.
Lemma keeps_update now i u :
  u_id u ≠ i ∨ u_status u ≠ Some Failed → keeps i (on_store (DataStore.update now u)).
Proof.
  intros Hu. apply keeps_no_calls. intros x x' r (Hc & _ & Ho & _)%update_run. split; [done|].
  unfold locked, record at 2, DataStore.get. rewrite Ho. unfold updated_records.
  destruct (record (u_id u) x) as [p|] eqn:Hp; [|done].
  destruct (decide (u_id u = i)) as [<-|Hne]; [|by rewrite lookup_insert_ne].
  rewrite lookup_insert_eq, Hp, payment_update_merge. destruct Hu as [|Hu]; [done|].
  case_bool_decide; cbn; [done|]. destruct (u_status u) as [[]|]; cbn; done.
Qed.

Lemma keeps_remove i j : j ≠ i → keeps i (remove_payment j).
Proof.
  intros Hne. apply keeps_no_calls. intros x x' r (Hc & _ & H)%on_store_frame. split; [done|].
  unfold locked, record, DataStore.get. revert H. unfold DataStore.remove.
  case_bool_decide; [destruct (kv_remove _ _) as [kv rk]|];
    intros [= <- _]; cbn; by rewrite lookup_delete_ne.
Qed.
Lemma keeps_insert_or_update now i p :
  status p ≠ Failed → keeps i (on_store (DataStore.insert_or_update now p)).
Proof.
  intros Hp. apply keeps_no_calls. intros x x' r (Hc & _ & H)%on_store_frame. split; [done|].
  unfold locked, record, DataStore.get.
  assert (∀ q, status q ≠ Failed →
    must_not_pay (DataStore.objects (payment_store x) !! i) = true →
    must_not_pay (<[so_id p := q]> (DataStore.objects (payment_store x)) !! i) = true) as Hset.
  { intros q Hq Hx. destruct (decide (so_id p = i)) as [<-|Hne];
      [|by rewrite lookup_insert_ne]. rewrite lookup_insert_eq. cbn. by destruct (status q). }
  revert H. unfold DataStore.insert_or_update, DataStore.persist, with_state, mbind, cmd_bind.
  destruct (DataStore.objects (payment_store x) !! so_id p) as [entry|] eqn:He.
  - cbn [so_update payment_storable]. rewrite payment_update_merge. case_bool_decide; cbn.
    { by intros [= <- _]. }
    destruct (kv_write _ _ _) as [kv [[]|?|]]; intros [= <- _]; cbn; [|done..].
    apply Hset. destruct p, kind; done.
  - destruct (kv_write _ _ _) as [kv [[]|?|]]; intros [= <- _]; cbn; [by apply Hset|done..].
Qed.

Create HintDb keeps.
#[local] Hint Resolve keeps_ret keeps_fail keeps_lift keeps_add_event keeps_or_replay
  keeps_log_failure : keeps.

Ltac keeps_step :=
  lazymatch goal with
  | |- ∀ _, _ => intro
  | |- keeps _ (_ ≫= _) => apply keeps_calls_bind
  | |- keeps _ (with_state _) => apply keeps_with_state
  | |- keeps _ (or_replay _) => apply keeps_or_replay
  | |- keeps _ (log_failure _) => apply keeps_log_failure
  | |- keeps _ (record_new _ _ _ _ _ _) => apply keeps_record_new; auto
  | |- keeps _ (on_store (DataStore.update _ _)) => apply keeps_update; auto
  | |- keeps _ (call _) => apply keeps_call; auto
  | |- keeps _ (match ?y with _ => _ end) => destruct y eqn:?
  end.
Ltac keeps := repeat keeps_step; auto with keeps.

Lemma keeps_pay_invoice i now node_wide res invoice given recorded params :
  keeps i (pay_invoice now node_wide res invoice given recorded params).
Proof.
  unfold pay_invoice. apply keeps_with_state. intros x Hx.
  destruct (must_not_pay _) eqn:Hm; [auto with keeps|].
  assert (invoice_payment_hash invoice ≠ i) as Hne by (intros Heq; unfold locked in Hx; congruence).
  keeps. cbn. congruence.
Qed.
Lemma keeps_pay_offer i now node_wide res random offer given recorded quantity note params err :
  random ≠ i →
  keeps i (pay_offer now node_wide res random offer given recorded quantity note params err).
Proof. intros Hne. unfold pay_offer. keeps. cbn. congruence. Qed.
Lemma keeps_refuse now i h u : h ≠ i → u_id u = h → keeps i (refuse now h u).
Proof. intros Hne Hu. unfold refuse. keeps. left. congruence. Qed.
Lemma keeps_claim now i h p a : h ≠ i → keeps i (claim now h p a).
Proof. intros Hne. unfold claim, record_claimable. keeps; by apply keeps_refuse. Qed.

Lemma keeps_run {E A} i (m : cmd state E A) x :
  keeps i m → locked i x →
  locked i (m x).1 ∧ ∃ cs, calls (m x).1 = calls x ++ cs ∧ Forall (λ c, started c ≠ Some i) cs.
Proof. intros H. apply H. Qed.

Lemma keeps_claimable now i e : c_payment_hash e ≠ i → keeps i (payment_claimable now e).
Proof.
  intros Hne. unfold payment_claimable, record_skimmed_fee.
  keeps; solve [by apply keeps_refuse|by apply keeps_claim].
Qed.
Lemma keeps_outcome now i o :
  may_fail i (OpOutcome now o) = false → keeps i (handle_outcome o now).
Proof.
  rewrite handle_outcome_report. intros Hf. unfold report, outcome_log, log_sent. keeps.
  destruct o as [? [] | |]; cbn in *; auto. left. by apply bool_decide_eq_false in Hf.
Qed.
Lemma keeps_spontaneous i running now node_wide res random ok amount node params tlvs preimage :
  keeps i (spontaneous_send_inner running now node_wide res random ok amount node params tlvs
             preimage).
Proof.
  unfold spontaneous_send_inner. destruct (negb running); [auto with keeps|].
  apply keeps_with_state. intros x Hx.
  destruct (must_not_pay _) eqn:Hm; [auto with keeps|].
  assert (sha256 (default random preimage) ≠ i) by (intros Heq; unfold locked in Hx; congruence).
  keeps; cbn; congruence.
Qed.

Lemma exec_locked o i x :
  may_fail i o = false → locked i x →
  locked i (exec o x) ∧
  ∃ cs, calls (exec o x) = calls x ++ cs ∧ Forall (λ c, started c ≠ Some i) cs.
Proof.
  intros Hf Hx. destruct o; cbn [exec]; try case_match; eapply keeps_run; try exact Hx.
  all: try (cbn in Hf; apply bool_decide_eq_false in Hf).
  - unfold bolt11_send_using_amount. keeps. apply keeps_pay_invoice.
  - unfold bolt11_send. keeps. apply keeps_pay_invoice.
  - unfold bolt12_send_using_amount. keeps. by apply keeps_pay_offer.
  - unfold bolt12_send. keeps. by apply keeps_pay_offer.
  - apply keeps_spontaneous.
  - unfold bolt11_receive_inner. keeps.
  - unfold record_jit_invoice. keeps.
  - unfold request_refund_payment. keeps.
  - unfold initiate_refund. keeps.
  - unfold claim_for_hash. keeps.
  - unfold fail_for_hash. keeps.
  - by apply keeps_claimable.
  - by apply keeps_outcome.
  - by apply keeps_remove.
  - by apply keeps_insert_or_update.
  - by apply keeps_insert_or_update.
Qed.

Lemma run_locked os i x :
  Forall (λ o, may_fail i o = false) os → locked i x →
  locked i (run os x) ∧
  ∃ cs, calls (run os x) = calls x ++ cs ∧ Forall (λ c, started c ≠ Some i) cs.
Proof.
  intros Hos. revert x. induction Hos as [|o os Ho Hos IH]; intros x Hx; cbn.
  { split; [done|]. exists []. by rewrite app_nil_r. }
  destruct (exec_locked o i x Ho Hx) as (Hl & cs & Hc & Hs).
  destruct (IH _ Hl) as (Hl' & cs' & Hc' & Hs'). split; [done|]. exists (cs ++ cs').
  unfold run in Hc'. rewrite Hc', Hc, app_assoc. split; [done|]. by apply Forall_app.
Qed.

(** C16. An invoice that was paid with success stays paid: whatever calls are made and
    events handled one after the other afterwards, with any faults of the store and any
    answers of LDK, no call starts a payment with its hash again and the record does not
    become a failed one, unless the payment fails, the user fails the hash by hand or
    removes the payment's record, an HTLC with the same hash comes in, or the payment of an
    offer draws the hash as its random id. *)
Theorem paid_once running now node_wide res invoice params x x1 i os :
  bolt11_send running now node_wide res invoice params x = (x1, Ok i) →
  Forall (λ o, may_fail i o = false) os →
  i = invoice_payment_hash invoice ∧
  (∃ params', calls x1 = calls x ++ [PayForBolt11Invoice invoice i None params']) ∧
  locked i (run os x1) ∧
  ∃ cs, calls (run os x1) = calls x1 ++ cs ∧ Forall (λ c, started c ≠ Some i) cs.
Proof.
  intros Hsend Hos.
  assert (i = invoice_payment_hash invoice ∧ locked i x1 ∧
    ∃ p, calls x1 = calls x ++ [PayForBolt11Invoice invoice i None p]) as (Hi & Hl & Hc).
  2:{ split; [done|]. split; [done|]. by apply run_locked. }
  revert Hsend. unfold bolt11_send. destruct running; [|done]. cbn [negb].
  unfold pay_invoice, with_state. destruct (must_not_pay _); [done|].
  unfold mbind at 1, cmd_bind at 1. cbn [call modify].
  destruct res as [[]|[|[]]|]; try done.
  - intros H. apply cmd_bind_Ok in H as (? & ? & H1 & H). revert H1.
    unfold lift. destruct (amount_milli_satoshis invoice) eqn:Ha; [|done]. intros [= <- <-].
    apply cmd_bind_Ok in H as (x2 & b & Hn & [= <- <-]).
    apply record_new_run in Hn as (Hc & _ & [[_ Ho]|[? _]]); [|done].
    split; [done|]. split; [|eexists; exact Hc].
    unfold locked, record, DataStore.get. by rewrite Ho, lookup_insert_eq.
  - intros H. by apply cmd_bind_Ok in H as (x2 & b & Hn & ?).
Qed.

(** ** What sending comes to *)

(** The store refused a write, and the records say nothing new of the payment. *)
Definition unrecorded (i : PaymentId) x x' : Prop :=
  (∃ kv k v kv' e, kv_write kv k v = (kv', Err e)) ∧ record i x' = record i x.

Lemma record_new_stored now i k a d st x x' r :
  record_new now i k a d st x = (x', r) →
  calls x' = calls x ∧ (∀ j, j ≠ i → record j x' = record j x) ∧
  ((∃ b, r = Ok b) ∨ (∃ e, r = Err e) ∧ unrecorded i x x').
Proof.
  intros Hrun. pose proof Hrun as (Hc & _ & Ho)%record_new_run. split; [done|].
  unfold unrecorded, record, DataStore.get. destruct Ho as [[[b ->] Ho]|[-> Ho]]; rewrite Ho.
  - split; [|by eauto]. intros j Hj. by rewrite lookup_insert_ne.
  - split; [done|]. right. split; [by eexists|]. split; [|done].
    apply on_store_frame in Hrun as (_ & _ & Hrun). revert Hrun.
    unfold DataStore.insert, DataStore.persist, with_state, mbind, cmd_bind.
    match goal with |- context [kv_write ?a ?b ?c] => destruct (kv_write a b c) as [kv [[]|e|]] eqn:Hk end;
      cbn; [done| |done]. eauto 10.
Qed.

(** A call to LDK and its answer: accepted payments get a record, or the store refused it;
    the others an error. *)
Lemma pay_offer_run now node_wide res random offer given recorded quantity note params err x x' r :
  pay_offer now node_wide res random offer given recorded quantity note params err x = (x', r) →
  (∃ p, calls x' = calls x ++ [PayForOffer offer given random note quantity p]) ∧
  (∀ j, j ≠ random → record j x' = record j x) ∧
  match res with
  | Ok _ => r = Ok random ∨ (∃ e, r = Err e) ∧ unrecorded random x x'
  | Err _ => ∃ e, r = Err e
  | Panic => r = Panic
  end.
Proof.
  unfold pay_offer, mbind at 1, cmd_bind at 1. cbn [call modify].
  destruct res as [[]|[]|]; try (intros [= <- <-]; by eauto).
  all: unfold mbind, cmd_bind;
    match goal with |- context [record_new ?a ?b ?c ?d ?e ?f ?y] =>
      destruct (record_new a b c d e f y) as [x1 r1] eqn:Hn end;
    apply record_new_stored in Hn as (Hc & Ho & [[b ->]|[[e ->] Hu]]);
    intros [= <- <-]; rewrite Hc; cbn; (split; [by eexists|split; [exact Ho|]]); eauto.
Qed.

Lemma bolt12_send_run running now node_wide res random offer quantity note params x x' r :
  bolt12_send running now node_wide res random offer quantity note params x = (x', r) →
  x' = x ∧ (∃ e, r = Err e) ∨
  (∃ p, calls x' = calls x ++ [PayForOffer offer None random note quantity p]) ∧
  (∀ j, j ≠ random → record j x' = record j x) ∧
  match res with
  | Ok _ => r = Ok random ∨ (∃ e, r = Err e) ∧ unrecorded random x x'
  | Err _ => ∃ e, r = Err e
  | Panic => r = Panic
  end.
Proof.
  unfold bolt12_send. destruct (negb running); [intros [= <- <-]; by eauto|].
  destruct (offer_amount offer) as [[]|]; try (intros [= <- <-]; by eauto).
  intros Hp. right. exact (pay_offer_run _ _ _ _ _ _ _ _ _ _ _ _ _ _ Hp).
Qed.

(** Only an accepted payment of an invoice without an amount makes it panic. *)
Lemma bolt11_send_run running now node_wide res invoice params x x' r :
  bolt11_send running now node_wide res invoice params x = (x', r) →
  x' = x ∧ (∃ e, r = Err e) ∨
  (∃ p, calls x' = calls x ++ [PayForBolt11Invoice invoice (invoice_payment_hash invoice) None p]) ∧
  (∀ j, j ≠ invoice_payment_hash invoice → record j x' = record j x) ∧
  match res with
  | Ok _ =>
      r = Ok (invoice_payment_hash invoice) ∨
      (∃ e, r = Err e) ∧ unrecorded (invoice_payment_hash invoice) x x' ∨
      r = Panic ∧ amount_milli_satoshis invoice = None
  | Err _ => ∃ e, r = Err e
  | Panic => r = Panic
  end.
Proof.
  unfold bolt11_send. destruct (negb running); [intros [= <- <-]; by eauto|].
  unfold pay_invoice, with_state. destruct (must_not_pay _); [intros [= <- <-]; by eauto|].
  unfold mbind at 1, cmd_bind at 1. cbn [call modify].
  destruct res as [[]|[|[]]|]; try (intros [= <- <-]; right; by eauto).
  - unfold mbind, cmd_bind, lift. destruct (amount_milli_satoshis invoice) as [a|]; cbn [expect].
    2:{ intros [= <- <-]. right. cbn. eauto 10. }
    match goal with |- context [record_new ?a ?b ?c ?d ?e ?f ?y] =>
      destruct (record_new a b c d e f y) as [x1 r1] eqn:Hn end.
    apply record_new_stored in Hn as (Hc & Ho & [[b ->]|[[e ->] Hu]]);
    intros [= <- <-]; right; rewrite Hc; cbn; (split; [by eexists|split; [exact Ho|]]); eauto.
  - unfold mbind, cmd_bind.
    match goal with |- context [record_new ?a ?b ?c ?d ?e ?f ?y] =>
      destruct (record_new a b c d e f y) as [x1 r1] eqn:Hn end.
    apply record_new_stored in Hn as (Hc & Ho & [[b ->]|[[e ->] Hu]]);
    intros [= <- <-]; right; rewrite Hc; cbn; (split; [by eexists|split; [exact Ho|]]); eauto.
Qed.
End payments.
Arguments state : clear implicits.
End Payments.
