(* ===== verification/Probes.v ===== *)
(** * Probes and fee estimates ([src/payment/bolt11.rs], [src/payment/spontaneous.rs],
    [src/probe_handle.rs])

    Probing the routes of a payment before it is made, and estimating its fees.  The routes
    and the probes themselves are LDK's. *)

From S2P Require Import Prelude Errors KVStore Codec DataStore Types PaymentStore EventQueue Event Payments.

Module Probes.

Record ProbeHandle := mkProbeHandle { payment_hash : PaymentHash; payment_id : PaymentId }.

(** [RouteParameters] with the limits of its [PaymentParameters]. *)
Record RouteParameters := mkRouteParameters {
  payee : Bolt11Invoice;
  final_value_msat : Z;
  limits : RouteParametersConfig;
}.

(** The calls to the channel manager. *)
Inductive probe_call :=
| SendPreflightProbes (params : RouteParameters) (liquidity_limit_multiplier : option Z)
| SendSpontaneousPreflightProbes (node_id : PublicKey) (amount_msat final_cltv_expiry_delta : Z)
    (liquidity_limit_multiplier : option Z).
Abbreviation probe_cmd A := (cmd (list probe_call) Error A).

Section probes.
(** The limits [RouteParameters::from_payment_params_and_value] starts from, and LDK's
    final CLTV delta. *)
Context (default_limits : Bolt11Invoice → Z → RouteParametersConfig).
Context (LDK_DEFAULT_FINAL_CLTV_EXPIRY_DELTA : Z).

Definition from_payment_params_and_value (invoice : Bolt11Invoice) (amount_msat : Z) :
    RouteParameters :=
  mkRouteParameters invoice amount_msat (default_limits invoice amount_msat).

(** [if let Some(RouteParametersConfig { .. }) = route_parameters.or(config)] *)
Definition limit (params node_wide : option RouteParametersConfig) (rp : RouteParameters) :
    RouteParameters :=
  match (match params with Some p => Some p | None => node_wide end) with
  | Some p => mkRouteParameters (payee rp) (final_value_msat rp) p
  | None => rp
  end.

Definition handles (pairs : list (PaymentHash * PaymentId)) : list ProbeHandle :=
  (λ '(payment_hash, payment_id), mkProbeHandle payment_hash payment_id) <$> pairs.

(** [answer] is what the channel manager answers, [None] for an error. *)
Definition probe (c : probe_call) (answer : option (list (PaymentHash * PaymentId))) :
    probe_cmd (list ProbeHandle) :=
  _ ← modify (λ calls, calls ++ [c]);
  pairs ← lift (ok_or answer ProbeSendingFailed);
  mret (handles pairs).

Definition send_probes (running : bool) (node_wide : option RouteParametersConfig)
    (multiplier : Z) (answer : option (list (PaymentHash * PaymentId)))
    (invoice : Bolt11Invoice) (params : option RouteParametersConfig) :
    probe_cmd (list ProbeHandle) :=
  if negb running then fail NotRunning
  else
    amount_msat ← lift (ok_or (amount_milli_satoshis invoice) InvalidInvoice);
    let route_params :=
      limit params node_wide (from_payment_params_and_value invoice amount_msat) in
    probe (SendPreflightProbes route_params (Some multiplier)) answer.

Definition below_invoice (invoice : Bolt11Invoice) (amount_msat : Z) : bool :=
  match amount_milli_satoshis invoice with
  | Some invoice_amount_msat => amount_msat <? invoice_amount_msat
  | None => false
  end.

Definition send_probes_using_amount (running : bool) (node_wide : option RouteParametersConfig)
    (multiplier : Z) (answer : option (list (PaymentHash * PaymentId)))
    (invoice : Bolt11Invoice) (amount_msat : Z) (params : option RouteParametersConfig) :
    probe_cmd (list ProbeHandle) :=
  if negb running then fail NotRunning
  else if below_invoice invoice amount_msat then fail InvalidAmount
  else
    let route_params :=
      limit params node_wide (from_payment_params_and_value invoice amount_msat) in
    probe (SendPreflightProbes route_params (Some multiplier)) answer.

Definition spontaneous_send_probes (running : bool) (multiplier : Z)
    (answer : option (list (PaymentHash * PaymentId))) (amount_msat : Z) (node_id : PublicKey) :
    probe_cmd (list ProbeHandle) :=
  if negb running then fail NotRunning
  else probe (SendSpontaneousPreflightProbes node_id amount_msat
                LDK_DEFAULT_FINAL_CLTV_EXPIRY_DELTA (Some multiplier)) answer.

(** [find_route] gives the fees of the paths it found. *)
Definition route_fees (find_route : RouteParameters → option (list Z)) (rp : RouteParameters) :
    outcome Error Z :=
  paths ← ok_or (find_route rp) RouteNotFound;
  Ok (wrapping_sum 0 paths).

Definition estimate_routing_fees (running : bool)
    (find_route : RouteParameters → option (list Z)) (invoice : Bolt11Invoice) :
    outcome Error Z :=
  if negb running then Err NotRunning
  else
    amount_msat ← ok_or (amount_milli_satoshis invoice) InvalidInvoice;
    route_fees find_route (from_payment_params_and_value invoice amount_msat).

Definition estimate_routing_fees_using_amount (running : bool)
    (find_route : RouteParameters → option (list Z)) (invoice : Bolt11Invoice)
    (amount_msat : Z) : outcome Error Z :=
  if negb running then Err NotRunning
  else if below_invoice invoice amount_msat then Err InvalidAmount
  else route_fees find_route (from_payment_params_and_value invoice amount_msat).

(** ** Probes and payments *)

(** The probes of an invoice are for the payment that would be made: where limits are given
    or configured, for the invoice, the amount and the limits that the call to pay it
    names. *)
Theorem probes_match_payment {S R C T} {KV : KVStore S} {U16 : U16Codec} {CE : Codec (Event R C T)}
    enc dec dflt node_wide multiplier pairs invoice params p now cs cs' hs
    (x x' : Payments.state S R C T) i :
  (match params with Some p => Some p | None => node_wide end) = Some p →
  send_probes true node_wide multiplier (Some pairs) invoice params cs = (cs', Ok hs) →
  Payments.bolt11_send enc dec dflt true now node_wide (Ok tt) invoice params x = (x', Ok i) →
  ∃ amount, amount_milli_satoshis invoice = Some amount ∧ hs = handles pairs ∧
    cs' = cs ++ [SendPreflightProbes (mkRouteParameters invoice amount p) (Some multiplier)] ∧
    Payments.calls x' = Payments.calls x ++ [PayForBolt11Invoice invoice i None p].
Proof.
  intros Hp. unfold send_probes, Payments.bolt11_send, Payments.pay_invoice, with_state. cbn [negb].
  destruct (amount_milli_satoshis invoice) as [amount|]; [|done].
  unfold limit, Payments.choose_parameters. rewrite Hp. intros [= <- <-].
  destruct (Payments.must_not_pay _); [done|]. unfold mbind, cmd_bind. cbn.
  unfold Payments.record_new, Payments.on_store.
  destruct (DataStore.insert _ _) as [ps [b|e|]]; [|done..]. intros [= <- <-]. eauto 10.
Qed.

(** Estimates are made for LDK's own limits, whatever limits a payment would be made with;
    the fees are added modulo 2^64. *)
Theorem estimate_uses_defaults find_route invoice amount :
  amount_milli_satoshis invoice = Some amount →
  estimate_routing_fees true find_route invoice =
  match find_route (mkRouteParameters invoice amount (default_limits invoice amount)) with
  | Some fees => Ok (wrap64 (sum_Z fees))
  | None => Err RouteNotFound
  end.
Proof.
  intros Ha. unfold estimate_routing_fees, route_fees. rewrite Ha. cbn.
  destruct (find_route _) as [fees|]; [|done]. cbn. by rewrite wrapping_sum_eq.
Qed.
End probes.
End Probes.
