(* ===== verification/Liquidity.v ===== *)
(** * The liquidity source ([src/liquidity.rs])

    As a client of a liquidity service provider (LSP) the node asks for channels, by
    LSPS1 orders and by LSPS2 just-in-time channels; as an LSPS2 service it sells them.
    Requests are answered by events, which find the waiting caller by the request's id.
    LDK's protocol handlers, the clock and what happens while a call waits are inputs;
    [calls] are the calls made to the handlers. *)

From S2P Require Import Prelude Errors KVStore DataStore Types PaymentStore Bdk AggTypes.
From S2P Require Import Aggregate AggBuild AggInvariant FeeEstimator Config WalletKeys Event NodeMetrics.
From S2P Require Import TxBroadcaster Wallet Broadcast OnchainPayment Payments.

(** ** Waiting for an answer

    A map from request ids to [oneshot] senders, with the channels themselves: the
    [n]th request of a table waits on channel [n]. *)
Module Requests.
Section requests.
Context {RequestId R : Type} `{Countable RequestId}.

Inductive slot := Waiting | Answered (r : R) | SenderGone | ReceiverGone.

Record requests := mkRequests { pending : gmap RequestId nat; slots : list slot }.
Implicit Types (q : requests) (c : nat) (i : RequestId).

Definition new : requests := mkRequests ∅ [].

Definition drop_sender c (ss : list slot) : list slot :=
  match ss !! c with Some Waiting => <[c := SenderGone]> ss | _ => ss end.
(** [oneshot::channel()], then [HashMap::insert] of its sender, which drops the one it
    replaces. *)
Definition register i q : nat * requests :=
  let ss := match pending q !! i with Some old => drop_sender old (slots q) | None => slots q end in
  (length (slots q), mkRequests (<[i := length (slots q)]> (pending q)) (ss ++ [Waiting])).

(** [sender.send(response)] fails when the receiver is gone. *)
Definition send c (r : R) (ss : list slot) : list slot :=
  match ss !! c with Some Waiting => <[c := Answered r]> ss | _ => ss end.
Definition respond i (r : R) q : requests :=
  match pending q !! i with
  | Some c => mkRequests (delete i (pending q)) (send c r (slots q))
  | None => q
  end.

(** What [tokio::time::timeout(LIQUIDITY_REQUEST_TIMEOUT_SECS, receiver)] ends with, looked
    at when the answer is there or the time is up; the receiver is dropped. *)
Definition await c q : requests * outcome Error R :=
  match slots q !! c with
  | Some (Answered r) => (q, Ok r)
  | Some SenderGone => (q, Err LiquidityRequestFailed)
  | _ => (mkRequests (pending q) (<[c := ReceiverGone]> (slots q)), Err LiquidityRequestFailed)
  end.

(** ** Answers reach the request they belong to *)

Inductive action := Register (i : RequestId) | Respond (i : RequestId) (r : R) | Await (c : nat).

Definition act (a : action) q : requests :=
  match a with
  | Register i => (register i q).2
  | Respond i r => respond i r q
  | Await c => (await c q).1
  end.
Definition acts (l : list action) q : requests := foldl (λ q a, act a q) q l.

(** The first answer to [i]. *)
Definition first_response i (l : list action) : option R :=
  find_map (λ a, match a with Respond j r => if decide (j = i) then Some r else None | _ => None end) l.

Record wf q : Prop := {
  wf_bound : ∀ i c, pending q !! i = Some c → (c < length (slots q))%nat;
  wf_inj : ∀ i j c, pending q !! i = Some c → pending q !! j = Some c → i = j;
}.

Lemma drop_sender_length c ss : length (drop_sender c ss) = length ss.
Proof. unfold drop_sender. repeat case_match; auto using length_insert. Qed.
Lemma send_length c r ss : length (send c r ss) = length ss.
Proof. unfold send. repeat case_match; auto using length_insert. Qed.
Lemma drop_sender_ne c d ss : c ≠ d → drop_sender c ss !! d = ss !! d.
Proof. intros. unfold drop_sender. repeat case_match; auto using list_lookup_insert_ne. Qed.
Lemma send_ne c d r ss : c ≠ d → send c r ss !! d = ss !! d.
Proof. intros. unfold send. repeat case_match; auto using list_lookup_insert_ne. Qed.

Lemma register_slots_length i q :
  length (slots (register i q).2) = Datatypes.S (length (slots q)).
Proof.
  cbn. rewrite length_app. cbn. case_match; rewrite ?drop_sender_length; lia.
Qed.

Lemma act_wf a q : wf q → wf (act a q).
Proof.
  intros Hq. destruct a as [i|i r|c].
  - split.
    + intros j d. unfold act. rewrite register_slots_length. cbn.
      intros [[<- <-]|[_ Hj]]%lookup_insert_Some; [lia|]. apply Hq in Hj. lia.
    + intros j k d. cbn.
      intros [[<- Hd]|[? Hj]]%lookup_insert_Some [[<- Hd']|[? Hk]]%lookup_insert_Some; [done|..].
      * apply Hq in Hk. lia.
      * apply Hq in Hj. lia.
      * by eapply Hq.
  - cbn. unfold respond. destruct (pending q !! i) as [c|] eqn:Hc; [|done]. split; cbn.
    + intros j d [_ Hj]%lookup_delete_Some. rewrite send_length. by apply Hq in Hj.
    + intros j k d [_ Hj]%lookup_delete_Some [_ Hk]%lookup_delete_Some. by eapply Hq.
  - cbn. unfold await. repeat case_match; try done; split; cbn; rewrite ?length_insert; apply Hq.
Qed.

Lemma acts_wf l q : wf q → wf (acts l q).
Proof. revert q. induction l as [|a l IH]; intros q Hq; [done|]. by apply IH, act_wf. Qed.

(** The request [i] on channel [c] is waiting, or has the answer [r]. *)
Definition held i c (r : option R) q : Prop :=
  match r with
  | None => pending q !! i = Some c ∧ slots q !! c = Some Waiting
  | Some r => slots q !! c = Some (Answered r) ∧ (∀ j, pending q !! j ≠ Some c)
  end.

Lemma act_held a i c r q :
  wf q → held i c r q → a ≠ Register i → a ≠ Await c →
  held i c (match r with Some r => Some r | None => first_response i [a] end) (act a q).
Proof.
  intros Hq Hh Hr Ha. destruct a as [j|j r'|d].
  - (* another request *)
    assert (∀ k, (<[j := length (slots q)]> (pending q)) !! k = Some c →
      (c < length (slots q))%nat → pending q !! k = Some c) as Hk.
    { intros k [[_ <-]|[_ Hk]]%lookup_insert_Some ?; [lia|done]. }
    destruct r as [r|]; cbn in *.
    + destruct Hh as [Hs Hn]. pose proof (lookup_lt_Some _ _ _ Hs). split.
      * rewrite lookup_app_l by (case_match; rewrite ?drop_sender_length; lia).
        case_match; [|done]. rewrite drop_sender_ne; [done|]. by intros ->; apply (Hn j).
      * intros k Hl. by apply (Hn k), Hk.
    + destruct Hh as [Hp Hs]. pose proof (lookup_lt_Some _ _ _ Hs).
      rewrite lookup_insert_ne by congruence. split; [done|].
      rewrite lookup_app_l by (case_match; rewrite ?drop_sender_length; lia).
      case_match eqn:Hj; [|done]. rewrite drop_sender_ne; [done|]. intros ->.
      apply Hr. by rewrite (wf_inj _ Hq _ _ _ Hj Hp).
  - (* an answer *)
    cbn. unfold respond. destruct r as [r|]; cbn in *.
    + destruct Hh as [Hs Hn]. destruct (pending q !! j) as [d|] eqn:Hj; [|done]. split; cbn.
      * rewrite send_ne; [done|]. by intros ->; apply (Hn j).
      * intros k [_ Hl]%lookup_delete_Some. by apply (Hn k).
    + destruct Hh as [Hp Hs]. case_decide as Hji; cbn.
      * subst j. rewrite Hp. cbn. split.
        { unfold send. rewrite Hs. apply list_lookup_insert_eq. by eapply lookup_lt_Some. }
        intros k [Hne Hl]%lookup_delete_Some. apply Hne. by eapply Hq.
      * destruct (pending q !! j) as [d|] eqn:Hj; [|done]. cbn.
        rewrite lookup_delete_ne by done. split; [done|]. rewrite send_ne; [done|].
        intros ->. apply Hji. by eapply Hq.
  - (* another caller *)
    assert (d ≠ c) as Hdc by congruence. cbn. unfold await.
    assert (∀ ss, (<[d := ReceiverGone]> ss) !! c = (ss !! c : option slot)) as Hins
      by (intros; by apply list_lookup_insert_ne).
    destruct r as [r|]; cbn in *; repeat case_match; cbn; rewrite ?Hins; done.
Qed.

Lemma acts_held l i c r q :
  wf q → held i c r q → Forall (λ a, a ≠ Register i ∧ a ≠ Await c) l →
  held i c (match r with Some r => Some r | None => first_response i l end) (acts l q).
Proof.
  intros Hq Hh Hl. revert q r Hq Hh. induction Hl as [|a l [Ha1 Ha2] Hl IH]; intros q r Hq Hh; cbn.
  { by destruct r. }
  pose proof (act_held a i c r q Hq Hh Ha1 Ha2) as Hh'.
  specialize (IH _ _ (act_wf a q Hq) Hh'). cbn in IH. unfold acts in IH.
  destruct r as [r|]; [done|]. destruct a as [j|j r'|d]; cbn in *; [done| |done].
  by case_decide.
Qed.

(** C29. A caller gets the answer to its own request: whatever requests are made, answered
    and given up in between, in any order, a request whose id is not used again ends
    with the first answer that carries its id, and with [LiquidityRequestFailed] when
    there was none before its time was up. *)
Theorem answer_reaches_request before i l :
  let '(c, q) := register i (acts before new) in
  Forall (λ a, a ≠ Register i ∧ a ≠ Await c) l →
  (await c (acts l q)).2 =
    match first_response i l with Some r => Ok r | None => Err LiquidityRequestFailed end.
Proof.
  destruct (register i (acts before new)) as [c q] eqn:Hreg. intros Hl.
  assert (wf (acts before new)) as Hw by (apply acts_wf; split; cbn; intros *; by rewrite lookup_empty).
  assert (q = act (Register i) (acts before new)) as -> by (unfold act; by rewrite Hreg).
  assert (held i c None (act (Register i) (acts before new))) as Hh.
  { cbn. injection Hreg as <-. split; [by rewrite lookup_insert_eq|].
    rewrite lookup_app_r by (case_match; rewrite ?drop_sender_length; lia).
    case_match; rewrite ?drop_sender_length, Nat.sub_diag; done. }
  pose proof (acts_held l i c None _ (act_wf (Register i) _ Hw) Hh Hl) as Hend.
  revert Hend. generalize (acts l (act (Register i) (acts before new))). intros q' Hend.
  unfold await. destruct (first_response i l); cbn in Hend.
  - by destruct Hend as [-> _].
  - by destruct Hend as [_ ->].
Qed.

(** The entry of a request that was given up stays in the map: only an answer removes
    it. *)
Lemma await_keeps_pending c q : pending (await c q).1 = pending q.
Proof. unfold await. by repeat case_match. Qed.
End requests.
Arguments requests RequestId R {_ _}.
Arguments action : clear implicits.
End Requests.

(** ** Data *)

(** [LSPS1Options], as far as it is read. *)
Record LSPS1Options := mkLSPS1Options {
  min_required_channel_confirmations : Z;
  min_funding_confirms_within_blocks : Z;
  min_initial_client_balance_sat : Z;
  max_initial_client_balance_sat : Z;
  min_initial_lsp_balance_sat : Z;
  max_initial_lsp_balance_sat : Z;
  min_channel_balance_sat : Z;
  max_channel_balance_sat : Z;
}.

Record LSPS1OrderParams := mkLSPS1OrderParams {
  lsp_balance_sat : Z;
  client_balance_sat : Z;
  required_channel_confirmations : Z;
  funding_confirms_within_blocks : Z;
  channel_expiry_blocks : Z;
  order_token : option string;
  announce_channel : bool;
}.
#[global] Instance LSPS1OrderParams_eq_dec : EqDecision LSPS1OrderParams.
Proof. solve_decision. Defined.

(** [LSPS2OpeningFeeParams]; the promise is the LSP's signature of the other fields. *)
Record LSPS2OpeningFeeParams := mkOpeningFeeParams {
  min_fee_msat : Z;
  proportional : Z;
  valid_until : Z;
  min_lifetime : Z;
  max_client_to_self_delay : Z;
  min_payment_size_msat : Z;
  max_payment_size_msat : Z;
  promise : string;
}.

Record LSPS2BuyResponse := mkBuyResponse { intercept_scid : Z; cltv_expiry_delta : Z }.

Record LSPS2ServiceConfig := mkServiceConfig {
  require_token : option string;
  channel_opening_fee_ppm : Z;
  channel_over_provisioning_ppm : Z;
  min_channel_opening_fee_msat : Z;
  min_channel_lifetime : Z;
  service_max_client_to_self_delay : Z;
  service_min_payment_size_msat : Z;
  service_max_payment_size_msat : Z;
  client_trusts_lsp : bool;
}.

(** The fields given to [InvoiceBuilder]; the currency and the timestamp belong to the
    signing. *)
Record RouteHint := mkRouteHint {
  src_node_id : PublicKey;
  hint_scid : Z;
  hint_cltv_expiry_delta : Z;
}.
Record jit_invoice {Description : Type} := mkJitInvoice {
  ji_description : Description;
  ji_payment_hash : PaymentHash;
  ji_payment_secret : PaymentSecret;
  ji_min_final_cltv_expiry_delta : Z;
  ji_expiry_secs : Z;
  ji_route_hint : RouteHint;
  ji_amount_msat : option Z;
}.
Arguments jit_invoice : clear implicits.

(** [.unwrap_or(0)] *)
Definition unwrap_or_zero {E} (r : outcome Error Z) : outcome E Z :=
  match r with Ok z => Ok z | Err _ => Ok 0 | Panic => Panic end.

(** [Iterator::min_by_key]: the first of the least. *)
Fixpoint min_by_key {A} (key : A → Z) (xs : list A) : option A :=
  match xs with
  | [] => None
  | x :: xs =>
      Some (match min_by_key key xs with
            | Some y => if key x <=? key y then x else y
            | None => x
            end)
  end.

Lemma min_by_key_spec {A} (key : A → Z) xs x :
  min_by_key key xs = Some x → x ∈ xs ∧ ∀ y, y ∈ xs → key x ≤ key y.
Proof.
  revert x. induction xs as [|z xs IH]; intros x; cbn; [done|]. intros [= <-].
  destruct (min_by_key key xs) as [y|] eqn:Hy.
  - destruct (IH y eq_refl) as [Hin Hmin]. destruct (Z.leb_spec (key z) (key y)).
    + split; [set_solver|]. intros w [->|Hw]%elem_of_cons; [lia|]. specialize (Hmin w Hw). lia.
    + split; [set_solver|]. intros w [->|Hw]%elem_of_cons; [lia|]. by apply Hmin.
  - split; [set_solver|]. intros w [->|Hw]%elem_of_cons; [lia|].
    destruct xs; [set_solver|]. cbn in Hy. by case_match.
Qed.
Lemma min_by_key_None {A} (key : A → Z) xs : min_by_key key xs = None → xs = [].
Proof. by destruct xs. Qed.

Module LiquiditySource.
Section source.
Context {RequestId OrderId PaymentInfo ChannelInfo Description SocketAddress : Type}.
Context `{Countable RequestId}.
(** The wallet the service pays channels from. *)
Context {S : Type} {O : IterOrder OnchainWalletAccount} {OT : IterOrder Txid}.
Context {BTC : Bitcoin} {W P U BdkEv : Type} {BDK : Bdk W P U BdkEv} {D : Type}.
Abbreviation wallet_state := (Wallet.Wallet S W P D).
(** [compute_opening_fee] of [lightning_liquidity] and LDK's
    [MIN_FINAL_CLTV_EXPIRY_DELTA]. *)
Context (compute_opening_fee : Z → Z → Z → option Z).
Context (MIN_FINAL_CLTV_EXPIRY_DELTA : Z).

Record LSPS1OrderStatus := mkOrderStatus {
  order_id : OrderId;
  order_params : LSPS1OrderParams;
  payment_options : PaymentInfo;
  channel_state : option ChannelInfo;
}.

Record lsp_client := mkClient {
  lsp_node_id : PublicKey;
  lsp_address : SocketAddress;
  token : option string;
}.

Definition LSPS2_GETINFO_REQUEST_EXPIRY : Z := 60 * 60 * 24.
Definition LSPS2_CHANNEL_CLTV_EXPIRY_DELTA : Z := 72.

(** The calls to LDK's handlers and, for the service, to the channel manager. *)
Inductive lsp_call :=
| RequestSupportedOptions (lsp : PublicKey) (i : RequestId)
| CreateOrder (lsp : PublicKey) (params : LSPS1OrderParams) (refund_address : Address)
    (i : RequestId)
| CheckOrderStatus (lsp : PublicKey) (order : OrderId) (i : RequestId)
| RequestOpeningParams (lsp : PublicKey) (token : option string) (i : RequestId)
| SelectOpeningParams (lsp : PublicKey) (amount_msat : option Z)
    (params : LSPS2OpeningFeeParams) (i : option RequestId)
| InvalidTokenProvided (client : PublicKey) (i : RequestId)
| OpeningFeeParamsGenerated (client : PublicKey) (i : RequestId)
    (menu : list LSPS2OpeningFeeParams)
| InvoiceParametersGenerated (client : PublicKey) (i : RequestId) (scid cltv : Z)
    (client_trusts_lsp : bool) (user_channel_id : Z)
| CreateChannel (client : PublicKey) (channel_amount_sats push_msat user_channel_id : Z)
| StoreFundingTransaction (user_channel_id : Z) (client : PublicKey) (tx : Transaction)
| SetFundingTxBroadcastSafe (user_channel_id : Z) (client : PublicKey)
| HandlerChannelReady (user_channel_id : Z) (channel : ChannelId) (client : PublicKey)
| HandlerHtlcIntercepted (scid : Z) (intercept_id : bytes) (amount_msat : Z) (hash : PaymentHash)
| HandlerHtlcHandlingFailed
| HandlerPaymentForwarded (channel : ChannelId) (skimmed_fee_msat : Z).

(** The two clients' tables exist when the client does. *)
Record LiquiditySource := mkSource {
  lsps1_client : option lsp_client;
  lsps2_client : option lsp_client;
  lsps2_service : option LSPS2ServiceConfig;
  opening_params_requests : Requests.requests RequestId LSPS1Options;
  create_order_requests : Requests.requests RequestId LSPS1OrderStatus;
  check_order_status_requests : Requests.requests RequestId LSPS1OrderStatus;
  fee_requests : Requests.requests RequestId (list LSPS2OpeningFeeParams);
  buy_requests : Requests.requests RequestId LSPS2BuyResponse;
  calls : list lsp_call;
}.
Implicit Types (l : LiquiditySource).
Abbreviation lcmd A := (cmd LiquiditySource Error A).

(** [LiquiditySourceBuilder]: [new], then [lsps1_client], [lsps2_client] and
    [lsps2_service] as configured, and [build]. *)
Definition build (client1 client2 : option lsp_client) (service : option LSPS2ServiceConfig) :
    LiquiditySource :=
  mkSource client1 client2 service Requests.new Requests.new Requests.new Requests.new
    Requests.new [].

Definition get_lsps1_lsp_details l : option (PublicKey * SocketAddress) :=
  (λ c, (lsp_node_id c, lsp_address c)) <$> lsps1_client l.
Definition get_lsps2_lsp_details l : option (PublicKey * SocketAddress) :=
  (λ c, (lsp_node_id c, lsp_address c)) <$> lsps2_client l.

(** One of the five tables of waiting requests. *)
Record table (R : Type) := mkTable {
  get : LiquiditySource → Requests.requests RequestId R;
  put : Requests.requests RequestId R → LiquiditySource → LiquiditySource;
}.
Arguments get {_}.
Arguments put {_}.
Definition opening_params_table : table LSPS1Options := mkTable _ opening_params_requests
  (λ q l, mkSource (lsps1_client l) (lsps2_client l) (lsps2_service l) q
     (create_order_requests l) (check_order_status_requests l) (fee_requests l) (buy_requests l)
     (calls l)).
Definition create_order_table : table LSPS1OrderStatus := mkTable _ create_order_requests
  (λ q l, mkSource (lsps1_client l) (lsps2_client l) (lsps2_service l) (opening_params_requests l)
     q (check_order_status_requests l) (fee_requests l) (buy_requests l) (calls l)).
Definition check_order_table : table LSPS1OrderStatus := mkTable _ check_order_status_requests
  (λ q l, mkSource (lsps1_client l) (lsps2_client l) (lsps2_service l) (opening_params_requests l)
     (create_order_requests l) q (fee_requests l) (buy_requests l) (calls l)).
Definition fee_table : table (list LSPS2OpeningFeeParams) := mkTable _ fee_requests
  (λ q l, mkSource (lsps1_client l) (lsps2_client l) (lsps2_service l) (opening_params_requests l)
     (create_order_requests l) (check_order_status_requests l) q (buy_requests l) (calls l)).
Definition buy_table : table LSPS2BuyResponse := mkTable _ buy_requests
  (λ q l, mkSource (lsps1_client l) (lsps2_client l) (lsps2_service l) (opening_params_requests l)
     (create_order_requests l) (check_order_status_requests l) (fee_requests l) q (calls l)).

Definition call {E} (c : lsp_call) : cmd LiquiditySource E unit :=
  modify (λ l, mkSource (lsps1_client l) (lsps2_client l) (lsps2_service l)
    (opening_params_requests l) (create_order_requests l) (check_order_status_requests l)
    (fee_requests l) (buy_requests l) (calls l ++ [c])).

(** ** Requests

    The handler hands out the request's id while the table is locked; [wait] is what the
    other tasks do to the source until the answer is looked at. *)
Definition request {R} (t : table R) (i : RequestId) (c : lsp_call)
    (wait : LiquiditySource → LiquiditySource) : lcmd R :=
  _ ← call c;
  with_state (λ l,
    let '(ch, q) := Requests.register i (get t l) in
    _ ← modify (put t q);
    _ ← modify wait;
    λ l, let '(q, r) := Requests.await ch (get t l) in (put t q l, r)).

(** [self.lsps1_client.as_ref().ok_or(..)?], then the handler. *)
Definition client_of (c : option lsp_client) (handler : bool) : lcmd lsp_client :=
  client ← lift (ok_or c LiquiditySourceUnavailable);
  if handler then mret client else fail LiquiditySourceUnavailable.

Definition lsps1_request_opening_params (handler : bool) (i : RequestId)
    (wait : LiquiditySource → LiquiditySource) : lcmd LSPS1Options :=
  with_state (λ l,
    client ← client_of (lsps1_client l) handler;
    request opening_params_table i (RequestSupportedOptions (lsp_node_id client) i) wait).

Definition outside (x lo hi : Z) : bool := (x <? lo) || (hi <? x).

Definition lsps1_request_channel (handler : bool) (i j : RequestId)
    (wait wait' : LiquiditySource → LiquiditySource) (lsp_balance client_balance expiry : Z)
    (announce : bool) (refund_address : Address) : lcmd LSPS1OrderStatus :=
  with_state (λ l,
    client ← client_of (lsps1_client l) handler;
    lsp_limits ← lsps1_request_opening_params handler i wait;
    let channel_size_sat := wrap64 (lsp_balance + client_balance) in
    if outside channel_size_sat (min_channel_balance_sat lsp_limits)
         (max_channel_balance_sat lsp_limits) then fail LiquidityRequestFailed
    else if outside lsp_balance (min_initial_lsp_balance_sat lsp_limits)
         (max_initial_lsp_balance_sat lsp_limits) then fail LiquidityRequestFailed
    else if outside client_balance (min_initial_client_balance_sat lsp_limits)
         (max_initial_client_balance_sat lsp_limits) then fail LiquidityRequestFailed
    else
      let params := {|
        lsp_balance_sat := lsp_balance;
        client_balance_sat := client_balance;
        required_channel_confirmations := min_required_channel_confirmations lsp_limits;
        funding_confirms_within_blocks := min_funding_confirms_within_blocks lsp_limits;
        channel_expiry_blocks := expiry;
        order_token := token client;
        announce_channel := announce |} in
      response ← request create_order_table j
                   (CreateOrder (lsp_node_id client) params refund_address j) wait';
      if decide (order_params response = params) then mret response
      else fail LiquidityRequestFailed).

Definition lsps1_check_order_status (handler : bool) (i : RequestId)
    (wait : LiquiditySource → LiquiditySource) (order : OrderId) : lcmd LSPS1OrderStatus :=
  with_state (λ l,
    client ← client_of (lsps1_client l) handler;
    request check_order_table i (CheckOrderStatus (lsp_node_id client) order i) wait).

Definition lsps2_request_opening_fee_params (handler : bool) (i : RequestId)
    (wait : LiquiditySource → LiquiditySource) : lcmd (list LSPS2OpeningFeeParams) :=
  with_state (λ l,
    client ← client_of (lsps2_client l) handler;
    request fee_table i (RequestOpeningParams (lsp_node_id client) (token client) i) wait).

(** [selected] is the id LDK gives the request, if it takes the parameters. *)
Definition lsps2_send_buy_request (handler : bool) (selected : option RequestId)
    (wait : LiquiditySource → LiquiditySource) (amount_msat : option Z)
    (params : LSPS2OpeningFeeParams) : lcmd LSPS2BuyResponse :=
  with_state (λ l,
    client ← client_of (lsps2_client l) handler;
    let c := SelectOpeningParams (lsp_node_id client) amount_msat params selected in
    match selected with
    | Some i => request buy_table i c wait
    | None => _ ← call c; fail LiquidityRequestFailed
    end).

(** What LDK answers to the node's requests in one JIT purchase. *)
Record jit_inputs := mkJitInputs {
  ji_handler : bool;
  ji_fee_request : RequestId;
  ji_fee_wait : LiquiditySource → LiquiditySource;
  ji_buy_request : option RequestId;
  ji_buy_wait : LiquiditySource → LiquiditySource;
  (** [create_inbound_payment_for_hash] and [create_inbound_payment] *)
  ji_secret_for_hash : option PaymentSecret;
  ji_inbound_payment : option (PaymentHash * PaymentSecret);
  (** [InvoiceBuilder::build_signed] *)
  ji_build_signed : jit_invoice Description → option Bolt11Invoice;
}.
Implicit Types (n : jit_inputs).

Definition lsps2_create_jit_invoice n (buy_response : LSPS2BuyResponse) (amount_msat : option Z)
    (description : Description) (expiry_secs : Z) (payment_hash : option PaymentHash) :
    lcmd Bolt11Invoice :=
  with_state (λ l,
    client ← lift (ok_or (lsps2_client l) LiquiditySourceUnavailable);
    '(hash, secret) ← lift (ok_or (match payment_hash with
                                   | Some h => (h,.) <$> ji_secret_for_hash n
                                   | None => ji_inbound_payment n
                                   end) InvoiceCreationFailed);
    lift (ok_or (ji_build_signed n {|
      ji_description := description;
      ji_payment_hash := hash;
      ji_payment_secret := secret;
      ji_min_final_cltv_expiry_delta := wrap16 (MIN_FINAL_CLTV_EXPIRY_DELTA + 2);
      ji_expiry_secs := expiry_secs;
      ji_route_hint := {|
        src_node_id := lsp_node_id client;
        hint_scid := intercept_scid buy_response;
        hint_cltv_expiry_delta := wrap16 (cltv_expiry_delta buy_response) |};
      ji_amount_msat := amount_msat |}) InvoiceCreationFailed)).

(** The offers that take a payment of this size, with their fees. *)
Definition priced (amount_msat : Z) (menu : list LSPS2OpeningFeeParams) :
    list (Z * LSPS2OpeningFeeParams) :=
  omap (λ params,
    if outside amount_msat (min_payment_size_msat params) (max_payment_size_msat params) then None
    else (λ fee, (fee, params)) <$>
           compute_opening_fee amount_msat (min_fee_msat params) (proportional params)) menu.

Definition too_high (fee : Z) (limit : option Z) : bool :=
  match limit with Some limit => limit <? fee | None => false end.

Definition lsps2_receive_to_jit_channel n (amount_msat : Z) (description : Description)
    (expiry_secs : Z) (max_total_lsp_fee_limit_msat : option Z)
    (payment_hash : option PaymentHash) : lcmd (Bolt11Invoice * Z) :=
  menu ← lsps2_request_opening_fee_params (ji_handler n) (ji_fee_request n) (ji_fee_wait n);
  '(min_total_fee_msat, min_opening_params) ←
    lift (ok_or (min_by_key fst (priced amount_msat menu)) LiquidityRequestFailed);
  if too_high min_total_fee_msat max_total_lsp_fee_limit_msat then fail LiquidityFeeTooHigh
  else
    buy_response ← lsps2_send_buy_request (ji_handler n) (ji_buy_request n) (ji_buy_wait n)
                     (Some amount_msat) min_opening_params;
    invoice ← lsps2_create_jit_invoice n buy_response (Some amount_msat) description expiry_secs
                payment_hash;
    mret (invoice, min_total_fee_msat).

Definition lsps2_receive_variable_amount_to_jit_channel n (description : Description)
    (expiry_secs : Z) (max_proportional_lsp_fee_limit_ppm_msat : option Z)
    (payment_hash : option PaymentHash) : lcmd (Bolt11Invoice * Z) :=
  menu ← lsps2_request_opening_fee_params (ji_handler n) (ji_fee_request n) (ji_fee_wait n);
  '(min_prop_fee_ppm_msat, min_opening_params) ←
    lift (ok_or (min_by_key fst ((λ params, (proportional params, params)) <$> menu))
            LiquidityRequestFailed);
  if too_high min_prop_fee_ppm_msat max_proportional_lsp_fee_limit_ppm_msat
  then fail LiquidityFeeTooHigh
  else
    buy_response ← lsps2_send_buy_request (ji_handler n) (ji_buy_request n) (ji_buy_wait n) None
                     min_opening_params;
    invoice ← lsps2_create_jit_invoice n buy_response None description expiry_secs payment_hash;
    mret (invoice, min_prop_fee_ppm_msat).

(** ** Events of the handlers *)

(** [LiquidityEvent] *)
Inductive LiquidityEvent :=
| SupportedOptionsReady (i : RequestId) (counterparty : PublicKey) (options : LSPS1Options)
| OrderCreated (i : RequestId) (counterparty : PublicKey) (status : LSPS1OrderStatus)
| OrderStatus (i : RequestId) (counterparty : PublicKey) (status : LSPS1OrderStatus)
| OpeningParametersReady (i : RequestId) (counterparty : PublicKey)
    (menu : list LSPS2OpeningFeeParams)
| InvoiceParametersReady (i : RequestId) (counterparty : PublicKey) (scid cltv : Z)
| GetInfo (i : RequestId) (counterparty : PublicKey) (token : option string)
| BuyRequest (i : RequestId) (counterparty : PublicKey) (payment_size_msat : option Z)
| OpenChannel (their_network_key : PublicKey) (amt_to_forward_msat user_channel_id : Z)
| OtherEvent.

(** An answer from another node than the LSP is dropped. *)
Definition answer_event {E R} (client : option lsp_client) (t : table R) (i : RequestId)
    (counterparty : PublicKey) (r : R) : cmd LiquiditySource E unit :=
  match client with
  | Some c =>
      if decide (counterparty = lsp_node_id c)
      then modify (λ l, put t (Requests.respond i r (get t l)) l)
      else mret tt
  | None => mret tt
  end.

(** What the service finds: whether LDK's handler is there, the clock, the ids drawn for a
    channel, whether the peer manager is set and the peer connected (and asks for
    anchors), the wallet, the channels and the configuration. *)
Record service_env := mkServiceEnv {
  service_handler : bool;
  now : Z;
  drawn_user_channel_id : Z;
  drawn_intercept_scid : Z;
  peer_manager : option (PublicKey → option bool);
  wallet : wallet_state;
  channels : list ChannelDetails;
  config : Config SocketAddress;
}.
Implicit Types (v : service_env).

Definition service_menu v (c : LSPS2ServiceConfig) : list LSPS2OpeningFeeParams :=
  [{| min_fee_msat := min_channel_opening_fee_msat c;
      proportional := channel_opening_fee_ppm c;
      valid_until := now v + LSPS2_GETINFO_REQUEST_EXPIRY;
      min_lifetime := min_channel_lifetime c;
      max_client_to_self_delay := service_max_client_to_self_delay c;
      min_payment_size_msat := service_min_payment_size_msat c;
      max_payment_size_msat := service_max_payment_size_msat c;
      promise := EmptyString |}].

Definition handle_get_info v (i : RequestId) (counterparty : PublicKey)
    (given_token : option string) : lcmd unit :=
  with_state (λ l,
    match (if service_handler v then lsps2_service l else None) with
    | Some c =>
        if match require_token c with
           | Some required => negb (bool_decide (given_token = Some required))
           | None => false
           end then call (InvalidTokenProvided counterparty i)
        else call (OpeningFeeParamsGenerated counterparty i (service_menu v c))
    | None => mret tt
    end).

Definition handle_buy_request v (i : RequestId) (counterparty : PublicKey)
    (payment_size_msat : option Z) : lcmd unit :=
  with_state (λ l,
    match (if service_handler v then lsps2_service l else None) with
    | Some c =>
        if match payment_size_msat with
           | Some size =>
               (service_max_payment_size_msat c <? size) || (size <? service_min_payment_size_msat c)
           | None => false
           end then mret tt
        else call (InvoiceParametersGenerated counterparty i (drawn_intercept_scid v)
                     LSPS2_CHANNEL_CLTV_EXPIRY_DELTA (client_trusts_lsp c)
                     (drawn_user_channel_id v))
    | None => mret tt
    end).

Definition jit_channel_sats (c : LSPS2ServiceConfig) (amt_to_forward_msat : Z) : Z :=
  let over_provisioning_msat :=
    wrap64 (amt_to_forward_msat * channel_over_provisioning_ppm c) / 1000000 in
  wrap64 (amt_to_forward_msat + over_provisioning_msat) / 1000.

Definition new_channel_reserve v (anchors : bool) (peer : PublicKey) : Z :=
  match anchor_channels_config (config v) with
  | Some c =>
      if anchors && negb (bool_decide (peer ∈ trusted_peers_no_reserve c))
      then per_channel_reserve_sats c else 0
  | None => 0
  end.

Definition spendable v : outcome Error Z :=
  unwrap_or_zero (Wallet.get_witness_spendable_amount_sats
    (total_anchor_channels_reserve_sats (channels v) (config v)) (wallet v)).

Definition handle_open_channel v (their_network_key : PublicKey)
    (amt_to_forward_msat user_channel_id : Z) : lcmd unit :=
  with_state (λ l,
    match (if service_handler v then lsps2_service l else None), peer_manager v with
    | Some c, Some peer_by_node_id =>
        match peer_by_node_id their_network_key with
        | Some anchors =>
            let channel_amount_sats := jit_channel_sats c amt_to_forward_msat in
            spendable_amount_sats ← lift (spendable v);
            let required_funds_sats :=
              wrap64 (channel_amount_sats + new_channel_reserve v anchors their_network_key) in
            if spendable_amount_sats <? required_funds_sats then mret tt
            else call (CreateChannel their_network_key channel_amount_sats 0 user_channel_id)
        | None => mret tt
        end
    | _, _ => mret tt
    end).

Definition supported_options_ready (i : RequestId) (counterparty : PublicKey)
    (options : LSPS1Options) : lcmd unit :=
  with_state (λ l, answer_event (lsps1_client l) opening_params_table i counterparty options).
Definition order_created (i : RequestId) (counterparty : PublicKey) (status : LSPS1OrderStatus) :
    lcmd unit :=
  with_state (λ l, answer_event (lsps1_client l) create_order_table i counterparty status).
Definition order_status (i : RequestId) (counterparty : PublicKey) (status : LSPS1OrderStatus) :
    lcmd unit :=
  with_state (λ l, answer_event (lsps1_client l) check_order_table i counterparty status).
Definition opening_parameters_ready (i : RequestId) (counterparty : PublicKey)
    (menu : list LSPS2OpeningFeeParams) : lcmd unit :=
  with_state (λ l, answer_event (lsps2_client l) fee_table i counterparty menu).
Definition invoice_parameters_ready (i : RequestId) (counterparty : PublicKey) (scid cltv : Z) :
    lcmd unit :=
  with_state (λ l, answer_event (lsps2_client l) buy_table i counterparty (mkBuyResponse scid cltv)).

Definition handle_next_event v (e : LiquidityEvent) : lcmd unit :=
  match e with
  | SupportedOptionsReady i cp options => supported_options_ready i cp options
  | OrderCreated i cp status => order_created i cp status
  | OrderStatus i cp status => order_status i cp status
  | OpeningParametersReady i cp menu => opening_parameters_ready i cp menu
  | InvoiceParametersReady i cp scid cltv => invoice_parameters_ready i cp scid cltv
  | GetInfo i cp t => handle_get_info v i cp t
  | BuyRequest i cp size => handle_buy_request v i cp size
  | OpenChannel key amount user_channel_id => handle_open_channel v key amount user_channel_id
  | OtherEvent => mret tt
  end.

(** ** What the event handler forwards *)

(** [needs] is the handler's answer, [None] for an error. *)
Definition lsps2_channel_needs_manual_broadcast (handler : bool) (needs : option bool) l : bool :=
  match lsps2_service l with
  | Some c => client_trusts_lsp c && (handler && default false needs)
  | None => false
  end.

Definition lsp_trusts_client l : bool :=
  match lsps2_service l with Some c => negb (client_trusts_lsp c) | None => false end.
Definition forward {E} (handler : bool) (c : lsp_call) : cmd LiquiditySource E unit :=
  if handler then call c else mret tt.

Definition lsps2_store_funding_transaction {E} (handler : bool) (user_channel_id : Z)
    (client : PublicKey) (tx : Transaction) : cmd LiquiditySource E unit :=
  with_state (λ l,
    if lsp_trusts_client l then mret tt
    else forward handler (StoreFundingTransaction user_channel_id client tx)).
Definition lsps2_funding_tx_broadcast_safe {E} (handler : bool) (user_channel_id : Z)
    (client : PublicKey) : cmd LiquiditySource E unit :=
  with_state (λ l,
    if lsp_trusts_client l then mret tt
    else forward handler (SetFundingTxBroadcastSafe user_channel_id client)).
Definition handle_channel_ready {E} (handler : bool) (user_channel_id : Z) (channel : ChannelId)
    (client : PublicKey) : cmd LiquiditySource E unit :=
  forward handler (HandlerChannelReady user_channel_id channel client).
Definition handle_htlc_intercepted {E} (handler : bool) (scid : Z) (intercept_id : bytes)
    (expected_outbound_amount_msat : Z) (hash : PaymentHash) : cmd LiquiditySource E unit :=
  forward handler (HandlerHtlcIntercepted scid intercept_id expected_outbound_amount_msat hash).
Definition handle_htlc_handling_failed {E} (handler : bool) : cmd LiquiditySource E unit :=
  forward handler HandlerHtlcHandlingFailed.
Definition handle_payment_forwarded {E} (handler : bool) (next_channel_id : option ChannelId)
    (skimmed_fee_msat : Z) : cmd LiquiditySource E unit :=
  match next_channel_id with
  | Some channel => forward handler (HandlerPaymentForwarded channel skimmed_fee_msat)
  | None => mret tt
  end.

(** ** Theorems *)

Lemma elem_of_priced amount menu fee params :
  (fee, params) ∈ priced amount menu ↔
  params ∈ menu ∧ min_payment_size_msat params ≤ amount ≤ max_payment_size_msat params ∧
  compute_opening_fee amount (min_fee_msat params) (proportional params) = Some fee.
Proof.
  unfold priced, outside. rewrite list_elem_of_omap. split.
  - intros (q & Hq & Hf). destruct (orb _ _) eqn:Ho; [done|].
    apply orb_false_iff in Ho as [?%Z.ltb_ge ?%Z.ltb_ge].
    apply fmap_Some in Hf as (f & ? & ?). by simplify_eq.
  - intros (Hin & [Hlo Hhi] & Hc). exists params. split; [done|].
    rewrite (proj2 (Z.ltb_ge _ _) Hlo), (proj2 (Z.ltb_ge _ _) Hhi). cbn. by rewrite Hc.
Qed.

(** The cheapest offer for a payment, with its fee. *)
Definition cheapest (amount fee : Z) (params : LSPS2OpeningFeeParams)
    (menu : list LSPS2OpeningFeeParams) : Prop :=
  (fee, params) ∈ priced amount menu ∧
  ∀ fee' params', (fee', params') ∈ priced amount menu → fee ≤ fee'.

(** What a purchase of a channel for a fixed amount comes to, once the LSP's menu is
    there. *)
Lemma jit_fixed_run n amount description expiry limit hash l l1 menu :
  lsps2_request_opening_fee_params (ji_handler n) (ji_fee_request n) (ji_fee_wait n) l =
    (l1, Ok menu) →
  let r := lsps2_receive_to_jit_channel n amount description expiry limit hash l in
  priced amount menu = [] ∧ r = (l1, Err LiquidityRequestFailed) ∨
  ∃ fee params, cheapest amount fee params menu ∧
    (too_high fee limit = true ∧ r = (l1, Err LiquidityFeeTooHigh) ∨
     too_high fee limit = false ∧
     r = (buy_response ← lsps2_send_buy_request (ji_handler n) (ji_buy_request n) (ji_buy_wait n)
                           (Some amount) params;
          invoice ← lsps2_create_jit_invoice n buy_response (Some amount) description expiry hash;
          mret (invoice, fee)) l1).
Proof.
  intros Hm r.
  assert (r = match min_by_key fst (priced amount menu) with
    | Some (fee, params) =>
        (if too_high fee limit then fail LiquidityFeeTooHigh
         else buy_response ← lsps2_send_buy_request (ji_handler n) (ji_buy_request n)
                               (ji_buy_wait n) (Some amount) params;
              invoice ← lsps2_create_jit_invoice n buy_response (Some amount) description expiry
                          hash;
              mret (invoice, fee)) l1
    | None => (l1, Err LiquidityRequestFailed)
    end) as ->.
  { unfold r, lsps2_receive_to_jit_channel, mbind at 1, cmd_bind at 1. rewrite Hm.
    unfold mbind at 1, cmd_bind at 1, lift. by destruct (min_by_key _ _) as [[]|]. }
  destruct (min_by_key fst (priced amount menu)) as [[fee params]|] eqn:Hmin.
  - right. exists fee, params. apply min_by_key_spec in Hmin as [Hin Hle]. split.
    { split; [done|]. intros f p Hp. apply (Hle (f, p) Hp). }
    destruct (too_high fee limit); auto.
  - left. apply min_by_key_None in Hmin. auto.
Qed.

(** The two purchases, when they succeed. *)
Lemma jit_fixed_Ok n amount description expiry limit hash l l' invoice fee :
  lsps2_receive_to_jit_channel n amount description expiry limit hash l = (l', Ok (invoice, fee)) →
  ∃ l1 menu,
    lsps2_request_opening_fee_params (ji_handler n) (ji_fee_request n) (ji_fee_wait n) l =
      (l1, Ok menu) ∧
    ∃ params, cheapest amount fee params menu ∧ ∀ most, limit = Some most → fee ≤ most.
Proof.
  intros Hr. pose proof Hr as (l1 & menu & Hm & _)%cmd_bind_Ok. exists l1, menu. split; [done|].
  revert Hr. destruct (jit_fixed_run n amount description expiry limit hash l l1 menu Hm)
    as [[_ ->]|(fee0 & params & Hch & [[_ ->]|[Hlo ->]])]; [done..|].
  intros (l2 & resp & _ & (l3 & inv & _ & [= _ _ ->])%cmd_bind_Ok)%cmd_bind_Ok.
  exists params. split; [done|]. intros most ->. by apply Z.ltb_ge in Hlo.
Qed.
Lemma jit_variable_Ok n description expiry limit hash l l' invoice ppm :
  lsps2_receive_variable_amount_to_jit_channel n description expiry limit hash l =
    (l', Ok (invoice, ppm)) →
  ∃ l1 menu,
    lsps2_request_opening_fee_params (ji_handler n) (ji_fee_request n) (ji_fee_wait n) l =
      (l1, Ok menu) ∧
    ∃ params, ppm = proportional params ∧ params ∈ menu ∧
      (∀ params', params' ∈ menu → proportional params ≤ proportional params') ∧
      ∀ most, limit = Some most → proportional params ≤ most.
Proof.
  unfold lsps2_receive_variable_amount_to_jit_channel.
  intros (l1 & menu & Hm & Hr)%cmd_bind_Ok. exists l1, menu. split; [done|]. revert Hr.
  destruct (min_by_key _ _) as [[f params]|] eqn:Hmin;
    intros (l1' & [f' p'] & [= <- <- <-] & Hr)%cmd_bind_Ok.
  apply min_by_key_spec in Hmin as [(q & [= -> ->] & Hin)%list_elem_of_fmap Hle].
  revert Hr. destruct (too_high _ limit) eqn:Hlo; [done|].
  intros (l2 & resp & _ & (l3 & inv & _ & [= _ _ <-])%cmd_bind_Ok)%cmd_bind_Ok.
  exists q. split_and!; [done|done| |].
  - intros params' Hp. apply (Hle (proportional params', params')).
    by apply list_elem_of_fmap_2 with (f := λ p, (proportional p, p)).
  - intros most ->. by apply Z.ltb_ge in Hlo.
Qed.

Lemma request_Err {R} (t : table R) i c wait l l' e :
  request t i c wait l = (l', Err e) → e = LiquidityRequestFailed.
Proof.
  unfold request, mbind, cmd_bind, with_state, modify, call. cbn.
  unfold Requests.await. repeat case_match; intros; simplify_eq/=; done.
Qed.
Lemma buy_Err handler selected wait amount params l l' e :
  lsps2_send_buy_request handler selected wait amount params l = (l', Err e) →
  e ≠ LiquidityFeeTooHigh.
Proof.
  unfold lsps2_send_buy_request, with_state, client_of, mbind, cmd_bind, lift.
  destruct (lsps2_client l), handler; cbn; try (by intros [= <- <-]).
  destruct selected; [|by intros [= <- <-]]. by intros ->%request_Err.
Qed.
Lemma jit_invoice_Err n resp amount description expiry hash l l' e :
  lsps2_create_jit_invoice n resp amount description expiry hash l = (l', Err e) →
  e ≠ LiquidityFeeTooHigh.
Proof.
  unfold lsps2_create_jit_invoice, with_state, mbind, cmd_bind, lift.
  destruct (lsps2_client l); cbn; [|by intros [= <- <-]].
  destruct (match hash with Some _ => _ | None => _ end) as [[h sec]|]; cbn; [|by intros [= <- <-]].
  destruct (ji_build_signed n _); cbn; [done|]. by intros [= <- <-].
Qed.

(** A JIT channel is bought only at the LSP's cheapest offer for the amount, and only
    if that fee is within the caller's limit: when an invoice comes back, the fee with it
    is the least of the offers that take the amount, the offer bought is one with that
    fee, and without one within the limit nothing is bought. *)
Theorem jit_bought_cheapest n amount description expiry limit hash l l1 menu :
  lsps2_request_opening_fee_params (ji_handler n) (ji_fee_request n) (ji_fee_wait n) l =
    (l1, Ok menu) →
  match lsps2_receive_to_jit_channel n amount description expiry limit hash l with
  | (l', Ok (invoice, fee)) =>
      ∃ params l2 resp, cheapest amount fee params menu ∧
        (∀ lim, limit = Some lim → fee ≤ lim) ∧
        lsps2_send_buy_request (ji_handler n) (ji_buy_request n) (ji_buy_wait n) (Some amount)
          params l1 = (l2, Ok resp) ∧
        lsps2_create_jit_invoice n resp (Some amount) description expiry hash l2 = (l', Ok invoice)
  | (l', Err LiquidityFeeTooHigh) =>
      l' = l1 ∧ ∃ lim, limit = Some lim ∧
        ∀ fee params, (fee, params) ∈ priced amount menu → lim < fee
  | _ => True
  end.
Proof.
  intros Hm. destruct (jit_fixed_run n amount description expiry limit hash l l1 menu Hm)
    as [[_ ->]|(fee & params & Hch & [[Hhi ->]|[Hlo ->]])]; [done|..].
  - split; [done|]. destruct limit as [lim|]; [|done]. apply Z.ltb_lt in Hhi.
    exists lim. split; [done|]. intros f p Hp. apply Hch in Hp. lia.
  - destruct (_ ≫= _) as [l' [[invoice fee']|e|]] eqn:Hr; [| |done].
    + apply cmd_bind_Ok in Hr as (l2 & resp & Hb & Hr).
      apply cmd_bind_Ok in Hr as (l3 & inv & Hi & [= <- <- <-]).
      exists params, l2, resp. split_and!; [done| |done|done].
      intros lim ->. by apply Z.ltb_ge in Hlo.
    + destruct e; try done. exfalso. revert Hr. unfold mbind at 1, cmd_bind at 1.
      destruct (lsps2_send_buy_request _ _ _ _ _ _) as [l2 [resp|e|]] eqn:Hb; [|intros [= -> ->]|done].
      2:{ by apply buy_Err in Hb. }
      unfold mbind, cmd_bind. destruct (lsps2_create_jit_invoice _ _ _ _ _ _ _) as [l3 [inv|e|]] eqn:Hi;
        [done|intros [= -> ->]|done]. by apply jit_invoice_Err in Hi.
Qed.

(** An LSPS1 order that comes back with success is the one that was asked for: its
    parameters are the caller's balances and expiry, the configured token and the LSP's
    own minimum confirmations, and the balances are within the limits the LSP had
    answered with; otherwise no order is placed or its answer is refused. *)
Theorem order_as_requested handler i j wait wait' lsp_balance client_balance expiry announce
    refund l l' response :
  lsps1_request_channel handler i j wait wait' lsp_balance client_balance expiry announce refund l
    = (l', Ok response) →
  ∃ client limits l1, lsps1_client l = Some client ∧
    lsps1_request_opening_params handler i wait l = (l1, Ok limits) ∧
    min_initial_lsp_balance_sat limits ≤ lsp_balance ≤ max_initial_lsp_balance_sat limits ∧
    min_initial_client_balance_sat limits ≤ client_balance ≤ max_initial_client_balance_sat limits ∧
    min_channel_balance_sat limits ≤ wrap64 (lsp_balance + client_balance)
      ≤ max_channel_balance_sat limits ∧
    order_params response = {|
      lsp_balance_sat := lsp_balance; client_balance_sat := client_balance;
      required_channel_confirmations := min_required_channel_confirmations limits;
      funding_confirms_within_blocks := min_funding_confirms_within_blocks limits;
      channel_expiry_blocks := expiry; order_token := token client; announce_channel := announce |}.
Proof.
  unfold lsps1_request_channel, with_state. intros Hrun.
  apply cmd_bind_Ok in Hrun as (l0 & client & Hc & Hrun).
  assert (lsps1_client l = Some client ∧ l0 = l) as [Hcl ->].
  { revert Hc. unfold client_of, mbind, cmd_bind, lift. destruct (lsps1_client l), handler; cbn; try done.
    by intros [= <- <-]. }
  apply cmd_bind_Ok in Hrun as (l1 & limits & Hl & Hrun). exists client, limits, l1.
  unfold outside in Hrun.
  repeat match type of Hrun with context [orb (?a <? ?b) (?c <? ?d)] =>
    destruct (Z.ltb_spec a b), (Z.ltb_spec c d); cbn [orb] in Hrun; try done end.
  apply cmd_bind_Ok in Hrun as (l2 & resp & Hr & Hrun). case_decide as Heq; [|done].
  injection Hrun as <- <-. split_and!; done.
Qed.

(** The one answer to an event that asks something of the service. *)
Inductive service_answer v l : LiquidityEvent → lsp_call → Prop :=
| AnswerInvalidToken c i cp t required :
    lsps2_service l = Some c → require_token c = Some required → t ≠ Some required →
    service_answer v l (GetInfo i cp t) (InvalidTokenProvided cp i)
| AnswerMenu c i cp t :
    lsps2_service l = Some c → (∀ required, require_token c = Some required → t = Some required) →
    service_answer v l (GetInfo i cp t) (OpeningFeeParamsGenerated cp i (service_menu v c))
| AnswerInvoice c i cp size :
    lsps2_service l = Some c →
    (∀ msat, size = Some msat →
      service_min_payment_size_msat c ≤ msat ≤ service_max_payment_size_msat c) →
    service_answer v l (BuyRequest i cp size)
      (InvoiceParametersGenerated cp i (drawn_intercept_scid v) LSPS2_CHANNEL_CLTV_EXPIRY_DELTA
         (client_trusts_lsp c) (drawn_user_channel_id v))
| AnswerChannel c peers key anchors amount sats funds user_channel_id :
    lsps2_service l = Some c → peer_manager v = Some peers → peers key = Some anchors →
    sats = jit_channel_sats c amount → spendable v = Ok funds →
    sats + new_channel_reserve v anchors key ≤ funds →
    service_answer v l (OpenChannel key amount user_channel_id)
      (CreateChannel key sats 0 user_channel_id).

Lemma jit_channel_sats_bound c amount : 0 ≤ jit_channel_sats c amount ≤ u64_max / 1000.
Proof.
  unfold jit_channel_sats. match goal with |- context [wrap64 ?z / 1000] =>
    pose proof (wrap64_range z) as Hr; generalize dependent (wrap64 z) end.
  unfold is_u64. intros z Hz. split; [apply Z.div_pos; lia|]. apply Z.div_le_mono; lia.
Qed.

(** Over-provisioning as configured, rounded down to whole satoshis. *)
Lemma jit_channel_sats_covers c amount :
  0 ≤ amount → 0 ≤ channel_over_provisioning_ppm c →
  amount * channel_over_provisioning_ppm c ≤ u64_max →
  amount + amount * channel_over_provisioning_ppm c / 1000000 ≤ u64_max →
  jit_channel_sats c amount =
    (amount + amount * channel_over_provisioning_ppm c / 1000000) / 1000.
Proof.
  intros Ha Hp H1 H2. unfold jit_channel_sats.
  assert (0 ≤ amount * channel_over_provisioning_ppm c / 1000000) by (apply Z.div_pos; nia).
  rewrite (wrap64_small (_ * _)) by (unfold is_u64; nia). rewrite wrap64_small; [done|].
  unfold is_u64. lia.
Qed.

Lemma answer_event_calls {R} client (t : table R) i cp r l :
  (∀ q l, calls (put t q l) = calls l) →
  calls (answer_event (E := Error) client t i cp r l).1 = calls l ∧
  (answer_event (E := Error) client t i cp r l).2 = Ok tt.
Proof. intros Hp. unfold answer_event. repeat case_match; cbn; auto. Qed.

(** C22. The service gives out its terms only to a client with the token it requires, offers
    an intercept only for payments within its limits, and opens a channel only to a
    connected peer and out of funds that cover the channel and its anchor reserve on top
    of what is reserved already; any event gets at most one answer.  Only summing up the
    wallet's funds can abort. *)
Theorem service_guarded v e l l' r :
  (∀ c, anchor_channels_config (config v) = Some c → 0 ≤ per_channel_reserve_sats c ≤ 2 ^ 63) →
  handle_next_event v e l = (l', r) →
  (r = Ok tt ∨ r = Panic ∧ spendable v = Panic) ∧
  (calls l' = calls l ∨ ∃ c, calls l' = calls l ++ [c] ∧ service_answer v l e c).
Proof.
  intros Hres. unfold handle_next_event, supported_options_ready, order_created, order_status,
    opening_parameters_ready, invoice_parameters_ready, with_state.
  assert (∀ R client (t : table R) i cp x, (∀ q l, calls (put t q l) = calls l) →
    answer_event client t i cp x l = (l', r) → (r = Ok tt ∨ r = Panic ∧ spendable v = Panic) ∧
    (calls l' = calls l ∨ ∃ c, calls l' = calls l ++ [c] ∧ service_answer v l e c)) as Hans.
  { intros R client t i cp x Hp Ha. destruct (answer_event_calls client t i cp x l Hp) as [Hc Hr].
    rewrite Ha in Hc, Hr. auto. }
  destruct e as [i cp o|i cp o|i cp o|i cp o|i cp scid cltv|i cp t|i cp size|key amount ucid|];
    try (by apply Hans); [..|intros [= <- <-]; auto].
  - unfold handle_get_info, with_state.
    destruct (service_handler v), (lsps2_service l) as [c|] eqn:Hs; try (intros [= <- <-]; by auto).
    destruct (require_token c) as [req|] eqn:Ht; [case_bool_decide as Heq|];
      cbn; intros [= <- <-]; (split; [by left|]); right; eexists; (split; [done|]).
    + eapply AnswerMenu; [done|]. congruence.
    + by eapply AnswerInvalidToken.
    + eapply AnswerMenu; [done|]. congruence.
  - unfold handle_buy_request, with_state.
    destruct (service_handler v), (lsps2_service l) as [c|] eqn:Hs; try (intros [= <- <-]; by auto).
    destruct size as [n|]; [destruct (Z.ltb_spec (service_max_payment_size_msat c) n),
      (Z.ltb_spec n (service_min_payment_size_msat c))|]; cbn; intros [= <- <-];
      (split; [by left|]); auto; right; eexists; (split; [done|]); (eapply AnswerInvoice; [done|]);
      intros ? [=]; lia.
  - unfold handle_open_channel, with_state.
    destruct (service_handler v), (lsps2_service l) as [c|] eqn:Hs; try (intros [= <- <-]; by auto).
    destruct (peer_manager v) as [peers|] eqn:Hpm; [|intros [= <- <-]; by auto].
    destruct (peers key) as [anchors|] eqn:Hk; [|intros [= <- <-]; by auto]. cbv zeta.
    unfold mbind, cmd_bind, lift. destruct (spendable v) as [funds|err|] eqn:Hsp.
    2:{ revert Hsp. unfold spendable, unwrap_or_zero. by repeat case_match. }
    2:{ intros [= <- <-]. auto. }
    destruct (Z.ltb_spec funds (wrap64 (jit_channel_sats c amount +
      new_channel_reserve v anchors key))) as [_|Hf]; intros [= <- <-]; (split; [by left|]); auto.
    right. eexists. split; [done|]. eapply AnswerChannel; [done..|].
    rewrite wrap64_small in Hf; [done|]. pose proof (jit_channel_sats_bound c amount) as Hb.
    unfold is_u64, u64_max, new_channel_reserve in *.
    destruct (anchor_channels_config (config v)) as [ac|] eqn:Hac; [|lia].
    specialize (Hres ac eq_refl). case_match; lia.
Qed.
End source.
Arguments LiquiditySource RequestId OrderId PaymentInfo ChannelInfo SocketAddress {_ _}.
Arguments jit_inputs RequestId OrderId PaymentInfo ChannelInfo Description SocketAddress {_ _}.
Arguments service_env SocketAddress S W P D : clear implicits.
Arguments LSPS1OrderStatus : clear implicits.
End LiquiditySource.
