(* ===== verification/Lsp.v ===== *)
(** * Calls to the LSP ([receive_via_jit_channel*] of [src/payment/bolt11.rs],
      [LSPS1Liquidity] of [src/liquidity.rs])

    The public calls that connect to the liquidity service provider, use the liquidity
    source and record what was agreed.  Whether the runtime takes work, and how connecting
    ends, are inputs. *)

From S2P Require Import Prelude Errors KVStore Codec DataStore Types PaymentStore Bdk AggTypes.
From S2P Require Import Aggregate AggBuild AggInvariant FeeEstimator Config WalletKeys EventQueue Event NodeMetrics.
From S2P Require Import TxBroadcaster Wallet Broadcast OnchainPayment PeerStore Payments Liquidity.

(** The three uses of [try_block_on]: connecting, asking the LSP, storing the peer. *)
Record lsp_env := mkLspEnv {
  running : bool;
  runtime_for_connect : bool;
  connected : outcome Error unit;
  runtime_for_request : bool;
  runtime_for_peer : bool;
}.

Definition try_block_on {St A} (available : bool) (m : cmd St Error A) : cmd St Error A :=
  if available then m else fail NotRunning.

Module Lsp.
Section lsp.
Context {S : Type} {KV : KVStore S}.
Context (tlv_encode : PaymentTlv → bytes) (tlv_decode : bytes → option PaymentTlv).
Context {U16 : U16Codec} {PaymentFailureReason ClosureReason CustomTlvRecord : Type}.
Context {CE : Codec (Event PaymentFailureReason ClosureReason CustomTlvRecord)}.
Context {RequestId OrderId PaymentInfo ChannelInfo Description SocketAddress : Type}.
Context `{Countable RequestId} `{EqDecision SocketAddress}.
Context {OP : IterOrder PublicKey} {CK : Codec PublicKey}.
Context {CP : Codec (PeerStore.PeerInfo SocketAddress)}.
Context {O : IterOrder OnchainWalletAccount} {OT : IterOrder Txid}.
Context {BTC : Bitcoin} {W P U BdkEv : Type} {BDK : Bdk W P U BdkEv} {D : Type}.
Context (compute_opening_fee : Z → Z → Z → option Z).
Context (MIN_FINAL_CLTV_EXPIRY_DELTA : Z).

Abbreviation Source :=
  (LiquiditySource.LiquiditySource RequestId OrderId PaymentInfo ChannelInfo SocketAddress).
Abbreviation Peers := (PeerStore.PeerStore S SocketAddress).

(** ** Just-in-time channels *)

Record state := mkState {
  payments : Payments.state S PaymentFailureReason ClosureReason CustomTlvRecord;
  liquidity_source : option Source;
  peer_store : Peers;
}.
Implicit Types (x : state).

Definition on_payments {A} (m : cmd (Payments.state S PaymentFailureReason ClosureReason CustomTlvRecord) Error A) :
    cmd state Error A := λ x,
  let '(p, r) := m (payments x) in (mkState p (liquidity_source x) (peer_store x), r).
(** The source is looked up before; without one the call has failed. *)
Definition on_source {A} (m : cmd Source Error A) : cmd state Error A := λ x,
  match liquidity_source x with
  | Some l => let '(l, r) := m l in (mkState (payments x) (Some l) (peer_store x), r)
  | None => (x, Err LiquiditySourceUnavailable)
  end.
(** The peer store writes to the store the payments are in. *)
Definition add_peer (info : PeerStore.PeerInfo SocketAddress) : cmd state Error unit := λ x,
  let p := payments x in
  let ps := PeerStore.mkPeerStore (PeerStore.peers (peer_store x))
              (DataStore.kv_store (Payments.payment_store p)) in
  let '(ps, r) := PeerStore.add_peer info ps in
  (mkState (Payments.mkState (DataStore.set_kv (PeerStore.kv_store ps) (Payments.payment_store p))
              (Payments.event_queue p) (Payments.calls p))
     (liquidity_source x) ps, r).

(** [known_preimage] is what the channel manager knows of the new invoice's payment. *)
Definition receive_via_jit_channel_inner (env : lsp_env) (now : Z)
    (n : LiquiditySource.jit_inputs RequestId OrderId PaymentInfo ChannelInfo Description
           SocketAddress)
    (known_preimage : Bolt11Invoice → option PaymentPreimage) (amount_msat : option Z)
    (description : Description) (expiry_secs : Z)
    (max_total_lsp_fee_limit_msat max_proportional_lsp_fee_limit_ppm_msat : option Z)
    (payment_hash : option PaymentHash) : cmd state Error Bolt11Invoice :=
  if negb (running env) then fail NotRunning
  else with_state (λ x,
    source ← lift (ok_or (liquidity_source x) LiquiditySourceUnavailable);
    '(node_id, address) ← lift (ok_or (LiquiditySource.get_lsps2_lsp_details source)
                                  LiquiditySourceUnavailable);
    _ ← try_block_on (runtime_for_connect env) (lift (connected env));
    '(invoice, lsp_total_opening_fee, lsp_prop_opening_fee) ←
      try_block_on (runtime_for_request env) (on_source
        (match amount_msat with
         | Some amount =>
             '(invoice, total_fee) ←
               LiquiditySource.lsps2_receive_to_jit_channel compute_opening_fee
                 MIN_FINAL_CLTV_EXPIRY_DELTA n amount description expiry_secs
                 max_total_lsp_fee_limit_msat payment_hash;
             mret (invoice, Some total_fee, None)
         | None =>
             '(invoice, prop_fee) ←
               LiquiditySource.lsps2_receive_variable_amount_to_jit_channel
                 MIN_FINAL_CLTV_EXPIRY_DELTA n description expiry_secs
                 max_proportional_lsp_fee_limit_ppm_msat payment_hash;
             mret (invoice, None, Some prop_fee)
         end));
    _ ← on_payments (Payments.record_jit_invoice tlv_encode tlv_decode now
                       (known_preimage invoice) amount_msat invoice lsp_total_opening_fee
                       lsp_prop_opening_fee);
    _ ← try_block_on (runtime_for_peer env)
          (add_peer {| PeerStore.node_id := node_id; PeerStore.address := address |});
    mret invoice).

(** [receive_via_jit_channel], [receive_via_jit_channel_for_hash] and the two
    [receive_variable_amount_via_jit_channel*]. *)
Definition receive_via_jit_channel env now n known amount_msat description expiry_secs
    (max_total_lsp_fee_limit_msat : option Z) :=
  receive_via_jit_channel_inner env now n known (Some amount_msat) description expiry_secs
    max_total_lsp_fee_limit_msat None None.
Definition receive_via_jit_channel_for_hash env now n known amount_msat description expiry_secs
    (max_total_lsp_fee_limit_msat : option Z) (payment_hash : PaymentHash) :=
  receive_via_jit_channel_inner env now n known (Some amount_msat) description expiry_secs
    max_total_lsp_fee_limit_msat None (Some payment_hash).
Definition receive_variable_amount_via_jit_channel env now n known description expiry_secs
    (max_proportional_lsp_fee_limit_ppm_msat : option Z) :=
  receive_via_jit_channel_inner env now n known None description expiry_secs None
    max_proportional_lsp_fee_limit_ppm_msat None.
Definition receive_variable_amount_via_jit_channel_for_hash env now n known description
    expiry_secs (max_proportional_lsp_fee_limit_ppm_msat : option Z) (payment_hash : PaymentHash) :=
  receive_via_jit_channel_inner env now n known None description expiry_secs None
    max_proportional_lsp_fee_limit_ppm_msat (Some payment_hash).

(** ** Channel orders *)

(** The wallet gives the address to refund to. *)
Record order_state := mkOrderState {
  wallet : Wallet.Wallet S W P D;
  order_source : option Source;
}.
Definition on_order_source {A} (m : cmd Source Error A) : cmd order_state Error A := λ y,
  match order_source y with
  | Some l => let '(l, r) := m l in (mkOrderState (wallet y) (Some l), r)
  | None => (y, Err LiquiditySourceUnavailable)
  end.
Definition on_wallet {A} (m : cmd (Wallet.Wallet S W P D) Error A) : cmd order_state Error A := λ y,
  let '(s, r) := m (wallet y) in (mkOrderState s (order_source y), r).

(** [if !*self.is_running..], the source, the LSP's address and the connection. *)
Definition connect_to_lsp (env : lsp_env) : cmd order_state Error unit :=
  if negb (running env) then fail NotRunning
  else with_state (λ y,
    source ← lift (ok_or (order_source y) LiquiditySourceUnavailable);
    _ ← lift (ok_or (LiquiditySource.get_lsps1_lsp_details source) LiquiditySourceUnavailable);
    try_block_on (runtime_for_connect env) (lift (connected env))).

Definition request_channel (env : lsp_env) (handler : bool) (i j : RequestId)
    (wait wait' : Source → Source) (lsp_balance_sat client_balance_sat channel_expiry_blocks : Z)
    (announce_channel : bool) :
    cmd order_state Error (LiquiditySource.LSPS1OrderStatus OrderId PaymentInfo ChannelInfo) :=
  _ ← connect_to_lsp env;
  refund_address ← on_wallet Wallet.get_new_address;
  try_block_on (runtime_for_request env) (on_order_source
    (LiquiditySource.lsps1_request_channel handler i j wait wait' lsp_balance_sat
       client_balance_sat channel_expiry_blocks announce_channel refund_address)).

Definition check_order_status (env : lsp_env) (handler : bool) (i : RequestId)
    (wait : Source → Source) (order : OrderId) :
    cmd order_state Error (LiquiditySource.LSPS1OrderStatus OrderId PaymentInfo ChannelInfo) :=
  _ ← connect_to_lsp env;
  try_block_on (runtime_for_request env) (on_order_source
    (LiquiditySource.lsps1_check_order_status handler i wait order)).

(** ** The fee that was agreed is the fee that is taken *)

Context {KSPEC : KVStoreSpec S}.

Lemma try_block_on_Ok {St A} b (m : cmd St Error A) (y y' : St) a :
  try_block_on b m y = (y', Ok a) → m y = (y', Ok a).
Proof. by destruct b. Qed.

Lemma on_source_Ok {A} (m : cmd Source Error A) x x' a :
  on_source m x = (x', Ok a) →
  ∃ l l', liquidity_source x = Some l ∧ m l = (l', Ok a) ∧ payments x' = payments x.
Proof.
  unfold on_source. destruct (liquidity_source x) as [l|]; [|done].
  destruct (m l) as [l' r] eqn:Hm. intros [= <- ->]. eauto.
Qed.

Lemma add_peer_record info x x' r i :
  add_peer info x = (x', r) → Payments.record i (payments x') = Payments.record i (payments x).
Proof. unfold add_peer. destruct (PeerStore.add_peer _ _). by intros [= <- <-]. Qed.

(** The record the call leaves. *)
Lemma jit_record env now n known amount description expiry total prop hash x x1 invoice :
  receive_via_jit_channel_inner env now n known amount description expiry total prop hash x
    = (x1, Ok invoice) →
  ∃ l l' fees, liquidity_source x = Some l ∧
    match amount with
    | Some a => ∃ fee, LiquiditySource.lsps2_receive_to_jit_channel compute_opening_fee
        MIN_FINAL_CLTV_EXPIRY_DELTA n a description expiry total hash l = (l', Ok (invoice, fee)) ∧
        fees = {| max_total_opening_fee_msat := Some fee;
                  max_proportional_opening_fee_ppm_msat := None |}
    | None => ∃ ppm, LiquiditySource.lsps2_receive_variable_amount_to_jit_channel
        MIN_FINAL_CLTV_EXPIRY_DELTA n description expiry prop hash l = (l', Ok (invoice, ppm)) ∧
        fees = {| max_total_opening_fee_msat := None;
                  max_proportional_opening_fee_ppm_msat := Some ppm |}
    end ∧
    Payments.record (invoice_payment_hash invoice) (payments x1) =
      Some (new_payment now (invoice_payment_hash invoice)
              (Payments.jit_kind invoice (known invoice) fees) amount None Inbound Pending).
Proof.
  unfold receive_via_jit_channel_inner. destruct (negb (running env)); [done|].
  unfold with_state. intros Hrun.
  apply cmd_bind_Ok in Hrun as (? & source & Hs & Hrun).
  assert (liquidity_source x = Some source ∧ x0 = x) as [Hsrc ->].
  { revert Hs. unfold lift. by destruct (liquidity_source x); intros [= <- <-]. }
  apply cmd_bind_Ok in Hrun as (? & [node addr] & Hd & Hrun).
  assert (x0 = x) as -> by (by injection Hd).
  apply cmd_bind_Ok in Hrun as (? & [] & Hc%try_block_on_Ok & Hrun).
  assert (x0 = x) as -> by (by injection Hc).
  apply cmd_bind_Ok in Hrun as (x2 & [[inv total_fee] prop_fee] & Hj%try_block_on_Ok & Hrun).
  apply on_source_Ok in Hj as (l & l' & Hl & Hj & Hp2).
  apply cmd_bind_Ok in Hrun as (x3 & b & Hrec & Hrun).
  apply cmd_bind_Ok in Hrun as (x4 & [] & Hpeer%try_block_on_Ok & [= <- <-]).
  exists l, l', {| max_total_opening_fee_msat := total_fee;
                   max_proportional_opening_fee_ppm_msat := prop_fee |}.
  split_and!; [done| |].
  - destruct amount; apply cmd_bind_Ok in Hj as (l2 & [i f] & Hj & Heq); injection Heq as <- <- <- <-; eauto.
  - rewrite (add_peer_record _ _ _ _ _ Hpeer). revert Hrec. unfold on_payments.
    destruct (Payments.record_jit_invoice _ _ _ _ _ _ _ _ _) as [p r] eqn:Hr. intros [= <- ->].
    apply (Payments.record_new_run tlv_encode tlv_decode) in Hr as (_ & _ & [[_ Ho]|[? _]]); [|done].
    unfold Payments.record, DataStore.get. cbn. by rewrite Ho, lookup_insert_eq.
Qed.

Abbreviation claimable := (Payments.claimable (CustomTlvRecord := CustomTlvRecord)).
Abbreviation pay_state := (Payments.state S PaymentFailureReason ClosureReason CustomTlvRecord).

(** A payment to a fresh JIT invoice is taken exactly if the LSP withheld no more than the
    limit of its record. *)
Lemma jit_acceptable (e : claimable) (y : pay_state) now i k amount :
  Payments.c_payment_hash e = i →
  Payments.record i y = Some (new_payment now i k amount None Inbound Pending) →
  Payments.is_spontaneous k = false →
  Payments.acceptable compute_opening_fee e y ↔
  Payments.c_counterparty_skimmed_fee_msat e ≤
    Payments.fee_limit compute_opening_fee k (Payments.c_amount_msat e).
Proof. intros <- Hr Hk. unfold Payments.acceptable. rewrite Hr. cbn. naive_solver. Qed.

(** What became of a payment: claimed if [ok], failed otherwise, or asked for again. *)
Definition settled (ok : Prop) (e : claimable) (y y' : pay_state)
    (r : outcome ReplayEvent unit) : Prop :=
  (ok → ∀ p, purpose_preimage (Payments.c_purpose e) = Some p →
    Payments.calls y' = Payments.calls y ++ [ClaimFunds p] ∨
    Payments.calls y' = Payments.calls y ∧ r = Err Replay) ∧
  (¬ ok →
    Payments.calls y' = Payments.calls y ++ [FailHtlcBackwards (Payments.c_payment_hash e)] ∨
    Payments.calls y' = Payments.calls y ∧ r = Err Replay).

Lemma claimable_settled now (e : claimable) (y y' : pay_state) r :
  Payments.payment_claimable tlv_encode tlv_decode compute_opening_fee now e y = (y', r) →
  settled (Payments.acceptable compute_opening_fee e y) e y y' r.
Proof.
  intros (cs & es & Hc & _ & Ha)%(Payments.claimable_run tlv_encode tlv_decode compute_opening_fee (KSPEC := KSPEC)).
  assert (Payments.answer compute_opening_fee e y cs es ∨ cs = [] ∧ r = Err Replay) as Ha'.
  { destruct r as [[]|[]|]; cbn in Ha; [by left| |done]. tauto. }
  split.
  - intros Hok p Hp. destruct Ha' as [Ha'|[-> ->]]; [|right; by rewrite Hc, app_nil_r].
    left. rewrite Hc. inversion Ha'; subst; [congruence|naive_solver congruence|congruence].
  - intros Hno. destruct Ha' as [Ha'|[-> ->]]; [|right; by rewrite Hc, app_nil_r].
    left. rewrite Hc. by inversion Ha'.
Qed.

(** C6. Buying a just-in-time channel fixes what the LSP may keep of the payment.  For a
    fixed amount, the invoice comes with the fee of the LSP's cheapest offer, which is
    within the caller's limit; for a variable amount, with the least proportional fee.
    When the payment arrives, it is claimed if the LSP withheld no more than that, and
    failed otherwise. *)
Theorem jit_fee_honoured env now n known amount description expiry total prop hash x x1 invoice :
  receive_via_jit_channel_inner env now n known amount description expiry total prop hash x
    = (x1, Ok invoice) →
  ∃ l l1 menu, liquidity_source x = Some l ∧
    LiquiditySource.lsps2_request_opening_fee_params (LiquiditySource.ji_handler n)
      (LiquiditySource.ji_fee_request n) (LiquiditySource.ji_fee_wait n) l = (l1, Ok menu) ∧
    ∃ limit : Z → Z,
      match amount with
      | Some a => ∃ fee params, LiquiditySource.cheapest compute_opening_fee a fee params menu ∧
          (∀ most, total = Some most → fee ≤ most) ∧ ∀ received, limit received = fee
      | None => ∃ params, params ∈ menu ∧
          (∀ params', params' ∈ menu → proportional params ≤ proportional params') ∧
          (∀ most, prop = Some most → proportional params ≤ most) ∧
          ∀ received, limit received =
            default 0 (compute_opening_fee received 0 (proportional params))
      end ∧
      ∀ now' (e : claimable) (y y' : pay_state) r,
        Payments.c_payment_hash e = invoice_payment_hash invoice →
        Payments.record (invoice_payment_hash invoice) y =
          Payments.record (invoice_payment_hash invoice) (payments x1) →
        Payments.payment_claimable tlv_encode tlv_decode compute_opening_fee now' e y = (y', r) →
        settled (Payments.c_counterparty_skimmed_fee_msat e ≤ limit (Payments.c_amount_msat e))
          e y y' r.
Proof.
  intros (l & l' & fees & Hl & Hf & Hrec)%jit_record.
  assert (∃ l1 menu, LiquiditySource.lsps2_request_opening_fee_params (LiquiditySource.ji_handler n)
    (LiquiditySource.ji_fee_request n) (LiquiditySource.ji_fee_wait n) l = (l1, Ok menu) ∧
    match amount with
    | Some a => ∃ fee params, LiquiditySource.cheapest compute_opening_fee a fee params menu ∧
        (∀ most, total = Some most → fee ≤ most) ∧
        fees = {| max_total_opening_fee_msat := Some fee;
                  max_proportional_opening_fee_ppm_msat := None |}
    | None => ∃ params, params ∈ menu ∧
        (∀ params', params' ∈ menu → proportional params ≤ proportional params') ∧
        (∀ most, prop = Some most → proportional params ≤ most) ∧
        fees = {| max_total_opening_fee_msat := None;
                  max_proportional_opening_fee_ppm_msat := Some (proportional params) |}
    end) as (l1 & menu & Hm & Hfees).
  { destruct amount as [a|]; destruct Hf as (fee & Hf & ->).
    - destruct (LiquiditySource.jit_fixed_Ok _ _ _ _ _ _ _ _ _ _ _ _ Hf) as (l1 & menu & Hm & params & Hc & Hlim).
      eauto 10.
    - destruct (LiquiditySource.jit_variable_Ok _ _ _ _ _ _ _ _ _ _ Hf) as (l1 & menu & Hm & params & -> & Hc).
      exists l1, menu. split; [done|]. exists params. tauto. }
  exists l, l1, menu. split; [done|]. split; [done|].
  exists (Payments.fee_limit compute_opening_fee (Payments.jit_kind invoice (known invoice) fees)).
  split.
  { destruct amount as [a|].
    - destruct Hfees as (fee & params & ? & ? & ->). eauto 10.
    - destruct Hfees as (params & ? & ? & ? & ->). eauto 10. }
  intros now' e y y' r He Hy Hrun. rewrite Hrec in Hy.
  pose proof (claimable_settled _ _ _ _ _ Hrun) as Hs. unfold settled in *.
  pose proof (jit_acceptable e y now _ _ amount He Hy eq_refl) as Hiff. tauto.
Qed.
End lsp.
End Lsp.
