(* ===== verification/NodePayments.v ===== *)
(** * Unified payments ([src/payment/unified_qr.rs])

    The state that the on-chain wallet, the payments and the event queue make up
    together, and the payments that may go either way: a BIP 21 URI with an address, an
    invoice and an offer.  Parsing and printing such a URI is [bip21]'s. *)

From Stdlib Require Import Strings.Ascii.
From S2P Require Import Prelude Errors KVStore Codec DataStore Types PaymentStore Bdk AggTypes.
From S2P Require Import Aggregate AggBuild AggInvariant FeeEstimator Config WalletKeys EventQueue Event NodeMetrics.
From S2P Require Import TxBroadcaster Wallet Broadcast WalletSend WalletUtxos OnchainPayment Payments.

(** ** Text *)

(** [str::find]: the index of the first occurrence. *)
Fixpoint find_str (key s : string) : option nat :=
  if String.prefix key s then Some 0%nat
  else match s with
       | EmptyString => None
       | String _ s => Datatypes.S <$> find_str key s
       end.

Definition ascii_upper (c : Ascii.ascii) : Ascii.ascii :=
  let n := Ascii.nat_of_ascii c in
  if (97 <=? n)%nat && (n <=? 122)%nat then Ascii.ascii_of_nat (n - 32) else c.
Fixpoint to_uppercase (s : string) : string :=
  match s with
  | EmptyString => EmptyString
  | String c s => String (ascii_upper c) (to_uppercase s)
  end.

Fixpoint take_str (n : nat) (s : string) : string :=
  match n, s with
  | Datatypes.S n, String c s => String c (take_str n s)
  | _, _ => EmptyString
  end.
Fixpoint drop_str (n : nat) (s : string) : string :=
  match n, s with
  | Datatypes.S n, String _ s => drop_str n s
  | _, _ => s
  end.

(** The loop of [value_to_uppercase] on the rest of the text from [start]; [fuel] is more
    than the number of its rounds, each of which takes at least the key away. *)
Fixpoint value_to_uppercase_from (fuel : nat) (key rest : string) : string :=
  match fuel with
  | 0%nat => rest
  | Datatypes.S fuel =>
      match find_str key rest with
      | Some index =>
          let param := drop_str index rest in
          let len := match find_str "&" param with Some i => i | None => String.length param end in
          (take_str index rest +:+ key +:+
           to_uppercase (take_str (len - String.length key) (drop_str (String.length key) param)) +:+
           value_to_uppercase_from fuel key (drop_str len param))%string
      | None => rest
      end
  end.
Definition value_to_uppercase (key uri : string) : string :=
  value_to_uppercase_from (Datatypes.S (String.length uri)) key uri.

(** [format_uri]; [printed] is the URI as [bip21] prints it. *)
Definition format_uri (printed : string) : string :=
  value_to_uppercase "lno=" (value_to_uppercase "lightning=" printed).

Lemma append_cons c a b : (String c a +:+ b = String c (a +:+ b))%string.
Proof. done. Qed.
Lemma to_uppercase_app a b :
  to_uppercase (a +:+ b)%string = (to_uppercase a +:+ to_uppercase b)%string.
Proof. induction a as [|c a IH]; [done|]. rewrite append_cons. cbn. by rewrite IH. Qed.
Lemma ascii_upper_idem c : ascii_upper (ascii_upper c) = ascii_upper c.
Proof. destruct c as [[] [] [] [] [] [] [] []]; reflexivity. Qed.
Lemma to_uppercase_idem s : to_uppercase (to_uppercase s) = to_uppercase s.
Proof. induction s as [|c s IH]; cbn; [done|]. by rewrite ascii_upper_idem, IH. Qed.
Lemma take_drop_str n s : (take_str n s +:+ drop_str n s)%string = s.
Proof. revert s. induction n as [|n IH]; intros [|c s]; cbn; [done..|].
  rewrite append_cons. by rewrite IH. Qed.
Lemma drop_drop_str n m s : drop_str m (drop_str n s) = drop_str (n + m) s.
Proof.
  revert s. induction n as [|n IH]; intros [|c s]; cbn; [done|done| |apply IH]. by destruct m.
Qed.
Lemma drop_str_length n s : (n ≤ String.length s)%nat →
  String.length (drop_str n s) = (String.length s - n)%nat.
Proof.
  revert s. induction n as [|n IH]; intros [|c s]; cbn; try lia. intros. apply IH. lia.
Qed.

Lemma prefix_drop key s :
  String.prefix key s = true →
  s = (key +:+ drop_str (String.length key) s)%string ∧ (String.length key ≤ String.length s)%nat.
Proof.
  revert s. induction key as [|c key IH]; intros s; cbn [String.prefix];
    [intros _; split; [reflexivity|cbn; lia]|].
  destruct s as [|d s]; [done|].
  change (String.prefix (String c key) (String d s))
    with (if Ascii.ascii_dec c d then String.prefix key s else false).
  destruct (Ascii.ascii_dec c d) as [->|]; [|done].
  intros [Hs Hl]%IH. rewrite append_cons. cbn. split; [by rewrite <- Hs|lia].
Qed.
Lemma find_str_prefix key s n :
  find_str key s = Some n →
  String.prefix key (drop_str n s) = true ∧ (n + String.length key ≤ String.length s)%nat.
Proof.
  revert n. induction s as [|c s IH]; intros n; cbn [find_str].
  - destruct (String.prefix key EmptyString) eqn:Hp; [|done]. intros [= <-]. split; [done|].
    apply prefix_drop in Hp as [_ ?]. done.
  - destruct (String.prefix key (String c s)) eqn:Hp.
    + intros [= <-]. split; [done|]. apply prefix_drop in Hp as [_ ?]. done.
    + destruct (find_str key s) as [m|]; [|done]. intros [= <-].
      destruct (IH m eq_refl) as [? ?]. cbn. split; [done|lia].
Qed.

(** The end of a parameter is after its key, which has no ampersand. *)
Definition no_ampersand (key : string) : Prop :=
  (0 < String.length key)%nat ∧
  ∀ s n, find_str "&" (key +:+ s)%string = Some n → (String.length key ≤ n)%nat.

Definition param_length (param : string) : nat :=
  match find_str "&" param with Some i => i | None => String.length param end.
Lemma param_length_bounds key param :
  no_ampersand key → String.prefix key param = true →
  (String.length key ≤ param_length param ≤ String.length param)%nat.
Proof.
  intros [_ Hk] Hp. destruct (prefix_drop _ _ Hp) as [Heq Hl]. unfold param_length.
  destruct (find_str "&" param) as [n|] eqn:Hn; [|lia]. split.
  - rewrite Heq in Hn. by eapply Hk.
  - apply find_str_prefix in Hn as [_ ?]. lia.
Qed.

(** Only letters change, and only between the cases. *)
Lemma value_to_uppercase_case fuel key s :
  no_ampersand key →
  to_uppercase (value_to_uppercase_from fuel key s) = to_uppercase s.
Proof.
  intros Hk. revert s. induction fuel as [|fuel IH]; intros s; cbn [value_to_uppercase_from]; [done|].
  destruct (find_str key s) as [n|] eqn:Hn; [|done]. cbv zeta.
  apply find_str_prefix in Hn as [Hp _]. pose proof (param_length_bounds _ _ Hk Hp) as Hlen.
  fold (param_length (drop_str n s)). set (len := param_length _) in *.
  rewrite !to_uppercase_app, to_uppercase_idem, IH, <- !to_uppercase_app.
  assert (drop_str len (drop_str n s) =
    drop_str (len - String.length key) (drop_str (String.length key) (drop_str n s))) as ->
    by (rewrite !drop_drop_str; f_equal; lia).
  rewrite take_drop_str. destruct (prefix_drop _ _ Hp) as [<- _]. by rewrite take_drop_str.
Qed.

(** The fuel is enough: more of it changes nothing. *)
Lemma value_to_uppercase_fuel fuel fuel' key s :
  no_ampersand key → (String.length s < fuel)%nat → (String.length s < fuel')%nat →
  value_to_uppercase_from fuel key s = value_to_uppercase_from fuel' key s.
Proof.
  intros Hk. revert fuel' s. induction fuel as [|fuel IH]; intros [|fuel'] s; cbn; try lia.
  intros Hf Hf'. destruct (find_str key s) as [n|] eqn:Hn; [|done].
  apply find_str_prefix in Hn as [Hp Hl]. pose proof (param_length_bounds _ _ Hk Hp) as Hlen.
  fold (param_length (drop_str n s)). rewrite drop_str_length in Hlen by lia.
  rewrite (IH fuel'); [done|..]; rewrite drop_str_length; rewrite ?drop_str_length; destruct Hk; lia.
Qed.

Lemma find_ampersand_cons c s :
  c ≠ "&"%char → find_str "&" (String c s) = Datatypes.S <$> find_str "&" s.
Proof.
  intros Hc. cbn [find_str].
  change (String.prefix "&" (String c s))
    with (if Ascii.ascii_dec "&" c then String.prefix EmptyString s else false).
  by destruct (Ascii.ascii_dec "&" c).
Qed.
Lemma no_ampersand_cons c key :
  c ≠ "&"%char → key = EmptyString ∨ no_ampersand key → no_ampersand (String c key).
Proof.
  intros Hc Hk. split; [cbn; lia|]. intros s n. rewrite append_cons, find_ampersand_cons by done.
  destruct (find_str "&" (key +:+ s)%string) as [m|] eqn:Hm; [|done]. intros [= <-]. cbn.
  destruct Hk as [->|[_ Hk]]; [cbn; lia|]. apply Hk in Hm. lia.
Qed.

(** The printed URI and the text given out differ in case only. *)
Theorem format_uri_case printed : to_uppercase (format_uri printed) = to_uppercase printed.
Proof.
  unfold format_uri, value_to_uppercase.
  rewrite !value_to_uppercase_case; [done|..];
    repeat (apply no_ampersand_cons; [done|first [by left|right]]).
Qed.

(** ** The Lightning parameters of a URI *)

Section extras.
(** How invoices and offers are printed and parsed. *)
Context (print_offer : Offer → string).
Context (parse_invoice : string → option Bolt11Invoice) (parse_offer : string → option Offer).

(** [Extras] and [DeserializationState] have the same fields. *)
Record Extras := mkExtras {
  bolt11_invoice : option Bolt11Invoice;
  bolt12_offer : option Offer;
}.
Inductive ParamKind := Known | Unknown.

Definition serialize_params (e : Extras) : list (string * string) :=
  match bolt11_invoice e with
  | Some invoice => [("lightning"%string, invoice_text invoice)]
  | None => []
  end ++
  match bolt12_offer e with
  | Some offer => [("lno"%string, print_offer offer)]
  | None => []
  end.

Definition is_param_known (key : string) : bool :=
  bool_decide (key = "lightning"%string) || bool_decide (key = "lno"%string).

(** [value] is the text of the parameter, [None] if it is not UTF-8. *)
Definition deserialize_temp (st : Extras) (key : string) (value : option string) :
    outcome Error (Extras * ParamKind) :=
  if decide (key = "lightning"%string) then
    bolt11_value ← ok_or value UriParameterParsingFailed;
    invoice ← ok_or (parse_invoice bolt11_value) UriParameterParsingFailed;
    Ok (mkExtras (Some invoice) (bolt12_offer st), Known)
  else if decide (key = "lno"%string) then
    bolt12_value ← ok_or value UriParameterParsingFailed;
    offer ← ok_or (parse_offer bolt12_value) UriParameterParsingFailed;
    Ok (mkExtras (bolt11_invoice st) (Some offer), Known)
  else Ok (st, Unknown).

(** All parameters of a URI in turn, from the default state; [finalize] gives the state out
    as it is. *)
Definition deserialize_step (st : Extras) (param : string * option string) :
    outcome Error Extras :=
  '(st, _) ← deserialize_temp st param.1 param.2; Ok st.
Definition deserialize (params : list (string * option string)) : outcome Error Extras :=
  try_fold deserialize_step (mkExtras None None) params.

(** Texts as printed or in capitals are parsed back. *)
Definition reads_back {A} (print : A → string) (parse : string → option A) : Prop :=
  ∀ a, parse (print a) = Some a ∧ parse (to_uppercase (print a)) = Some a.

Lemma deserialize_one {A} (print : A → string) (parse : string → option A) (case : string → string) a :
  reads_back print parse → case = to_uppercase ∨ (∀ s, case s = s) →
  parse (case (print a)) = Some a.
Proof. intros Hp [->|Hc]; [|rewrite Hc]; apply Hp. Qed.

Lemma deserialize_unknown st params :
  Forall (λ param, is_param_known param.1 = false) params →
  try_fold deserialize_step st params = Ok st.
Proof.
  intros Hp. induction Hp as [|[key value] params [H1 H2]%orb_false_iff Hp IH]; [done|].
  apply bool_decide_eq_false in H1, H2. cbn [try_fold].
  assert (deserialize_step st (key, value) = Ok st) as ->; [|exact IH].
  unfold deserialize_step, deserialize_temp. cbn [fst snd] in *. by rewrite !decide_False by done.
Qed.

(** A parameter as it stands in the text. *)
Definition written (case : string → string) (param : string * string) : string * option string :=
  (param.1, Some (case param.2)).

(** What is put into a URI is read from it again, whether or not the values were put into
    capitals and whatever unknown parameters come before and after. *)
Theorem extras_roundtrip e (case : string → string) before after :
  reads_back invoice_text parse_invoice → reads_back print_offer parse_offer →
  case = to_uppercase ∨ (∀ s, case s = s) →
  Forall (λ param, is_param_known param.1 = false) (before ++ after) →
  deserialize (before ++ (written case <$> serialize_params e) ++ after) = Ok e.
Proof.
  intros Hi Ho Hc [Hb Ha]%Forall_app.
  assert (try_fold deserialize_step (mkExtras None None) (written case <$> serialize_params e)
    = Ok e) as Hmid.
  - destruct e as [[invoice|] [offer|]]; cbn; unfold deserialize_step, deserialize_temp; cbn;
      rewrite ?(deserialize_one invoice_text), ?(deserialize_one print_offer); done.
  - unfold deserialize. rewrite try_fold_app, deserialize_unknown by done.
    unfold mbind at 1, outcome_bind at 1. rewrite try_fold_app, Hmid.
    by apply deserialize_unknown.
Qed.
End extras.

Section node.
Context {S : Type} {KV : KVStore S}.
Context (tlv_encode : PaymentTlv → bytes) (tlv_decode : bytes → option PaymentTlv).
Context {U16 : U16Codec} {PaymentFailureReason ClosureReason CustomTlvRecord : Type}.
Abbreviation Ev := (Event PaymentFailureReason ClosureReason CustomTlvRecord).
Context {CE : Codec Ev}.
Context {O : IterOrder OnchainWalletAccount} {OT : IterOrder Txid}.
Context {BTC : Bitcoin} {W P U BdkEv : Type} {BDK : Bdk W P U BdkEv} {CS : CoinSelection}.
Context {D : Type}.
Abbreviation Wal := (Wallet.Wallet S W P D).
Abbreviation pay_state := (Payments.state S PaymentFailureReason ClosureReason CustomTlvRecord).

(** The wallet holds the payment store, and with it the key-value store that the event
    queue writes to as well. *)
Record node := mkNode {
  wallet : Wal;
  event_queue : EventQueue.EventQueue S Ev;
  calls : list payment_call;
}.
Implicit Types (x : node).

Definition payments_of x : pay_state :=
  Payments.mkState (Wallet.payment_store (wallet x)) (event_queue x) (calls x).
Definition put_payments (p : pay_state) x : node :=
  mkNode (Wallet.set_payment_store (Payments.payment_store p) (wallet x))
    (Payments.event_queue p) (Payments.calls p).

Definition on_payments {E A} (m : cmd pay_state E A) : cmd node E A := λ x,
  let '(p, r) := m (payments_of x) in (put_payments p x, r).
Definition on_wallet {E A} (m : cmd Wal E A) : cmd node E A := λ x,
  let '(s, r) := m (wallet x) in (mkNode s (event_queue x) (calls x), r).

(** ** [UnifiedQrPayment] *)

Context (default_route_parameters : RouteParametersConfig).
Context (txid_to_string : Txid → string) (default_input_weight : Weight).
Context (FEERATE_FLOOR_SATS_PER_KW : Z) (address_valid : Address → Network → bool).
Context {SocketAddress : Type}.
Context (channels : list ChannelDetails) (config : Config SocketAddress).

(** A parsed URI of the node's network; [uri_network_ok] is [require_network]. *)
Record uri := mkUri {
  uri_network_ok : bool;
  uri_address : Address;
  uri_amount_sats : option Z;
  uri_bolt11_invoice : option Bolt11Invoice;
  uri_bolt12_offer : option Offer;
}.

Inductive QrPaymentResult :=
| QrOnchain (t : Txid)
| QrBolt11 (i : PaymentId)
| QrBolt12 (i : PaymentId).

(** The clock, the node-wide parameters, LDK's answers and the id drawn for an offer. *)
Record send_inputs := mkSendInputs {
  si_now : Z;
  si_node_wide : option RouteParametersConfig;
  si_offer_answer : outcome Bolt12SemanticError unit;
  si_offer_id : PaymentId;
  si_invoice_answer : outcome Bolt11PaymentError unit;
}.
Implicit Types (i : send_inputs).

(** A failure that is only logged. *)
Definition attempt {A} (m : cmd node Error A) : cmd node Error (option A) := λ x,
  match m x with
  | (x, Ok a) => (x, Ok (Some a))
  | (x, Err _) => (x, Ok None)
  | (x, Panic) => (x, Panic)
  end.

Definition try_offer (e : env) i (u : uri) (params : option RouteParametersConfig) :
    cmd node Error (option PaymentId) :=
  match uri_bolt12_offer u with
  | Some offer =>
      attempt (on_payments (Payments.bolt12_send tlv_encode tlv_decode default_route_parameters
        (is_running e) (si_now i) (si_node_wide i) (si_offer_answer i) (si_offer_id i) offer None
        None params))
  | None => mret None
  end.
Definition try_invoice (e : env) i (u : uri) (params : option RouteParametersConfig) :
    cmd node Error (option PaymentId) :=
  match uri_bolt11_invoice u with
  | Some invoice =>
      attempt (on_payments (Payments.bolt11_send tlv_encode tlv_decode default_route_parameters
        (is_running e) (si_now i) (si_node_wide i) (si_invoice_answer i) invoice params))
  | None => mret None
  end.
Definition pay_onchain (e : env) (u : uri) : cmd node Error Txid :=
  amount ← lift (ok_or (uri_amount_sats u) InvalidAmount);
  on_wallet (OnchainPayment.send_to_address txid_to_string default_input_weight
    FEERATE_FLOOR_SATS_PER_KW address_valid channels config e (uri_address u) amount None None).

(** [parsed] is the URI the text stands for, if any. *)
Definition unified_send (e : env) i (parsed : option uri)
    (params : option RouteParametersConfig) : cmd node Error QrPaymentResult :=
  u ← lift (ok_or parsed InvalidUri);
  if negb (uri_network_ok u) then fail InvalidNetwork
  else
    offer_payment ← try_offer e i u params;
    match offer_payment with
    | Some payment_id => mret (QrBolt12 payment_id)
    | None =>
        invoice_payment ← try_invoice e i u params;
        match invoice_payment with
        | Some payment_id => mret (QrBolt11 payment_id)
        | None => t ← pay_onchain e u; mret (QrOnchain t)
        end
    end.

(** [description_ok] says whether [Description::new] takes the text, [printed] is how
    [bip21] prints the parts. *)
Definition unified_receive (now : Z) (builder_ok : bool)
    (build : offer_request → option Offer) (description_ok : string → bool)
    (m : invoice_manager)
    (printed : Address → option Bolt11Invoice → option Offer → Z → string → string)
    (amount_sats : Z) (description : string) (expiry_sec : Z) : cmd node Error string :=
  onchain_address ← on_wallet OnchainPayment.new_address;
  let amount_msats := wrap64 (amount_sats * 1000) in
  let bolt12_offer :=
    ok (Payments.bolt12_receive_inner now builder_ok build amount_msats description None None) in
  if negb (description_ok description) then fail InvoiceCreationFailed
  else
    bolt11_invoice ← attempt (on_payments (Payments.bolt11_receive_inner tlv_encode tlv_decode now
      m (Some amount_msats) (Direct description) expiry_sec None));
    mret (format_uri (printed onchain_address bolt11_invoice bolt12_offer amount_sats description)).

(** ** At most one way is taken *)

Context {KSPEC : KVStoreSpec S}.

(** LDK took the payment. *)
Definition accepted i (c : payment_call) : Prop :=
  match c with
  | PayForOffer _ _ _ _ _ _ => si_offer_answer i = Ok tt
  | PayForBolt11Invoice _ _ _ _ => si_invoice_answer i = Ok tt
  | _ => False
  end.

(** How the answer names the payment of a call. *)
Definition named (c : payment_call) (r : QrPaymentResult) : Prop :=
  match r with
  | QrBolt12 j => ∃ offer a n q p, c = PayForOffer offer a j n q p
  | QrBolt11 j => ∃ invoice a p, c = PayForBolt11Invoice invoice j a p
  | QrOnchain _ => False
  end.

Lemma attempt_on_payments {A} (m : cmd pay_state Error A) x x' r :
  attempt (on_payments m) x = (x', r) →
  ∃ p r0, m (payments_of x) = (p, r0) ∧ x' = put_payments p x ∧
    r = match r0 with Ok a => Ok (Some a) | Err _ => Ok None | Panic => Panic end.
Proof.
  unfold attempt, on_payments. destruct (m (payments_of x)) as [p [a|e|]]; intros [= <- <-]; eauto.
Qed.

(** The id of a call's payment. *)
Definition paid_id (c : payment_call) : option PaymentId :=
  match c with
  | PayForOffer _ _ j _ _ _ | PayForBolt11Invoice _ j _ _ => Some j
  | _ => None
  end.
(** The call pays an invoice that names no amount. *)
Definition amountless (c : payment_call) : Prop :=
  ∃ invoice j a p, c = PayForBolt11Invoice invoice j a p ∧ amount_milli_satoshis invoice = None.
(** The store refused a write, and the records say nothing new of the call's payment. *)
Definition unrecorded (c : payment_call) x x' : Prop :=
  ∃ j, paid_id c = Some j ∧ Payments.unrecorded j (payments_of x) (payments_of x').

(** The wallets are the same, and so are the records of all payments but one. *)
Definition untouched (j : option PaymentId) x x' : Prop :=
  Wallet.inner (wallet x') = Wallet.inner (wallet x) ∧
  ∀ j', Some j' ≠ j → Payments.record j' (payments_of x') = Payments.record j' (payments_of x).

(** One rail: nothing was asked of LDK and nothing came of it; or LDK was asked, and took
    the payment, which is then named or could not be recorded, or refused it. *)
Definition tried i (k : PaymentId → QrPaymentResult) (id : option PaymentId) x x'
    (r : outcome Error (option PaymentId)) : Prop :=
  untouched id x x' ∧
  (calls x' = calls x ∧ r = Ok None ∨
   ∃ c, calls x' = calls x ++ [c] ∧ paid_id c = id ∧
     (accepted i c ∧
        ((∃ j, r = Ok (Some j) ∧ named c (k j)) ∨ r = Ok None ∧ unrecorded c x x' ∨
         r = Panic ∧ amountless c) ∨
      ¬ accepted i c ∧ (r = Ok None ∨ r = Panic))).

Lemma try_offer_run e i u params x x' r :
  try_offer e i u params x = (x', r) → tried i QrBolt12 (Some (si_offer_id i)) x x' r.
Proof.
  unfold try_offer. destruct (uri_bolt12_offer u) as [offer|].
  2:{ intros [= <- <-]. split; [done|auto]. }
  intros (p & r0 & Hb & -> & ->)%attempt_on_payments.
  apply (Payments.bolt12_send_run tlv_encode tlv_decode) in Hb as [(-> & e0 & ->)|([q Hc] & Ho & Hr)];
    [| |done].
  { split; [done|by left]. }
  split; [split; [done|intros j Hj; apply Ho; congruence]|right].
  exists (PayForOffer offer None (si_offer_id i) None None q). split; [exact Hc|split; [done|]].
  destruct (si_offer_answer i) as [[]|err|] eqn:Ha; cbn; rewrite Ha.
  - left. split; [done|]. destruct Hr as [->|[[e0 ->] Hu]]; [left; eauto 10|right; left].
    split; [done|]. eexists. split; [done|]. exact Hu.
  - right. destruct Hr as [e0 ->]. auto.
  - right. rewrite Hr. auto.
Qed.

Lemma try_invoice_run e i u params x x' r :
  try_invoice e i u params x = (x', r) →
  tried i QrBolt11 (invoice_payment_hash <$> uri_bolt11_invoice u) x x' r.
Proof.
  unfold try_invoice. destruct (uri_bolt11_invoice u) as [invoice|].
  2:{ intros [= <- <-]. split; [done|auto]. }
  intros (p & r0 & Hb & -> & ->)%attempt_on_payments.
  apply (Payments.bolt11_send_run tlv_encode tlv_decode) in Hb as [(-> & e0 & ->)|([q Hc] & Ho & Hr)];
    [| |done].
  { split; [done|by left]. }
  split; [split; [done|intros j Hj; apply Ho; cbn in Hj; congruence]|right].
  eexists. split; [exact Hc|split; [done|]].
  destruct (si_invoice_answer i) as [[]|err|] eqn:Ha; cbn; rewrite Ha.
  - left. split; [done|]. destruct Hr as [->|[[[e0 ->] Hu]|[-> Hn]]]; [left; eauto 10|right; left|right; right].
    + split; [done|]. eexists. split; [done|]. exact Hu.
    + split; [done|]. unfold amountless. eauto 10.
  - right. destruct Hr as [e0 ->]. auto.
  - right. rewrite Hr. auto.
Qed.

Lemma pay_onchain_calls e u x : calls (pay_onchain e u x).1 = calls x.
Proof.
  unfold pay_onchain, mbind, cmd_bind, lift. destruct (uri_amount_sats u); cbn; [|done].
  unfold on_wallet. by destruct (OnchainPayment.send_to_address _ _ _ _ _ _ _ _ _ _ _ _).
Qed.

(** An on-chain payment makes no payment record. *)
Lemma pay_onchain_records e u x j :
  Payments.record j (payments_of (pay_onchain e u x).1) = Payments.record j (payments_of x).
Proof.
  unfold pay_onchain, mbind at 1, cmd_bind at 1, lift. destruct (uri_amount_sats u) as [a|]; cbn; [|done].
  unfold on_wallet, OnchainPayment.send_to_address, check_running, mbind at 1, cmd_bind at 1, lift.
  destruct (is_running e); [|done]. unfold WalletSend.send_to_address, mbind, cmd_bind.
  destruct (WalletSend.prepare_send_to_address _ _ _ _ _ _ _ _ _) as [s1 r1] eqn:Hp.
  apply only_inner_prepare in Hp.
  assert (∀ s2, DataStore.objects (Wallet.payment_store s2) = DataStore.objects (Wallet.payment_store (wallet x)) →
    Payments.record j (payments_of (mkNode s2 (event_queue x) (calls x))) = Payments.record j (payments_of x)) as Hrec.
  { intros s2 E. unfold Payments.record, DataStore.get. cbn. by rewrite E. }
  assert (Wallet.payment_store s1 = Wallet.payment_store (wallet x)) as E1 by (by rewrite Hp).
  destruct r1 as [tx|err|]; cbn; [|apply Hrec; by rewrite E1..].
  unfold record_and_broadcast, Wallet.record_broadcast_txid.
  destruct (kv_write _ _ _) as [kv [[]|err|]]; cbn; [apply Hrec; cbn; by rewrite E1| |apply Hrec; cbn; by rewrite E1].
  destruct (Wallet.cancel_tx tx _) as [s2 r2] eqn:Hcancel. apply only_inner_on_inner in Hcancel.
  destruct r2; apply Hrec; rewrite Hcancel; cbn; by rewrite E1.
Qed.

(** An accepted call ends the payment, or went unrecorded; [x0] is where the payment began. *)
Definition one_rail i x0 x x' (r : outcome Error QrPaymentResult) : Prop :=
  ∃ cs, calls x' = calls x ++ cs ∧
    ∀ before c after, cs = before ++ c :: after → accepted i c →
      unrecorded c x0 x' ∨
      after = [] ∧ Forall (λ b, accepted i b → unrecorded b x0 x') before ∧
      Wallet.inner (wallet x') = Wallet.inner (wallet x0) ∧
      ((∃ q, r = Ok q ∧ named c q) ∨ r = Panic ∧ amountless c).

Lemma one_rail_next i c x0 x x1 x' r :
  calls x1 = calls x ++ [c] → (accepted i c → unrecorded c x0 x') →
  one_rail i x0 x1 x' r → one_rail i x0 x x' r.
Proof.
  intros Hc Hu (cs & Hcs & Hr). exists (c :: cs). rewrite Hcs, Hc, <- app_assoc. split; [done|].
  intros [|b before] d after [= <- E] Hd; [left; by apply Hu|].
  destruct (Hr _ _ _ E Hd) as [?|(-> & Hb & Hw & Hq)]; [by left|right].
  split_and!; [done|by constructor|done..].
Qed.
Lemma one_rail_last i c x0 x x' r :
  calls x' = calls x ++ [c] → Wallet.inner (wallet x') = Wallet.inner (wallet x0) →
  (accepted i c → (∃ q, r = Ok q ∧ named c q) ∨ r = Panic ∧ amountless c) → one_rail i x0 x x' r.
Proof.
  intros Hc Hw Hq. exists [c]. split; [done|]. intros [|b []] d after [= <- <-] Hd. right. auto.
Qed.

(** A rail and what follows it. *)
Lemma one_rail_rest i k id x0 x x1 (r1 : outcome Error (option PaymentId)) x' r
    (next : cmd node Error QrPaymentResult) :
  tried i k id x x1 r1 → untouched None x0 x ∨ (∃ id0, untouched id0 x0 x ∧ (is_Some id → id0 ≠ id)) →
  (∀ x' r, next x1 = (x', r) → one_rail i x0 x1 x' r ∧
     ∀ j, id = Some j → Payments.record j (payments_of x') = Payments.record j (payments_of x1)) →
  (match r1 with
   | Ok (Some j) => (x1, Ok (k j))
   | Ok None => next x1
   | Err e => (x1, Err e)
   | Panic => (x1, Panic)
   end) = (x', r) →
  one_rail i x0 x x' r.
Proof.
  intros [[Hw _] Ht] Hbase Hnext Hrun.
  assert (Wallet.inner (wallet x1) = Wallet.inner (wallet x0) ∧
    ∀ j, id = Some j → Payments.record j (payments_of x) = Payments.record j (payments_of x0)) as [Hw0 Hrec].
  { rewrite Hw. destruct Hbase as [[? Hr]|(id0 & [? Hr] & Hne)]; (split; [done|]); intros j ->; apply Hr; [done|].
    apply not_eq_sym, Hne. by eexists. }
  destruct Ht as [[Hc ->]|(c & Hc & Hid & [[Ha [(j & -> & Hn)|[[-> Hu]|[-> Hn]]]]|[Ha [->| ->]]])].
  - destruct (Hnext _ _ Hrun) as [Hr _]. revert Hr. unfold one_rail. by rewrite Hc.
  - injection Hrun as <- <-. eapply one_rail_last; eauto.
  - destruct (Hnext _ _ Hrun) as [Hr Hsame]. eapply one_rail_next; [done| |done]. intros _.
    destruct Hu as (j & Hj & Hs & Heq). exists j. split; [done|]. split; [done|].
    rewrite Hsame, Heq by congruence. apply Hrec. congruence.
  - injection Hrun as <- <-. eapply one_rail_last; eauto.
  - destruct (Hnext _ _ Hrun) as [Hr Hsame]. by eapply one_rail_next.
  - injection Hrun as <- <-. by eapply one_rail_last.
Qed.

(** What follows the offer leaves the records of all payments but the invoice's alone. *)
Lemma after_offer_records e i u params x x' r :
  (invoice_payment ← try_invoice e i u params;
   match invoice_payment with
   | Some payment_id => mret (QrBolt11 payment_id)
   | None => t ← pay_onchain e u; mret (QrOnchain t)
   end) x = (x', r) →
  ∀ j, Some j ≠ invoice_payment_hash <$> uri_bolt11_invoice u →
    Payments.record j (payments_of x') = Payments.record j (payments_of x).
Proof.
  unfold mbind, cmd_bind. destruct (try_invoice e i u params x) as [x1 r1] eqn:H1.
  apply try_invoice_run in H1 as [[_ Hr] _]. intros Hrun j Hj. rewrite <- Hr by done.
  destruct r1 as [[p|]|err|]; [by injection Hrun as <- <-| |by injection Hrun as <- <-..].
  rewrite <- (pay_onchain_records e u x1). destruct (pay_onchain e u x1) as [x2 []]; by injection Hrun as <- <-.
Qed.

(** C23. Paying a URI pays it one way, whatever the store and LDK do: a payment that LDK
    accepts is the last thing that is tried, the answer names it, and the wallet makes no
    transaction.  Two things are excepted.  Where the store refuses the record of an
    accepted payment, the records say nothing new of it and the next way is tried although
    the first may succeed.  And an accepted invoice without an amount, which LDK does not
    accept without one being given, ends in a panic.  The id drawn for the offer's payment
    is not the invoice's hash. *)
Theorem unified_single_rail e i u params x x' r :
  (∀ invoice, uri_bolt11_invoice u = Some invoice → invoice_payment_hash invoice ≠ si_offer_id i) →
  unified_send e i (Some u) params x = (x', r) →
  ∃ cs, calls x' = calls x ++ cs ∧
    ∀ before c after, cs = before ++ c :: after → accepted i c →
      unrecorded c x x' ∨
      after = [] ∧ Forall (λ b, accepted i b → unrecorded b x x') before ∧
      Wallet.inner (wallet x') = Wallet.inner (wallet x) ∧
      ((∃ q, r = Ok q ∧ named c q) ∨ r = Panic ∧ amountless c).
Proof.
  intros Hne. unfold unified_send, mbind at 1, cmd_bind at 1. cbn [lift ok_or].
  assert (Some (si_offer_id i) ≠ invoice_payment_hash <$> uri_bolt11_invoice u) as Hids.
  { destruct (uri_bolt11_invoice u) as [invoice|]; cbn; [|done]. intros [= E]. by apply (Hne invoice). }
  destruct (negb (uri_network_ok u)).
  { intros [= <- <-]. exists []. rewrite app_nil_r. split; [done|]. by intros []. }
  unfold mbind at 1, cmd_bind at 1. destruct (try_offer e i u params x) as [x1 r1] eqn:H1.
  apply try_offer_run in H1. intros Hrun.
  eapply one_rail_rest; [done|by left; split| |destruct r1 as [[]| |]; exact Hrun].
  clear Hrun x' r. intros x2 r2 Hrun. split.
  2:{ intros j [= <-]. by apply (after_offer_records _ _ _ _ _ _ _ Hrun). }
  revert Hrun. unfold mbind at 1, cmd_bind at 1.
  destruct (try_invoice e i u params x1) as [x3 r3] eqn:H3. apply try_invoice_run in H3. intros Hrun.
  eapply one_rail_rest; [done| | |destruct r3 as [[]| |]; exact Hrun].
  { right. exists (Some (si_offer_id i)). split; [apply H1|]. auto. }
  clear Hrun x2 r2. intros x4 r4 Hrun.
  pose proof (pay_onchain_calls e u x3) as Hc. pose proof (pay_onchain_records e u x3) as Hr.
  assert (x4 = (pay_onchain e u x3).1) as ->.
  { revert Hrun. unfold mbind, cmd_bind. destruct (pay_onchain e u x3) as [x5 []]; by intros [= <- <-]. }
  split; [|by intros j _]. exists []. rewrite app_nil_r. split; [done|]. by intros [].
Qed.

(** Paying the same URI again while its invoice is being paid does not stop at the
    duplicate: it falls through to the address. *)
Theorem repeat_goes_onchain e i u params x invoice :
  uri_network_ok u = true → is_running e = true →
  uri_bolt12_offer u = None → uri_bolt11_invoice u = Some invoice →
  Payments.must_not_pay (Payments.record (invoice_payment_hash invoice) (payments_of x)) = true →
  unified_send e i (Some u) params x = (t ← pay_onchain e u; mret (QrOnchain t)) x.
Proof.
  intros Hn Hr Ho Hi Hm. unfold unified_send, mbind at 1, cmd_bind at 1. cbn [lift ok_or].
  rewrite Hn. cbn [negb]. unfold mbind at 1, cmd_bind at 1.
  assert (try_offer e i u params x = (x, Ok None)) as -> by (unfold try_offer; by rewrite Ho).
  unfold mbind at 1, cmd_bind at 1.
  assert (try_invoice e i u params x = (x, Ok None)) as ->; [|done].
  unfold try_invoice, attempt, on_payments, Payments.bolt11_send, Payments.pay_invoice, with_state.
  rewrite Hi, Hr. cbn [negb]. rewrite Hm. by destruct x as [[]].
Qed.
End node.
Arguments node : clear implicits.
