(* ===== verification/EventHandler.v ===== *)
(** * Handling LDK's events ([EventHandler] of [src/event.rs])

    One function per group of events and [handle_event], over the node's wallet,
    payments and event queue, the liquidity source, the peer store, the store of static
    invoices and the mailbox of onion messages.  The calls to LDK's channel manager and
    its companions are kept in [ldk]; their answers are inputs where the code looks at
    them. *)

From S2P Require Import Prelude Errors KVStore Codec DataStore Types PaymentStore Bdk AggTypes.
From S2P Require Import Aggregate AggBuild AggInvariant FeeEstimator Config WalletKeys EventQueue Event NodeMetrics.
From S2P Require Import TxBroadcaster Wallet Broadcast WalletSend WalletUtxos OnchainPayment PeerStore.
From S2P Require Import RateLimiter StaticInvoiceStore OmMailbox Payments Liquidity NodePayments.

(** The channel data of LDK that the handler reads beside [ChannelDetails]. *)
Record Channel := mkChannel {
  channel_details : ChannelDetails;
  channel_id : ChannelId;
  is_outbound : bool;
  funding_redeem_script : option Script;
  channel_value_satoshis : Z;
}.

(** [ChannelConfigOverrides], as far as it is set. *)
Record channel_override := mkOverride {
  max_inbound_htlc_value_in_flight_percent : option Z;
  accept_underpaying_htlcs : option bool;
}.

Module EventHandler.
Section handler.
Context {S : Type} {KV : KVStore S}.
Context (tlv_encode : PaymentTlv → bytes) (tlv_decode : bytes → option PaymentTlv).
Context {U16 : U16Codec} {PaymentFailureReason ClosureReason CustomTlvRecord : Type}.
Abbreviation Ev := (Event PaymentFailureReason ClosureReason CustomTlvRecord).
Context {CE : Codec Ev}.
Context {O : IterOrder OnchainWalletAccount} {OT : IterOrder Txid}.
Context {BTC : Bitcoin} {W P U BdkEv : Type} {BDK : Bdk W P U BdkEv} {CS : CoinSelection}.
Context {D : Type}.
Context {RequestId OrderId PaymentInfo ChannelInfo SocketAddress : Type}.
Context `{Countable RequestId} `{EqDecision SocketAddress}.
Context {OP : IterOrder PublicKey} {CK : Codec PublicKey}.
Context {CP : Codec (PeerStore.PeerInfo SocketAddress)}.
Context {StaticInvoice BlindedMessagePath OnionMessage SpendableOutput : Type}.
Context (encode_invoice : StaticInvoice * BlindedMessagePath → bytes).
Context (decode_invoice : bytes → option (StaticInvoice * BlindedMessagePath)).
Context (sha256 : bytes → bytes) (to_p2wsh : Script → Script).
Context (compute_opening_fee : Z → Z → Z → option Z).
Context (FEERATE_FLOOR_SATS_PER_KW : Z).

Abbreviation Node := (NodePayments.node S PaymentFailureReason ClosureReason CustomTlvRecord W P D).
Abbreviation Source :=
  (LiquiditySource.LiquiditySource RequestId OrderId PaymentInfo ChannelInfo SocketAddress).
Abbreviation Claimable := (Payments.claimable (CustomTlvRecord := CustomTlvRecord)).

(** ** Events and calls *)

(** [LdkEvent], with the fields the handler reads. *)
Inductive LdkEvent :=
| FundingGenerationReady (temporary_channel_id : ChannelId) (counterparty : PublicKey)
    (channel_value_satoshis : Z) (output_script : Script) (user_channel_id : Z)
| FundingTxBroadcastSafe (user_channel_id : Z) (counterparty : PublicKey)
| PaymentClaimable (e : Claimable)
| PaymentClaimed (payment_hash : PaymentHash) (purpose : PaymentPurpose) (amount_msat : Z)
    (custom_records : list CustomTlvRecord)
| PaymentSent (payment_id : option PaymentId) (payment_preimage : PaymentPreimage)
    (payment_hash : PaymentHash) (fee_paid_msat : option Z)
| PaymentFailed (payment_id : PaymentId) (payment_hash : option PaymentHash)
    (reason : option PaymentFailureReason)
| PaymentPathSuccessful
| PaymentPathFailed
| ProbeSuccessful (payment_id : PaymentId) (payment_hash : PaymentHash) (path_fee_msat : Z)
| ProbeFailed (payment_id : PaymentId) (payment_hash : PaymentHash)
    (short_channel_id : option Z) (path_fee_msat : Z)
| HTLCHandlingFailed
| SpendableOutputs (outputs : list SpendableOutput) (channel : option ChannelId)
| OpenChannelRequest (temporary_channel_id : ChannelId) (counterparty : PublicKey)
    (requires_anchors is_announced : bool)
| PaymentForwarded (prev_channel_id next_channel_id : option ChannelId)
    (prev_user_channel_id next_user_channel_id : option Z)
    (prev_node_id next_node_id : option PublicKey)
    (total_fee_earned_msat skimmed_fee_msat : option Z) (claim_from_onchain_tx : bool)
    (outbound_amount_forwarded_msat : option Z)
| ChannelPending (channel : ChannelId) (user_channel_id : Z)
    (former_temporary_channel_id : option ChannelId) (counterparty : PublicKey)
    (funding_txo : OutPoint)
| ChannelReady (channel : ChannelId) (user_channel_id : Z) (counterparty : PublicKey)
    (funding_txo : option OutPoint)
| ChannelClosed (channel : ChannelId) (reason : ClosureReason) (user_channel_id : Z)
    (counterparty : option PublicKey)
| DiscardFunding
| HTLCIntercepted (requested_next_hop_scid : Z) (intercept_id : bytes)
    (expected_outbound_amount_msat : Z) (payment_hash : PaymentHash)
| InvoiceReceived
| ConnectionNeeded (node_id : PublicKey) (addresses : list SocketAddress)
| BumpChannelClose (channel : ChannelId) (counterparty : PublicKey)
| BumpHTLCResolution
| OnionMessageIntercepted (peer : PublicKey) (message : OnionMessage)
| OnionMessagePeerConnected (peer : PublicKey)
| PersistStaticInvoice (invoice : StaticInvoice) (invoice_request_path : BlindedMessagePath)
    (invoice_slot : Z) (recipient_id : bytes) (invoice_persisted_path : BlindedMessagePath)
| StaticInvoiceRequested (recipient_id : bytes) (invoice_slot : Z)
    (reply_path : BlindedMessagePath) (invoice_request : bytes)
| FundingTransactionReadyForSigning (channel : ChannelId) (counterparty : PublicKey)
    (unsigned_transaction : Transaction)
| SplicePending (channel : ChannelId) (user_channel_id : Z) (counterparty : PublicKey)
    (new_funding_txo : OutPoint)
| SpliceFailed (channel : ChannelId) (user_channel_id : Z) (counterparty : PublicKey)
    (abandoned_funding_txo : option OutPoint) (contributed_outputs : list TxOut).

Inductive ldk_call :=
| FundingTransactionGenerated (temporary_channel_id : ChannelId) (counterparty : PublicKey)
    (tx : Transaction) (manual_broadcast : bool)
| ForceCloseBroadcastingLatestTxn (channel : ChannelId) (counterparty : PublicKey)
    (reason : string)
| AcceptInboundChannel (temporary_channel_id : ChannelId) (counterparty : PublicKey)
    (user_channel_id : Z) (zero_conf : bool) (overrides : option channel_override)
| TrackSpendableOutputs (outputs : list SpendableOutput) (channel : option ChannelId)
| SpawnConnect (node_id : PublicKey) (addresses : list SocketAddress)
| BumpTransaction (channel : option ChannelId)
| ForwardOnionMessage (message : OnionMessage) (peer : PublicKey)
| StaticInvoicePersisted (path : BlindedMessagePath)
| RespondToStaticInvoiceRequest (invoice : StaticInvoice) (reply_path : BlindedMessagePath)
    (invoice_request : bytes) (invoice_request_path : BlindedMessagePath)
| FundingTransactionSigned (channel : ChannelId) (counterparty : PublicKey) (tx : Transaction).

Record state := mkState {
  node : Node;
  liquidity_source : option Source;
  peer_store : PeerStore.PeerStore S SocketAddress;
  static_invoice_store : option (StaticInvoiceStore.StaticInvoiceStore S);
  om_mailbox : option (OnionMessageMailbox.OnionMessageMailbox OnionMessage);
  ldk : list ldk_call;
}.
Implicit Types (x : state).
Abbreviation hcmd A := (cmd state ReplayEvent A).

(** What a handler finds: the clock, the chain's height, the configuration, LDK's
    channels, the addresses of announced nodes, whether LDK's LSPS2 service handler is
    there and what it says of a channel's broadcast, the id drawn for a channel, and
    whether the sweeper took the outputs. *)
Record env := mkEnv {
  now : Z;
  best_height : Z;
  config : Config SocketAddress;
  trusted_peers_0conf : list PublicKey;
  channels : list Channel;
  announced_address : PublicKey → option SocketAddress;
  service_handler : bool;
  needs_manual_broadcast : option bool;
  drawn_user_channel_id : Z;
  sweeper_ok : bool;
}.
Implicit Types (v : env).

(** ** The parts of the state *)

Definition kv_of (n : Node) : S := DataStore.kv_store (Wallet.payment_store (wallet n)).
Definition set_kv_of (kv : S) (n : Node) : Node :=
  mkNode (Wallet.set_payment_store (DataStore.set_kv kv (Wallet.payment_store (wallet n)))
            (wallet n)) (event_queue n) (calls n).

Definition set_node (n : Node) x : state :=
  mkState n (liquidity_source x) (peer_store x) (static_invoice_store x) (om_mailbox x) (ldk x).
Definition on_node {E A} (m : cmd Node E A) : cmd state E A := λ x,
  let '(n, r) := m (node x) in (set_node n x, r).
(** [self.liquidity_source.as_ref().map(..)] *)
Definition with_source (m : cmd Source ReplayEvent unit) : hcmd unit := λ x,
  match liquidity_source x with
  | Some l =>
      let '(l, r) := m l in
      (mkState (node x) (Some l) (peer_store x) (static_invoice_store x) (om_mailbox x) (ldk x), r)
  | None => (x, Ok tt)
  end.
Definition call (c : ldk_call) : hcmd unit :=
  modify (λ x, mkState (node x) (liquidity_source x) (peer_store x) (static_invoice_store x)
                 (om_mailbox x) (ldk x ++ [c])).

(** [self.event_queue.add_event(event)], a failure of which asks for the event again. *)
Definition emit (event : Ev) : hcmd unit :=
  on_node (on_payments (Payments.or_replay (Payments.add_event event))).
Definition payment_event (m : cmd (Payments.state S PaymentFailureReason ClosureReason CustomTlvRecord)
    ReplayEvent unit) : hcmd unit := on_node (on_payments m).

(** ** Channels *)

(** [LockTime::from_height] is for heights below its threshold. *)
Definition LOCK_TIME_THRESHOLD : Z := 500000000.
Definition from_height (h : Z) : Z := if h <? LOCK_TIME_THRESHOLD then h else 0.

Definition funding_generation_ready v (temporary_channel_id : ChannelId)
    (counterparty : PublicKey) (value : Z) (output_script : Script) (user_channel_id : Z) :
    hcmd unit := λ x,
  match on_wallet (create_funding_transaction FEERATE_FLOOR_SATS_PER_KW output_script value
                     ChannelFunding (from_height (best_height v))) (node x) with
  | (n, Ok final_tx) =>
      let manual :=
        match liquidity_source x with
        | Some l => LiquiditySource.lsps2_channel_needs_manual_broadcast (service_handler v)
                      (needs_manual_broadcast v) l
        | None => false
        end in
      (_ ← (if manual then
              with_source (LiquiditySource.lsps2_store_funding_transaction (service_handler v)
                             user_channel_id counterparty final_tx)
            else mret tt);
       call (FundingTransactionGenerated temporary_channel_id counterparty final_tx manual))
        (set_node n x)
  | (n, Err _) =>
      call (ForceCloseBroadcastingLatestTxn temporary_channel_id counterparty
              "Failed to create funding transaction") (set_node n x)
  | (n, Panic) => (set_node n x, Panic)
  end.

Definition reject (temporary_channel_id : ChannelId) (counterparty : PublicKey) : hcmd unit :=
  call (ForceCloseBroadcastingLatestTxn temporary_channel_id counterparty
          "Channel request rejected").

(** [None] when Anchor channels are disabled. *)
Definition anchor_requirement v (counterparty : PublicKey) : option Z :=
  (λ c, if decide (counterparty ∈ trusted_peers_no_reserve c) then 0
        else per_channel_reserve_sats c) <$> anchor_channels_config (config v).
Definition spendable_sats {E} v x : outcome E Z :=
  unwrap_or_zero (Wallet.get_spendable_amount_sats
    (total_anchor_channels_reserve_sats (channel_details <$> channels v) (config v))
    (wallet (node x))).
(** Whether an Anchor channel may be accepted. *)
Definition reserve_available v (counterparty : PublicKey) x : outcome ReplayEvent bool :=
  match anchor_requirement v counterparty with
  | Some required_amount_sats =>
      spendable_amount_sats ← spendable_sats v x;
      Ok (required_amount_sats <=? spendable_amount_sats)
  | None => Ok false
  end.

Definition lsp_override (counterparty : PublicKey) x : option channel_override :=
  match liquidity_source x ≫= LiquiditySource.get_lsps2_lsp_details with
  | Some (lsp_node_id, _) =>
      if decide (lsp_node_id = counterparty) then
        Some {| max_inbound_htlc_value_in_flight_percent := Some 100;
                accept_underpaying_htlcs := Some true |}
      else None
  | None => None
  end.

Definition open_channel_request v (temporary_channel_id : ChannelId) (counterparty : PublicKey)
    (anchor_channel is_announced : bool) : hcmd unit :=
  with_state (λ x,
    if is_announced && negb (is_ok (may_announce_channel (config v))) then
      reject temporary_channel_id counterparty
    else
      available ← lift (if anchor_channel then reserve_available v counterparty x else Ok true);
      if negb available then reject temporary_channel_id counterparty
      else
      let allow_0conf := bool_decide (counterparty ∈ trusted_peers_0conf v) in
      call (AcceptInboundChannel temporary_channel_id counterparty (drawn_user_channel_id v)
              allow_0conf (lsp_override counterparty x))).

(** [persist_missing_channel_peers] of one counterparty, on the shared store. *)
Definition persist_channel_peer v (counterparty : PublicKey) : hcmd unit :=
  modify (λ x,
    let ps := PeerStore.mkPeerStore (PeerStore.peers (peer_store x)) (kv_of (node x)) in
    let ps := PeerStore.persist_missing_channel_peers (announced_address v) [counterparty] ps in
    mkState (set_kv_of (PeerStore.kv_store ps) (node x)) (liquidity_source x) ps
      (static_invoice_store x) (om_mailbox x) (ldk x)).

Definition find_channel v (counterparty : PublicKey) (channel : ChannelId) : option Channel :=
  List.find (λ c, bool_decide (channel_id c = channel))
    (List.filter (λ c, bool_decide (counterparty_node_id (channel_details c) = counterparty))
       (channels v)).

Definition channel_pending v (channel : ChannelId) (user_channel_id : Z)
    (former_temporary_channel_id : option ChannelId) (counterparty : PublicKey)
    (funding_txo : OutPoint) : hcmd unit :=
  former ← lift (expect former_temporary_channel_id);
  _ ← emit (Event.ChannelPending channel user_channel_id former counterparty funding_txo);
  match find_channel v counterparty channel with
  | Some pending_channel =>
      if is_outbound pending_channel then mret tt else persist_channel_peer v counterparty
  | None => mret tt
  end.

Definition channel_ready v (channel : ChannelId) (user_channel_id : Z) (counterparty : PublicKey)
    (funding_txo : option OutPoint) : hcmd unit :=
  _ ← with_source (LiquiditySource.handle_channel_ready (service_handler v) user_channel_id channel
                     counterparty);
  emit (Event.ChannelReady channel user_channel_id (Some counterparty) funding_txo).

Definition payment_forwarded v (prev_channel_id next_channel_id : option ChannelId)
    (prev_user_channel_id next_user_channel_id : option Z)
    (prev_node_id next_node_id : option PublicKey)
    (total_fee_earned_msat skimmed_fee_msat : option Z) (claim_from_onchain_tx : bool)
    (outbound_amount_forwarded_msat : option Z) : hcmd unit :=
  _ ← with_source (LiquiditySource.handle_payment_forwarded (service_handler v) next_channel_id
                     (default 0 skimmed_fee_msat));
  prev ← lift (expect prev_channel_id);
  next ← lift (expect next_channel_id);
  emit (Event.PaymentForwarded prev next prev_user_channel_id next_user_channel_id prev_node_id
          next_node_id total_fee_earned_msat skimmed_fee_msat claim_from_onchain_tx
          outbound_amount_forwarded_msat).

(** ** Funding transactions *)

Definition channel_funding_prevout v (channel : ChannelId) : list (OutPoint * TxOut) :=
  match List.find (λ c, bool_decide (channel_id c = channel)) (channels v) with
  | Some c =>
      match funding_txo (channel_details c), funding_redeem_script c with
      | Some outpoint, Some script =>
          [(outpoint, {| value := channel_value_satoshis c; script_pubkey := to_p2wsh script |})]
      | _, _ => []
      end
  | None => []
  end.

Definition funding_transaction_ready v (channel : ChannelId) (counterparty : PublicKey)
    (unsigned_transaction : Transaction) : hcmd unit :=
  with_state (λ x,
    match sign_owned_inputs unsigned_transaction (channel_funding_prevout v channel)
            (wallet (node x)) with
    | Ok tx => call (FundingTransactionSigned channel counterparty tx)
    | Err _ => mret tt
    | Panic => lift Panic
    end).

Definition splice_failed (channel : ChannelId) (user_channel_id : Z) (counterparty : PublicKey)
    (abandoned_funding_txo : option OutPoint) (contributed_outputs : list TxOut) : hcmd unit :=
  let tx := {| version := 2; lock_time := 0; input := []; output := contributed_outputs |} in
  _ ← on_node (cmd_map_err (λ _, Replay) (on_wallet (Wallet.cancel_tx tx)));
  emit (Event.SpliceFailed channel user_channel_id counterparty abandoned_funding_txo).

Definition bump_channel_close v (channel : ChannelId) (counterparty : PublicKey) : hcmd unit :=
  match anchor_channels_config (config v) with
  | Some c =>
      if decide (counterparty ∈ trusted_peers_no_reserve c) then mret tt
      else call (BumpTransaction (Some channel))
  | None => call (BumpTransaction (Some channel))
  end.

(** ** Onion messages and static invoices *)

Definition set_mailbox (mb : OnionMessageMailbox.OnionMessageMailbox OnionMessage) x : state :=
  mkState (node x) (liquidity_source x) (peer_store x) (static_invoice_store x) (Some mb) (ldk x).

Definition onion_message_intercepted (peer : PublicKey) (message : OnionMessage) : hcmd unit := λ x,
  match om_mailbox x with
  | Some mb =>
      match OnionMessageMailbox.onion_message_intercepted peer message mb with
      | Ok mb => (set_mailbox mb x, Ok tt)
      | _ => (x, Panic)
      end
  | None => (x, Ok tt)
  end.

(** A message that cannot be forwarded is dropped. *)
Definition onion_message_peer_connected (peer : PublicKey) : hcmd unit := λ x,
  match om_mailbox x with
  | Some mb =>
      let '(mb, messages) := OnionMessageMailbox.onion_message_peer_connected peer mb in
      for_each (λ message, call (ForwardOnionMessage message peer)) messages (set_mailbox mb x)
  | None => (x, Ok tt)
  end.

(** The static invoices are in the shared store as well. *)
Definition on_static_invoices {A}
    (m : StaticInvoiceStore.StaticInvoiceStore S →
         StaticInvoiceStore.StaticInvoiceStore S * outcome ErrorKind A)
    (k : A → hcmd unit) : hcmd unit := λ x,
  match static_invoice_store x with
  | Some st =>
      let '(st, r) := m (StaticInvoiceStore.mkStore (kv_of (node x))
                           (StaticInvoiceStore.request_rate_limiter st)
                           (StaticInvoiceStore.persist_rate_limiter st)) in
      let x := mkState (set_kv_of (StaticInvoiceStore.kv_store st) (node x)) (liquidity_source x)
                 (peer_store x) (Some st) (om_mailbox x) (ldk x) in
      match r with
      | Ok a => k a x
      | Err _ => (x, Err Replay)
      | Panic => (x, Panic)
      end
  | None => (x, Ok tt)
  end.

Definition persist_static_invoice v (invoice : StaticInvoice)
    (invoice_request_path : BlindedMessagePath) (invoice_slot : Z) (recipient_id : bytes)
    (invoice_persisted_path : BlindedMessagePath) : hcmd unit :=
  on_static_invoices
    (StaticInvoiceStore.handle_persist_static_invoice encode_invoice sha256 (now v) invoice
       invoice_request_path invoice_slot recipient_id)
    (λ _, call (StaticInvoicePersisted invoice_persisted_path)).

Definition static_invoice_requested v (recipient_id : bytes) (invoice_slot : Z)
    (reply_path : BlindedMessagePath) (invoice_request : bytes) : hcmd unit :=
  on_static_invoices
    (StaticInvoiceStore.handle_static_invoice_requested decode_invoice sha256 (now v)
       recipient_id invoice_slot)
    (λ found, match found with
              | Some (invoice, invoice_request_path) =>
                  call (RespondToStaticInvoiceRequest invoice reply_path invoice_request
                          invoice_request_path)
              | None => mret tt
              end).

(** ** [handle_event] *)

Definition channel_closed (channel : ChannelId) (reason : ClosureReason) (user_channel_id : Z)
    (counterparty : option PublicKey) : hcmd unit :=
  emit (Event.ChannelClosed channel user_channel_id counterparty (Some reason)).

Definition splice_pending (channel : ChannelId) (user_channel_id : Z) (counterparty : PublicKey)
    (new_funding_txo : OutPoint) : hcmd unit :=
  emit (Event.SplicePending channel user_channel_id counterparty new_funding_txo).

Definition spendable_outputs v (outputs : list SpendableOutput) (channel : option ChannelId) :
    hcmd unit :=
  _ ← call (TrackSpendableOutputs outputs channel);
  if sweeper_ok v then mret tt else fail Replay.

(** The task that tries the addresses one after the other is only spawned. *)
Definition connection_needed (node_id : PublicKey) (addresses : list SocketAddress) : hcmd unit :=
  call (SpawnConnect node_id addresses).

Definition handle_event v (event : LdkEvent) : hcmd unit :=
  match event with
  | FundingGenerationReady t cp value script u =>
      funding_generation_ready v t cp value script u
  | FundingTxBroadcastSafe u cp =>
      with_source (LiquiditySource.lsps2_funding_tx_broadcast_safe (service_handler v) u cp)
  | PaymentClaimable e =>
      payment_event (Payments.payment_claimable tlv_encode tlv_decode compute_opening_fee (now v) e)
  | PaymentClaimed h p a c =>
      payment_event (Payments.payment_claimed tlv_encode tlv_decode (now v) h p a c)
  | PaymentSent i p h f =>
      payment_event (Payments.payment_sent tlv_encode tlv_decode (now v) i h p f)
  | PaymentFailed i h r =>
      payment_event (Payments.payment_failed tlv_encode tlv_decode (now v) i h r)
  | PaymentPathSuccessful | PaymentPathFailed | DiscardFunding | InvoiceReceived => mret tt
  | ProbeSuccessful i h f => payment_event (Payments.probe_successful i h f)
  | ProbeFailed i h scid f => payment_event (Payments.probe_failed i h scid f)
  | HTLCHandlingFailed =>
      with_source (LiquiditySource.handle_htlc_handling_failed (service_handler v))
  | SpendableOutputs outputs ch =>
      spendable_outputs v outputs ch
  | OpenChannelRequest t cp anchors announced => open_channel_request v t cp anchors announced
  | PaymentForwarded pc nc pu nu pn nn fee skimmed onchain amount =>
      payment_forwarded v pc nc pu nu pn nn fee skimmed onchain amount
  | ChannelPending ch u former cp txo => channel_pending v ch u former cp txo
  | ChannelReady ch u cp txo => channel_ready v ch u cp txo
  | ChannelClosed ch reason u cp => channel_closed ch reason u cp
  | HTLCIntercepted scid i amount h =>
      with_source (LiquiditySource.handle_htlc_intercepted (service_handler v) scid i amount h)
  | ConnectionNeeded node_id addresses => connection_needed node_id addresses
  | BumpChannelClose ch cp => bump_channel_close v ch cp
  | BumpHTLCResolution => call (BumpTransaction None)
  | OnionMessageIntercepted peer message => onion_message_intercepted peer message
  | OnionMessagePeerConnected peer => onion_message_peer_connected peer
  | PersistStaticInvoice invoice path slot recipient persisted =>
      persist_static_invoice v invoice path slot recipient persisted
  | StaticInvoiceRequested recipient slot reply request =>
      static_invoice_requested v recipient slot reply request
  | FundingTransactionReadyForSigning ch cp tx => funding_transaction_ready v ch cp tx
  | SplicePending ch u cp txo => splice_pending ch u cp txo
  | SpliceFailed ch u cp txo outputs => splice_failed ch u cp txo outputs
  end.

(** ** Inbound channels *)

(** The request meets the configuration, and the wallet has what an Anchor channel may
    need. *)
Definition admissible v (counterparty : PublicKey) (anchor_channel is_announced : bool) x : Prop :=
  (is_announced = true → may_announce_channel (config v) = Ok tt) ∧
  (anchor_channel = true → ∃ required funds,
     anchor_requirement v counterparty = Some required ∧
     spendable_sats (E := ReplayEvent) v x = Ok funds ∧ required ≤ funds).

Lemma reserve_available_cases v cp x :
  match reserve_available v cp x with
  | Ok b => b = true ↔ ∃ required funds, anchor_requirement v cp = Some required ∧
      spendable_sats (E := ReplayEvent) v x = Ok funds ∧ required ≤ funds
  | Err _ => False
  | Panic => spendable_sats (E := ReplayEvent) v x = Panic
  end.
Proof.
  unfold reserve_available. destruct (anchor_requirement v cp) as [required|]; [|naive_solver].
  destruct (spendable_sats v x) as [funds|e|] eqn:Hs; cbn.
  - rewrite Z.leb_le. naive_solver.
  - revert Hs. unfold spendable_sats, unwrap_or_zero. by case_match.
  - done.
Qed.

Lemma lsp_override_iff cp x :
  is_Some (lsp_override cp x) ↔
  ∃ l client, liquidity_source x = Some l ∧ LiquiditySource.lsps2_client l = Some client ∧
    LiquiditySource.lsp_node_id client = cp.
Proof.
  unfold lsp_override, LiquiditySource.get_lsps2_lsp_details.
  destruct (liquidity_source x) as [l|]; cbn; [|split; [by intros [? ?]|by intros (? & ? & ? & _)]].
  destruct (LiquiditySource.lsps2_client l) as [client|] eqn:Hc; cbn.
  - case_decide as Hd; split; [by eauto|done|by intros [? ?]|].
    intros (? & ? & [= <-] & Hc' & ?). congruence.
  - split; [by intros [? ?]|]. intros (? & ? & [= <-] & Hc' & _). congruence.
Qed.

Lemma refused_announcement (announced : bool) (c : Config SocketAddress) :
  announced && negb (is_ok (may_announce_channel c)) = false ↔
  (announced = true → may_announce_channel c = Ok tt).
Proof.
  destruct announced; cbn; [|naive_solver].
  destruct (may_announce_channel c) as [[]|e|]; cbn; naive_solver.
Qed.

(** C21. A request for an inbound channel is answered once: it is accepted if it meets the
    configuration (announced channels need an alias and addresses, Anchor channels a
    reserve the wallet can spare unless the peer is trusted) and rejected otherwise; it
    is accepted without confirmations exactly for the peers trusted with that, and only
    the LSP gets a channel on which it may withhold fees. *)
Theorem inbound_channel_guarded v t cp anchors announced x x' r :
  handle_event v (OpenChannelRequest t cp anchors announced) x = (x', r) →
  node x' = node x ∧
  (r = Panic ∧ spendable_sats (E := ReplayEvent) v x = Panic ∨
   r = Ok tt ∧ ∃ c, ldk x' = ldk x ++ [c] ∧
     (¬ admissible v cp anchors announced x ∧
        c = ForceCloseBroadcastingLatestTxn t cp "Channel request rejected" ∨
      admissible v cp anchors announced x ∧
        ∃ zero_conf overrides, c = AcceptInboundChannel t cp (drawn_user_channel_id v) zero_conf overrides ∧
          (zero_conf = true ↔ cp ∈ trusted_peers_0conf v) ∧
          (is_Some overrides ↔ ∃ l client, liquidity_source x = Some l ∧
             LiquiditySource.lsps2_client l = Some client ∧
             LiquiditySource.lsp_node_id client = cp))).
Proof.
  cbn [handle_event]. unfold open_channel_request, with_state, admissible.
  destruct (announced && _) eqn:Hann.
  { intros [= <- <-]. split; [done|]. right. split; [done|]. eexists. split; [done|]. left.
    split; [|done]. intros [Ha _]. pose proof (proj2 (refused_announcement _ _) Ha). congruence. }
  pose proof (proj1 (refused_announcement _ _) Hann) as Hmay. unfold mbind, cmd_bind, lift.
  pose proof (reserve_available_cases v cp x) as Hres.
  destruct (if anchors then _ else _) as [available|[]|] eqn:Hav.
  2:{ destruct anchors; [|done]. by rewrite Hav in Hres. }
  2:{ intros [= <- <-]. split; [done|]. left. destruct anchors; [|done]. by rewrite Hav in Hres. }
  assert (available = true ↔ (anchors = true → ∃ required funds,
    anchor_requirement v cp = Some required ∧ spendable_sats (E := ReplayEvent) v x = Ok funds ∧
    required ≤ funds)) as Hiff.
  { destruct anchors; [rewrite Hav in Hres; naive_solver|]. injection Hav as <-. naive_solver. }
  destruct available; cbn [negb]; intros [= <- <-]; (split; [done|]); right; (split; [done|]);
    eexists; (split; [done|]).
  - right. split; [naive_solver|]. eexists _, _. split_and!; [done| |apply lsp_override_iff].
    apply bool_decide_eq_true.
  - left. split; [|done]. intros [_ Ha]. by pose proof (proj2 Hiff Ha).
Qed.

(** ** Events for the user *)

Context {KSPEC : KVStoreSpec S}.

Abbreviation queued x := (EventQueue.queue (event_queue (node x))).
(** The queue as a restart would read it. *)
Abbreviation stored_queue x := (kv_view (kv_of (node x)) !! EventQueue.EVENT_QUEUE_KEY).

(** What the user is told of an event about channels, forwards and probes. *)
Definition lifecycle (e : LdkEvent) : option Ev :=
  match e with
  | ProbeSuccessful i h fee => Some (Event.ProbeSuccessful i h (Some fee))
  | ProbeFailed i h scid fee => Some (Event.ProbeFailed i h scid (Some fee))
  | PaymentForwarded (Some prev) (Some next) pu nu pn nn fee skimmed onchain amount =>
      Some (Event.PaymentForwarded prev next pu nu pn nn fee skimmed onchain amount)
  | ChannelPending ch u (Some former) cp txo => Some (Event.ChannelPending ch u former cp txo)
  | ChannelReady ch u cp txo => Some (Event.ChannelReady ch u (Some cp) txo)
  | ChannelClosed ch reason u cp => Some (Event.ChannelClosed ch u cp (Some reason))
  | SplicePending ch u cp txo => Some (Event.SplicePending ch u cp txo)
  | SpliceFailed ch u cp txo _ => Some (Event.SpliceFailed ch u cp txo)
  | _ => None
  end.

(** How an event was passed on. *)
Definition passed_on (ev : Ev) x x' (r : outcome ReplayEvent unit) : Prop :=
  match r with
  | Ok _ => queued x' = queued x ++ [ev] ∧
      stored_queue x' = Some (EventQueue.encode_queue (queued x'))
  | Err _ => queued x' = queued x ∨ queued x' = queued x ++ [ev]
  | Panic => queued x' = queued x
  end.

Lemma emit_run ev x x' r :
  emit ev x = (x', r) → passed_on ev x x' r.
Proof.
  unfold emit, on_node, on_payments.
  destruct (Payments.or_replay _ _) as [p r1] eqn:Hr. intros [= <- <-].
  apply Payments.or_replay_inv in Hr as (r0 & Ha & ->).
  pose proof Ha as (_ & Hq & _ & [->| ->])%(Payments.add_event_run (KSPEC := KSPEC)); cbn.
  - split; [exact Hq|]. apply (Payments.add_event_stored (KSPEC := KSPEC)) in Ha. exact Ha.
  - right. exact Hq.
Qed.

(** [with_source] leaves the node alone and does not fail for the forwarded calls. *)
Lemma with_source_forward handler c x x' r :
  with_source (LiquiditySource.forward handler c) x = (x', r) → node x' = node x ∧ r = Ok tt.
Proof.
  unfold with_source. destruct (liquidity_source x) as [l|]; [|by intros [= <- <-]].
  destruct handler; by intros [= <- <-].
Qed.

Lemma passed_on_node ev x x1 x' r :
  node x1 = node x → passed_on ev x1 x' r → passed_on ev x x' r.
Proof. unfold passed_on. by intros ->. Qed.

(** Storing peers leaves the stored queue alone. *)
Lemma add_missing_view infos (ps : PeerStore.PeerStore S SocketAddress) k :
  k ≠ PeerStore.PEER_INFO_KEY →
  kv_view (PeerStore.kv_store (PeerStore.add_missing infos ps)) !! k =
  kv_view (PeerStore.kv_store ps) !! k.
Proof.
  intros Hk. revert ps. induction infos as [|info infos IH]; intros ps; cbn; [done|].
  case_decide; [apply IH|]. rewrite IH. clear IH.
  unfold PeerStore.add_peer, with_state. case_decide; [done|].
  unfold mbind, cmd_bind, PeerStore.persist_or_restore, PeerStore.persist_peers, modify. cbn.
  destruct (kv_write _ _ _) as [kv [[]|e|]] eqn:Hw; cbn.
  - by rewrite (kv_write_Ok _ _ _ _ Hw), lookup_insert_ne by done.
  - by rewrite (kv_write_Err _ _ _ _ _ Hw).
  - by apply (f_equal snd), kv_write_total in Hw.
Qed.

Lemma persist_channel_peer_passed ev v cp x x' :
  passed_on ev x x' (Ok tt) → passed_on ev x (persist_channel_peer v cp x').1 (Ok tt).
Proof.
  unfold passed_on. intros [Hq Hs]. cbn. split; [done|]. rewrite <- Hs.
  unfold PeerStore.persist_missing_channel_peers, PeerStore.persist_missing_channel_peers_excluding.
  rewrite add_missing_view; done.
Qed.

Lemma cancel_tx_queue tx x x' r :
  on_node (cmd_map_err (λ _ : Error, Replay) (on_wallet (Wallet.cancel_tx tx))) x = (x', r) →
  queued x' = queued x ∧ event_queue (node x') = event_queue (node x).
Proof.
  unfold on_node, cmd_map_err, on_wallet. destruct (Wallet.cancel_tx tx _). by intros [= <- <-].
Qed.

(** C18. What LDK reports of channels, forwards, splices and probes reaches the user: an
    event that was handled is at the end of the queue, and the stored queue, which a
    restart reads, contains it.  An event that could not be stored may be in the queue
    in memory when LDK is asked for it again.  The handling runs without another call on the
    event queue in between: two such calls that overlap may lose an event
    ([interleaved_writes_lose_event] of [EventQueue]). *)
Theorem lifecycle_durable v e ev x x' r :
  lifecycle e = Some ev → handle_event v e x = (x', r) → passed_on ev x x' r.
Proof.
  destruct e; cbn [lifecycle handle_event]; try done; intros Hev.
  - (* ProbeSuccessful *) injection Hev as <-. apply emit_run.
  - (* ProbeFailed *) injection Hev as <-. apply emit_run.
  - (* PaymentForwarded *)
    destruct prev_channel_id as [prev|], next_channel_id as [next|]; try done. injection Hev as <-.
    unfold payment_forwarded, mbind, cmd_bind.
    destruct (with_source _ x) as [x1 r1] eqn:H1. apply with_source_forward in H1 as [Hn ->].
    cbn. intros Hrun%emit_run. by eapply passed_on_node.
  - (* ChannelPending *)
    destruct former_temporary_channel_id as [former|]; [|done]. injection Hev as <-.
    unfold channel_pending, mbind, cmd_bind. cbn [lift expect].
    destruct (emit _ x) as [x1 r1] eqn:H1. apply emit_run in H1.
    destruct r1 as [[]|[]|]; [|by intros [= <- <-]..].
    destruct (find_channel v _ _) as [c|]; [|by intros [= <- <-]].
    destruct (is_outbound c); [by intros [= <- <-]|]. intros Hp.
    pose proof (persist_channel_peer_passed _ v counterparty _ _ H1) as Hpass. revert Hp Hpass.
    unfold persist_channel_peer, modify. by intros [= <- <-].
  - (* ChannelReady *)
    injection Hev as <-. unfold channel_ready, mbind, cmd_bind.
    destruct (with_source _ x) as [x1 r1] eqn:H1. apply with_source_forward in H1 as [Hn ->].
    intros Hrun%emit_run. by eapply passed_on_node.
  - (* ChannelClosed *) injection Hev as <-. apply emit_run.
  - (* SplicePending *) injection Hev as <-. apply emit_run.
  - (* SpliceFailed *)
    injection Hev as <-. unfold splice_failed, mbind, cmd_bind.
    destruct (on_node _ x) as [x1 [[]|[]|]] eqn:H1; apply cancel_tx_queue in H1 as [Hq He].
    + intros Hrun%emit_run. unfold passed_on in *. by rewrite Hq in Hrun.
    + intros [= <- <-]. by left.
    + intros [= <- <-]. done.
Qed.

(** ** Static invoices *)

(** A request for a static invoice, or to store one, that is over its sender's rate is
    not dropped: LDK is asked to hand the event out again, and again for as long as the
    limit holds; the invoice is neither looked up nor stored. *)
Theorem limited_request_replayed v e x x' r st limiter recipient :
  static_invoice_store x = Some st →
  (∃ invoice path slot persisted, e = PersistStaticInvoice invoice path slot recipient persisted ∧
     RateLimiter.RateLimiter.allow (now v) (now v) recipient
       (StaticInvoiceStore.persist_rate_limiter st) = (limiter, false)) ∨
  (∃ slot reply request, e = StaticInvoiceRequested recipient slot reply request ∧
     RateLimiter.RateLimiter.allow (now v) (now v) recipient
       (StaticInvoiceStore.request_rate_limiter st) = (limiter, false)) →
  handle_event v e x = (x', r) →
  r = Err Replay ∧ ldk x' = ldk x ∧ kv_of (node x') = kv_of (node x).
Proof.
  intros Hst [(invoice & path & slot & persisted & -> & Ha)|(slot & reply & request & -> & Ha)];
    cbn [handle_event]; unfold persist_static_invoice, static_invoice_requested, on_static_invoices;
    rewrite Hst; unfold StaticInvoiceStore.handle_persist_static_invoice,
      StaticInvoiceStore.handle_static_invoice_requested, StaticInvoiceStore.check_rate_limit; cbn;
    rewrite Ha; cbn; by intros [= <- <-].
Qed.
End handler.
End EventHandler.
