(* ===== verification/ChannelTypes.v ===== *)
(** * Channels as LDK and the node describe them ([src/types.rs], [src/config.rs])

    The channel configuration with its conversions to and from LDK's, the description of a
    channel given to the user, and what LDK says of a channel and its claims. *)

From S2P Require Import Prelude Errors KVStore DataStore Types PaymentStore Bdk AggTypes.
From S2P Require Import AggUtxo AggSigning AggRbf Aggregate AggBuild AggInvariant.
From S2P Require Import FeeEstimator Config WalletKeys Event NodeMetrics TxBroadcaster Wallet.
From S2P Require Import Broadcast WalletSend WalletUtxos OnchainPayment.

Module ChannelTypes.

(** ** The configuration of a channel *)

Inductive MaxDustHTLCExposure :=
| FixedLimit (limit_msat : Z)
| FeeRateMultiplier (multiplier : Z).
Inductive LdkMaxDustHTLCExposure :=
| LdkFixedLimitMsat (limit_msat : Z)
| LdkFeeRateMultiplier (multiplier : Z).

Definition exposure_from_ldk (value : LdkMaxDustHTLCExposure) : MaxDustHTLCExposure :=
  match value with
  | LdkFixedLimitMsat limit_msat => FixedLimit limit_msat
  | LdkFeeRateMultiplier multiplier => FeeRateMultiplier multiplier
  end.
Definition exposure_to_ldk (value : MaxDustHTLCExposure) : LdkMaxDustHTLCExposure :=
  match value with
  | FixedLimit limit_msat => LdkFixedLimitMsat limit_msat
  | FeeRateMultiplier multiplier => LdkFeeRateMultiplier multiplier
  end.

Record ChannelConfig := mkChannelConfig {
  forwarding_fee_proportional_millionths : Z;
  forwarding_fee_base_msat : Z;
  cltv_expiry_delta : Z;
  max_dust_htlc_exposure : MaxDustHTLCExposure;
  force_close_avoidance_max_fee_satoshis : Z;
  accept_underpaying_htlcs : bool;
}.
Record LdkChannelConfig := mkLdkChannelConfig {
  ldk_forwarding_fee_proportional_millionths : Z;
  ldk_forwarding_fee_base_msat : Z;
  ldk_cltv_expiry_delta : Z;
  ldk_max_dust_htlc_exposure : LdkMaxDustHTLCExposure;
  ldk_force_close_avoidance_max_fee_satoshis : Z;
  ldk_accept_underpaying_htlcs : bool;
}.

Definition config_from_ldk (value : LdkChannelConfig) : ChannelConfig := {|
  forwarding_fee_proportional_millionths := ldk_forwarding_fee_proportional_millionths value;
  forwarding_fee_base_msat := ldk_forwarding_fee_base_msat value;
  cltv_expiry_delta := ldk_cltv_expiry_delta value;
  max_dust_htlc_exposure := exposure_from_ldk (ldk_max_dust_htlc_exposure value);
  force_close_avoidance_max_fee_satoshis := ldk_force_close_avoidance_max_fee_satoshis value;
  accept_underpaying_htlcs := ldk_accept_underpaying_htlcs value;
|}.
Definition config_to_ldk (value : ChannelConfig) : LdkChannelConfig := {|
  ldk_forwarding_fee_proportional_millionths := forwarding_fee_proportional_millionths value;
  ldk_forwarding_fee_base_msat := forwarding_fee_base_msat value;
  ldk_cltv_expiry_delta := cltv_expiry_delta value;
  ldk_max_dust_htlc_exposure := exposure_to_ldk (max_dust_htlc_exposure value);
  ldk_force_close_avoidance_max_fee_satoshis := force_close_avoidance_max_fee_satoshis value;
  ldk_accept_underpaying_htlcs := accept_underpaying_htlcs value;
|}.

Lemma config_from_to_ldk c : config_from_ldk (config_to_ldk c) = c.
Proof. by destruct c as [? ? ? [] ? ?]. Qed.
Lemma config_to_from_ldk c : config_to_ldk (config_from_ldk c) = c.
Proof. by destruct c as [? ? ? [] ? ?]. Qed.

(** ** Channels *)

Record CounterpartyForwardingInfo := mkForwardingInfo {
  fee_base_msat : Z;
  fee_proportional_millionths : Z;
  forwarding_cltv_expiry_delta : Z;
}.
Record ChannelCounterparty := mkCounterparty {
  cp_node_id : PublicKey;
  cp_unspendable_punishment_reserve : Z;
  cp_outbound_htlc_minimum_msat : option Z;
  cp_outbound_htlc_maximum_msat : option Z;
  cp_forwarding_info : option CounterpartyForwardingInfo;
}.

(** LDK's [ChannelDetails]. *)
Record LdkChannelDetails := mkLdkChannelDetails {
  ldk_channel_id : ChannelId;
  ldk_counterparty : ChannelCounterparty;
  ldk_funding_txo : option OutPoint;
  ldk_requires_anchors : option bool;
  ldk_short_channel_id : option Z;
  ldk_outbound_scid_alias : option Z;
  ldk_inbound_scid_alias : option Z;
  ldk_channel_value_satoshis : Z;
  ldk_unspendable_punishment_reserve : option Z;
  ldk_user_channel_id : Z;
  ldk_feerate_sat_per_1000_weight : option Z;
  ldk_outbound_capacity_msat : Z;
  ldk_inbound_capacity_msat : Z;
  ldk_confirmations_required : option Z;
  ldk_confirmations : option Z;
  ldk_is_outbound : bool;
  ldk_is_channel_ready : bool;
  ldk_is_usable : bool;
  ldk_is_announced : bool;
  ldk_channel_shutdown_state : option ChannelShutdownState;
  ldk_next_outbound_htlc_limit_msat : Z;
  ldk_next_outbound_htlc_minimum_msat : Z;
  ldk_force_close_spend_delay : option Z;
  ldk_inbound_htlc_minimum_msat : option Z;
  ldk_inbound_htlc_maximum_msat : option Z;
  ldk_config : option LdkChannelConfig;
}.

(** What the anchor reserve depends on. *)
Definition reserve_view (c : LdkChannelDetails) : OnchainPayment.ChannelDetails :=
  mkChannelDetails (cp_node_id (ldk_counterparty c)) (ldk_channel_shutdown_state c)
    (ldk_requires_anchors c) (ldk_funding_txo c).

(** The node's [ChannelDetails]. *)
Record ChannelDetails := mkDetails {
  channel_id : ChannelId;
  counterparty_node_id : PublicKey;
  funding_txo : option OutPoint;
  short_channel_id : option Z;
  outbound_scid_alias : option Z;
  inbound_scid_alias : option Z;
  channel_value_sats : Z;
  unspendable_punishment_reserve : option Z;
  user_channel_id : Z;
  feerate_sat_per_1000_weight : Z;
  outbound_capacity_msat : Z;
  inbound_capacity_msat : Z;
  confirmations_required : option Z;
  confirmations : option Z;
  is_outbound : bool;
  is_channel_ready : bool;
  is_usable : bool;
  is_announced : bool;
  channel_cltv_expiry_delta : option Z;
  counterparty_unspendable_punishment_reserve : Z;
  counterparty_outbound_htlc_minimum_msat : option Z;
  counterparty_outbound_htlc_maximum_msat : option Z;
  counterparty_forwarding_info_fee_base_msat : option Z;
  counterparty_forwarding_info_fee_proportional_millionths : option Z;
  counterparty_forwarding_info_cltv_expiry_delta : option Z;
  next_outbound_htlc_limit_msat : Z;
  next_outbound_htlc_minimum_msat : Z;
  force_close_spend_delay : option Z;
  inbound_htlc_minimum_msat : Z;
  inbound_htlc_maximum_msat : option Z;
  config : ChannelConfig;
  claimable_on_close_sats : option Z;
}.

(** [From<LdkChannelDetails>] with [claimable_on_close_sats] set afterwards. *)
Definition from_ldk_with_balance {E} (value : LdkChannelDetails) (claimable : option Z) :
    outcome E ChannelDetails :=
  feerate ← expect (ldk_feerate_sat_per_1000_weight value);
  cfg ← expect (config_from_ldk <$> ldk_config value);
  let cp := ldk_counterparty value in
  Ok {| channel_id := ldk_channel_id value;
        counterparty_node_id := cp_node_id cp;
        funding_txo := ldk_funding_txo value;
        short_channel_id := ldk_short_channel_id value;
        outbound_scid_alias := ldk_outbound_scid_alias value;
        inbound_scid_alias := ldk_inbound_scid_alias value;
        channel_value_sats := ldk_channel_value_satoshis value;
        unspendable_punishment_reserve := ldk_unspendable_punishment_reserve value;
        user_channel_id := ldk_user_channel_id value;
        feerate_sat_per_1000_weight := feerate;
        outbound_capacity_msat := ldk_outbound_capacity_msat value;
        inbound_capacity_msat := ldk_inbound_capacity_msat value;
        confirmations_required := ldk_confirmations_required value;
        confirmations := ldk_confirmations value;
        is_outbound := ldk_is_outbound value;
        is_channel_ready := ldk_is_channel_ready value;
        is_usable := ldk_is_usable value;
        is_announced := ldk_is_announced value;
        channel_cltv_expiry_delta := ldk_cltv_expiry_delta <$> ldk_config value;
        counterparty_unspendable_punishment_reserve := cp_unspendable_punishment_reserve cp;
        counterparty_outbound_htlc_minimum_msat := cp_outbound_htlc_minimum_msat cp;
        counterparty_outbound_htlc_maximum_msat := cp_outbound_htlc_maximum_msat cp;
        counterparty_forwarding_info_fee_base_msat := fee_base_msat <$> cp_forwarding_info cp;
        counterparty_forwarding_info_fee_proportional_millionths :=
          fee_proportional_millionths <$> cp_forwarding_info cp;
        counterparty_forwarding_info_cltv_expiry_delta :=
          forwarding_cltv_expiry_delta <$> cp_forwarding_info cp;
        next_outbound_htlc_limit_msat := ldk_next_outbound_htlc_limit_msat value;
        next_outbound_htlc_minimum_msat := ldk_next_outbound_htlc_minimum_msat value;
        force_close_spend_delay := ldk_force_close_spend_delay value;
        inbound_htlc_minimum_msat := default 0 (ldk_inbound_htlc_minimum_msat value);
        inbound_htlc_maximum_msat := ldk_inbound_htlc_maximum_msat value;
        config := cfg;
        claimable_on_close_sats := claimable |}.

(** Whether LDK's description has what is unwrapped. *)
Definition complete (value : LdkChannelDetails) : Prop :=
  is_Some (ldk_feerate_sat_per_1000_weight value) ∧ is_Some (ldk_config value).

Lemma from_ldk_complete {E} value claimable :
  complete value → ∃ d, from_ldk_with_balance (E := E) value claimable = Ok d ∧
    channel_id d = ldk_channel_id value ∧ claimable_on_close_sats d = claimable.
Proof.
  intros [[feerate Hf] [cfg Hc]]. unfold from_ldk_with_balance. rewrite Hf, Hc. cbn. eauto.
Qed.

(** ** Peers *)

Record PeerDetails {SocketAddress : Type} := mkPeerDetails {
  peer_node_id : PublicKey;
  peer_address : SocketAddress;
  is_persisted : bool;
  is_connected : bool;
}.
Arguments PeerDetails : clear implicits.
End ChannelTypes.
