(* ===== verification/Balances.v ===== *)
(** * Balances, channels and peers as listed to the user ([src/balance.rs], [src/lib.rs])

    What LDK's monitors and sweeper hold, turned into the node's own description of its
    balances, and the lists of channels and peers.  LDK's answers are inputs. *)

From S2P Require Import Prelude Errors KVStore Codec DataStore Types PaymentStore Bdk AggTypes.
From S2P Require Import AggUtxo AggSigning AggRbf Aggregate AggBuild AggInvariant.
From S2P Require Import FeeEstimator Config WalletKeys Event NodeMetrics TxBroadcaster Wallet.
From S2P Require Import Broadcast WalletSend WalletUtxos OnchainPayment PeerStore ChannelTypes.

Module Balances.
Import ChannelTypes.

(** ** Claims on channels *)

Inductive BalanceSource :=
| HolderForceClosed | CounterpartyForceClosed | CoopClose | HtlcSource.

Record HolderCommitmentTransactionBalance := mkCandidate {
  candidate_amount_satoshis : Z;
  candidate_transaction_fee_satoshis : Z;
}.

(** [lightning::chain::channelmonitor::Balance] *)
Inductive LdkBalance :=
| LdkClaimableOnChannelClose (balance_candidates : list HolderCommitmentTransactionBalance)
    (confirmed_balance_candidate_index : nat)
    (outbound_payment_htlc_rounded_msat outbound_forwarded_htlc_rounded_msat
     inbound_claiming_htlc_rounded_msat inbound_htlc_rounded_msat : Z)
| LdkClaimableAwaitingConfirmations (amount_satoshis confirmation_height : Z)
    (source : BalanceSource)
| LdkContentiousClaimable (amount_satoshis timeout_height : Z) (payment_hash : PaymentHash)
    (payment_preimage : PaymentPreimage)
| LdkMaybeTimeoutClaimableHTLC (amount_satoshis claimable_height : Z) (payment_hash : PaymentHash)
    (outbound_payment : bool)
| LdkMaybePreimageClaimableHTLC (amount_satoshis expiry_height : Z) (payment_hash : PaymentHash)
| LdkCounterpartyRevokedOutputClaimable (amount_satoshis : Z).

Inductive LightningBalance :=
| ClaimableOnChannelClose (channel_id : ChannelId) (counterparty_node_id : PublicKey)
    (amount_satoshis transaction_fee_satoshis outbound_payment_htlc_rounded_msat
     outbound_forwarded_htlc_rounded_msat inbound_claiming_htlc_rounded_msat
     inbound_htlc_rounded_msat : Z)
| ClaimableAwaitingConfirmations (channel_id : ChannelId) (counterparty_node_id : PublicKey)
    (amount_satoshis confirmation_height : Z) (source : BalanceSource)
| ContentiousClaimable (channel_id : ChannelId) (counterparty_node_id : PublicKey)
    (amount_satoshis timeout_height : Z) (payment_hash : PaymentHash)
    (payment_preimage : PaymentPreimage)
| MaybeTimeoutClaimableHTLC (channel_id : ChannelId) (counterparty_node_id : PublicKey)
    (amount_satoshis claimable_height : Z) (payment_hash : PaymentHash) (outbound_payment : bool)
| MaybePreimageClaimableHTLC (channel_id : ChannelId) (counterparty_node_id : PublicKey)
    (amount_satoshis expiry_height : Z) (payment_hash : PaymentHash)
| CounterpartyRevokedOutputClaimable (channel_id : ChannelId) (counterparty_node_id : PublicKey)
    (amount_satoshis : Z).

Definition from_ldk_balance {E} (channel_id : ChannelId) (counterparty_node_id : PublicKey)
    (balance : LdkBalance) : outcome E LightningBalance :=
  match balance with
  | LdkClaimableOnChannelClose candidates index outbound_payment outbound_forwarded
      inbound_claiming inbound =>
      balance ← expect (candidates !! index);
      Ok (ClaimableOnChannelClose channel_id counterparty_node_id
            (candidate_amount_satoshis balance) (candidate_transaction_fee_satoshis balance)
            outbound_payment outbound_forwarded inbound_claiming inbound)
  | LdkClaimableAwaitingConfirmations amount height source =>
      Ok (ClaimableAwaitingConfirmations channel_id counterparty_node_id amount height source)
  | LdkContentiousClaimable amount height hash preimage =>
      Ok (ContentiousClaimable channel_id counterparty_node_id amount height hash preimage)
  | LdkMaybeTimeoutClaimableHTLC amount height hash outbound_payment =>
      Ok (MaybeTimeoutClaimableHTLC channel_id counterparty_node_id amount height hash
            outbound_payment)
  | LdkMaybePreimageClaimableHTLC amount height hash =>
      Ok (MaybePreimageClaimableHTLC channel_id counterparty_node_id amount height hash)
  | LdkCounterpartyRevokedOutputClaimable amount =>
      Ok (CounterpartyRevokedOutputClaimable channel_id counterparty_node_id amount)
  end.

(** ** Outputs being swept *)

Inductive SpendableOutputDescriptor :=
| StaticOutput (output : TxOut)
| DelayedPaymentOutput (output : TxOut)
| StaticPaymentOutput (output : TxOut).

Definition value_from_descriptor (descriptor : SpendableOutputDescriptor) : Amount :=
  match descriptor with
  | StaticOutput output | DelayedPaymentOutput output | StaticPaymentOutput output => value output
  end.

Inductive OutputSpendStatus :=
| PendingInitialBroadcast
| PendingFirstConfirmation (latest_broadcast_height : Z) (latest_spending_tx : Transaction)
| PendingThresholdConfirmations (latest_spending_tx : Transaction)
    (confirmation_height : Z) (confirmation_hash : BlockHash).
Record TrackedSpendableOutput := mkTracked {
  descriptor : SpendableOutputDescriptor;
  tracked_channel_id : option ChannelId;
  spend_status : OutputSpendStatus;
}.

Inductive PendingSweepBalance :=
| PendingBroadcast (channel_id : option ChannelId) (amount_satoshis : Z)
| BroadcastAwaitingConfirmation (channel_id : option ChannelId) (latest_broadcast_height : Z)
    (latest_spending_txid : Txid) (amount_satoshis : Z)
| AwaitingThresholdConfirmations (channel_id : option ChannelId) (latest_spending_txid : Txid)
    (confirmation_hash : BlockHash) (confirmation_height amount_satoshis : Z).

Section balances.
Context {BTC : Bitcoin}.

Definition from_tracked_spendable_output (output_info : TrackedSpendableOutput) :
    PendingSweepBalance :=
  let channel_id := tracked_channel_id output_info in
  let amount_satoshis := value_from_descriptor (descriptor output_info) in
  match spend_status output_info with
  | PendingInitialBroadcast => PendingBroadcast channel_id amount_satoshis
  | PendingFirstConfirmation latest_broadcast_height latest_spending_tx =>
      BroadcastAwaitingConfirmation channel_id latest_broadcast_height
        (compute_txid latest_spending_tx) amount_satoshis
  | PendingThresholdConfirmations latest_spending_tx confirmation_height confirmation_hash =>
      AwaitingThresholdConfirmations channel_id (compute_txid latest_spending_tx)
        confirmation_hash confirmation_height amount_satoshis
  end.
End balances.

(** ** The overview *)

(** What the chain monitor holds: the channels with a monitor, the monitors that are
    found, and LDK's [Balance::claimable_amount_satoshis]. *)
Record chain_monitor := mkChainMonitor {
  list_monitors : list ChannelId;
  get_monitor : ChannelId → option (PublicKey * list LdkBalance);
}.
Implicit Types (m : chain_monitor).

Record BalanceDetails := mkBalanceDetails {
  total_onchain_balance_sats : Z;
  spendable_onchain_balance_sats : Z;
  total_anchor_channels_reserve_sats : Z;
  total_lightning_balance_sats : Z;
  lightning_balances : list LightningBalance;
  pending_balances_from_channel_closures : list PendingSweepBalance;
}.

(** ** Channels *)

(** [*claimable_map.entry(channel_id).or_insert(0) += amount] *)
Definition claim_on_close (channel_id : ChannelId) (claims : gmap ChannelId Z)
    (balance : LdkBalance) : gmap ChannelId Z :=
  match balance with
  | LdkClaimableOnChannelClose candidates index _ _ _ _ =>
      match candidates !! index with
      | Some confirmed =>
          <[channel_id := wrap64 (default 0 (claims !! channel_id)
                                    + candidate_amount_satoshis confirmed)]> claims
      | None => claims
      end
  | _ => claims
  end.
Definition claims_of_monitor m (claims : gmap ChannelId Z) (channel_id : ChannelId) :
    gmap ChannelId Z :=
  match get_monitor m channel_id with
  | Some (_, balances) => foldl (claim_on_close channel_id) claims balances
  | None => claims
  end.
Definition claimable_map m : gmap ChannelId Z := foldl (claims_of_monitor m) ∅ (list_monitors m).

Definition list_channels {E} m (channels : list LdkChannelDetails) :
    outcome E (list ChannelTypes.ChannelDetails) :=
  try_map (λ c, from_ldk_with_balance c (claimable_map m !! ldk_channel_id c)) channels.

(** ** What the list of channels says *)

(** The confirmed amount of each claim on close of a monitor, and their sum. *)
Definition confirmed_claim (b : LdkBalance) : option Z :=
  match b with
  | LdkClaimableOnChannelClose candidates index _ _ _ _ =>
      candidate_amount_satoshis <$> candidates !! index
  | _ => None
  end.
Definition confirmed_claims m (i : ChannelId) : list Z :=
  match get_monitor m i with Some (_, bs) => omap confirmed_claim bs | None => [] end.
Definition claimable_on_close m (i : ChannelId) : option Z :=
  match confirmed_claims m i with [] => None | cs => Some (wrap64 (sum_Z cs)) end.

Lemma foldl_claim_on_close (i : ChannelId) (bs : list LdkBalance) (cl : gmap ChannelId Z) (j : ChannelId) :
  (∀ z, cl !! i = Some z → is_u64 z) →
  foldl (claim_on_close i) cl bs !! j =
  if decide (i = j) then
    match omap confirmed_claim bs with
    | [] => cl !! i
    | cs => Some (wrap64 (default 0 (cl !! i) + sum_Z cs))
    end
  else cl !! j.
Proof.
  revert cl. induction bs as [|b bs IH]; intros cl Hcl; cbn.
  { by case_decide; subst. }
  assert (claim_on_close i cl b = match confirmed_claim b with
    | Some z => <[i := wrap64 (default 0 (cl !! i) + z)]> cl | None => cl end) as ->.
  { destruct b as [candidates index| | | | |]; cbn; try done. by destruct (candidates !! index). }
  destruct (confirmed_claim b) as [z|]; [|by apply IH]. rewrite IH.
  2:{ intros z' [= <-]%lookup_insert_rev. apply wrap64_range. }
  case_decide as Hij; [|by rewrite lookup_insert_ne by done].
  rewrite lookup_insert_eq. unfold default, sum_Z. cbn.
  destruct (omap confirmed_claim bs) as [|c cs]; cbn; f_equal; [f_equal; lia|].
  unfold wrap64. rewrite Zplus_mod_idemp_l. f_equal. lia.
Qed.

Lemma claimable_map_lookup m i :
  NoDup (list_monitors m) →
  claimable_map m !! i = if decide (i ∈ list_monitors m) then claimable_on_close m i else None.
Proof.
  unfold claimable_map. intros Hnd.
  assert (∀ cl : gmap ChannelId Z, (∀ j, j ∈ list_monitors m → cl !! j = None) →
    foldl (claims_of_monitor m) cl (list_monitors m) !! i =
    if decide (i ∈ list_monitors m) then claimable_on_close m i else cl !! i) as Hg.
  2:{ rewrite Hg by (intros; apply lookup_empty). by rewrite lookup_empty. }
  induction Hnd as [|j js Hj Hnd IH]; intros cl Hcl; cbn.
  { by rewrite decide_False by set_solver. }
  assert (∀ k, claims_of_monitor m cl j !! k =
    if decide (j = k) then claimable_on_close m j else cl !! k) as Hk.
  { intros k. unfold claims_of_monitor, claimable_on_close, confirmed_claims.
    pose proof (Hcl j ltac:(set_solver)) as Hn.
    destruct (get_monitor m j) as [[cp bs]|]; [rewrite foldl_claim_on_close by congruence; rewrite Hn|];
      destruct (decide (j = k)) as [<-|]; done. }
  rewrite IH.
  2:{ intros k Hkj. rewrite Hk, decide_False by (intros ->; done). apply Hcl. set_solver. }
  rewrite Hk. destruct (decide (i ∈ js)); [by rewrite decide_True by set_solver|].
  destruct (decide (j = i)) as [<-|]; [by rewrite decide_True by set_solver|].
  by rewrite decide_False by set_solver.
Qed.

Section overview.
Context (claimable_amount_satoshis : LdkBalance → Z).

(** One round of the inner loop. *)
Definition count_balance {E} (channel_id : ChannelId) (counterparty_node_id : PublicKey)
    (acc : Z * list LightningBalance) (ldk_balance : LdkBalance) :
    outcome E (Z * list LightningBalance) :=
  let total := wrap64 (acc.1 + claimable_amount_satoshis ldk_balance) in
  balance ← from_ldk_balance channel_id counterparty_node_id ldk_balance;
  Ok (total, acc.2 ++ [balance]).
Definition count_monitor {E} m (acc : Z * list LightningBalance) (channel_id : ChannelId) :
    outcome E (Z * list LightningBalance) :=
  match get_monitor m channel_id with
  | Some (counterparty_node_id, claimable) =>
      try_fold (count_balance channel_id counterparty_node_id) acc claimable
  | None => Ok acc
  end.
Definition count_lightning {E} m : outcome E (Z * list LightningBalance) :=
  try_fold (count_monitor m) (0, []) (list_monitors m).

Context {S : Type} {O : IterOrder OnchainWalletAccount}.
Context {BTC : Bitcoin} {W P U BdkEv : Type} {BDK : Bdk W P U BdkEv} {D SocketAddress : Type}.
Abbreviation Wal := (Wallet.Wallet S W P D).

Definition list_balances {E} (channels : list LdkChannelDetails) (config : Config SocketAddress) m
    (tracked : list TrackedSpendableOutput) (s : Wal) : outcome E BalanceDetails :=
  let cur_anchor_reserve_sats :=
    OnchainPayment.total_anchor_channels_reserve_sats (reserve_view <$> channels) config in
  '(total, spendable) ← match Wallet.get_balances cur_anchor_reserve_sats s with
                        | Ok b => Ok b
                        | Err _ => Ok (0, 0)
                        | Panic => Panic
                        end;
  '(total_lightning, lightning) ← count_lightning m;
  Ok {| total_onchain_balance_sats := total;
        spendable_onchain_balance_sats := spendable;
        total_anchor_channels_reserve_sats := Z.min cur_anchor_reserve_sats total;
        total_lightning_balance_sats := total_lightning;
        lightning_balances := lightning;
        pending_balances_from_channel_closures := from_tracked_spendable_output <$> tracked |}.

(** [get_balance_for_address_type] and [get_balance_for_onchain_wallet_account] *)
Record AddressTypeBalance := mkAddressTypeBalance { total_sats : Z; spendable_sats : Z }.
Definition get_balance_for_address_type (t : AddressType) (s : Wal) :
    outcome Error AddressTypeBalance :=
  '(total, spendable) ← Wallet.get_balance_for_address_type t s;
  Ok (mkAddressTypeBalance total spendable).
Definition get_balance_for_onchain_wallet_account (a : OnchainWalletAccount) (s : Wal) :
    outcome Error AddressTypeBalance :=
  '(total, spendable) ← Wallet.get_balance_for_onchain_wallet_account a s;
  Ok (mkAddressTypeBalance total spendable).

(** ** What the overview says *)

(** Everything the monitors claim, in the order it is listed. *)
Definition claims m : list (ChannelId * PublicKey * LdkBalance) :=
  list_monitors m ≫= λ channel_id,
    match get_monitor m channel_id with
    | Some (counterparty_node_id, claimable) =>
        (λ b, (channel_id, counterparty_node_id, b)) <$> claimable
    | None => []
    end.
(** What the user is to read of a claim of LDK's: the channel and the counterparty it is
    against, of a channel that is open the amount and the fee of the commitment transaction
    that is confirmed among the candidates, and everything else as LDK has it. *)
Inductive reads_as (i : ChannelId) (cp : PublicKey) : LdkBalance → LightningBalance → Prop :=
| reads_on_close before after amount fee payment forwarded claiming inbound :
    reads_as i cp
      (LdkClaimableOnChannelClose (before ++ mkCandidate amount fee :: after) (length before)
         payment forwarded claiming inbound)
      (ClaimableOnChannelClose i cp amount fee payment forwarded claiming inbound)
| reads_awaiting amount height source :
    reads_as i cp (LdkClaimableAwaitingConfirmations amount height source)
      (ClaimableAwaitingConfirmations i cp amount height source)
| reads_contentious amount height hash preimage :
    reads_as i cp (LdkContentiousClaimable amount height hash preimage)
      (ContentiousClaimable i cp amount height hash preimage)
| reads_timeout amount height hash outbound :
    reads_as i cp (LdkMaybeTimeoutClaimableHTLC amount height hash outbound)
      (MaybeTimeoutClaimableHTLC i cp amount height hash outbound)
| reads_preimage amount height hash :
    reads_as i cp (LdkMaybePreimageClaimableHTLC amount height hash)
      (MaybePreimageClaimableHTLC i cp amount height hash)
| reads_revoked amount :
    reads_as i cp (LdkCounterpartyRevokedOutputClaimable amount)
      (CounterpartyRevokedOutputClaimable i cp amount).
(** LDK names a candidate that does not exist. *)
Definition misnamed (b : LdkBalance) : Prop :=
  ∃ candidates index payment forwarded claiming inbound,
    b = LdkClaimableOnChannelClose candidates index payment forwarded claiming inbound ∧
    (length candidates ≤ index)%nat.

Lemma from_ldk_balance_reads {E} i cp b :
  match from_ldk_balance (E := E) i cp b with
  | Ok l => reads_as i cp b l
  | Err _ => False
  | Panic => misnamed b
  end.
Proof.
  destruct b as [candidates index payment forwarded claiming inbound| | | | |]; cbn; try constructor.
  destruct (candidates !! index) as [[amount fee]|] eqn:Hc; cbn.
  - apply list_elem_of_split_length in Hc as (before & after & -> & ->). constructor.
  - exists candidates, index, payment, forwarded, claiming, inbound. by rewrite <- lookup_ge_None.
Qed.

(** What the user is to read of an output that is swept: its channel, its value, and how
    far its last spending transaction is. *)
Definition sweep_reads_as `{Bitcoin} (o : TrackedSpendableOutput) (p : PendingSweepBalance) : Prop :=
  ∃ out, (descriptor o = StaticOutput out ∨ descriptor o = DelayedPaymentOutput out ∨
          descriptor o = StaticPaymentOutput out) ∧
  match p with
  | PendingBroadcast i amount =>
      i = tracked_channel_id o ∧ amount = value out ∧ spend_status o = PendingInitialBroadcast
  | BroadcastAwaitingConfirmation i height t amount =>
      i = tracked_channel_id o ∧ amount = value out ∧
      ∃ tx, spend_status o = PendingFirstConfirmation height tx ∧ t = compute_txid tx
  | AwaitingThresholdConfirmations i t hash height amount =>
      i = tracked_channel_id o ∧ amount = value out ∧
      ∃ tx, spend_status o = PendingThresholdConfirmations tx height hash ∧ t = compute_txid tx
  end.

Lemma from_tracked_reads `{Bitcoin} o : sweep_reads_as o (from_tracked_spendable_output o).
Proof.
  destruct o as [d i st]. unfold sweep_reads_as, from_tracked_spendable_output. cbn.
  destruct d as [out|out|out]; exists out; (split; [by auto|]); destruct st; cbn; eauto 10.
Qed.

(** The amounts that the overview lists as claimable on closing a channel. *)
Definition listed_on_close (i : ChannelId) : list LightningBalance → list Z :=
  omap (λ l, match l with
             | ClaimableOnChannelClose j _ amount _ _ _ _ _ => if decide (j = i) then Some amount else None
             | _ => None
             end).

Lemma listed_on_close_claims i cp bs ls j :
  Forall2 (reads_as i cp) bs ls →
  listed_on_close j ls = if decide (i = j) then omap confirmed_claim bs else [].
Proof.
  induction 1 as [|b l bs ls Hbl _ IH]; cbn; [by case_decide|]. rewrite IH.
  destruct Hbl; cbn; try done. rewrite list_lookup_middle by done. cbn. by case_decide.
Qed.

Lemma listed_on_close_all m js ls i :
  NoDup js →
  Forall2 (λ claim l, reads_as claim.1.1 claim.1.2 claim.2 l)
    (js ≫= λ j, match get_monitor m j with Some (cp, bs) => (λ b, (j, cp, b)) <$> bs | None => [] end) ls →
  listed_on_close i ls = if decide (i ∈ js) then confirmed_claims m i else [].
Proof.
  intros Hnd. revert ls. induction Hnd as [|j js Hj Hnd IH]; intros ls; cbn [mbind list_bind].
  { intros ->%Forall2_nil_inv_l. done. }
  intros (l1 & l2 & H1 & H2 & ->)%Forall2_app_inv_l. unfold listed_on_close. rewrite omap_app.
  fold (listed_on_close i l1) (listed_on_close i l2). rewrite (IH _ H2).
  assert (listed_on_close i l1 = if decide (j = i) then confirmed_claims m i else []) as ->.
  { unfold confirmed_claims. destruct (get_monitor m j) as [[cp bs]|] eqn:Hm.
    - apply Forall2_fmap_l in H1. rewrite (listed_on_close_claims j cp bs l1 i H1).
      destruct (decide (j = i)) as [<-|]; [by rewrite Hm|done].
    - apply Forall2_nil_inv_l in H1 as ->. cbn. destruct (decide (j = i)) as [<-|]; [by rewrite Hm|done]. }
  destruct (decide (j = i)) as [<-|].
  - rewrite (decide_False (P := j ∈ js)), decide_True, app_nil_r by set_solver. done.
  - destruct (decide (i ∈ js)); [rewrite decide_True by set_solver|rewrite decide_False by set_solver]; done.
Qed.

Definition claimed (claim : ChannelId * PublicKey * LdkBalance) : Z :=
  claimable_amount_satoshis claim.2.

Definition count_claim {E} (acc : Z * list LightningBalance)
    (claim : ChannelId * PublicKey * LdkBalance) : outcome E (Z * list LightningBalance) :=
  count_balance claim.1.1 claim.1.2 acc claim.2.

Lemma try_fold_fmap {E A B C} (f : B → A → outcome E B) (g : C → A) acc xs :
  try_fold f acc (g <$> xs) = try_fold (λ acc x, f acc (g x)) acc xs.
Proof.
  revert acc. induction xs as [|x xs IH]; intros acc; [done|]. cbn. destruct (f acc (g x)); cbn; [apply IH|done..].
Qed.
Lemma try_fold_bind {E A B C} (f : B → A → outcome E B) (g : C → list A) acc xs :
  try_fold f acc (xs ≫= g) = try_fold (λ acc x, try_fold f acc (g x)) acc xs.
Proof.
  revert acc. induction xs as [|x xs IH]; intros acc; [done|].
  cbn [mbind list_bind]. rewrite try_fold_app. cbn [try_fold].
  destruct (try_fold f acc (g x)); cbn; [apply IH|done..].
Qed.

Lemma count_lightning_flat {E} m :
  count_lightning (E := E) m = try_fold count_claim (0, []) (claims m).
Proof.
  unfold claims. rewrite try_fold_bind. unfold count_lightning. apply try_fold_ext. intros acc i.
  unfold count_monitor. destruct (get_monitor m i) as [[cp bs]|]; [|done]. by rewrite try_fold_fmap.
Qed.
Lemma count_claims {E} total ls cs :
  try_fold (E := E) count_claim (total, ls) cs =
  (λ l, (wrapping_sum total (claimed <$> cs), ls ++ l)) <$> try_map (λ claim, from_ldk_balance claim.1.1 claim.1.2 claim.2) cs.
Proof.
  revert total ls. induction cs as [|c cs IH]; intros total ls; [cbn; by rewrite app_nil_r|].
  cbn [try_fold try_map].
  assert (count_claim (E := E) (total, ls) c =
    (λ l, (wrap64 (total + claimed c), ls ++ [l])) <$> from_ldk_balance c.1.1 c.1.2 c.2) as -> by done.
  destruct (from_ldk_balance c.1.1 c.1.2 c.2) as [l|e|]; cbn; [|done..]. rewrite IH.
  destruct (try_map _ cs); cbn; [|done..]. by rewrite <- app_assoc.
Qed.

Lemma balance_nonneg s b :
  (∀ k w, AggregateWallet.wallets (Wallet.inner s) !! k = Some w →
     AggregateWallet.nonneg_balance (balance_of w)) →
  AggregateWallet.balance (Wallet.inner (s : Wal)) = Ok b → AggregateWallet.nonneg_balance b.
Proof.
  intros Hn. unfold AggregateWallet.balance.
  assert (Forall (λ w, AggregateWallet.nonneg_balance (balance_of w))
    (values (AggregateWallet.wallets (Wallet.inner s)))) as Hws.
  { apply Forall_forall. intros w [k Hk]%elem_of_values. eauto. }
  assert (AggregateWallet.nonneg_balance AggregateWallet.zero_balance) as Hz
    by (unfold AggregateWallet.nonneg_balance; cbn; lia).
  revert Hz. generalize AggregateWallet.zero_balance.
  induction Hws as [|w ws Hw Hws IH]; intros acc Hacc; cbn [try_fold]; [by intros [= <-]|].
  destruct (AggregateWallet.add_balance acc (balance_of w)) as [d|e|] eqn:Hd; [|done..].
  apply IH. apply AggregateWallet.add_balance_Ok in Hd as [-> _].
  unfold AggregateWallet.nonneg_balance in *. cbn. lia.
Qed.

(** The reserve is taken from what is spendable, and both from the total. *)
Lemma get_balances_split reserve (s : Wal) total spendable :
  (∀ k w, AggregateWallet.wallets (Wallet.inner s) !! k = Some w →
     AggregateWallet.nonneg_balance (balance_of w)) →
  0 ≤ reserve → Wallet.get_balances reserve s = Ok (total, spendable) →
  0 ≤ total ∧ 0 ≤ spendable ∧ spendable + Z.min reserve total ≤ total.
Proof.
  intros Hn Hr. unfold Wallet.get_balances.
  destruct (AggregateWallet.balance (Wallet.inner s)) as [b|e|] eqn:Hb; [|done..]. cbn.
  apply balance_nonneg in Hb as (? & ? & ? & ?); [|done].
  unfold Wallet.get_balances_inner, Wallet.trusted_spendable, Wallet.total.
  intros Hrun. inv_outcome.
  repeat match goal with H : amount_add _ _ = Ok _ |- _ => apply amount_add_Ok in H as [? ->] end.
  unfold saturating_sub. case_match; rewrite ?wrap64_small by (unfold is_u64; lia); lia.
Qed.

(** C38. The overview of balances is exact: every claim of every monitor is listed once and
    in order and reads as what it is, with the channel it is against and the amount and fee
    of the confirmed commitment transaction; the Lightning total is LDK's sum of the claims
    (modulo 2^64); the amounts listed as claimable on closing a channel add up to what the
    list of channels says of that channel; every output that is swept is listed with its
    value and the state of its spending transaction; the on-chain figures are the wallets',
    zero where those cannot tell, and of the on-chain total what is called spendable and what
    is reserved for anchor channels never overlap.  It fails only where a
    sum of on-chain balances overflows or LDK names a balance candidate that does not exist.
    No balance of a wallet is negative. *)
Theorem balances_exact channels config m tracked (s : Wal) (r : outcome Error BalanceDetails) :
  (∀ k w, AggregateWallet.wallets (Wallet.inner s) !! k = Some w →
     AggregateWallet.nonneg_balance (balance_of w)) →
  list_balances channels config m tracked s = r →
  let reserve := OnchainPayment.total_anchor_channels_reserve_sats (reserve_view <$> channels) config in
  match r with
  | Ok d =>
      Forall2 (λ claim l, reads_as claim.1.1 claim.1.2 claim.2 l) (claims m) (lightning_balances d) ∧
      total_lightning_balance_sats d = wrap64 (sum_Z (claimed <$> claims m)) ∧
      (NoDup (list_monitors m) → ∀ i, claimable_map m !! i =
         match listed_on_close i (lightning_balances d) with
         | [] => None
         | amounts => Some (wrap64 (sum_Z amounts))
         end) ∧
      Forall2 sweep_reads_as tracked (pending_balances_from_channel_closures d) ∧
      (total_onchain_balance_sats d, spendable_onchain_balance_sats d) =
        default (0, 0) (ok (Wallet.get_balances reserve s)) ∧
      total_anchor_channels_reserve_sats d = Z.min reserve (total_onchain_balance_sats d) ∧
      0 ≤ total_anchor_channels_reserve_sats d ∧ 0 ≤ spendable_onchain_balance_sats d ∧
      spendable_onchain_balance_sats d + total_anchor_channels_reserve_sats d
        ≤ total_onchain_balance_sats d
  | Err _ => False
  | Panic => Wallet.get_balances reserve s = Panic ∨
             ∃ claim, claim ∈ claims m ∧ misnamed claim.2
  end.
Proof.
  intros Hn <- reserve. unfold list_balances. fold reserve.
  assert (0 ≤ reserve) as Hr.
  { unfold reserve, OnchainPayment.total_anchor_channels_reserve_sats.
    case_match; [apply wrap64_range|done]. }
  assert (∃ total spendable, (match Wallet.get_balances reserve s with
      | Ok b => Ok b | Err _ => Ok (0, 0) | Panic => Panic end) = Ok (E := Error) (total, spendable) ∧
      (total, spendable) = default (0, 0) (ok (Wallet.get_balances reserve s)) ∧
      0 ≤ total ∧ 0 ≤ spendable ∧ spendable + Z.min reserve total ≤ total
    ∨ Wallet.get_balances reserve s = Panic) as (total & spendable & [(-> & ? & ? & ? & ?)|Hp]).
  { destruct (Wallet.get_balances reserve s) as [[total spendable]|e|] eqn:Hb.
    - exists total, spendable. left. apply get_balances_split in Hb as (? & ? & ?); [|done..].
      by split_and!.
    - exists 0, 0. left. split_and!; [done..|]. lia.
    - exists 0, 0. by right. }
  2:{ rewrite Hp. cbn. eauto. }
  cbn. rewrite count_lightning_flat, count_claims.
  destruct (try_map _ (claims m)) as [l|e|] eqn:Hl; cbn.
  - apply try_map_Ok in Hl. assert (Forall2 (λ claim l, reads_as claim.1.1 claim.1.2 claim.2 l) (claims m) l) as Hd.
    { eapply Forall2_impl; [exact Hl|]. intros [[i cp] b] x Hx.
      pose proof (from_ldk_balance_reads (E := Error) i cp b) as Hb. cbn in *. by rewrite Hx in Hb. }
    split_and!; [done|by rewrite wrapping_sum_eq| |apply Forall2_fmap_r, Forall_Forall2_diag|done|lia..].
    + intros Hnd i. rewrite claimable_map_lookup, (listed_on_close_all m _ _ i Hnd Hd) by done.
      by case_decide.
    + apply Forall_true. intros. apply from_tracked_reads.
  - apply try_map_Err in Hl as ([[i cp] b] & _ & Hd).
    pose proof (from_ldk_balance_reads (E := Error) i cp b) as Hb. cbn in *. by rewrite Hd in Hb.
  - right. apply try_map_Panic in Hl as ([[i cp] b] & Hin & Hd). exists (i, cp, b). split; [done|].
    pose proof (from_ldk_balance_reads (E := Error) i cp b) as Hb. cbn in *. by rewrite Hd in Hb.
Qed.

End overview.

(** Every channel is listed, in LDK's order, with what its monitor says is claimable if it
    is closed now: nothing if it has no such claim. *)
Theorem channels_listed m channels :
  NoDup (list_monitors m) → Forall complete channels →
  ∃ ds, list_channels (E := Error) m channels = Ok ds ∧
    Forall2 (λ c d, ChannelTypes.channel_id d = ldk_channel_id c ∧
      claimable_on_close_sats d =
        if decide (ldk_channel_id c ∈ list_monitors m)
        then claimable_on_close m (ldk_channel_id c) else None) channels ds.
Proof.
  intros Hnd Hc. unfold list_channels.
  destruct (try_map_total (λ c, from_ldk_with_balance (E := Error) c
    (claimable_map m !! ldk_channel_id c)) channels) as [ds Hds].
  - intros c Hin. rewrite Forall_forall in Hc.
    destruct (from_ldk_complete (E := Error) c (claimable_map m !! ldk_channel_id c) (Hc c Hin))
      as (d & Hd & _). eauto.
  - exists ds. split; [done|]. apply try_map_Ok in Hds.
    induction Hds as [|c d cs ds Hd _ IH]; [constructor|]. inversion Hc; subst. constructor; [|auto].
    destruct (from_ldk_complete (E := Error) c (claimable_map m !! ldk_channel_id c)) as (d' & Hd' & Hid & Hcl);
      [done|]. rewrite Hd in Hd'. injection Hd' as <-. by rewrite Hid, Hcl, claimable_map_lookup.
Qed.

Section peers.
Context {S SocketAddress : Type}.

(** ** Peers *)

(** The connected peers with the address of the connection, if it is known. *)
Definition connected_details (stored : PublicKey → option SocketAddress)
    (peer : PublicKey * option SocketAddress) : option (PeerDetails SocketAddress) :=
  let '(node_id, con_addr) := peer in
  let stored_addr := stored node_id in
  match con_addr, stored_addr with
  | Some addr, _ | None, Some addr =>
      Some {| peer_node_id := node_id; peer_address := addr;
              is_persisted := bool_decide (is_Some stored_addr); is_connected := true |}
  | None, None => None
  end.

Context {OP : IterOrder PublicKey}.

Fixpoint add_offline (connected_peers_len : nat) (peers : list (PeerDetails SocketAddress))
    (known : list (PeerStore.PeerInfo SocketAddress)) : list (PeerDetails SocketAddress) :=
  match known with
  | [] => peers
  | p :: known =>
      if existsb (λ d, bool_decide (peer_node_id d = PeerStore.node_id p))
           (take connected_peers_len peers)
      then add_offline connected_peers_len peers known
      else add_offline connected_peers_len
             (peers ++ [{| peer_node_id := PeerStore.node_id p; peer_address := PeerStore.address p;
                           is_persisted := true; is_connected := false |}]) known
  end.

Definition list_peers (connected_peers : list (PublicKey * option SocketAddress))
    (ps : PeerStore.PeerStore S SocketAddress) : list (PeerDetails SocketAddress) :=
  let stored i := PeerStore.address <$> PeerStore.get_peer ps i in
  add_offline (length connected_peers) (omap (connected_details stored) connected_peers)
    (PeerStore.list_peers ps).

(** ** What the list of peers says *)

Definition offline (p : PeerStore.PeerInfo SocketAddress) : PeerDetails SocketAddress :=
  {| peer_node_id := PeerStore.node_id p; peer_address := PeerStore.address p;
     is_persisted := true; is_connected := false |}.

(** The prefix that is searched may reach into the offline peers already added, which makes
    no difference as stored peers differ. *)
Lemma add_offline_from n conn added known :
  (length conn ≤ n)%nat → NoDup (PeerStore.node_id <$> added ++ known) →
  add_offline n (conn ++ (offline <$> added)) known =
  conn ++ (offline <$> added ++ filter (λ p, PeerStore.node_id p ∉ peer_node_id <$> conn) known).
Proof.
  intros Hn. revert added. induction known as [|p known IH]; intros added Hnd; cbn [add_offline].
  { by rewrite filter_nil, app_nil_r. }
  rewrite filter_cons.
  assert (existsb (λ d, bool_decide (peer_node_id d = PeerStore.node_id p))
    (take n (conn ++ (offline <$> added))) = bool_decide (PeerStore.node_id p ∈ peer_node_id <$> conn))
    as ->.
  - apply eq_bool_prop_intro. rewrite existb_True, bool_decide_spec, Exists_exists.
    rewrite take_app_ge by done. split.
    + intros (d & Hd & Heq%bool_decide_unpack). apply elem_of_app in Hd as [Hd|Hd].
      { apply list_elem_of_fmap. eauto. }
      assert (d ∈ offline <$> added) as (q & -> & Hq)%list_elem_of_fmap
        by (eapply subseteq_take; exact Hd).
      exfalso. rewrite fmap_app in Hnd. apply NoDup_app in Hnd as (_ & Hne & _).
      apply (Hne (PeerStore.node_id p)); [|set_solver]. rewrite <- Heq. apply list_elem_of_fmap. eauto.
    + intros (d & -> & Hd)%list_elem_of_fmap. exists d. split; [set_solver|]. by apply bool_decide_pack.
  - case_bool_decide as Hp.
    + rewrite decide_False by tauto. apply IH. eapply sublist_NoDup; [exact Hnd|].
      apply fmap_sublist, sublist_app; [done|by constructor].
    + rewrite decide_True by done. fold (offline p). rewrite <- app_assoc.
      change [offline p] with (offline <$> [p]). rewrite <- fmap_app, IH by (by rewrite <- app_assoc).
      by rewrite <- app_assoc.
Qed.

Lemma NoDup_stored (ps : PeerStore.PeerStore S SocketAddress) :
  (∀ i info, PeerStore.peers ps !! i = Some info → PeerStore.node_id info = i) →
  NoDup (PeerStore.node_id <$> PeerStore.list_peers ps).
Proof.
  intros Hk. unfold PeerStore.list_peers, values. rewrite <- list_fmap_compose.
  rewrite (list_fmap_ext _ fst); [apply NoDup_keys|].
  intros j [i info] Hj. cbn. apply Hk. apply elem_of_iter. by eapply list_elem_of_lookup_2.
Qed.

Lemma connected_details_Some stored peer d :
  connected_details stored peer = Some d →
  peer_node_id d = peer.1 ∧ is_connected d = true ∧
  is_persisted d = bool_decide (is_Some (stored peer.1)).
Proof.
  destruct peer as [i [addr|]]; cbn; [by intros [= <-]|].
  destruct (stored i) as [addr|] eqn:Hs; [|done]. intros [= <-]. cbn. done.
Qed.
Lemma elem_of_connected stored (connected : list (PublicKey * option SocketAddress)) d :
  d ∈ omap (connected_details stored) connected →
  peer_node_id d ∈ connected.*1 ∧ is_connected d = true ∧
  is_persisted d = bool_decide (is_Some (stored (peer_node_id d))).
Proof.
  intros (peer & Hin & (Hi & Hc & Hp)%connected_details_Some)%list_elem_of_omap.
  rewrite Hi. split; [|done]. apply list_elem_of_fmap. eauto.
Qed.
Lemma NoDup_connected stored (connected : list (PublicKey * option SocketAddress)) :
  NoDup connected.*1 → NoDup (peer_node_id <$> omap (connected_details stored) connected).
Proof.
  induction connected as [|peer connected IH]; [constructor|]. csimpl.
  intros [Hn Hnd]%NoDup_cons. destruct (connected_details stored peer) as [d|] eqn:Hd; [|auto].
  csimpl. constructor; [|auto]. apply connected_details_Some in Hd as (-> & _).
  intros (d' & Heq & (Hi & _)%elem_of_connected)%list_elem_of_fmap. congruence.
Qed.
Lemma length_omap_le {A B} (f : A → option B) (l : list A) : (length (omap f l) ≤ length l)%nat.
Proof. induction l as [|a l IH]; cbn; [done|]. destruct (f a); cbn; lia. Qed.
Lemma connected_known stored (connected : list (PublicKey * option SocketAddress)) i addr :
  (i, addr) ∈ connected → is_Some addr ∨ is_Some (stored i) →
  i ∈ peer_node_id <$> omap (connected_details stored) connected.
Proof.
  intros Hin Hs. assert (is_Some (connected_details stored (i, addr))) as [d Hd].
  { cbn. destruct addr as [addr|]; [eauto|]. destruct Hs as [[? ?]|[a Ha]]; [done|]. rewrite Ha. eauto. }
  apply list_elem_of_fmap. exists d. pose proof Hd as (Hi & _)%connected_details_Some.
  split; [done|]. apply list_elem_of_omap. eauto.
Qed.

Section list_peers.
Context (connected : list (PublicKey * option SocketAddress)).
Context (ps : PeerStore.PeerStore S SocketAddress).
Context (Hc : NoDup connected.*1).
Context (Hk : ∀ i info, PeerStore.peers ps !! i = Some info → PeerStore.node_id info = i).
Let stored := λ i, PeerStore.address <$> PeerStore.get_peer ps i.
Let conn := omap (connected_details stored) connected.

Lemma list_peers_split :
  list_peers connected ps =
  conn ++ (offline <$> filter (λ p, PeerStore.node_id p ∉ peer_node_id <$> conn)
                         (PeerStore.list_peers ps)).
Proof.
  unfold list_peers. fold stored conn. pose proof (add_offline_from (length connected) conn []) as Ha.
  cbn in Ha. rewrite app_nil_r in Ha. apply Ha; [apply length_omap_le|by apply NoDup_stored].
Qed.
Lemma stored_iff i : is_Some (stored i) ↔ is_Some (PeerStore.get_peer ps i).
Proof. apply fmap_is_Some. Qed.
Lemma elem_of_stored p : p ∈ PeerStore.list_peers ps ↔ PeerStore.get_peer ps (PeerStore.node_id p) = Some p.
Proof.
  unfold PeerStore.list_peers, PeerStore.get_peer. rewrite elem_of_values. split; [|eauto].
  intros [i Hi]. by rewrite (Hk _ _ Hi).
Qed.
End list_peers.

(** Every stored peer and every connected peer of known address is listed exactly once,
    marked as stored and as connected exactly if it is. *)
Theorem peers_listed_once
    (connected : list (PublicKey * option SocketAddress))
    (ps : PeerStore.PeerStore S SocketAddress) :
  NoDup connected.*1 →
  (∀ i info, PeerStore.peers ps !! i = Some info → PeerStore.node_id info = i) →
  NoDup (peer_node_id <$> list_peers connected ps) ∧
  (∀ d, d ∈ list_peers connected ps →
     (is_persisted d = true ↔ is_Some (PeerStore.get_peer ps (peer_node_id d))) ∧
     (is_connected d = true ↔ peer_node_id d ∈ connected.*1)) ∧
  (∀ i, is_Some (PeerStore.get_peer ps i) → i ∈ peer_node_id <$> list_peers connected ps) ∧
  (∀ i addr, (i, Some addr) ∈ connected → i ∈ peer_node_id <$> list_peers connected ps).
Proof.
  intros Hc Hk. rewrite (list_peers_split connected ps Hk). set (conn := omap _ connected).
  rewrite fmap_app, <- list_fmap_compose. split_and!.
  - apply NoDup_app. split_and!; [by apply NoDup_connected| |].
    + intros i Hi (p & -> & [Hp _]%list_elem_of_filter)%list_elem_of_fmap. done.
    + eapply sublist_NoDup; [by apply (NoDup_stored ps)|].
      change (peer_node_id ∘ offline) with (PeerStore.node_id (SocketAddress := SocketAddress)).
      apply fmap_sublist, sublist_filter.
  - intros d [Hd|(p & -> & [Hp Hs]%list_elem_of_filter)%list_elem_of_fmap]%elem_of_app.
    + apply elem_of_connected in Hd as (Hi & Ht & ->). rewrite Ht, bool_decide_eq_true, stored_iff. done.
    + apply elem_of_stored in Hs; [|done]. split; [split; [by exists p|done]|]. cbn.
      split; [done|]. intros ([i addr] & Hi & Hin)%list_elem_of_fmap. cbn in Hi. subst i. exfalso.
      apply Hp. eapply connected_known; [exact Hin|]. right. apply stored_iff. by exists p.
  - intros i [p Hp]. apply elem_of_app. destruct (decide (i ∈ peer_node_id <$> conn)); [by left|right].
    apply list_elem_of_fmap. exists p. pose proof (Hk _ _ Hp) as <-. split; [done|].
    apply list_elem_of_filter. split; [done|]. by apply elem_of_stored.
  - intros i addr Hin. apply elem_of_app. left. eapply connected_known; eauto.
Qed.
End peers.
End Balances.
