(* ===== verification/Channels.v ===== *)
(** * Peers and channels at the user's request ([src/lib.rs])

    Connecting and disconnecting, opening, splicing, closing and configuring channels, and
    the peers that the background retries of the gossip synchronisation may store again
    ([RgsPeerRecoveryExclusions]).  Connections, LDK's channels and its answers are inputs;
    what LDK is asked is kept in [calls]. *)

From S2P Require Import Prelude Errors KVStore Codec DataStore Types PaymentStore Bdk AggTypes.
From S2P Require Import AggUtxo AggSigning AggRbf Aggregate AggBuild AggInvariant.
From S2P Require Import FeeEstimator Config WalletKeys Event NodeMetrics TxBroadcaster Wallet.
From S2P Require Import Broadcast WalletSend WalletUtxos OnchainPayment PeerStore ChannelTypes Liquidity.

Module Channels.
Import ChannelTypes.

Section channels.
Context {S : Type} {KV : KVStore S}.
Context {O : IterOrder OnchainWalletAccount} {OT : IterOrder Txid}.
Context {BTC : Bitcoin} {W P U BdkEv : Type} {BDK : Bdk W P U BdkEv} {CS : CoinSelection}.
Context {D F : Type} {SC : Scripts F} (tx_details : W → Txid → option Transaction).
Context {SocketAddress : Type} `{EqDecision SocketAddress}.
Context {OP : IterOrder PublicKey} {U16 : U16Codec} {CK : Codec PublicKey}.
Context {CP : Codec (PeerStore.PeerInfo SocketAddress)}.
(** LDK's default configurations, the weight of a funding output's witness and its script
    for two dummy keys; the floor of the fee estimates; whether an address is of the
    network. *)
Context (ldk_user_config : UserConfig) (ldk_channel_config : LdkChannelConfig).
Context (FUNDING_TRANSACTION_WITNESS_WEIGHT : Z) (dummy_funding_script : Script).
Context (FEERATE_FLOOR_SATS_PER_KW : Z) (address_valid : Address → Network → bool).
Abbreviation Wal := (Wallet.Wallet S W P D).
Abbreviation PeerInfo := (PeerStore.PeerInfo SocketAddress).

Inductive SpliceContribution :=
| SpliceIn (value : Amount) (inputs : list F) (change_script : option Script)
| SpliceOut (outputs : list TxOut).

Inductive channel_call :=
| CreateChannel (node_id : PublicKey) (channel_amount_sats push_msat user_channel_id : Z)
    (user_config : UserConfig) (channel_config : LdkChannelConfig)
| SpliceChannel (channel : ChannelId) (counterparty : PublicKey)
    (contribution : SpliceContribution) (funding_feerate_per_kw : Z)
| CloseChannel (channel : ChannelId) (counterparty : PublicKey)
| ForceCloseBroadcastingLatestTxn (channel : ChannelId) (counterparty : PublicKey)
    (reason : string)
| UpdateChannelConfig (counterparty : PublicKey) (channels : list ChannelId)
    (channel_config : LdkChannelConfig)
| DisconnectByNodeId (counterparty : PublicKey).

(** [rgs_peer_recovery_exclusions] is the set behind the lock. *)
Record state := mkState {
  wallet : Wal;
  peer_store : PeerStore.PeerStore S SocketAddress;
  rgs_peer_recovery_exclusions : gset PublicKey;
  calls : list channel_call;
}.
Implicit Types (x : state).
Abbreviation ccmd A := (cmd state Error A).

(** Whether the node runs, what a connection attempt gives, whether a peer is connected and
    asks for anchors, LDK's channels, the configuration, the id drawn, and whether LDK does
    what it is asked. *)
Record env := mkEnv {
  is_running : bool;
  connected : outcome Error unit;
  peer_by_node_id : PublicKey → option bool;
  ldk_channels : list LdkChannelDetails;
  config : Config SocketAddress;
  drawn_user_channel_id : Z;
  ldk_ok : bool;
}.
Implicit Types (v : env).

Definition on_peers {A} (m : cmd (PeerStore.PeerStore S SocketAddress) Error A) : ccmd A := λ x,
  let '(ps, r) := m (peer_store x) in
  (mkState (wallet x) ps (rgs_peer_recovery_exclusions x) (calls x), r).
Definition on_wallet {E A} (m : cmd Wal E A) : cmd state E A := λ x,
  let '(s, r) := m (wallet x) in
  (mkState s (peer_store x) (rgs_peer_recovery_exclusions x) (calls x), r).
Definition on_exclusions (f : gset PublicKey → gset PublicKey) : ccmd unit :=
  modify (λ x, mkState (wallet x) (peer_store x) (f (rgs_peer_recovery_exclusions x)) (calls x)).
Definition call (c : channel_call) : ccmd unit :=
  modify (λ x, mkState (wallet x) (peer_store x) (rgs_peer_recovery_exclusions x) (calls x ++ [c])).
(** A call that LDK may refuse. *)
Definition ask v (c : channel_call) (failure : Error) : ccmd unit :=
  _ ← call c; if ldk_ok v then mret tt else fail failure.

(** ** [RgsPeerRecoveryExclusions] *)

Definition remove_peer_and_exclude_after_disconnect (node_id : PublicKey) : ccmd unit :=
  _ ← on_peers (PeerStore.remove_peer node_id);
  on_exclusions (λ ids, {[node_id]} ∪ ids).
Definition exclude_after_last_channel_close (node_id : PublicKey) : ccmd unit :=
  on_exclusions (λ ids, {[node_id]} ∪ ids).
Definition add_peer_and_clear_exclusion (peer_info : PeerInfo) : ccmd unit :=
  _ ← on_peers (PeerStore.add_peer peer_info);
  on_exclusions (λ ids, ids ∖ {[PeerStore.node_id peer_info]}).

(** The retry after a snapshot of the network graph. *)
Definition recover_channel_peers v (announced_address : PublicKey → option SocketAddress) :
    ccmd unit :=
  modify (λ x,
    mkState (wallet x)
      (PeerStore.persist_missing_channel_peers_excluding announced_address
         ((λ c, cp_node_id (ldk_counterparty c)) <$> ldk_channels v)
         (rgs_peer_recovery_exclusions x) (peer_store x))
      (rgs_peer_recovery_exclusions x) (calls x)).

(** ** Peers *)

Definition connect v (node_id : PublicKey) (address : SocketAddress) (persist : bool) : ccmd unit :=
  if negb (is_running v) then fail NotRunning
  else
    let peer_info := {| PeerStore.node_id := node_id; PeerStore.address := address |} in
    _ ← (if persist then add_peer_and_clear_exclusion peer_info else mret tt);
    lift (connected v).

Definition disconnect v (counterparty_node_id : PublicKey) : ccmd unit :=
  if negb (is_running v) then fail NotRunning
  else
    _ ← remove_peer_and_exclude_after_disconnect counterparty_node_id;
    call (DisconnectByNodeId counterparty_node_id).

(** ** Opening *)

Definition reserve v : Z :=
  total_anchor_channels_reserve_sats (reserve_view <$> ldk_channels v) (config v).
Definition new_channel_reserve v (anchors : bool) (peer : PublicKey) : Z :=
  match anchor_channels_config (config v) with
  | Some c =>
      if anchors && negb (bool_decide (peer ∈ trusted_peers_no_reserve c))
      then per_channel_reserve_sats c else 0
  | None => 0
  end.
Definition spendable v x : outcome Error Z :=
  unwrap_or_zero (Wallet.get_witness_spendable_amount_sats (reserve v) (wallet x)).

Definition check_sufficient_funds_for_channel v (amount_sats : Z) (peer_node_id : PublicKey) :
    ccmd unit :=
  with_state (λ x,
    spendable_amount_sats ← lift (spendable v x);
    if spendable_amount_sats <? amount_sats then fail InsufficientFunds
    else
      anchors ← lift (ok_or (peer_by_node_id v peer_node_id) ConnectionFailed);
      let required_funds_sats := wrap64 (amount_sats + new_channel_reserve v anchors peer_node_id) in
      if spendable_amount_sats <? required_funds_sats then fail InsufficientFunds else mret tt).

(** The user configuration a channel is opened with. *)
Definition channel_user_config v (announce : bool) : UserConfig :=
  let c := default_user_config ldk_user_config (config v) in
  {| force_announced_channel_preference := force_announced_channel_preference c;
     manually_accept_inbound_channels := manually_accept_inbound_channels c;
     negotiate_anchors_zero_fee_htlc_tx := negotiate_anchors_zero_fee_htlc_tx c;
     reject_inbound_splices := reject_inbound_splices c;
     accept_forwards_to_priv_channels := accept_forwards_to_priv_channels c;
     announce_for_forwarding := announce;
     max_inbound_htlc_value_in_flight_percent_of_channel :=
       if announce then max_inbound_htlc_value_in_flight_percent_of_channel c else 100 |}.

Definition open_channel_inner v (node_id : PublicKey) (address : SocketAddress)
    (channel_amount_sats : Z) (push_to_counterparty_msat : option Z)
    (channel_config : option ChannelConfig) (announce_for_forwarding : bool) : ccmd Z :=
  if negb (is_running v) then fail NotRunning
  else
    let peer_info := {| PeerStore.node_id := node_id; PeerStore.address := address |} in
    _ ← lift (connected v);
    _ ← check_sufficient_funds_for_channel v channel_amount_sats node_id;
    _ ← ask v (CreateChannel node_id channel_amount_sats (default 0 push_to_counterparty_msat)
                 (drawn_user_channel_id v) (channel_user_config v announce_for_forwarding)
                 (config_to_ldk (default (config_from_ldk ldk_channel_config) channel_config)))
          ChannelCreationFailed;
    _ ← add_peer_and_clear_exclusion peer_info;
    mret (drawn_user_channel_id v).

Definition open_channel v node_id address channel_amount_sats push_to_counterparty_msat
    channel_config : ccmd Z :=
  open_channel_inner v node_id address channel_amount_sats push_to_counterparty_msat
    channel_config false.
Definition open_announced_channel v node_id address channel_amount_sats push_to_counterparty_msat
    channel_config : ccmd Z :=
  if is_ok (may_announce_channel (config v)) then
    open_channel_inner v node_id address channel_amount_sats push_to_counterparty_msat
      channel_config true
  else fail ChannelCreationFailed.

(** ** Splicing *)

(** [list_channels_with_counterparty] and the search for the user's id. *)
Definition channels_with v (counterparty : PublicKey) : list LdkChannelDetails :=
  List.filter (λ c, bool_decide (cp_node_id (ldk_counterparty c) = counterparty)) (ldk_channels v).
Definition find_channel v (counterparty : PublicKey) (user_channel_id : Z) :
    option LdkChannelDetails :=
  List.find (λ c, ldk_user_channel_id c =? user_channel_id) (channels_with v counterparty).

(** [empty script_sig * WITNESS_SCALE_FACTOR] *)
Definition EMPTY_SCRIPT_SIG_WEIGHT : Z := 4.

Definition fee_rate x : FeeRate :=
  OnchainFeeEstimator.estimate_fee_rate FEERATE_FLOOR_SATS_PER_KW
    (Wallet.fee_estimator (wallet x)) ChannelFunding.
(** [fee_rate.to_sat_per_kwu().try_into()], with the fallback. *)
Definition funding_feerate_per_kw (rate : FeeRate) : Z :=
  if rate <=? u32_max then rate
  else OnchainFeeEstimator.get_fallback_rate_for_target FEERATE_FLOOR_SATS_PER_KW ChannelFunding.

Definition splice_in v (user_channel_id : Z) (counterparty_node_id : PublicKey)
    (splice_amount_sats : Z) : ccmd unit :=
  match find_channel v counterparty_node_id user_channel_id with
  | Some channel_details =>
      _ ← check_sufficient_funds_for_channel v splice_amount_sats counterparty_node_id;
      funding_txo ← lift (ok_or (ldk_funding_txo channel_details) ChannelSplicingFailed);
      let shared_input :=
        mkLdkInput funding_txo
          (mkTxOut (ldk_channel_value_satoshis channel_details) dummy_funding_script)
          (EMPTY_SCRIPT_SIG_WEIGHT + FUNDING_TRANSACTION_WITNESS_WEIGHT) in
      shared_value ← lift (amount_add (ldk_channel_value_satoshis channel_details)
                             splice_amount_sats);
      with_state (λ x,
        let rate := fee_rate x in
        inputs ← cmd_map_err (λ _, ChannelSplicingFailed)
                   (on_wallet (select_confirmed_utxos tx_details [shared_input]
                      [mkTxOut shared_value dummy_funding_script] rate));
        change_address ← on_wallet Wallet.get_new_internal_address;
        let change_script := address_script change_address in
        let contribution := SpliceIn splice_amount_sats inputs (Some change_script) in
        _ ← call (SpliceChannel (ldk_channel_id channel_details) counterparty_node_id contribution
                    (funding_feerate_per_kw rate));
        if ldk_ok v then mret tt
        else
          _ ← on_wallet (Wallet.cancel_tx {| version := 2; lock_time := 0; input := [];
                                             output := [mkTxOut 0 change_script] |});
          fail ChannelSplicingFailed)
  | None => fail ChannelSplicingFailed
  end.

Definition splice_out v (user_channel_id : Z) (counterparty_node_id : PublicKey)
    (address : Address) (splice_amount_sats : Z) : ccmd unit :=
  match find_channel v counterparty_node_id user_channel_id with
  | Some channel_details =>
      if ldk_outbound_capacity_msat channel_details <? splice_amount_sats
      then fail ChannelSplicingFailed
      else with_state (λ x,
        _ ← lift (parse_and_validate_address address_valid address (wallet x));
        let contribution := SpliceOut [mkTxOut splice_amount_sats (address_script address)] in
        ask v (SpliceChannel (ldk_channel_id channel_details) counterparty_node_id contribution
                 (funding_feerate_per_kw (fee_rate x))) ChannelSplicingFailed)
  | None => fail ChannelSplicingFailed
  end.

(** ** Closing and configuring *)

Definition close_channel_internal v (user_channel_id : Z) (counterparty_node_id : PublicKey)
    (force : bool) (force_close_reason : option string) : ccmd unit :=
  let open_channels := channels_with v counterparty_node_id in
  match find_channel v counterparty_node_id user_channel_id with
  | Some channel_details =>
      _ ← ask v (if force
                 then ForceCloseBroadcastingLatestTxn (ldk_channel_id channel_details)
                        counterparty_node_id (default EmptyString force_close_reason)
                 else CloseChannel (ldk_channel_id channel_details) counterparty_node_id)
            ChannelClosingFailed;
      if decide (length open_channels = 1%nat) then
        _ ← exclude_after_last_channel_close counterparty_node_id;
        on_peers (PeerStore.remove_peer counterparty_node_id)
      else mret tt
  | None => mret tt
  end.
Definition close_channel v user_channel_id counterparty_node_id : ccmd unit :=
  close_channel_internal v user_channel_id counterparty_node_id false None.
Definition force_close_channel v user_channel_id counterparty_node_id reason : ccmd unit :=
  close_channel_internal v user_channel_id counterparty_node_id true reason.

Definition update_channel_config v (user_channel_id : Z) (counterparty_node_id : PublicKey)
    (channel_config : ChannelConfig) : ccmd unit :=
  match find_channel v counterparty_node_id user_channel_id with
  | Some channel_details =>
      ask v (UpdateChannelConfig counterparty_node_id [ldk_channel_id channel_details]
               (config_to_ldk channel_config)) ChannelConfigUpdateFailed
  | None => fail ChannelConfigUpdateFailed
  end.

(** ** The other writers of the peer store

    Buying a just-in-time channel stores the LSP ([receive_via_jit_channel_inner] of
    [src/payment/bolt11.rs]); a pending inbound channel stores its peer where the graph has
    an address of it ([ChannelPending] in [src/event.rs]). *)
Definition store_lsp (peer_info : PeerInfo) : ccmd unit := on_peers (PeerStore.add_peer peer_info).
Definition store_channel_peer (announced_address : PublicKey → option SocketAddress)
    (counterparty_node_id : PublicKey) : ccmd unit :=
  modify (λ x,
    mkState (wallet x)
      (PeerStore.persist_missing_channel_peers announced_address [counterparty_node_id] (peer_store x))
      (rgs_peer_recovery_exclusions x) (calls x)).

(** The node is built anew ([src/builder.rs]): the store is read, the peers of all channels
    are stored where they are missing, and nothing is excluded.  [Err] is a build that
    failed. *)
Definition startup v (announced_address : PublicKey → option SocketAddress) :
    cmd state unit unit := λ x,
  let kv := PeerStore.kv_store (peer_store x) in
  let built ps :=
    (mkState (wallet x)
       (PeerStore.persist_missing_channel_peers announced_address
          ((λ c, cp_node_id (ldk_counterparty c)) <$> ldk_channels v) ps) ∅ (calls x), Ok tt) in
  match kv_read kv PeerStore.PEER_INFO_KEY with
  | Ok bs => match PeerStore.read bs kv with Some ps => built ps | None => (x, Err tt) end
  | Err KindNotFound => built (PeerStore.new kv)
  | Err _ => (x, Err tt)
  | Panic => (x, Panic)
  end.

(** ** The calls of the user and of the node's own tasks, in any order *)

Inductive channel_op :=
| OpConnect (node_id : PublicKey) (address : SocketAddress) (persist : bool)
| OpDisconnect (counterparty : PublicKey)
| OpOpen (node_id : PublicKey) (address : SocketAddress) (channel_amount_sats : Z)
    (push : option Z) (channel_config : option ChannelConfig)
| OpOpenAnnounced (node_id : PublicKey) (address : SocketAddress) (channel_amount_sats : Z)
    (push : option Z) (channel_config : option ChannelConfig)
| OpSpliceIn (user_channel_id : Z) (counterparty : PublicKey) (splice_amount_sats : Z)
| OpSpliceOut (user_channel_id : Z) (counterparty : PublicKey) (address : Address)
    (splice_amount_sats : Z)
| OpClose (user_channel_id : Z) (counterparty : PublicKey)
| OpForceClose (user_channel_id : Z) (counterparty : PublicKey) (reason : option string)
| OpUpdate (user_channel_id : Z) (counterparty : PublicKey) (channel_config : ChannelConfig)
| OpRecover (announced_address : PublicKey → option SocketAddress)
| OpStoreLsp (peer_info : PeerInfo)
| OpInboundPending (announced_address : PublicKey → option SocketAddress)
    (counterparty : PublicKey)
| OpStartup (announced_address : PublicKey → option SocketAddress).

Definition exec v (o : channel_op) x : state :=
  match o with
  | OpConnect n a persist => (connect v n a persist x).1
  | OpDisconnect n => (disconnect v n x).1
  | OpOpen n a amt push c => (open_channel v n a amt push c x).1
  | OpOpenAnnounced n a amt push c => (open_announced_channel v n a amt push c x).1
  | OpSpliceIn u n amt => (splice_in v u n amt x).1
  | OpSpliceOut u n a amt => (splice_out v u n a amt x).1
  | OpClose u n => (close_channel v u n x).1
  | OpForceClose u n reason => (force_close_channel v u n reason x).1
  | OpUpdate u n c => (update_channel_config v u n c x).1
  | OpRecover announced => (recover_channel_peers v announced x).1
  | OpStoreLsp info => (store_lsp info x).1
  | OpInboundPending announced n => (store_channel_peer announced n x).1
  | OpStartup announced => (startup v announced x).1
  end.
Definition run (os : list (env * channel_op)) x : state :=
  foldl (λ x '(v, o), exec v o x) x os.

(** What takes a peer back: a persistent connection, a new channel with it from either
    side, buying a channel from it, or building the node anew. *)
Definition readmits (i : PublicKey) (o : channel_op) : bool :=
  match o with
  | OpConnect n _ persist => persist && bool_decide (n = i)
  | OpOpen n _ _ _ _ | OpOpenAnnounced n _ _ _ _ => bool_decide (n = i)
  | OpStoreLsp info => bool_decide (PeerStore.node_id info = i)
  | OpInboundPending _ n => bool_decide (n = i)
  | OpStartup _ => true
  | _ => false
  end.

(** *** What LDK may be asked *)

Definition funded v x (amount : Z) (peer : PublicKey) : Prop :=
  ∃ available anchors, spendable v x = Ok available ∧ peer_by_node_id v peer = Some anchors ∧
    amount + new_channel_reserve v anchors peer ≤ available.

Definition opened v (n : PublicKey) (amt : Z) (push : option Z) (c : option ChannelConfig)
    (announce : bool) : channel_call :=
  CreateChannel n amt (default 0 push) (drawn_user_channel_id v) (channel_user_config v announce)
    (config_to_ldk (default (config_from_ldk ldk_channel_config) c)).

Inductive justified v x : channel_op → channel_call → Prop :=
| JOpen n a amt push c :
    is_running v = true → connected v = Ok tt → funded v x amt n →
    justified v x (OpOpen n a amt push c) (opened v n amt push c false)
| JOpenAnnounced n a amt push c :
    is_running v = true → connected v = Ok tt → funded v x amt n →
    is_ok (may_announce_channel (config v)) = true →
    justified v x (OpOpenAnnounced n a amt push c) (opened v n amt push c true)
| JSpliceIn u n amt d inputs change :
    find_channel v n u = Some d → is_Some (ldk_funding_txo d) → funded v x amt n →
    justified v x (OpSpliceIn u n amt)
      (SpliceChannel (ldk_channel_id d) n (SpliceIn amt inputs (Some change))
         (funding_feerate_per_kw (fee_rate x)))
| JSpliceOut u n a amt d :
    find_channel v n u = Some d → amt ≤ ldk_outbound_capacity_msat d →
    parse_and_validate_address address_valid a (wallet x) = Ok tt →
    justified v x (OpSpliceOut u n a amt)
      (SpliceChannel (ldk_channel_id d) n (SpliceOut [mkTxOut amt (address_script a)])
         (funding_feerate_per_kw (fee_rate x)))
| JClose u n d :
    find_channel v n u = Some d →
    justified v x (OpClose u n) (CloseChannel (ldk_channel_id d) n)
| JForceClose u n reason d :
    find_channel v n u = Some d →
    justified v x (OpForceClose u n reason)
      (ForceCloseBroadcastingLatestTxn (ldk_channel_id d) n (default EmptyString reason))
| JUpdate u n c d :
    find_channel v n u = Some d →
    justified v x (OpUpdate u n c) (UpdateChannelConfig n [ldk_channel_id d] (config_to_ldk c))
| JDisconnect n :
    is_running v = true →
    justified v x (OpDisconnect n) (DisconnectByNodeId n).

(** The amount an operation takes from the wallet. *)
Definition op_amount (o : channel_op) : Z :=
  match o with
  | OpOpen _ _ amt _ _ | OpOpenAnnounced _ _ amt _ _ | OpSpliceIn _ _ amt => amt
  | _ => 0
  end.

(** ** Steps *)

(** [m] only moves the state along [R], whatever it answers. *)
Definition moves (R : relation state) {E A} (m : cmd state E A) : Prop := ∀ x, R x (m x).1.

Section moves.
Context (R : relation state) {R_pre : PreOrder R}.

Lemma moves_still {E A} (m : cmd state E A) : (∀ x, (m x).1 = x) → moves R m.
Proof. intros Hm x. by rewrite Hm. Qed.
Lemma moves_bind {E A B} (m : cmd state E A) (f : A → cmd state E B) :
  moves R m → (∀ a, moves R (f a)) → moves R (m ≫= f).
Proof.
  intros Hm Hf x. specialize (Hm x). unfold mbind, cmd_bind.
  destruct (m x) as [y [a|e|]]; simpl in *; [|done..]. etrans; [done|apply Hf].
Qed.
Lemma moves_map_err {E F' A} (f : E → F') (m : cmd state E A) :
  moves R m → moves R (cmd_map_err f m).
Proof. intros Hm x. specialize (Hm x). unfold cmd_map_err. by destruct (m x). Qed.
Lemma moves_with_state {E A} (f : state → cmd state E A) :
  (∀ x, moves R (f x)) → moves R (with_state f).
Proof. intros Hf x. apply Hf. Qed.
End moves.

(** What is done without asking LDK. *)
Definition silent : relation state := λ x y, calls y = calls x.
#[local] Instance silent_preorder : PreOrder silent.
Proof. split; [by intros x|]. unfold silent. intros x y z Hxy Hyz. congruence. Qed.

Lemma silent_on_peers {A} (m : cmd (PeerStore.PeerStore S SocketAddress) Error A) :
  moves silent (on_peers m).
Proof. intros x. unfold on_peers. by destruct (m _). Qed.
Lemma silent_on_wallet {E A} (m : cmd Wal E A) : moves silent (on_wallet m).
Proof. intros x. unfold on_wallet. by destruct (m _). Qed.
Lemma silent_on_exclusions f : moves silent (on_exclusions f).
Proof. by intros x. Qed.
Lemma silent_add_peer info : moves silent (add_peer_and_clear_exclusion info).
Proof. apply moves_bind; [apply _|apply silent_on_peers|intros _; apply silent_on_exclusions]. Qed.
Lemma silent_remove_peer i : moves silent (remove_peer_and_exclude_after_disconnect i).
Proof. apply moves_bind; [apply _|apply silent_on_peers|intros _; apply silent_on_exclusions]. Qed.

(** The peer is neither stored nor to be stored by a retry. *)
Definition forgotten (i : PublicKey) x : Prop :=
  PeerStore.peers (peer_store x) !! i = None ∧ i ∈ rgs_peer_recovery_exclusions x.
Definition stays_out (i : PublicKey) : relation state := λ x y, forgotten i x → forgotten i y.
#[local] Instance stays_out_preorder i : PreOrder (stays_out i).
Proof. split; unfold stays_out; [by intros x|]. intros x y z Hxy Hyz Hx. auto. Qed.

Lemma out_on_wallet i {E A} (m : cmd Wal E A) : moves (stays_out i) (on_wallet m).
Proof. intros x Hx. unfold on_wallet. by destruct (m _). Qed.
Lemma out_call i c : moves (stays_out i) (call c).
Proof. by intros x Hx. Qed.
Lemma out_exclude i j : moves (stays_out i) (on_exclusions (λ ids, {[j]} ∪ ids)).
Proof. intros x [Hp He]. split; [done|]. simpl. set_solver. Qed.

(** *** Asking LDK *)

Definition reserve_fits v x : Prop :=
  ∀ available, spendable v x = Ok available → available ≤ u64_max ∧
    ∀ c, anchor_channels_config (config v) = Some c →
      0 ≤ per_channel_reserve_sats c ≤ u64_max - available.

Lemma check_funds_still v amount peer : ∀ x,
  (check_sufficient_funds_for_channel v amount peer x).1 = x.
Proof.
  intros x. unfold check_sufficient_funds_for_channel, with_state, mbind, cmd_bind, lift, fail.
  destruct (spendable v x); [|done..]. case_match; [done|].
  destruct (ok_or _ _); [|done..]. by case_match.
Qed.

Lemma check_funds_Ok v amount peer x y :
  0 ≤ amount → reserve_fits v x →
  check_sufficient_funds_for_channel v amount peer x = (y, Ok tt) → y = x ∧ funded v x amount peer.
Proof.
  intros Hamt Hfits Hc.
  pose proof (check_funds_still v amount peer x) as Hst. rewrite Hc in Hst. split; [done|].
  revert Hc. unfold check_sufficient_funds_for_channel, with_state, mbind, cmd_bind, lift, fail.
  destruct (spendable v x) as [available|e|] eqn:Hsp; [|done..].
  destruct (Z.ltb_spec available amount) as [|Hle]; [done|].
  destruct (peer_by_node_id v peer) as [anchors|] eqn:Hp; simpl; [|done].
  destruct (Z.ltb_spec available (wrap64 (amount + new_channel_reserve v anchors peer)))
    as [|Hf]; [done|]. intros _. exists available, anchors. split_and!; [done..|].
  rewrite wrap64_small in Hf; [done|]. unfold is_u64, new_channel_reserve, reserve_fits, u64_max in *.
  destruct (Hfits available Hsp) as [Hmax Hres].
  destruct (anchor_channels_config (config v)) as [c|]; [|lia].
  specialize (Hres c eq_refl). case_match; lia.
Qed.

(** A step that asks nothing, or one call it had reason to make. *)
Definition asks v x (o : channel_op) y : Prop :=
  calls y = calls x ∨ ∃ c, calls y = calls x ++ [c] ∧ justified v x o c.

Lemma ask_calls v c e x : calls (ask v c e x).1 = calls x ++ [c].
Proof. unfold ask, mbind, cmd_bind, call, modify. by destruct (ldk_ok v). Qed.

(** What follows the call is silent. *)
Lemma asks_bind {A B} v x o c (m : ccmd A) (f : A → ccmd B) :
  calls (m x).1 = calls x ++ [c] → justified v x o c → (∀ a, moves silent (f a)) →
  asks v x o ((m ≫= f) x).1.
Proof.
  intros Hm Hj Hf. right. exists c. split; [|done]. unfold mbind, cmd_bind.
  destruct (m x) as [y [a|e|]]; simpl in *; [|done..]. by rewrite (Hf a y).
Qed.

Lemma asks_open v x o n a amt push c announce :
  0 ≤ amt → reserve_fits v x →
  (is_running v = true → connected v = Ok tt → funded v x amt n →
   justified v x o (opened v n amt push c announce)) →
  asks v x o (open_channel_inner v n a amt push c announce x).1.
Proof.
  intros Hamt Hfits Hj. unfold open_channel_inner.
  destruct (is_running v) eqn:Hr; simpl; [|by left]. unfold mbind at 1, cmd_bind at 1, lift.
  destruct (connected v) as [[]|e|] eqn:Hc; [|by left..]. unfold mbind at 1, cmd_bind at 1.
  pose proof (check_funds_still v amt n x) as Hst.
  destruct (check_sufficient_funds_for_channel v amt n x) as [y [[]|e|]] eqn:Hck;
    simpl in Hst; subst y; [|by left..].
  destruct (check_funds_Ok _ _ _ _ _ Hamt Hfits Hck) as [_ Hf].
  eapply asks_bind; [apply ask_calls|by apply Hj|].
  intros _. apply moves_bind; [apply _|apply silent_add_peer|by intros ? ?].
Qed.

Lemma asks_splice_in v x u n amt :
  0 ≤ amt → reserve_fits v x → asks v x (OpSpliceIn u n amt) (splice_in v u n amt x).1.
Proof.
  intros Hamt Hfits. unfold splice_in.
  destruct (find_channel v n u) as [d|] eqn:Hd; [|by left]. unfold mbind at 1, cmd_bind at 1.
  pose proof (check_funds_still v amt n x) as Hst.
  destruct (check_sufficient_funds_for_channel v amt n x) as [y [[]|e|]] eqn:Hck;
    simpl in Hst; subst y; [|by left..].
  destruct (check_funds_Ok _ _ _ _ _ Hamt Hfits Hck) as [_ Hf].
  unfold mbind at 1, cmd_bind at 1, lift at 1.
  destruct (ldk_funding_txo d) as [txo|] eqn:Htx; simpl; [|by left].
  unfold mbind at 1, cmd_bind at 1, lift at 1. destruct (amount_add _ _) as [val|e|]; [|by left..].
  unfold with_state. unfold mbind at 1, cmd_bind at 1.
  match goal with |- context [cmd_map_err ?f ?m x] =>
    pose proof (moves_map_err silent f m (silent_on_wallet _) x) as H1;
    destruct (cmd_map_err f m x) as [y [inputs|e|]]; simpl in H1 end; [|by left..].
  unfold mbind at 1, cmd_bind at 1. pose proof (silent_on_wallet Wallet.get_new_internal_address y) as H2.
  destruct (on_wallet Wallet.get_new_internal_address y) as [z [change|e|]]; simpl in H2;
    unfold silent in H1, H2; [|left; simpl; congruence..].
  right. eexists. split; [|by eapply JSpliceIn].
  unfold mbind at 1, cmd_bind at 1, call, modify. destruct (ldk_ok v); simpl; [by rewrite H2, H1|].
  unfold mbind, cmd_bind, on_wallet, fail. simpl.
  destruct (Wallet.cancel_tx _ _) as [w [[]|e|]]; simpl; by rewrite H2, H1.
Qed.

Lemma asks_close v x o u n (force : bool) (reason : option string) (c : LdkChannelDetails → channel_call) :
  (∀ d, find_channel v n u = Some d → justified v x o (c d)) →
  (∀ d, c d = if force then ForceCloseBroadcastingLatestTxn (ldk_channel_id d) n
                              (default EmptyString reason)
              else CloseChannel (ldk_channel_id d) n) →
  asks v x o (close_channel_internal v u n force reason x).1.
Proof.
  intros Hj Hc. unfold close_channel_internal.
  destruct (find_channel v n u) as [d|] eqn:Hd; [|by left].
  eapply asks_bind; [apply ask_calls|rewrite <- Hc; by apply Hj|].
  intros _. case_decide; [|by intros ?].
  apply moves_bind; [apply _|apply silent_on_exclusions|intros _; apply silent_on_peers].
Qed.

(** C19. Whatever the user asks of the node's channels, LDK is asked at most once, and only
    with reason.  A channel is opened only when the node runs, the peer is connected and the
    spendable segwit funds cover the amount and, where the peer asks for anchors and is not
    trusted, the reserve of one more channel; an announced one only when the node may
    announce.  A splice-in needs the same funds, the connected peer, and a funded channel of
    that peer with the user's id, but the code does not ask whether the node runs; a
    splice-out needs such a channel with an outbound capacity, in millisatoshis, of at least
    the amount in satoshis, and an address of the network; a close, a forced close and an
    update go to such a channel; a disconnect needs a running node.  Splices carry the
    feerate the estimator gives.  The configured reserve and the funds are taken to fit into
    64 bits together ([reserve_fits]). *)
Theorem calls_justified v o x :
  0 ≤ op_amount o → reserve_fits v x → asks v x o (exec v o x).
Proof.
  intros Hamt Hfits. destruct o as [n a p|n|n a amt push c|n a amt push c|u n amt|u n a amt|u n|u n r|u n c|ad|info|ad n|ad];
    simpl in Hamt |- *.
  - left. unfold connect. case_match; [done|]. apply moves_bind; [apply _| |by intros ? ?].
    destruct p; [apply silent_add_peer|by intros ?].
  - unfold disconnect. destruct (is_running v) eqn:Hr; simpl; [|by left].
    pose proof (silent_remove_peer n x) as Hs. unfold mbind, cmd_bind.
    destruct (remove_peer_and_exclude_after_disconnect n x) as [y [[]|e|]]; simpl in *; [|by left..].
    right. eexists. split; [|by apply JDisconnect]. simpl. by rewrite Hs.
  - apply asks_open; [done..|]. by apply JOpen.
  - unfold open_announced_channel. destruct (is_ok _) eqn:Hm; [|by left].
    apply asks_open; [done..|]. intros. by apply JOpenAnnounced.
  - by apply asks_splice_in.
  - unfold splice_out. destruct (find_channel v n u) as [d|] eqn:Hd; [|by left].
    destruct (Z.ltb_spec (ldk_outbound_capacity_msat d) amt) as [|Hc]; [by left|].
    unfold with_state, mbind at 1, cmd_bind at 1, lift.
    destruct (parse_and_validate_address _ _ _) as [[]|e|] eqn:Hp; [|by left..].
    right. eexists. split; [apply ask_calls|by eapply JSpliceOut].
  - eapply (asks_close _ _ _ _ _ false None); [intros d; by apply JClose|done].
  - eapply (asks_close _ _ _ _ _ true r); [intros d; by apply JForceClose|done].
  - unfold update_channel_config. destruct (find_channel v n u) as [d|] eqn:Hd; [|by left].
    right. eexists. split; [apply ask_calls|by eapply JUpdate].
  - by left.
  - left. apply silent_on_peers.
  - by left.
  - left. unfold startup. by repeat case_match.
Qed.

(** *** Peers *)

Section peers.
Context {KSPEC : KVStoreSpec S}.

Lemma remove_peer_cases i ps :
  let '(ps', r) := PeerStore.remove_peer i ps in
  (r = Ok tt ∧ PeerStore.peers ps' = delete i (PeerStore.peers ps)) ∨
  (r = Err PersistenceFailed ∧ PeerStore.peers ps' = PeerStore.peers ps).
Proof.
  unfold PeerStore.remove_peer, with_state, mbind, cmd_bind, modify.
  match goal with |- context [PeerStore.persist_or_restore ?d ?u ?s] =>
    destruct (PeerStore.persist_or_restore_cases d u s) as [(kv & -> & _)|(kv & -> & _)] end;
    simpl; [by left|right]. split; [done|].
  destruct (PeerStore.peers ps !! i) eqn:Hp; [by apply insert_delete_id|by apply delete_id].
Qed.

Lemma add_peer_other info ps i :
  PeerStore.node_id info ≠ i →
  PeerStore.peers (PeerStore.add_peer info ps).1 !! i = PeerStore.peers ps !! i.
Proof.
  intros Hi. unfold PeerStore.add_peer, with_state. case_decide as Hd; [done|].
  unfold mbind, cmd_bind, modify, with_state.
  match goal with |- context [PeerStore.persist_or_restore ?d ?u ?s] =>
    destruct (PeerStore.persist_or_restore_cases d u s) as [(kv & -> & _)|(kv & -> & _)] end;
    simpl; [by rewrite lookup_insert_ne|].
  destruct (PeerStore.peers ps !! PeerStore.node_id info).
  - by rewrite !lookup_insert_ne.
  - by rewrite lookup_delete_ne, lookup_insert_ne.
Qed.

Lemma out_remove_peer i j : moves (stays_out i) (on_peers (PeerStore.remove_peer j)).
Proof.
  intros x [Hp He]. unfold on_peers. pose proof (remove_peer_cases j (peer_store x)) as Hc.
  destruct (PeerStore.remove_peer j (peer_store x)) as [ps r]. split; [|done]. simpl.
  destruct Hc as [[_ ->]|[_ ->]]; [|done].
  destruct (decide (j = i)) as [->|Hne]; [apply lookup_delete_eq|by rewrite lookup_delete_ne].
Qed.
Lemma out_add_peer i info :
  PeerStore.node_id info ≠ i → moves (stays_out i) (add_peer_and_clear_exclusion info).
Proof.
  intros Hi x [Hp He]. pose proof (add_peer_other info (peer_store x) i Hi) as Ha.
  unfold add_peer_and_clear_exclusion, on_peers, mbind, cmd_bind.
  destruct (PeerStore.add_peer info (peer_store x)) as [ps [[]|e|]]; simpl in *;
    (split; simpl; [by rewrite Ha|]); [set_solver|done..].
Qed.
Lemma out_recover i v announced : moves (stays_out i) (recover_channel_peers v announced).
Proof.
  intros x [Hp He]. split; [|done]. simpl.
  unfold PeerStore.persist_missing_channel_peers_excluding.
  match goal with |- ?l = None => destruct l as [info|] eqn:Hl; [exfalso|done] end.
  apply PeerStore.add_missing_new in Hl as [Hin Hid]; [|done].
  apply PeerStore.elem_of_missing_peers in Hin as (_ & _ & Hex & _). by subst i.
Qed.

Lemma out_store_lsp i info :
  PeerStore.node_id info ≠ i → moves (stays_out i) (store_lsp info).
Proof.
  intros Hi x [Hp He]. pose proof (add_peer_other info (peer_store x) i Hi) as Ha.
  unfold store_lsp, on_peers. destruct (PeerStore.add_peer info (peer_store x)) as [ps r].
  split; [|done]. simpl in *. by rewrite Ha.
Qed.
Lemma out_store_channel_peer i announced n :
  n ≠ i → moves (stays_out i) (store_channel_peer announced n).
Proof.
  intros Hn x [Hp He]. split; [|done]. simpl.
  unfold PeerStore.persist_missing_channel_peers, PeerStore.persist_missing_channel_peers_excluding.
  match goal with |- ?l = None => destruct l as [info|] eqn:Hl; [exfalso|done] end.
  apply PeerStore.add_missing_new in Hl as [Hin Hid]; [|done].
  apply PeerStore.elem_of_missing_peers in Hin as (Hin & _). set_solver.
Qed.

Lemma out_ask i v c e : moves (stays_out i) (ask v c e).
Proof. intros x Hx. unfold ask, mbind, cmd_bind, call, modify. by destruct (ldk_ok v). Qed.
Lemma out_check i v amt n : moves (stays_out i) (check_sufficient_funds_for_channel v amt n).
Proof. apply moves_still; [apply _|]. apply check_funds_still. Qed.
Lemma out_lift i {A} (r : outcome Error A) : moves (stays_out i) (lift r).
Proof. by intros x Hx. Qed.
Lemma out_mret i {A} (a : A) : moves (stays_out i) (mret a : ccmd A).
Proof. by intros x Hx. Qed.
Lemma out_fail i {A} (e : Error) : moves (stays_out i) (fail e : ccmd A).
Proof. by intros x Hx. Qed.

Ltac solve_out :=
  repeat match goal with
  | |- moves _ (on_wallet _) => apply out_on_wallet
  | |- moves _ (call _) => apply out_call
  | |- moves _ (on_peers (PeerStore.remove_peer _)) => apply out_remove_peer
  | |- moves _ (exclude_after_last_channel_close _) => apply out_exclude
  | |- moves _ (on_exclusions _) => apply out_exclude
  | |- moves _ (ask _ _ _) => apply out_ask
  | |- moves _ (check_sufficient_funds_for_channel _ _ _) => apply out_check
  | |- moves _ (lift _) => apply out_lift
  | |- moves _ (mret _) => apply out_mret
  | |- moves _ (fail _) => apply out_fail
  | |- moves _ (add_peer_and_clear_exclusion _) => by apply out_add_peer
  | |- moves _ (cmd_map_err _ _) => apply moves_map_err
  | |- moves _ (with_state _) => apply moves_with_state; intros ?
  | |- moves _ (mbind _ _) => apply moves_bind; [apply _| |intros ?]
  | |- moves _ (match ?b with _ => _ end) => destruct b
  | |- moves _ (let _ := _ in _) => cbv zeta
  end.

(** No other call takes a forgotten peer back. *)
Lemma out_open i v n a amt push c announce :
  n ≠ i → moves (stays_out i) (open_channel_inner v n a amt push c announce).
Proof. intros Hn. unfold open_channel_inner. solve_out. Qed.

Lemma out_exec i v o x : readmits i o = false → stays_out i x (exec v o x).
Proof.
  intros Hr. destruct o as [n a p|n|n a amt push c|n a amt push c|u n amt|u n a amt|u n|u n r|u n c|ad|info|ad n|ad];
    simpl in Hr; repeat case_bool_decide; try done;
    unfold exec, connect, disconnect, open_channel, open_announced_channel, splice_in, splice_out,
      close_channel, force_close_channel, close_channel_internal, update_channel_config,
      remove_peer_and_exclude_after_disconnect.
  all: try done.
  1-2: destruct p; try done.
  all: match goal with |- stays_out _ ?y (?m _).1 => apply (λ H : moves (stays_out i) m, H y) end.
  all: solve_out.
  all: try (by apply out_open); try apply out_recover.
  all: first [by apply out_store_lsp|by apply out_store_channel_peer].
Qed.

Lemma out_run i os y :
  forgotten i y → Forall (λ '(_, o), readmits i o = false) os → forgotten i (run os y).
Proof.
  intros Hf Hos. revert y Hf. induction Hos as [|[v o] os Ho _ IH]; intros y Hf; [done|].
  apply IH. by apply (out_exec i v o y).
Qed.

(** C20. Disconnecting a peer removes it from the store first and only then disconnects it:
    when the removal cannot be stored, LDK is not asked and the peer stays known.  Once it
    succeeded, the peer stays out of the store, for whatever calls of the user, events and
    retries of the gossip synchronisation follow, with whatever LDK's channels, answers and
    graph, until the user connects to it persistently, opens a channel with it or buys one
    from it as an LSP, the peer's own channel becomes pending, or the node is built anew. *)
Theorem forgotten_peer_stays v i x :
  let '(y, r) := disconnect v i x in
  (r = Ok tt → calls y = calls x ++ [DisconnectByNodeId i] ∧
     ∀ os, Forall (λ '(_, o), readmits i o = false) os → forgotten i (run os y)) ∧
  (r ≠ Ok tt → calls y = calls x ∧
     PeerStore.peers (peer_store y) = PeerStore.peers (peer_store x) ∧
     rgs_peer_recovery_exclusions y = rgs_peer_recovery_exclusions x).
Proof.
  unfold disconnect. destruct (is_running v); simpl; [|done].
  unfold remove_peer_and_exclude_after_disconnect, on_peers, mbind, cmd_bind.
  pose proof (remove_peer_cases i (peer_store x)) as Hc.
  destruct (PeerStore.remove_peer i (peer_store x)) as [ps r].
  destruct Hc as [[-> Hp]|[-> Hp]]; simpl; [|done]. split; [|done]. intros _. split; [done|].
  intros os Hos. match goal with |- forgotten i (run os ?y) => assert (forgotten i y) as Hf end.
  { split; simpl; [by rewrite Hp, lookup_delete_eq|set_solver]. }
  by apply out_run.
Qed.
End peers.

(** A splice-out of a channel of the peer is checked against the outbound capacity in
    millisatoshis although its amount is in satoshis: LDK is asked to take out any amount up
    to a thousand times what the channel can pay, where the address is of the network. *)
Theorem splice_out_unit_confusion v u n a amt d x :
  find_channel v n u = Some d → address_valid a (Wallet.network (wallet x)) = true →
  amt ≤ ldk_outbound_capacity_msat d →
  last (calls (splice_out v u n a amt x).1)
    = Some (SpliceChannel (ldk_channel_id d) n (SpliceOut [mkTxOut amt (address_script a)])
              (funding_feerate_per_kw (fee_rate x))) ∧
  ((splice_out v u n a amt x).2 = Ok tt ↔ ldk_ok v = true).
Proof.
  intros Hd Ha Hamt. unfold splice_out. rewrite Hd.
  destruct (Z.ltb_spec (ldk_outbound_capacity_msat d) amt) as [Hlt|_];
    [by apply Z.lt_nge in Hlt|].
  unfold with_state, parse_and_validate_address, lift, ask, mbind, cmd_bind, call, modify.
  rewrite Ha. destruct (ldk_ok v); simpl; by rewrite last_snoc.
Qed.
End channels.
Arguments state S W P D F SocketAddress : clear implicits.
Arguments env SocketAddress : clear implicits.
End Channels.
