(* ===== verification/NodeExamples.v ===== *)
(** * The node's wallet on concrete wallets

    Keys, loaders, persisters and codecs that meet the assumptions made of the libraries,
    a node with two accounts, and the theorems about the node's wallet applied to it. *)

From Stdlib Require Import Strings.Byte.
From S2P Require Import Prelude Errors KVStore DataStore Types PaymentStore Bdk AggTypes Codec.
From S2P Require Import AggUtxo AggSigning AggRbf Aggregate AggBuild AggInvariant SampleWallet.
From S2P Require Import FeeEstimator Config WalletExamples WalletKeys Event EventQueue NodeMetrics.
From S2P Require Import TxBroadcaster Wallet WalletAccounts WalletPayments WalletSend.
From S2P Require Import WalletBroadcast WalletUtxos Broadcast OnchainPayment StoreExamples.

(** ** A byte form of payment records and metrics *)

#[global] Program Instance PaymentDirection_countable : Countable PaymentDirection :=
  inj_countable' (λ d, match d with Inbound => true | Outbound => false end)
    (λ b, if b : bool then Inbound else Outbound) _.
Next Obligation. by intros []. Qed.
#[global] Program Instance PaymentStatus_countable : Countable PaymentStatus :=
  inj_countable' (λ d, match d with Pending => None | Succeeded => Some true | Failed => Some false end)
    (λ b, match b with None => Pending | Some true => Succeeded | Some false => Failed end) _.
Next Obligation. by intros []. Qed.
#[global] Program Instance ConfirmationStatus_countable : Countable ConfirmationStatus :=
  inj_countable'
    (λ c, match c with PaymentStore.Confirmed b h t => Some (b, h, t)
                     | PaymentStore.Unconfirmed => None end)
    (λ c, match c with Some (b, h, t) => PaymentStore.Confirmed b h t
                     | None => PaymentStore.Unconfirmed end) _.
Next Obligation. by intros []. Qed.
#[global] Program Instance LSPFeeLimits_countable : Countable LSPFeeLimits :=
  inj_countable' (λ l, (max_total_opening_fee_msat l, max_proportional_opening_fee_ppm_msat l))
    (λ '(a, b), Build_LSPFeeLimits a b) _.
Next Obligation. by intros []. Qed.
#[global] Program Instance PaymentKind_countable : Countable PaymentKind :=
  inj_countable'
    (λ k, match k with
          | Onchain t s => inl (t, s)
          | Bolt11 h p s d b => inr (inl (h, p, s, d, b))
          | Bolt11Jit h p s f l d b => inr (inr (inl (h, p, s, f, l, d, b)))
          | Bolt12Offer h p s o n q => inr (inr (inr (inl (h, p, s, o, n, q))))
          | Bolt12Refund h p s n q => inr (inr (inr (inr (inl (h, p, s, n, q)))))
          | Spontaneous h p => inr (inr (inr (inr (inr (h, p)))))
          end)
    (λ k, match k with
          | inl (t, s) => Onchain t s
          | inr (inl (h, p, s, d, b)) => Bolt11 h p s d b
          | inr (inr (inl (h, p, s, f, l, d, b))) => Bolt11Jit h p s f l d b
          | inr (inr (inr (inl (h, p, s, o, n, q)))) => Bolt12Offer h p s o n q
          | inr (inr (inr (inr (inl (h, p, s, n, q))))) => Bolt12Refund h p s n q
          | inr (inr (inr (inr (inr (h, p))))) => Spontaneous h p
          end) _.
Next Obligation. by intros []. Qed.
#[global] Instance PaymentTlv_eq_dec : EqDecision PaymentTlv.
Proof. solve_decision. Defined.
#[global] Program Instance PaymentTlv_countable : Countable PaymentTlv :=
  inj_countable'
    (λ t, (tlv0_id t, tlv1_lsp_fee_limits t, tlv2_preimage t, tlv3_kind t, tlv4_secret t,
           tlv5_latest_update_timestamp t, tlv6_amount_msat t, tlv7_fee_paid_msat t,
           tlv8_direction t, tlv10_status t))
    (λ '(a, b, c, d, e, f, g, h, i, j), Build_PaymentTlv a b c d e f g h i j) _.
Next Obligation. by intros []. Qed.
#[global] Instance NodeMetrics_eq_dec : EqDecision NodeMetrics.
Proof. solve_decision. Defined.
#[global] Program Instance NodeMetrics_countable : Countable NodeMetrics :=
  inj_countable'
    (λ m, (latest_lightning_wallet_sync_timestamp m, latest_onchain_wallet_sync_timestamp m,
           latest_fee_rate_cache_update_timestamp m, latest_rgs_snapshot_timestamp m,
           latest_pathfinding_scores_sync_timestamp m,
           latest_node_announcement_broadcast_timestamp m,
           latest_channel_monitor_archival_height m, last_known_spendable_onchain_balance_sats m,
           last_known_total_onchain_balance_sats m, last_known_total_lightning_balance_sats m,
           monitored_wallet_sync_timestamps m))
    (λ '(a, b, c, d, e, f, g, h, i, j, k), mkNodeMetrics a b c d e f g h i j k) _.
Next Obligation. by intros []. Qed.

Definition to_bytes `{Countable A} (x : A) : bytes := wr_positive (encode x).
Definition from_bytes `{Countable A} (bs : bytes) : option A :=
  '(p, _) ← rd_positive bs; decode p.
Lemma from_to_bytes `{Countable A} (x : A) : from_bytes (to_bytes x) = Some x.
Proof.
  unfold from_bytes, to_bytes. rewrite <- (app_nil_r (wr_positive _)), rd_wr_positive. simpl.
  by rewrite countable.decode_encode.
Qed.

(** ** Keys, loaders and persisters *)

#[global] Instance account_order : IterOrder OnchainWalletAccount :=
  canonical_order OnchainWalletAccount.

(** Keys are byte strings; a derived key is the parent's with the length of the path. *)
#[global] Instance sample_bip32 : Bip32 (list u8) := {
  new_master _ seed := Some seed;
  fingerprint k := take 4 k;
  derive_priv k p := Some (k ++ replicate (length p) x01);
  xpub_string k := x78 :: k;
}.

Definition empty_wallet (tip : CheckPoint) : SampleWallet := {|
  s_utxos := []; s_txs := []; s_internal := []; s_external := []; s_tip := tip; s_revealed := 0
|}.
Definition with_tip (w : SampleWallet) (tip : CheckPoint) : SampleWallet := {|
  s_utxos := s_utxos w; s_txs := s_txs w; s_internal := s_internal w;
  s_external := s_external w; s_tip := tip; s_revealed := s_revealed w
|}.

(** Nothing is stored; a new wallet is empty. *)
#[global] Instance sample_loader : WalletLoader (list u8) SampleWallet (list bool) := {
  load_wallet _ _ _ _ p := (p, Ok None);
  create_wallet _ _ _ _ p := (p, Some (empty_wallet genesis));
  checkpoint_insert _ b := Some {| cp_height := block_height b; cp_hash := block_hash b;
                                   cp_get := λ n, if n =? block_height b then Some b else None |};
  apply_chain_update w tip := (with_tip w tip, true);
}.

(** The store of a persister is its schedule of failures. *)
#[global] Instance sample_persister : Persister (list bool) (list bool) := {
  persister_new d _ := d;
  persister_store p := p;
  set_persister_store d _ := d;
  persister_rewind _ p := (p, Ok tt);
}.
#[global] Instance sample_persister_spec : PersisterSpec (list bool) (list bool).
Proof. by split. Qed.

(** ** A node

    Its primary wallet spends from native segwit; it monitors a taproot wallet. *)

Definition native : OnchainWalletAccount := account_zero NativeSegwit.
Definition taproot : OnchainWalletAccount := account_zero Taproot.
Definition seed : list u8 := [x2a].

Abbreviation node_state :=
  (Wallet.Wallet FaultyStore SampleWallet (list bool) (list bool)).

Definition payments (faults : list bool) :
    DataStore.DataStore PaymentDetails PaymentId FaultyStore :=
  DataStore.mkDataStore ∅ "payments" EmptyString {| contents := ∅; faults := faults |}.

Definition sample_node (faults : list bool) : node_state :=
  Wallet.new wallet_a [] [(taproot, wallet_b, [])] seed new_broadcaster
    OnchainFeeEstimator.new (payments faults) NativeSegwit Regtest false
    (λ _, []) (mkRuntimeConfig NativeSegwit [Taproot] []) default_node_metrics 25.

Lemma sample_node_inv faults : inv (sample_node faults).
Proof.
  split.
  - split_and!; [done|vm_compute; reflexivity|done].
  - split; cbn.
    + apply (bool_decide_unpack _). vm_compute. exact I.
    + apply (bool_decide_unpack _). vm_compute. exact I.
    + intros a Ha. left. change (a ∈ ({[native; taproot]} : gset OnchainWalletAccount)) in Ha.
      set_unfold. destruct Ha as [-> | ->]; cbn; auto.
    + constructor.
    + constructor.
Qed.

(** ** Accounts *)

Definition account_calls : list (WalletAccounts.op
    (AggInvariant.op (K := OnchainWalletAccount) (W := SampleWallet) (P := list bool) (U := unit))) :=
  [AddMonitored Legacy seed; RemoveMonitored Taproot; SetPrimary Legacy seed;
   AddAccount Taproot 1 (x20 :: x78 :: seed ++ [x01; x01; x01]); RemoveMonitored Legacy;
   RemoveAccount Taproot 1].

Lemma accounts_refine_witness :
  match trace account_calls (sample_node []) with
  | (s', l) =>
      inv s' ∧ l.*1 = [true; true; true; true; false; true] ∧ Forall consistent l.*2
  end.
Proof.
  pose proof (accounts_refine account_calls (sample_node [])
    ltac:(repeat constructor; vm_compute; congruence) (sample_node_inv [])) as Ht.
  assert ((trace account_calls (sample_node [])).2.*1 = [true; true; true; true; false; true]) as Hr
    by (vm_compute; reflexivity).
  destruct (trace account_calls (sample_node [])) as [s' l].
  exact (conj (proj1 Ht) (conj Hr (proj2 (proj2 Ht)))).
Defined.

Lemma snapshot_current_witness :
  match trace [RemoveMonitored Legacy; SetPrimary Taproot seed] (sample_node []) with
  | (s', l) =>
      Wallet.account_generation s' = 0 ∧ Forall (λ y, loaded y = {[native; taproot]}) l.*2
  end.
Proof.
  pose proof (snapshot_current [RemoveMonitored Legacy; SetPrimary Taproot seed] (sample_node [])
    ltac:(repeat constructor) (sample_node_inv []) ltac:(vm_compute; split; congruence)
    ltac:(vm_compute; reflexivity)) as Ht.
  assert (Wallet.account_generation
    (trace [RemoveMonitored Legacy; SetPrimary Taproot seed] (sample_node [])).1 = 0) as Hg
    by (vm_compute; reflexivity).
  destruct (trace [RemoveMonitored Legacy; SetPrimary Taproot seed] (sample_node [])) as [s' l].
  exact (conj Hg (proj2 (Ht Hg))).
Defined.

Lemma removal_retains_data_witness :
  match WalletAccounts.exec (RemoveMonitored Taproot) (sample_node []) with
  | (s', r) => is_ok r = true ∧ data_kept taproot (sample_node []) s'
  end.
Proof.
  pose proof (removal_retains_data (RemoveMonitored Taproot) taproot (sample_node []) eq_refl
    (sample_node_inv [])) as Ht.
  assert (is_ok (WalletAccounts.exec (RemoveMonitored Taproot) (sample_node [])).2 = true) as Hr
    by (vm_compute; reflexivity).
  destruct (WalletAccounts.exec (RemoveMonitored Taproot) (sample_node [])) as [s' r].
  cbn [snd] in Hr. rewrite Hr in Ht. exact (conj Hr Ht).
Defined.

Lemma account_keys_exact_witness :
  0 ≤ account_index (mkAccount Taproot 7) ∧
  ∃ ext int, account_templates (mkAccount Taproot 7) seed Regtest = Ok (ext, int) ∧
    template_path Regtest ext = account_path Regtest (mkAccount Taproot 7) ++ [Normal 0] ∧
    template_path Regtest int = account_path Regtest (mkAccount Taproot 7) ++ [Normal 1].
Proof.
  destruct (proj1 (account_keys_exact Regtest seed (mkAccount Taproot 7) ltac:(cbn; lia))
    ltac:(vm_compute; split; congruence)) as [(ext & int & H1 & _ & _ & _ & _ & H2 & H3) _].
  split; [cbn; lia|]. exact (ex_intro _ ext (ex_intro _ int (conj H1 (conj H2 H3)))).
Defined.

Definition configured : list OnchainWalletAccountConfig :=
  [{| configured_type := Taproot; configured_index := 1;
      configured_xpub := x20 :: x78 :: seed ++ [x01; x01; x01] |};
   {| configured_type := Taproot; configured_index := 1;
      configured_xpub := x78 :: seed ++ [x01; x01; x01; x0a] |}].

Lemma configured_accounts_checked_witness :
  validate_configured_onchain_wallet_accounts Regtest seed configured = Ok [mkAccount Taproot 1] ∧
  Forall (account_ok Regtest seed) configured ∧ NoDup [mkAccount Taproot 1].
Proof.
  pose proof (configured_accounts_checked Regtest seed configured
    ltac:(repeat constructor; cbn; lia)) as [Hiff Hacc].
  assert (validate_configured_onchain_wallet_accounts Regtest seed configured
    = Ok [mkAccount Taproot 1]) as Hv by (vm_compute; reflexivity).
  refine (conj Hv (conj (proj2 Hiff _) (proj1 (Hacc _ Hv)))). by rewrite Hv.
Defined.

Definition sample_config : Config unit :=
  mkConfig None None (Some default_anchor_channels_config) NativeSegwit [Taproot; Taproot].

Definition built : (OnchainWalletAccount → list bool) *
    outcome BuildError (list (OnchainWalletAccount * SampleWallet * list bool)) :=
  build_additional_wallets Regtest (config_additional_address_types sample_config)
    [mkAccount Taproot 1] seed (Some (mkBestBlock [x05] 5)) 25 (λ _, []).

Lemma built_consistent_witness :
  match built.2 with
  | Ok ws =>
      inv (Wallet.new wallet_a [] ws seed new_broadcaster OnchainFeeEstimator.new (payments [])
             NativeSegwit Regtest false built.1 (from_config sample_config [mkAccount Taproot 1])
             default_node_metrics 25 : node_state)
  | _ => False
  end.
Proof.
  assert (is_ok built.2 = true) as Hok by (vm_compute; reflexivity).
  destruct built.2 as [ws|e|] eqn:Hb; [|discriminate Hok..].
  refine (proj1 (built_consistent sample_config Regtest seed configured [mkAccount Taproot 1]
    (Some (mkBestBlock [x05] 5)) 25 (λ _, []) built.1 ws wallet_a [] seed new_broadcaster
    OnchainFeeEstimator.new (payments []) false default_node_metrics _ _ _)).
  - repeat constructor; vm_compute; congruence.
  - vm_compute; reflexivity.
  - change (built = (built.1, Ok ws)). by rewrite <- Hb, <- surjective_pairing.
Defined.

(** ** Metrics *)

Abbreviation sample_event := (Event unit unit unit).
#[local] Instance event_codec : Codec sample_event := {
  enc _ := [];
  dec _ := None;
}.

Definition metrics_start : NodeMetrics.state (S := FaultyStore) :=
  NodeMetrics.mkState default_node_metrics
    (EventQueue.mkEventQueue (Event := sample_event) [] None
       {| contents := {[NODE_METRICS_KEY := to_bytes default_node_metrics]}; faults := [] |} []).

Definition reported : list Balances :=
  [mkBalances 100 200 0; mkBalances 100 200 0; mkBalances 150 250 1000].

Lemma balance_events_chain_witness :
  EventQueue.queue (events (balance_updates to_bytes reported metrics_start).1)
    = [balance_changed (mkBalances 0 0 0) (mkBalances 100 200 0);
       balance_changed (mkBalances 100 200 0) (mkBalances 150 250 1000)] ∧
  metrics_stored to_bytes (balance_updates to_bytes reported metrics_start).1.
Proof.
  assert ((balance_updates to_bytes reported metrics_start).2 = Ok tt) as Hok
    by (vm_compute; reflexivity).
  destruct (balance_updates to_bytes reported metrics_start) as [s' r] eqn:Hrun.
  cbn [snd] in Hok. subst r.
  assert (metrics_stored to_bytes metrics_start) as Hst0 by (vm_compute; reflexivity).
  destruct (balance_events_chain to_bytes from_bytes from_to_bytes reported metrics_start s'
    Hst0 Hrun) as (Hq & _ & Hst & _).
  exact (conj Hq Hst).
Defined.

(** ** Payments *)

Definition update_payments : node_state → node_state * outcome Error unit :=
  update_payment_store to_bytes from_bytes (λ _, 1000).

Lemma payments_valid faults :
  DataStore.valid (OBJ := payments_storable to_bytes from_bytes) (payments faults).
Proof. split; [reflexivity|]. intros i o H. by destruct (lookup_empty_Some i o H). Qed.

Lemma payments_follow_chain_witness :
  match update_payments (sample_node []) with
  | (s', r) =>
      is_ok r = true ∧ Wallet.payment_store_update_pending s' = false ∧
      DataStore.valid (OBJ := payments_storable to_bytes from_bytes) (Wallet.payment_store s') ∧
      status <$> entry s' [x0b] = Some Pending
  end.
Proof.
  assert (is_ok (update_payments (sample_node [])).2 = true) as Hok by (vm_compute; reflexivity).
  assert (status <$> entry (update_payments (sample_node [])).1 [x0b] = Some Pending) as Hst
    by (vm_compute; reflexivity).
  destruct (update_payments (sample_node [])) as [s' r] eqn:Hrun. cbn [fst snd] in Hok, Hst.
  destruct (payments_follow_chain to_bytes from_bytes from_to_bytes (λ _, 1000) (sample_node []) s' r
    (payments_valid []) Hrun) as (Hv & _ & Hp & _).
  rewrite Hok in Hp. exact (conj Hok (conj Hp (conj Hv Hst))).
Defined.

(** ** Sending *)

Definition txid_text (t : Txid) : string := payment_id_to_hex_str t.
Definition recipient : Address := mkAddress EmptyString script_other.
Definition chosen : list OutPoint := [mkOutPoint [x0b] 0].

Definition prepared : node_state * outcome Error Transaction :=
  WalletSend.prepare_send_to_address 165 253 (λ _ _, true) recipient (ExactRetainingReserve 40000 25000)
    (Some 250) (Some chosen) [Some (mkOutPoint [x0e] 0)] (sample_node []).

Lemma prepared_Ok : ∃ tx, prepared = (prepared.1, Ok tx).
Proof.
  assert (is_ok prepared.2 = true) as Hok by (vm_compute; reflexivity).
  destruct prepared as [s [tx|e|]]; [by exists tx|discriminate Hok..].
Qed.


Lemma named_inputs_safe_witness :
  ∃ tx (s1 : node_state) psbt b (w w' : SampleWallet), prepared = (prepared.1, Ok tx) ∧
    build.sign_psbt_all (Wallet.inner s1) psbt = Ok tx ∧
    finish w b = (w', inl psbt) ∧ build.builder_outpoints b = chosen.
Proof.
  destruct prepared_Ok as [tx Hrun]. exists tx.
  destruct (named_inputs_safe 165 253 (λ _ _, true) recipient (ExactRetainingReserve 40000 25000)
    (Some 250) (Some chosen) [Some (mkOutPoint [x0e] 0)] (sample_node []) prepared.1 tx Hrun eq_refl)
    as (s1 & psbt & b & w & w' & Hs & Hf & Hos & _).
  exact (ex_intro _ s1 (ex_intro _ psbt (ex_intro _ b (ex_intro _ w (ex_intro _ w'
    (conj Hrun (conj Hs (conj Hf (proj1 (Hos _ eq_refl)))))))))).
Defined.

Definition wallet_calls : list (call (W := SampleWallet) (P := list bool) (U := unit)) :=
  [Send recipient (ExactRetainingReserve 40000 25000) (Some 250) (Some chosen) [];
   RefreshPayments (λ _, 1000);
   Bump [x0d] 1000 [];
   Send recipient AllDrainingReserve None None [];
   LdkBroadcast [joint_tx; joint_tx];
   TakePackage].

Definition after_calls (faults : list bool) : node_state * list (outcome Error (option Txid)) :=
  WalletBroadcast.run to_bytes from_bytes txid_text 165 253 (λ _ _, true) wallet_calls (sample_node faults).

Lemma sample_node_apart faults : apart (sample_node faults).
Proof. intros H. vm_compute in H. discriminate H. Qed.
Lemma sample_node_recorded faults : all_recorded txid_text [] (sample_node faults).
Proof. intros p Hp. by apply elem_of_nil in Hp. Qed.

Lemma broadcasts_recorded_witness :
  (after_calls [true]).2
    = [Err PersistenceFailed; Ok None; Err TransactionNotBroadcastByWallet;
       Ok (Some [x54]); Ok None; Ok None] ∧
  packages (Wallet.broadcaster (after_calls [true]).1) = [[joint_tx; joint_tx]] ∧
  all_recorded txid_text [[joint_tx; joint_tx]] (after_calls [true]).1 ∧
  is_Some (WalletBroadcast.record_of txid_text (after_calls [true]).1 [x54]).
Proof.
  assert ((after_calls [true]).2
    = [Err PersistenceFailed; Ok None; Err TransactionNotBroadcastByWallet;
       Ok (Some [x54]); Ok None; Ok None]) as Hr by (vm_compute; reflexivity).
  assert (packages (Wallet.broadcaster (after_calls [true]).1) = [[joint_tx; joint_tx]]) as Hq
    by (vm_compute; reflexivity).
  destruct (after_calls [true]) as [s' rs] eqn:Hrun. cbn [fst snd] in *. subst rs.
  destruct (broadcasts_recorded to_bytes from_bytes txid_text 165 253 (λ _ _, true) [] wallet_calls
    (sample_node [true]) s' _ (sample_node_apart [true]) (sample_node_recorded [true]) Hrun)
    as (Hall & Hrec & _).
  refine (conj eq_refl (conj Hq (conj Hall (Hrec [x54] (or_introl _))))).
  apply (bool_decide_unpack _). vm_compute. exact I.
Defined.

(** A node that broadcast [joint_tx] before. *)
Definition sender_node : node_state :=
  Wallet.set_payment_store
    (DataStore.set_kv
       {| contents := {[Wallet.broadcast_key txid_text [x0d] := []]}; faults := [] |} (payments []))
    (sample_node []).

Lemma rbf_own_only_witness :
  apart sender_node ∧
  match WalletSend.bump_fee_by_rbf txid_text [x0d] 1000 [] sender_node with
  | (s', Ok t') => is_Some (WalletBroadcast.record_of txid_text sender_node [x0d]) ∧
                   is_Some (WalletBroadcast.record_of txid_text s' t')
  | _ => False
  end.
Proof.
  split; [exact (sample_node_apart [])|].
  assert (is_ok (WalletSend.bump_fee_by_rbf txid_text [x0d] 1000 [] sender_node).2 = true) as Hok
    by (vm_compute; reflexivity).
  destruct (WalletSend.bump_fee_by_rbf txid_text [x0d] 1000 [] sender_node) as [s' [t'|e|]] eqn:Hrun;
    [|discriminate Hok..].
  pose proof (rbf_own_only txid_text [x0d] 1000 [] sender_node s' (Ok t') (sample_node_apart []) Hrun)
    as Ht.
  exact (conj (proj1 Ht) (proj1 (proj2 Ht))).
Defined.

(** ** Prepared sends *)

Definition answering (r : outcome Error BroadcastResponse) : env :=
  mkEnv true false true r.

Definition shown : node_state * outcome Error PreparedOnchainSend :=
  OnchainPayment.prepare_send_to_address 165 253 (λ _ _, true) [] sample_config
    (answering (Ok RAccepted)) recipient 40000 (Some 250)
    (Some [mkSpendableUtxo (mkOutPoint [x0b] 0) 50000]) (sample_node []).

Lemma prepared_send_exact_witness :
  ∃ p, shown = (shown.1, Ok p) ∧ tx_inputs (prepared_tx p) ≡ₚ chosen ∧
    Wallet.transaction_fee_sats (prepared_tx p) shown.1 = Ok (mining_fee_sats p).
Proof.
  assert (is_ok shown.2 = true) as Hok by (vm_compute; reflexivity).
  destruct shown as [s' [p|e|]] eqn:Hrun; [|discriminate Hok..]. exists p.
  destruct (prepared_send_exact 165 253 (λ _ _, true) [] sample_config (answering (Ok RAccepted))
    recipient 40000 (Some 250) (Some [mkSpendableUtxo (mkOutPoint [x0b] 0) 50000]) (sample_node [])
    s' p Hrun) as (_ & _ & _ & _ & Hos & Hfee & _).
  exact (conj eq_refl (conj (Hos _ eq_refl) Hfee)).
Defined.

Definition candidate_start : sending_state :=
  mkSending (sample_node [true]) (mkPrepared joint_tx false 100000 200 None) [] [].

(** The first call cannot record the broadcast, the chain source of the second has no client, the third
    gets one, and the fourth is given it again. *)
Lemma prepared_answer_final_witness :
  let '(x1, rs1) := OnchainPayment.run txid_text
    [answering (Ok RAccepted); answering (Err NotRunning); answering (Ok RUnknown)]
    candidate_start in
  let '(x2, rs2) := OnchainPayment.run txid_text [answering (Ok RAccepted)] x1 in
  rs1 = [Err PersistenceFailed; Err NotRunning; Ok (Unknown [x54])] ∧
  requested x2 = [joint_tx; joint_tx] ∧ submitted x2 = [joint_tx] ∧
  ∀ r, r ∈ rs2 → r = Ok (Unknown [x54]) ∨ r = Err PaymentSendingFailed.
Proof.
  assert (prod_map requested (λ rs, rs) (OnchainPayment.run txid_text
    [answering (Ok RAccepted); answering (Err NotRunning); answering (Ok RUnknown)]
    candidate_start) = ([joint_tx; joint_tx],
      [Err PersistenceFailed; Err NotRunning; Ok (Unknown [x54])])) as Hr by (vm_compute; reflexivity).
  destruct (OnchainPayment.run txid_text _ candidate_start) as [x1 rs1] eqn:H1.
  injection Hr as Hreq ->.
  destruct (OnchainPayment.run txid_text [answering (Ok RAccepted)] x1) as [x2 rs2] eqn:H2.
  destruct (prepared_answer_final txid_text joint_tx 100000 200 (sample_node [true]) _ _ x1 x2 _ _
    H1 H2) as (_ & _ & Hok & _).
  destruct (Hok (Unknown [x54])) as (_ & Hr2 & Hs2 & Hone & Hrs); [right; right; left|].
  rewrite Hr2, Hs2, Hone by (rewrite !elem_of_cons, elem_of_nil; naive_solver).
  exact (conj eq_refl (conj Hreq (conj eq_refl Hrs))).
Defined.
