(* ===== verification/ChainExamples.v ===== *)
(** * The chain sources, connections and the node's life on concrete runs

    Witnesses: the theorems about synchronisation, shared attempts and starting and
    stopping, applied to small runs that are evaluated. *)

From Stdlib Require Import Floats.SpecFloat Strings.Byte.
From S2P Require Import Prelude Errors Sharing KVStore Runtime Lifecycle DataStore Types Connection.
From S2P Require Import SyncStatus PaymentStore Bdk AggTypes Codec AggUtxo AggSigning Aggregate AggBuild.
From S2P Require Import AggInvariant SampleWallet Config WalletKeys Event EventQueue NodeMetrics StoreExamples.
From S2P Require Import TxBroadcaster Wallet WalletAccounts WalletPayments ChainSync Mempool Bitcoind.
From S2P Require Import Floats FeeEstimator Json ChainFees Broadcast SyncLoop Electrum LightningSync NodeExamples.

(** ** Shared attempts *)

Definition peer : PublicKey := [x02].

(** One caller connects and another one waits for it. *)
Definition two_callers : sharing.state (R := ConnectionManager.ConnectionManager)
    (K := PublicKey) (Phase := ConnectionManager.phase) :=
  sharing.begin_attempt 1%nat peer ConnectionManager.Resolving
    (sharing.begin_attempt 0%nat peer ConnectionManager.Resolving (sharing.init ConnectionManager.new)).

Lemma two_callers_reached :
  rtc (ConnectionManager.connect_step_or_drop (SocketAddr := unit))
    (sharing.init ConnectionManager.new) two_callers.
Proof.
  eapply rtc_l; [by apply sharing.Step, sharing.StepBegin|].
  eapply rtc_once. by apply sharing.Step, sharing.StepBegin.
Qed.

Lemma connect_attempts_shared_witness :
  sharing.tasks two_callers !! 1%nat = Some (sharing.Waiting peer 1%nat) ∧
  let s := sharing.complete 0%nat peer (Err InvalidSocketAddress) two_callers in
  sharing.delivered s !! 1%nat = Some (Err InvalidSocketAddress).
Proof.
  split; [by vm_compute|]. intros s.
  destruct (ConnectionManager.connect_attempts_shared two_callers two_callers_reached) as (_ & H & _).
  destruct (H 0%nat peer ConnectionManager.Resolving (ConnectionManager.Resolved None)
    (Err InvalidSocketAddress)) as [_ Hall]; [by vm_compute|done|].
  destruct (Hall 1%nat 1%nat s) as [[_ Hd]|Hf]; [by vm_compute..|exact (rtc_refl _ _)|exact Hd|].
  by vm_compute in Hf.
Defined.

(** One caller synchronises and another one waits. *)
Definition two_syncs : sharing.state (R := WalletSyncStatus) (K := unit) (Phase := unit) :=
  sharing.begin_attempt 1%nat tt tt (sharing.begin_attempt 0%nat tt tt (sharing.init Completed)).

Lemma two_syncs_reached : rtc sync_step (sharing.init Completed) two_syncs.
Proof. eapply rtc_l; [by apply sharing.StepBegin|]. eapply rtc_once. by apply sharing.StepBegin. Qed.
Lemma two_syncs_reached_or_drop : rtc sync_step_or_drop (sharing.init Completed) two_syncs.
Proof.
  eapply rtc_l; [by apply sharing.Step, sharing.StepBegin|].
  eapply rtc_once. by apply sharing.Step, sharing.StepBegin.
Qed.

Lemma syncs_shared_witness :
  let s := sharing.complete 0%nat tt (Ok tt) two_syncs in
  sharing.delivered s !! 1%nat = Some (Ok tt).
Proof.
  intros s. destruct (syncs_shared two_syncs two_syncs_reached) as (_ & _ & H).
  destruct (H 0%nat (Ok tt)) as [_ Hall]; [by exists tt; vm_compute|].
  destruct (Hall 1%nat 1%nat s) as [[_ Hd]|Hf]; [by vm_compute..|exact (rtc_refl _ _)|exact Hd|].
  by vm_compute in Hf.
Defined.


(** ** Starting and stopping *)

Definition nothing : meanwhile := mkMeanwhile ∅ ∅.
Definition fine (c : unit) : unit * outcome Error unit := (c, Ok tt).
Definition full_start : Node.start_inputs :=
  Node.mkStartInputs nothing true false (Some (Some 2%nat)) true true false.
Definition started : Node.Node (C := unit) :=
  (Node.start fine fine Datatypes.id full_start (Node.new tt)).1.

Lemma started_reached :
  rtc (Node.step fine fine Datatypes.id Datatypes.id) (∅, Node.new tt) (∅, started).
Proof.
  apply rtc_once.
  apply (Node.StepStart fine fine Datatypes.id Datatypes.id full_start ∅ (Node.new tt) started (Ok tt)).
  assert (Hok : (Node.start fine fine Datatypes.id full_start (Node.new tt)).2 = Ok tt)
    by (vm_compute; reflexivity).
  rewrite <-Hok. apply surjective_pairing.
Qed.

(** A start whose address is taken, and then one that works: the first one's
    synchronisation still runs. *)
Definition unbound_start : Node.start_inputs :=
  Node.mkStartInputs nothing true false (Some None) true true false.
Definition refused_start : Node.Node (C := unit) :=
  (Node.start fine fine Datatypes.id unbound_start (Node.new tt)).1.
Definition restarted : Node.Node (C := unit) :=
  (Node.start fine fine Datatypes.id full_start refused_start).1.

Lemma restarted_reached :
  rtc (Node.step fine fine Datatypes.id Datatypes.id) (∅, Node.new tt) ({[1%nat]}, restarted).
Proof.
  assert (H1 : (Node.start fine fine Datatypes.id unbound_start (Node.new tt)).2
    = Err InvalidSocketAddress) by (vm_compute; reflexivity).
  assert (H2 : (Node.start fine fine Datatypes.id full_start refused_start).2 = Ok tt)
    by (vm_compute; reflexivity).
  assert (H3 : Node.after_start (Err InvalidSocketAddress) refused_start ∅ = {[1%nat]})
    by (vm_compute; reflexivity).
  eapply rtc_l; [apply (Node.StepStart fine fine Datatypes.id Datatypes.id unbound_start ∅ (Node.new tt)
    refused_start (Err InvalidSocketAddress)); rewrite <-H1; apply surjective_pairing|].
  rewrite H3. apply rtc_once.
  change {[1%nat]} with (Node.after_start (Ok tt) restarted {[1%nat]}) at 2.
  apply Node.StepStart with (i := full_start). rewrite <-H2. apply surjective_pairing.
Qed.

Lemma running_tasks_current_witness :
  Node.is_running restarted = true ∧
  RuntimeControl.alive (1, Node.CHAIN_SYNC)%nat (Node.runtime restarted) ∧
  ∀ t, RuntimeControl.alive t (Node.runtime restarted) → t.1 = Node.starts restarted ∨ t.1 ∈ ({[1%nat]} : gset nat).
Proof.
  destruct (Node.running_tasks_current fine fine Datatypes.id Datatypes.id tt {[1%nat]} restarted
    restarted_reached) as (H & _ & _).
  assert (Ha : RuntimeControl.alive (1, Node.CHAIN_SYNC)%nat (Node.runtime restarted)).
  { left. exists 0%nat. eexists; split; [by vm_compute|]. by apply (bool_decide_unpack _); vm_compute. }
  exact (conj eq_refl (conj Ha (H eq_refl))).
Defined.

Lemma processor_failure_reported_witness :
  let n := (Node.processor_ends Datatypes.id (1, Node.PROCESSOR)%nat (Returned (Err KindOther)) started).1 in
  Node.is_running n = false ∧
  (Node.start fine fine Datatypes.id (Node.mkStartInputs nothing false false None false false false) n).2
    = Err PersistenceFailed.
Proof.
  intros n. destruct (Node.processor_failure_reported fine fine Datatypes.id Datatypes.id tt ∅ started (1, Node.PROCESSOR)%nat
    KindOther started_reached) as (Hr & Hs & _); [by vm_compute|by vm_compute|].
  split; [exact Hr|]. fold n in Hs. by rewrite Hs.
Defined.

(** ** Following a full node *)

Abbreviation paying := (compute_txid payment_tx).

(** The mempool holds one payment; the joint payment has left it. *)
Definition node_answers : rpc_answers :=
  mkAnswers (Some [paying]) (λ _, Some (Some (1700, 5)))
    (λ t, if decide (t = paying) then Some (Some payment_tx) else Some None).
Definition first_poll : BitcoindClient.polling :=
  BitcoindClient.mkPoll node_answers (Some 2000) 5 [([x0d], 1500)] false true.
Abbreviation fresh_client := (BitcoindClient.mkFollowing BitcoindClient.new ∅ []).

Lemma node_answers_honest : BitcoindClient.honest node_answers.
Proof. intros t tx. simpl. case_decide; [|done]. by intros [= <-]. Qed.

Lemma mempool_followed_witness :
  let '(f, update) := BitcoindClient.follow first_poll fresh_client in
  paying ∈ BitcoindClient.handed f ∧
  (update_evicted <$> update) = Some [([x0d], 2000)].
Proof.
  destruct (BitcoindClient.follow first_poll fresh_client) as [f update] eqn:Hf.
  assert (Hu : update = (BitcoindClient.follow first_poll fresh_client).2) by (by rewrite Hf).
  vm_compute in Hu. subst update. split; [|by vm_compute].
  destruct (BitcoindClient.mempool_followed fresh_client first_poll f _
    BitcoindClient.followed_new node_answers_honest Hf) as (_ & H & _).
  assert (Hp : BitcoindClient.polls f = [(0, first_poll)]).
  { replace f with (BitcoindClient.follow first_poll fresh_client).1 by (by rewrite Hf). reflexivity. }
  assert (He : is_Some (BitcoindClient.mempool_entries_cache (BitcoindClient.client f) !! paying)).
  { replace f with (BitcoindClient.follow first_poll fresh_client).1 by (by rewrite Hf).
    vm_compute. by eexists. }
  unfold BitcoindClient.missed, BitcoindClient.late in H. rewrite Hp in H.
  destruct (H paying He) as [Hin|[(w & p & Hw & Hn)|(w & p & time & height & Hw & Hn & Hlt)]]; [exact Hin|..];
    apply list_elem_of_singleton in Hw as [= -> ->].
  - by vm_compute in Hn.
  - injection Hn as <- <-. discriminate Hlt.
Defined.

(** The taproot account is removed during the first attempt. *)
Abbreviation sample_poll := (Bitcoind.poll_inputs (W := SampleWallet) (P := list bool) (U := unit)).
Definition quiet_poll (events : list Bitcoind.sync_event) : sample_poll :=
  Bitcoind.mkPollInputs [] (λ _ _, 1000) events true [] 5 node_answers (Some 2000) [] (Some 2000).
Definition removing : nat → sample_poll * list (WalletAccounts.op
    (AggInvariant.op (K := OnchainWalletAccount) (W := SampleWallet) (P := list bool) (U := unit))) := λ n,
  (quiet_poll (match n with 0%nat => [Bitcoind.Meanwhile (RemoveMonitored Taproot)] | _ => [] end), []).
Lemma removing_typed n :
  Forall typed (Bitcoind.attempt_calls (removing n)) ∧
  Z.of_nat (length (Bitcoind.attempt_calls (removing n))) < 2 ^ 64.
Proof. destruct n; (split; [repeat constructor|done]). Qed.
Abbreviation polled := (Bitcoind.poll_and_update_listeners to_bytes from_bytes to_bytes removing
  (Bitcoind.new (sample_node []))).

Lemma poll_complete_witness :
  let b := polled.1 in
  Wallet.get_loaded_onchain_wallet_accounts (Bitcoind.wallet b) = [native] ∧
  Bitcoind.last_mempool_account_generation b = 1.
Proof.
  assert (Hok : polled.2 = Ok tt) by (vm_compute; reflexivity).
  assert (Hl : Wallet.get_loaded_onchain_wallet_accounts (Bitcoind.wallet polled.1) = [native])
    by (vm_compute; reflexivity).
  assert (Hg : Wallet.account_generation (Bitcoind.wallet polled.1) = 1) by (vm_compute; reflexivity).
  assert (Hu : is_u64 (Wallet.account_generation (Bitcoind.wallet (Bitcoind.new (sample_node [])))))
    by (vm_compute; split; congruence).
  destruct polled as [b r] eqn:Hrun. cbn [fst snd] in *. subst r. split; [exact Hl|].
  destruct (Bitcoind.poll_complete to_bytes from_bytes to_bytes removing (Bitcoind.new (sample_node []))
    b removing_typed (sample_node_inv []) Hu Hrun) as
    (n & s2 & c & update & _ & _ & _ & _ & _ & _ & _ & _ & _ & Hlast).
  by rewrite Hlast.
Defined.

(** ** Fee rates

    The server sends a rate of -1 BTC per 1000 virtual bytes, as Bitcoin Core does when it has
    no estimate, then nothing a number can be read from, and otherwise 0.0002. *)

Definition raw_estimates : list json :=
  JNumber (NegInt (-1)) :: JNull ::
  replicate 8 (JNumber (Float (f64_div (f64_of_Z 2) (f64_of_Z 10000)))).
Definition fee_answers : ChainFees.fee_source := ChainFees.FromElectrum true (InTime (Ok raw_estimates)).
Definition no_fees : ChainFees.state (S := FaultyStore) :=
  ChainFees.mkState OnchainFeeEstimator.new default_node_metrics {| contents := ∅; faults := [] |}.
Definition no_conversion (n : Z) (m : gmap Z spec_float) : option spec_float := None.
Abbreviation fees_updated :=
  (ChainFees.update_fee_rate_estimates 253 to_bytes no_conversion BitcoinMainnet fee_answers
    (Some 3000) no_fees).
Abbreviation cached_fees := (OnchainFeeEstimator.fee_rate_cache (ChainFees.fee_estimator fees_updated.1)).

Lemma raw_estimates_valid : ChainFees.floats_valid fee_answers.
Proof.
  intros j x Hj. repeat (apply elem_of_cons in Hj as [->|Hj]; [intros [= <-]; by vm_compute|]).
  by apply not_elem_of_nil in Hj.
Qed.

Lemma fees_replaced_whole_witness :
  cached_fees !! OnchainPayment = Some 250 ∧ cached_fees !! Lightning OutputSpendingFee = Some 5000 ∧
  ∀ target, is_Some (cached_fees !! target).
Proof.
  assert (Hr : fees_updated.2 = Ok tt) by (vm_compute; reflexivity).
  split; [vm_compute; reflexivity|]. split; [vm_compute; reflexivity|].
  destruct (ChainFees.fees_replaced_whole 253 to_bytes no_conversion BitcoinMainnet fee_answers (Some 3000)
    no_fees fees_updated.1 fees_updated.2 ltac:(done) raw_estimates_valid (surjective_pairing _))
    as [[_ Hn]|(_ & H & _)]; [by destruct (Hn eq_refl)|]. by apply H.
Defined.

(** ** Submitting

    The first connection breaks after two seconds; the answer comes on the second one. *)

Definition retried : electrum_replies :=
  mkReplies (mkCall 2 (Some (Err (AllAttemptsErrored [IOError true; JSONError true]))))
    (mkReconnect 3 (Some true)) 0 (mkCall 4 (Some (Ok (compute_txid payment_tx)))).
Definition no_json (bs : list u8) : option json := None.
Definition no_txid (bs : list u8) : option Txid := None.

Lemma broadcast_answers_definite_witness :
  acknowledged no_txid payment_tx (ToElectrum true retried) ∧
  (broadcast_with_timeout no_json payment_tx TX_BROADCAST_TIMEOUT_SECS retried).2 = 9.
Proof.
  split; [|by vm_compute].
  apply (broadcast_answers_definite no_json no_txid payment_tx (ToElectrum true retried) RAccepted); [by vm_compute|done].
Defined.

(** ** Intervals, connections and the Lightning wallet *)

Definition built_intervals : BackgroundSyncConfig := mkSyncConfig 60 5 600.
Abbreviation interval_calls :=
  [SyncLoop.Start; SyncLoop.Update battery_saving; SyncLoop.Changed; SyncLoop.Stop].
Abbreviation stopped_loop := (SyncLoop.run interval_calls (SyncLoop.new (Some built_intervals))).
Definition restarted_loop : SyncLoop.state := SyncLoop.exec SyncLoop.Start stopped_loop.

Lemma sync_intervals_follow_witness :
  SyncLoop.current_sync_intervals restarted_loop = battery_saving ∧
  SyncLoop.loop restarted_loop = Some (SyncLoop.mkLoop 60 10 600 1).
Proof.
  destruct (SyncLoop.sync_intervals_follow built_intervals interval_calls restarted_loop [])
    as (Hl & Hc & _); [by vm_compute|by vm_compute|by intros ? ?%elem_of_nil|].
  split; [exact Hc|]. by rewrite Hl.
Defined.

(** Two tasks find the first client broken; one has replaced it. *)
Definition two_reconnects : Reconnect.state :=
  Reconnect.connected 0 0 (Reconnect.check_current 1 0 (Reconnect.check_current 0 0
    (Reconnect.begin_reconnect 1 0 (Reconnect.begin_reconnect 0 0 Reconnect.init)))).

Lemma two_reconnects_reached : rtc Reconnect.step Reconnect.init two_reconnects.
Proof.
  eapply rtc_l; [by apply (Reconnect.StepBegin 0 0)|].
  eapply rtc_l; [by apply (Reconnect.StepBegin 1 0)|].
  eapply rtc_l; [by apply (Reconnect.StepCheck 0 0)|]. eapply rtc_l; [by apply (Reconnect.StepCheck 1 0)|].
  eapply rtc_once. by apply (Reconnect.StepConnected 0 0).
Qed.

Lemma reconnect_keeps_newer_witness :
  let s := Reconnect.connected 1 0 two_reconnects in
  Reconnect.current two_reconnects = 1%nat ∧ (0 < Reconnect.current s)%nat.
Proof.
  intros s. split; [by vm_compute|].
  destruct (Reconnect.reconnect_keeps_newer two_reconnects s two_reconnects_reached) as (_ & H & _).
  - apply rtc_once. by apply Reconnect.StepConnected.
  - apply (H 0%nat 0%nat). by vm_compute.
Defined.

Abbreviation lightning_synced :=
  (sync_lightning_wallet to_bytes (LightningElectrum true (InTime (Ok tt)) true) (Some 4000) 700 (sample_node [])).
Lemma lightning_sync_recorded_witness :
  latest_lightning_wallet_sync_timestamp (Wallet.node_metrics lightning_synced.1) = Some 4000.
Proof.
  assert (Hr : lightning_synced.2 = Ok tt) by (vm_compute; reflexivity).
  destruct (lightning_sync_recorded to_bytes (LightningElectrum true (InTime (Ok tt)) true) (Some 4000) 700
    (sample_node []) lightning_synced.1 lightning_synced.2 (surjective_pairing _)) as [H _].
  destruct (H Hr) as (_ & Ht & _). exact Ht.
Defined.

(** ** Synchronising

    An update carries the transactions a wallet knows afterwards and the events of it. *)

Definition sample_update : Type := list WalletTx * list BdkWalletEvent.
Definition apply_sample (w : SampleWallet) (u : sample_update) :
    SampleWallet * option (list BdkWalletEvent) :=
  ({| s_utxos := s_utxos w; s_txs := u.1; s_internal := s_internal w;
      s_external := s_external w; s_tip := s_tip w; s_revealed := s_revealed w |}, Some u.2).
#[local] Instance update_bdk : Bdk SampleWallet (list bool) sample_update BdkWalletEvent :=
  sample_bdk_with apply_sample.
#[local] Instance update_bdk_spec : BdkSpec SampleWallet (list bool) sample_update BdkWalletEvent :=
  sample_bdk_with_spec apply_sample.
#[local] Instance sample_event_codec : Codec sample_event := { enc _ := []; dec _ := None }.
#[local] Instance sample_bitcoin_address : BitcoinAddress := { address_from_script _ _ := None }.

Abbreviation sync_state := (ChainSync.state (S := FaultyStore) (W := SampleWallet) (P := list bool)
  (D := list bool) (PaymentFailureReason := unit) (ClosureReason := unit) (CustomTlvRecord := unit)).

Definition before_sync : sync_state :=
  ChainSync.mkState (sample_node [])
    (EventQueue.mkEventQueue [] None {| contents := ∅; faults := [] |} []).

(** The payment confirms; the joint payment is no longer known. *)
Definition primary_answer : sample_update :=
  ([mkWalletTx [x0a] fund_a (Confirmed anchor_1 None);
    mkWalletTx [x0c] payment_tx (Confirmed anchor_1 None)],
   [TxConfirmed [x0c]; TxDropped [x0d]; TxConfirmed [x0c]]).
Definition taproot_answer : sample_update :=
  ([mkWalletTx [x0b] fund_b (Confirmed anchor_1 None)], []).

Definition sync_with (taproot_result : sample_update + Error) :
    ChainSync.sync_inputs (U := sample_update) :=
  ChainSync.mkSyncInputs
    (λ reqs _, ChainSync.Joined None (inl primary_answer) ::
       ((λ a, ChainSync.Joined (Some a) taproot_result) <$> reqs.*1))
    (Some 2000) (λ _, Some 2000) (λ _, 1000).

Abbreviation run_sync i :=
  (ChainSync.sync_onchain_wallet_with_events to_bytes from_bytes to_bytes i true
    (Some (ChainSync.mkChannelData 0 []))).

Lemma sync_events_exact_witness :
  ∃ s outcome,
    ChainSync.sync_onchain_wallet to_bytes from_bytes to_bytes (sync_with (inl taproot_answer))
      (sample_node []) = (s, Ok outcome) ∧
    ChainSync.check_evicted_transactions
      (AggregateWallet.unconfirmed_txids (Wallet.inner (sample_node []))) s = [[x0d]].
Proof.
  assert (Hok : (run_sync (sync_with (inl taproot_answer)) before_sync).2 = Ok tt)
    by (vm_compute; reflexivity).
  destruct (run_sync (sync_with (inl taproot_answer)) before_sync) as [x' r] eqn:Hrun.
  cbn [snd] in Hok. subst r.
  destruct (ChainSync.sync_events_exact to_bytes from_bytes to_bytes (sync_with (inl taproot_answer))
    (Some (ChainSync.mkChannelData 0 [])) before_sync x' Hrun)
    as (s & outcome & _ & _ & Hs & _).
  change (ChainSync.wallet before_sync) with (sample_node []) in Hs.
  exists s, outcome. split; [exact Hs|].
  assert (Hev : ChainSync.check_evicted_transactions
      (AggregateWallet.unconfirmed_txids (Wallet.inner (sample_node [])))
      (ChainSync.sync_onchain_wallet to_bytes from_bytes to_bytes (sync_with (inl taproot_answer))
        (sample_node [])).1 = [[x0d]]) by (vm_compute; reflexivity).
  by rewrite Hs in Hev.
Defined.

(** The other account's request times out: the eviction is lost. *)
Lemma failed_sync_hides_eviction_witness :
  let x1 := (run_sync (sync_with (inr WalletOperationTimeout)) before_sync).1 in
  let x2 := (run_sync (sync_with (inl taproot_answer)) x1).1 in
  OnchainTransactionEvicted [x0d] ∉ EventQueue.queue (ChainSync.event_queue x2).
Proof.
  intros x1 x2.
  assert (Hok : (run_sync (sync_with (inl taproot_answer)) x1).2 = Ok tt) by (vm_compute; reflexivity).
  assert (Hx2 : run_sync (sync_with (inl taproot_answer)) x1 = (x2, Ok tt))
    by (rewrite <-Hok; apply surjective_pairing).
  destruct (ChainSync.sync_onchain_wallet to_bytes from_bytes to_bytes
    (sync_with (inr WalletOperationTimeout)) (sample_node [])) as [s r] eqn:Hs.
  assert (Hr : (ChainSync.sync_onchain_wallet to_bytes from_bytes to_bytes
    (sync_with (inr WalletOperationTimeout)) (sample_node [])).2
    = Ok (ChainSync.mkOutcome [TxConfirmed [x0c]; TxDropped [x0d]; TxConfirmed [x0c]]
            (Some WalletOperationTimeout))) by (vm_compute; reflexivity).
  rewrite Hs in Hr. cbn [snd] in Hr. subst r.
  refine (ChainSync.failed_sync_hides_eviction to_bytes from_bytes to_bytes
    (sync_with (inr WalletOperationTimeout)) (sync_with (inl taproot_answer))
    (Some (ChainSync.mkChannelData 0 [])) (Some (ChainSync.mkChannelData 0 [])) before_sync s _
    WalletOperationTimeout [x0d] x2 Hs eq_refl _ _ Hx2).
  - assert (He : bool_decide ([x0d] ∈ ChainSync.check_evicted_transactions
      (AggregateWallet.unconfirmed_txids (Wallet.inner (sample_node [])))
      (ChainSync.sync_onchain_wallet to_bytes from_bytes to_bytes
        (sync_with (inr WalletOperationTimeout)) (sample_node [])).1) = true)
      by (vm_compute; reflexivity).
    rewrite Hs in He. exact (proj1 (bool_decide_eq_true _) He).
  - by apply not_elem_of_nil.
Defined.

Lemma sync_marks_exactly_witness :
  let r := ChainSync.sync_onchain_wallet to_bytes from_bytes to_bytes
             (sync_with (inl taproot_answer)) (sample_node []) in
  ChainSync.should_use_incremental_sync taproot (sample_node []) = false ∧
  ChainSync.should_use_incremental_sync taproot r.1 = true.
Proof.
  intros r. split; [by vm_compute|].
  assert (Hr : r.2 = Ok (ChainSync.mkOutcome [TxConfirmed [x0c]; TxDropped [x0d]; TxConfirmed [x0c]] None))
    by (vm_compute; reflexivity).
  assert (Hs : r = (r.1, Ok (ChainSync.mkOutcome [TxConfirmed [x0c]; TxDropped [x0d]; TxConfirmed [x0c]] None)))
    by (rewrite <-Hr; apply surjective_pairing).
  destruct (ChainSync.sync_marks_exactly to_bytes from_bytes to_bytes (sync_with (inl taproot_answer))
    {[native; taproot]} native (sample_node []) r.1 _ Hs) as (_ & _ & H).
  - split_and!; [vm_compute; reflexivity..|done].
  - intros reqs pr a Ha. left. eexists. right. apply list_elem_of_fmap. exists a. exact (conj eq_refl Ha).
  - destruct H as [_ H]; [done|]. apply (H taproot); [|by apply (bool_decide_unpack _); vm_compute|done].
    vm_compute. by left.
Defined.
