(* ===== verification/HandlerExamples.v ===== *)
(** * Payments, liquidity and event handling on concrete runs

    Witnesses: the theorems about payments, the liquidity source, unified payments and
    the event handler, applied to small runs that are evaluated. *)

From Stdlib Require Import Strings.Byte.
From S2P Require Import Prelude Errors KVStore Codec DataStore Types PaymentStore Bdk AggTypes.
From S2P Require Import Aggregate AggBuild AggInvariant SampleWallet FeeEstimator Config WalletKeys EventQueue Event NodeMetrics.
From S2P Require Import TxBroadcaster Wallet Broadcast WalletSend WalletUtxos OnchainPayment PeerStore RateLimiter.
From S2P Require Import StaticInvoiceStore OmMailbox StoreExamples NodeExamples Payments Liquidity Lsp NodePayments EventHandler.

#[local] Instance told_codec : Codec sample_event := { enc _ := [x01]; dec _ := None }.

(** ** Payments *)

Abbreviation pay_state := (Payments.state FaultyStore unit unit unit).
Definition sha (b : bytes) : bytes := x00 :: b.
Definition opening_fee (amount min_fee ppm : Z) : option Z :=
  Some (Z.max min_fee (amount * ppm / 1000000)).
Definition no_params : RouteParametersConfig := mkRouteParametersConfig None 1008 10 2.

Definition pay_start (faults : list bool) : pay_state :=
  Payments.mkState (payments faults)
    (EventQueue.new {| contents := ∅; faults := faults |}) [].

Definition invoice : Bolt11Invoice :=
  mkBolt11Invoice [x0a] [x0b] (Some 5000) (Direct "coffee") "lnbc".

(** An invoice of ours, and a payment of it of which the counterparty kept nothing. *)
Definition expecting (faults : list bool) : pay_state :=
  (Payments.bolt11_receive_inner to_bytes from_bytes 1
     (mkInvoiceManager (λ _, Some invoice) (λ _ _, Some [x0c])) (Some 5000) (Direct "coffee") 3600 None
     (pay_start faults)).1.
Definition incoming : Payments.claimable (CustomTlvRecord := unit) :=
  Payments.mkClaimable [x0a] (Bolt11InvoicePayment (Some [x0c]) [x0b]) 5000 None [] 0.
Definition claimable_run : pay_state * outcome ReplayEvent unit :=
  Payments.payment_claimable to_bytes from_bytes opening_fee 2 incoming (expecting []).

Lemma claimable_answered_witness :
  claimable_run.2 = Ok tt ∧
  Payments.answer opening_fee incoming (expecting []) (Payments.calls claimable_run.1) [] ∧
  Payments.calls claimable_run.1 = [ClaimFunds [x0c]].
Proof.
  assert (Payments.calls claimable_run.1 = [ClaimFunds [x0c]]) as Hc by (vm_compute; reflexivity).
  assert (EventQueue.queue (Payments.event_queue claimable_run.1) = []) as Hq by (vm_compute; reflexivity).
  assert (claimable_run.2 = Ok tt) as Hr by (vm_compute; reflexivity).
  destruct claimable_run as [x' r] eqn:Hrun. cbn [fst snd] in *. subst r.
  destruct (Payments.claimable_answered to_bytes from_bytes opening_fee 2 incoming (expecting []) x'
    (Ok tt) Hrun) as (cs & es & Hcs & Hes & Ha).
  assert (Payments.calls (expecting []) = []) as Hn by (vm_compute; reflexivity).
  assert (EventQueue.queue (Payments.event_queue (expecting [])) = []) as Hm by (vm_compute; reflexivity).
  rewrite Hn in Hcs. rewrite Hm, Hq in Hes. cbn [app] in Hcs, Hes. subst es. rewrite Hcs.
  split; [reflexivity|]. split; [exact Ha|]. rewrite <- Hcs. exact Hc.
Defined.

(** The payment is claimed; the write of the record fails, and the event that is handed
    out again tells the user nothing. *)
Definition claimed : Payments.payment_outcome (PaymentFailureReason := unit) (CustomTlvRecord := unit) :=
  Payments.OutcomeClaimed [x0a] (Bolt11InvoicePayment (Some [x0c]) [x0b]) 5000 [].
Definition delivered (faults : list bool) : pay_state * outcome ReplayEvent unit :=
  Payments.deliver [3; 4] (Payments.handle_outcome to_bytes from_bytes claimed) (expecting faults).

Lemma outcome_reported_once_witness :
  EventQueue.queue (Payments.event_queue (delivered [false; false]).1) =
    [PaymentReceived (Some [x0a]) [x0a] 5000 []] ∧
  EventQueue.queue (Payments.event_queue (delivered [false; true]).1) = [] ∧
  (delivered [false; true]).2 = Ok tt.
Proof.
  assert (Payments.settles to_bytes from_bytes 3 claimed (expecting [false; false]) = true) as H1
    by (vm_compute; reflexivity).
  assert (Payments.settles to_bytes from_bytes 3 claimed (expecting [false; true]) = false) as H2
    by (vm_compute; reflexivity).
  assert (EventQueue.queue (Payments.event_queue (expecting [false; false])) = []) as Q1
    by (vm_compute; reflexivity).
  assert (EventQueue.queue (Payments.event_queue (expecting [false; true])) = []) as Q2
    by (vm_compute; reflexivity).
  destruct (delivered [false; false]) as [x1 r1] eqn:D1.
  destruct (delivered [false; true]) as [x2 r2] eqn:D2.
  destruct (Payments.outcome_reported_once to_bytes from_bytes 3 4 [] claimed
    (expecting [false; false]) x1 r1 I D1) as (_ & _ & Hq1 & _).
  destruct (Payments.outcome_reported_once to_bytes from_bytes 3 4 [] claimed
    (expecting [false; true]) x2 r2 I D2) as (Hr2 & _ & Hq2 & _).
  rewrite H1, Q1 in Hq1. rewrite H2, Q2 in Hq2. cbn [fst snd].
  exact (conj Hq1 (conj Hq2 Hr2)).
Defined.

(** Paying an invoice of someone else, then trying again and handling its success. *)
Definition theirs : Bolt11Invoice :=
  mkBolt11Invoice [x1a] [x1b] (Some 7000) (Direct "tea") "lnbc7".
Definition paid : pay_state * outcome Error PaymentId :=
  Payments.bolt11_send to_bytes from_bytes no_params true 5 None (Ok tt) theirs None (pay_start []).
Definition later : list (Payments.op (PaymentFailureReason := unit) (CustomTlvRecord := unit)) :=
  [Payments.OpBolt11Send true 6 None (Ok tt) theirs None None;
   Payments.OpOutcome 7 (Payments.OutcomeSent [x1a] [x1a] [x1c] (Some 2));
   Payments.OpRemovePayment [x0a];
   Payments.OpBolt11Send true 8 None (Ok tt) theirs (Some 7000) None].

Lemma paid_once_witness :
  length (Payments.calls (Payments.run to_bytes from_bytes no_params sha opening_fee later paid.1)) = 1%nat ∧
  ∃ cs, Payments.calls (Payments.run to_bytes from_bytes no_params sha opening_fee later paid.1) =
    Payments.calls paid.1 ++ cs ∧ Forall (λ c, started c ≠ Some [x1a]) cs.
Proof.
  split; [vm_compute; reflexivity|].
  assert (paid.2 = Ok [x1a]) as Hok by (vm_compute; reflexivity).
  destruct paid as [x1 r] eqn:Hp. cbn [fst snd] in *. subst r.
  destruct (Payments.paid_once to_bytes from_bytes no_params sha opening_fee true 5 None (Ok tt)
    theirs None (pay_start []) x1 [x1a] later Hp) as (_ & _ & _ & H).
  - repeat constructor.
  - exact H.
Defined.

(** ** The liquidity source *)

Lemma answer_reaches_request_witness :
  let '(c, q) := Requests.register 7%nat (Requests.acts [Requests.Register 6%nat] Requests.new) in
  (Requests.await c (Requests.acts
     [Requests.Register 8%nat; Requests.Respond 6%nat 60; Requests.Respond 7%nat 70;
      Requests.Respond 7%nat 71] q)).2 = Ok (70 : Z).
Proof.
  exact (Requests.answer_reaches_request [Requests.Register 6%nat] 7%nat
    [Requests.Register 8%nat; Requests.Respond 6%nat 60; Requests.Respond 7%nat 70;
     Requests.Respond 7%nat 71] ltac:(repeat constructor; discriminate)).
Defined.

Definition cfg : Config bytes :=
  mkConfig (Some [[x7f]]) (Some "node"%string) (Some (mkAnchorChannelsConfig [[x77]] 25)) NativeSegwit [].
Abbreviation Source := (LiquiditySource.LiquiditySource nat nat unit unit bytes).
Abbreviation order := (LiquiditySource.LSPS1OrderStatus nat unit unit).

Definition seller : LSPS2ServiceConfig :=
  mkServiceConfig (Some "let me in"%string) 10000 100000 1000 144 2016 1000 1000000 false.
Definition the_lsp : LiquiditySource.lsp_client (SocketAddress := bytes) :=
  LiquiditySource.mkClient [x55] [x56] None.
Definition source : Source := LiquiditySource.build None (Some the_lsp) (Some seller).

Definition service : LiquiditySource.service_env bytes FaultyStore SampleWallet (list bool) (list bool) :=
  LiquiditySource.mkServiceEnv true 1000 42 43 (Some (λ _, Some true)) (sample_node []) [] cfg.

Definition dear : LSPS2OpeningFeeParams := mkOpeningFeeParams 2000 0 0 0 0 0 1000000 "a".
Definition cheap : LSPS2OpeningFeeParams := mkOpeningFeeParams 100 10000 0 0 0 0 1000000 "b".

(** The LSP answers both requests. *)
Definition answering (e : LiquiditySource.LiquidityEvent) (l : Source) : Source :=
  (LiquiditySource.handle_next_event service e l).1.
Definition purchase : LiquiditySource.jit_inputs nat nat unit unit string bytes :=
  LiquiditySource.mkJitInputs true 1%nat
    (answering (LiquiditySource.OpeningParametersReady 1%nat [x55] [dear; cheap])) (Some 2%nat)
    (answering (LiquiditySource.InvoiceParametersReady 2%nat [x55] 99 72)) None
    (Some ([x0a], [x0b])) (λ i, Some (mkBolt11Invoice (ji_payment_hash i) (ji_payment_secret i)
                                        (ji_amount_msat i) (Direct (ji_description i)) "lnjit")).

Definition jit_start : Lsp.state :=
  Lsp.mkState (pay_start []) (Some source)
    (PeerStore.mkPeerStore ∅ {| contents := ∅; faults := [] |}).
Definition lsp_env : Lsp.lsp_env := Lsp.mkLspEnv true true (Ok tt) true true.
Definition jit_run :=
  Lsp.receive_via_jit_channel_inner to_bytes from_bytes opening_fee 24 lsp_env 1 purchase
    (λ _, Some [x0c]) (Some 50000) "jit"%string 3600 (Some 1500) None None jit_start.

(** The payment arrives, and the LSP has kept more than the cheapest offer's 500 msat. *)
Definition skimmed (fee : Z) : Payments.claimable (CustomTlvRecord := unit) :=
  Payments.mkClaimable [x0a] (Bolt11InvoicePayment (Some [x0c]) [x0b]) 49500 None [] fee.

Lemma jit_fee_honoured_witness :
  (∀ y' r, Payments.payment_claimable to_bytes from_bytes opening_fee 2 (skimmed 501)
     (Lsp.payments jit_run.1) = (y', r) →
     Payments.calls y' = [FailHtlcBackwards [x0a]] ∨ Payments.calls y' = [] ∧ r = Err Replay) ∧
  (∀ y' r, Payments.payment_claimable to_bytes from_bytes opening_fee 2 (skimmed 500)
     (Lsp.payments jit_run.1) = (y', r) →
     Payments.calls y' = [ClaimFunds [x0c]] ∨ Payments.calls y' = [] ∧ r = Err Replay).
Proof.
  set (inv := mkBolt11Invoice [x0a] [x0b] (Some 50000) (Direct "jit") "lnjit").
  assert (jit_run.2 = Ok inv) as Hok by (vm_compute; reflexivity).
  assert (Payments.calls (Lsp.payments jit_run.1) = []) as Hc by (vm_compute; reflexivity).
  assert ((LiquiditySource.lsps2_request_opening_fee_params true 1%nat
    (LiquiditySource.ji_fee_wait purchase) source).2 = Ok [dear; cheap]) as Hmenu
    by (vm_compute; reflexivity).
  destruct jit_run as [x1 r1] eqn:Hrun. cbn [fst snd] in *. subst r1.
  destruct (Lsp.jit_fee_honoured to_bytes from_bytes opening_fee 24 lsp_env 1 purchase
    (λ _, Some [x0c]) (Some 50000) "jit"%string 3600 (Some 1500) None None jit_start x1 inv Hrun)
    as (l & l1 & menu & [= <-] & Hm & limit & (fee & params & [Hin Hmin] & _ & Hlim) & Hall).
  change (LiquiditySource.ji_fee_request purchase) with 1%nat in Hm.
  change (LiquiditySource.ji_handler purchase) with true in Hm. rewrite Hm in Hmenu.
  cbn [snd] in Hmenu. injection Hmenu as ->.
  assert (fee = 500) as ->.
  { apply Z.le_antisymm; [by apply (Hmin 500 cheap); vm_compute; right; left|].
    vm_compute in Hin. inversion Hin as [|? ? ? Hin']; [done|]. inversion Hin' as [|? ? ? Hn]; [done|].
    inversion Hn. }
  split; intros y' r Hp.
  - destruct (Hall 2 (skimmed 501) (Lsp.payments x1) y' r eq_refl eq_refl Hp) as [_ Hno].
    rewrite Hc in Hno. apply Hno. rewrite Hlim. cbn. lia.
  - destruct (Hall 2 (skimmed 500) (Lsp.payments x1) y' r eq_refl eq_refl Hp) as [Hyes _].
    rewrite Hc in Hyes. apply (Hyes ltac:(rewrite Hlim; cbn; lia) [x0c] eq_refl).
Defined.

Lemma service_guarded_witness :
  let '(l', r) := LiquiditySource.handle_next_event service
                    (LiquiditySource.OpenChannel [x77] 100000 5) source in
  ∃ c, LiquiditySource.calls l' = [c] ∧
    LiquiditySource.service_answer service source (LiquiditySource.OpenChannel [x77] 100000 5) c.
Proof.
  destruct (LiquiditySource.handle_next_event service (LiquiditySource.OpenChannel [x77] 100000 5)
    source) as [l' r] eqn:Hrun.
  assert (LiquiditySource.calls (LiquiditySource.handle_next_event service
    (LiquiditySource.OpenChannel [x77] 100000 5) source).1 ≠ []) as Hc by (vm_compute; discriminate).
  rewrite Hrun in Hc. cbn [fst] in Hc.
  destruct (LiquiditySource.service_guarded opening_fee service (LiquiditySource.OpenChannel [x77] 100000 5)
    source l' r) as [_ [Hs|(c & Hs & Ha)]].
  - intros c [= <-]. cbn. lia.
  - exact Hrun.
  - by rewrite Hs in Hc.
  - exists c. exact (conj Hs Ha).
Defined.

(** ** The event handler *)

Abbreviation handler_state :=
  (@EventHandler.state FaultyStore unit unit unit SampleWallet (list bool) (list bool)
     nat nat unit unit bytes _ _ unit unit bytes unit).
Abbreviation ldk_event := (EventHandler.LdkEvent (PaymentFailureReason := unit) (ClosureReason := unit)
  (CustomTlvRecord := unit) (SocketAddress := bytes) (StaticInvoice := unit)
  (BlindedMessagePath := unit) (OnionMessage := bytes) (SpendableOutput := unit)).
Definition handler_start (faults : list bool) : handler_state :=
  EventHandler.mkState (mkNode (sample_node []) (EventQueue.new {| contents := ∅; faults := faults |}) [])
    (Some source) (PeerStore.mkPeerStore ∅ {| contents := ∅; faults := [] |})
    (Some (StaticInvoiceStore.new {| contents := ∅; faults := [] |}))
    (Some OnionMessageMailbox.new) [].
Definition handler_env : EventHandler.env (SocketAddress := bytes) :=
  EventHandler.mkEnv 10 100 cfg [[x44]] [] (λ _, None) true None 77 true.
Definition handled (e : ldk_event) (x : handler_state) : handler_state * outcome ReplayEvent unit :=
  EventHandler.handle_event to_bytes from_bytes (λ _, []) (λ _, None) sha (λ s, s) opening_fee 253
    handler_env e x.

(** The LSP asks for an announced Anchor channel, which the funds cover. *)
Definition asked : ldk_event := EventHandler.OpenChannelRequest [x01] [x55] true true.

Lemma inbound_channel_guarded_witness :
  EventHandler.admissible handler_env [x55] true true (handler_start []) ∧
  ∃ overrides, EventHandler.ldk (handled asked (handler_start [])).1 =
    [EventHandler.AcceptInboundChannel [x01] [x55] 77 false (Some overrides)].
Proof.
  assert (EventHandler.ldk (handled asked (handler_start [])).1 =
    [EventHandler.AcceptInboundChannel [x01] [x55] 77 false
       (Some (mkOverride (Some 100) (Some true)))]) as Hc by (vm_compute; reflexivity).
  split; [|eexists; exact Hc].
  destruct (handled asked (handler_start [])) as [x' r] eqn:Hrun. cbn [fst] in Hc.
  destruct (EventHandler.inbound_channel_guarded to_bytes from_bytes (λ _, []) (λ _, None) sha
    (λ s, s) opening_fee 253 handler_env [x01] [x55] true true (handler_start []) x' r Hrun)
    as (_ & [[_ Hp]|(_ & c & Hl & [[_ ->]|[Ha _]])]).
  - exfalso. revert Hp. vm_compute. discriminate.
  - exfalso. rewrite Hc in Hl. discriminate Hl.
  - exact Ha.
Defined.

(** A channel is closed; the queue is stored, or the event is asked for again. *)
Definition closed : ldk_event := EventHandler.ChannelClosed [x01] tt 77 (Some [x55]).

Lemma lifecycle_durable_witness :
  EventHandler.passed_on (Event.ChannelClosed [x01] 77 (Some [x55]) (Some tt))
    (handler_start []) (handled closed (handler_start [])).1 (Ok tt) ∧
  EventQueue.queue (event_queue (EventHandler.node (handled closed (handler_start [true])).1)) =
    [Event.ChannelClosed [x01] 77 (Some [x55]) (Some tt)].
Proof.
  split; [|vm_compute; reflexivity].
  assert ((handled closed (handler_start [])).2 = Ok tt) as Hok by (vm_compute; reflexivity).
  destruct (handled closed (handler_start [])) as [x' r] eqn:Hrun. cbn [fst snd] in *. subst r.
  exact (EventHandler.lifecycle_durable to_bytes from_bytes (λ _, []) (λ _, None) sha
    (λ s, s) opening_fee 253 handler_env closed _ (handler_start []) x' (Ok tt) eq_refl Hrun).
Defined.

(** The sixth request at one instant is over the limit. *)
Definition wanted : ldk_event := EventHandler.StaticInvoiceRequested [x31] 0 tt [].
Definition after_five : handler_state :=
  Nat.iter 5 (λ x, (handled wanted x).1) (handler_start []).

Definition over_limit (store : option (StaticInvoiceStore.StaticInvoiceStore FaultyStore)) : bool :=
  match store with
  | Some st => negb (RateLimiter.allow 10 10 [x31] (StaticInvoiceStore.request_rate_limiter st)).2
  | None => false
  end.

Lemma limited_request_replayed_witness :
  (handled wanted (handler_start [])).2 = Ok tt ∧ (handled wanted after_five).2 = Err Replay.
Proof.
  split; [vm_compute; reflexivity|].
  assert (over_limit (EventHandler.static_invoice_store after_five) = true) as Hover
    by (vm_compute; reflexivity).
  destruct (EventHandler.static_invoice_store after_five) as [st|] eqn:Hst; [|discriminate Hover].
  cbn [over_limit] in Hover.
  destruct (RateLimiter.allow 10 10 [x31] (StaticInvoiceStore.request_rate_limiter st))
    as [limiter []] eqn:Ha; [discriminate Hover|].
  destruct (handled wanted after_five) as [x' r] eqn:Hrun.
  revert Hst Hrun. generalize after_five. intros x Hst Hrun.
  exact (proj1 (EventHandler.limited_request_replayed to_bytes from_bytes (λ _, []) (λ _, None) sha
    (λ s, s) opening_fee 253 handler_env wanted x x' r st limiter [x31] Hst
    (or_intror (ex_intro _ 0 (ex_intro _ tt (ex_intro _ [] (conj eq_refl Ha))))) Hrun)).
Defined.

(** ** Unified payments *)

(** A node over a store that takes everything; the offer is refused, the invoice is paid. *)
Definition plain_node : NodePayments.node PlainStore unit unit unit SampleWallet (list bool) (list bool) :=
  mkNode
    (Wallet.new wallet_a [] [(taproot, wallet_b, [])] seed new_broadcaster OnchainFeeEstimator.new
       (DataStore.mkDataStore ∅ "payments" EmptyString (∅ : PlainStore)) NativeSegwit Regtest false
       (λ _, []) (mkRuntimeConfig NativeSegwit [Taproot] []) default_node_metrics 25)
    (EventQueue.new (∅ : PlainStore)) [].
Definition the_offer : Offer := mkOffer [x21] (Some (BitcoinAmount 7000)).
Definition the_uri : uri := mkUri true recipient (Some 7) (Some theirs) (Some the_offer).
Definition answers : send_inputs :=
  mkSendInputs 5 None (Err SemanticOther) [x2a] (Ok tt).
Definition qr_run :=
  unified_send to_bytes from_bytes no_params txid_text 165 253 (λ _ _, true) [] cfg
    (OnchainPayment.mkEnv true false true (Ok RAccepted)) answers (Some the_uri) None plain_node.

Lemma unified_single_rail_witness :
  ∃ before c, calls qr_run.1 = before ++ [c] ∧ accepted answers c ∧
    Wallet.inner (wallet qr_run.1) = Wallet.inner (wallet plain_node) ∧
    qr_run.2 = Ok (QrBolt11 [x1a]).
Proof.
  assert (qr_run.2 = Ok (QrBolt11 [x1a])) as Hok by (vm_compute; reflexivity).
  assert (∃ c0 inv j a p, calls qr_run.1 = [c0; PayForBolt11Invoice inv j a p]) as (c0 & inv & j & a & p & Hc)
    by (vm_compute; eauto 10).
  destruct qr_run as [x' r] eqn:Hrun. cbn [fst snd] in *. subst r.
  destruct (unified_single_rail to_bytes from_bytes no_params txid_text 165 253 (λ _ _, true) [] cfg
    (OnchainPayment.mkEnv true false true (Ok RAccepted)) answers the_uri None plain_node x'
    (Ok (QrBolt11 [x1a])))
    as (cs & Hcs & Hone).
  - intros i [= <-]. discriminate.
  - exact Hrun.
  - change (calls plain_node) with (@nil payment_call) in Hcs. cbn in Hcs. subst cs.
    destruct (Hone [c0] _ [] Hc eq_refl) as [(k & _ & (kv & key & v & kv' & e & Hno) & _)|(_ & _ & Hw & _)].
    + discriminate Hno.
    + exists [c0], (PayForBolt11Invoice inv j a p). exact (conj Hc (conj eq_refl (conj Hw eq_refl))).
Defined.
