(* ===== verification/ChannelExamples.v ===== *)
(** * Channels, peers and balances on concrete runs

    Witnesses: the theorems about the node's channels, its peers and the overview of its
    balances, applied to a node with two accounts and one channel. *)

From Stdlib Require Import Strings.Byte.
From S2P Require Import Prelude Errors KVStore Codec DataStore Types PaymentStore Bdk AggTypes.
From S2P Require Import Aggregate AggBuild AggInvariant SampleWallet FeeEstimator Config WalletKeys Event NodeMetrics.
From S2P Require Import TxBroadcaster Wallet Broadcast WalletSend WalletUtxos OnchainPayment PeerStore StoreExamples.
From S2P Require Import NodeExamples HandlerExamples ChannelTypes Balances Channels.
Import ChannelTypes.

#[local] Instance peer_order : IterOrder PublicKey := canonical_order PublicKey.
#[local] Instance plain_scripts : Scripts unit := {
  is_p2pkh _ := false; witness_program_ok _ _ := false; new_witness_program _ _ := [];
  wpkh_ok _ := false; pkh_ok _ := false; xonly_ok _ := false;
  new_v0_p2wpkh o v b := mkLdkUtxo o (mkTxOut v b) 0;
  new_p2pkh o v b := mkLdkUtxo o (mkTxOut v b) 0;
  new_nested_p2wpkh o v b := mkLdkUtxo o (mkTxOut v b) 0;
  new_p2tr_key_spend _ _ := Some tt; new_p2wpkh _ _ := Some tt;
  witness_program _ := None; shutdown_script_ok _ := false;
}.

(** ** Channels *)

Definition the_config : LdkChannelConfig :=
  mkLdkChannelConfig 0 1000 72 (LdkFeeRateMultiplier 10000) 1000 false.
Definition the_user_config : UserConfig := mkUserConfig true false false false false false 10.
Definition the_channel : LdkChannelDetails :=
  mkLdkChannelDetails [x01] (mkCounterparty [x55] 100 None None None) (Some (mkOutPoint [x0f] 0))
    (Some true) None None None 20000 (Some 100) 77 (Some 253) 1000000 0 (Some 3) (Some 6)
    true true true false None 1000000 1 (Some 144) None None (Some the_config).

Abbreviation chan_state :=
  (Channels.state FaultyStore SampleWallet (list bool) (list bool) unit bytes).
Definition chan_env : Channels.env bytes :=
  Channels.mkEnv true (Ok tt) (λ _, Some true) [the_channel] cfg 78 true.
Definition chan_start (faults : list bool) : chan_state :=
  Channels.mkState (sample_node []) (PeerStore.new {| contents := ∅; faults := faults |}) ∅ [].

Definition chan_exec (o : Channels.channel_op) (x : chan_state) : chan_state :=
  Channels.exec (λ _ _, None) the_user_config the_config 220 [x2c] 253 (λ _ _, true) chan_env o x.
Definition opening : Channels.channel_op := Channels.OpOpen [x55] [x56] 10000 None None.

(** A channel the funds cover, with the reserve of 25 sat an anchor channel needs. *)
Lemma calls_justified_witness :
  ∃ c, Channels.calls (chan_exec opening (chan_start [])) = [c] ∧
    Channels.justified the_user_config the_config 253 (λ _ _, true) chan_env (chan_start []) opening c ∧
    Channels.funded chan_env (chan_start []) 10000 [x55].
Proof.
  assert (length (Channels.calls (chan_exec opening (chan_start []))) = 1%nat) as Hl
    by (vm_compute; reflexivity).
  assert (Channels.spendable chan_env (chan_start []) = Ok 89775) as Hs by (vm_compute; reflexivity).
  destruct (Channels.calls_justified (λ _ _, None) the_user_config the_config 220 [x2c] 253 (λ _ _, true)
    chan_env opening (chan_start [])) as [Hc|(c & Hc & Hj)].
  - vm_compute. discriminate.
  - intros av Hav. assert (av = 89775) as -> by congruence. split; [vm_compute; discriminate|].
    intros c [= <-]. split; vm_compute; discriminate.
  - exfalso. unfold chan_exec in Hl. rewrite Hc in Hl. discriminate Hl.
  - exists c. split; [exact Hc|]. split; [exact Hj|].
    exists 89775, true. split; [exact Hs|]. split; [reflexivity|]. vm_compute. discriminate.
Defined.

(** ** Peers *)

Definition known : PeerStore.PeerInfo bytes := PeerStore.mkPeerInfo [x55] [x56].
(** The peer with the channel is stored; then it is disconnected. *)
Definition knowing (faults : list bool) : chan_state :=
  (Channels.add_peer_and_clear_exclusion known (chan_start faults)).1.
Definition afterwards : list (Channels.env bytes * Channels.channel_op) :=
  [(chan_env, Channels.OpConnect [x66] [x67] true); (chan_env, Channels.OpRecover Some);
   (chan_env, Channels.OpConnect [x55] [x56] false);
   (chan_env, Channels.OpStoreLsp (PeerStore.mkPeerInfo [x68] [x69]));
   (chan_env, Channels.OpInboundPending Some [x66]); (chan_env, Channels.OpRecover Some)].
Definition apart (faults : list bool) : chan_state * outcome Error unit :=
  Channels.disconnect chan_env [x55] (knowing faults).

(** With the peer announced and its channel open, neither the retries nor a transient
    connection stores it again; when the removal cannot be stored it is not disconnected. *)
Lemma forgotten_peer_stays_witness :
  Channels.forgotten [x55] (Channels.run (λ _ _, None) the_user_config the_config 220 [x2c] 253
    (λ _ _, true) afterwards (apart []).1) ∧
  PeerStore.peers (Channels.peer_store (apart [false; true]).1) = {[ [x55] := known ]} ∧
  Channels.calls (apart [false; true]).1 = [].
Proof.
  assert ((apart []).2 = Ok tt) as H1 by (vm_compute; reflexivity).
  assert ((apart [false; true]).2 = Err PersistenceFailed) as H2 by (vm_compute; reflexivity).
  assert (PeerStore.peers (Channels.peer_store (knowing [false; true])) = {[ [x55] := known ]}) as Hk
    by (vm_compute; reflexivity).
  assert (Channels.calls (knowing [false; true]) = []) as Hc by (vm_compute; reflexivity).
  pose proof (Channels.forgotten_peer_stays (λ _ _, None) the_user_config the_config 220 [x2c] 253
    (λ _ _, true) chan_env [x55] (knowing [])) as T1.
  pose proof (Channels.forgotten_peer_stays (λ _ _, None) the_user_config the_config 220 [x2c] 253
    (λ _ _, true) chan_env [x55] (knowing [false; true])) as T2.
  unfold apart in *.
  destruct (Channels.disconnect chan_env [x55] (knowing [])) as [y1 r1].
  destruct (Channels.disconnect chan_env [x55] (knowing [false; true])) as [y2 r2].
  cbn [fst snd] in *. destruct T1 as [T1 _], T2 as [_ T2].
  destruct (T2 ltac:(congruence)) as (Hc2 & Hp2 & _).
  split; [apply (T1 H1); repeat constructor|]. split; congruence.
Defined.

(** A channel of 1000 sat outbound capacity is asked for 500000 sat. *)
Lemma splice_out_unit_confusion_witness :
  ldk_outbound_capacity_msat the_channel = 1000 * 1000 ∧
  last (Channels.calls (Channels.splice_out 253 (λ _ _, true) chan_env 77 [x55] recipient 500000
    (chan_start [])).1) =
  Some (Channels.SpliceChannel [x01] [x55]
    (Channels.SpliceOut [mkTxOut 500000 (address_script recipient)])
    (Channels.funding_feerate_per_kw 253 (Channels.fee_rate 253 (chan_start [])))).
Proof.
  split; [reflexivity|].
  exact (proj1 (Channels.splice_out_unit_confusion 253 (λ _ _, true) chan_env 77 [x55] recipient 500000
    the_channel (chan_start []) eq_refl eq_refl ltac:(vm_compute; discriminate))).
Defined.

(** ** Balances *)

Definition the_monitor : Balances.chain_monitor :=
  Balances.mkChainMonitor [[x01]; [x02]] (λ i,
    if decide (i = [x01])
    then Some ([x55], [Balances.LdkClaimableAwaitingConfirmations 700 12 Balances.CounterpartyForceClosed;
                       Balances.LdkClaimableOnChannelClose
                         [Balances.mkCandidate 300 9; Balances.mkCandidate 400 7] 1 0 0 0 0;
                       Balances.LdkCounterpartyRevokedOutputClaimable 50])
    else None).
Definition claimable_sats (b : Balances.LdkBalance) : Z :=
  match b with
  | Balances.LdkClaimableAwaitingConfirmations a _ _ => a
  | Balances.LdkCounterpartyRevokedOutputClaimable a => a
  | Balances.LdkClaimableOnChannelClose candidates i _ _ _ _ =>
      default 0 (Balances.candidate_amount_satoshis <$> candidates !! i)
  | _ => 0
  end.
Definition overview : outcome Error Balances.BalanceDetails :=
  Balances.list_balances claimable_sats [the_channel] cfg the_monitor [] (sample_node []).
Definition summary (d : Balances.BalanceDetails) : Z * Z * Z * Z :=
  (Balances.total_onchain_balance_sats d, Balances.spendable_onchain_balance_sats d,
   Balances.total_anchor_channels_reserve_sats d, Balances.total_lightning_balance_sats d).

Lemma sample_balances_nonneg k w :
  AggregateWallet.wallets (Wallet.inner (sample_node [])) !! k = Some w →
  AggregateWallet.nonneg_balance (balance_of w).
Proof.
  intros Hw. assert (map_Forall (λ _ w, 0 ≤ sum_Z ((λ u, value (txout u)) <$> s_utxos w))
    (AggregateWallet.wallets (Wallet.inner (sample_node [])))) as Ha.
  { apply (bool_decide_unpack _). vm_compute. exact I. }
  specialize (Ha k w Hw). unfold AggregateWallet.nonneg_balance. cbn. cbn in Ha. lia.
Qed.

Lemma balances_exact_witness :
  ∃ d, overview = Ok d ∧ summary d = (89800, 89775, 25, 1150) ∧
    Forall2 (λ claim l, Balances.reads_as claim.1.1 claim.1.2 claim.2 l) (Balances.claims the_monitor)
      (Balances.lightning_balances d) ∧
    Balances.claimable_map the_monitor !! [x01] = Some 400.
Proof.
  assert (summary <$> overview = Ok (89800, 89775, 25, 1150)) as Hs by (vm_compute; reflexivity).
  assert (Balances.listed_on_close [x01] <$> (Balances.lightning_balances <$> overview) = Ok [400]) as Hl
    by (vm_compute; reflexivity).
  pose proof (Balances.balances_exact claimable_sats [the_channel] cfg the_monitor [] (sample_node [])
    overview sample_balances_nonneg eq_refl) as H.
  destruct overview as [d|e|]; [|discriminate Hs..].
  destruct H as (H1 & _ & H3 & _). exists d. split; [reflexivity|]. cbn in Hs, Hl. split_and!.
  - injection Hs as H4 H5 H6 H7. unfold summary. by rewrite H4, H5, H6, H7.
  - exact H1.
  - rewrite H3; [|apply (bool_decide_unpack _); vm_compute; exact I]. injection Hl as ->. reflexivity.
Defined.
