(* ===== verification/BackendExamples.v ===== *)
(** * The backends of the key-value store on concrete runs

    Obfuscation, sealing and names that meet the assumptions made of the libraries, and the
    theorems about the stores applied to small runs. *)

From Stdlib Require Import Strings.Byte.
From S2P Require Import Prelude KVStore Config IoUtils WriteOrder SqliteStore VssStore LocalGraphStore.
From S2P Require Import NodeExamples.

(** ** Concurrent writes *)

Definition letter (c : Ascii.ascii) : bool := negb (Ascii.eqb c hash).
#[local] Instance names : StoreNames := SqliteStore.sqlite_names 120 letter.
#[local] Instance names_spec : StoreNamesSpec := SqliteStore.sqlite_names_spec 120 letter eq_refl.

Definition place : kv_key := ("bdk_wallet", "p2tr", "descriptor")%string.
(** The later call's task runs first; the earlier one finds its version stale. *)
Definition overtaken : list WriteOrder.action :=
  [WriteOrder.TakeVersion 0 place (WriteOrder.Write [x01]); WriteOrder.TakeRef 0;
   WriteOrder.TakeVersion 1 place (WriteOrder.Write [x02]); WriteOrder.TakeRef 1;
   WriteOrder.BeginWrite 1; WriteOrder.EndWrite 1 WriteOrder.Acknowledged; WriteOrder.CleanLocks 1;
   WriteOrder.BeginWrite 0; WriteOrder.CleanLocks 0].
Definition call (i v : Z) (b : u8) (p : WriteOrder.phase) : WriteOrder.task :=
  WriteOrder.mkTask i place (WriteOrder.Write [b]) 0 v p.

Lemma later_call_wins_witness :
  ∃ s, WriteOrder.run overtaken (WriteOrder.new ∅) = Some s ∧
    WriteOrder.write_version_locks s = ∅ ∧ WriteOrder.contents s !! place = Some [x02].
Proof.
  assert (WriteOrder.results <$> WriteOrder.run overtaken (WriteOrder.new ∅) =
    Some [(call 2 3 x02 (WriteOrder.Written (Ok tt)), Ok tt);
          (call 1 2 x01 (WriteOrder.Written (Ok tt)), Ok tt)]) as Hres by (vm_compute; reflexivity).
  assert (WriteOrder.applied <$> WriteOrder.run overtaken (WriteOrder.new ∅) =
    Some [call 2 3 x02 (WriteOrder.Written (Ok tt))]) as Happ by (vm_compute; reflexivity).
  assert (WriteOrder.write_version_locks <$> WriteOrder.run overtaken (WriteOrder.new ∅) = Some ∅) as Hlk
    by (vm_compute; reflexivity).
  destruct (WriteOrder.run overtaken (WriteOrder.new ∅)) as [s|] eqn:Hrun; [|discriminate Hres].
  exists s. split; [reflexivity|]. split; [by injection Hlk|].
  destruct (WriteOrder.later_call_wins ∅ overtaken s Hrun) as (_ & _ & _ & _ & Hlast).
  injection Hres as Hres. injection Happ as Happ.
  apply (Hlast (call 2 3 x02 (WriteOrder.Written (Ok tt)))).
  - rewrite Hres. apply list_elem_of_here.
  - intros u Hu _ Hv. exfalso. apply Hv. rewrite Happ in Hu. apply list_elem_of_singleton in Hu as ->. reflexivity.
Defined.

(** ** The SQLite file *)

Definition all_ok : SqliteStore.open_io := SqliteStore.mkOpenIo true true true true true true true true.
Definition old_rows : gmap (string * string) bytes := {[ ("bdk_wallet", "descriptor")%string := [x07] ]}.
Definition old_file : SqliteStore.database := SqliteStore.mkDatabase 1 (Some (SqliteStore.Schema1 old_rows)).

(** An old file is migrated; when the migration cannot be committed it stays as it was. *)
Lemma open_keeps_data_witness :
  let failing := SqliteStore.mkOpenIo true true true true true true false true in
  SqliteStore.data (SqliteStore.open all_ok old_file).1 = {[ ("bdk_wallet"%string, EmptyString, "descriptor"%string) := [x07] ]} ∧
  (SqliteStore.open failing old_file).2 = Err KindOther ∧
  SqliteStore.data (SqliteStore.open failing old_file).1 = {[ ("bdk_wallet"%string, EmptyString, "descriptor"%string) := [x07] ]}.
Proof.
  cbv zeta. set (failing := SqliteStore.mkOpenIo true true true true true true false true).
  assert (SqliteStore.data old_file = {[ ("bdk_wallet"%string, EmptyString, "descriptor"%string) := [x07] ]}) as Hd
    by (vm_compute; reflexivity).
  destruct (SqliteStore.open_keeps_data all_ok old_file _ _ eq_refl (surjective_pairing _)) as (_ & H1 & _).
  destruct (SqliteStore.open_keeps_data failing old_file _ _ eq_refl (surjective_pairing _)) as (_ & H2 & _).
  rewrite H1, H2, Hd. split; [reflexivity|]. split; [vm_compute; reflexivity|reflexivity].
Defined.

(** In a migrated file the descriptor of one account replaces that of the other. *)
Definition migrated : SqliteStore.table :=
  SqliteStore.mkTable false (SqliteStore.rows_of_schema1 old_rows).
Lemma migrated_rows_collide_witness :
  SqliteStore.rows (SqliteStore.run_statement (WriteOrder.Write [x02]) ("bdk_wallet", "p2tr", "descriptor")%string
    (SqliteStore.run_statements [] migrated)) !! ("bdk_wallet"%string, EmptyString, "descriptor"%string) = None.
Proof.
  destruct (SqliteStore.migrated_rows_collide all_ok old_rows [] migrated "bdk_wallet" "p2tr" EmptyString
    "descriptor" [x02] ltac:(discriminate)) as [H _].
  exact (H _ (surjective_pairing _) eq_refl).
Defined.

(** ** Listing at the VSS server *)

(** A character becomes eight binary digits. *)
Definition bit_char (b : bool) : Ascii.ascii := Ascii.ascii_of_nat (if b then 49 else 48).
Definition is_one (c : Ascii.ascii) : bool := Ascii.eqb c (bit_char true).
Fixpoint spell (s : string) : string :=
  match s with
  | EmptyString => EmptyString
  | String (Ascii.Ascii a b c d e f g h) s =>
      String (bit_char a) (String (bit_char b) (String (bit_char c) (String (bit_char d)
        (String (bit_char e) (String (bit_char f) (String (bit_char g) (String (bit_char h) (spell s))))))))
  end.
Fixpoint unspell (s : string) : outcome ErrorKind string :=
  match s with
  | EmptyString => Ok EmptyString
  | String a (String b (String c (String d (String e (String f (String g (String h s))))))) =>
      String (Ascii.Ascii (is_one a) (is_one b) (is_one c) (is_one d) (is_one e) (is_one f) (is_one g) (is_one h))
        <$> unspell s
  | _ => Err KindInvalidData
  end.
#[local] Instance plain_crypto : VssCrypto (bytes * string) := {
  obfuscate := spell;
  deobfuscate := unspell;
  encode_to_vec := to_bytes;
  decode_storable := from_bytes;
  build _ b a := (b, a);
  deconstruct x a := if decide (x.2 = a) then Ok x.1 else Err KindOther;
}.
#[local] Instance plain_crypto_spec : VssCryptoSpec (bytes * string).
Proof.
  split.
  - induction s as [|[a b c d e f g h] s IH]; [done|]. cbn in *. rewrite IH.
    by destruct a, b, c, d, e, f, g, h.
  - induction s as [|[a b c d e f g h] s IH]; [done|]. unfold no_hash, all_chars in *. cbn in *. rewrite IH.
    by destruct a, b, c, d, e, f, g, h.
  - intros x. apply from_to_bytes.
  - intros e b a. cbn. by rewrite decide_True.
  - intros e b a a' Hne. cbn. rewrite decide_False by done. eauto.
Qed.

(** Two pages of one name each. *)
Definition name_of (key : string) : string :=
  VssStore.build_obfuscated_key VssStore.V1 ("bdk_wallet", "p2tr", key)%string.
Definition two_pages (prefix : string) (token : option string) : option (list string * option string) :=
  match token with
  | None => Some ([name_of "network"], Some "more"%string)
  | Some _ => Some ([name_of "descriptor"], Some EmptyString)
  end.
Definition endless (prefix : string) (token : option string) : option (list string * option string) :=
  Some ([name_of "network"], None).

Lemma listing_ends_witness :
  VssStore.list_all_keys two_pages VssStore.V1 3 "bdk_wallet" "p2tr" =
    Some (Ok ["network"; "descriptor"]%string) ∧
  VssStore.list_all_keys endless VssStore.V1 1000 "bdk_wallet" "p2tr" = None.
Proof.
  split.
  - refine (eq_trans (proj1 (VssStore.listing_ends two_pages VssStore.V1 "bdk_wallet" "p2tr")
      [[name_of "network"]; [name_of "descriptor"]] 3%nat _ _) _).
    + eapply VssStore.ServedPage; [discriminate|reflexivity|].
      eapply VssStore.ServedPage; [discriminate|reflexivity|]. apply VssStore.ServedEnd.
    + repeat constructor.
    + vm_compute. reflexivity.
  - refine (proj2 (VssStore.listing_ends endless VssStore.V1 "bdk_wallet" "p2tr")
      [name_of "network"] ["network"%string] eq_refl _ 1000%nat). vm_compute. reflexivity.
Defined.
